(* ===== verification/_CoqProject ===== *)
-Q . S2P
Prelude.v
Text.v
Bytes.v
Codecs.v
Crypto.v
ChannelId.v
Config.v
Lcss.v
Wire.v
Sphinx.v
State.v
Store.v
Json.v
Node.v
Gossip.v
World.v
Tasks.v
Ledger.v
Scanner.v
Keys.v
Persist.v
ClnStore.v
ClnNode.v
ChannelBase.v
ChannelForward.v
Htlc.v
ChannelUpdate.v
ChannelOpen.v
ChannelAdmin.v
ChannelSound.v
ChannelInv.v
Contended.v
Scenario.v
ChannelCommit.v
ChannelAdd.v
ChannelSafety.v
Race.v
Racy.v
Losses.v
PluginRequest.v
Plugin.v
PluginCommands.v
PluginToy.v
PluginSound.v
PluginRacy.v
PluginLocked.v
PluginDispatch.v
PluginSettings.v
PluginVerify.v
PluginFindings.v
