(* ===== verification/Prelude.v ===== *)
(** * canopus: a verification development

    canopus is the host side of bLIP-17 hosted channels, a plugin of Core
    Lightning written in Rust ([src/src/]).  This library translates it into Rocq
    and proves what makes it correct: that funds are conserved, that host and
    client agree on every signed state, that what is persisted is what was meant,
    and that no message, request or failure breaks a channel.

    ** The program and its model

    From the wire up; each file models the source named with it.

    - [Text], [Bytes], [Prelude]: strings, octets, machine integers ([u16], [u32],
      [u64] as ranges of [Z], with [wrapN], [checked_*] and [saturating_*] written
      out), the [result] and [outcome] monads, shared tactics and hints.
    - [Codecs] ([wire/codecs.rs]), [Lcss] ([wire/lcss.rs]), [Wire]
      ([wire/mod.rs]): readers and writers, the last cross-signed state (LCSS)
      with its signature, the nineteen messages and their two framings.
    - [Crypto], [Sphinx] ([sphinx.rs]), [Keys] ([keys.rs]): the interface to the
      third-party primitives, the onion, the forms of [hsm_secret].
    - [ChannelId] ([channel_id.rs]), [Gossip] ([gossip.rs]), [Config]
      ([config.rs]), [Scanner] ([scanner.rs]).
    - [State] ([state.rs]): folding pending updates into the next signed state.
    - [Store] ([store.rs]), [Persist] (its serde attributes), [Ledger]
      ([ledger.rs]), [ClnStore] ([cln_store.rs]): the datastore interface and its
      contract [StoreLaws], the memory store, the JSON form of the records, and
      lightningd's datastore.
    - [Node] ([node.rs]), [Json], [ClnNode] ([cln_node.rs]): what the channels ask
      of the node, and how lightningd answers.
    - [World]: a handler is a function from a world — store, node, two in-memory
      tables, log of effects — to a result and the next world.  An error keeps the
      effects made before it, as an early return does.
    - [Tasks]: handlers as tasks that yield at every [await], and pools of them run
      in any order on one world.  [Contended]: whole handlers as threads on a store
      that changes around each of their writes.
    - [ChannelBase], [ChannelForward], [ChannelUpdate], [ChannelOpen],
      [ChannelAdmin] ([channel.rs], one definition per method, in five parts),
      [Htlc] ([htlc.rs]).
    - [PluginRequest], [Plugin], [PluginCommands] ([main.rs]): options, hooks,
      notifications, background tasks and the [canopus-*] commands as functions
      of the JSON request over the plugin's state.

    The plugin takes a request apart and calls the controller; the controller reads
    and writes records through [Store], folds them with [State], signs and sends
    them with [Lcss] and [Wire], and records money movements in [Ledger].  Clients
    of an interface ([Store] with [StoreLaws], or [SharedStore] where others write
    to it too, [NodeActions], [PluginNode], [JsonValue], [Crypto],
    [OnionCrypto], [KeyDerivation], [ClnRpc]) are proved against its class;
    [memory_store_laws], [cln_store_refines] and the [Toy*] instances discharge it.

    ** What is proved

    - Whole runs: [ChannelSound], [ChannelInv] and [ChannelSafety] show that in
      every state reached by [admissible] inputs each stored channel can be committed
      and adds up to its capacity; [PluginSound] lifts that to every JSON request.
      What [admissible] asks of the peer's messages, the code does not check.
    - Commitments: [ChannelCommit] — which [state_update] is accepted, persist
      before send, both signatures; [ChannelAdd] — when an HTLC is put on a
      channel; [ChannelSafety.honest_peer_commits] — progress.
    - The fold: conservation, mirror images, interleaving ([State]).
    - Storage: compare-and-swap, atomic read-modify-write, subtree deletion
      ([Store]); lightningd's datastore refines the contract ([ClnStore]); the
      JSON form of records ([Persist]); exactly-once events and balances ([Ledger]).
    - Concurrency: any number of requests at once over one store, interleaved at
      their writes and killed at any of them, keep every channel sound
      ([PluginRacy], and [Racy] for the controller alone, on [Contended]); any
      number of claims of one secret, or of records in the ledger, interleaved at
      every [await] ([Race]).
    - Wire formats and onions: round trips, soundness and totality of decoders
      ([Wire], [Sphinx], [Scanner], [ChannelId], [Gossip]).
    - The plugin's edges: locking and unlocking ([PluginLocked], [Keys]), dispatch
      and payment labels ([PluginDispatch]), exported states ([PluginVerify]), bounds
      of settings ([PluginSettings]).
    - Where the code falls short of its intent: in [Losses] and [PluginFindings] as
      theorems on every state in which something is lost (a link inherited by another
      HTLC, an update overwritten, a commitment not answered, an incoming amount not
      looked at), in [Wire] and [Sphinx] as the exact condition of what goes wrong;
      evaluated counterexamples at the end of [ChannelSafety], in [Racy], [Race] and
      [Store].

    [Scenario] and [PluginToy] are a concrete host, peer and plugin over executable
    instances of every interface; the witnesses of the theorems run on them.

    ** Fuel and bounds

    A loop that is not structural takes fuel, and a theorem says how much is
    enough: [delete_subtree_exact] (the tree's size), [peel_onion_total] and
    [parse_tlv_payload] (the payload's length; the one panic is characterised),
    [pushed_loop] (the script's length).  The salt loop of the node key is run for all 2^32 counters at once
    ([rounds 32], [node_key_derivation]).  [Z] values are ranged by hypotheses such
    as [Lcss_typed] and [amount_ok]; wherever the source's arithmetic wraps, panics
    or is checked, so does the model's.  [ErrPanic] is a panic, which aborts the
    task.

    ** Not modelled

    - Interleaving finer than this: in [Contended] a handler sees one state of the store
      between two of its writes, and keeps its own node and tables; what the
      theorems on commitments and adds say is for a handler that is left alone.
      ([Race] has every [await] of the secrets and the ledger, and [cas_json] any
      writes in between.)  The wait of a hook for its resolution is split into
      steps.
    - Third-party code: cryptography, [serde_json]'s text, [cln_plugin]'s protocol,
      invoice parsing, block parsing.  The class laws [JsonLaws] ask that records
      survive their encoding; [Persist] shows it for records within their types.
    - [serde]'s positional form of structs; logging and tracing; the names and
      descriptions of options and commands; zeroization of keys; the test modules.
    - [ClnStore] gives coarser errors than the memory store and refuses a key
      under an existing leaf; its contract is stated for keys that are not
      prefixes of one another. *)
From stdpp Require Export base numbers list strings gmap pretty.
From stdpp Require Import options.
From Stdlib Require Export ZArith Lia.

#[global] Open Scope Z_scope.

(** ** Results *)

(** Rust's [Result<A, E>], error type first so that [result E] is a monad. *)
Inductive result (E A : Type) : Type :=
| Ok (a : A)
| Err (e : E).
Arguments Ok {E A} a.
Arguments Err {E A} e.

#[global] Instance result_ret {E} : MRet (result E) := fun A a => Ok a.
#[global] Instance result_bind {E} : MBind (result E) :=
  fun A B f r => match r with Ok a => f a | Err e => Err e end.
#[global] Instance result_fmap {E} : FMap (result E) :=
  fun A B f r => match r with Ok a => Ok (f a) | Err e => Err e end.

(** [Option::ok_or]. *)
Definition ok_or {E A} (o : option A) (e : E) : result E A :=
  match o with Some a => Ok a | None => Err e end.

(** [Result::map_err]. *)
Definition map_err {E E' A} (f : E → E') (r : result E A) : result E' A :=
  match r with Ok a => Ok a | Err e => Err (f e) end.

Definition is_ok {E A} (r : result E A) : bool :=
  match r with Ok _ => true | Err _ => false end.

Lemma result_bind_ok {E A B} (r : result E A) (f : A → result E B) b :
  r ≫= f = Ok b ↔ ∃ a, r = Ok a ∧ f a = Ok b.
Proof. destruct r; naive_solver. Qed.

Lemma map_err_ok {E F A} (f : E → F) (r : result E A) a : map_err f r = Ok a ↔ r = Ok a.
Proof. destruct r; naive_solver. Qed.

Lemma ok_or_ok {E A} (o : option A) (e : E) a : ok_or o e = Ok a ↔ o = Some a.
Proof. destruct o; naive_solver. Qed.

Lemma is_ok_true {E A} (r : result E A) : is_ok r = true ↔ ∃ a, r = Ok a.
Proof. destruct r; naive_solver. Qed.

(** What a call does when it can also panic; [OutOfFuel] is an artefact of the
    model that each user proves unreachable. *)
Inductive outcome (A : Type) : Type :=
| Returns (a : A)
| Panics
| OutOfFuel.
Arguments Returns {A} a.
Arguments Panics {A}.
Arguments OutOfFuel {A}.

#[global] Instance outcome_ret : MRet outcome := fun A a => Returns a.
#[global] Instance outcome_bind : MBind outcome :=
  fun A B f o => match o with Returns a => f a | Panics => Panics | OutOfFuel => OutOfFuel end.

(** ** Machine integers

    A Rust unsigned integer is a [Z] with its range as a predicate.  Arithmetic
    that the source writes with a bare operator is wrapped explicitly (the
    program is built with [cargo build --release], where overflow wraps);
    [checked_*] and [saturating_*] calls are the functions below. *)

Definition U8_MAX : Z := 2 ^ 8 - 1.
Definition U16_MAX : Z := 2 ^ 16 - 1.
Definition U32_MAX : Z := 2 ^ 32 - 1.
Definition U64_MAX : Z := 2 ^ 64 - 1.

Definition u8 (z : Z) : Prop := 0 ≤ z < 2 ^ 8.
Definition u16 (z : Z) : Prop := 0 ≤ z < 2 ^ 16.
Definition u32 (z : Z) : Prop := 0 ≤ z < 2 ^ 32.
Definition u64 (z : Z) : Prop := 0 ≤ z < 2 ^ 64.

#[global] Instance u8_dec z : Decision (u8 z).
Proof. unfold u8; apply _. Defined.
#[global] Instance u16_dec z : Decision (u16 z).
Proof. unfold u16; apply _. Defined.
#[global] Instance u32_dec z : Decision (u32 z).
Proof. unfold u32; apply _. Defined.
#[global] Instance u64_dec z : Decision (u64 z).
Proof. unfold u64; apply _. Defined.

Definition wrap16 (z : Z) : Z := z mod 2 ^ 16.
Definition wrap32 (z : Z) : Z := z mod 2 ^ 32.
Definition wrap64 (z : Z) : Z := z mod 2 ^ 64.

Definition checked_add_u64 (a b : Z) : option Z :=
  if a + b <? 2 ^ 64 then Some (a + b) else None.
Definition checked_sub_u64 (a b : Z) : option Z :=
  if b <=? a then Some (a - b) else None.
Definition checked_mul_u64 (a b : Z) : option Z :=
  if a * b <? 2 ^ 64 then Some (a * b) else None.
Definition checked_add_u32 (a b : Z) : option Z :=
  if a + b <? 2 ^ 32 then Some (a + b) else None.
Definition saturating_add_u64 (a b : Z) : Z := Z.min (a + b) U64_MAX.
Definition saturating_sub_u64 (a b : Z) : Z := Z.max (a - b) 0.
Definition saturating_mul_u64 (a b : Z) : Z := Z.min (a * b) U64_MAX.
Definition saturating_add_u32 (a b : Z) : Z := Z.min (a + b) U32_MAX.
Definition saturating_sub_u32 (a b : Z) : Z := Z.max (a - b) 0.
Definition abs_diff_u32 (a b : Z) : Z := Z.abs (a - b).

Lemma checked_add_u64_some a b c :
  checked_add_u64 a b = Some c ↔ c = a + b ∧ a + b < 2 ^ 64.
Proof. unfold checked_add_u64; destruct (Z.ltb_spec (a + b) (2 ^ 64)); naive_solver lia. Qed.

Lemma checked_sub_u64_some a b c :
  checked_sub_u64 a b = Some c ↔ c = a - b ∧ b ≤ a.
Proof. unfold checked_sub_u64; destruct (Z.leb_spec b a); naive_solver lia. Qed.

Lemma wrap32_small z : u32 z → wrap32 z = z.
Proof. intros; by apply Z.mod_small. Qed.
Lemma wrap16_small z : u16 z → wrap16 z = z.
Proof. intros; by apply Z.mod_small. Qed.
Lemma wrap64_small z : u64 z → wrap64 z = z.
Proof. intros; by apply Z.mod_small. Qed.
Lemma wrap32_u32 z : u32 (wrap32 z).
Proof. apply Z.mod_pos_bound; lia. Qed.
Lemma wrap16_u16 z : u16 (wrap16 z).
Proof. apply Z.mod_pos_bound; lia. Qed.
Lemma wrap64_u64 z : u64 (wrap64 z).
Proof. apply Z.mod_pos_bound; lia. Qed.

Lemma ltb_false (x y : Z) : y ≤ x → (x <? y) = false.
Proof. apply Z.ltb_ge. Qed.
Lemma ltb_true (x y : Z) : x < y → (x <? y) = true.
Proof. apply Z.ltb_lt. Qed.
Lemma leb_false (x y : Z) : y < x → (x <=? y) = false.
Proof. apply Z.leb_gt. Qed.
Lemma leb_true (x y : Z) : x ≤ y → (x <=? y) = true.
Proof. apply Z.leb_le. Qed.

(** ** Sums over lists *)

Fixpoint sum_with {A} (f : A → Z) (l : list A) : Z :=
  match l with
  | [] => 0
  | x :: l => f x + sum_with f l
  end.

Lemma sum_with_app {A} (f : A → Z) l k : sum_with f (l ++ k) = sum_with f l + sum_with f k.
Proof. induction l as [|x l IH]; cbn; lia. Qed.

Lemma sum_with_nonneg {A} (f : A → Z) l : Forall (λ x, 0 ≤ f x) l → 0 ≤ sum_with f l.
Proof. induction 1; cbn; lia. Qed.

(** ** Lists *)

(** Number of elements as a [Z] ([Vec::len]). *)
Definition len {A} (l : list A) : Z := Z.of_nat (length l).

Lemma len_cons {A} (a : A) l : len (a :: l) = len l + 1.
Proof. unfold len; cbn [length]; lia. Qed.
Lemma len_app {A} (l k : list A) : len (l ++ k) = len l + len k.
Proof. unfold len; rewrite length_app; lia. Qed.

Lemma len_nonneg {A} (l : list A) : 0 ≤ len l.
Proof. unfold len; lia. Qed.

(** ** Automation *)

Create HintDb canopus.
#[export] Hint Resolve wrap16_u16 wrap32_u32 wrap64_u64 len_nonneg : canopus.

(** Split every [match] of the hypotheses, discarding the impossible branches. *)
Ltac crush_match :=
  repeat (case_match; simplify_eq/=; try done).

(** Case on one integer comparison of the goal or of a hypothesis. *)
Ltac zcase :=
  match goal with
  | |- context [?a <? ?b] => destruct (Z.ltb_spec a b)
  | |- context [?a <=? ?b] => destruct (Z.leb_spec a b)
  | |- context [?a =? ?b] => destruct (Z.eqb_spec a b)
  | H : context [?a <? ?b] |- _ => destruct (Z.ltb_spec a b)
  | H : context [?a <=? ?b] |- _ => destruct (Z.leb_spec a b)
  | H : context [?a =? ?b] |- _ => destruct (Z.eqb_spec a b)
  end.

Ltac zcase_in H :=
  match type of H with
  | context [?a <? ?b] => destruct (Z.ltb_spec a b)
  | context [?a <=? ?b] => destruct (Z.leb_spec a b)
  | context [?a =? ?b] => destruct (Z.eqb_spec a b)
  end.
