(* ===== verification/Text.v ===== *)
(** * Strings

    The string operations of Rust's standard library that the sources use:
    [split], [join], [strip_prefix], decimal [to_string] and [parse].  Strings
    are sequences of octets. *)
From S2P Require Import Prelude.
From stdpp Require Import options.
From Stdlib Require Import Ascii.
#[local] Open Scope Z_scope.

(** [s.split(c)]: never empty. *)
Fixpoint split_on (c : ascii) (s : string) : list string :=
  match s with
  | EmptyString => [""]
  | String a s =>
      if Ascii.eqb a c then "" :: split_on c s
      else match split_on c s with
           | p :: ps => String a p :: ps
           | [] => [String a ""]
           end
  end.

(** [parts.join(sep)] for a one-character separator. *)
Fixpoint join_with (c : ascii) (parts : list string) : string :=
  match parts with
  | [] => ""
  | [p] => p
  | p :: ps => p +:+ String c (join_with c ps)
  end.

(** [s.strip_prefix(prefix)]. *)
Fixpoint str_strip_prefix (prefix s : string) : option string :=
  match prefix, s with
  | EmptyString, s => Some s
  | String a p, String b s => if Ascii.eqb a b then str_strip_prefix p s else None
  | String _ _, EmptyString => None
  end.

Fixpoint string_forall (p : ascii → bool) (s : string) : bool :=
  match s with
  | EmptyString => true
  | String a s => p a && string_forall p s
  end.

(** No occurrence of a character. *)
Definition lacks (c : ascii) (s : string) : bool := string_forall (λ a, negb (Ascii.eqb a c)) s.

Definition ascii_Z (a : ascii) : Z := Z.of_nat (nat_of_ascii a).
Definition is_ascii_digit (a : ascii) : bool := (48 <=? ascii_Z a) && (ascii_Z a <=? 57).

Fixpoint decimal_value (acc : Z) (s : string) : Z :=
  match s with
  | EmptyString => acc
  | String a s => decimal_value (10 * acc + (ascii_Z a - 48)) s
  end.

(** [s.parse::<u64>()] on a string already known to consist of digits. *)
Definition parse_digits_u64 (s : string) : option Z :=
  match s with
  | EmptyString => None
  | _ => let v := decimal_value 0 s in if v <? 2 ^ 64 then Some v else None
  end.

(** [s.parse::<u64>()]: a leading [+] is accepted when digits follow. *)
Definition parse_u64 (s : string) : option Z :=
  let digits := match s with
                | String "+"%char ((String _ _) as s') => s'
                | _ => s
                end in
  if string_forall is_ascii_digit digits then parse_digits_u64 digits else None.

(** ** Facts *)

Lemma string_app_nil s : "" +:+ s = s.
Proof. done. Qed.
Lemma string_app_cons a s1 s2 : String a s1 +:+ s2 = String a (s1 +:+ s2).
Proof. done. Qed.

Lemma split_on_nonempty c s : ∃ p ps, split_on c s = p :: ps.
Proof.
  destruct s as [|a s]; cbn; [by eexists _, _|].
  destruct (Ascii.eqb a c); [by eexists _, _|].
  destruct (split_on c s); by eexists _, _.
Qed.

Lemma split_on_app c p s :
  lacks c p = true → split_on c (p +:+ String c s) = p :: split_on c s.
Proof.
  induction p as [|a p IH]; rewrite ?string_app_nil, ?string_app_cons; cbn.
  - by rewrite Ascii.eqb_refl.
  - intros [Ha Hp]%andb_true_iff. apply negb_true_iff in Ha. rewrite Ha, IH by done. done.
Qed.

Lemma split_on_lacks c p : lacks c p = true → split_on c p = [p].
Proof.
  induction p as [|a p IH]; cbn; [done|].
  intros [Ha Hp]%andb_true_iff. apply negb_true_iff in Ha. by rewrite Ha, IH.
Qed.

(** Splitting undoes joining when no part contains the separator. *)
Lemma split_on_join c parts :
  parts ≠ [] → Forall (λ p, lacks c p = true) parts → split_on c (join_with c parts) = parts.
Proof.
  intros Hne HF. induction HF as [|p ps Hp HF IH]; [done|].
  destruct ps as [|q ps]; [by apply split_on_lacks|].
  change (join_with c (p :: q :: ps)) with (p +:+ String c (join_with c (q :: ps))).
  rewrite split_on_app by done. by rewrite IH.
Qed.

Lemma str_strip_prefix_app p s : str_strip_prefix p (p +:+ s) = Some s.
Proof.
  induction p as [|a p IH]; [done|]. rewrite string_app_cons. cbn. by rewrite Ascii.eqb_refl.
Qed.

Lemma str_strip_prefix_some p s r : str_strip_prefix p s = Some r → s = p +:+ r.
Proof.
  revert s. induction p as [|a p IH]; intros s; cbn; [by injection 1|].
  destruct s as [|b s]; [done|]. destruct (Ascii.eqb_spec a b); [|done].
  intros ->%IH. by subst.
Qed.

(** ** Decimal printing *)

Lemma decimal_value_digit (n : N) :
  (n < 10)%N → ascii_Z (pretty_N_char n) - 48 = Z.of_N n ∧ is_ascii_digit (pretty_N_char n) = true.
Proof.
  intros Hn. destruct (decide (n = 0 ∨ n = 1 ∨ n = 2 ∨ n = 3 ∨ n = 4 ∨ n = 5 ∨ n = 6 ∨ n = 7 ∨
                       n = 8 ∨ n = 9)%N) as [Hd|]; [|lia].
  by destruct Hd as [->|[->|[->|[->|[->|[->|[->|[->|[->| ->]]]]]]]]].
Qed.

Lemma decimal_value_nonneg acc s :
  string_forall is_ascii_digit s = true → 0 ≤ acc → 0 ≤ decimal_value acc s.
Proof.
  revert acc. induction s as [|a s IH]; intros acc Hs Ha; [done|]. cbn in *.
  apply andb_true_iff in Hs as [Hd Hs]. unfold is_ascii_digit in Hd. apply IH; [done|lia].
Qed.

Lemma decimal_value_go (x : N) s :
  decimal_value 0 (pretty_N_go x s) = decimal_value (Z.of_N x) s.
Proof.
  revert s. induction (N.lt_wf_0 x) as [x _ IH]; intros s.
  destruct (decide (0 < x)%N) as [Hx|Hx].
  - rewrite pretty_N_go_step by done. rewrite IH by (apply N.div_lt; lia). cbn.
    destruct (decimal_value_digit (x mod 10)) as [-> _]; [apply N.mod_lt; lia|].
    f_equal. rewrite N2Z.inj_div, N2Z.inj_mod. change (Z.of_N 10) with 10.
    pose proof (Z.div_mod (Z.of_N x) 10). lia.
  - assert (x = 0%N) as -> by lia. by rewrite pretty_N_go_0.
Qed.

Lemma digits_go (x : N) s :
  string_forall is_ascii_digit s = true → string_forall is_ascii_digit (pretty_N_go x s) = true.
Proof.
  revert s. induction (N.lt_wf_0 x) as [x _ IH]; intros s Hs.
  destruct (decide (0 < x)%N) as [Hx|Hx].
  - rewrite pretty_N_go_step by done. apply IH; [apply N.div_lt; lia|]. cbn.
    destruct (decimal_value_digit (x mod 10)) as [_ ->]; [apply N.mod_lt; lia|]. done.
  - assert (x = 0%N) as -> by lia. by rewrite pretty_N_go_0.
Qed.

Lemma pretty_Z_nonneg z :
  0 ≤ z → string_forall is_ascii_digit (pretty z) = true ∧ decimal_value 0 (pretty z) = z ∧
          pretty z ≠ "".
Proof.
  intros Hz. destruct z as [|p|p]; [done| |lia].
  change (pretty (Zpos p)) with (pretty (Npos p)). unfold pretty, pretty_N.
  rewrite decide_False by done. split; [by apply digits_go|]. split; [apply (decimal_value_go (Npos p))|].
  intros Heq. pose proof (decimal_value_go (Npos p) "") as Hv. rewrite Heq in Hv. done.
Qed.

Lemma digits_lack c s :
  string_forall is_ascii_digit s = true → is_ascii_digit c = false → lacks c s = true.
Proof.
  intros Hs Hc. induction s as [|a s IH]; [done|].
  apply andb_true_iff in Hs as [Ha Hs]. apply andb_true_iff. split; [|by apply IH].
  destruct (Ascii.eqb_spec a c); [congruence|done].
Qed.

Lemma parse_digits_pretty z : u64 z → parse_digits_u64 (pretty z) = Some z.
Proof.
  intros [Hz1 Hz2]. destruct (pretty_Z_nonneg z Hz1) as (_ & Hv & Hne).
  unfold parse_digits_u64. destruct (pretty z); [done|]. rewrite Hv.
  by rewrite ltb_true by lia.
Qed.

Lemma parse_u64_digits s : string_forall is_ascii_digit s = true → parse_u64 s = parse_digits_u64 s.
Proof.
  destruct s as [|a s]; [done|]. intros Hs. unfold parse_u64.
  assert (a ≠ "+"%char) as Ha by (intros ->; done).
  destruct a as [[] [] [] [] [] [] [] []]; try done; cbv zeta; by rewrite Hs.
Qed.

Lemma parse_u64_pretty z : u64 z → parse_u64 (pretty z) = Some z.
Proof.
  intros Hz. rewrite parse_u64_digits by (apply pretty_Z_nonneg, Hz). by apply parse_digits_pretty.
Qed.

Lemma pretty_Z_lacks c z : 0 ≤ z → is_ascii_digit c = false → lacks c (pretty z) = true.
Proof. intros Hz Hc. apply digits_lack; [|done]. by apply pretty_Z_nonneg. Qed.

Lemma lacks_app c s1 s2 : lacks c (s1 +:+ s2) = lacks c s1 && lacks c s2.
Proof.
  unfold lacks. induction s1 as [|a s1 IH]; [done|]. rewrite string_app_cons. cbn.
  by rewrite IH, andb_assoc.
Qed.

Lemma pretty_lacks c (z : Z) : is_ascii_digit c = false → c ≠ "-"%char → lacks c (pretty z) = true.
Proof.
  intros Hc Hm. destruct (Z.le_gt_cases 0 z) as [Hz|Hz]; [by apply pretty_Z_lacks|].
  destruct z as [|p|p]; [lia..|].
  change (lacks c ("-" +:+ pretty (Zpos p)) = true). rewrite lacks_app, pretty_Z_lacks, andb_true_r by done.
  unfold lacks; cbn -[Ascii.eqb]. destruct (Ascii.eqb_spec "-" c); [congruence|done].
Qed.

Lemma pretty_Z_nonneg_inj a b : 0 ≤ a → 0 ≤ b → pretty a = pretty b → a = b.
Proof.
  intros Ha Hb Heq. destruct (pretty_Z_nonneg a Ha) as (_ & Hva & _).
  destruct (pretty_Z_nonneg b Hb) as (_ & Hvb & _). rewrite Heq in Hva. lia.
Qed.

(** ** Joining *)

Lemma string_app_assoc (s1 s2 s3 : string) : s1 +:+ (s2 +:+ s3) = (s1 +:+ s2) +:+ s3.
Proof.
  induction s1 as [|a s1 IH]; [done|]. rewrite !string_app_cons. by f_equal.
Qed.

Lemma string_app_char s1 a s2 : s1 +:+ String a s2 = (s1 +:+ String a "") +:+ s2.
Proof. by rewrite <-string_app_assoc. Qed.

Lemma join_with_app c p q :
  p ≠ [] → q ≠ [] → join_with c (p ++ q) = join_with c p +:+ String c (join_with c q).
Proof.
  intros Hp Hq. induction p as [|x p IH]; [done|]. destruct p as [|y p].
  - cbn. destruct q; done.
  - change (join_with c ((x :: y :: p) ++ q)) with (x +:+ String c (join_with c ((y :: p) ++ q))).
    rewrite IH by done.
    change (join_with c (x :: y :: p)) with (x +:+ String c (join_with c (y :: p))).
    by rewrite <-string_app_assoc.
Qed.

Lemma join_with_split c s : join_with c (split_on c s) = s.
Proof.
  induction s as [|a s IH]; cbn; [done|].
  destruct (split_on_nonempty c s) as (p & ps & Hs). rewrite Hs in IH |- *.
  destruct (Ascii.eqb_spec a c) as [->|].
  - change (join_with c ("" :: p :: ps)) with ("" +:+ String c (join_with c (p :: ps))).
    by rewrite IH.
  - destruct ps as [|q ps]; cbn in *; [by subst|].
    rewrite string_app_cons. by rewrite IH.
Qed.

Lemma split_on_parts c s : Forall (λ p, lacks c p = true) (split_on c s).
Proof.
  induction s as [|a s IH]; cbn; [by repeat constructor|].
  destruct (Ascii.eqb_spec a c) as [->|Hac]; [by constructor|].
  destruct (split_on c s) as [|p ps].
  - repeat constructor. cbn. destruct (Ascii.eqb_spec a c); done.
  - apply Forall_cons in IH as [Hp Hps]. constructor; [|done].
    cbn. rewrite (proj2 (Ascii.eqb_neq a c) Hac). exact Hp.
Qed.
