(* ===== verification/Bytes.v ===== *)
(** * Bytes

    Octets, and the big- and little-endian integer conversions of the standard
    library ([to_be_bytes], [from_be_bytes], [to_le_bytes]) which the [bytes]
    crate's [put_uN]/[get_uN] calls of the sources perform. *)
From S2P Require Import Prelude.
From Stdlib Require Import Init.Byte Strings.Byte.
From Stdlib Require Strings.String.
From stdpp Require Import options.

Abbreviation byte := Init.Byte.byte.

#[global] Instance byte_eq_dec : EqDecision byte := Byte.byte_eq_dec.

Definition Z_of_byte (b : byte) : Z := Z.of_N (Byte.to_N b).
Definition byte_of_Z (z : Z) : byte :=
  default x00 (Byte.of_N (Z.to_N (Z.land z 255))).

Lemma land_255 z : Z.land z 255 = z mod 256.
Proof. apply (Z.land_ones z 8). lia. Qed.

Lemma Z_of_byte_bound b : 0 ≤ Z_of_byte b < 256.
Proof. unfold Z_of_byte. pose proof (Byte.to_N_bounded b). lia. Qed.

Lemma Z_of_byte_of_Z z : Z_of_byte (byte_of_Z z) = z mod 256.
Proof.
  unfold Z_of_byte, byte_of_Z. rewrite land_255.
  pose proof (Z.mod_pos_bound z 256 ltac:(lia)).
  destruct (Byte.of_N _) as [b|] eqn:E; cbn.
  - apply Byte.to_of_N in E. rewrite E. lia.
  - apply Byte.of_N_None_iff in E. lia.
Qed.

Lemma byte_of_Z_of_byte b : byte_of_Z (Z_of_byte b) = b.
Proof.
  unfold Z_of_byte, byte_of_Z. pose proof (Byte.to_N_bounded b).
  rewrite land_255, Z.mod_small by lia. rewrite N2Z.id. by rewrite Byte.of_to_N.
Qed.

#[global] Instance Z_of_byte_inj : Inj (=) (=) Z_of_byte.
Proof. intros a b H. by rewrite <-(byte_of_Z_of_byte a), H, byte_of_Z_of_byte. Qed.

#[global] Instance byte_countable : Countable byte.
Proof. apply (inj_countable' Z_of_byte byte_of_Z), byte_of_Z_of_byte. Defined.

(** [uN::from_be_bytes]. *)
Definition be_Z (l : list byte) : Z := foldl (λ acc b, 256 * acc + Z_of_byte b) 0 l.

(** [uN::to_be_bytes]: the [n] low-order octets of [z], most significant first. *)
Fixpoint be_bytes_onto (n : nat) (z : Z) (l : list byte) : list byte :=
  match n with
  | O => l
  | S n => be_bytes_onto n (Z.shiftr z 8) (byte_of_Z z :: l)
  end.

Definition be_bytes (n : nat) (z : Z) : list byte := be_bytes_onto n z [].

Lemma byte_of_Z_eq x y : x mod 256 = y mod 256 → byte_of_Z x = byte_of_Z y.
Proof. intros H. unfold byte_of_Z. by rewrite !land_255, H. Qed.

Lemma be_bytes_onto_S n z l :
  be_bytes_onto (S n) z l = byte_of_Z (z / 256 ^ Z.of_nat n) :: be_bytes_onto n z l.
Proof.
  revert z l. induction n as [|n IH]; intros z l.
  - cbn. by rewrite Z.div_1_r.
  - change (be_bytes_onto (S (S n)) z l) with (be_bytes_onto (S n) (Z.shiftr z 8) (byte_of_Z z :: l)).
    rewrite IH. cbn [be_bytes_onto]. f_equal. f_equal.
    rewrite Z.shiftr_div_pow2, Z.div_div by lia. f_equal.
    rewrite Nat2Z.inj_succ, Z.pow_succ_r by lia. lia.
Qed.

Lemma be_bytes_S n z : be_bytes (S n) z = byte_of_Z (z / 256 ^ Z.of_nat n) :: be_bytes n z.
Proof. apply be_bytes_onto_S. Qed.

(** [uN::to_le_bytes] and [uN::from_le_bytes]. *)
Definition le_bytes (n : nat) (z : Z) : list byte := reverse (be_bytes n z).
Definition le_Z (l : list byte) : Z := be_Z (reverse l).

Lemma be_Z_acc acc l :
  foldl (λ acc b, 256 * acc + Z_of_byte b) acc l = acc * 256 ^ len l + be_Z l.
Proof.
  unfold be_Z, len. revert acc. induction l as [|b l IH]; intros acc; cbn [foldl length].
  - lia.
  - rewrite IH, (IH (256 * 0 + _)). rewrite Nat2Z.inj_succ, Z.pow_succ_r by lia. lia.
Qed.

Lemma be_Z_cons b l : be_Z (b :: l) = Z_of_byte b * 256 ^ len l + be_Z l.
Proof. unfold be_Z at 1. cbn [foldl]. rewrite be_Z_acc. lia. Qed.

Lemma be_Z_bound l : 0 ≤ be_Z l < 256 ^ len l.
Proof.
  induction l as [|b l IH]; [cbv; split; congruence|].
  rewrite be_Z_cons. pose proof (Z_of_byte_bound b).
  unfold len in *. cbn [length]. rewrite Nat2Z.inj_succ, Z.pow_succ_r by lia. nia.
Qed.

Lemma be_bytes_length n z : length (be_bytes n z) = n.
Proof. induction n; [done|]. rewrite be_bytes_S. cbn. congruence. Qed.

Lemma be_bytes_len n z : len (be_bytes n z) = Z.of_nat n.
Proof. unfold len; by rewrite be_bytes_length. Qed.

Lemma be_Z_be_bytes n z : be_Z (be_bytes n z) = z mod 256 ^ Z.of_nat n.
Proof.
  induction n as [|n IH]; [by rewrite Z.mod_1_r|].
  rewrite be_bytes_S, be_Z_cons, be_bytes_len, IH, Z_of_byte_of_Z.
  rewrite Nat2Z.inj_succ, Z.pow_succ_r by lia.
  rewrite (Z.mul_comm 256), Z.rem_mul_r by lia. lia.
Qed.

Lemma be_Z_be_bytes_id n z : 0 ≤ z < 256 ^ Z.of_nat n → be_Z (be_bytes n z) = z.
Proof. intros. rewrite be_Z_be_bytes. by apply Z.mod_small. Qed.

Lemma digit_mod z m q :
  0 < m → 0 < q → (z mod (m * (256 * q)) / m) mod 256 = (z / m) mod 256.
Proof.
  intros. rewrite (Z.rem_mul_r z m) by lia.
  rewrite (Z.mul_comm m ((z / m) mod (256 * q))), Z.div_add by lia.
  rewrite (Z.div_small (z mod m)), Z.add_0_l by (apply Z.mod_pos_bound; lia).
  rewrite Z.rem_mul_r by lia.
  rewrite (Z.mul_comm 256 (((z / m) / 256) mod q)), Z.mod_add by lia. by rewrite Z.mod_mod by lia.
Qed.

Lemma be_bytes_mod n z : be_bytes n (z mod 256 ^ Z.of_nat n) = be_bytes n z.
Proof.
  assert (∀ k, (k ≤ n)%nat → be_bytes k (z mod 256 ^ Z.of_nat n) = be_bytes k z) as H;
    [|by apply H].
  induction k as [|k IH]; intros Hk; [done|].
  rewrite !be_bytes_S, IH by lia. f_equal.
  apply (inj Z_of_byte). rewrite !Z_of_byte_of_Z.
  replace (Z.of_nat n) with (Z.of_nat k + (1 + (Z.of_nat n - Z.of_nat k - 1))) by lia.
  rewrite !Z.pow_add_r by lia. apply digit_mod; lia.
Qed.

Lemma be_bytes_be_Z l : be_bytes (length l) (be_Z l) = l.
Proof.
  induction l as [|b l IH]; [done|]. cbn [length]. rewrite be_bytes_S.
  pose proof (be_Z_bound l) as Hb. unfold len in Hb. rewrite be_Z_cons. f_equal.
  - unfold len. rewrite Z.div_add_l by lia. rewrite (Z.div_small (be_Z l)) by lia.
    rewrite Z.add_0_r. apply byte_of_Z_of_byte.
  - rewrite <-be_bytes_mod. unfold len.
    rewrite Z.add_comm, Z.mod_add by lia. rewrite Z.mod_small by lia. exact IH.
Qed.

Lemma be_bytes_be_Z' n l : length l = n → be_bytes n (be_Z l) = l.
Proof. intros <-. apply be_bytes_be_Z. Qed.

Lemma be_bytes_inj n x y :
  0 ≤ x < 256 ^ Z.of_nat n → 0 ≤ y < 256 ^ Z.of_nat n →
  be_bytes n x = be_bytes n y → x = y.
Proof.
  intros Hx Hy H. apply (f_equal be_Z) in H.
  by rewrite !be_Z_be_bytes_id in H.
Qed.

Lemma le_bytes_length n z : length (le_bytes n z) = n.
Proof. unfold le_bytes. by rewrite length_reverse, be_bytes_length. Qed.

Lemma le_bytes_inj n x y :
  0 ≤ x < 256 ^ Z.of_nat n → 0 ≤ y < 256 ^ Z.of_nat n →
  le_bytes n x = le_bytes n y → x = y.
Proof. intros ?? H. apply (inj reverse) in H. by eapply be_bytes_inj. Qed.

#[global] Opaque be_bytes be_Z.

(** A Rust [String] or [&str] as its octets, and back. *)
Definition string_of_bytes (l : list byte) : string := Stdlib.Strings.String.string_of_list_byte l.
Definition bytes_of_string (s : string) : list byte := Stdlib.Strings.String.list_byte_of_string s.
