(* ===== verification/Codecs.v ===== *)
(** * Low-level codecs ([src/wire/codecs.rs])

    Readers consume a prefix of a buffer or fail; writers append to a buffer and
    may stop with an error after having appended a part, as the Rust writers over
    [&mut BytesMut] do.  The file models every reader and writer, the BOLT varint
    with its minimality rule, the [update_add_htlc] body and the TLV validation. *)
From S2P Require Import Prelude Bytes.
From stdpp Require Import options.
From stdpp Require Import sorting.
#[local] Open Scope Z_scope.

Inductive DecodeError : Type :=
| Eof
| Invalid (msg : string).

Inductive EncodeError : Type :=
| Overflow (v : Z)
| VarsizeTooLarge (n : Z)
| InvalidOnionLength (expected actual : Z)
| InvalidUtf8 (msg : string).

(** The [#[error(...)]] renderings, which reach [ChannelError::Encode] and the
    combined error of [decode_legacy_aware]. *)
Definition DecodeError_to_string (e : DecodeError) : string :=
  match e with
  | Eof => "unexpected end of buffer"
  | Invalid s => "invalid value: " +:+ s
  end.

Definition EncodeError_to_string (e : EncodeError) : string :=
  match e with
  | Overflow v => "uint64overflow: value " +:+ pretty v +:+ " exceeds 2^63 - 1"
  | VarsizeTooLarge n => "varsize blob exceeds u16::MAX: " +:+ pretty n +:+ " bytes"
  | InvalidOnionLength e a =>
      "onion routing packet must be exactly " +:+ pretty e +:+ " bytes, got " +:+ pretty a
  | InvalidUtf8 s => "invalid UTF-8: " +:+ s
  end.

(** ** Readers *)

Definition Decoder (A : Type) : Type := list byte → result DecodeError (A * list byte).

#[global] Instance Decoder_ret : MRet Decoder := λ A a buf, Ok (a, buf).
#[global] Instance Decoder_bind : MBind Decoder := λ A B f d buf,
  match d buf with
  | Ok (a, rest) => f a rest
  | Err e => Err e
  end.

(** [return Err(e)] inside a reader. *)
Definition fail_decode {A} (e : DecodeError) : Decoder A := λ _, Err e.

(** Run a reader on a separate slice, leaving the outer buffer alone. *)
Definition on_slice {A} (slice : list byte) (d : Decoder A) : Decoder (A * list byte) :=
  λ buf, match d slice with Ok r => Ok (r, buf) | Err e => Err e end.

(** A pure check in the middle of a reader ([check(..)?]). *)
Definition lift_check (r : result DecodeError unit) : Decoder unit :=
  λ buf, match r with Ok _ => Ok (tt, buf) | Err e => Err e end.

Definition UINT64_OVERFLOW_MAX : Z := 2 ^ 63 - 1.
Definition TLV_TYPE_HIGH_RANGE : Z := 0x100000000.
Definition ONION_ROUTING_PACKET_SIZE : Z := 1366.

(** [buf.get_uN()] guarded by the [remaining] test of each [read_uN]. *)
Definition read_uint (n : nat) : Decoder Z := λ buf,
  if decide (length buf < n)%nat then Err Eof
  else Ok (be_Z (take n buf), drop n buf).

Definition read_u8 : Decoder Z := read_uint 1.
Definition read_u16 : Decoder Z := read_uint 2.
Definition read_u32 : Decoder Z := read_uint 4.
Definition read_u64 : Decoder Z := read_uint 8.

Definition read_u64_overflow : Decoder Z :=
  v ← read_u64;
  if UINT64_OVERFLOW_MAX <? v
  then fail_decode (Invalid ("uint64overflow: value " +:+ pretty v +:+ " exceeds 2^63 - 1"))
  else mret v.

Definition read_bool : Decoder bool :=
  b ← read_u8; mret (negb (b =? 0)).

Definition read_bytes (n : Z) : Decoder (list byte) := λ buf,
  if len buf <? n then Err Eof
  else Ok (take (Z.to_nat n) buf, drop (Z.to_nat n) buf).

Definition read_varsize : Decoder (list byte) :=
  n ← read_u16; read_bytes n.

Definition read_remaining : Decoder (list byte) := λ buf, Ok (buf, []).

Definition read_32 : Decoder (list byte) := read_bytes 32.
Definition read_signature : Decoder (list byte) := read_bytes 64.

(** Rejects every non-minimal form. *)
Definition read_varint : Decoder Z :=
  prefix ← read_u8;
  if prefix =? 0xff then
    v ← read_u64;
    if v <? TLV_TYPE_HIGH_RANGE
    then fail_decode (Invalid "non-minimal varint: 0xff prefix for value < 0x100000000")
    else mret v
  else if prefix =? 0xfe then
    v ← read_u32;
    if v <? 0x10000
    then fail_decode (Invalid "non-minimal varint: 0xfe prefix for value < 0x10000")
    else mret v
  else if prefix =? 0xfd then
    v ← read_u16;
    if v <? 0xfd
    then fail_decode (Invalid "non-minimal varint: 0xfd prefix for value < 0xfd")
    else mret v
  else mret prefix.

Definition read_length_delimited : Decoder (list byte) :=
  n ← read_varint; read_bytes n.

(** ** Writers *)

(** What a writer appended, and the error it stopped with. *)
Definition enc : Type := list byte * option EncodeError.

Definition enc_ok (l : list byte) : enc := (l, None).
Definition enc_err (e : EncodeError) : enc := ([], Some e).

(** [w1?; w2]: the second writer runs only when the first succeeded. *)
Definition enc_seq (a b : enc) : enc :=
  match a with
  | (l, None) => (l ++ b.1, b.2)
  | (l, Some e) => (l, Some e)
  end.

Declare Scope enc_scope.
Delimit Scope enc_scope with enc.
Notation "a ;; b" := (enc_seq a b) (at level 100, right associativity) : enc_scope.
#[global] Open Scope enc_scope.

(** A loop of writers over a vector. *)
Definition enc_all {A} (f : A → enc) (l : list A) : enc :=
  foldr (λ x acc, enc_seq (f x) acc) (enc_ok []) l.

(** Write into a fresh buffer, then hand its content to [k]
    ([let mut b = BytesMut::new(); w(&mut b)?; k(&b)]). *)
Definition with_buffer (w : enc) (k : list byte → enc) : enc :=
  match w with
  | (l, None) => k l
  | (_, Some e) => enc_err e
  end.

(** A writer run to completion into an empty buffer. *)
Definition enc_result (w : enc) : result EncodeError (list byte) :=
  match w with
  | (l, None) => Ok l
  | (_, Some e) => Err e
  end.

Definition write_u8 (v : Z) : enc := enc_ok (be_bytes 1 v).
Definition write_u16 (v : Z) : enc := enc_ok (be_bytes 2 v).
Definition write_u32 (v : Z) : enc := enc_ok (be_bytes 4 v).
Definition write_u64 (v : Z) : enc := enc_ok (be_bytes 8 v).

Definition write_u64_overflow (v : Z) : enc :=
  if UINT64_OVERFLOW_MAX <? v then enc_err (Overflow v) else enc_ok (be_bytes 8 v).

Definition write_bool (b : bool) : enc := enc_ok (be_bytes 1 (if b then 1 else 0)).

Definition write_bytes (l : list byte) : enc := enc_ok l.
Definition write_32 (l : list byte) : enc := enc_ok l.
Definition write_signature (l : list byte) : enc := enc_ok l.

Definition write_varsize (l : list byte) : enc :=
  if U16_MAX <? len l then enc_err (VarsizeTooLarge (len l))
  else enc_ok (be_bytes 2 (wrap16 (len l)) ++ l).

Definition varint_bytes (v : Z) : list byte :=
  if v <? 0xfd then be_bytes 1 v
  else if v <=? 0xffff then be_bytes 1 0xfd ++ be_bytes 2 v
  else if v <=? 0xffffffff then be_bytes 1 0xfe ++ be_bytes 4 v
  else be_bytes 1 0xff ++ be_bytes 8 v.

Definition write_varint (v : Z) : enc := enc_ok (varint_bytes v).

Definition write_length_delimited (body : list byte) : enc :=
  write_varint (len body);; enc_ok body.

Definition write_u64_le (v : Z) : enc := enc_ok (le_bytes 8 v).
Definition write_u32_le (v : Z) : enc := enc_ok (le_bytes 4 v).
Definition write_u64_overflow_le (v : Z) : enc :=
  if UINT64_OVERFLOW_MAX <? v then enc_err (Overflow v) else enc_ok (le_bytes 8 v).

(** ** TLV streams *)

(** The [while] loop of [validate_tlv_stream]; every iteration that continues
    consumes at least one octet, so [length buf] iterations are enough
    ([validate_tlv_loop_fuel]). *)
Fixpoint validate_tlv_loop (fuel : nat) (buf : list byte) (prev_tag : option Z)
    : result DecodeError unit :=
  match buf, fuel with
  | [], _ => Ok tt
  | _ :: _, O => Err Eof
  | _ :: _, S fuel =>
      '(tag, buf) ← read_varint buf;
      '(n, buf) ← read_varint buf;
      if len buf <? n then Err Eof
      else
        '(_, buf) ← read_bytes n buf;
        if (match prev_tag with Some pt => tag <=? pt | None => false end)
        then Err (Invalid "TLV tags must be strictly monotonically increasing")
        else if (tag <? TLV_TYPE_HIGH_RANGE) && (tag mod 2 =? 0)
        then Err (Invalid ("unknown even TLV type " +:+ pretty tag))
        else validate_tlv_loop fuel buf (Some tag)
  end.

Definition validate_tlv_stream (data : list byte) : result DecodeError unit :=
  validate_tlv_loop (length data) data None.

(** ** [update_add_htlc] *)

Record UpdateAddHtlc : Type := mkUpdateAddHtlc {
  uah_channel_id : list byte;
  uah_id : Z;
  uah_amount_msat : Z;
  uah_payment_hash : list byte;
  uah_cltv_expiry : Z;
  uah_onion_routing_packet : list byte;
  uah_tlv_stream : list byte;
}.

Definition htlc_id (h : UpdateAddHtlc) : Z := uah_id h.

Definition encode_update_add_htlc_body (h : UpdateAddHtlc) : enc :=
  write_32 (uah_channel_id h);;
  write_u64_overflow (uah_id h);;
  write_u64_overflow (uah_amount_msat h);;
  write_32 (uah_payment_hash h);;
  write_u32 (uah_cltv_expiry h);;
  (if negb (len (uah_onion_routing_packet h) =? ONION_ROUTING_PACKET_SIZE)
   then enc_err (InvalidOnionLength ONION_ROUTING_PACKET_SIZE
                   (len (uah_onion_routing_packet h)))
   else write_bytes (uah_onion_routing_packet h);;
        write_bytes (uah_tlv_stream h)).

Definition decode_update_add_htlc_body : Decoder UpdateAddHtlc :=
  channel_id ← read_32;
  id ← read_u64_overflow;
  amount_msat ← read_u64_overflow;
  payment_hash ← read_32;
  cltv_expiry ← read_u32;
  onion ← read_bytes ONION_ROUTING_PACKET_SIZE;
  tlv_stream ← read_remaining;
  _ ← lift_check (validate_tlv_stream tlv_stream);
  mret {| uah_channel_id := channel_id;
          uah_id := id;
          uah_amount_msat := amount_msat;
          uah_payment_hash := payment_hash;
          uah_cltv_expiry := cltv_expiry;
          uah_onion_routing_packet := onion;
          uah_tlv_stream := tlv_stream |}.

(** The ranges and array lengths the Rust type fixes. *)
Definition UpdateAddHtlc_typed (h : UpdateAddHtlc) : Prop :=
  length (uah_channel_id h) = 32%nat ∧ u64 (uah_id h) ∧ u64 (uah_amount_msat h) ∧
  length (uah_payment_hash h) = 32%nat ∧ u32 (uah_cltv_expiry h).

#[global] Instance UpdateAddHtlc_eq_dec : EqDecision UpdateAddHtlc.
Proof. solve_decision. Defined.
#[global] Instance UpdateAddHtlc_typed_dec h : Decision (UpdateAddHtlc_typed h).
Proof. unfold UpdateAddHtlc_typed; apply _. Defined.

(** ** UTF-8 ([std::str::from_utf8])

    The well-formed byte sequences of the Unicode standard: no overlong forms,
    no surrogates, nothing above U+10FFFF. *)
Definition utf8_in (lo hi : Z) (b : byte) : bool :=
  (lo <=? Z_of_byte b) && (Z_of_byte b <=? hi).
Definition utf8_cont : byte → bool := utf8_in 0x80 0xBF.

Fixpoint utf8_valid (l : list byte) : bool :=
  match l with
  | [] => true
  | b0 :: r =>
      if utf8_in 0x00 0x7F b0 then utf8_valid r
      else if utf8_in 0xC2 0xDF b0 then
        match r with
        | b1 :: r => utf8_cont b1 && utf8_valid r
        | _ => false
        end
      else if utf8_in 0xE0 0xEF b0 then
        match r with
        | b1 :: b2 :: r =>
            (if Z_of_byte b0 =? 0xE0 then utf8_in 0xA0 0xBF b1
             else if Z_of_byte b0 =? 0xED then utf8_in 0x80 0x9F b1
             else utf8_cont b1) && utf8_cont b2 && utf8_valid r
        | _ => false
        end
      else if utf8_in 0xF0 0xF4 b0 then
        match r with
        | b1 :: b2 :: b3 :: r =>
            (if Z_of_byte b0 =? 0xF0 then utf8_in 0x90 0xBF b1
             else if Z_of_byte b0 =? 0xF4 then utf8_in 0x80 0x8F b1
             else utf8_cont b1) && utf8_cont b2 && utf8_cont b3 && utf8_valid r
        | _ => false
        end
      else false
  end.

(** [String::from_utf8_lossy]: each maximal prefix of an ill-formed sequence
    becomes U+FFFD.  [utf8_chunk] is the well-formed character at the head, or
    how many octets the ill-formed prefix spans. *)
Definition utf8_chunk (b0 : byte) (r : list byte) : list byte + nat :=
  let second lo hi := match r with b1 :: _ => utf8_in lo hi b1 | [] => false end in
  let third := match r with _ :: b2 :: _ => utf8_cont b2 | _ => false end in
  let fourth := match r with _ :: _ :: b3 :: _ => utf8_cont b3 | _ => false end in
  let z := Z_of_byte b0 in
  if utf8_in 0x00 0x7F b0 then inl [b0]
  else if utf8_in 0xC2 0xDF b0 then
    if second 0x80 0xBF then inl (b0 :: take 1 r) else inr 1%nat
  else if utf8_in 0xE0 0xEF b0 then
    if (if z =? 0xE0 then second 0xA0 0xBF else if z =? 0xED then second 0x80 0x9F
        else second 0x80 0xBF)
    then if third then inl (b0 :: take 2 r) else inr 2%nat else inr 1%nat
  else if utf8_in 0xF0 0xF4 b0 then
    if (if z =? 0xF0 then second 0x90 0xBF else if z =? 0xF4 then second 0x80 0x8F
        else second 0x80 0xBF)
    then if third then if fourth then inl (b0 :: take 3 r) else inr 3%nat else inr 2%nat
    else inr 1%nat
  else inr 1%nat.

Fixpoint utf8_lossy_loop (fuel : nat) (l : list byte) : list byte :=
  match fuel, l with
  | S fuel, b0 :: r =>
      match utf8_chunk b0 r with
      | inl c => c ++ utf8_lossy_loop fuel (drop (length c - 1) r)
      | inr n => [byte_of_Z 0xEF; byte_of_Z 0xBF; byte_of_Z 0xBD] ++ utf8_lossy_loop fuel (drop (n - 1) r)
      end
  | _, _ => []
  end.

(** Every step consumes an octet, so the length is enough fuel. *)
Definition from_utf8_lossy (l : list byte) : list byte := utf8_lossy_loop (length l) l.

(** ** Writer lemmas *)

Lemma enc_seq_ok a b l :
  enc_seq a b = (l, None) ↔ ∃ l1 l2, a = (l1, None) ∧ b = (l2, None) ∧ l = l1 ++ l2.
Proof. destruct a as [la [ea|]], b as [lb eb]; cbn; split; naive_solver. Qed.

Lemma enc_ok_ok l l' : enc_ok l = (l', None) ↔ l' = l.
Proof. unfold enc_ok; naive_solver. Qed.

Lemma write_u64_overflow_ok v l :
  write_u64_overflow v = (l, None) ↔ v ≤ UINT64_OVERFLOW_MAX ∧ l = be_bytes 8 v.
Proof.
  unfold write_u64_overflow. destruct (Z.ltb_spec UINT64_OVERFLOW_MAX v); cbn;
    unfold enc_err, enc_ok; naive_solver lia.
Qed.

Lemma write_u64_overflow_le_ok v l :
  write_u64_overflow_le v = (l, None) ↔ v ≤ UINT64_OVERFLOW_MAX ∧ l = le_bytes 8 v.
Proof.
  unfold write_u64_overflow_le. destruct (Z.ltb_spec UINT64_OVERFLOW_MAX v); cbn;
    unfold enc_err, enc_ok; naive_solver lia.
Qed.

Lemma write_varsize_ok b l :
  write_varsize b = (l, None) ↔ len b ≤ U16_MAX ∧ l = be_bytes 2 (len b) ++ b.
Proof.
  unfold write_varsize, wrap16, U16_MAX. pose proof (len_nonneg b).
  destruct (Z.ltb_spec (2 ^ 16 - 1) (len b)); unfold enc_err, enc_ok; [naive_solver lia|].
  rewrite Z.mod_small by lia. naive_solver lia.
Qed.

Lemma write_length_delimited_ok b l :
  write_length_delimited b = (l, None) ↔ l = varint_bytes (len b) ++ b.
Proof. unfold write_length_delimited, write_varint, enc_ok; cbn. naive_solver. Qed.

Lemma with_buffer_ok w k l :
  with_buffer w k = (l, None) ↔ ∃ b, w = (b, None) ∧ k b = (l, None).
Proof. destruct w as [b [e|]]; cbn; unfold enc_err; naive_solver. Qed.

Lemma enc_result_ok w l : enc_result w = Ok l ↔ w = (l, None).
Proof. destruct w as [b [e|]]; cbn; naive_solver. Qed.

Lemma enc_all_nil {A} (f : A → enc) l : enc_all f [] = (l, None) ↔ l = [].
Proof. cbn; unfold enc_ok; naive_solver. Qed.

Lemma enc_all_cons {A} (f : A → enc) x xs l :
  enc_all f (x :: xs) = (l, None) ↔
  ∃ l1 l2, f x = (l1, None) ∧ enc_all f xs = (l2, None) ∧ l = l1 ++ l2.
Proof. cbn [enc_all foldr]. apply enc_seq_ok. Qed.

#[global] Arguments enc_seq : simpl never.
#[global] Arguments enc_ok : simpl never.
#[global] Arguments enc_err : simpl never.
#[global] Arguments enc_all : simpl never.
#[global] Arguments write_u64_overflow : simpl never.
#[global] Arguments write_varsize : simpl never.

(** ** Reader lemmas *)

(** [decodes d l a]: the reader [d] reads the value [a] off the octets [l],
    whatever follows them. *)
Definition decodes {A} (d : Decoder A) (l : list byte) (a : A) : Prop :=
  ∀ rest, d (l ++ rest) = Ok (a, rest).

(** As [decodes], for a reader that consumes its whole input. *)
Definition decodes_all {A} (d : Decoder A) (l : list byte) (a : A) : Prop :=
  d l = Ok (a, []).

Create HintDb codec.

Lemma decodes_bind {A B} (d : Decoder A) (f : A → Decoder B) l1 l2 a b :
  decodes d l1 a → decodes (f a) l2 b → decodes (d ≫= f) (l1 ++ l2) b.
Proof.
  intros H1 H2 rest. unfold mbind, Decoder_bind.
  rewrite <-app_assoc, H1. apply H2.
Qed.

Lemma decodes_all_bind {A B} (d : Decoder A) (f : A → Decoder B) l1 l2 a b :
  decodes d l1 a → decodes_all (f a) l2 b → decodes_all (d ≫= f) (l1 ++ l2) b.
Proof. intros H1 H2. unfold decodes_all, mbind, Decoder_bind. rewrite H1. apply H2. Qed.

Lemma decodes_ret {A} (a : A) : decodes (mret a) [] a.
Proof. by intros rest. Qed.

Lemma decodes_bind_last {A B} (d : Decoder A) (k : A → B) l a :
  decodes d l a → decodes (x ← d; mret (k x)) l (k a).
Proof. intros H rest. unfold mbind, Decoder_bind. by rewrite H. Qed.

Lemma decodes_decodes_all {A} (d : Decoder A) l a : decodes d l a → decodes_all d l a.
Proof. intros H. unfold decodes_all. specialize (H []). by rewrite app_nil_r in H. Qed.

Lemma decodes_eq {A} (d : Decoder A) l l' a : decodes d l a → l = l' → decodes d l' a.
Proof. by intros ? <-. Qed.

Lemma decodes_uint n v : 0 ≤ v < 256 ^ Z.of_nat n → decodes (read_uint n) (be_bytes n v) v.
Proof.
  intros Hv rest. unfold read_uint. rewrite decide_False.
  - rewrite take_app_length', drop_app_length' by (by rewrite be_bytes_length).
    by rewrite be_Z_be_bytes_id.
  - rewrite length_app, be_bytes_length. lia.
Qed.

Lemma decodes_u8 v : u8 v → decodes read_u8 (be_bytes 1 v) v.
Proof. apply (decodes_uint 1). Qed.
Lemma decodes_u16 v : u16 v → decodes read_u16 (be_bytes 2 v) v.
Proof. apply (decodes_uint 2). Qed.
Lemma decodes_u32 v : u32 v → decodes read_u32 (be_bytes 4 v) v.
Proof. apply (decodes_uint 4). Qed.
Lemma decodes_u64 v : u64 v → decodes read_u64 (be_bytes 8 v) v.
Proof. apply (decodes_uint 8). Qed.

Lemma decodes_u64_overflow v :
  0 ≤ v → v ≤ UINT64_OVERFLOW_MAX → decodes read_u64_overflow (be_bytes 8 v) v.
Proof.
  intros ? Hv rest. unfold UINT64_OVERFLOW_MAX in *.
  unfold read_u64_overflow, mbind, Decoder_bind.
  rewrite (decodes_u64 v) by (unfold u64; lia).
  unfold UINT64_OVERFLOW_MAX. by rewrite ltb_false by lia.
Qed.

Lemma decodes_bool (b : bool) : decodes read_bool (be_bytes 1 (if b then 1 else 0)) b.
Proof.
  intros rest. unfold read_bool, mbind, Decoder_bind.
  rewrite decodes_u8 by (unfold u8; destruct b; lia). by destruct b.
Qed.

Lemma decodes_bytes n l : len l = n → decodes (read_bytes n) l l.
Proof.
  intros <- rest. unfold read_bytes. rewrite ltb_false.
  - unfold len. by rewrite Nat2Z.id, take_app_length, drop_app_length.
  - rewrite len_app. pose proof (len_nonneg rest). lia.
Qed.

Lemma decodes_32 l : length l = 32%nat → decodes read_32 l l.
Proof. intros H. apply decodes_bytes. unfold len. by rewrite H. Qed.
Lemma decodes_signature l : length l = 64%nat → decodes read_signature l l.
Proof. intros H. apply decodes_bytes. unfold len. by rewrite H. Qed.

Lemma decodes_varsize l : len l ≤ U16_MAX → decodes read_varsize (be_bytes 2 (len l) ++ l) l.
Proof.
  intros Hl. eapply decodes_bind; [apply decodes_u16|by apply decodes_bytes].
  pose proof (len_nonneg l). unfold u16, U16_MAX in *. lia.
Qed.

Lemma decodes_varint v : u64 v → decodes read_varint (varint_bytes v) v.
Proof.
  unfold u64, varint_bytes. intros Hv rest.
  unfold read_varint, mbind, Decoder_bind.
  destruct (Z.ltb_spec v 0xfd); [|destruct (Z.leb_spec v 0xffff);
    [|destruct (Z.leb_spec v 0xffffffff)]]; rewrite <-?app_assoc;
    rewrite decodes_u8 by (unfold u8; lia); cbn [Z.eqb].
  - by repeat case_match; try lia.
  - change (0xfd =? 0xff) with false. change (0xfd =? 0xfe) with false. cbn.
    rewrite decodes_u16 by (unfold u16; lia). by rewrite ltb_false by lia.
  - change (0xfe =? 0xff) with false. cbn.
    rewrite decodes_u32 by (unfold u32; lia). by rewrite ltb_false by lia.
  - cbn. rewrite decodes_u64 by (unfold u64; lia). unfold TLV_TYPE_HIGH_RANGE.
    by rewrite ltb_false by lia.
Qed.

Lemma decodes_length_delimited l :
  u64 (len l) → decodes read_length_delimited (varint_bytes (len l) ++ l) l.
Proof. intros. eapply decodes_bind; [by apply decodes_varint|by apply decodes_bytes]. Qed.

#[export] Hint Resolve decodes_u8 decodes_u16 decodes_u32 decodes_u64 decodes_u64_overflow
  decodes_bool decodes_32 decodes_signature decodes_varsize decodes_length_delimited
  decodes_ret : codec.

(** Conversely, what a reader consumed is the canonical encoding of its value. *)
Lemma read_uint_inv n buf v rest :
  read_uint n buf = Ok (v, rest) → buf = be_bytes n v ++ rest ∧ 0 ≤ v < 256 ^ Z.of_nat n.
Proof.
  unfold read_uint. case_decide as Hn; [done|]. intros [= <- <-].
  assert (length (take n buf) = n) as Hl by (rewrite length_take; lia).
  split.
  - rewrite be_bytes_be_Z' by done. by rewrite take_drop.
  - pose proof (be_Z_bound (take n buf)) as Hb. unfold len in Hb. by rewrite Hl in Hb.
Qed.

Lemma read_bytes_inv n buf l rest :
  0 ≤ n → read_bytes n buf = Ok (l, rest) → buf = l ++ rest ∧ len l = n.
Proof.
  unfold read_bytes. intros Hn. destruct (Z.ltb_spec (len buf) n); [done|].
  intros [= <- <-]. rewrite take_drop. split; [done|].
  unfold len in *. rewrite length_take. lia.
Qed.

Lemma Decoder_bind_inv {A B} (d : Decoder A) (f : A → Decoder B) buf b rest :
  (d ≫= f) buf = Ok (b, rest) → ∃ a mid, d buf = Ok (a, mid) ∧ f a mid = Ok (b, rest).
Proof. unfold mbind, Decoder_bind. destruct (d buf) as [[a mid]|]; [eauto|done]. Qed.

Lemma read_varint_inv buf v rest :
  read_varint buf = Ok (v, rest) → buf = varint_bytes v ++ rest ∧ u64 v.
Proof.
  unfold read_varint. intros (p & mid & Hp & H)%Decoder_bind_inv.
  apply (read_uint_inv 1) in Hp as [-> Hp]. unfold varint_bytes, u64.
  destruct (Z.eqb_spec p 0xff) as [->|]; [|destruct (Z.eqb_spec p 0xfe) as [->|];
    [|destruct (Z.eqb_spec p 0xfd) as [->|]]].
  1-3: apply Decoder_bind_inv in H as (w & mid' & Hw & H); apply read_uint_inv in Hw as [-> Hw];
    unfold TLV_TYPE_HIGH_RANGE in *; zcase_in H; [done|]; injection H as -> ->;
    repeat (zcase; try lia); rewrite <-?app_assoc; split; [done|lia].
  injection H as -> ->. change (256 ^ Z.of_nat 1) with 256 in Hp.
  destruct (Z.ltb_spec v 0xfd); [|lia]. split; [done|lia].
Qed.

(** ** The TLV grammar *)

(** A TLV record: its type and its value. *)
Definition tlv_record : Type := Z * list byte.

Definition tlv_encode (recs : list tlv_record) : list byte :=
  mjoin ((λ r : tlv_record, varint_bytes r.1 ++ varint_bytes (len r.2) ++ r.2) <$> recs).

(** A record a receiver that knows no TLV type may accept: its type is odd or in
    the high range. *)
Definition tlv_record_ok (r : tlv_record) : Prop :=
  u64 r.1 ∧ u64 (len r.2) ∧ (TLV_TYPE_HIGH_RANGE ≤ r.1 ∨ r.1 mod 2 = 1).

Definition tlv_stream_ok (prev : option Z) (recs : list tlv_record) : Prop :=
  Sorted Z.lt (option_list prev ++ recs.*1) ∧ Forall tlv_record_ok recs.

Lemma tlv_stream_ok_cons prev r recs :
  tlv_stream_ok prev (r :: recs) ↔
  match prev with Some p => p < r.1 | None => True end ∧
  tlv_record_ok r ∧ tlv_stream_ok (Some r.1) recs.
Proof.
  unfold tlv_stream_ok. rewrite Forall_cons. destruct prev as [p|]; cbn.
  - split.
    + intros [Hs [? ?]]. apply Sorted_inv in Hs as [Hs Hd]. inversion Hd; by split_and!.
    + intros (? & ? & ? & ?). split; [|done]. constructor; [done|]. by constructor.
  - naive_solver.
Qed.

Lemma varint_bytes_nonempty v : ∃ b l, varint_bytes v = b :: l.
Proof.
  destruct (varint_bytes v) as [|b l] eqn:E; [|eauto].
  apply (f_equal length) in E. unfold varint_bytes in E.
  repeat case_match; rewrite ?length_app, ?be_bytes_length in E; done.
Qed.

Lemma tlv_encode_cons r recs :
  tlv_encode (r :: recs) = varint_bytes r.1 ++ varint_bytes (len r.2) ++ r.2 ++ tlv_encode recs.
Proof. unfold tlv_encode. cbn. by rewrite <-!app_assoc. Qed.

(** One iteration of the loop, with enough fuel, read backwards. *)
Lemma validate_tlv_loop_inv fuel buf prev :
  validate_tlv_loop fuel buf prev = Ok tt →
  ∃ recs, buf = tlv_encode recs ∧ tlv_stream_ok prev recs.
Proof.
  revert buf prev. induction fuel as [|fuel IH]; intros [|b buf] prev H; try done.
  1-2: exists []; split; [done|]; split; [destruct prev; repeat constructor|constructor].
  cbn [validate_tlv_loop] in H. remember (b :: buf) as data eqn:Hd. clear b buf Hd.
  apply result_bind_ok in H as ([tag buf1] & Ht & H).
  apply result_bind_ok in H as ([n buf2] & Hn & H).
  apply read_varint_inv in Ht as [-> Ht]. apply read_varint_inv in Hn as [-> Hn].
  destruct (len buf2 <? n); [done|].
  apply result_bind_ok in H as ([v buf3] & Hv & H).
  apply read_bytes_inv in Hv as [-> Hl]; [|unfold u64 in Hn; lia].
  destruct (match prev with Some pt => tag <=? pt | None => false end) eqn:Hp; [done|].
  destruct ((tag <? TLV_TYPE_HIGH_RANGE) && (tag mod 2 =? 0)) eqn:He; [done|].
  apply IH in H as (recs & -> & Hr).
  exists ((tag, v) :: recs). split.
  { rewrite tlv_encode_cons. cbn. by rewrite Hl. }
  apply tlv_stream_ok_cons. cbn. split_and!; [by destruct prev; lia| |done].
  unfold tlv_record_ok; cbn. rewrite Hl. split_and!; [done..|].
  pose proof (Z.mod_pos_bound tag 2). apply andb_false_iff in He as [He|He]; lia.
Qed.

Lemma validate_tlv_loop_complete recs fuel prev :
  tlv_stream_ok prev recs → (length (tlv_encode recs) ≤ fuel)%nat →
  validate_tlv_loop fuel (tlv_encode recs) prev = Ok tt.
Proof.
  revert fuel prev. induction recs as [|r recs IH]; intros fuel prev Hok Hf.
  { by destruct fuel. }
  apply tlv_stream_ok_cons in Hok as (Hp & (Ht & Hl & Hm) & Hok).
  rewrite tlv_encode_cons in *.
  destruct (varint_bytes_nonempty r.1) as (b & l & Hb).
  destruct fuel as [|fuel]; [rewrite Hb in Hf; cbn in Hf; lia|].
  assert (length (tlv_encode recs) ≤ fuel)%nat as Hf'.
  { rewrite !length_app, Hb in Hf. cbn [length] in Hf. lia. }
  rewrite Hb. cbn [validate_tlv_loop app]. rewrite app_comm_cons, <-Hb.
  rewrite (decodes_varint _ Ht). cbn [mbind result_bind].
  rewrite (decodes_varint _ Hl). cbn [mbind result_bind].
  rewrite ltb_false by (rewrite len_app; pose proof (len_nonneg (tlv_encode recs)); lia).
  rewrite (decodes_bytes (len r.2) r.2 eq_refl). cbn [mbind result_bind].
  replace (match prev with Some pt => r.1 <=? pt | None => false end) with false
    by (destruct prev; [symmetry; apply leb_false; lia|done]).
  replace ((r.1 <? TLV_TYPE_HIGH_RANGE) && (r.1 mod 2 =? 0)) with false by lia.
  by apply IH.
Qed.

(** The number of iterations granted does not matter once it covers the input. *)
Lemma validate_tlv_loop_fuel fuel buf prev :
  (length buf ≤ fuel)%nat →
  is_ok (validate_tlv_loop fuel buf prev) = is_ok (validate_tlv_loop (length buf) buf prev).
Proof.
  intros Hf. apply eq_true_iff_eq. rewrite !is_ok_true.
  split; intros [[] H]; exists tt; apply validate_tlv_loop_inv in H as (recs & -> & Hr);
    by apply validate_tlv_loop_complete.
Qed.

(** A TLV stream passes [validate_tlv_stream] exactly when it is the minimal
    encoding of records whose types strictly increase and are odd or at least
    [2^32]: the rules listed above the function, and nothing else. *)
Lemma validate_tlv_stream_iff data :
  validate_tlv_stream data = Ok tt ↔
  ∃ recs, data = tlv_encode recs ∧ Sorted Z.lt recs.*1 ∧ Forall tlv_record_ok recs.
Proof.
  unfold validate_tlv_stream. split.
  - intros H. apply validate_tlv_loop_inv in H. exact H.
  - intros (recs & -> & H). by apply validate_tlv_loop_complete.
Qed.

Lemma validate_tlv_stream_nil : validate_tlv_stream [] = Ok tt.
Proof. done. Qed.

(** ** Round trip of the HTLC body *)

(** Invert a successful sequence of writers. *)
Ltac inv_enc H :=
  lazymatch type of H with
  | enc_seq _ _ = (_, None) =>
      let l1 := fresh "l" in let l2 := fresh "l" in
      let H1 := fresh "He" in let H2 := fresh "He" in
      apply enc_seq_ok in H as (l1 & l2 & H1 & H2 & ->); inv_enc H1; inv_enc H2
  | enc_ok _ = (_, None) => apply enc_ok_ok in H; subst
  | (if negb (?a =? ?b) then enc_err _ else _) = (_, None) =>
      destruct (Z.eqb_spec a b); cbn [negb] in H; [inv_enc H|discriminate H]
  | write_u64_overflow _ = (_, None) =>
      let Hb := fresh "Hb" in apply write_u64_overflow_ok in H as [Hb ->]
  | write_u64_overflow_le _ = (_, None) =>
      let Hb := fresh "Hb" in apply write_u64_overflow_le_ok in H as [Hb ->]
  | write_varsize _ = (_, None) =>
      let Hb := fresh "Hb" in apply write_varsize_ok in H as [Hb ->]
  | write_length_delimited _ = (_, None) => apply write_length_delimited_ok in H; subst
  | ?f _ = (_, None) =>
      first [unfold f in H; lazymatch type of H with
               enc_ok _ = (_, None) => apply enc_ok_ok in H; subst end | idtac]
  | _ => idtac
  end.

(** Discharge a goal [decodes d l a] or [decodes_all d l a] one field at a time. *)
Ltac solve_codec :=
  repeat first
    [ eapply decodes_bind; [by eauto with codec|]
    | eapply decodes_all_bind; [by eauto with codec|] ].

Lemma decodes_all_tail {A} (k : list byte → A) tlv :
  validate_tlv_stream tlv = Ok tt →
  decodes_all (t ← read_remaining; _ ← lift_check (validate_tlv_stream t); mret (k t))
    tlv (k tlv).
Proof.
  intros H. unfold decodes_all, mbind, Decoder_bind, read_remaining, lift_check.
  by rewrite H.
Qed.

Lemma u64_nonneg v : u64 v → 0 ≤ v.
Proof. unfold u64; lia. Qed.
#[export] Hint Resolve u64_nonneg : codec.

Lemma update_add_htlc_decodes h l :
  UpdateAddHtlc_typed h → validate_tlv_stream (uah_tlv_stream h) = Ok tt →
  encode_update_add_htlc_body h = (l, None) →
  decodes_all decode_update_add_htlc_body l h.
Proof.
  intros (Hc & Hi & Ha & Hp & Hx) Ht H. destruct h as [c i a p x o t]; cbn in *.
  unfold encode_update_add_htlc_body in H; cbn in H. inv_enc H.
  unfold decode_update_add_htlc_body. solve_codec.
  eapply decodes_all_bind; [by apply decodes_bytes|].
  by apply (decodes_all_tail (mkUpdateAddHtlc c i a p x o)).
Qed.

(** ** Canonical encodings: what the readers accept is what the writers produce *)

Lemma read_u64_overflow_inv buf v rest :
  read_u64_overflow buf = Ok (v, rest) →
  buf = be_bytes 8 v ++ rest ∧ 0 ≤ v ≤ UINT64_OVERFLOW_MAX.
Proof.
  unfold read_u64_overflow. intros (w & mid & Hw & H)%Decoder_bind_inv.
  apply (read_uint_inv 8) in Hw as [-> Hw]. zcase_in H; [done|].
  injection H as -> ->. split; [done|lia].
Qed.

Lemma read_varsize_inv buf l rest :
  read_varsize buf = Ok (l, rest) →
  buf = be_bytes 2 (len l) ++ l ++ rest ∧ len l ≤ U16_MAX.
Proof.
  unfold read_varsize. intros (n & mid & Hn & H)%Decoder_bind_inv.
  apply (read_uint_inv 2) in Hn as [-> Hn]. apply read_bytes_inv in H as [-> Hl]; [|lia].
  change (256 ^ Z.of_nat 2) with (2 ^ 16) in Hn. unfold U16_MAX.
  rewrite Hl. split; [done|lia].
Qed.

Lemma read_length_delimited_inv buf l rest :
  read_length_delimited buf = Ok (l, rest) →
  buf = varint_bytes (len l) ++ l ++ rest ∧ u64 (len l).
Proof.
  unfold read_length_delimited. intros (n & mid & Hn & H)%Decoder_bind_inv.
  apply read_varint_inv in Hn as [-> Hn].
  apply read_bytes_inv in H as [-> Hl]; [|unfold u64 in Hn; lia]. by rewrite Hl.
Qed.

Lemma read_array_inv n buf l rest :
  read_bytes (Z.of_nat n) buf = Ok (l, rest) → buf = l ++ rest ∧ length l = n.
Proof.
  intros [-> Hl]%read_bytes_inv; [|lia]. unfold len in Hl. split; [done|lia].
Qed.

(** A fixed-size array read off the wire, and one that a writer emits. *)
Lemma enc_seq_enc_ok a b : enc_seq (enc_ok a) (enc_ok b) = enc_ok (a ++ b).
Proof. done. Qed.

Lemma write_u64_overflow_small v :
  v ≤ UINT64_OVERFLOW_MAX → write_u64_overflow v = enc_ok (be_bytes 8 v).
Proof. intros H. apply write_u64_overflow_ok. done. Qed.

Lemma write_varsize_small l :
  len l ≤ U16_MAX → write_varsize l = enc_ok (be_bytes 2 (len l) ++ l).
Proof. intros H. apply write_varsize_ok. done. Qed.

(** Invert a successful reader, one field at a time. *)
Ltac inv_read H :=
  lazymatch type of H with
  | read_u8 _ = _ => apply (read_uint_inv 1) in H as [-> ?]
  | read_u16 _ = _ => apply (read_uint_inv 2) in H as [-> ?]
  | read_u32 _ = _ => apply (read_uint_inv 4) in H as [-> ?]
  | read_u64 _ = _ => apply (read_uint_inv 8) in H as [-> ?]
  | read_u64_overflow _ = _ => apply read_u64_overflow_inv in H as [-> ?]
  | read_varsize _ = _ => apply read_varsize_inv in H as [-> ?]
  | read_length_delimited _ = _ => apply read_length_delimited_inv in H as [-> ?]
  | read_32 _ = _ => apply (read_array_inv 32) in H as [-> ?]
  | read_signature _ = _ => apply (read_array_inv 64) in H as [-> ?]
  | read_bytes (Zpos _) _ = _ => apply read_bytes_inv in H as [-> ?]; [|lia]
  | read_bytes ONION_ROUTING_PACKET_SIZE _ = _ =>
      apply read_bytes_inv in H as [-> ?]; [|unfold ONION_ROUTING_PACKET_SIZE; lia]
  | read_remaining _ = Ok (_, _) => injection H as -> <-
  | lift_check ?c ?buf = Ok (_, _) =>
      let Hc := fresh "Htlv" in
      unfold lift_check in H; destruct c as [[]|] eqn:Hc; [injection H as <- <-|discriminate H]
  | _ => idtac
  end.

Ltac inv_dec H :=
  lazymatch type of H with
  | (_ ≫= _) _ = Ok _ =>
      let a := fresh "x" in let mid := fresh "mid" in let H1 := fresh "Hr" in
      apply Decoder_bind_inv in H as (a & mid & H1 & H); inv_read H1; cbn beta in H; inv_dec H
  | mret _ _ = Ok (_, _) => injection H as <- <-
  | _ => idtac
  end.

(** A decoded body has the types Rust promises, a valid TLV tail, consumes all
    its input, and re-encodes to the very same octets. *)
Lemma decode_update_add_htlc_body_inv l h rest :
  decode_update_add_htlc_body l = Ok (h, rest) →
  rest = [] ∧ UpdateAddHtlc_typed h ∧ validate_tlv_stream (uah_tlv_stream h) = Ok tt ∧
  encode_update_add_htlc_body h = (l, None).
Proof.
  unfold decode_update_add_htlc_body. intros H. inv_dec H.
  split; [done|]. unfold UpdateAddHtlc_typed; cbn. change (256 ^ Z.of_nat 4) with (2 ^ 32) in *.
  unfold u64, u32, UINT64_OVERFLOW_MAX in *. split_and!; try done; try lia.
  unfold encode_update_add_htlc_body; cbn.
  rewrite !write_u64_overflow_small by (unfold UINT64_OVERFLOW_MAX; lia).
  replace (len x4 =? ONION_ROUTING_PACKET_SIZE) with true by lia. cbn [negb].
  done.
Qed.

(** What the encoder can reject: exactly a wide id or amount, or an onion of the
    wrong size. *)
Lemma encode_update_add_htlc_ok h :
  (∃ l, encode_update_add_htlc_body h = (l, None)) ↔
  uah_id h ≤ UINT64_OVERFLOW_MAX ∧ uah_amount_msat h ≤ UINT64_OVERFLOW_MAX ∧
  len (uah_onion_routing_packet h) = ONION_ROUTING_PACKET_SIZE.
Proof.
  unfold encode_update_add_htlc_body. split.
  - intros [l H]. by inv_enc H.
  - intros (? & ? & Ho). rewrite !write_u64_overflow_small by done.
    rewrite Ho, Z.eqb_refl. cbn. eexists. reflexivity.
Qed.
