(* ===== verification/Crypto.v ===== *)
(** * Third-party primitives

    The crates [secp256k1], [sha2] and [hex] are not part of the repository.
    What the sources call of them is an argument of the model ([Crypto]); what the
    proofs rely on is the documented behaviour in [CryptoLaws].  [Toy] is a
    concrete, executable choice that satisfies every law; the evaluated examples
    run on it. *)
From S2P Require Import Prelude Text Bytes.
From stdpp Require Import options.
From Stdlib Require Import Ascii.
#[local] Open Scope Z_scope.

Class Crypto : Type := {
  SecretKey : Type;
  PublicKey : Type;
  Signature : Type;
  PublicKey_eq_dec :: EqDecision PublicKey;
  PublicKey_countable :: Countable PublicKey;
  (** [PublicKey::serialize], [PublicKey::from_slice], [PublicKey::from_secret_key] *)
  pk_serialize : PublicKey → list byte;
  pk_from_slice : list byte → option PublicKey;
  pk_from_secret_key : SecretKey → PublicKey;
  (** [secp.sign_ecdsa], [secp.verify_ecdsa], [Signature::{serialize,from}_compact] *)
  sign_ecdsa : list byte → SecretKey → Signature;
  verify_ecdsa : list byte → Signature → PublicKey → bool;
  serialize_compact : Signature → list byte;
  from_compact : list byte → option Signature;
  (** [Sha256::digest] *)
  sha256 : list byte → list byte;
  (** [hex::encode], [hex::decode] *)
  hex_encode : list byte → string;
  hex_decode : string → option (list byte);
}.

Definition is_lower_hex (c : ascii) : bool :=
  let z := Z.of_nat (nat_of_ascii c) in
  ((48 <=? z) && (z <=? 57)) || ((97 <=? z) && (z <=? 102)).

Class CryptoLaws `{Crypto} : Prop := {
  pk_serialize_length pk : length (pk_serialize pk) = 33%nat;
  pk_from_slice_serialize pk : pk_from_slice (pk_serialize pk) = Some pk;
  verify_sign sk digest :
    verify_ecdsa digest (sign_ecdsa digest sk) (pk_from_secret_key sk) = true;
  from_compact_sign sk digest :
    from_compact (serialize_compact (sign_ecdsa digest sk)) = Some (sign_ecdsa digest sk);
  serialize_compact_length sk digest :
    length (serialize_compact (sign_ecdsa digest sk)) = 64%nat;
  sha256_length l : length (sha256 l) = 32%nat;
  hex_decode_encode l : hex_decode (hex_encode l) = Some l;
  hex_encode_digits l : string_forall is_lower_hex (hex_encode l) = true;
}.

#[global] Instance pk_serialize_inj `{CryptoLaws} : Inj (=) (=) pk_serialize.
Proof.
  intros a b Hab. apply (f_equal pk_from_slice) in Hab.
  rewrite !pk_from_slice_serialize in Hab. congruence.
Qed.

#[global] Instance hex_encode_inj `{CryptoLaws} : Inj (=) (=) hex_encode.
Proof.
  intros a b Hab. apply (f_equal hex_decode) in Hab.
  rewrite !hex_decode_encode in Hab. congruence.
Qed.

Lemma hex_encode_lacks `{CryptoLaws} c l : is_lower_hex c = false → lacks c (hex_encode l) = true.
Proof.
  intros Hc. pose proof (hex_encode_digits l) as Hd. unfold lacks.
  induction (hex_encode l) as [|a s IH]; [done|]. cbn in *.
  apply andb_true_iff in Hd as [Ha Hd]. apply andb_true_iff. split; [|by apply IH].
  destruct (Ascii.eqb_spec a c); [congruence|done].
Qed.

(** [let Ok(sig) = Signature::from_compact(raw) else { return false };
     secp.verify_ecdsa(&msg, &sig, pub_key).is_ok()]. *)
Definition verify_compact `{Crypto} (digest raw : list byte) (pk : PublicKey) : bool :=
  match from_compact raw with
  | Some sig => verify_ecdsa digest sig pk
  | None => false
  end.

Lemma verify_compact_sign `{CryptoLaws} digest sk :
  verify_compact digest (serialize_compact (sign_ecdsa digest sk)) (pk_from_secret_key sk) = true.
Proof. unfold verify_compact. rewrite from_compact_sign. apply verify_sign. Qed.

(** ** An executable instance *)
Module Toy.

(** A key is one octet, serialized with a constant prefix. *)
Definition serialize (k : byte) : list byte := be_bytes 32 2 ++ [k].

Definition from_slice (l : list byte) : option byte :=
  match last l with
  | Some k => if decide (l = serialize k) then Some k else None
  | None => None
  end.

(** A "digest" keeps the value of the input modulo [2^256]. *)
Definition digest (l : list byte) : list byte := be_bytes 32 (be_Z l + len l).

(** A "signature" is the digest followed by the key. *)
Definition sign (d : list byte) (k : byte) : list byte :=
  be_bytes 32 (be_Z d) ++ be_bytes 32 (Z_of_byte k).

Definition verify (d : list byte) (s : list byte) (k : byte) : bool :=
  bool_decide (s = sign d k).

Definition compact (l : list byte) : option (list byte) :=
  if decide (length l = 64%nat) then Some l else None.

Definition hex_digit (z : Z) : ascii :=
  ascii_of_nat (Z.to_nat (if z <? 10 then 48 + z else 87 + z)).
Definition hex_value (c : ascii) : option Z :=
  let z := Z.of_nat (nat_of_ascii c) in
  if (48 <=? z) && (z <=? 57) then Some (z - 48)
  else if (97 <=? z) && (z <=? 102) then Some (z - 87)
  else None.

Fixpoint encode_hex (l : list byte) : string :=
  match l with
  | [] => ""
  | b :: l => String (hex_digit (Z_of_byte b / 16))
                (String (hex_digit (Z_of_byte b mod 16)) (encode_hex l))
  end.

Fixpoint decode_hex (s : string) : option (list byte) :=
  match s with
  | EmptyString => Some []
  | String a (String b s) =>
      x ← hex_value a; y ← hex_value b; l ← decode_hex s; Some (byte_of_Z (16 * x + y) :: l)
  | _ => None
  end.

#[export] Instance crypto : Crypto := {|
  SecretKey := byte; PublicKey := byte; Signature := list byte;
  pk_serialize := serialize; pk_from_slice := from_slice; pk_from_secret_key := id;
  sign_ecdsa := sign; verify_ecdsa := verify;
  serialize_compact := id; from_compact := compact;
  sha256 := digest; hex_encode := encode_hex; hex_decode := decode_hex |}.

Lemma decode_hex_byte b s :
  decode_hex (String (hex_digit (Z_of_byte b / 16))
                (String (hex_digit (Z_of_byte b mod 16)) s)) =
  (l ← decode_hex s; Some (b :: l)).
Proof. by destruct b. Qed.

#[export] Instance laws : CryptoLaws.
Proof.
  split.
  - intros k. done.
  - intros k. cbn. unfold from_slice, serialize. rewrite last_snoc. by rewrite decide_True.
  - intros k d. apply bool_decide_eq_true_2. done.
  - intros k d. cbn. unfold compact, sign.
    rewrite decide_True; [done|]. by rewrite length_app, !be_bytes_length.
  - intros k d. cbn. unfold sign. by rewrite length_app, !be_bytes_length.
  - intros l. apply be_bytes_length.
  - intros l. cbn. induction l as [|b l IH]; [done|].
    cbn [encode_hex]. rewrite decode_hex_byte, IH. done.
  - intros l. cbn. induction l as [|b l IH]; [done|]. cbn [encode_hex string_forall].
    rewrite IH. by destruct b.
Qed.

End Toy.
