(* ===== verification/ChannelId.v ===== *)
(** * Channel identifiers ([src/channel_id.rs]) *)
From S2P Require Import Prelude Text Bytes Crypto.
From stdpp Require Import options.
From Stdlib Require Import Ascii.
#[local] Open Scope Z_scope.

(** [a <= b] on byte arrays: lexicographic. *)
Fixpoint bytes_le (a b : list byte) : bool :=
  match a, b with
  | [], _ => true
  | _ :: _, [] => false
  | x :: a, y :: b =>
      if Z_of_byte x <? Z_of_byte y then true
      else if Z_of_byte y <? Z_of_byte x then false
      else bytes_le a b
  end.

Section Ids.
Context `{Crypto}.

Definition sort_keys (a b : PublicKey) : PublicKey * PublicKey :=
  if bytes_le (pk_serialize a) (pk_serialize b) then (a, b) else (b, a).

Definition sorted_concat (local remote : PublicKey) : list byte :=
  let '(a, b) := sort_keys local remote in pk_serialize a ++ pk_serialize b.

Definition channel_id (local remote : PublicKey) : list byte :=
  sha256 (sorted_concat local remote).

(** [concat[..64].chunks_exact(8)], each chunk as a big-endian [u64]. *)
Fixpoint sum_chunks (n : nat) (l : list byte) (sum : Z) : Z :=
  match n with
  | O => sum
  | S n => sum_chunks n (drop 8 l) (wrap64 (sum + be_Z (take 8 l)))
  end.

Definition hosted_short_channel_id (local remote : PublicKey) : Z :=
  sum_chunks 8 (sorted_concat local remote) 0.

Definition is_node1 (local remote : PublicKey) : bool :=
  bytes_le (pk_serialize local) (pk_serialize remote).

End Ids.

Definition parse_scid_part (s : string) (max : Z) : option Z :=
  if String.eqb s "" || negb (string_forall is_ascii_digit s) then None
  else value ← parse_digits_u64 s; if value <=? max then Some value else None.

Definition parse_short_channel_id (s : string) : option Z :=
  match split_on "x"%char s with
  | [b; t; o] =>
      block ← parse_scid_part b 0x00ffffff;
      txindex ← parse_scid_part t 0x00ffffff;
      outnum ← parse_scid_part o 0x0000ffff;
      Some (Z.lor (Z.lor (Z.shiftl block 40) (Z.shiftl txindex 16)) outnum)
  | _ => None
  end.

Definition format_short_channel_id (scid : Z) : string :=
  let block := Z.shiftr scid 40 in
  let txindex := Z.land (Z.shiftr scid 16) 0x00ffffff in
  let outnum := Z.land scid 0x0000ffff in
  pretty block +:+ String "x"%char (pretty txindex +:+ String "x"%char (pretty outnum)).

(** ** Facts *)

Lemma bytes_le_antisym a b : bytes_le a b = true → bytes_le b a = true → a = b.
Proof.
  revert b. induction a as [|x a IH]; intros [|y b]; cbn; try done.
  repeat case_match; try done; try lia. intros. f_equal; [|auto].
  apply Z_of_byte_inj. lia.
Qed.

Lemma bytes_le_total a b : bytes_le a b = false → bytes_le b a = true.
Proof.
  revert b. induction a as [|x a IH]; intros [|y b]; cbn; try done.
  repeat case_match; try done; try lia. auto.
Qed.

Lemma sort_keys_comm `{CryptoLaws} a b : sort_keys a b = sort_keys b a.
Proof.
  unfold sort_keys. destruct (bytes_le (pk_serialize a) (pk_serialize b)) eqn:Hab.
  - destruct (bytes_le (pk_serialize b) (pk_serialize a)) eqn:Hba; [|done].
    pose proof (bytes_le_antisym _ _ Hab Hba) as He. apply (inj pk_serialize) in He. by subst.
  - by rewrite (bytes_le_total _ _ Hab).
Qed.

Lemma sum_chunks_u64 n l s : u64 s → u64 (sum_chunks n l s).
Proof. revert l s. induction n as [|n IH]; intros l s Hs; cbn; [done|]. auto with canopus. Qed.

Lemma lor_disjoint_add a b n : 0 ≤ n → 0 ≤ b < 2 ^ n → Z.lor (Z.shiftl a n) b = a * 2 ^ n + b.
Proof.
  intros Hn Hb. pose proof (Z.add_lor_land (Z.shiftl a n) b).
  assert (Z.land (Z.shiftl a n) b = 0); [|rewrite (Z.shiftl_mul_pow2 a n) in * by done; lia].
  apply Z.bits_inj'. intros i Hi. rewrite Z.land_spec, Z.bits_0.
  destruct (decide (i < n)).
  - by rewrite Z.shiftl_spec_low.
  - assert (Z.testbit b i = false) as ->; [|by rewrite andb_false_r].
    destruct (decide (b = 0)) as [->|]; [by rewrite Z.bits_0|].
    apply Z.bits_above_log2; [lia|]. apply Z.log2_lt_pow2; [lia|].
    eapply Z.lt_le_trans; [apply Hb|]. apply Z.pow_le_mono_r; lia.
Qed.

(** The three fields recompose the identifier. *)
Lemma scid_fields z : u64 z →
  let block := Z.shiftr z 40 in
  let txindex := Z.land (Z.shiftr z 16) 0x00ffffff in
  let outnum := Z.land z 0x0000ffff in
  0 ≤ block ≤ 0x00ffffff ∧ 0 ≤ txindex ≤ 0x00ffffff ∧ 0 ≤ outnum ≤ 0x0000ffff ∧
  Z.lor (Z.lor (Z.shiftl block 40) (Z.shiftl txindex 16)) outnum = z.
Proof.
  intros Hz. cbv zeta. unfold u64 in Hz.
  change 0x00ffffff with (Z.ones 24). change 0x0000ffff with (Z.ones 16).
  rewrite !Z.land_ones, !Z.shiftr_div_pow2 by lia.
  pose proof (Z.mod_pos_bound (z / 2 ^ 16) (2 ^ 24)). pose proof (Z.mod_pos_bound z (2 ^ 16)).
  assert (0 ≤ z / 2 ^ 40 < 2 ^ 24) by (split; [apply Z.div_pos|apply Z.div_lt_upper_bound]; lia).
  change (Z.ones 24) with (2 ^ 24 - 1). change (Z.ones 16) with (2 ^ 16 - 1).
  split; [lia|]. split; [lia|]. split; [lia|].
  rewrite <-Z.lor_assoc, (lor_disjoint_add _ (z mod 2 ^ 16)) by lia.
  rewrite lor_disjoint_add by lia.
  replace (2 ^ 40) with (2 ^ 16 * 2 ^ 24) by done. rewrite <-Z.div_div by lia.
  pose proof (Z.div_mod (z / 2 ^ 16) (2 ^ 24)). pose proof (Z.div_mod z (2 ^ 16)). lia.
Qed.

Lemma parse_scid_part_pretty z max :
  0 ≤ z ≤ max → max < 2 ^ 64 → parse_scid_part (pretty z) max = Some z.
Proof.
  intros Hz Hm. destruct (pretty_Z_nonneg z) as (Hd & _ & Hne); [lia|].
  unfold parse_scid_part. rewrite Hd. destruct (String.eqb_spec (pretty z) ""); [done|]. cbn.
  rewrite parse_digits_pretty by (unfold u64; lia). cbn. by rewrite leb_true by lia.
Qed.

Lemma split_format a b c :
  0 ≤ a → 0 ≤ b → 0 ≤ c →
  split_on "x"%char (pretty a +:+ String "x"%char (pretty b +:+ String "x"%char (pretty c))) =
  [pretty a; pretty b; pretty c].
Proof.
  intros. rewrite !split_on_app, split_on_lacks by (apply pretty_Z_lacks; done). done.
Qed.

(** ** Guarantees *)

(** Both peers derive the same identifiers: the channel id and the short
    channel id do not depend on which key is local, the short id is a [u64] and
    the channel id is 32 octets. *)
Theorem ids_symmetric `{CryptoLaws} a b :
  channel_id a b = channel_id b a ∧ hosted_short_channel_id a b = hosted_short_channel_id b a ∧
  u64 (hosted_short_channel_id a b) ∧ length (channel_id a b) = 32%nat ∧
  (a ≠ b → is_node1 a b = negb (is_node1 b a)).
Proof.
  unfold channel_id, hosted_short_channel_id, sorted_concat. rewrite (sort_keys_comm b a).
  split; [done|]. split; [done|]. split; [by apply sum_chunks_u64|]. split; [apply sha256_length|].
  intros Hne. unfold is_node1. destruct (bytes_le (pk_serialize a) (pk_serialize b)) eqn:Hab.
  - destruct (bytes_le (pk_serialize b) (pk_serialize a)) eqn:Hba; [|done].
    destruct Hne. by apply (inj pk_serialize), bytes_le_antisym.
  - by rewrite (bytes_le_total _ _ Hab).
Qed.

Lemma parse_scid_part_range t max w : parse_scid_part t max = Some w → 0 ≤ w ≤ max.
Proof.
  unfold parse_scid_part. destruct (string_forall is_ascii_digit t) eqn:Hd;
    [|by rewrite orb_true_r].
  rewrite orb_false_r. destruct (String.eqb t ""); [done|]. unfold parse_digits_u64.
  destruct t as [|a t]; [done|]. zcase; cbn; [|done]. zcase; [|done]. intros [= <-].
  split; [|done]. by apply (decimal_value_nonneg 0 (String a t)).
Qed.

(** Printing a short channel id as [block x tx x out] and parsing it back is
    the identity on every [u64], and parsing only ever yields a [u64]. *)
Theorem scid_roundtrip z s v :
  (u64 z → parse_short_channel_id (format_short_channel_id z) = Some z) ∧
  (parse_short_channel_id s = Some v → u64 v).
Proof.
  split.
  - intros Hz. destruct (scid_fields z Hz) as (?&?&?&Hre).
    unfold parse_short_channel_id, format_short_channel_id.
    rewrite split_format by lia. rewrite !parse_scid_part_pretty by lia. cbn -[Z.lor Z.shiftl].
    by rewrite Hre.
  - unfold parse_short_channel_id. intros Hp. do 4 (case_match; try done).
    destruct (parse_scid_part s0 _) as [b|] eqn:Hb; cbn in Hp; [|done].
    destruct (parse_scid_part s1 _) as [t|] eqn:Ht; cbn in Hp; [|done].
    destruct (parse_scid_part s2 _) as [o|] eqn:Ho; cbn in Hp; [|done].
    apply parse_scid_part_range in Hb, Ht, Ho. injection Hp as <-.
    rewrite <-Z.lor_assoc, (lor_disjoint_add t), lor_disjoint_add by lia. unfold u64. lia.
Qed.

Lemma scid_roundtrip_witness :
  parse_short_channel_id (format_short_channel_id 123456789012345) = Some 123456789012345 ∧
  u64 (1 * 2 ^ 40 + 2 * 2 ^ 16 + 3).
Proof.
  split.
  - apply (scid_roundtrip 123456789012345 "" 0). unfold u64. lia.
  - apply (scid_roundtrip 0 "1x2x3" (1 * 2 ^ 40 + 2 * 2 ^ 16 + 3)). vm_compute. reflexivity.
Defined.

Lemma ids_symmetric_witness :
  channel_id (H := Toy.crypto) Byte.x03 Byte.x04 = channel_id (H := Toy.crypto) Byte.x04 Byte.x03 ∧
  is_node1 (H := Toy.crypto) Byte.x03 Byte.x04 = negb (is_node1 (H := Toy.crypto) Byte.x04 Byte.x03).
Proof.
  destruct (ids_symmetric (H := Toy.crypto) (H0 := Toy.laws) Byte.x03 Byte.x04) as (H1 & _ & _ & _ & H2).
  split; [exact H1|]. apply H2. discriminate.
Defined.
