(* ===== verification/Config.v ===== *)
(** * Configuration ([src/config.rs])

    The channel policy, branding options and their validation.  [url::Url::parse]
    and the file system are arguments. *)
From S2P Require Import Prelude Text Bytes.
From stdpp Require Import options.
From Stdlib Require Import Ascii.
#[local] Open Scope Z_scope.

Record ChannelPolicy : Type := mkChannelPolicy {
  cp_channel_capacity_msat : Z;
  cp_initial_client_balance_msat : Z;
  cp_max_htlc_value_in_flight_msat : Z;
  cp_htlc_minimum_msat : Z;
  cp_max_accepted_htlcs : Z;
  cp_fee_base_msat : Z;
  cp_fee_proportional_millionths : Z;
  cp_cltv_expiry_delta : Z;
}.

Definition ChannelPolicy_default : ChannelPolicy :=
  {| cp_channel_capacity_msat := 100000000;
     cp_initial_client_balance_msat := 0;
     cp_max_htlc_value_in_flight_msat := 100000000;
     cp_htlc_minimum_msat := 1000;
     cp_max_accepted_htlcs := 12;
     cp_fee_base_msat := 0;
     cp_fee_proportional_millionths := 1000;
     cp_cltv_expiry_delta := 6 |}.

Record Branding : Type := mkBranding {
  br_contact_url : option string;
  br_color : option string;
  br_logo_path : option string;
}.

Record Config : Type := mkConfig {
  cfg_policy : ChannelPolicy;
  cfg_branding : Branding;
  cfg_require_secret : bool;
  cfg_preimage_scan : bool;
  cfg_hsm_secret_path : string;
  cfg_chain_hash : list byte;
  cfg_network : string;
}.

Definition Config_default : Config :=
  mkConfig ChannelPolicy_default (mkBranding None None None) true true "" (be_bytes 32 0) "".

Inductive ConfigError : Type :=
| InvalidColor (s : string)
| LogoTooLarge (path : string) (n : Z)
| LogoReadError (path e : string)
| InvalidContactUrl (s : string)
| BalanceExceedsCapacity (balance capacity : Z).

Definition hex_digit_value (a : ascii) : option Z :=
  let z := ascii_Z a in
  if (48 <=? z) && (z <=? 57) then Some (z - 48)
  else if (97 <=? z) && (z <=? 102) then Some (z - 87)
  else if (65 <=? z) && (z <=? 70) then Some (z - 55)
  else None.

Definition is_hex_digit (a : ascii) : bool :=
  match hex_digit_value a with Some _ => true | None => false end.

(** [HEX_COLOR_RE]: [^#[0-9a-fA-F]{6}$]. *)
Definition hex_color_re (s : string) : bool :=
  match s with
  | String "#"%char digits => (String.length digits =? 6)%nat && string_forall is_hex_digit digits
  | _ => false
  end.

(** [&s[a..b]]: panics ([None]) out of range or inside a character. *)
Definition char_boundary (s : string) (n : nat) : bool :=
  match String.get n s with
  | Some a => negb ((0x80 <=? ascii_Z a) && (ascii_Z a <=? 0xBF))
  | None => (n =? String.length s)%nat
  end.

Definition str_slice (s : string) (a b : nat) : option string :=
  if (a <=? b)%nat && (b <=? String.length s)%nat && char_boundary s a && char_boundary s b
  then Some (String.substring a (b - a) s) else None.

Fixpoint hex_value_acc (acc : Z) (s : string) : option Z :=
  match s with
  | EmptyString => Some acc
  | String a s => d ← hex_digit_value a;
                  let v := 16 * acc + d in
                  if v <? 256 then hex_value_acc v s else None
  end.

(** [u8::from_str_radix(s, 16).ok()]. *)
Definition u8_from_hex (s : string) : option Z :=
  match s with
  | EmptyString => None
  | String "+"%char EmptyString => None
  | String "+"%char s => hex_value_acc 0 s
  | s => hex_value_acc 0 s
  end.

(** The color, [Some None] when there is none to give, [None] when a slice panics. *)
Definition rgb_color (cfg : Config) : option (option (Z * Z * Z)) :=
  match br_color (cfg_branding cfg) with
  | None => Some None
  | Some color =>
      hex ← str_slice color 1 (String.length color);
      r ← str_slice hex 0 2;
      match u8_from_hex r with
      | None => Some None
      | Some r =>
          g ← str_slice hex 2 4;
          match u8_from_hex g with
          | None => Some None
          | Some g =>
              b ← str_slice hex 4 6;
              match u8_from_hex b with
              | None => Some None
              | Some b => Some (Some (r, g, b))
              end
          end
      end
  end.

Section Environment.
(** [url::Url::parse(url).is_ok()], [fs::metadata(path).len()], [fs::read(path)]. *)
Variable url_parses : string → bool.
Variable file_length : string → result string Z.
Variable file_read : string → option (list byte).

Definition Config_validate (cfg : Config) : result ConfigError unit :=
  let p := cfg_policy cfg in
  let br := cfg_branding cfg in
  if cp_channel_capacity_msat p <? cp_initial_client_balance_msat p then
    Err (BalanceExceedsCapacity (cp_initial_client_balance_msat p) (cp_channel_capacity_msat p))
  else
  _ ← match br_color br with
      | Some color => if hex_color_re color then Ok tt else Err (InvalidColor color)
      | None => Ok tt
      end;
  _ ← match br_contact_url br with
      | Some url => if url_parses url then Ok tt else Err (InvalidContactUrl url)
      | None => Ok tt
      end;
  match br_logo_path br with
  | Some path =>
      match file_length path with
      | Err e => Err (LogoReadError path e)
      | Ok n => if 65535 <? n then Err (LogoTooLarge path n) else Ok tt
      end
  | None => Ok tt
  end.

Definition logo_bytes (cfg : Config) : option (list byte) :=
  path ← br_logo_path (cfg_branding cfg);
  data ← file_read path;
  if 65535 <? len data then None else Some data.

End Environment.

Record ChannelSecret : Type := mkChannelSecret {
  cs_secret : string;
  cs_capacity_msat : Z;
  cs_initial_balance_msat : Z;
  cs_consumed : bool;
}.

(** ** Facts *)

Lemma hex_digit_value_range a d : hex_digit_value a = Some d → 0 ≤ d < 16.
Proof. unfold hex_digit_value. repeat case_match; try done; intros; simplify_eq; lia. Qed.

Lemma is_hex_digit_value a : is_hex_digit a = true → ∃ d, hex_digit_value a = Some d ∧ 0 ≤ d < 16.
Proof.
  unfold is_hex_digit. destruct (hex_digit_value a) as [d|] eqn:Hd; [|done].
  intros _. exists d. split; [done|]. by eapply hex_digit_value_range.
Qed.

Lemma is_hex_digit_not_plus a : is_hex_digit a = true → a ≠ "+"%char.
Proof. by intros Ha ->. Qed.

Lemma hex_digit_boundary a : is_hex_digit a = true → ascii_Z a < 0x80.
Proof.
  unfold is_hex_digit, hex_digit_value. repeat case_match; try done; lia.
Qed.

Lemma u8_from_hex_digits a b x y :
  hex_digit_value a = Some x → hex_digit_value b = Some y →
  u8_from_hex (String a (String b "")) = Some (16 * x + y).
Proof.
  intros Ha Hb. assert (a ≠ "+"%char) as Hp by (intros ->; done).
  pose proof (hex_digit_value_range _ _ Ha). pose proof (hex_digit_value_range _ _ Hb).
  assert (u8_from_hex (String a (String b "")) = hex_value_acc 0 (String a (String b ""))) as ->.
  { unfold u8_from_hex. destruct a as [[] [] [] [] [] [] [] []]; try done. }
  cbn. rewrite Ha. cbn. rewrite ltb_true by lia. rewrite Hb. cbn. rewrite ltb_true by lia.
  done.
Qed.

#[local] Arguments u8_from_hex : simpl never.

(** A color that the validator accepted is read back digit by digit. *)
Lemma rgb_color_accepted cfg color :
  br_color (cfg_branding cfg) = Some color → hex_color_re color = true →
  ∃ r g b, rgb_color cfg = Some (Some (r, g, b)) ∧ u8 r ∧ u8 g ∧ u8 b.
Proof.
  intros Hc Hre. unfold rgb_color. rewrite Hc.
  destruct color as [|h s]; [done|]. unfold hex_color_re in Hre.
  assert (h = "#"%char ∧ (String.length s =? 6)%nat && string_forall is_hex_digit s = true)
    as [-> Hs] by (by destruct h as [[] [] [] [] [] [] [] []]).
  apply andb_true_iff in Hs as [Hl Hs]. apply Nat.eqb_eq in Hl.
  destruct s as [|c1 [|c2 [|c3 [|c4 [|c5 [|c6 [|]]]]]]]; try discriminate Hl. clear Hl.
  cbn in Hs. repeat (apply andb_true_iff in Hs as [?H Hs]).
  assert (∀ a, is_hex_digit a = true → negb ((0x80 <=? ascii_Z a) && (ascii_Z a <=? 0xBF)) = true) as Hb.
  { intros a Ha%hex_digit_boundary. rewrite leb_false by lia. done. }
  repeat match goal with HD : is_hex_digit ?a = true |- _ =>
    pose proof (Hb a HD); apply is_hex_digit_value in HD as (?d & ? & ?) end.
  unfold str_slice, char_boundary. cbn.
  repeat match goal with HD : negb _ = true |- _ => rewrite HD end. cbn.
  repeat match goal with HD : negb _ = true |- _ => rewrite HD end. cbn.
  do 3 (erewrite u8_from_hex_digits by eassumption).
  eexists _, _, _. split; [reflexivity|]. unfold u8. lia.
Qed.
