(* ===== verification/Lcss.v ===== *)
(** * Last cross-signed state ([src/wire/lcss.rs])

    The signed channel state, its wire encoding, the counterparty's view
    ([reverse]), the octets that are hashed for signing and the two signature
    operations.  [StateUpdate] and [StateOverride] of [src/wire/mod.rs] are
    declared here because the state projects to them. *)
From S2P Require Import Prelude Bytes Codecs Crypto.
From stdpp Require Import options.
#[local] Open Scope Z_scope.

Record InitHostedChannel : Type := mkInitHostedChannel {
  ihc_max_htlc_value_in_flight_msat : Z;
  ihc_htlc_minimum_msat : Z;
  ihc_max_accepted_htlcs : Z;
  ihc_channel_capacity_msat : Z;
  ihc_initial_client_balance_msat : Z;
  ihc_features : list Z;
}.

#[global] Instance InitHostedChannel_eq_dec : EqDecision InitHostedChannel.
Proof. solve_decision. Defined.

Definition InitHostedChannel_encode (m : InitHostedChannel) : enc :=
  write_u64_overflow (ihc_max_htlc_value_in_flight_msat m);;
  write_u64_overflow (ihc_htlc_minimum_msat m);;
  write_u16 (ihc_max_accepted_htlcs m);;
  write_u64_overflow (ihc_channel_capacity_msat m);;
  write_u64_overflow (ihc_initial_client_balance_msat m);;
  write_u16 (wrap16 (len (ihc_features m)));;
  enc_all write_u16 (ihc_features m).

(** [for _ in 0..n { v.push(d(buf)?) }]. *)
Fixpoint read_n {A} (n : nat) (d : Decoder A) : Decoder (list A) :=
  match n with
  | O => mret []
  | S n => x ← d; xs ← read_n n d; mret (x :: xs)
  end.

Definition InitHostedChannel_decode : Decoder InitHostedChannel :=
  max_htlc_value_in_flight_msat ← read_u64_overflow;
  htlc_minimum_msat ← read_u64_overflow;
  max_accepted_htlcs ← read_u16;
  channel_capacity_msat ← read_u64_overflow;
  initial_client_balance_msat ← read_u64_overflow;
  n_features ← read_u16;
  features ← read_n (Z.to_nat n_features) read_u16;
  mret {| ihc_max_htlc_value_in_flight_msat := max_htlc_value_in_flight_msat;
          ihc_htlc_minimum_msat := htlc_minimum_msat;
          ihc_max_accepted_htlcs := max_accepted_htlcs;
          ihc_channel_capacity_msat := channel_capacity_msat;
          ihc_initial_client_balance_msat := initial_client_balance_msat;
          ihc_features := features |}.

(** The ranges of the Rust field types. *)
Definition InitHostedChannel_typed (m : InitHostedChannel) : Prop :=
  u64 (ihc_max_htlc_value_in_flight_msat m) ∧ u64 (ihc_htlc_minimum_msat m) ∧
  u16 (ihc_max_accepted_htlcs m) ∧ u64 (ihc_channel_capacity_msat m) ∧
  u64 (ihc_initial_client_balance_msat m) ∧ Forall u16 (ihc_features m).

#[global] Instance InitHostedChannel_typed_dec m : Decision (InitHostedChannel_typed m).
Proof. unfold InitHostedChannel_typed; apply _. Defined.

Record LastCrossSignedState : Type := mkLcss {
  is_host : bool;
  last_refund_scriptpubkey : list byte;
  init_hosted_channel : InitHostedChannel;
  block_day : Z;
  local_balance_msat : Z;
  remote_balance_msat : Z;
  local_updates : Z;
  remote_updates : Z;
  incoming_htlcs : list UpdateAddHtlc;
  outgoing_htlcs : list UpdateAddHtlc;
  remote_sig_of_local : list byte;
  local_sig_of_remote : list byte;
}.

#[global] Instance LastCrossSignedState_eq_dec : EqDecision LastCrossSignedState.
Proof. solve_decision. Defined.

(** One HTLC inside the state: its body in its own buffer, length-delimited. *)
Definition encode_delimited_htlc (h : UpdateAddHtlc) : enc :=
  with_buffer (encode_update_add_htlc_body h) write_length_delimited.

Definition Lcss_encode (s : LastCrossSignedState) : enc :=
  write_bool (is_host s);;
  write_varsize (last_refund_scriptpubkey s);;
  with_buffer (InitHostedChannel_encode (init_hosted_channel s)) write_length_delimited;;
  write_u32 (block_day s);;
  write_u64_overflow (local_balance_msat s);;
  write_u64_overflow (remote_balance_msat s);;
  write_u32 (local_updates s);;
  write_u32 (remote_updates s);;
  write_u16 (wrap16 (len (incoming_htlcs s)));;
  enc_all encode_delimited_htlc (incoming_htlcs s);;
  write_u16 (wrap16 (len (outgoing_htlcs s)));;
  enc_all encode_delimited_htlc (outgoing_htlcs s);;
  write_signature (remote_sig_of_local s);;
  write_signature (local_sig_of_remote s).

(** [if !slice.is_empty() { return Err(Invalid(..)) }]. *)
Definition reject_trailing (what : string) (slice : list byte) : Decoder unit :=
  if decide (slice = []) then mret tt
  else fail_decode (Invalid (pretty (len slice) +:+ " trailing bytes in " +:+ what)).

Definition decode_delimited_htlc (what : string) : Decoder UpdateAddHtlc :=
  htlc_bytes ← read_length_delimited;
  '(htlc, htlc_slice) ← on_slice htlc_bytes decode_update_add_htlc_body;
  _ ← reject_trailing what htlc_slice;
  mret htlc.

Definition Lcss_decode : Decoder LastCrossSignedState :=
  is_host ← read_bool;
  last_refund_scriptpubkey ← read_varsize;
  ihc_bytes ← read_length_delimited;
  '(init_hosted_channel, ihc_slice) ← on_slice ihc_bytes InitHostedChannel_decode;
  _ ← reject_trailing "init_hosted_channel length-delimited body" ihc_slice;
  block_day ← read_u32;
  local_balance_msat ← read_u64_overflow;
  remote_balance_msat ← read_u64_overflow;
  local_updates ← read_u32;
  remote_updates ← read_u32;
  n_in ← read_u16;
  incoming_htlcs ← read_n (Z.to_nat n_in)
    (decode_delimited_htlc "incoming HTLC length-delimited body");
  n_out ← read_u16;
  outgoing_htlcs ← read_n (Z.to_nat n_out)
    (decode_delimited_htlc "outgoing HTLC length-delimited body");
  remote_sig_of_local ← read_signature;
  local_sig_of_remote ← read_signature;
  mret {| is_host := is_host;
          last_refund_scriptpubkey := last_refund_scriptpubkey;
          init_hosted_channel := init_hosted_channel;
          block_day := block_day;
          local_balance_msat := local_balance_msat;
          remote_balance_msat := remote_balance_msat;
          local_updates := local_updates;
          remote_updates := remote_updates;
          incoming_htlcs := incoming_htlcs;
          outgoing_htlcs := outgoing_htlcs;
          remote_sig_of_local := remote_sig_of_local;
          local_sig_of_remote := local_sig_of_remote |}.

Definition total_updates (s : LastCrossSignedState) : Z := local_updates s + remote_updates s.

Definition lcss_reverse (s : LastCrossSignedState) : LastCrossSignedState :=
  {| is_host := negb (is_host s);
     last_refund_scriptpubkey := last_refund_scriptpubkey s;
     init_hosted_channel := init_hosted_channel s;
     block_day := block_day s;
     local_balance_msat := remote_balance_msat s;
     remote_balance_msat := local_balance_msat s;
     local_updates := remote_updates s;
     remote_updates := local_updates s;
     incoming_htlcs := outgoing_htlcs s;
     outgoing_htlcs := incoming_htlcs s;
     remote_sig_of_local := local_sig_of_remote s;
     local_sig_of_remote := remote_sig_of_local s |}.

(** The octets of [hosted_sig_hash] before hashing. *)
Definition sig_material (s : LastCrossSignedState) : enc :=
  write_bytes (last_refund_scriptpubkey s);;
  write_u64_overflow_le (ihc_channel_capacity_msat (init_hosted_channel s));;
  write_u64_overflow_le (ihc_initial_client_balance_msat (init_hosted_channel s));;
  write_u32_le (block_day s);;
  write_u64_overflow_le (local_balance_msat s);;
  write_u64_overflow_le (remote_balance_msat s);;
  write_u32_le (local_updates s);;
  write_u32_le (remote_updates s);;
  enc_all encode_update_add_htlc_body (incoming_htlcs s);;
  enc_all encode_update_add_htlc_body (outgoing_htlcs s);;
  write_u8 (if is_host s then 1 else 0).

(** Field updates the sources perform by assignment. *)
Definition set_block_day (d : Z) (s : LastCrossSignedState) : LastCrossSignedState :=
  mkLcss (is_host s) (last_refund_scriptpubkey s) (init_hosted_channel s) d
    (local_balance_msat s) (remote_balance_msat s) (local_updates s) (remote_updates s)
    (incoming_htlcs s) (outgoing_htlcs s) (remote_sig_of_local s) (local_sig_of_remote s).

Definition set_remote_sig (sig : list byte) (s : LastCrossSignedState) : LastCrossSignedState :=
  mkLcss (is_host s) (last_refund_scriptpubkey s) (init_hosted_channel s) (block_day s)
    (local_balance_msat s) (remote_balance_msat s) (local_updates s) (remote_updates s)
    (incoming_htlcs s) (outgoing_htlcs s) sig (local_sig_of_remote s).

Definition set_local_sig (sig : list byte) (s : LastCrossSignedState) : LastCrossSignedState :=
  mkLcss (is_host s) (last_refund_scriptpubkey s) (init_hosted_channel s) (block_day s)
    (local_balance_msat s) (remote_balance_msat s) (local_updates s) (remote_updates s)
    (incoming_htlcs s) (outgoing_htlcs s) (remote_sig_of_local s) sig.

Record StateUpdate : Type := mkStateUpdate {
  su_block_day : Z;
  su_local_updates : Z;
  su_remote_updates : Z;
  su_local_sig_of_remote : list byte;
}.

Record StateOverride : Type := mkStateOverride {
  so_block_day : Z;
  so_local_balance_msat : Z;
  so_local_updates : Z;
  so_remote_updates : Z;
  so_local_sig_of_remote : list byte;
}.

#[global] Instance StateUpdate_eq_dec : EqDecision StateUpdate.
Proof. solve_decision. Defined.
#[global] Instance StateOverride_eq_dec : EqDecision StateOverride.
Proof. solve_decision. Defined.

Definition lcss_state_update (s : LastCrossSignedState) : StateUpdate :=
  {| su_block_day := block_day s;
     su_local_updates := local_updates s;
     su_remote_updates := remote_updates s;
     su_local_sig_of_remote := local_sig_of_remote s |}.

Definition lcss_state_override (s : LastCrossSignedState) : StateOverride :=
  {| so_block_day := block_day s;
     so_local_balance_msat := local_balance_msat s;
     so_local_updates := local_updates s;
     so_remote_updates := remote_updates s;
     so_local_sig_of_remote := local_sig_of_remote s |}.

Section Signing.
Context `{Crypto}.

Definition hosted_sig_hash (s : LastCrossSignedState) : result EncodeError (list byte) :=
  sha256 <$> enc_result (sig_material s).

(** Signs the reverse view; a failure to encode leaves the state unsigned. *)
Definition lcss_sign (priv_key : SecretKey) (s : LastCrossSignedState)
    : result EncodeError LastCrossSignedState :=
  reverse_hash ← hosted_sig_hash (lcss_reverse s);
  mret (set_local_sig (serialize_compact (sign_ecdsa reverse_hash priv_key)) s).

Definition verify_remote_sig (s : LastCrossSignedState) (pub_key : PublicKey) : bool :=
  match hosted_sig_hash s with
  | Err _ => false
  | Ok hash => verify_compact hash (remote_sig_of_local s) pub_key
  end.

End Signing.

(** ** Typing *)

Definition Lcss_typed (s : LastCrossSignedState) : Prop :=
  InitHostedChannel_typed (init_hosted_channel s) ∧ u32 (block_day s) ∧
  u64 (local_balance_msat s) ∧ u64 (remote_balance_msat s) ∧
  u32 (local_updates s) ∧ u32 (remote_updates s) ∧
  Forall UpdateAddHtlc_typed (incoming_htlcs s) ∧
  Forall UpdateAddHtlc_typed (outgoing_htlcs s) ∧
  length (remote_sig_of_local s) = 64%nat ∧ length (local_sig_of_remote s) = 64%nat.

#[global] Instance Lcss_typed_dec s : Decision (Lcss_typed s).
Proof. unfold Lcss_typed; apply _. Defined.

(** What the wire can represent: counted vectors fit their [u16] count, TLV tails
    are streams the receiver accepts, and no slice exceeds [isize::MAX]. *)
Definition htlc_wire_ok (h : UpdateAddHtlc) : Prop :=
  validate_tlv_stream (uah_tlv_stream h) = Ok tt ∧ len (uah_tlv_stream h) < 2 ^ 63.

Definition Lcss_wire_ok (s : LastCrossSignedState) : Prop :=
  len (ihc_features (init_hosted_channel s)) ≤ U16_MAX ∧
  len (incoming_htlcs s) ≤ U16_MAX ∧ len (outgoing_htlcs s) ≤ U16_MAX ∧
  Forall htlc_wire_ok (incoming_htlcs s) ∧ Forall htlc_wire_ok (outgoing_htlcs s).

(** ** Round trip *)

Lemma decodes_read_n {A} (f : A → enc) (d : Decoder A) xs l :
  enc_all f xs = (l, None) →
  Forall (λ x, ∀ lx, f x = (lx, None) → decodes d lx x) xs →
  decodes (read_n (length xs) d) l xs.
Proof.
  revert l. induction xs as [|x xs IH]; intros l H HF.
  - apply enc_all_nil in H as ->. apply decodes_ret.
  - apply enc_all_cons in H as (l1 & l2 & H1 & H2 & ->).
    apply Forall_cons in HF as [Hx HF]. cbn [read_n length].
    eapply decodes_bind; [by apply Hx|]. rewrite <-(app_nil_r l2).
    eapply decodes_bind; [by apply IH|]. apply decodes_ret.
Qed.

(** A vector preceded by its [u16] length. *)
Lemma decodes_counted {A B} (f : A → enc) (d : Decoder A) (k : list A → Decoder B) xs l l' b :
  len xs ≤ U16_MAX → enc_all f xs = (l, None) →
  Forall (λ x, ∀ lx, f x = (lx, None) → decodes d lx x) xs →
  decodes (k xs) l' b →
  decodes (n ← read_u16; ys ← read_n (Z.to_nat n) d; k ys)
    (be_bytes 2 (wrap16 (len xs)) ++ l ++ l') b.
Proof.
  intros Hn He HF Hk. pose proof (len_nonneg xs). unfold U16_MAX in *.
  rewrite wrap16_small by (unfold u16; lia).
  eapply decodes_bind; [apply decodes_u16; unfold u16; lia|].
  eapply decodes_bind; [|exact Hk]. unfold len. rewrite Nat2Z.id. by eapply decodes_read_n.
Qed.

Lemma InitHostedChannel_decodes m l :
  InitHostedChannel_typed m → len (ihc_features m) ≤ U16_MAX →
  InitHostedChannel_encode m = (l, None) → decodes InitHostedChannel_decode l m.
Proof.
  intros (Ha & Hb & Hc & Hd & He & Hf) Hn H. destruct m as [a b c d e f]; cbn in *.
  unfold InitHostedChannel_encode in H; cbn in H. inv_enc H.
  unfold InitHostedChannel_decode.
  do 5 (eapply decodes_bind; [by eauto with codec|]).
  match goal with HE : enc_all _ _ = (?l', None) |- _ => rewrite <-(app_nil_r l') end.
  eapply decodes_counted; [done|done| |apply decodes_ret].
  eapply Forall_impl; [exact Hf|]. intros x Hx lx Hl. inv_enc Hl. by apply decodes_u16.
Qed.

Lemma decodes_on_slice {A B} (d : Decoder A) what slice a (k : A → Decoder B) l b :
  decodes_all d slice a → decodes (k a) l b →
  decodes ('(x, s) ← on_slice slice d; _ ← reject_trailing what s; k x) l b.
Proof.
  intros H1 H2 rest. unfold mbind, Decoder_bind, on_slice. rewrite H1. cbn. apply H2.
Qed.

(** The body of an HTLC that its encoder accepted is within a Rust slice's size. *)
Lemma htlc_body_length h l :
  UpdateAddHtlc_typed h → encode_update_add_htlc_body h = (l, None) →
  len l = 1450 + len (uah_tlv_stream h).
Proof.
  intros (Hc & _ & _ & Hp & _) H. unfold encode_update_add_htlc_body in H. inv_enc H.
  rewrite !len_app, !be_bytes_len. unfold len in *. rewrite Hc, Hp.
  unfold ONION_ROUTING_PACKET_SIZE in *. lia.
Qed.

Lemma delimited_htlc_decodes what h l :
  UpdateAddHtlc_typed h → htlc_wire_ok h → encode_delimited_htlc h = (l, None) →
  decodes (decode_delimited_htlc what) l h.
Proof.
  intros Ht [Hv Hs] H. unfold encode_delimited_htlc in H.
  apply with_buffer_ok in H as (b & Hb & ->%write_length_delimited_ok).
  unfold decode_delimited_htlc. rewrite <-(app_nil_r (_ ++ b)).
  eapply decodes_bind.
  - apply decodes_length_delimited. rewrite (htlc_body_length h b) by done.
    pose proof (len_nonneg (uah_tlv_stream h)). unfold u64. lia.
  - apply decodes_on_slice with h; [by apply update_add_htlc_decodes|apply decodes_ret].
Qed.

Lemma delimited_htlcs_decode what hs :
  Forall UpdateAddHtlc_typed hs → Forall htlc_wire_ok hs →
  Forall (λ h, ∀ l, encode_delimited_htlc h = (l, None) →
            decodes (decode_delimited_htlc what) l h) hs.
Proof.
  intros H1 H2. eapply Forall_impl; [apply Forall_and; exact (conj H1 H2)|].
  intros h [??] l. by apply delimited_htlc_decodes.
Qed.

Lemma InitHostedChannel_length m l :
  InitHostedChannel_encode m = (l, None) → len l = 36 + 2 * len (ihc_features m).
Proof.
  intros H. unfold InitHostedChannel_encode in H. inv_enc H.
  assert (∀ fs l, enc_all write_u16 fs = (l, None) → len l = 2 * len fs) as HL.
  { clear. induction fs as [|x fs IH]; intros l H.
    - by apply enc_all_nil in H as ->.
    - apply enc_all_cons in H as (l1 & l2 & H1 & H2 & ->). inv_enc H1.
      rewrite len_app, be_bytes_len, (IH _ H2). unfold len. cbn [length]. lia. }
  rewrite !len_app, !be_bytes_len. erewrite HL by done. lia.
Qed.

Lemma Lcss_decodes s l :
  Lcss_typed s → Lcss_wire_ok s → Lcss_encode s = (l, None) → decodes Lcss_decode l s.
Proof.
  intros (Hi & Hbd & Hlb & Hrb & Hlu & Hru & Hin & Hout & Hs1 & Hs2)
         (Hf & Hni & Hno & Hwi & Hwo) H.
  destruct s as [ih rs i bd lb rb lu ru ins outs s1 s2]; cbn in *.
  unfold Lcss_encode in H; cbn in H. inv_enc H.
  match goal with HE : with_buffer _ _ = _ |- _ =>
    apply with_buffer_ok in HE as (ib & Hib & ->%write_length_delimited_ok) end.
  unfold Lcss_decode. do 2 (eapply decodes_bind; [by eauto with codec|]).
  eapply decodes_bind.
  { apply decodes_length_delimited. erewrite InitHostedChannel_length by done.
    pose proof (len_nonneg (ihc_features i)). unfold u64, U16_MAX in *. lia. }
  eapply decodes_on_slice; [by eapply decodes_decodes_all, InitHostedChannel_decodes|].
  do 5 (eapply decodes_bind; [by eauto with codec|]).
  eapply decodes_counted; [done..|by apply delimited_htlcs_decode|].
  eapply decodes_counted; [done..|by apply delimited_htlcs_decode|].
  eapply decodes_bind; [by eauto with codec|].
  apply (decodes_bind_last read_signature (mkLcss ih rs i bd lb rb lu ru ins outs s1)).
  by apply decodes_signature.
Qed.

(** ** Views and signatures *)

Lemma lcss_reverse_involutive s : lcss_reverse (lcss_reverse s) = s.
Proof. destruct s as [[] ???????????]; done. Qed.

#[global] Instance lcss_reverse_inj : Inj (=) (=) lcss_reverse.
Proof. intros a b H. by rewrite <-(lcss_reverse_involutive a), H, lcss_reverse_involutive. Qed.

(** The hash covers neither signature. *)
Lemma sig_material_set_local_sig sig s : sig_material (set_local_sig sig s) = sig_material s.
Proof. done. Qed.
Lemma sig_material_set_remote_sig sig s : sig_material (set_remote_sig sig s) = sig_material s.
Proof. done. Qed.
Lemma sig_material_reverse_set_local_sig sig s :
  sig_material (lcss_reverse (set_local_sig sig s)) = sig_material (lcss_reverse s).
Proof. done. Qed.

Lemma lcss_sign_ok `{Crypto} sk s s' :
  lcss_sign sk s = Ok s' ↔
  ∃ hash, hosted_sig_hash (lcss_reverse s) = Ok hash ∧
          s' = set_local_sig (serialize_compact (sign_ecdsa hash sk)) s.
Proof.
  unfold lcss_sign. rewrite result_bind_ok. unfold mret, result_ret. naive_solver.
Qed.

Lemma lcss_sign_verifies `{CryptoLaws} sk s s' :
  lcss_sign sk s = Ok s' → verify_remote_sig (lcss_reverse s') (pk_from_secret_key sk) = true.
Proof.
  intros (hash & Hh & ->)%lcss_sign_ok. unfold verify_remote_sig, hosted_sig_hash in *.
  rewrite sig_material_reverse_set_local_sig, Hh. apply verify_compact_sign.
Qed.

(** ** What a signature binds *)

Lemma app_inj_length {A} (a b c d : list A) :
  length a = length b → a ++ c = b ++ d → a = b ∧ c = d.
Proof. intros. by apply app_inj_1. Qed.

(** Peel one fixed-width field off an equation of encodings. *)
Ltac peel_field H Heq :=
  apply app_inj_length in H as [Heq H];
  [|rewrite ?be_bytes_length, ?le_bytes_length; first [reflexivity | congruence | lia]].

Lemma htlc_body_app_inj h1 h2 l1 l2 r1 r2 :
  UpdateAddHtlc_typed h1 → UpdateAddHtlc_typed h2 →
  length (uah_tlv_stream h1) = length (uah_tlv_stream h2) →
  encode_update_add_htlc_body h1 = (l1, None) → encode_update_add_htlc_body h2 = (l2, None) →
  l1 ++ r1 = l2 ++ r2 → h1 = h2 ∧ r1 = r2.
Proof.
  destruct h1 as [c1 i1 a1 p1 x1 o1 t1], h2 as [c2 i2 a2 p2 x2 o2 t2].
  unfold UpdateAddHtlc_typed, encode_update_add_htlc_body; cbn.
  intros (Hc1&Hi1&Ha1&Hp1&Hx1) (Hc2&Hi2&Ha2&Hp2&Hx2) Ht H1 H2 H. inv_enc H1. inv_enc H2.
  rewrite <-!app_assoc in H. unfold len in *.
  peel_field H Ec. peel_field H Ei. peel_field H Ea. peel_field H Ep. peel_field H Ex.
  peel_field H Eo. peel_field H Et.
  apply be_bytes_inj in Ei, Ea, Ex; [|unfold u64, u32 in *; cbn; lia..]. by subst.
Qed.

Lemma htlc_bodies_app_inj hs1 hs2 l1 l2 r1 r2 :
  Forall UpdateAddHtlc_typed hs1 → Forall UpdateAddHtlc_typed hs2 →
  Forall2 (λ a b, length (uah_tlv_stream a) = length (uah_tlv_stream b)) hs1 hs2 →
  enc_all encode_update_add_htlc_body hs1 = (l1, None) →
  enc_all encode_update_add_htlc_body hs2 = (l2, None) →
  l1 ++ r1 = l2 ++ r2 → hs1 = hs2 ∧ r1 = r2.
Proof.
  intros HT1 HT2 HF. revert l1 l2 HT1 HT2.
  induction HF as [|h1 h2 hs1 hs2 Ht HF IH]; intros l1 l2 HT1 HT2 H1 H2 H.
  - apply enc_all_nil in H1 as ->, H2 as ->. done.
  - apply enc_all_cons in H1 as (a1 & b1 & Ha1 & Hb1 & ->), H2 as (a2 & b2 & Ha2 & Hb2 & ->).
    apply Forall_cons in HT1 as [??], HT2 as [??]. rewrite <-!app_assoc in H.
    eapply htlc_body_app_inj in H as [-> H]; [|done..].
    by eapply IH in H as [-> ->].
Qed.

(** The part of a state that its signature speaks about. *)
Definition signed_fields (s : LastCrossSignedState) :=
  (last_refund_scriptpubkey s, ihc_channel_capacity_msat (init_hosted_channel s),
   ihc_initial_client_balance_msat (init_hosted_channel s), block_day s,
   (local_balance_msat s, remote_balance_msat s), (local_updates s, remote_updates s),
   (incoming_htlcs s, outgoing_htlcs s), is_host s).

(** Same length of every variable-length part: the refund script, and the TLV
    tails of the HTLCs of each direction. *)
Definition same_shape (s1 s2 : LastCrossSignedState) : Prop :=
  length (last_refund_scriptpubkey s1) = length (last_refund_scriptpubkey s2) ∧
  Forall2 (λ a b, length (uah_tlv_stream a) = length (uah_tlv_stream b))
    (incoming_htlcs s1) (incoming_htlcs s2) ∧
  Forall2 (λ a b, length (uah_tlv_stream a) = length (uah_tlv_stream b))
    (outgoing_htlcs s1) (outgoing_htlcs s2).

Lemma sig_material_inj s1 s2 m1 m2 :
  Lcss_typed s1 → Lcss_typed s2 → same_shape s1 s2 →
  sig_material s1 = (m1, None) → sig_material s2 = (m2, None) → m1 = m2 →
  signed_fields s1 = signed_fields s2.
Proof.
  destruct s1 as [h1 r1 i1 d1 b1 c1 u1 v1 in1 out1 ??], s2 as [h2 r2 i2 d2 b2 c2 u2 v2 in2 out2 ??].
  intros ((_&_&_&Hcap1&Hini1&_)&Hd1&Hb1&Hc1&Hu1&Hv1&Hti1&Hto1&_)
         ((_&_&_&Hcap2&Hini2&_)&Hd2&Hb2&Hc2&Hu2&Hv2&Hti2&Hto2&_) (Hr & Hsi & Hso) H1 H2.
  unfold sig_material in *; cbn in *. inv_enc H1. inv_enc H2. intros H.
  peel_field H Er. peel_field H E1. peel_field H E2. peel_field H E3. peel_field H E4.
  peel_field H E5. peel_field H E6. peel_field H E7.
  destruct (htlc_bodies_app_inj _ _ _ _ _ _ Hti1 Hti2 Hsi He He0 H) as [-> H'].
  destruct (htlc_bodies_app_inj _ _ _ _ _ _ Hto1 Hto2 Hso He1 He3 H') as [-> Hh].
  apply le_bytes_inj in E1, E2, E3, E4, E5, E6, E7; [|unfold u64, u32 in *; cbn; lia..].
  apply be_bytes_inj in Hh; [|destruct h1; cbn; lia|destruct h2; cbn; lia].
  assert (h1 = h2) as -> by (by destruct h1, h2).
  unfold signed_fields; cbn. congruence.
Qed.

(** ** What the readers accept *)

Lemma read_n_inv {A} (P : A → Prop) (d : Decoder A) N n buf xs rest :
  (∀ b x r, d b = Ok (x, r) → len b ≤ N → P x ∧ len r ≤ len b) →
  read_n n d buf = Ok (xs, rest) → len buf ≤ N →
  Forall P xs ∧ length xs = n ∧ len rest ≤ len buf.
Proof.
  intros Hd. revert buf xs. induction n as [|n IH]; intros buf xs H HN; cbn in H.
  - injection H as <- <-. done.
  - inv_dec H. eapply Hd in Hr as [HP Hl]; [|done].
    eapply IH in Hr0 as (HF & Hn & Hl'); [|lia]. cbn. split_and!; [by constructor|lia|lia].
Qed.

Lemma encode_delimited_htlc_ok h :
  (∃ l, encode_update_add_htlc_body h = (l, None)) → ∃ l, encode_delimited_htlc h = (l, None).
Proof. intros [l Hl]. unfold encode_delimited_htlc. rewrite Hl. cbn. eexists. reflexivity. Qed.

Lemma enc_all_ok {A} (f : A → enc) xs :
  Forall (λ x, ∃ l, f x = (l, None)) xs → ∃ l, enc_all f xs = (l, None).
Proof.
  induction 1 as [|x xs [l Hl] _ [k Hk]]; [by eexists|].
  exists (l ++ k). apply enc_all_cons. naive_solver.
Qed.

Lemma decode_delimited_htlc_inv what N b h r :
  decode_delimited_htlc what b = Ok (h, r) → len b ≤ N → N < 2 ^ 63 →
  (UpdateAddHtlc_typed h ∧ htlc_wire_ok h ∧ ∃ l, encode_update_add_htlc_body h = (l, None)) ∧
  len r ≤ len b.
Proof.
  intros H HN HN'. unfold decode_delimited_htlc in H. inv_dec H. destruct x0 as [h' s].
  unfold on_slice in Hr.
  destruct (decode_update_add_htlc_body x) as [[h0 s0]|] eqn:Hd; [|done].
  injection Hr as -> -> <-. apply decode_update_add_htlc_body_inv in Hd as (-> & Ht & Hv & He).
  unfold reject_trailing in H. cbn in H. injection H as <- <-.
  pose proof (htlc_body_length _ _ Ht He). pose proof (len_nonneg x).
  rewrite !len_app in *. pose proof (len_nonneg (varint_bytes (len x))).
  pose proof (len_nonneg mid). split; [|lia].
  split; [done|]. split; [split; [done|lia]|by eexists].
Qed.

Lemma InitHostedChannel_decode_inv buf m rest :
  InitHostedChannel_decode buf = Ok (m, rest) →
  InitHostedChannel_typed m ∧ len (ihc_features m) ≤ U16_MAX ∧
  (∃ l, InitHostedChannel_encode m = (l, None)) ∧ len rest ≤ len buf.
Proof.
  intros H. unfold InitHostedChannel_decode in H. inv_dec H.
  match goal with HE : read_n _ _ _ = _ |- _ =>
    eapply (read_n_inv u16) in HE as (HF & Hn & Hl); [| |reflexivity] end.
  2: { intros b y r Hy _. inv_read Hy. rewrite len_app. pose proof (len_nonneg (be_bytes 2 y)).
       split; [done|lia]. }
  change (256 ^ Z.of_nat 2) with (2 ^ 16) in *. unfold UINT64_OVERFLOW_MAX in *.
  unfold InitHostedChannel_typed, u64, u16, len in *; cbn. split_and!; try lia; [done|unfold U16_MAX; lia| |].
  - unfold InitHostedChannel_encode; cbn.
    rewrite !write_u64_overflow_small by (unfold UINT64_OVERFLOW_MAX; lia).
    edestruct (enc_all_ok write_u16) as [k Hk]; [|eexists; rewrite Hk; reflexivity].
    apply Forall_true. intros. by eexists.
  - rewrite !length_app. lia.
Qed.

Lemma reject_trailing_inv what s buf u rest :
  reject_trailing what s buf = Ok (u, rest) → s = [] ∧ rest = buf.
Proof. unfold reject_trailing. case_decide; [|done]. by injection 1 as _ ->. Qed.

Lemma read_bool_inv buf (b : bool) rest :
  read_bool buf = Ok (b, rest) → len rest ≤ len buf.
Proof. intros H. unfold read_bool in H. inv_dec H. rewrite len_app. pose proof (len_nonneg (be_bytes 1 x)). lia. Qed.

Lemma read_htlcs_inv what n b hs r :
  read_n (Z.to_nat n) (decode_delimited_htlc what) b = Ok (hs, r) → 0 ≤ n < 2 ^ 16 →
  len b < 2 ^ 63 →
  (Forall UpdateAddHtlc_typed hs ∧ Forall htlc_wire_ok hs ∧ len hs ≤ U16_MAX ∧
   ∃ l, enc_all encode_delimited_htlc hs = (l, None)) ∧ len r ≤ len b.
Proof.
  intros H Hn HN.
  eapply (read_n_inv (λ h, UpdateAddHtlc_typed h ∧ htlc_wire_ok h ∧
            ∃ l, encode_update_add_htlc_body h = (l, None)) _ (len b)) in H as (HF & Hl & Hr); [|
    intros c h t Hh Hc; by eapply decode_delimited_htlc_inv|done].
  apply Forall_and in HF as [? HF]. apply Forall_and in HF as [? HF].
  split; [|done]. split; [done|]. split; [done|]. split; [unfold len, U16_MAX; lia|].
  apply enc_all_ok. eapply Forall_impl; [exact HF|]. apply encode_delimited_htlc_ok.
Qed.

Lemma Lcss_decode_inv buf s rest :
  Lcss_decode buf = Ok (s, rest) → len buf < 2 ^ 63 →
  Lcss_typed s ∧ Lcss_wire_ok s ∧ ∃ l, Lcss_encode s = (l, None).
Proof.
  intros H HN. unfold Lcss_decode in H. inv_dec H. destruct x2 as [i si]. inv_dec H.
  apply reject_trailing_inv in Hr1 as [-> <-]. apply read_bool_inv in Hr.
  unfold on_slice in Hr0. destruct (InitHostedChannel_decode x1) as [[i' si]|] eqn:Hi; [|done].
  injection Hr0 as -> -> ->. apply InitHostedChannel_decode_inv in Hi as (Hit & Hif & [li Hie] & _).
  rewrite !len_app, ?be_bytes_len in Hr.
  pose proof (len_nonneg x0). pose proof (len_nonneg x1). pose proof (len_nonneg (varint_bytes (len x1))).
  apply read_htlcs_inv in Hr2 as [(?&?&?&[lin Hin]) Hl]; [|done|lia].
  rewrite len_app, be_bytes_len in Hl.
  apply read_htlcs_inv in Hr3 as [(?&?&?&[lout Hout]) _]; [|done|lia].
  split; [|split; [done|]].
  - change (256 ^ Z.of_nat 4) with (2 ^ 32) in *. unfold UINT64_OVERFLOW_MAX in *.
    unfold Lcss_typed, u64, u32; cbn. split; [done|]. split_and!; try done; lia.
  - unfold Lcss_encode; cbn. rewrite Hie, Hin, Hout, write_varsize_small by done.
    rewrite !write_u64_overflow_small by lia. cbn. eexists. reflexivity.
Qed.
