(* ===== verification/Wire.v ===== *)
(** * Hosted-channel messages ([src/wire/mod.rs])

    The bLIP-17 messages, their bodies, the [u16] tag dispatch and the two
    framings: strict ([tag || body]) and legacy ([tag || u16 length || body]). *)
From S2P Require Import Prelude Bytes Codecs Crypto Lcss.
From stdpp Require Import options.
#[local] Open Scope Z_scope.

Inductive WireEncoding : Type := Strict | Legacy.

#[global] Instance WireEncoding_eq_dec : EqDecision WireEncoding.
Proof. solve_decision. Defined.

Definition TAG_INVOKE_HOSTED_CHANNEL : Z := 65535.
Definition TAG_INIT_HOSTED_CHANNEL : Z := 65533.
Definition TAG_LAST_CROSS_SIGNED_STATE : Z := 65531.
Definition TAG_STATE_UPDATE : Z := 65529.
Definition TAG_STATE_OVERRIDE : Z := 65527.
Definition TAG_HOSTED_CHANNEL_BRANDING : Z := 65525.
Definition TAG_ANNOUNCEMENT_SIGNATURE : Z := 65523.
Definition TAG_RESIZE_CHANNEL : Z := 65521.
Definition TAG_QUERY_PUBLIC_HOSTED_CHANNELS : Z := 65519.
Definition TAG_REPLY_PUBLIC_HOSTED_CHANNELS_END : Z := 65517.
Definition TAG_QUERY_PREIMAGES : Z := 65515.
Definition TAG_REPLY_PREIMAGES : Z := 65513.
Definition TAG_ASK_BRANDING_INFO : Z := 65511.
Definition TAG_UPDATE_ADD_HTLC : Z := 63505.
Definition TAG_UPDATE_FULFILL_HTLC : Z := 63503.
Definition TAG_UPDATE_FAIL_HTLC : Z := 63501.
Definition TAG_UPDATE_FAIL_MALFORMED_HTLC : Z := 63499.
Definition TAG_ERROR : Z := 63497.
Definition TAG_PHC_CHANNEL_ANNOUNCEMENT_GOSSIP : Z := 64513.
Definition TAG_PHC_CHANNEL_ANNOUNCEMENT_SYNC : Z := 64511.
Definition TAG_PHC_CHANNEL_UPDATE_GOSSIP : Z := 64509.
Definition TAG_PHC_CHANNEL_UPDATE_SYNC : Z := 64507.

(** ** Bodies *)

Record ChannelUpdate : Type := mkChannelUpdate {
  cu_signature : list byte;
  cu_chain_hash : list byte;
  cu_short_channel_id : Z;
  cu_timestamp : Z;
  cu_message_flags : Z;
  cu_channel_flags : Z;
  cu_cltv_expiry_delta : Z;
  cu_htlc_minimum_msat : Z;
  cu_fee_base_msat : Z;
  cu_fee_proportional_millionths : Z;
  cu_htlc_maximum_msat : Z;
  cu_tlv_stream : list byte;
}.

Definition ChannelUpdate_encode (m : ChannelUpdate) : enc :=
  write_signature (cu_signature m);;
  write_32 (cu_chain_hash m);;
  write_u64 (cu_short_channel_id m);;
  write_u32 (cu_timestamp m);;
  write_u8 (cu_message_flags m);;
  write_u8 (cu_channel_flags m);;
  write_u16 (cu_cltv_expiry_delta m);;
  write_u64_overflow (cu_htlc_minimum_msat m);;
  write_u32 (cu_fee_base_msat m);;
  write_u32 (cu_fee_proportional_millionths m);;
  write_u64_overflow (cu_htlc_maximum_msat m);;
  write_bytes (cu_tlv_stream m).

Definition hex_nibble (z : Z) : string :=
  if z <? 10 then pretty z
  else match z with 10 => "a" | 11 => "b" | 12 => "c" | 13 => "d" | 14 => "e" | _ => "f" end.

(** [format!("{:#04x}", v)] of a [u8]. *)
Definition fmt_hex_u8 (v : Z) : string := "0x" +:+ hex_nibble (v / 16) +:+ hex_nibble (v mod 16).

Definition ChannelUpdate_decode : Decoder ChannelUpdate :=
  signature ← read_signature;
  chain_hash ← read_32;
  short_channel_id ← read_u64;
  timestamp ← read_u32;
  message_flags ← read_u8;
  _ ← (if negb (message_flags =? 0x01) then
         fail_decode (Invalid ("channel_update message_flags must be 0x01, got "
                               +:+ fmt_hex_u8 message_flags))
       else mret tt);
  channel_flags ← read_u8;
  cltv_expiry_delta ← read_u16;
  htlc_minimum_msat ← read_u64_overflow;
  fee_base_msat ← read_u32;
  fee_proportional_millionths ← read_u32;
  htlc_maximum_msat ← read_u64_overflow;
  tlv_stream ← read_remaining;
  _ ← lift_check (validate_tlv_stream tlv_stream);
  mret {| cu_signature := signature; cu_chain_hash := chain_hash;
          cu_short_channel_id := short_channel_id; cu_timestamp := timestamp;
          cu_message_flags := message_flags; cu_channel_flags := channel_flags;
          cu_cltv_expiry_delta := cltv_expiry_delta;
          cu_htlc_minimum_msat := htlc_minimum_msat; cu_fee_base_msat := fee_base_msat;
          cu_fee_proportional_millionths := fee_proportional_millionths;
          cu_htlc_maximum_msat := htlc_maximum_msat; cu_tlv_stream := tlv_stream |}.

(** [let _ = w(&mut buf)]: the error is dropped, what was written stays. *)
Definition enc_ignore (w : enc) : enc := (w.1, None).

Definition ChannelUpdate_witness (m : ChannelUpdate) : list byte :=
  fst (
    write_32 (cu_chain_hash m);;
    write_u64 (cu_short_channel_id m);;
    write_u32 (cu_timestamp m);;
    write_u8 (cu_message_flags m);;
    write_u8 (cu_channel_flags m);;
    write_u16 (cu_cltv_expiry_delta m);;
    enc_ignore (write_u64_overflow (cu_htlc_minimum_msat m));;
    write_u32 (cu_fee_base_msat m);;
    write_u32 (cu_fee_proportional_millionths m);;
    enc_ignore (write_u64_overflow (cu_htlc_maximum_msat m));;
    write_bytes (cu_tlv_stream m)).

Record PhcChannelUpdate : Type := mkPhcChannelUpdate {
  phc_tag : Z;
  phc_body : ChannelUpdate;
}.

Record InvokeHostedChannel : Type := mkInvokeHostedChannel {
  inv_chain_hash : list byte;
  inv_refund_scriptpubkey : list byte;
  inv_secret : list byte;
}.

Definition InvokeHostedChannel_encode (m : InvokeHostedChannel) : enc :=
  write_32 (inv_chain_hash m);;
  write_varsize (inv_refund_scriptpubkey m);;
  write_varsize (inv_secret m).

Definition InvokeHostedChannel_decode : Decoder InvokeHostedChannel :=
  chain_hash ← read_32;
  refund_scriptpubkey ← read_varsize;
  secret ← read_varsize;
  mret (mkInvokeHostedChannel chain_hash refund_scriptpubkey secret).

Definition StateUpdate_encode (m : StateUpdate) : enc :=
  write_u32 (su_block_day m);;
  write_u32 (su_local_updates m);;
  write_u32 (su_remote_updates m);;
  write_signature (su_local_sig_of_remote m).

Definition StateUpdate_decode : Decoder StateUpdate :=
  block_day ← read_u32;
  local_updates ← read_u32;
  remote_updates ← read_u32;
  local_sig_of_remote ← read_signature;
  mret (mkStateUpdate block_day local_updates remote_updates local_sig_of_remote).

Definition StateOverride_encode (m : StateOverride) : enc :=
  write_u32 (so_block_day m);;
  write_u64_overflow (so_local_balance_msat m);;
  write_u32 (so_local_updates m);;
  write_u32 (so_remote_updates m);;
  write_signature (so_local_sig_of_remote m).

Definition StateOverride_decode : Decoder StateOverride :=
  block_day ← read_u32;
  local_balance_msat ← read_u64_overflow;
  local_updates ← read_u32;
  remote_updates ← read_u32;
  local_sig_of_remote ← read_signature;
  mret (mkStateOverride block_day local_balance_msat local_updates remote_updates
          local_sig_of_remote).

Record AnnouncementSignature : Type := mkAnnouncementSignature {
  as_node_signature : list byte;
  as_wants_reply : bool;
}.

Definition AnnouncementSignature_encode (m : AnnouncementSignature) : enc :=
  write_signature (as_node_signature m);; write_bool (as_wants_reply m).

Definition AnnouncementSignature_decode : Decoder AnnouncementSignature :=
  node_signature ← read_signature;
  wants_reply ← read_bool;
  mret (mkAnnouncementSignature node_signature wants_reply).

Record QueryPublicHostedChannels : Type := mkQueryPublicHostedChannels {
  qphc_chain_hash : list byte;
}.

Definition QueryPublicHostedChannels_encode (m : QueryPublicHostedChannels) : enc :=
  write_32 (qphc_chain_hash m).

Definition QueryPublicHostedChannels_decode : Decoder QueryPublicHostedChannels :=
  chain_hash ← read_32; mret (mkQueryPublicHostedChannels chain_hash).

Record ReplyPublicHostedChannelsEnd : Type := mkReplyPublicHostedChannelsEnd {
  rphc_chain_hash : list byte;
}.

Definition ReplyPublicHostedChannelsEnd_encode (m : ReplyPublicHostedChannelsEnd) : enc :=
  write_32 (rphc_chain_hash m).

Definition ReplyPublicHostedChannelsEnd_decode : Decoder ReplyPublicHostedChannelsEnd :=
  chain_hash ← read_32; mret (mkReplyPublicHostedChannelsEnd chain_hash).

Record AskBrandingInfo : Type := mkAskBrandingInfo {
  abi_chain_hash : list byte;
}.

Definition AskBrandingInfo_encode (m : AskBrandingInfo) : enc := write_32 (abi_chain_hash m).

Definition AskBrandingInfo_decode : Decoder AskBrandingInfo :=
  chain_hash ← read_32; mret (mkAskBrandingInfo chain_hash).

Record ResizeChannel : Type := mkResizeChannel {
  rc_new_capacity_sat : Z;
  rc_client_sig : list byte;
}.

Definition ResizeChannel_encode (m : ResizeChannel) : enc :=
  write_u64_overflow (rc_new_capacity_sat m);;
  write_signature (rc_client_sig m).

Definition ResizeChannel_decode : Decoder ResizeChannel :=
  new_capacity_sat ← read_u64_overflow;
  client_sig ← read_signature;
  mret (mkResizeChannel new_capacity_sat client_sig).

Section ResizeSignature.
Context `{Crypto}.

Definition ResizeChannel_sig_hash (m : ResizeChannel) : list byte :=
  sha256 (le_bytes 8 (rc_new_capacity_sat m)).

Definition ResizeChannel_verify_client_sig (m : ResizeChannel) (pubkey : PublicKey) : bool :=
  verify_compact (ResizeChannel_sig_hash m) (rc_client_sig m) pubkey.

End ResizeSignature.

Record HostedChannelBranding : Type := mkHostedChannelBranding {
  hcb_rgb_color : list byte;
  hcb_png_icon : option (list byte);
  hcb_contact_info : list byte;
}.

Definition HostedChannelBranding_encode (m : HostedChannelBranding) : enc :=
  write_bytes (hcb_rgb_color m);;
  match hcb_png_icon m with
  | Some png => write_u8 1;; write_varsize png
  | None => write_u8 0
  end;;
  if negb (utf8_valid (hcb_contact_info m)) then
    enc_err (InvalidUtf8 "contact_info is not valid UTF-8")
  else write_varsize (hcb_contact_info m).

Definition HostedChannelBranding_decode : Decoder HostedChannelBranding :=
  rgb ← read_bytes 3;
  has_png ← read_u8;
  png_icon ← (if negb (has_png =? 0) then p ← read_varsize; mret (Some p) else mret None);
  contact_info ← read_varsize;
  _ ← (if negb (utf8_valid contact_info) then
         fail_decode (Invalid "hosted_channel_branding contact_info is not valid UTF-8")
       else mret tt);
  mret (mkHostedChannelBranding rgb png_icon contact_info).

Record UpdateFulfillHtlc : Type := mkUpdateFulfillHtlc {
  ufl_channel_id : list byte;
  ufl_id : Z;
  ufl_payment_preimage : list byte;
  ufl_tlv_stream : list byte;
}.

Definition UpdateFulfillHtlc_encode (m : UpdateFulfillHtlc) : enc :=
  write_32 (ufl_channel_id m);;
  write_u64_overflow (ufl_id m);;
  write_32 (ufl_payment_preimage m);;
  write_bytes (ufl_tlv_stream m).

Definition UpdateFulfillHtlc_decode_body : Decoder UpdateFulfillHtlc :=
  channel_id ← read_32;
  id ← read_u64_overflow;
  payment_preimage ← read_32;
  tlv_stream ← read_remaining;
  _ ← lift_check (validate_tlv_stream tlv_stream);
  mret (mkUpdateFulfillHtlc channel_id id payment_preimage tlv_stream).

Record UpdateFailHtlc : Type := mkUpdateFailHtlc {
  ufh_channel_id : list byte;
  ufh_id : Z;
  ufh_reason : list byte;
  ufh_tlv_stream : list byte;
}.

Definition UpdateFailHtlc_encode (m : UpdateFailHtlc) : enc :=
  write_32 (ufh_channel_id m);;
  write_u64_overflow (ufh_id m);;
  write_varsize (ufh_reason m);;
  write_bytes (ufh_tlv_stream m).

Definition UpdateFailHtlc_decode_body : Decoder UpdateFailHtlc :=
  channel_id ← read_32;
  id ← read_u64_overflow;
  reason ← read_varsize;
  tlv_stream ← read_remaining;
  _ ← lift_check (validate_tlv_stream tlv_stream);
  mret (mkUpdateFailHtlc channel_id id reason tlv_stream).

Record UpdateFailMalformedHtlc : Type := mkUpdateFailMalformedHtlc {
  ufm_channel_id : list byte;
  ufm_id : Z;
  ufm_sha256_of_onion : list byte;
  ufm_failure_code : Z;
  ufm_tlv_stream : list byte;
}.

Definition UpdateFailMalformedHtlc_encode (m : UpdateFailMalformedHtlc) : enc :=
  write_32 (ufm_channel_id m);;
  write_u64_overflow (ufm_id m);;
  write_32 (ufm_sha256_of_onion m);;
  write_u16 (ufm_failure_code m);;
  write_bytes (ufm_tlv_stream m).

Definition UpdateFailMalformedHtlc_decode_body : Decoder UpdateFailMalformedHtlc :=
  channel_id ← read_32;
  id ← read_u64_overflow;
  sha256_of_onion ← read_32;
  failure_code ← read_u16;
  tlv_stream ← read_remaining;
  _ ← lift_check (validate_tlv_stream tlv_stream);
  mret (mkUpdateFailMalformedHtlc channel_id id sha256_of_onion failure_code tlv_stream).

Record HcError : Type := mkHcError {
  he_channel_id : list byte;
  he_data : list byte;
  he_tlv_stream : list byte;
}.

Definition HcError_encode (m : HcError) : enc :=
  write_32 (he_channel_id m);;
  write_varsize (he_data m);;
  write_bytes (he_tlv_stream m).

Definition HcError_decode : Decoder HcError :=
  channel_id ← read_32;
  data ← read_varsize;
  tlv_stream ← read_remaining;
  _ ← lift_check (validate_tlv_stream tlv_stream);
  mret (mkHcError channel_id data tlv_stream).

Record QueryPreimages : Type := mkQueryPreimages { qp_hashes : list (list byte) }.

Definition QueryPreimages_encode (m : QueryPreimages) : enc :=
  write_u16 (wrap16 (len (qp_hashes m)));;
  enc_all write_32 (qp_hashes m).

Definition QueryPreimages_decode : Decoder QueryPreimages :=
  count ← read_u16;
  hashes ← read_n (Z.to_nat count) read_32;
  mret (mkQueryPreimages hashes).

Record ReplyPreimages : Type := mkReplyPreimages { rp_preimages : list (list byte) }.

Definition ReplyPreimages_encode (m : ReplyPreimages) : enc :=
  write_u16 (wrap16 (len (rp_preimages m)));;
  enc_all write_32 (rp_preimages m).

Definition ReplyPreimages_decode : Decoder ReplyPreimages :=
  count ← read_u16;
  preimages ← read_n (Z.to_nat count) read_32;
  mret (mkReplyPreimages preimages).

(** ** The message type *)

Inductive HostedMessage : Type :=
| MInvokeHostedChannel (m : InvokeHostedChannel)
| MInitHostedChannel (m : InitHostedChannel)
| MLastCrossSignedState (m : LastCrossSignedState)
| MStateUpdate (m : StateUpdate)
| MStateOverride (m : StateOverride)
| MHostedChannelBranding (m : HostedChannelBranding)
| MAnnouncementSignature (m : AnnouncementSignature)
| MResizeChannel (m : ResizeChannel)
| MQueryPublicHostedChannels (m : QueryPublicHostedChannels)
| MReplyPublicHostedChannelsEnd (m : ReplyPublicHostedChannelsEnd)
| MQueryPreimages (m : QueryPreimages)
| MReplyPreimages (m : ReplyPreimages)
| MAskBrandingInfo (m : AskBrandingInfo)
| MUpdateAddHtlc (m : UpdateAddHtlc)
| MUpdateFulfillHtlc (m : UpdateFulfillHtlc)
| MUpdateFailHtlc (m : UpdateFailHtlc)
| MUpdateFailMalformedHtlc (m : UpdateFailMalformedHtlc)
| MError (m : HcError)
| MPhcChannelUpdate (m : PhcChannelUpdate).

Record DecodedHostedMessage : Type := mkDecodedHostedMessage {
  dhm_message : HostedMessage;
  dhm_encoding : WireEncoding;
}.

Definition HostedMessage_tag (m : HostedMessage) : Z :=
  match m with
  | MInvokeHostedChannel _ => TAG_INVOKE_HOSTED_CHANNEL
  | MInitHostedChannel _ => TAG_INIT_HOSTED_CHANNEL
  | MLastCrossSignedState _ => TAG_LAST_CROSS_SIGNED_STATE
  | MStateUpdate _ => TAG_STATE_UPDATE
  | MStateOverride _ => TAG_STATE_OVERRIDE
  | MHostedChannelBranding _ => TAG_HOSTED_CHANNEL_BRANDING
  | MAnnouncementSignature _ => TAG_ANNOUNCEMENT_SIGNATURE
  | MResizeChannel _ => TAG_RESIZE_CHANNEL
  | MQueryPublicHostedChannels _ => TAG_QUERY_PUBLIC_HOSTED_CHANNELS
  | MReplyPublicHostedChannelsEnd _ => TAG_REPLY_PUBLIC_HOSTED_CHANNELS_END
  | MQueryPreimages _ => TAG_QUERY_PREIMAGES
  | MReplyPreimages _ => TAG_REPLY_PREIMAGES
  | MAskBrandingInfo _ => TAG_ASK_BRANDING_INFO
  | MUpdateAddHtlc _ => TAG_UPDATE_ADD_HTLC
  | MUpdateFulfillHtlc _ => TAG_UPDATE_FULFILL_HTLC
  | MUpdateFailHtlc _ => TAG_UPDATE_FAIL_HTLC
  | MUpdateFailMalformedHtlc _ => TAG_UPDATE_FAIL_MALFORMED_HTLC
  | MError _ => TAG_ERROR
  | MPhcChannelUpdate m => phc_tag m
  end.

Definition encode_body (m : HostedMessage) : enc :=
  match m with
  | MInvokeHostedChannel m => InvokeHostedChannel_encode m
  | MInitHostedChannel m => InitHostedChannel_encode m
  | MLastCrossSignedState m => Lcss_encode m
  | MStateUpdate m => StateUpdate_encode m
  | MStateOverride m => StateOverride_encode m
  | MHostedChannelBranding m => HostedChannelBranding_encode m
  | MAnnouncementSignature m => AnnouncementSignature_encode m
  | MResizeChannel m => ResizeChannel_encode m
  | MQueryPublicHostedChannels m => QueryPublicHostedChannels_encode m
  | MReplyPublicHostedChannelsEnd m => ReplyPublicHostedChannelsEnd_encode m
  | MQueryPreimages m => QueryPreimages_encode m
  | MReplyPreimages m => ReplyPreimages_encode m
  | MAskBrandingInfo m => AskBrandingInfo_encode m
  | MUpdateAddHtlc m => encode_update_add_htlc_body m
  | MUpdateFulfillHtlc m => UpdateFulfillHtlc_encode m
  | MUpdateFailHtlc m => UpdateFailHtlc_encode m
  | MUpdateFailMalformedHtlc m => UpdateFailMalformedHtlc_encode m
  | MError m => HcError_encode m
  | MPhcChannelUpdate m => ChannelUpdate_encode (phc_body m)
  end.

Definition encode_with_encoding (encoding : WireEncoding) (m : HostedMessage)
    : result EncodeError (list byte) :=
  enc_result (
    write_u16 (HostedMessage_tag m);;
    match encoding with
    | Strict => encode_body m
    | Legacy => with_buffer (encode_body m) write_varsize
    end).

Definition HostedMessage_encode (m : HostedMessage) : result EncodeError (list byte) :=
  encode_with_encoding Strict m.

Definition decode_with_tag (tag : Z) : Decoder HostedMessage :=
  if tag =? TAG_INVOKE_HOSTED_CHANNEL then
    m ← InvokeHostedChannel_decode; mret (MInvokeHostedChannel m)
  else if tag =? TAG_INIT_HOSTED_CHANNEL then
    m ← InitHostedChannel_decode; mret (MInitHostedChannel m)
  else if tag =? TAG_LAST_CROSS_SIGNED_STATE then
    m ← Lcss_decode; mret (MLastCrossSignedState m)
  else if tag =? TAG_STATE_UPDATE then m ← StateUpdate_decode; mret (MStateUpdate m)
  else if tag =? TAG_STATE_OVERRIDE then m ← StateOverride_decode; mret (MStateOverride m)
  else if tag =? TAG_HOSTED_CHANNEL_BRANDING then
    m ← HostedChannelBranding_decode; mret (MHostedChannelBranding m)
  else if tag =? TAG_ANNOUNCEMENT_SIGNATURE then
    m ← AnnouncementSignature_decode; mret (MAnnouncementSignature m)
  else if tag =? TAG_RESIZE_CHANNEL then m ← ResizeChannel_decode; mret (MResizeChannel m)
  else if tag =? TAG_QUERY_PUBLIC_HOSTED_CHANNELS then
    m ← QueryPublicHostedChannels_decode; mret (MQueryPublicHostedChannels m)
  else if tag =? TAG_REPLY_PUBLIC_HOSTED_CHANNELS_END then
    m ← ReplyPublicHostedChannelsEnd_decode; mret (MReplyPublicHostedChannelsEnd m)
  else if tag =? TAG_QUERY_PREIMAGES then m ← QueryPreimages_decode; mret (MQueryPreimages m)
  else if tag =? TAG_REPLY_PREIMAGES then m ← ReplyPreimages_decode; mret (MReplyPreimages m)
  else if tag =? TAG_ASK_BRANDING_INFO then
    m ← AskBrandingInfo_decode; mret (MAskBrandingInfo m)
  else if tag =? TAG_UPDATE_ADD_HTLC then
    m ← decode_update_add_htlc_body; mret (MUpdateAddHtlc m)
  else if tag =? TAG_UPDATE_FULFILL_HTLC then
    m ← UpdateFulfillHtlc_decode_body; mret (MUpdateFulfillHtlc m)
  else if tag =? TAG_UPDATE_FAIL_HTLC then
    m ← UpdateFailHtlc_decode_body; mret (MUpdateFailHtlc m)
  else if tag =? TAG_UPDATE_FAIL_MALFORMED_HTLC then
    m ← UpdateFailMalformedHtlc_decode_body; mret (MUpdateFailMalformedHtlc m)
  else if tag =? TAG_ERROR then m ← HcError_decode; mret (MError m)
  else if (tag =? TAG_PHC_CHANNEL_UPDATE_GOSSIP) || (tag =? TAG_PHC_CHANNEL_UPDATE_SYNC) then
    body ← ChannelUpdate_decode; mret (MPhcChannelUpdate (mkPhcChannelUpdate tag body))
  else fail_decode (Invalid ("unknown tag " +:+ pretty tag)).

Definition HostedMessage_decode (data : list byte) : result DecodeError HostedMessage :=
  '(tag, buf) ← read_u16 data;
  '(msg, buf) ← decode_with_tag tag buf;
  if decide (buf = []) then Ok msg
  else Err (Invalid (pretty (len buf) +:+ " trailing bytes after message")).

Definition decode_legacy (data : list byte) : result DecodeError DecodedHostedMessage :=
  '(tag, buf) ← read_u16 data;
  '(body, buf) ← read_varsize buf;
  if decide (buf = []) then
    '(message, body_slice) ← decode_with_tag tag body;
    if decide (body_slice = []) then Ok (mkDecodedHostedMessage message Legacy)
    else Err (Invalid (pretty (len body_slice) +:+ " trailing bytes after legacy message"))
  else Err (Invalid (pretty (len buf) +:+ " trailing bytes after legacy frame")).

Definition decode_legacy_aware (data : list byte) : result DecodeError DecodedHostedMessage :=
  match HostedMessage_decode data with
  | Ok message => Ok (mkDecodedHostedMessage message Strict)
  | Err strict_err =>
      map_err (λ legacy_err, Invalid ("strict decode failed: " +:+ DecodeError_to_string strict_err
                 +:+ "; legacy decode failed: " +:+ DecodeError_to_string legacy_err))
        (decode_legacy data)
  end.

(** ** Typing

    [HostedMessage_typed]: the ranges and array lengths of the Rust types.
    [HostedMessage_wire_ok]: what the receiver insists on beyond them. *)

Definition ChannelUpdate_typed (m : ChannelUpdate) : Prop :=
  length (cu_signature m) = 64%nat ∧ length (cu_chain_hash m) = 32%nat ∧
  u64 (cu_short_channel_id m) ∧ u32 (cu_timestamp m) ∧ u8 (cu_message_flags m) ∧
  u8 (cu_channel_flags m) ∧ u16 (cu_cltv_expiry_delta m) ∧ u64 (cu_htlc_minimum_msat m) ∧
  u32 (cu_fee_base_msat m) ∧ u32 (cu_fee_proportional_millionths m) ∧
  u64 (cu_htlc_maximum_msat m).

Definition HostedMessage_typed (m : HostedMessage) : Prop :=
  match m with
  | MInvokeHostedChannel m => length (inv_chain_hash m) = 32%nat
  | MInitHostedChannel m => InitHostedChannel_typed m
  | MLastCrossSignedState m => Lcss_typed m
  | MStateUpdate m =>
      u32 (su_block_day m) ∧ u32 (su_local_updates m) ∧ u32 (su_remote_updates m) ∧
      length (su_local_sig_of_remote m) = 64%nat
  | MStateOverride m =>
      u32 (so_block_day m) ∧ u64 (so_local_balance_msat m) ∧ u32 (so_local_updates m) ∧
      u32 (so_remote_updates m) ∧ length (so_local_sig_of_remote m) = 64%nat
  | MHostedChannelBranding m => length (hcb_rgb_color m) = 3%nat
  | MAnnouncementSignature m => length (as_node_signature m) = 64%nat
  | MResizeChannel m => u64 (rc_new_capacity_sat m) ∧ length (rc_client_sig m) = 64%nat
  | MQueryPublicHostedChannels m => length (qphc_chain_hash m) = 32%nat
  | MReplyPublicHostedChannelsEnd m => length (rphc_chain_hash m) = 32%nat
  | MQueryPreimages m => Forall (λ h, length h = 32%nat) (qp_hashes m)
  | MReplyPreimages m => Forall (λ h, length h = 32%nat) (rp_preimages m)
  | MAskBrandingInfo m => length (abi_chain_hash m) = 32%nat
  | MUpdateAddHtlc m => UpdateAddHtlc_typed m
  | MUpdateFulfillHtlc m =>
      length (ufl_channel_id m) = 32%nat ∧ u64 (ufl_id m) ∧
      length (ufl_payment_preimage m) = 32%nat
  | MUpdateFailHtlc m => length (ufh_channel_id m) = 32%nat ∧ u64 (ufh_id m)
  | MUpdateFailMalformedHtlc m =>
      length (ufm_channel_id m) = 32%nat ∧ u64 (ufm_id m) ∧
      length (ufm_sha256_of_onion m) = 32%nat ∧ u16 (ufm_failure_code m)
  | MError m => length (he_channel_id m) = 32%nat
  | MPhcChannelUpdate m => u16 (phc_tag m) ∧ ChannelUpdate_typed (phc_body m)
  end.

Definition tlv_ok (l : list byte) : Prop := validate_tlv_stream l = Ok tt.

Definition HostedMessage_wire_ok (m : HostedMessage) : Prop :=
  match m with
  | MInitHostedChannel m => len (ihc_features m) ≤ U16_MAX
  | MLastCrossSignedState m => Lcss_wire_ok m
  | MQueryPreimages m => len (qp_hashes m) ≤ U16_MAX
  | MReplyPreimages m => len (rp_preimages m) ≤ U16_MAX
  | MUpdateAddHtlc m => tlv_ok (uah_tlv_stream m)
  | MUpdateFulfillHtlc m => tlv_ok (ufl_tlv_stream m)
  | MUpdateFailHtlc m => tlv_ok (ufh_tlv_stream m)
  | MUpdateFailMalformedHtlc m => tlv_ok (ufm_tlv_stream m)
  | MError m => tlv_ok (he_tlv_stream m)
  | MPhcChannelUpdate m =>
      (phc_tag m = TAG_PHC_CHANNEL_UPDATE_GOSSIP ∨ phc_tag m = TAG_PHC_CHANNEL_UPDATE_SYNC) ∧
      cu_message_flags (phc_body m) = 1 ∧ tlv_ok (cu_tlv_stream (phc_body m))
  | _ => True
  end.

(** ** Round trip of every body *)

Lemma decodes_bind_all {A B} (d : Decoder A) (k : A → B) l a :
  decodes_all d l a → decodes_all (x ← d; mret (k x)) l (k a).
Proof. intros H. unfold decodes_all, mbind, Decoder_bind. by rewrite H. Qed.

Lemma decodes_write_32_all hs :
  Forall (λ h : list byte, length h = 32%nat) hs →
  Forall (λ h, ∀ l, write_32 h = (l, None) → decodes read_32 l h) hs.
Proof. intros H. eapply Forall_impl; [exact H|]. intros h Hh l He. inv_enc He. by apply decodes_32. Qed.

Lemma decodes_counted_last {A B} (f : A → enc) (d : Decoder A) (k : list A → B) xs l :
  len xs ≤ U16_MAX → enc_all f xs = (l, None) →
  Forall (λ x, ∀ lx, f x = (lx, None) → decodes d lx x) xs →
  decodes (n ← read_u16; ys ← read_n (Z.to_nat n) d; mret (k ys))
    (be_bytes 2 (wrap16 (len xs)) ++ l) (k xs).
Proof.
  intros Hn He HF. rewrite <-(app_nil_r l). eapply decodes_counted; [done..|]. apply decodes_ret.
Qed.

Lemma decodes_check {A} (b : bool) (e : DecodeError) (d : Decoder A) l a :
  b = false → decodes d l a → decodes (_ ← (if b then fail_decode e else mret tt); d) l a.
Proof. by intros ->. Qed.

Lemma decodes_all_check {A} (b : bool) (e : DecodeError) (d : Decoder A) l a :
  b = false → decodes_all d l a → decodes_all (_ ← (if b then fail_decode e else mret tt); d) l a.
Proof. by intros ->. Qed.

Lemma png_decodes {B} (png : option (list byte)) lp (k : option (list byte) → Decoder B) l b :
  match png with
  | Some p => write_u8 1;; write_varsize p
  | None => write_u8 0
  end = (lp, None) → decodes (k png) l b →
  decodes (has_png ← read_u8;
           o ← (if negb (has_png =? 0) then p ← read_varsize; mret (Some p) else mret None);
           k o) (lp ++ l) b.
Proof.
  intros H Hk. destruct png as [p|]; inv_enc H; rewrite <-?app_assoc;
    (eapply decodes_bind; [by apply decodes_u8|]); cbn.
  - rewrite app_assoc. eapply decodes_bind; [|done]. apply decodes_bind_last.
    by apply decodes_varsize.
  - done.
Qed.

Lemma branding_decodes m l :
  length (hcb_rgb_color m) = 3%nat → HostedChannelBranding_encode m = (l, None) →
  decodes HostedChannelBranding_decode l m.
Proof.
  destruct m as [rgb png ci]; cbn. intros Hrgb H.
  unfold HostedChannelBranding_encode in H; cbn in H. inv_enc H.
  destruct (utf8_valid ci) eqn:Hu; cbn in *; [|discriminate].
  match goal with HE : write_varsize ci = _ |- _ => inv_enc HE end.
  unfold HostedChannelBranding_decode.
  eapply decodes_bind; [apply decodes_bytes; unfold len; lia|].
  eapply png_decodes; [done|]. rewrite <-(app_nil_r (_ ++ ci)).
  eapply decodes_bind; [by apply decodes_varsize|]. apply decodes_check; [by rewrite Hu|].
  apply decodes_ret.
Qed.

Lemma channel_update_decodes m l :
  ChannelUpdate_typed m → cu_message_flags m = 1 → tlv_ok (cu_tlv_stream m) →
  ChannelUpdate_encode m = (l, None) → decodes_all ChannelUpdate_decode l m.
Proof.
  intros (?&?&?&?&?&?&?&?&?&?&?) Hf Ht HE. destruct m as [sg ch sc ts mf cf cd hm fb fp hx tl].
  cbn in *. subst mf. unfold ChannelUpdate_encode in HE; cbn in HE. inv_enc HE.
  unfold ChannelUpdate_decode.
  do 5 (eapply decodes_all_bind; [by eauto with codec|]). apply decodes_all_check; [done|].
  do 6 (eapply decodes_all_bind; [by eauto with codec|]).
  by apply (decodes_all_tail (mkChannelUpdate sg ch sc ts 1 cf cd hm fb fp hx)).
Qed.

Lemma decode_with_tag_phc tag :
  tag = TAG_PHC_CHANNEL_UPDATE_GOSSIP ∨ tag = TAG_PHC_CHANNEL_UPDATE_SYNC →
  decode_with_tag tag =
    (body ← ChannelUpdate_decode; mret (MPhcChannelUpdate (mkPhcChannelUpdate tag body))).
Proof. by intros [-> | ->]. Qed.

(** Bodies that are a plain sequence of fields, with or without a TLV tail. *)
Ltac solve_fields D :=
  apply decodes_decodes_all; unfold D; repeat (eapply decodes_bind; [by eauto with codec|]);
  apply decodes_bind_last; by eauto with codec.
Ltac solve_fields_tlv D k :=
  unfold D; repeat (eapply decodes_all_bind; [by eauto with codec|]);
  by apply (decodes_all_tail k).

Lemma body_decodes m l :
  HostedMessage_typed m → HostedMessage_wire_ok m → encode_body m = (l, None) →
  decodes_all (decode_with_tag (HostedMessage_tag m)) l m.
Proof.
  destruct m as [m|m|m|m|m|m|m|m|m|m|m|m|m|m|m|m|m|m|m]; cbn [HostedMessage_typed
    HostedMessage_wire_ok HostedMessage_tag encode_body]; intros Ht Hw HE;
    lazymatch goal with
    | |- context [phc_tag _] => idtac
    | |- decodes_all (decode_with_tag ?t) _ _ => unfold t; apply decodes_bind_all
    end;
    try (apply decodes_decodes_all;
         first [by apply InitHostedChannel_decodes|by apply Lcss_decodes|by apply branding_decodes]);
    try by apply update_add_htlc_decodes.
  all: lazymatch type of Ht with
       | _ ∧ ChannelUpdate_typed _ =>
           destruct Hw as (?&?&?), Ht; rewrite decode_with_tag_phc by done; destruct m;
           apply (decodes_bind_all _ (λ b, MPhcChannelUpdate (mkPhcChannelUpdate _ b)));
           by apply channel_update_decodes
       | _ => idtac
       end.
  all: destruct m; cbn in *; destruct_and?.
  all: lazymatch type of HE with ?f _ = _ => unfold f in HE; cbn in HE; inv_enc HE end.
  - solve_fields InvokeHostedChannel_decode.
  - solve_fields StateUpdate_decode.
  - solve_fields StateOverride_decode.
  - solve_fields AnnouncementSignature_decode.
  - solve_fields ResizeChannel_decode.
  - solve_fields QueryPublicHostedChannels_decode.
  - solve_fields ReplyPublicHostedChannelsEnd_decode.
  - apply decodes_decodes_all, (decodes_counted_last write_32 _ mkQueryPreimages); auto using decodes_write_32_all.
  - apply decodes_decodes_all, (decodes_counted_last write_32 _ mkReplyPreimages); auto using decodes_write_32_all.
  - solve_fields AskBrandingInfo_decode.
  - solve_fields_tlv UpdateFulfillHtlc_decode_body (mkUpdateFulfillHtlc ufl_channel_id0 ufl_id0 ufl_payment_preimage0).
  - solve_fields_tlv UpdateFailHtlc_decode_body (mkUpdateFailHtlc ufh_channel_id0 ufh_id0 ufh_reason0).
  - solve_fields_tlv UpdateFailMalformedHtlc_decode_body
      (mkUpdateFailMalformedHtlc ufm_channel_id0 ufm_id0 ufm_sha256_of_onion0 ufm_failure_code0).
  - solve_fields_tlv HcError_decode (mkHcError he_channel_id0 he_data0).
Qed.

(** ** What the dispatcher accepts *)

(** A message the encoder accepts and whose encoding the decoder accepts. *)
Definition HostedMessage_ok (m : HostedMessage) : Prop :=
  HostedMessage_typed m ∧ HostedMessage_wire_ok m ∧ ∃ l, encode_body m = (l, None).

Lemma check_inv {A} (b : bool) (e : DecodeError) (f : unit → Decoder A) buf r :
  ((if b then fail_decode e else mret tt) ≫= f) buf = Ok r → b = false ∧ f tt buf = Ok r.
Proof. by destruct b. Qed.

Lemma write_varsize_ex l : len l ≤ U16_MAX → ∃ k, write_varsize l = (k, None).
Proof. intros. rewrite write_varsize_small by done. by eexists. Qed.

Lemma branding_inv buf m rest :
  HostedChannelBranding_decode buf = Ok (m, rest) → HostedMessage_ok (MHostedChannelBranding m).
Proof.
  intros H. unfold HostedChannelBranding_decode in H.
  apply Decoder_bind_inv in H as (rgb & mid & Hr & H). inv_read Hr.
  apply Decoder_bind_inv in H as (hp & mid' & Hr & H). inv_read Hr.
  apply Decoder_bind_inv in H as (png & mid'' & Hp & H).
  apply Decoder_bind_inv in H as (ci & mid''' & Hr & H). inv_read Hr.
  apply check_inv in H as [Hu H]. injection H as <- <-.
  split; [|split; [done|]]; cbn; [unfold len in *; lia|].
  unfold HostedChannelBranding_encode; cbn. rewrite Hu.
  assert (∀ p, png = Some p → len p ≤ U16_MAX) as Hpng.
  { intros p ->. destruct (negb (hp =? 0)); [|discriminate Hp].
    apply Decoder_bind_inv in Hp as (q & ? & Hq & Hp). inv_read Hq. by injection Hp as -> _. }
  rewrite write_varsize_small by done. destruct png as [p|]; cbn.
  - rewrite write_varsize_small by auto. eexists; reflexivity.
  - eexists; reflexivity.
Qed.

Lemma channel_update_inv buf m rest :
  ChannelUpdate_decode buf = Ok (m, rest) →
  ChannelUpdate_typed m ∧ cu_message_flags m = 1 ∧ tlv_ok (cu_tlv_stream m) ∧
  ∃ l, ChannelUpdate_encode m = (l, None).
Proof.
  intros H. unfold ChannelUpdate_decode in H.
  do 5 (apply Decoder_bind_inv in H as (? & ? & ?Hr & H)).
  inv_read Hr. inv_read Hr0. inv_read Hr1. inv_read Hr2. inv_read Hr3.
  apply check_inv in H as [Hf H]. inv_dec H. apply negb_false_iff, Z.eqb_eq in Hf as ->.
  unfold ChannelUpdate_typed, UINT64_OVERFLOW_MAX, u64, u32, u16, u8 in *; cbn in *.
  split; [split_and!; done || lia|]. split; [done|]. split; [done|].
  unfold ChannelUpdate_encode; cbn.
  rewrite !write_u64_overflow_small by (unfold UINT64_OVERFLOW_MAX; lia). eexists; reflexivity.
Qed.

Lemma preimages_inv n b (hs : list (list byte)) r :
  read_n (Z.to_nat n) read_32 b = Ok (hs, r) → 0 ≤ n < 2 ^ 16 →
  Forall (λ h : list byte, length h = 32%nat) hs ∧ len hs ≤ U16_MAX ∧
  ∃ l, enc_all write_32 hs = (l, None).
Proof.
  intros H Hn. eapply (read_n_inv (λ h : list byte, length h = 32%nat) _ (len b)) in H
    as (HF & Hl & _); [| |done].
  - split; [done|]. split; [unfold len, U16_MAX; lia|].
    apply enc_all_ok, Forall_true. intros. by eexists.
  - intros c h t Hh _. inv_read Hh. rewrite len_app. pose proof (len_nonneg h). split; [done|lia].
Qed.

(** Invert a body that is a plain sequence of fields, and re-encode it. *)
Ltac ok_fields H :=
  lazymatch type of H with ?d _ = _ => unfold d in H end;
  inv_dec H; unfold HostedMessage_ok; cbn; unfold UINT64_OVERFLOW_MAX, u64, u32, u16 in *;
  split; [split_and?; done || lia|split; [done|]];
  match goal with |- ∃ l, ?f _ = _ => unfold f; cbn end;
  rewrite ?write_u64_overflow_small by (unfold UINT64_OVERFLOW_MAX; lia);
  rewrite ?write_varsize_small by done; eexists; reflexivity.

Lemma decode_with_tag_inv tag buf m rest :
  decode_with_tag tag buf = Ok (m, rest) → len buf < 2 ^ 63 →
  HostedMessage_tag m = tag ∧ HostedMessage_ok m.
Proof.
  intros H HN. unfold decode_with_tag in H.
  repeat (match type of H with
          | (if ?t =? ?c then _ else _) _ = _ =>
              destruct (Z.eqb_spec t c) as [->|]; [apply Decoder_bind_inv in H as (x & ? & Hx & H);
                injection H as <- _; split; [done|]|] end).
  - ok_fields Hx.
  - apply InitHostedChannel_decode_inv in Hx as (?&?&?&_). done.
  - apply Lcss_decode_inv in Hx; done.
  - ok_fields Hx.
  - ok_fields Hx.
  - by eapply branding_inv.
  - ok_fields Hx.
  - ok_fields Hx.
  - ok_fields Hx.
  - ok_fields Hx.
  - unfold QueryPreimages_decode in Hx. inv_dec Hx.
    apply preimages_inv in Hr as (?&?&[l Hl]); [|done]. split; [done|]. split; [done|].
    cbn. unfold QueryPreimages_encode. cbn. rewrite Hl. eexists; reflexivity.
  - unfold ReplyPreimages_decode in Hx. inv_dec Hx.
    apply preimages_inv in Hr as (?&?&[l Hl]); [|done]. split; [done|]. split; [done|].
    cbn. unfold ReplyPreimages_encode. cbn. rewrite Hl. eexists; reflexivity.
  - ok_fields Hx.
  - apply decode_update_add_htlc_body_inv in Hx as (_&?&?&?). split; [done|]. split; [done|by eexists].
  - ok_fields Hx.
  - ok_fields Hx.
  - ok_fields Hx.
  - ok_fields Hx.
  - destruct ((tag =? TAG_PHC_CHANNEL_UPDATE_GOSSIP) || (tag =? TAG_PHC_CHANNEL_UPDATE_SYNC)) eqn:Ht;
      [|done].
    apply Decoder_bind_inv in H as (x & ? & Hx & H). injection H as <- _. split; [done|].
    apply channel_update_inv in Hx as (?&?&?&?). apply orb_true_iff in Ht.
    rewrite !Z.eqb_eq in Ht. split; [|split; [done|done]].
    split; [|done]; cbn. destruct Ht as [-> | ->]; done.
Qed.

(** ** Framing *)

Lemma HostedMessage_tag_u16 m : HostedMessage_typed m → u16 (HostedMessage_tag m).
Proof. destruct m; cbn; intros; try done. naive_solver. Qed.

Lemma encode_strict_ok m l :
  encode_with_encoding Strict m = Ok l ↔
  ∃ b, encode_body m = (b, None) ∧ l = be_bytes 2 (HostedMessage_tag m) ++ b.
Proof.
  unfold encode_with_encoding. rewrite enc_result_ok, enc_seq_ok. split.
  - intros (l1 & l2 & H1 & H2 & ->). inv_enc H1. by eexists.
  - intros (b & Hb & ->). by eexists _, b.
Qed.

Lemma encode_legacy_ok m l :
  encode_with_encoding Legacy m = Ok l ↔
  ∃ b, encode_body m = (b, None) ∧ len b ≤ U16_MAX ∧
       l = be_bytes 2 (HostedMessage_tag m) ++ be_bytes 2 (len b) ++ b.
Proof.
  unfold encode_with_encoding. rewrite enc_result_ok, enc_seq_ok. split.
  - intros (l1 & l2 & H1 & (b & Hb & H2)%with_buffer_ok & ->). inv_enc H1. inv_enc H2. by eexists.
  - intros (b & Hb & Hl & ->). eexists _, _. split_and!; [reflexivity| |reflexivity].
    apply with_buffer_ok. exists b. by rewrite write_varsize_ok.
Qed.

Lemma decode_strict_encode m l :
  HostedMessage_typed m → HostedMessage_wire_ok m → encode_with_encoding Strict m = Ok l →
  HostedMessage_decode l = Ok m.
Proof.
  intros Ht Hw (b & Hb & ->)%encode_strict_ok. unfold HostedMessage_decode.
  rewrite (decodes_u16 _ (HostedMessage_tag_u16 _ Ht)). cbn. by rewrite body_decodes.
Qed.

Lemma decode_legacy_encode m l :
  HostedMessage_typed m → HostedMessage_wire_ok m → encode_with_encoding Legacy m = Ok l →
  decode_legacy l = Ok (mkDecodedHostedMessage m Legacy).
Proof.
  intros Ht Hw (b & Hb & Hl & ->)%encode_legacy_ok. unfold decode_legacy.
  rewrite (decodes_u16 _ (HostedMessage_tag_u16 _ Ht)). cbn.
  rewrite <-(app_nil_r (_ ++ b)), (decodes_varsize _ Hl). cbn. by rewrite body_decodes.
Qed.

Lemma HostedMessage_decode_inv data m :
  HostedMessage_decode data = Ok m → len data < 2 ^ 63 → HostedMessage_ok m.
Proof.
  unfold HostedMessage_decode. intros ([tag buf] & Ht & H)%result_bind_ok Hd.
  apply (read_uint_inv 2) in Ht as [-> Ht]. apply result_bind_ok in H as ([m' r] & H & Hm).
  case_decide; [|done]. injection Hm as ->. rewrite len_app, be_bytes_len in Hd.
  by apply decode_with_tag_inv in H as [_ ?]; [|lia].
Qed.

(** ** Legacy frames *)

(** Messages whose body has one size only. *)
Definition fixed_size (m : HostedMessage) : option Z :=
  match m with
  | MStateUpdate _ => Some 76
  | MStateOverride _ => Some 84
  | MAnnouncementSignature _ => Some 65
  | MResizeChannel _ => Some 72
  | MQueryPublicHostedChannels _ | MReplyPublicHostedChannelsEnd _ | MAskBrandingInfo _ => Some 32
  | _ => None
  end.

Lemma read_bool_length buf (b : bool) rest : read_bool buf = Ok (b, rest) → len buf = 1 + len rest.
Proof. intros H. unfold read_bool in H. inv_dec H. by rewrite len_app, be_bytes_len. Qed.

Ltac consumes H :=
  apply Decoder_bind_inv in H as (?x & ? & ?Hx & H); injection H as _ <-;
  lazymatch type of Hx with ?d _ = _ => unfold d in Hx end; inv_dec Hx;
  repeat match goal with HB : read_bool _ = _ |- _ => apply read_bool_length in HB end;
  rewrite ?len_app, ?be_bytes_len in *; unfold len in *; lia.

Lemma fixed_size_consumes m n buf m' rest :
  fixed_size m = Some n → decode_with_tag (HostedMessage_tag m) buf = Ok (m', rest) →
  len buf = n + len rest.
Proof. intros Hn H. destruct m; cbn in Hn; simplify_eq; cbn in H; consumes H. Qed.

Lemma fixed_size_encode m n b :
  HostedMessage_typed m → HostedMessage_wire_ok m → fixed_size m = Some n →
  encode_body m = (b, None) → len b = n.
Proof.
  intros Ht Hw Hn Hb. pose proof (body_decodes _ _ Ht Hw Hb) as Hd.
  eapply fixed_size_consumes in Hd; [|done]. unfold len in Hd. cbn in Hd. unfold len. lia.
Qed.

Lemma fixed_size_not_strict m n l :
  HostedMessage_typed m → HostedMessage_wire_ok m → fixed_size m = Some n →
  encode_with_encoding Legacy m = Ok l → ∃ e, HostedMessage_decode l = Err e.
Proof.
  intros Ht Hw Hn (b & Hb & Hl & ->)%encode_legacy_ok.
  pose proof (fixed_size_encode _ _ _ Ht Hw Hn Hb) as Hlen. unfold HostedMessage_decode.
  rewrite (decodes_u16 _ (HostedMessage_tag_u16 _ Ht)). cbn.
  destruct (decode_with_tag _ _) as [[m' rest]|e] eqn:Hd; cbn; [|by eexists].
  eapply fixed_size_consumes in Hd; [|done]. rewrite len_app, be_bytes_len in Hd.
  case_decide as Hr; [|by eexists]. subst rest. unfold len in *. cbn in *. lia.
Qed.

(** A legacy [update_fail_htlc] whose id equals two more than the length of its reason. *)
Definition ambiguous_fail : HostedMessage :=
  MUpdateFailHtlc (mkUpdateFailHtlc (be_bytes 32 0) 4 (be_bytes 2 1) []).

Lemma decode_legacy_marked data r : decode_legacy data = Ok r → dhm_encoding r = Legacy.
Proof.
  unfold decode_legacy. intros ([tag buf] & _ & ([body buf'] & _ & H)%result_bind_ok)%result_bind_ok.
  case_decide; [|done]. apply result_bind_ok in H as ([message rest] & _ & H).
  case_decide; [|done]. by injection H as <-.
Qed.

(** ** The message layer's guarantees *)

(** C28. Which messages survive strict framing, exactly.  A typed message that
    [encode] accepts is returned by [decode], every octet consumed, if and only if it
    meets the receiver's checks ([HostedMessage_wire_ok]: no more than 65,535 hashes,
    preimages, features or HTLCs of a list, a TLV stream in order, and for a gossiped
    channel update a known tag and flag); then [decode_legacy_aware] reports it as
    strictly framed.  The encoder does not check them, so a message that fails one is
    sent all the same and arrives as another or not at all.  (The bound on the buffer
    is that of a Rust slice.) *)
Theorem strict_roundtrip m l :
  HostedMessage_typed m → HostedMessage_encode m = Ok l → len l < 2 ^ 63 →
  (HostedMessage_decode l = Ok m ↔ HostedMessage_wire_ok m) ∧
  (decode_legacy_aware l = Ok (mkDecodedHostedMessage m Strict) ↔ HostedMessage_wire_ok m).
Proof.
  intros Ht H Hl.
  assert (HostedMessage_wire_ok m → HostedMessage_decode l = Ok m) as Hd by (intros; by apply decode_strict_encode).
  assert (HostedMessage_decode l = Ok m → HostedMessage_wire_ok m) as Hw
    by (intros Hm; by destruct (HostedMessage_decode_inv _ _ Hm Hl) as (_ & ? & _)).
  split; [done|]. unfold decode_legacy_aware. split.
  - destruct (HostedMessage_decode l) as [m'|] eqn:Hm; [intros [= ->]; by apply Hw|].
    intros Hleg. destruct (decode_legacy l) as [r|] eqn:Hdl; cbn in Hleg; [|done].
    injection Hleg as ->. by apply decode_legacy_marked in Hdl.
  - intros Hok. by rewrite Hd.
Qed.

(** A message whose TLV stream is not one: encoded, but not accepted. *)
Definition bad_tail : HostedMessage := MError (mkHcError (be_bytes 32 0) [] (be_bytes 1 5)).

Lemma strict_roundtrip_witness :
  (∃ l, HostedMessage_encode ambiguous_fail = Ok l ∧ HostedMessage_decode l = Ok ambiguous_fail) ∧
  (∃ l, HostedMessage_encode bad_tail = Ok l ∧ HostedMessage_decode l ≠ Ok bad_tail).
Proof.
  split; eexists; (split; [vm_compute; reflexivity|]).
  - apply strict_roundtrip; [vm_compute; done|vm_compute; reflexivity|vm_compute; done|vm_compute; done].
  - intros Hd. apply strict_roundtrip in Hd; [|vm_compute; done|vm_compute; reflexivity|vm_compute; done].
    vm_compute in Hd. discriminate Hd.
Defined.

(** C29. The decoder is sound: every message it accepts from a buffer of a
    possible size has the ranges and array lengths of its Rust types, satisfies
    the receiver's checks, is accepted by the encoder, and survives a second
    round trip. *)
Theorem decode_sound data m :
  HostedMessage_decode data = Ok m → len data < 2 ^ 63 →
  HostedMessage_typed m ∧ HostedMessage_wire_ok m ∧
  ∃ l, HostedMessage_encode m = Ok l ∧ HostedMessage_decode l = Ok m.
Proof.
  intros H Hd. destruct (HostedMessage_decode_inv _ _ H Hd) as (Ht & Hw & b & Hb).
  split; [done|]. split; [done|]. eexists. assert (HostedMessage_encode m = Ok
    (be_bytes 2 (HostedMessage_tag m) ++ b)) as He by (apply encode_strict_ok; eauto).
  split; [exact He|]. by apply decode_strict_encode.
Qed.

Lemma decode_sound_witness :
  ∃ data, HostedMessage_decode data = Ok ambiguous_fail ∧ HostedMessage_typed ambiguous_fail.
Proof.
  destruct (encode_with_encoding Strict ambiguous_fail) as [data|] eqn:He; [|vm_compute in He; discriminate].
  exists data. assert (HostedMessage_decode data = Ok ambiguous_fail) as Hd.
  { vm_compute in He. injection He as <-. vm_compute. reflexivity. }
  split; [done|]. apply (decode_sound data ambiguous_fail Hd).
  vm_compute in He. injection He as <-. vm_compute. done.
Defined.

(** A peer that frames in the legacy way is understood: for every message of
    fixed size, the legacy frame is never mistaken for a strict one and
    [decode_legacy_aware] returns the message, marked [Legacy]. *)
Theorem legacy_roundtrip m n l :
  HostedMessage_typed m → HostedMessage_wire_ok m → fixed_size m = Some n →
  encode_with_encoding Legacy m = Ok l →
  decode_legacy_aware l = Ok (mkDecodedHostedMessage m Legacy).
Proof.
  intros Ht Hw Hn H. destruct (fixed_size_not_strict _ _ _ Ht Hw Hn H) as [e He].
  unfold decode_legacy_aware. by rewrite He, (decode_legacy_encode _ _ Ht Hw H).
Qed.

Lemma legacy_roundtrip_witness :
  let m := MStateUpdate (mkStateUpdate 7 1 2 (be_bytes 64 9)) in
  ∃ l, encode_with_encoding Legacy m = Ok l ∧
       decode_legacy_aware l = Ok (mkDecodedHostedMessage m Legacy).
Proof.
  cbn zeta. eexists. split; [vm_compute; reflexivity|].
  eapply legacy_roundtrip; [vm_compute; done|done|reflexivity|vm_compute; reflexivity].
Defined.

(** The detection of legacy frames is ambiguous for messages of variable
    size: this legacy [update_fail_htlc] decodes, as a strict frame, to a
    different message. *)
Theorem legacy_ambiguous :
  ∃ l m', encode_with_encoding Legacy ambiguous_fail = Ok l ∧
    decode_legacy l = Ok (mkDecodedHostedMessage ambiguous_fail Legacy) ∧
    decode_legacy_aware l = Ok (mkDecodedHostedMessage m' Strict) ∧ m' ≠ ambiguous_fail.
Proof. eexists _, _. split_and!; try (vm_compute; reflexivity). vm_compute. congruence. Qed.
