(* ===== verification/Sphinx.v ===== *)
(** * Onion processing ([src/sphinx.rs])

    BigSize integers, hop payloads, peeling and building onions, failure
    wrapping.  HMAC, ChaCha20 and the curve operations are the interface
    [OnionCrypto]; everything else is the source's. *)
From S2P Require Import Prelude Bytes Crypto.
From stdpp Require Import options.
#[local] Open Scope Z_scope.

Class OnionCrypto `{Crypto} : Type := {
  (** [HmacSha256::new_from_slice(key)] on [data] *)
  hmac : list byte → list byte → list byte;
  (** the first [n] octets of the ChaCha20 keystream, zero nonce *)
  chacha20 : list byte → nat → list byte;
  (** [PublicKey::mul_tweak], [SecretKey::mul_tweak] by [Scalar::from_be_bytes] *)
  pk_mul_tweak : PublicKey → list byte → option PublicKey;
  sk_mul_tweak : SecretKey → list byte → option SecretKey;
  secret_bytes : SecretKey → list byte;
}.

Class OnionCryptoLaws `{OnionCrypto} : Prop := {
  hmac_length k d : length (hmac k d) = 32%nat;
  chacha20_length k n : length (chacha20 k n) = n;
  chacha20_prefix k n m : (n ≤ m)%nat → take n (chacha20 k m) = chacha20 k n;
  (** Diffie-Hellman *)
  mul_tweak_comm a b :
    pk_mul_tweak (pk_from_secret_key a) (secret_bytes b) =
    pk_mul_tweak (pk_from_secret_key b) (secret_bytes a);
}.

Definition ONION_ROUTING_INFO_SIZE : Z := 1300.
Definition ONION_PACKET_SIZE : Z := 1366.

(** [b"rho"], [b"mu"], [b"um"] *)
Definition KEY_RHO : list byte := map byte_of_Z [114; 104; 111].
Definition KEY_MU : list byte := map byte_of_Z [109; 117].
Definition KEY_UM : list byte := map byte_of_Z [117; 109].

Inductive SphinxError : Type :=
| InvalidSize (n : Z)
| UnsupportedVersion (v : Z)
| HmacFailed
| InvalidEphemeralKey
| EcdhFailed
| InvalidPayload (msg : string)
| UnsupportedPayload (msg : string).

Definition SphinxError_to_string (e : SphinxError) : string :=
  match e with
  | InvalidSize n => "invalid onion packet size: " +:+ pretty n
  | UnsupportedVersion v => "unsupported onion version: " +:+ pretty v
  | HmacFailed => "HMAC verification failed"
  | InvalidEphemeralKey => "invalid ephemeral public key"
  | EcdhFailed => "ECDH failed"
  | InvalidPayload m => "invalid hop payload: " +:+ m
  | UnsupportedPayload m => "unsupported onion payload: " +:+ m
  end.

Record PeeledOnion : Type := mkPeeledOnion {
  po_short_channel_id : Z;
  po_amt_to_forward : Z;
  po_outgoing_cltv_value : Z;
  po_next_onion : list byte;
  po_shared_secret : list byte;
}.

Definition byte_xor (a b : byte) : byte := byte_of_Z (Z.lxor (Z_of_byte a) (Z_of_byte b)).

(** [xor_in_place]: [dst] beyond the end of [src] is unchanged. *)
Fixpoint xor_in_place (dst src : list byte) : list byte :=
  match dst, src with
  | d :: dst, s :: src => byte_xor d s :: xor_in_place dst src
  | dst, [] => dst
  | [], _ => []
  end.

(** [[0u8; n]] *)
Definition zeros (n : nat) : list byte := replicate n (byte_of_Z 0).
#[global] Arguments zeros : simpl never.

Definition constant_time_eq (a b : list byte) : bool :=
  if negb (length a =? length b)%nat then false
  else fold_left (λ acc p, Z.lor acc (Z.lxor (Z_of_byte p.1) (Z_of_byte p.2))) (zip a b) 0 =? 0.

(** ** BigSize and truncated integers *)

Definition read_bigsize (data : list byte) : result SphinxError (Z * Z) :=
  match data with
  | [] => Err (InvalidPayload "empty varint")
  | v :: rest =>
      let v := Z_of_byte v in
      if v =? 0xFD then
        if len data <? 3 then Err (InvalidPayload "short varint")
        else let value := be_Z (take 2 rest) in
             if value <? 0xfd then Err (InvalidPayload "non-canonical bigsize")
             else Ok (value, 3)
      else if v =? 0xFE then
        if len data <? 5 then Err (InvalidPayload "short varint")
        else let value := be_Z (take 4 rest) in
             if value <=? U16_MAX then Err (InvalidPayload "non-canonical bigsize")
             else Ok (value, 5)
      else if v =? 0xFF then
        if len data <? 9 then Err (InvalidPayload "short varint")
        else let value := be_Z (take 8 rest) in
             if value <=? U32_MAX then Err (InvalidPayload "non-canonical bigsize")
             else Ok (value, 9)
      else Ok (v, 1)
  end.

Definition write_bigsize (value : Z) : list byte :=
  if value <? 0xfd then be_bytes 1 value
  else if value <=? U16_MAX then be_bytes 1 0xfd ++ be_bytes 2 value
  else if value <=? U32_MAX then be_bytes 1 0xfe ++ be_bytes 4 value
  else be_bytes 1 0xff ++ be_bytes 8 value.

Definition bigsize_len (value : Z) : Z :=
  if value <? 0xfd then 1
  else if value <=? U16_MAX then 3
  else if value <=? U32_MAX then 5
  else 9.

Definition be_tu (value : list byte) (max_len : Z) : result SphinxError Z :=
  if (len value =? 0) || (max_len <? len value) || (8 <? len value) then
    Err (InvalidPayload "invalid integer length")
  else if (1 <? len value) && bool_decide (head value = Some (byte_of_Z 0)) then
    Err (InvalidPayload "non-minimal truncated integer")
  else Ok (be_Z value).

(** ** Hop payloads *)

Record PayloadFields : Type := mkPayloadFields {
  pf_short_channel_id : option Z;
  pf_amt_to_forward : option Z;
  pf_outgoing_cltv_value : option Z;
}.

(** [&data[a..b]]: panics unless [a <= b <= data.len()]. *)
Definition slice (data : list byte) (a b : Z) : outcome (list byte) :=
  if (a <=? b) && (b <=? len data)
  then Returns (take (Z.to_nat (b - a)) (drop (Z.to_nat a) data)) else Panics.

(** One TLV record of a payload. *)
Definition parse_field (fields : PayloadFields) (tlv_type : Z) (value : list byte)
    : result SphinxError PayloadFields :=
  if tlv_type =? 2 then
    amt ← be_tu value 8;
    Ok (mkPayloadFields (pf_short_channel_id fields) (Some amt) (pf_outgoing_cltv_value fields))
  else if tlv_type =? 4 then
    cltv ← be_tu value 4;
    Ok (mkPayloadFields (pf_short_channel_id fields) (pf_amt_to_forward fields)
          (Some (wrap32 cltv)))
  else if tlv_type =? 6 then
    if negb (len value =? 8) then Err (InvalidPayload "short_channel_id must be 8 bytes")
    else Ok (mkPayloadFields (Some (be_Z value)) (pf_amt_to_forward fields)
               (pf_outgoing_cltv_value fields))
  else if (tlv_type =? 8) || (tlv_type =? 16) || (tlv_type =? 18) then Ok fields
  else if (tlv_type =? 10) || (tlv_type =? 12) then
    Err (UnsupportedPayload "blinded payment payloads are not supported")
  else if tlv_type mod 2 =? 0 then
    Err (InvalidPayload ("unknown even TLV type " +:+ pretty tlv_type))
  else Ok fields.

(** The loop.  [consumed + len as usize] is a bare addition of [usize], so it
    wraps; a slice out of bounds panics. *)
Fixpoint parse_tlv_loop (fuel : nat) (data : list byte) (consumed : Z) (last_type : option Z)
    (fields : PayloadFields) : outcome (result SphinxError PayloadFields) :=
  match fuel with
  | O => OutOfFuel
  | S fuel =>
      if negb (consumed <? len data) then Returns (Ok fields) else
      d1 ← slice data consumed (len data);
      match read_bigsize d1 with
      | Err e => Returns (Err e)
      | Ok (tlv_type, type_len) =>
          if match last_type with Some last => tlv_type <=? last | None => false end then
            Returns (Err (InvalidPayload "TLV types must be strictly increasing"))
          else
          let consumed := wrap64 (consumed + type_len) in
          d2 ← slice data consumed (len data);
          match read_bigsize d2 with
          | Err e => Returns (Err e)
          | Ok (l, len_size) =>
              let consumed := wrap64 (consumed + len_size) in
              if len data <? wrap64 (consumed + l) then
                Returns (Err (InvalidPayload "TLV value out of bounds"))
              else
              value ← slice data consumed (wrap64 (consumed + l));
              let consumed := wrap64 (consumed + l) in
              match parse_field fields tlv_type value with
              | Err e => Returns (Err e)
              | Ok fields => parse_tlv_loop fuel data consumed (Some tlv_type) fields
              end
          end
      end
  end.

Definition check_fields (fields : PayloadFields) (is_final : bool)
    : result SphinxError PayloadFields :=
  match pf_amt_to_forward fields with
  | None => Err (InvalidPayload "missing amt_to_forward")
  | Some _ =>
      match pf_outgoing_cltv_value fields with
      | None => Err (InvalidPayload "missing outgoing_cltv_value")
      | Some _ =>
          match pf_short_channel_id fields with
          | None => if is_final then Ok fields else
              Err (InvalidPayload "missing short_channel_id for non-final payload")
          | Some _ => Ok fields
          end
      end
  end.

Definition parse_tlv_payload (data : list byte) (is_final : bool)
    : outcome (result SphinxError PayloadFields) :=
  r ← parse_tlv_loop (S (length data)) data 0 None (mkPayloadFields None None None);
  Returns (fields ← r; check_fields fields is_final).

(** [iter().position(|b| *b != 0)] then the rest of the array; [keep] octets stay
    when all are zero. *)
Fixpoint strip_zeros (l : list byte) : list byte :=
  match l with
  | b :: l' => if Z_of_byte b =? 0 then strip_zeros l' else l
  | [] => []
  end.

Definition write_tlv_u64 (tlv_type value : Z) : list byte :=
  let value_bytes := match strip_zeros (be_bytes 8 value) with
                     | [] => be_bytes 1 0
                     | l => l
                     end in
  write_bigsize tlv_type ++ write_bigsize (len value_bytes) ++ value_bytes.

Definition build_payload (amount_msat cltv_expiry : Z) (short_channel_id : option Z)
    (payment_secret : option (list byte)) : list byte :=
  write_tlv_u64 2 amount_msat ++ write_tlv_u64 4 cltv_expiry ++
  match short_channel_id with
  | Some scid => write_bigsize 6 ++ write_bigsize 8 ++ be_bytes 8 scid
  | None => []
  end ++
  match payment_secret with
  | Some secret =>
      let amount_bytes := strip_zeros (be_bytes 8 amount_msat) in
      write_bigsize 8 ++ write_bigsize (33 + len amount_bytes) ++ secret ++
      be_bytes 1 (len amount_bytes) ++ amount_bytes
  | None => []
  end.

Section Onions.
Context {HC : Crypto} {HO : OnionCrypto}.

Definition derive_keys (shared_secret : list byte) : list byte * list byte * list byte :=
  (hmac KEY_RHO shared_secret, hmac KEY_MU shared_secret, hmac KEY_UM shared_secret).

Definition ecdh (privkey : SecretKey) (pubkey : PublicKey) : result SphinxError (list byte) :=
  match pk_mul_tweak pubkey (secret_bytes privkey) with
  | Some point => Ok (sha256 (pk_serialize point))
  | None => Err EcdhFailed
  end.

Definition blinding_factor (pubkey : PublicKey) (shared_secret : list byte) : list byte :=
  sha256 (pk_serialize pubkey ++ shared_secret).

Definition blind_pubkey (pubkey : PublicKey) (factor : list byte) : result SphinxError PublicKey :=
  ok_or (pk_mul_tweak pubkey factor) InvalidEphemeralKey.

(** The part of [peel_onion] after decryption: [unwrapped] is the 2600-octet
    decrypted routing info. *)
Definition peel_unwrapped (version : byte) (ephemeral : PublicKey) (shared_secret unwrapped : list byte)
    : outcome (result SphinxError PeeledOnion) :=
  match read_bigsize unwrapped with
  | Err e => Returns (Err e)
  | Ok (payload_len, len_size) =>
      if payload_len <? 2 then Returns (Err (InvalidPayload "payload length below minimum")) else
      match checked_add_u64 len_size payload_len with
      | None => Returns (Err (InvalidPayload "payload length overflow"))
      | Some payload_end =>
      match checked_add_u64 payload_end 32 with
      | None => Returns (Err (InvalidPayload "next hmac overflow"))
      | Some next_hmac_end =>
      if len unwrapped <? next_hmac_end then
        Returns (Err (InvalidPayload "payload exceeds onion routing info"))
      else
      payload ← slice unwrapped len_size payload_end;
      next_hmac ← slice unwrapped payload_end next_hmac_end;
      remaining ← slice unwrapped next_hmac_end (len unwrapped);
      if len remaining <? ONION_ROUTING_INFO_SIZE then
        Returns (Err (InvalidPayload "not enough forwarding payload"))
      else
      let is_final := forallb (λ b, Z_of_byte b =? 0) next_hmac in
      parsed ← parse_tlv_payload payload is_final;
      Returns (
        fields ← parsed;
        next_onion ←
          (if (is_final : bool) then Ok [] else
             next_ephemeral ← blind_pubkey ephemeral (blinding_factor ephemeral shared_secret);
             Ok ([version] ++ pk_serialize next_ephemeral
                 ++ take (Z.to_nat ONION_ROUTING_INFO_SIZE) remaining ++ next_hmac));
        Ok {| po_short_channel_id := default 0 (pf_short_channel_id fields);
              po_amt_to_forward := default 0 (pf_amt_to_forward fields);
              po_outgoing_cltv_value := default 0 (pf_outgoing_cltv_value fields);
              po_next_onion := next_onion;
              po_shared_secret := shared_secret |})
      end
      end
  end.

Definition peel_onion (node_privkey : SecretKey) (onion associated_data : list byte)
    : outcome (result SphinxError PeeledOnion) :=
  if negb (len onion =? ONION_PACKET_SIZE) then Returns (Err (InvalidSize (len onion))) else
  match onion with
  | [] => Panics
  | version :: rest =>
      if negb (Z_of_byte version =? 0) then
        Returns (Err (UnsupportedVersion (Z_of_byte version)))
      else
      match pk_from_slice (take 33 rest) with
      | None => Returns (Err InvalidEphemeralKey)
      | Some ephemeral =>
          let hop_data := take 1300 (drop 33 rest) in
          let hmac_in_packet := take 32 (drop 1333 rest) in
          match ecdh node_privkey ephemeral with
          | Err e => Returns (Err e)
          | Ok shared_secret =>
              let '(rho, mu, _) := derive_keys shared_secret in
              if negb (constant_time_eq (hmac mu (hop_data ++ associated_data)) hmac_in_packet)
              then Returns (Err HmacFailed)
              else
              let unwrapped := xor_in_place (hop_data ++ zeros 1300)
                                 (chacha20 rho 2600) in
              peel_unwrapped version ephemeral shared_secret unwrapped
          end
      end
  end.

(** [padded.resize(256, 0)] truncates or pads. *)
Definition resize (l : list byte) (n : nat) : list byte :=
  take n l ++ zeros (n - length l).

Definition wrap_failure (shared_secret failure_message : list byte) : list byte :=
  let '(_, _, um) := derive_keys shared_secret in
  let padded := resize (be_bytes 2 (wrap16 (len failure_message)) ++ failure_message) 256 in
  xor_in_place padded (chacha20 um 256).

Definition encoded_hop_data_len (payload_len : Z) : Z := bigsize_len payload_len + payload_len + 32.

(** The key schedule of [create_payment_onion]: one shared secret per hop. *)
Fixpoint shared_secrets (ephemeral_secret : SecretKey) (hops : list (PublicKey * list byte))
    : result SphinxError (list (list byte)) :=
  match hops with
  | [] => Ok []
  | (pubkey, _) :: hops =>
      let ephemeral_pubkey := pk_from_secret_key ephemeral_secret in
      shared_secret ← ecdh ephemeral_secret pubkey;
      ephemeral_secret ←
        ok_or (sk_mul_tweak ephemeral_secret (blinding_factor ephemeral_pubkey shared_secret))
          InvalidEphemeralKey;
      rest ← shared_secrets ephemeral_secret hops;
      Ok (shared_secret :: rest)
  end.

(** One iteration of the wrapping loop, innermost hop first; [filler] is given
    for the last hop of a two-hop route. *)
Definition wrap_hop (payload shared_secret associated_data : list byte) (filler : option (list byte))
    (acc : list byte * list byte) : result SphinxError (list byte * list byte) :=
  let '(hop_payloads, next_hmac) := acc in
  let hop_data := write_bigsize (len payload) ++ payload ++ next_hmac in
  if ONION_ROUTING_INFO_SIZE <? len hop_data then Err (InvalidPayload "payload too large") else
  let shifted := hop_data ++ take (1300 - length hop_data) hop_payloads in
  let '(rho, mu, _) := derive_keys shared_secret in
  let shifted := xor_in_place shifted (chacha20 rho 1300) in
  shifted ← match filler with
            | Some f =>
                if ONION_ROUTING_INFO_SIZE - len hop_data <? len f then
                  Err (InvalidPayload "filler too large")
                else Ok (take (1300 - length f) shifted ++ f)
            | None => Ok shifted
            end;
  Ok (shifted, hmac mu (shifted ++ associated_data)).

(** [session_secret] is the key drawn from [OsRng]. *)
Definition create_payment_onion (session_secret : SecretKey) (hops : list (PublicKey * list byte))
    (associated_data : list byte) : result SphinxError (list byte) :=
  match hops with
  | [] => Err (InvalidPayload "empty route")
  | _ =>
      if 2 <? len hops then
        Err (UnsupportedPayload "test onion construction supports at most two hops")
      else
      secrets ← shared_secrets session_secret hops;
      let start := (zeros 1300, zeros 32) in
      '(hop_payloads, next_hmac) ←
        match hops, secrets with
        | [(_, p1)], [s1] => wrap_hop p1 s1 associated_data None start
        | [(_, p1); (_, p2)], [s1; s2] =>
            let shift := Z.to_nat (encoded_hop_data_len (len p1)) in
            let '(rho, _, _) := derive_keys s1 in
            let filler := take shift (drop 1300 (chacha20 rho 2600)) in
            inner ← wrap_hop p2 s2 associated_data (Some filler) start;
            wrap_hop p1 s1 associated_data None inner
        | _, _ => Ok start
        end;
      Ok ([byte_of_Z 0] ++ pk_serialize (pk_from_secret_key session_secret)
          ++ hop_payloads ++ next_hmac)
  end.

Definition create_onion (session_secret : SecretKey) (recipient_pubkey : PublicKey)
    (amount_msat cltv_expiry short_channel_id : Z) (payment_secret : option (list byte))
    (associated_data : list byte) : result SphinxError (list byte) :=
  let payload := build_payload amount_msat cltv_expiry
                   (if negb (short_channel_id =? 0) then Some short_channel_id else None)
                   payment_secret in
  create_payment_onion session_secret [(recipient_pubkey, payload)] associated_data.

Definition create_single_hop_onion (session_secret : SecretKey) (recipient_pubkey : PublicKey)
    (amount_msat cltv_expiry : Z) (payment_secret : option (list byte)) (payment_hash : list byte)
    : result SphinxError (list byte) :=
  create_onion session_secret recipient_pubkey amount_msat cltv_expiry 0 payment_secret payment_hash.

Definition create_relay_onion (session_secret : SecretKey) (recipient_pubkey next_pubkey : PublicKey)
    (short_channel_id amount_msat cltv_expiry : Z) (payment_hash : list byte)
    : result SphinxError (list byte) :=
  create_payment_onion session_secret
    [(recipient_pubkey, build_payload amount_msat cltv_expiry (Some short_channel_id) None);
     (next_pubkey, build_payload amount_msat cltv_expiry None None)] payment_hash.

Definition temp_channel_failure (reason : list byte) : list byte := byte_of_Z 0 :: reason.

End Onions.

Lemma take_zeros n m : (n ≤ m)%nat → take n (zeros m) = zeros n.
Proof. intros. unfold zeros. by rewrite take_replicate, Nat.min_l by lia. Qed.
Lemma length_zeros n : length (zeros n) = n.
Proof. apply length_replicate. Qed.

(** ** BigSize *)

Lemma byte_of_Z_small z : 0 ≤ z < 256 → Z_of_byte (byte_of_Z z) = z.
Proof. intros. rewrite Z_of_byte_of_Z. by apply Z.mod_small. Qed.

Lemma be_bytes_1 z : be_bytes 1 z = [byte_of_Z z].
Proof.
  rewrite be_bytes_S, Z.div_1_r. reflexivity.
Qed.

Lemma take_be_bytes n z rest : take n (be_bytes n z ++ rest) = be_bytes n z.
Proof. apply take_app_length'. by rewrite be_bytes_length. Qed.

Lemma write_bigsize_len v : len (write_bigsize v) = bigsize_len v.
Proof.
  unfold write_bigsize, bigsize_len. repeat zcase; by rewrite ?len_app, !be_bytes_len.
Qed.

Lemma read_bigsize_write v rest :
  u64 v → read_bigsize (write_bigsize v ++ rest) = Ok (v, bigsize_len v).
Proof.
  intros [Hv1 Hv2]. unfold write_bigsize, bigsize_len, U16_MAX, U32_MAX in *.
  destruct (Z.ltb_spec v 0xfd).
  { rewrite be_bytes_1. cbn [app]. unfold read_bigsize. rewrite byte_of_Z_small by lia.
    rewrite (proj2 (Z.eqb_neq v 0xFD)), (proj2 (Z.eqb_neq v 0xFE)), (proj2 (Z.eqb_neq v 0xFF)) by lia.
    done. }
  destruct (Z.leb_spec v (2 ^ 16 - 1)); [|destruct (Z.leb_spec v (2 ^ 32 - 1))];
    rewrite <-app_assoc, be_bytes_1; cbn [app]; unfold read_bigsize;
    rewrite byte_of_Z_small by lia; cbn [Z.eqb Pos.eqb];
    rewrite ltb_false by (unfold len; cbn; rewrite length_app, be_bytes_length; lia);
    rewrite take_be_bytes, be_Z_be_bytes_id by (cbn; lia); unfold U16_MAX, U32_MAX.
  - by rewrite ltb_false by lia.
  - by rewrite leb_false by lia.
  - by rewrite leb_false by lia.
Qed.

Lemma bigsize_len_pos v : 1 ≤ bigsize_len v ≤ 9.
Proof. unfold bigsize_len. repeat zcase; lia. Qed.

(** ** Payloads *)

Lemma slice_app (a b c : list byte) :
  slice (a ++ b ++ c) (len a) (len a + len b) = Returns b.
Proof.
  unfold slice. pose proof (len_nonneg a). pose proof (len_nonneg b). pose proof (len_nonneg c).
  rewrite !len_app, !leb_true by lia. cbn [andb]. f_equal. unfold len.
  rewrite Nat2Z.id, drop_app_length. replace (Z.to_nat _) with (length b) by lia.
  by rewrite take_app_length.
Qed.

Lemma slice_tail (a b : list byte) : slice (a ++ b) (len a) (len (a ++ b)) = Returns b.
Proof.
  pose proof (slice_app a b []) as Hs. rewrite app_nil_r in Hs. by rewrite len_app.
Qed.

Definition tlv (t : Z) (v : list byte) : list byte := write_bigsize t ++ write_bigsize (len v) ++ v.

Lemma parse_tlv_step fuel pre t v post last fields fields' :
  u64 t → len (pre ++ tlv t v ++ post) < 2 ^ 64 →
  match last with Some l => l < t | None => True end →
  parse_field fields t v = Ok fields' →
  parse_tlv_loop (S fuel) (pre ++ tlv t v ++ post) (len pre) last fields =
  parse_tlv_loop fuel (pre ++ tlv t v ++ post) (len (pre ++ tlv t v)) (Some t) fields'.
Proof.
  intros Ht Hlen Hlast Hf. unfold tlv in *. rewrite !len_app in Hlen.
  pose proof (len_nonneg pre). pose proof (len_nonneg v). pose proof (len_nonneg post).
  rewrite !write_bigsize_len in Hlen. pose proof (bigsize_len_pos t).
  pose proof (bigsize_len_pos (len v)).
  set (data := pre ++ (write_bigsize t ++ write_bigsize (len v) ++ v) ++ post).
  assert (len data = len pre + bigsize_len t + bigsize_len (len v) + len v + len post) as Hd.
  { unfold data. rewrite !len_app, !write_bigsize_len. lia. }
  cbn [parse_tlv_loop]. rewrite ltb_true by lia. cbn [negb].
  assert (slice data (len pre) (len data) =
    Returns (write_bigsize t ++ write_bigsize (len v) ++ v ++ post)) as ->.
  { unfold data. rewrite slice_tail. by rewrite <-!app_assoc. }
  cbn. rewrite read_bigsize_write by done.
  replace (match last with Some l => t <=? l | None => false end) with false
    by (destruct last; [by rewrite leb_false|done]).
  rewrite !wrap64_small by (unfold u64; lia).
  assert (slice data (len pre + bigsize_len t) (len data) =
    Returns (write_bigsize (len v) ++ v ++ post)) as ->.
  { rewrite <-write_bigsize_len, <-len_app.
    assert (data = (pre ++ write_bigsize t) ++ write_bigsize (len v) ++ v ++ post) as ->
      by (unfold data; by rewrite <-!app_assoc).
    apply slice_tail. }
  cbn. rewrite read_bigsize_write by (unfold u64; lia).
  rewrite !wrap64_small by (unfold u64; rewrite ?wrap64_small; unfold u64; lia).
  rewrite ltb_false by lia.
  assert (slice data (len pre + bigsize_len t + bigsize_len (len v))
            (len pre + bigsize_len t + bigsize_len (len v) + len v) = Returns v) as ->.
  { rewrite <-!write_bigsize_len, <-!len_app.
    assert (data = ((pre ++ write_bigsize t) ++ write_bigsize (len v)) ++ v ++ post) as ->
      by (unfold data; by rewrite <-!app_assoc).
    rewrite (len_app _ v). apply slice_app. }
  cbn. rewrite Hf. f_equal. rewrite !len_app, !write_bigsize_len. lia.
Qed.

Lemma parse_tlv_end fuel data fields last :
  parse_tlv_loop (S fuel) data (len data) last fields = Returns (Ok fields).
Proof. cbn. by rewrite Z.ltb_irrefl. Qed.

(** ** Truncated integers *)

Lemma be_Z_nil : be_Z [] = 0.
Proof. pose proof (be_Z_bound []) as Hb. change (256 ^ len []) with 1 in Hb. lia. Qed.

Lemma be_Z_strip_zeros l : be_Z (strip_zeros l) = be_Z l.
Proof.
  induction l as [|b l IH]; cbn; [done|]. destruct (Z.eqb_spec (Z_of_byte b) 0) as [Hb|]; [|done].
  rewrite IH, be_Z_cons, Hb. lia.
Qed.

Lemma strip_zeros_head l b r : strip_zeros l = b :: r → Z_of_byte b ≠ 0.
Proof.
  induction l as [|x l IH]; cbn; [done|]. destruct (Z.eqb_spec (Z_of_byte x) 0); [done|].
  by intros [= <- <-].
Qed.

Lemma strip_zeros_length l : len (strip_zeros l) ≤ len l.
Proof.
  induction l as [|b l IH]; cbn; [done|]. case_match; [|done]. unfold len in *. cbn. lia.
Qed.

(** A number below [256^n] has at most [n] significant octets. *)
Lemma strip_zeros_bound l n : be_Z l < 256 ^ n → 0 ≤ n → len (strip_zeros l) ≤ n.
Proof.
  intros Hl Hn. destruct (strip_zeros l) as [|b r] eqn:Hs; [done|].
  pose proof (strip_zeros_head _ _ _ Hs) as Hb. pose proof (Z_of_byte_bound b).
  pose proof (be_Z_strip_zeros l) as Hz. rewrite Hs, be_Z_cons in Hz.
  pose proof (be_Z_bound r). assert (256 ^ len r < 256 ^ n) as Hlt by nia.
  apply Z.pow_lt_mono_r_iff in Hlt; [|lia|lia]. unfold len in *. cbn. lia.
Qed.

Definition tu_bytes (v : Z) : list byte :=
  match strip_zeros (be_bytes 8 v) with [] => be_bytes 1 0 | l => l end.

Lemma tu_bytes_spec v n :
  u64 v → v < 256 ^ n → 1 ≤ n ≤ 8 → be_tu (tu_bytes v) n = Ok v ∧ 1 ≤ len (tu_bytes v) ≤ 8.
Proof.
  intros [Hv1 Hv2] Hn Hn8.
  assert (be_Z (be_bytes 8 v) = v) as Hbe by (apply be_Z_be_bytes_id; cbn; lia).
  pose proof (strip_zeros_bound (be_bytes 8 v) n ltac:(lia) ltac:(lia)) as Hlen.
  pose proof (be_Z_strip_zeros (be_bytes 8 v)) as Hz.
  unfold tu_bytes. destruct (strip_zeros (be_bytes 8 v)) as [|b r] eqn:Hs.
  - rewrite be_Z_nil in Hz. assert (v = 0) as -> by lia. rewrite be_bytes_1.
    split; [|done]. unfold be_tu. change (len [byte_of_Z 0]) with 1. cbn [Z.eqb Z.ltb orb andb].
    rewrite ltb_false by lia. done.
  - pose proof (strip_zeros_head _ _ _ Hs) as Hb. pose proof (len_nonneg r).
    assert (len (b :: r) = 1 + len r) as Hl by (unfold len; cbn; lia). split; [|lia].
    unfold be_tu. rewrite (proj2 (Z.eqb_neq _ 0)), !ltb_false by lia. cbn [orb].
    rewrite bool_decide_false; [|intros [= ->]; by rewrite byte_of_Z_small in Hb].
    rewrite andb_false_r. by rewrite Hz, Hbe.
Qed.

Lemma write_tlv_u64_tlv t v : write_tlv_u64 t v = tlv t (tu_bytes v).
Proof. unfold write_tlv_u64, tlv, tu_bytes. by destruct (strip_zeros _). Qed.

(** What [build_payload] appends for a payment secret. *)
Definition payment_data (amount : Z) (secret : list byte) : list byte :=
  secret ++ be_bytes 1 (len (strip_zeros (be_bytes 8 amount))) ++ strip_zeros (be_bytes 8 amount).

Lemma build_payload_tlv amount cltv scid secret :
  match secret with Some s => length s = 32%nat | None => True end →
  build_payload amount cltv scid secret =
    tlv 2 (tu_bytes amount) ++ tlv 4 (tu_bytes cltv) ++
    match scid with Some s => tlv 6 (be_bytes 8 s) | None => [] end ++
    match secret with Some s => tlv 8 (payment_data amount s) | None => [] end.
Proof.
  intros Hs. unfold build_payload. rewrite !write_tlv_u64_tlv. repeat f_equal.
  destruct secret as [s|]; [|done]. unfold tlv, payment_data. rewrite !len_app, be_bytes_len.
  replace (len s) with 32 by (unfold len; lia).
  assert (∀ x, 32 + (Z.of_nat 1 + x) = 33 + x) as -> by lia. done.
Qed.

Lemma tlv_len t v : len (tlv t v) = bigsize_len t + bigsize_len (len v) + len v.
Proof. unfold tlv. rewrite !len_app, !write_bigsize_len. lia. Qed.

Lemma build_payload_parses amount cltv scid secret is_final :
  u64 amount → u32 cltv → match scid with Some s => u64 s | None => is_final = true end →
  match secret with Some s => length s = 32%nat | None => True end →
  parse_tlv_payload (build_payload amount cltv scid secret) is_final =
    Returns (Ok (mkPayloadFields scid (Some amount) (Some cltv))).
Proof.
  intros Ha Hc Hscid Hsec. rewrite build_payload_tlv by done.
  destruct (tu_bytes_spec amount 8) as [Hta Hla]; [done|unfold u64 in Ha; lia|lia|].
  destruct (tu_bytes_spec cltv 4) as [Htc Hlc]; [unfold u64, u32 in *; lia|unfold u32 in Hc; lia|lia|].
  set (d3 := match scid with Some s => tlv 6 (be_bytes 8 s) | None => [] end).
  set (d4 := match secret with Some s => tlv 8 (payment_data amount s) | None => [] end).
  assert (len d3 ≤ 26 ∧ len d4 ≤ 68) as [Hl3 Hl4].
  { split.
    - unfold d3. destruct scid; [|by vm_compute]. rewrite tlv_len, be_bytes_len. by vm_compute.
    - unfold d4. destruct secret as [s|]; [|by vm_compute]. rewrite tlv_len.
      pose proof (strip_zeros_length (be_bytes 8 amount)) as Hsl. rewrite be_bytes_len in Hsl.
      assert (len (payment_data amount s) ≤ 41) as Hp.
      { unfold payment_data. rewrite !len_app, be_bytes_len. unfold len in *. lia. }
      pose proof (bigsize_len_pos (len (payment_data amount s))). change (bigsize_len 8) with 1. lia. }
  pose proof (len_nonneg d3). pose proof (len_nonneg d4).
  pose proof (bigsize_len_pos (len (tu_bytes amount))).
  pose proof (bigsize_len_pos (len (tu_bytes cltv))).
  unfold parse_tlv_payload. set (data := tlv 2 _ ++ _).
  assert (4 ≤ len data < 2 ^ 64) as [Hd4 Hd].
  { unfold data. rewrite !len_app, !tlv_len. change (bigsize_len 2) with 1.
    change (bigsize_len 4) with 1. lia. }
  assert (∃ k, length data = (4 + k)%nat) as [k Hk].
  { exists (length data - 4)%nat. unfold len in Hd4. lia. }
  assert (∀ pre fields last,
    data = pre ++ d3 ++ d4 → pf_short_channel_id fields = None →
    match last with Some l => l < 6 | None => True end →
    parse_tlv_loop (3 + k) data (len pre) last fields =
      Returns (Ok (mkPayloadFields scid (pf_amt_to_forward fields) (pf_outgoing_cltv_value fields))))
    as Htail.
  { intros pre fields last Hdata Hnone Hlast.
    assert (∀ fuel pre' fields' last', data = pre' ++ d4 → (2 ≤ fuel)%nat →
      match last' with Some l => l < 8 | None => True end →
      parse_tlv_loop fuel data (len pre') last' fields' = Returns (Ok fields')) as Hlast4.
    { intros fuel pre' f' l' Hdat Hfuel Hl'. destruct fuel as [|[|fuel]]; [lia..|].
      rewrite Hdat in Hd |- *. unfold d4 in *. destruct secret as [s|].
      - rewrite <-(app_nil_r (tlv 8 _)) in Hd |- *. rewrite (parse_tlv_step _ _ _ _ _ _ _ f') by done.
        rewrite app_nil_r. apply parse_tlv_end.
      - rewrite app_nil_r. apply parse_tlv_end. }
    destruct scid as [s|]; unfold d3 in *.
    - rewrite Hdata in Hd |- *. change (3 + k)%nat with (S (2 + k)).
      erewrite parse_tlv_step; [|done|exact Hd|done|]; cycle 1.
      { unfold parse_field. cbn [Z.eqb Pos.eqb]. rewrite be_bytes_len. cbn. reflexivity. }
      rewrite be_Z_be_bytes_id by (unfold u64 in *; cbn; lia). rewrite <-Hdata.
      apply Hlast4; [by rewrite Hdata, <-app_assoc|lia|done].
    - rewrite Hlast4; [|done|lia|by destruct last; [lia|]]. by destruct fields; cbn in *; subst. }
  pose proof (parse_tlv_step (4 + k) [] 2 (tu_bytes amount) (tlv 4 (tu_bytes cltv) ++ d3 ++ d4) None
                (mkPayloadFields None None None) (mkPayloadFields None (Some amount) None)) as St1.
  cbn [app] in St1. fold data in St1. rewrite Hk. change (len []) with 0 in St1.
 rewrite St1; clear St1; [|done|done|done|]; cycle 1.
  { unfold parse_field. cbn [Z.eqb Pos.eqb]. by rewrite Hta. }
  pose proof (parse_tlv_step (3 + k) (tlv 2 (tu_bytes amount)) 4 (tu_bytes cltv) (d3 ++ d4) (Some 2)
                (mkPayloadFields None (Some amount) None)
                (mkPayloadFields None (Some amount) (Some cltv))) as St2.
  fold data in St2. change (4 + k)%nat with (S (3 + k)). rewrite St2; clear St2; [|done|done|done|]; cycle 1.
  { unfold parse_field. cbn [Z.eqb Pos.eqb]. rewrite Htc. cbn. by rewrite wrap32_small. }
  rewrite Htail; [|unfold data; by rewrite <-app_assoc|done|done]. cbn.
  unfold check_fields. cbn. destruct scid; [done|]. by rewrite Hscid.
Qed.

(** ** Streams and comparison *)

Lemma byte_xor_cancel a b : byte_xor (byte_xor a b) b = a.
Proof.
  apply (inj Z_of_byte). unfold byte_xor. rewrite !Z_of_byte_of_Z.
  pose proof (Z_of_byte_bound a). pose proof (Z_of_byte_bound b).
  assert (0 ≤ Z.lxor (Z_of_byte a) (Z_of_byte b) < 256) as Hx.
  { split; [apply Z.lxor_nonneg; lia|].
    destruct (decide (Z.lxor (Z_of_byte a) (Z_of_byte b) = 0)) as [->|Hn]; [lia|].
    change 256 with (2 ^ 8). apply Z.log2_lt_pow2.
    - assert (0 ≤ Z.lxor (Z_of_byte a) (Z_of_byte b)); [apply Z.lxor_nonneg; lia|lia].
    - eapply Z.le_lt_trans; [apply Z.log2_lxor; lia|].
      assert (∀ x, 0 ≤ x < 256 → Z.log2 x < 8) as Hl.
      { intros x Hx. destruct (decide (x = 0)) as [->|]; [done|].
        apply Z.log2_lt_pow2; lia. }
      pose proof (Hl (Z_of_byte a)). pose proof (Hl (Z_of_byte b)). lia. }
  rewrite (Z.mod_small _ 256 Hx), Z.lxor_assoc, Z.lxor_nilpotent, Z.lxor_0_r.
  by apply Z.mod_small.
Qed.

Lemma xor_in_place_length d s : length (xor_in_place d s) = length d.
Proof. revert s. induction d as [|x d IH]; intros [|y s]; cbn; auto. Qed.

Lemma xor_in_place_cancel d s : length d = length s → xor_in_place (xor_in_place d s) s = d.
Proof.
  revert s. induction d as [|x d IH]; intros [|y s] Hl; try done. cbn in *.
  by rewrite byte_xor_cancel, IH by lia.
Qed.

Lemma xor_in_place_app d1 d2 s1 s2 :
  length d1 = length s1 → xor_in_place (d1 ++ d2) (s1 ++ s2) = xor_in_place d1 s1 ++ xor_in_place d2 s2.
Proof.
  revert s1. induction d1 as [|x d1 IH]; intros [|y s1] Hl; try done; cbn in *.
  by rewrite IH by lia.
Qed.

Lemma lxor_fold_zero ps acc : 0 ≤ acc →
  0 ≤ fold_left (λ acc (p : byte * byte), Z.lor acc (Z.lxor (Z_of_byte p.1) (Z_of_byte p.2))) ps acc ∧
  (fold_left (λ acc (p : byte * byte), Z.lor acc (Z.lxor (Z_of_byte p.1) (Z_of_byte p.2))) ps acc = 0 ↔
   acc = 0 ∧ Forall (λ p : byte * byte, p.1 = p.2) ps).
Proof.
  revert acc. induction ps as [|[a b] ps IH]; intros acc Hacc; cbn.
  - split; [done|]. split; [by intros ->|tauto].
  - pose proof (Z_of_byte_bound a). pose proof (Z_of_byte_bound b).
    assert (0 ≤ Z.lxor (Z_of_byte a) (Z_of_byte b)) as Hx by (apply Z.lxor_nonneg; lia).
    assert (0 ≤ Z.lor acc (Z.lxor (Z_of_byte a) (Z_of_byte b))) as Hl by (apply Z.lor_nonneg; lia).
    destruct (IH _ Hl) as [H1 H2]. split; [done|]. rewrite H2, Z.lor_eq_0_iff, Z.lxor_eq_0_iff.
    rewrite Forall_cons. cbn. split; [|naive_solver].
    intros [[-> Hab%(inj Z_of_byte)] HF]. auto.
Qed.

Lemma Forall_zip_eq {A} (a b : list A) :
  length a = length b → Forall (λ p, p.1 = p.2) (zip a b) ↔ a = b.
Proof.
  revert b. induction a as [|x a IH]; intros [|y b] Hl; try done; cbn in *.
  rewrite Forall_cons, IH by lia. cbn. naive_solver.
Qed.

(** The constant-time comparison is equality. *)
Lemma constant_time_eq_spec a b : constant_time_eq a b = bool_decide (a = b).
Proof.
  unfold constant_time_eq. destruct (Nat.eqb_spec (length a) (length b)) as [Hl|Hl]; cbn [negb].
  - destruct (lxor_fold_zero (zip a b) 0 ltac:(lia)) as [_ Hz].
    rewrite (Forall_zip_eq a b Hl) in Hz. case_bool_decide as Hab.
    + by apply Z.eqb_eq, Hz.
    + apply Z.eqb_neq. tauto.
  - rewrite bool_decide_false; [done|]. by intros ->.
Qed.

(** ** Peeling *)

Section Peel.
Context {HC : Crypto} {HO : OnionCrypto}.

(** What is made of a hop's parsed payload, its next HMAC and what follows. *)
Definition hop_result (version : byte) (ephemeral : PublicKey) (ss mac tail : list byte)
    (parsed : result SphinxError PayloadFields) : result SphinxError PeeledOnion :=
  fields ← parsed;
  next_onion ←
    (if forallb (λ b, Z_of_byte b =? 0) mac then Ok [] else
       next_ephemeral ← blind_pubkey ephemeral (blinding_factor ephemeral ss);
       Ok ([version] ++ pk_serialize next_ephemeral ++ take (Z.to_nat ONION_ROUTING_INFO_SIZE) tail ++ mac));
  Ok (mkPeeledOnion (default 0 (pf_short_channel_id fields)) (default 0 (pf_amt_to_forward fields))
        (default 0 (pf_outgoing_cltv_value fields)) next_onion ss).

Lemma frame_slices payload mac tail : len mac = 32 →
  let data := write_bigsize (len payload) ++ payload ++ mac ++ tail in
  let payload_end := bigsize_len (len payload) + len payload in
  slice data (bigsize_len (len payload)) payload_end = Returns payload ∧
  slice data payload_end (payload_end + 32) = Returns mac ∧
  slice data (payload_end + 32) (len data) = Returns tail.
Proof.
  intros Hm data payload_end. unfold payload_end, data. rewrite <-(write_bigsize_len (len payload)), <-Hm. split_and!.
  - apply slice_app.
  - rewrite <-len_app, (app_assoc _ payload). apply slice_app.
  - rewrite <-!len_app, !app_assoc. apply slice_tail.
Qed.

Lemma peel_unwrapped_payload version eph ss payload mac tail :
  2 ≤ len payload → len mac = 32 → 1300 ≤ len tail →
  len (write_bigsize (len payload) ++ payload ++ mac ++ tail) < 2 ^ 64 →
  peel_unwrapped version eph ss (write_bigsize (len payload) ++ payload ++ mac ++ tail) =
  (parsed ← parse_tlv_payload payload (forallb (λ b, Z_of_byte b =? 0) mac);
   Returns (hop_result version eph ss mac tail parsed)).
Proof.
  intros Hp Hm Htail Hlen. unfold peel_unwrapped. set (data := write_bigsize (len payload) ++ _) in *.
  assert (len data = bigsize_len (len payload) + len payload + 32 + len tail) as Hd.
  { unfold data. rewrite !len_app, write_bigsize_len, Hm. lia. }
  pose proof (bigsize_len_pos (len payload)). assert (u64 (len payload)) as Hu by (unfold u64; lia).
  unfold data at 1. rewrite read_bigsize_write by done. rewrite ltb_false by lia.
  unfold checked_add_u64. rewrite !ltb_true by lia. rewrite (ltb_false (len data)) by lia.
  destruct (frame_slices payload mac tail Hm) as (Hs1 & Hs2 & Hs3). fold data in Hs1, Hs2, Hs3. rewrite Hs1, Hs2, Hs3.
  cbn. unfold ONION_ROUTING_INFO_SIZE. rewrite ltb_false by lia.
  by destruct (parse_tlv_payload payload (forallb (λ b, Z_of_byte b =? 0) mac)) as [[f|e]| |].
Qed.

Lemma peel_unwrapped_final version eph ss payload tail :
  2 ≤ len payload → bigsize_len (len payload) + len payload + 32 ≤ 1300 →
  len (write_bigsize (len payload) ++ payload ++ zeros 32 ++ tail) = 2600 →
  peel_unwrapped version eph ss
    (write_bigsize (len payload) ++ payload ++ zeros 32 ++ tail) =
  (parsed ← parse_tlv_payload payload true;
   Returns (fields ← parsed;
     Ok (mkPeeledOnion (default 0 (pf_short_channel_id fields))
           (default 0 (pf_amt_to_forward fields)) (default 0 (pf_outgoing_cltv_value fields)) [] ss))).
Proof.
  intros Hp Hsize Hlen. assert (len (zeros 32) = 32) as Hz by done.
  rewrite peel_unwrapped_payload; [|done|done| |rewrite Hlen; lia].
  - assert (forallb (λ b, Z_of_byte b =? 0) (zeros 32) = true) as Hf by done. unfold hop_result. rewrite Hf.
    by destruct (parse_tlv_payload payload true) as [[f|e]| |].
  - rewrite !len_app, write_bigsize_len, Hz in Hlen. lia.
Qed.

Lemma wrap_hop_single payload ss ad hp mac :
  wrap_hop payload ss ad None (zeros 1300, zeros 32) = Ok (hp, mac) →
  let hop_data := write_bigsize (len payload) ++ payload ++ zeros 32 in
  len hop_data ≤ 1300 ∧
  hp = xor_in_place (hop_data ++ zeros (1300 - length hop_data))
         (chacha20 (hmac KEY_RHO ss) 1300) ∧
  length hp = 1300%nat ∧ mac = hmac (hmac KEY_MU ss) (hp ++ ad).
Proof.
  cbv zeta. unfold wrap_hop, derive_keys. set (hop_data := write_bigsize _ ++ _).
  unfold ONION_ROUTING_INFO_SIZE. zcase; [done|]. intros [= <- <-].
  rewrite take_zeros by lia. split; [lia|]. split; [done|]. split; [|done].
  rewrite xor_in_place_length, length_app, length_zeros. unfold len in *. lia.
Qed.

Lemma create_single_inv eph_sk pk payload ad onion :
  create_payment_onion eph_sk [(pk, payload)] ad = Ok onion →
  ∃ ss hp mac, ecdh eph_sk pk = Ok ss ∧
    wrap_hop payload ss ad None (zeros 1300, zeros 32) = Ok (hp, mac) ∧
    onion = [byte_of_Z 0] ++ pk_serialize (pk_from_secret_key eph_sk) ++ hp ++ mac.
Proof.
  unfold create_payment_onion. change (2 <? len [(pk, payload)]) with false. cbv iota.
  intros (secrets & Hs & Ho)%result_bind_ok. cbn [shared_secrets] in Hs.
  apply result_bind_ok in Hs as (ss & Hss & Hs). apply result_bind_ok in Hs as (esk & _ & Hs).
  cbn in Hs. injection Hs as <-.
  apply result_bind_ok in Ho as ([hp mac] & Hw & Ho). injection Ho as <-. by exists ss, hp, mac.
Qed.

Lemma chacha20_split {HOL : OnionCryptoLaws} k n m :
  (n ≤ m)%nat → ∃ t, chacha20 k m = chacha20 k n ++ t.
Proof. intros Hn. exists (drop n (chacha20 k m)). by rewrite <-(chacha20_prefix k n m), take_drop. Qed.

(** Peeling a single-hop onion is parsing its payload as a final payload. *)
Lemma peel_create {HCL : CryptoLaws} {HOL : OnionCryptoLaws} node_sk eph_sk payload ad onion :
  2 ≤ len payload →
  create_payment_onion eph_sk [(pk_from_secret_key node_sk, payload)] ad = Ok onion →
  ∃ ss, ecdh eph_sk (pk_from_secret_key node_sk) = Ok ss ∧
  peel_onion node_sk onion ad =
  (parsed ← parse_tlv_payload payload true;
   Returns (fields ← parsed;
     Ok (mkPeeledOnion (default 0 (pf_short_channel_id fields))
           (default 0 (pf_amt_to_forward fields)) (default 0 (pf_outgoing_cltv_value fields)) [] ss))).
Proof.
  intros Hp (ss & hp & mac & Hss & Hw & ->)%create_single_inv. exists ss. split; [done|].
  apply wrap_hop_single in Hw as (Hsize & Hhp & Hhl & ->).
  set (eph := pk_from_secret_key eph_sk).
  assert (length (pk_serialize eph) = 33%nat) as Hpk by apply pk_serialize_length.
  assert (length (hmac (hmac KEY_MU ss) (hp ++ ad)) = 32%nat) as Hmac by apply hmac_length.
  unfold peel_onion. set (mac := hmac _ (hp ++ ad)) in *. cbn [app].
  assert (len (byte_of_Z 0 :: pk_serialize eph ++ hp ++ mac) =? ONION_PACKET_SIZE = true) as ->.
  { apply Z.eqb_eq. unfold len, ONION_PACKET_SIZE. cbn. rewrite !length_app. lia. }
  cbn [negb]. rewrite byte_of_Z_small by lia. cbn [Z.eqb negb].
  rewrite (take_app_length' (pk_serialize eph)), pk_from_slice_serialize by done.
  rewrite (drop_app_length' (pk_serialize eph)) by done.
  rewrite (take_app_length' hp) by done.
  assert (take 32 (drop 1333 (pk_serialize eph ++ hp ++ mac)) = mac) as ->.
  { rewrite app_assoc, drop_app_length' by (rewrite length_app; lia). by rewrite take_ge by lia. }
  assert (ecdh node_sk eph = Ok ss) as ->.
  { unfold ecdh in *. unfold eph. rewrite <-Hss. by rewrite mul_tweak_comm. }
  unfold derive_keys. rewrite constant_time_eq_spec, bool_decide_true by done. cbn [negb].
  rewrite Hhp. set (hop_data := write_bigsize _ ++ _) in *.
  set (z := zeros (1300 - length hop_data)).
  assert (length (hop_data ++ z) = 1300%nat) as Hz.
  { unfold z. rewrite length_app, length_zeros. unfold len in *. lia. }
  destruct (chacha20_split (hmac KEY_RHO ss) 1300 2600) as [strm ->]; [lia|].
  rewrite xor_in_place_app by (rewrite xor_in_place_length, chacha20_length; done).
  rewrite xor_in_place_cancel by (by rewrite chacha20_length).
  set (tl := xor_in_place (zeros 1300) _).
  assert (length tl = 1300%nat) as Htl by (unfold tl; by rewrite xor_in_place_length, length_zeros).
  assert ((hop_data ++ z) ++ tl = write_bigsize (len payload) ++ payload ++
            zeros 32 ++ (z ++ tl)) as ->
    by (unfold hop_data; by rewrite <-!app_assoc).
  assert (len hop_data = bigsize_len (len payload) + len payload + 32) as Hhd.
  { unfold hop_data. rewrite !len_app, write_bigsize_len. unfold len. rewrite length_zeros. lia. }
  apply peel_unwrapped_final; [done|lia|].
  assert (len (zeros 32) = 32) as Hr by (unfold len; by rewrite length_zeros).
  rewrite !len_app, write_bigsize_len, Hr. unfold len in *. rewrite length_app in Hz. lia.
Qed.

End Peel.

(** A one-record payload whose declared length is [2^64 - 1]. *)
Definition overflowing_payload : list byte := be_bytes 1 1 ++ be_bytes 1 0xff ++ be_bytes 8 (2 ^ 64 - 1).

Lemma overflowing_payload_panics is_final : parse_tlv_payload overflowing_payload is_final = Panics.
Proof. by vm_compute. Qed.

(** ** Termination and ranges *)

Lemma be_Z_take_bound n l : 0 ≤ be_Z (take n l) < 256 ^ Z.of_nat n.
Proof.
  pose proof (be_Z_bound (take n l)) as Hb. split; [lia|].
  eapply Z.lt_le_trans; [apply Hb|]. apply Z.pow_le_mono_r; [lia|]. unfold len. rewrite length_take. lia.
Qed.

Lemma read_bigsize_range d v n : read_bigsize d = Ok (v, n) → u64 v ∧ 1 ≤ n ≤ 9 ∧ n ≤ len d.
Proof.
  unfold read_bigsize, u64. destruct d as [|b rest]; [done|].
  pose proof (Z_of_byte_bound b) as Hb. pose proof (be_Z_take_bound 2 rest) as H2.
  pose proof (be_Z_take_bound 4 rest) as H4. pose proof (be_Z_take_bound 8 rest) as H8.
  change (256 ^ Z.of_nat 2) with (2 ^ 16) in H2. change (256 ^ Z.of_nat 4) with (2 ^ 32) in H4.
  change (256 ^ Z.of_nat 8) with (2 ^ 64) in H8.
  assert (1 ≤ len (b :: rest)) by (unfold len; cbn; lia). cbn zeta.
  repeat case_match; intros [= <- <-]; repeat zcase; try discriminate; split_and!; try lia.
Qed.

Lemma slice_returns data a b l : slice data a b = Returns l → a ≤ b ≤ len data ∧ (0 ≤ a → len l = b - a).
Proof.
  unfold slice. destruct (Z.leb_spec a b), (Z.leb_spec b (len data)); cbn; try done.
  intros [= <-]. split; [lia|]. intros Ha. unfold len in *. rewrite length_take, length_drop. lia.
Qed.

Lemma slice_fuel data a b : slice data a b ≠ OutOfFuel.
Proof. unfold slice. by case_match. Qed.

(** A record moves the position forward or panics, so a buffer of [n] octets has
    at most [n] records. *)
Lemma parse_tlv_loop_fuel fuel data consumed last fields :
  len data < 2 ^ 64 → 0 ≤ consumed ≤ len data → len data - consumed < Z.of_nat fuel →
  parse_tlv_loop fuel data consumed last fields ≠ OutOfFuel.
Proof.
  intros Hd. revert consumed last fields.
  induction fuel as [|fuel IH]; intros consumed last fields Hc Hf; [lia|]. cbn [parse_tlv_loop].
  destruct (Z.ltb_spec consumed (len data)); [|done]. cbn [negb].
  destruct (slice data consumed (len data)) as [d1| |] eqn:Hs1; cbn; [|done|by apply slice_fuel in Hs1].
  destruct (read_bigsize d1) as [[t n1]|] eqn:Hr1; [|done].
  apply read_bigsize_range in Hr1 as (_ & Hn1 & Hl1). apply slice_returns in Hs1 as [_ Hs1].
  rewrite Hs1 in Hl1 by lia.
  destruct (match last with Some l => t <=? l | None => false end); [done|]. rewrite (wrap64_small (consumed + n1)) by (unfold u64; lia).
  destruct (slice data (consumed + n1) (len data)) as [d2| |] eqn:Hs2; cbn; [|done|by apply slice_fuel in Hs2].
  destruct (read_bigsize d2) as [[l n2]|] eqn:Hr2; [|done].
  apply read_bigsize_range in Hr2 as (Hl & Hn2 & Hl2). apply slice_returns in Hs2 as [_ Hs2].
  rewrite Hs2 in Hl2 by lia. rewrite (wrap64_small (consumed + n1 + n2)) by (unfold u64; lia).
  destruct (Z.ltb_spec (len data) (wrap64 (consumed + n1 + n2 + l))); [done|].
  destruct (slice data (consumed + n1 + n2) _) as [v| |] eqn:Hs3; cbn; [|done|by apply slice_fuel in Hs3].
  apply slice_returns in Hs3 as [Hs3 _]. destruct (parse_field fields t v); [|done].
  apply IH; lia.
Qed.

Definition fields_typed (f : PayloadFields) : Prop :=
  match pf_short_channel_id f with Some z => u64 z | None => True end ∧
  match pf_amt_to_forward f with Some z => u64 z | None => True end ∧
  match pf_outgoing_cltv_value f with Some z => u32 z | None => True end.

Lemma be_tu_range value n z : be_tu value n = Ok z → u64 z.
Proof.
  unfold be_tu. repeat case_match; try done. intros [= <-]. pose proof (be_Z_bound value) as Hb.
  repeat match goal with HX : (_ || _) = false |- _ => apply orb_false_iff in HX as [? ?] end.
  split; [lia|]. eapply Z.lt_le_trans; [apply Hb|]. change (2 ^ 64) with (256 ^ 8).
  apply Z.pow_le_mono_r; lia.
Qed.

Lemma parse_field_typed f t v f' : parse_field f t v = Ok f' → fields_typed f → fields_typed f'.
Proof.
  unfold parse_field. intros Hp (Hs & Ha & Hc).
  destruct (t =? 2).
  { apply result_bind_ok in Hp as (z & Hz & [= <-]). split_and!; [done| |done]. by eapply be_tu_range. }
  destruct (t =? 4).
  { apply result_bind_ok in Hp as (z & Hz & [= <-]). split_and!; [done|done|]. apply wrap32_u32. }
  destruct (t =? 6).
  { destruct (Z.eqb_spec (len v) 8) as [Hl|]; [|done]. injection Hp as <-. split_and!; [|done|done].
    pose proof (be_Z_bound v) as Hb. rewrite Hl in Hb. exact Hb. }
  destruct (_ || _); [injection Hp as <-; split_and!; done|].
  destruct (_ || _); [done|]. destruct (_ =? 0); [done|]. injection Hp as <-. split_and!; done.
Qed.

Lemma parse_tlv_loop_typed fuel data consumed last fields f :
  parse_tlv_loop fuel data consumed last fields = Returns (Ok f) → fields_typed fields → fields_typed f.
Proof.
  revert consumed last fields. induction fuel as [|fuel IH]; intros consumed last fields; [done|].
  cbn [parse_tlv_loop]. destruct (consumed <? len data); cbn [negb]; [|by intros [= <-]].
  destruct (slice data consumed (len data)) as [d1| |]; cbn; [|done..].
  destruct (read_bigsize d1) as [[t n1]|]; [|done].
  destruct (match last with Some l => t <=? l | None => false end); [done|].
  destruct (slice data _ (len data)) as [d2| |]; cbn; [|done..].
  destruct (read_bigsize d2) as [[l n2]|]; [|done].
  destruct (len data <? _); [done|]. destruct (slice data _ _) as [v| |]; cbn; [|done..].
  destruct (parse_field fields t v) eqn:Hp; [|done]. intros Hl Hf.
  eapply IH; [exact Hl|]. by eapply parse_field_typed.
Qed.

Lemma parse_tlv_payload_total data is_final : len data < 2 ^ 64 →
  parse_tlv_payload data is_final = Panics ∨
  ∃ r, parse_tlv_payload data is_final = Returns r ∧ ∀ f, r = Ok f → fields_typed f.
Proof.
  intros Hd. unfold parse_tlv_payload.
  destruct (parse_tlv_loop _ data 0 None _) as [r| |] eqn:Hl; cbn; [|by left|].
  - right. eexists. split; [done|]. intros f (f' & -> & Hc)%result_bind_ok.
    apply parse_tlv_loop_typed in Hl; [|done]. unfold check_fields in Hc.
    destruct (pf_amt_to_forward f'); [|done]. destruct (pf_outgoing_cltv_value f'); [|done].
    destruct (pf_short_channel_id f'); [|destruct is_final; [|done]]; by injection Hc as <-.
  - apply parse_tlv_loop_fuel in Hl; [done|done| |]; unfold len in *; lia.
Qed.

(** ** When peeling panics

    A payload is [overlong] when, after records in increasing order whose values are
    all there and accepted, it has one whose declared length takes the position to
    [2^64] or beyond: the addition of the code wraps. *)

Definition follows (last : option Z) (t : Z) : Prop := match last with Some l => l < t | None => True end.

Inductive overlong : Z → option Z → PayloadFields → list byte → Prop :=
| overlong_now pos last fields t l rest :
    u64 t → u64 l → follows last t → 2 ^ 64 ≤ pos + bigsize_len t + bigsize_len l + l →
    overlong pos last fields (write_bigsize t ++ write_bigsize l ++ rest)
| overlong_after pos last fields t v fields' rest :
    u64 t → follows last t → parse_field fields t v = Ok fields' →
    overlong (pos + len (tlv t v)) (Some t) fields' rest →
    overlong pos last fields (tlv t v ++ rest).

Definition overlong_payload (payload : list byte) : Prop :=
  overlong 0 None (mkPayloadFields None None None) payload.

(** What is read is the canonical form of the number. *)
Lemma read_bigsize_inv d v n : read_bigsize d = Ok (v, n) →
  u64 v ∧ n = bigsize_len v ∧ ∃ rest, d = write_bigsize v ++ rest.
Proof.
  intros Hr. pose proof (read_bigsize_range _ _ _ Hr) as (Hv & _ & _). split; [done|].
  unfold read_bigsize in Hr. destruct d as [|b rest]; [done|]. cbv zeta in Hr.
  pose proof (be_Z_take_bound 2 rest) as H2. pose proof (be_Z_take_bound 4 rest) as H4.
  change (256 ^ Z.of_nat 2) with (2 ^ 16) in H2. change (256 ^ Z.of_nat 4) with (2 ^ 32) in H4.
  pose proof (Z_of_byte_bound b) as Hb.
  assert (be_bytes 1 (Z_of_byte b) = [b]) as Hone by (rewrite be_bytes_1; by rewrite byte_of_Z_of_byte).
  assert (∀ k : nat, Z.of_nat k < len (b :: rest) → be_bytes k (be_Z (take k rest)) = take k rest) as Htake.
  { intros k Hk. apply be_bytes_be_Z'. rewrite length_take. unfold len in Hk. cbn in Hk. lia. }
  unfold write_bigsize, bigsize_len, U16_MAX, U32_MAX in *.
  destruct (Z.eqb_spec (Z_of_byte b) 0xFD) as [Hx|]; [|destruct (Z.eqb_spec (Z_of_byte b) 0xFE) as [Hx|];
    [|destruct (Z.eqb_spec (Z_of_byte b) 0xFF) as [Hx|]]].
  - zcase_in Hr; [done|]. zcase_in Hr; [done|]. injection Hr as <- <-. rewrite ltb_false, leb_true by lia.
    split; [done|]. exists (drop 2 rest). rewrite Htake by lia. rewrite <- Hx, Hone. cbn. by rewrite take_drop.
  - zcase_in Hr; [done|]. zcase_in Hr; [done|]. injection Hr as <- <-. rewrite ltb_false, leb_false, leb_true by lia.
    split; [done|]. exists (drop 4 rest). rewrite Htake by lia. rewrite <- Hx, Hone. cbn. by rewrite take_drop.
  - zcase_in Hr; [done|]. zcase_in Hr; [done|]. injection Hr as <- <-. rewrite ltb_false, !leb_false by lia.
    split; [done|]. exists (drop 8 rest). rewrite Htake by lia. rewrite <- Hx, Hone. cbn. by rewrite take_drop.
  - injection Hr as <- <-. rewrite ltb_true by lia. split; [done|]. exists rest. by rewrite Hone.
Qed.

(** The head of a record: its type and its declared length. *)
Lemma parse_tlv_head fuel pre t l rest last fields :
  u64 t → u64 l → follows last t → len (pre ++ write_bigsize t ++ write_bigsize l ++ rest) < 2 ^ 64 →
  let data := pre ++ write_bigsize t ++ write_bigsize l ++ rest in
  let position := len pre + bigsize_len t + bigsize_len l in
  parse_tlv_loop (S fuel) data (len pre) last fields =
  (if len data <? wrap64 (position + l) then Returns (Err (InvalidPayload "TLV value out of bounds")) else
   value ← slice data position (wrap64 (position + l));
   match parse_field fields t value with
   | Err e => Returns (Err e)
   | Ok fields => parse_tlv_loop fuel data (wrap64 (position + l)) (Some t) fields
   end).
Proof.
  intros Ht Hl Hlast Hlen data position.
  assert (len data = position + len rest) as Hd.
  { unfold data, position. rewrite !len_app, !write_bigsize_len. lia. }
  pose proof (len_nonneg pre). pose proof (len_nonneg rest).
  pose proof (bigsize_len_pos t). pose proof (bigsize_len_pos l). fold data in Hlen. unfold position in Hd.
  cbn [parse_tlv_loop]. rewrite ltb_true by lia. cbn [negb].
  assert (slice data (len pre) (len data) = Returns (write_bigsize t ++ write_bigsize l ++ rest)) as ->
    by apply slice_tail.
  cbn. rewrite read_bigsize_write by done.
  replace (match last with Some l => t <=? l | None => false end) with false
    by (destruct last; [by rewrite leb_false|done]).
  rewrite (wrap64_small (len pre + bigsize_len t)) by (unfold u64; lia).
  assert (slice data (len pre + bigsize_len t) (len data) = Returns (write_bigsize l ++ rest)) as ->.
  { unfold data. rewrite <-(write_bigsize_len t), <-len_app, (app_assoc pre). apply slice_tail. }
  cbn. rewrite read_bigsize_write by done. by rewrite (wrap64_small (len pre + _ + _)) by (unfold u64; lia).
Qed.

Lemma overlong_panics pos last fields d : overlong pos last fields d →
  ∀ fuel pre, pos = len pre → len (pre ++ d) < 2 ^ 64 → (length d < fuel)%nat →
  parse_tlv_loop fuel (pre ++ d) (len pre) last fields = Panics.
Proof.
  induction 1 as [pos last fields t l rest Ht Hl Hlast Hbig|pos last fields t v fields' rest Ht Hlast Hf _ IH];
    intros fuel pre -> Hlen Hfuel; (destruct fuel as [|fuel]; [lia|]).
  - rewrite parse_tlv_head by done. rewrite !len_app, !write_bigsize_len in Hlen |- *.
    pose proof (len_nonneg rest). unfold u64 in Hl. set (position := len pre + _ + _) in *.
    assert (wrap64 (position + l) = position + l - 2 ^ 64) as ->.
    { unfold wrap64. rewrite <- (Z_mod_plus_full _ (-1)). rewrite Z.mod_small by (unfold position; lia). lia. }
    rewrite ltb_false by (unfold position; lia). unfold slice. by rewrite leb_false by lia.
  - rewrite (parse_tlv_step _ _ _ _ _ _ _ fields') by done. rewrite app_assoc in Hlen |- *.
    apply IH; [by rewrite len_app|done|]. unfold tlv in Hfuel. rewrite !length_app in Hfuel.
    pose proof (write_bigsize_len t) as Hw. pose proof (bigsize_len_pos t). unfold len in Hw. lia.
Qed.

Lemma panics_overlong fuel pre d last fields :
  len (pre ++ d) < 2 ^ 64 → parse_tlv_loop fuel (pre ++ d) (len pre) last fields = Panics →
  overlong (len pre) last fields d.
Proof.
  revert pre d last fields. induction fuel as [|fuel IH]; intros pre d last fields Hlen Hp; [done|].
  pose proof Hp as Hp'. cbn [parse_tlv_loop] in Hp'.
  destruct (Z.ltb_spec (len pre) (len (pre ++ d))); [|done]. cbn [negb] in Hp'. rewrite slice_tail in Hp'. cbn in Hp'.
  destruct (read_bigsize d) as [[t n1]|] eqn:Ht; [|done]. apply read_bigsize_inv in Ht as (Ht & -> & d1 & ->).
  destruct (match last with Some l => t <=? l | None => false end) eqn:Hlast; [done|].
  assert (follows last t) as Hfol by (destruct last; [by apply Z.leb_gt in Hlast|done]).
  pose proof (len_nonneg pre). pose proof (len_nonneg d1). pose proof (bigsize_len_pos t).
  rewrite wrap64_small in Hp' by (rewrite !len_app, write_bigsize_len in Hlen; unfold u64; lia).
  rewrite <-(write_bigsize_len t), <-len_app, (app_assoc pre), slice_tail in Hp'. cbn in Hp'.
  destruct (read_bigsize d1) as [[l n2]|] eqn:Hl; [|done]. apply read_bigsize_inv in Hl as (Hl & -> & rest & ->).
  clear Hp' Hlast. rewrite parse_tlv_head in Hp by done.
  rewrite !len_app, !write_bigsize_len in Hlen, Hp. pose proof (bigsize_len_pos l). pose proof (len_nonneg rest).
  destruct (Z.le_gt_cases (2 ^ 64) (len pre + bigsize_len t + bigsize_len l + l)) as [Hbig|Hsmall].
  { by apply overlong_now. }
  unfold u64 in Hl. rewrite wrap64_small in Hp by (unfold u64; lia). zcase_in Hp; [done|].
  assert (l ≤ len rest) as Hfit by lia. set (v := take (Z.to_nat l) rest). set (rest' := drop (Z.to_nat l) rest).
  assert (len v = l) as Hv by (unfold v, len in *; rewrite length_take; lia).
  assert (rest = v ++ rest') as Hrest by (unfold v, rest'; by rewrite take_drop).
  rewrite Hrest in Hp |- *. clearbody v rest'.
  assert (pre ++ write_bigsize t ++ write_bigsize l ++ v ++ rest' = (pre ++ tlv t v) ++ rest') as Hdata
    by (unfold tlv; by rewrite Hv, <-!app_assoc).
  rewrite Hdata in Hp.
  assert (slice ((pre ++ tlv t v) ++ rest') (len pre + bigsize_len t + bigsize_len l)
            (len pre + bigsize_len t + bigsize_len l + l) = Returns v) as Hs.
  { pose proof (slice_app (pre ++ write_bigsize t ++ write_bigsize l) v rest') as Hs.
    rewrite !len_app, !write_bigsize_len, Hv, !Z.add_assoc in Hs. rewrite <-Hs. f_equal. unfold tlv.
    by rewrite Hv, <-!app_assoc. }
  rewrite Hs in Hp. cbn in Hp. destruct (parse_field fields t v) as [fields'|] eqn:Hf; [|done].
  assert (write_bigsize t ++ write_bigsize l ++ v ++ rest' = tlv t v ++ rest') as ->
    by (unfold tlv; by rewrite Hv, <-!app_assoc).
  assert (len pre + bigsize_len t + bigsize_len l + l = len (pre ++ tlv t v)) as Hpos
    by (unfold tlv; rewrite !len_app, !write_bigsize_len, Hv; lia).
  rewrite Hpos in Hp. eapply overlong_after; [done|done|exact Hf|]. rewrite <-len_app. apply (IH _ _ _ _); [|exact Hp].
  rewrite <-Hdata, !len_app, !write_bigsize_len, <-(len_app v), <-Hrest. lia.
Qed.

Lemma parse_tlv_payload_panics data is_final : len data < 2 ^ 64 →
  parse_tlv_payload data is_final = Panics ↔ overlong_payload data.
Proof.
  intros Hd. unfold parse_tlv_payload, overlong_payload. split.
  - intros Hp. apply (panics_overlong (S (length data)) [] data); [done|].
    destruct (parse_tlv_loop (S (length data)) data 0 None _) as [r| |] eqn:Hl; [discriminate Hp|exact Hl|discriminate Hp].
  - intros Ho. pose proof (overlong_panics _ _ _ _ Ho (S (length data)) [] eq_refl Hd (Nat.lt_succ_diag_r _)) as Hp.
    cbn [app] in Hp. change (len []) with 0 in Hp. by rewrite Hp.
Qed.

Definition peeled_typed (p : PeeledOnion) : Prop :=
  u64 (po_short_channel_id p) ∧ u64 (po_amt_to_forward p) ∧ u32 (po_outgoing_cltv_value p).

(** It does not panic, and what it returns is within its types. *)
Definition returns_typed (o : outcome (result SphinxError PeeledOnion)) : Prop :=
  ∃ r, o = Returns r ∧ ∀ p, r = Ok p → peeled_typed p.

(** A payload framed as the routing info has it: its length, an HMAC, and enough for
    the next hop. *)
Definition framed (unwrapped payload : list byte) : Prop :=
  ∃ mac tail, unwrapped = write_bigsize (len payload) ++ payload ++ mac ++ tail ∧
    2 ≤ len payload ∧ len mac = 32 ∧ ONION_ROUTING_INFO_SIZE ≤ len tail.

Lemma framed_outcome {HC : Crypto} {HO : OnionCrypto} version eph ss unwrapped payload :
  framed unwrapped payload → len unwrapped < 2 ^ 64 →
  (peel_unwrapped version eph ss unwrapped = Panics ∧ overlong_payload payload) ∨
  (¬ overlong_payload payload ∧ returns_typed (peel_unwrapped version eph ss unwrapped)).
Proof.
  intros (mac & tail & -> & Hp & Hm & Ht) Hlen. rewrite peel_unwrapped_payload by done.
  assert (len payload < 2 ^ 64) as Hpl.
  { rewrite !len_app in Hlen. pose proof (len_nonneg (write_bigsize (len payload))). unfold ONION_ROUTING_INFO_SIZE in Ht. lia. }
  set (final := forallb _ mac). pose proof (parse_tlv_payload_panics payload final Hpl) as Hiff.
  destruct (parse_tlv_payload_total payload final Hpl) as [Hpan|(r & Hr & Hty)].
  - left. rewrite Hpan in *. split; [done|]. by apply Hiff.
  - right. rewrite Hr in *. split; [intros Ho; apply Hiff in Ho; discriminate|]. cbn. eexists. split; [done|].
    unfold hop_result. intros p (f & -> & (no & _ & [= <-])%result_bind_ok)%result_bind_ok.
    destruct (Hty f eq_refl) as (H1 & H2 & H3). unfold peeled_typed; cbn.
    destruct (pf_short_channel_id f), (pf_amt_to_forward f), (pf_outgoing_cltv_value f); cbn; done.
Qed.

(** An onion that is not framed is refused. *)
Lemma peel_unwrapped_frame {HC : Crypto} {HO : OnionCrypto} version eph ss unwrapped :
  len unwrapped < 2 ^ 64 →
  (∃ payload, framed unwrapped payload) ∨ ∃ e, peel_unwrapped version eph ss unwrapped = Returns (Err e).
Proof.
  intros Hlen. unfold peel_unwrapped. destruct (read_bigsize unwrapped) as [[n k]|e] eqn:Hr; [|right; by eexists].
  apply read_bigsize_inv in Hr as (Hn & -> & rest & ->). pose proof (bigsize_len_pos n).
  destruct (Z.ltb_spec n 2); [right; by eexists|].
  destruct (checked_add_u64 (bigsize_len n) n) as [pe|] eqn:Hpe; [|right; by eexists].
  apply checked_add_u64_some in Hpe as [-> _].
  destruct (checked_add_u64 (bigsize_len n + n) 32) as [ne|] eqn:Hne; [|right; by eexists].
  apply checked_add_u64_some in Hne as [-> _]. set (data := write_bigsize n ++ rest) in *.
  destruct (Z.ltb_spec (len data) (bigsize_len n + n + 32)) as [|Hfit]; [right; by eexists|].
  assert (len data = bigsize_len n + len rest) as Hd by (unfold data; by rewrite len_app, write_bigsize_len).
  set (payload := take (Z.to_nat n) rest). set (mac := take 32 (drop (Z.to_nat n) rest)).
  set (tail := drop 32 (drop (Z.to_nat n) rest)).
  assert (len payload = n) as Hp by (unfold payload, len in *; rewrite length_take; lia).
  assert (len mac = 32) as Hm by (unfold mac, len in *; rewrite length_take, length_drop; lia).
  assert (rest = payload ++ mac ++ tail) as Hrest by (unfold payload, mac, tail; by rewrite !take_drop).
  clearbody payload mac tail. subst n. unfold data in *. clear data. rewrite Hrest in *. clear Hrest.
  destruct (Z.le_gt_cases ONION_ROUTING_INFO_SIZE (len tail)) as [Hlong|Hshort]; [left; by exists payload, mac, tail|].
  right. destruct (frame_slices payload mac tail Hm) as (-> & -> & ->). cbn. rewrite ltb_true by done. by eexists.
Qed.

(** The payload of an onion that is meant for the node and authentic: of the right
    size and version, with a valid ephemeral key, and with the HMAC of its hop data
    and the associated data. *)
Definition hop_payload {HC : Crypto} {HO : OnionCrypto} (sk : SecretKey) (onion ad payload : list byte) : Prop :=
  ∃ rest eph ss,
    onion = byte_of_Z 0 :: rest ∧ len onion = ONION_PACKET_SIZE ∧
    pk_from_slice (take 33 rest) = Some eph ∧ ecdh sk eph = Ok ss ∧
    let hop_data := take 1300 (drop 33 rest) in
    hmac (hmac KEY_MU ss) (hop_data ++ ad) = take 32 (drop 1333 rest) ∧
    framed (xor_in_place (hop_data ++ zeros 1300) (chacha20 (hmac KEY_RHO ss) 2600)) payload.

Lemma peel_onion_panics {HC : Crypto} {HO : OnionCrypto} sk onion ad :
  (peel_onion sk onion ad = Panics ∧ ∃ payload, hop_payload sk onion ad payload ∧ overlong_payload payload) ∨
  (returns_typed (peel_onion sk onion ad) ∧ ¬ ∃ payload, hop_payload sk onion ad payload ∧ overlong_payload payload).
Proof.
  assert (∀ e : SphinxError, returns_typed (Returns (Err e))) as Herr by (intros e; by eexists).
  unfold peel_onion. destruct (Z.eqb_spec (len onion) ONION_PACKET_SIZE) as [Hsize|Hsize]; cbn [negb].
  2: { right. split; [done|]. by intros (p & (rest & eph & ss & _ & ? & _) & _). }
  destruct onion as [|version rest]; [done|].
  destruct (Z.eqb_spec (Z_of_byte version) 0) as [Hv|Hv]; cbn [negb].
  2: { right. split; [done|]. intros (p & (rest' & eph & ss & [= -> ->] & _) & _). by rewrite byte_of_Z_small in Hv by lia. }
  assert (version = byte_of_Z 0) as -> by (by rewrite <-Hv, byte_of_Z_of_byte).
  destruct (pk_from_slice (take 33 rest)) as [eph|] eqn:Heph.
  2: { right. split; [done|]. intros (p & (rest' & eph & ss & [= ->] & _ & ? & _) & _). congruence. }
  destruct (ecdh sk eph) as [ss|e] eqn:Hss.
  2: { right. split; [done|]. intros (p & (rest' & eph' & ss & [= ->] & _ & ? & ? & _) & _). congruence. }
  unfold derive_keys. rewrite constant_time_eq_spec.
  set (hop := take 1300 (drop 33 rest)). set (unwrapped := xor_in_place _ _).
  assert (len unwrapped < 2 ^ 64) as Hlen.
  { unfold unwrapped, hop, len. rewrite xor_in_place_length, length_app, length_take, length_zeros. lia. }
  assert (∀ p, hop_payload sk (byte_of_Z 0 :: rest) ad p →
            hmac (hmac KEY_MU ss) (hop ++ ad) = take 32 (drop 1333 rest) ∧ framed unwrapped p) as Hinv.
  { intros p (rest' & eph' & ss' & [= <-] & _ & Heph' & Hss' & Hh & Hf).
    rewrite Heph in Heph'. injection Heph' as <-. rewrite Hss in Hss'. injection Hss' as <-. by split. }
  case_bool_decide as Hmac; cbn [negb].
  2: { right. split; [done|]. intros (p & Hp & _). by destruct (Hinv p Hp). }
  assert (∀ p, framed unwrapped p → overlong_payload p → peel_unwrapped (byte_of_Z 0) eph ss unwrapped = Panics) as Hpan.
  { intros p Hf Ho. by destruct (framed_outcome (byte_of_Z 0) eph ss unwrapped p Hf Hlen) as [[? _]|[? _]]. }
  assert (returns_typed (peel_unwrapped (byte_of_Z 0) eph ss unwrapped) →
    ¬ ∃ payload, hop_payload sk (byte_of_Z 0 :: rest) ad payload ∧ overlong_payload payload) as Hno.
  { intros (r & Hr & _) (p & Hp & Ho). destruct (Hinv p Hp) as [_ Hf]. rewrite (Hpan p Hf Ho) in Hr. discriminate. }
  destruct (peel_unwrapped_frame (byte_of_Z 0) eph ss unwrapped Hlen) as [[p Hp]|[e He]].
  - destruct (framed_outcome (byte_of_Z 0) eph ss unwrapped p Hp Hlen) as [[Hpn Ho]|[Ho Hret]]; [left|right; by auto].
    split; [done|]. exists p. split; [|done]. by exists rest, eph, ss.
  - right. assert (returns_typed (peel_unwrapped (byte_of_Z 0) eph ss unwrapped)) by (rewrite He; apply Herr). auto.
Qed.

Lemma peel_onion_outcome {HC : Crypto} {HO : OnionCrypto} sk onion ad :
  peel_onion sk onion ad = Panics ∨
  ∃ r, peel_onion sk onion ad = Returns r ∧ ∀ p, r = Ok p → peeled_typed p.
Proof. destruct (peel_onion_panics sk onion ad) as [[? _]|[? _]]; [by left|by right]. Qed.

(** ** Guarantees *)

(** C31. Peeling ends on every input, and panics on exactly one kind: an authentic
    onion for the node (right size, version, key and HMAC) whose framed payload is
    [overlong], that is, has after some acceptable records one whose declared length
    takes the position to [2^64] or beyond.  On every other input it returns: an
    error, or a payload whose amount, expiry and channel id are within their machine
    types. *)
Theorem peel_onion_total {HC : Crypto} {HO : OnionCrypto} sk onion ad :
  (peel_onion sk onion ad = Panics ↔ ∃ payload, hop_payload sk onion ad payload ∧ overlong_payload payload) ∧
  (peel_onion sk onion ad ≠ Panics → ∃ r, peel_onion sk onion ad = Returns r ∧
     ∀ p, r = Ok p → u64 (po_short_channel_id p) ∧ u64 (po_amt_to_forward p) ∧ u32 (po_outgoing_cltv_value p)).
Proof.
  destruct (peel_onion_panics sk onion ad) as [[Hp Ho]|[Hr Ho]]; [by rewrite Hp|]. split; [|done].
  split; [|done]. destruct Hr as (r & Hr & _). by rewrite Hr.
Qed.

(** C30. The onion a direct payment carries is peeled by its recipient to exactly
    what was put in: amount, expiry, no next hop, and the secret both ends share. *)
Theorem single_hop_roundtrip {HC : Crypto} {HO : OnionCrypto} {HCL : CryptoLaws}
    {HOL : OnionCryptoLaws} node_sk eph_sk amount cltv secret hash onion :
  u64 amount → u32 cltv → match secret with Some s => length s = 32%nat | None => True end →
  create_single_hop_onion eph_sk (pk_from_secret_key node_sk) amount cltv secret hash = Ok onion →
  ∃ ss, ecdh eph_sk (pk_from_secret_key node_sk) = Ok ss ∧
    peel_onion node_sk onion hash = Returns (Ok (mkPeeledOnion 0 amount cltv [] ss)).
Proof.
  intros Ha Hc Hs Ho. unfold create_single_hop_onion, create_onion in Ho. cbn [Z.eqb negb] in Ho.
  apply peel_create in Ho as (ss & Hss & ->).
  - exists ss. split; [done|]. by rewrite build_payload_parses.
  - rewrite build_payload_tlv by done. rewrite !len_app, !tlv_len.
    pose proof (bigsize_len_pos 2). pose proof (bigsize_len_pos 4).
    pose proof (bigsize_len_pos (len (tu_bytes amount))). pose proof (bigsize_len_pos (len (tu_bytes cltv))).
    repeat match goal with |- context [len ?l] =>
      lazymatch goal with HN : 0 ≤ len l |- _ => fail | _ => pose proof (len_nonneg l) end end. lia.
Qed.

(** Every payload [build_payload] produces is parsed back field by field,
    without a panic, for all amounts, expiries, channel ids and payment secrets. *)
Theorem payload_roundtrip amount cltv scid secret is_final :
  u64 amount → u32 cltv → match scid with Some s => u64 s | None => is_final = true end →
  match secret with Some s => length s = 32%nat | None => True end →
  parse_tlv_payload (build_payload amount cltv scid secret) is_final =
    Returns (Ok (mkPayloadFields scid (Some amount) (Some cltv))).
Proof. apply build_payload_parses. Qed.

(** A remote sender can crash the process: an onion for this node whose
    payload declares a TLV length near [2^64] passes the HMAC, makes the unchecked
    [consumed + len] wrap below the bound check, and [peel_onion] panics slicing
    out of order. *)
Theorem peel_onion_overflow_panics {HC : Crypto} {HO : OnionCrypto} {HCL : CryptoLaws}
    {HOL : OnionCryptoLaws} node_sk eph_sk ad onion :
  create_payment_onion eph_sk [(pk_from_secret_key node_sk, overflowing_payload)] ad = Ok onion →
  peel_onion node_sk onion ad = Panics.
Proof.
  intros Ho. apply peel_create in Ho as (ss & _ & ->); [|by vm_compute].
  by rewrite overflowing_payload_panics.
Qed.

(** [wrap_failure] loses data: the padded message has room for 254 octets of
    failure, so two failures of one length that agree on those octets give the
    same onion. *)
Theorem wrap_failure_truncates {HC : Crypto} {HO : OnionCrypto} ss f1 f2 :
  len f1 = len f2 → take 254 f1 = take 254 f2 → 254 ≤ len f1 →
  wrap_failure ss f1 = wrap_failure ss f2 ∧ length (wrap_failure ss f1) = 256%nat.
Proof.
  intros Hl Ht Hlen. unfold wrap_failure, derive_keys. rewrite Hl.
  set (n := wrap16 (len f2)).
  assert (∀ f, 254 ≤ len f → resize (be_bytes 2 n ++ f) 256 = be_bytes 2 n ++ take 254 f) as Hr.
  { intros f Hf. unfold resize. rewrite take_app, be_bytes_length, take_ge
      by (rewrite be_bytes_length; lia). change (256 - 2)%nat with 254%nat.
    rewrite length_app, be_bytes_length. replace (256 - (2 + length f))%nat with 0%nat
      by (unfold len in Hf; lia). by rewrite app_nil_r. }
  rewrite !Hr, Ht by lia. split; [done|]. rewrite xor_in_place_length, length_app, be_bytes_length.
  rewrite length_take_le; [done|]. unfold len in *. lia.
Qed.

(** A failure that fits is recoverable: removing the keystream gives back the
    length, the message and the zero padding. *)
Theorem wrap_failure_roundtrip {HC : Crypto} {HO : OnionCrypto} {HOL : OnionCryptoLaws} ss f :
  len f ≤ 254 →
  xor_in_place (wrap_failure ss f) (chacha20 (hmac KEY_UM ss) 256) =
    be_bytes 2 (len f) ++ f ++ zeros (254 - length f).
Proof.
  intros Hf. unfold wrap_failure, derive_keys. pose proof (len_nonneg f).
  rewrite wrap16_small by (unfold u16; lia).
  assert (resize (be_bytes 2 (len f) ++ f) 256 = be_bytes 2 (len f) ++ f ++ zeros (254 - length f)) as ->.
  { unfold resize. rewrite take_ge by (rewrite length_app, be_bytes_length; unfold len in *; lia).
    rewrite length_app, be_bytes_length, <-app_assoc. do 3 f_equal. }
  apply xor_in_place_cancel. rewrite chacha20_length, !length_app, be_bytes_length, length_zeros.
  unfold len in *. lia.
Qed.

(** ** An executable instance *)
Module ToyOnion.
Import Toy.

Definition point_mul (p : byte) (s : list byte) : option byte :=
  Some (byte_of_Z (Z_of_byte p * be_Z s)).

#[export] Instance onion_crypto : @OnionCrypto Toy.crypto := {|
  hmac k d := Toy.digest (k ++ d);
  chacha20 k n := replicate n (default (byte_of_Z 0) (last k));
  pk_mul_tweak := point_mul : @PublicKey Toy.crypto → list byte → option (@PublicKey Toy.crypto);
  sk_mul_tweak := point_mul : @SecretKey Toy.crypto → list byte → option (@SecretKey Toy.crypto);
  secret_bytes k := be_bytes 32 (Z_of_byte k) |}.

#[export] Instance onion_laws : OnionCryptoLaws.
Proof.
  split.
  - intros k d. apply be_bytes_length.
  - intros k n. apply length_replicate.
  - intros k n m Hn. cbn. by rewrite take_replicate, Nat.min_l by lia.
  - intros a b. cbn. unfold point_mul, id. pose proof (Z_of_byte_bound a). pose proof (Z_of_byte_bound b).
    rewrite !be_Z_be_bytes_id by lia. by rewrite Z.mul_comm.
Qed.

Lemma create_example :
  ∃ onion, create_single_hop_onion Byte.x07 (pk_from_secret_key Byte.x05) 1500 700
             (Some (be_bytes 32 9)) (be_bytes 32 3) = Ok onion.
Proof. eexists. vm_compute. reflexivity. Qed.

Lemma single_hop_roundtrip_witness :
  ∃ onion ss, create_single_hop_onion Byte.x07 (pk_from_secret_key Byte.x05) 1500 700
                (Some (be_bytes 32 9)) (be_bytes 32 3) = Ok onion ∧
    peel_onion (HO := onion_crypto) Byte.x05 onion (be_bytes 32 3) =
      Returns (Ok (mkPeeledOnion 0 1500 700 [] ss)).
Proof.
  destruct create_example as [onion Ho]. exists onion.
  destruct (single_hop_roundtrip (HO := onion_crypto) Byte.x05 Byte.x07 1500 700
              (Some (be_bytes 32 9)) (be_bytes 32 3) onion) as (ss & _ & Hp).
  - by apply (bool_decide_unpack _).
  - by apply (bool_decide_unpack _).
  - by vm_compute.
  - exact Ho.
  - exists ss. split; [exact Ho|exact Hp].
Defined.

Lemma payload_roundtrip_witness :
  parse_tlv_payload (build_payload 1500 700 (Some 42) None) false =
    Returns (Ok (mkPayloadFields (Some 42) (Some 1500) (Some 700))).
Proof. apply payload_roundtrip; by apply (bool_decide_unpack _). Defined.

Lemma create_overflowing :
  ∃ onion, create_payment_onion Byte.x07 [(pk_from_secret_key Byte.x05, overflowing_payload)] [] = Ok onion.
Proof. eexists. vm_compute. reflexivity. Qed.

Lemma peel_onion_overflow_panics_witness :
  ∃ onion, peel_onion (HO := onion_crypto) Byte.x05 onion [] = Panics.
Proof.
  destruct create_overflowing as [onion Ho]. exists onion.
  apply (peel_onion_overflow_panics (HO := onion_crypto) Byte.x05 Byte.x07). exact Ho.
Defined.

(** The overflowing payload is overlong, and the onion that carries it panics; the one
    of [create_example] does not. *)
Lemma overflowing_overlong : overlong_payload overflowing_payload.
Proof.
  change overflowing_payload with (write_bigsize 1 ++ write_bigsize (2 ^ 64 - 1) ++ []).
  apply overlong_now; [by split|by split|done|by vm_compute].
Qed.

Lemma peel_onion_total_witness :
  (∃ onion payload, hop_payload (HO := onion_crypto) Byte.x05 onion [] payload ∧ overlong_payload payload) ∧
  (∃ onion, ¬ ∃ payload, hop_payload (HO := onion_crypto) Byte.x05 onion (be_bytes 32 3) payload ∧ overlong_payload payload).
Proof.
  split.
  - destruct create_overflowing as [onion Ho]. exists onion.
    apply (proj1 (peel_onion_total (HO := onion_crypto) Byte.x05 onion [])).
    apply (peel_onion_overflow_panics (HO := onion_crypto) Byte.x05 Byte.x07 [] onion). exact Ho.
  - destruct create_example as [onion Ho]. exists onion. intros Hp.
    apply (proj1 (peel_onion_total (HO := onion_crypto) Byte.x05 onion (be_bytes 32 3))) in Hp.
    vm_compute in Ho. injection Ho as <-. vm_compute in Hp. discriminate Hp.
Defined.

Lemma wrap_failure_truncates_witness :
  wrap_failure (be_bytes 32 1) (be_bytes 300 0) = wrap_failure (be_bytes 32 1) (be_bytes 300 77).
Proof. apply wrap_failure_truncates; by vm_compute. Defined.

Lemma wrap_failure_roundtrip_witness :
  xor_in_place (wrap_failure (be_bytes 32 1) (be_bytes 2 0x1007)) (chacha20 (hmac KEY_UM (be_bytes 32 1)) 256) =
    be_bytes 2 2 ++ be_bytes 2 0x1007 ++ zeros 252.
Proof. apply (wrap_failure_roundtrip (be_bytes 32 1) (be_bytes 2 0x1007)). by vm_compute. Defined.

End ToyOnion.
