(* ===== verification/State.v ===== *)
(** * The state manager ([src/state.rs])

    Folding the uncommitted updates of a channel into its next state, and what
    that fold guarantees: conservation of funds, symmetry between the two peers,
    independence of how the two directions interleave. *)
From S2P Require Import Prelude Bytes Codecs Crypto Lcss.
From stdpp Require Import options.
#[local] Open Scope Z_scope.

(** ** Updates ([src/store.rs]) *)

Inductive PendingUpdate : Type :=
| PAdd (htlc : UpdateAddHtlc)
| PFulfill (channel_id : list byte) (id : Z) (preimage : list byte)
| PFail (channel_id : list byte) (id : Z) (reason : list byte)
| PFailMalformed (channel_id : list byte) (id : Z) (sha256_of_onion : list byte)
    (failure_code : Z).

Inductive UncommittedUpdate : Type :=
| ULocal (u : PendingUpdate)
| URemote (u : PendingUpdate).

#[global] Instance PendingUpdate_eq_dec : EqDecision PendingUpdate.
Proof. solve_decision. Defined.
#[global] Instance UncommittedUpdate_eq_dec : EqDecision UncommittedUpdate.
Proof. solve_decision. Defined.

Inductive StateError : Type :=
| NegativeBalance (a b : Z)
| TooManyHtlcs
| MaxInFlightExceeded (a b : Z)
| BelowMinimum (a b : Z)
| CounterMismatch (expected_local expected_remote got_local got_remote : Z)
| BlockDayMismatch (expected got : Z)
| BadSignature
| Errored
| HtlcNotFound (id : Z)
| WrongPreimage
| StateOverflow.

Definition StateError_to_string (e : StateError) : string :=
  match e with
  | NegativeBalance a b => "balance would go negative: " +:+ pretty a +:+ " - " +:+ pretty b
  | TooManyHtlcs => "max accepted HTLCs exceeded"
  | MaxInFlightExceeded a b =>
      "max HTLC value in flight exceeded: " +:+ pretty a +:+ " > " +:+ pretty b
  | BelowMinimum a b => "HTLC below minimum: " +:+ pretty a +:+ " < " +:+ pretty b
  | CounterMismatch el er gl gr =>
      "update counter mismatch: expected local=" +:+ pretty el +:+ " remote=" +:+ pretty er
      +:+ ", got local=" +:+ pretty gl +:+ " remote=" +:+ pretty gr
  | BlockDayMismatch e g => "block day mismatch: expected " +:+ pretty e +:+ ", got " +:+ pretty g
  | BadSignature => "signature verification failed"
  | Errored => "channel is errored, cannot accept updates"
  | HtlcNotFound id => "HTLC not found: id=" +:+ pretty id
  | WrongPreimage => "preimage does not match payment hash"
  | StateOverflow => "arithmetic overflow"
  end.

Record StateManager : Type := mkStateManager {
  sm_lcss : LastCrossSignedState;
  sm_uncommitted : list UncommittedUpdate;
}.

Definition StateManager_new (lcss : LastCrossSignedState) : StateManager :=
  mkStateManager lcss [].

Definition is_local_update (u : UncommittedUpdate) : bool :=
  match u with ULocal _ => true | URemote _ => false end.
Definition is_remote_update (u : UncommittedUpdate) : bool :=
  match u with URemote _ => true | ULocal _ => false end.

(** [iter().filter(..).count() as u32]. *)
Definition count_updates (p : UncommittedUpdate → bool) (us : list UncommittedUpdate) : Z :=
  wrap32 (len (filter (λ u, p u = true) us)).

Definition next_local_updates (sm : StateManager) : Z :=
  wrap32 (local_updates (sm_lcss sm) + count_updates is_local_update (sm_uncommitted sm)).
Definition next_remote_updates (sm : StateManager) : Z :=
  wrap32 (remote_updates (sm_lcss sm) + count_updates is_remote_update (sm_uncommitted sm)).

(** Assignments to the fields of [next]. *)
Definition set_balances (lb rb : Z) (s : LastCrossSignedState) : LastCrossSignedState :=
  mkLcss (is_host s) (last_refund_scriptpubkey s) (init_hosted_channel s) (block_day s)
    lb rb (local_updates s) (remote_updates s)
    (incoming_htlcs s) (outgoing_htlcs s) (remote_sig_of_local s) (local_sig_of_remote s).
Definition set_local_balance (b : Z) (s : LastCrossSignedState) : LastCrossSignedState :=
  set_balances b (remote_balance_msat s) s.
Definition set_remote_balance (b : Z) (s : LastCrossSignedState) : LastCrossSignedState :=
  set_balances (local_balance_msat s) b s.
Definition set_updates (lu ru : Z) (s : LastCrossSignedState) : LastCrossSignedState :=
  mkLcss (is_host s) (last_refund_scriptpubkey s) (init_hosted_channel s) (block_day s)
    (local_balance_msat s) (remote_balance_msat s) lu ru
    (incoming_htlcs s) (outgoing_htlcs s) (remote_sig_of_local s) (local_sig_of_remote s).
Definition set_htlcs (ins outs : list UpdateAddHtlc) (s : LastCrossSignedState)
    : LastCrossSignedState :=
  mkLcss (is_host s) (last_refund_scriptpubkey s) (init_hosted_channel s) (block_day s)
    (local_balance_msat s) (remote_balance_msat s) (local_updates s) (remote_updates s)
    ins outs (remote_sig_of_local s) (local_sig_of_remote s).
Definition set_incoming (hs : list UpdateAddHtlc) (s : LastCrossSignedState)
    : LastCrossSignedState := set_htlcs hs (outgoing_htlcs s) s.
Definition set_outgoing (hs : list UpdateAddHtlc) (s : LastCrossSignedState)
    : LastCrossSignedState := set_htlcs (incoming_htlcs s) hs s.
Definition bump_local (s : LastCrossSignedState) : LastCrossSignedState :=
  set_updates (wrap32 (local_updates s + 1)) (remote_updates s) s.
Definition bump_remote (s : LastCrossSignedState) : LastCrossSignedState :=
  set_updates (local_updates s) (wrap32 (remote_updates s + 1)) s.

(** [position(|h| h.htlc_id() == id).ok_or(HtlcNotFound(id))?] followed by
    [remove(pos)]: the removed HTLC and the list without it. *)
Definition remove_htlc (id : Z) (hs : list UpdateAddHtlc)
    : result StateError (UpdateAddHtlc * list UpdateAddHtlc) :=
  match list_find (λ h, htlc_id h = id) hs with
  | Some (pos, htlc) => Ok (htlc, delete pos hs)
  | None => Err (HtlcNotFound id)
  end.

Section Fold.
Context `{Crypto}.

Definition check_preimage (preimage : list byte) (htlc : UpdateAddHtlc) : result StateError unit :=
  if decide (sha256 preimage = uah_payment_hash htlc) then Ok tt else Err WrongPreimage.

(** One iteration of the loop of [lcss_next]. *)
Definition apply_update (next : LastCrossSignedState) (update : UncommittedUpdate)
    : result StateError LastCrossSignedState :=
  match update with
  | ULocal (PAdd htlc) =>
      b ← ok_or (checked_sub_u64 (local_balance_msat next) (uah_amount_msat htlc))
            (NegativeBalance (local_balance_msat next) (uah_amount_msat htlc));
      Ok (bump_local (set_outgoing (outgoing_htlcs next ++ [htlc]) (set_local_balance b next)))
  | URemote (PAdd htlc) =>
      b ← ok_or (checked_sub_u64 (remote_balance_msat next) (uah_amount_msat htlc))
            (NegativeBalance (remote_balance_msat next) (uah_amount_msat htlc));
      Ok (bump_remote (set_incoming (incoming_htlcs next ++ [htlc]) (set_remote_balance b next)))
  | ULocal (PFulfill _ id preimage) =>
      '(htlc, hs) ← remove_htlc id (incoming_htlcs next);
      _ ← check_preimage preimage htlc;
      b ← ok_or (checked_add_u64 (local_balance_msat next) (uah_amount_msat htlc)) StateOverflow;
      Ok (bump_local (set_local_balance b (set_incoming hs next)))
  | URemote (PFulfill _ id preimage) =>
      '(htlc, hs) ← remove_htlc id (outgoing_htlcs next);
      _ ← check_preimage preimage htlc;
      b ← ok_or (checked_add_u64 (remote_balance_msat next) (uah_amount_msat htlc)) StateOverflow;
      Ok (bump_remote (set_remote_balance b (set_outgoing hs next)))
  | ULocal (PFail _ id _) | ULocal (PFailMalformed _ id _ _) =>
      '(htlc, hs) ← remove_htlc id (incoming_htlcs next);
      b ← ok_or (checked_add_u64 (remote_balance_msat next) (uah_amount_msat htlc)) StateOverflow;
      Ok (bump_local (set_remote_balance b (set_incoming hs next)))
  | URemote (PFail _ id _) | URemote (PFailMalformed _ id _ _) =>
      '(htlc, hs) ← remove_htlc id (outgoing_htlcs next);
      b ← ok_or (checked_add_u64 (local_balance_msat next) (uah_amount_msat htlc)) StateOverflow;
      Ok (bump_remote (set_local_balance b (set_outgoing hs next)))
  end.

Fixpoint apply_updates (us : list UncommittedUpdate) (next : LastCrossSignedState)
    : result StateError LastCrossSignedState :=
  match us with
  | [] => Ok next
  | u :: us => next ← apply_update next u; apply_updates us next
  end.

Definition lcss_next (sm : StateManager) : result StateError LastCrossSignedState :=
  next ← apply_updates (sm_uncommitted sm) (set_updates 0 0 (sm_lcss sm));
  Ok (set_block_day (block_day (sm_lcss sm))
        (set_updates (next_local_updates sm) (next_remote_updates sm) next)).

End Fold.

Definition add_local (u : PendingUpdate) (sm : StateManager) : StateManager :=
  mkStateManager (sm_lcss sm) (sm_uncommitted sm ++ [ULocal u]).
Definition add_remote (u : PendingUpdate) (sm : StateManager) : StateManager :=
  mkStateManager (sm_lcss sm) (sm_uncommitted sm ++ [URemote u]).
Definition sm_commit (lcss : LastCrossSignedState) (_ : StateManager) : StateManager :=
  mkStateManager lcss [].
Definition clear_uncommitted (sm : StateManager) : StateManager :=
  mkStateManager (sm_lcss sm) [].

(** ** Funds *)

Definition htlc_total (hs : list UpdateAddHtlc) : Z := sum_with uah_amount_msat hs.

(** Everything the channel holds, in either balance or in flight. *)
Definition total_funds (s : LastCrossSignedState) : Z :=
  local_balance_msat s + remote_balance_msat s +
  htlc_total (incoming_htlcs s) + htlc_total (outgoing_htlcs s).

Definition amount_ok (h : UpdateAddHtlc) : Prop := 0 ≤ uah_amount_msat h.

(** No negative amounts anywhere. *)
Definition funds_ok (s : LastCrossSignedState) : Prop :=
  0 ≤ local_balance_msat s ∧ 0 ≤ remote_balance_msat s ∧
  Forall amount_ok (incoming_htlcs s) ∧ Forall amount_ok (outgoing_htlcs s).

Definition update_ok (u : UncommittedUpdate) : Prop :=
  match u with ULocal (PAdd h) | URemote (PAdd h) => amount_ok h | _ => True end.

Lemma htlc_total_nonneg hs : Forall amount_ok hs → 0 ≤ htlc_total hs.
Proof. apply sum_with_nonneg. Qed.

Lemma sum_with_delete {A} (f : A → Z) l i x :
  l !! i = Some x → sum_with f l = f x + sum_with f (delete i l).
Proof.
  revert i. induction l as [|y l IH]; intros [|i] H; cbn in H; simplify_eq; [done|].
  change (f y + sum_with f l = f x + (f y + sum_with f (delete i l))).
  rewrite (IH _ H). lia.
Qed.

Lemma remove_htlc_inv id hs h hs' :
  remove_htlc id hs = Ok (h, hs') →
  htlc_id h = id ∧ h ∈ hs ∧ htlc_total hs = uah_amount_msat h + htlc_total hs'.
Proof.
  unfold remove_htlc. destruct (list_find _ _) as [[i h0]|] eqn:Hf; [|done].
  intros [= -> <-]. apply list_find_Some in Hf as (Hi & Hid & _). split_and!; [done|..].
  - by eapply list_elem_of_lookup_2.
  - by apply sum_with_delete.
Qed.

Lemma remove_htlc_Forall (P : UpdateAddHtlc → Prop) id hs h hs' :
  remove_htlc id hs = Ok (h, hs') → Forall P hs → P h ∧ Forall P hs'.
Proof.
  unfold remove_htlc. destruct (list_find _ _) as [[i h0]|] eqn:Hf; [|done].
  intros [= -> <-] HP. apply list_find_Some in Hf as (Hi & _).
  split; [by eapply Forall_lookup_1|]. by apply Forall_delete.
Qed.

(** Invert one successful iteration. *)
Ltac inv_update H :=
  repeat lazymatch type of H with
  | (remove_htlc ?id ?hs ≫= _) = Ok _ =>
      let h := fresh "h" in let hs := fresh "hs" in let Hr := fresh "Hrem" in
      apply result_bind_ok in H as ([h hs] & Hr & H)
  | (check_preimage _ _ ≫= _) = Ok _ =>
      let Hp := fresh "Hpre" in apply result_bind_ok in H as ([] & Hp & H)
  | (ok_or _ _ ≫= _) = Ok _ =>
      let b := fresh "b" in let Hb := fresh "Hb" in
      apply result_bind_ok in H as (b & Hb & H); apply ok_or_ok in Hb;
      first [apply checked_sub_u64_some in Hb as [-> Hb]
            |apply checked_add_u64_some in Hb as [-> Hb]]
  | Ok _ = Ok _ => injection H as <-
  end.

Section FoldFacts.
Context {HC : Crypto}.
Implicit Types (s : LastCrossSignedState) (u : UncommittedUpdate).

(** Each iteration moves money, and only between the four places. *)
Lemma apply_update_funds s u s' :
  apply_update s u = Ok s' → total_funds s' = total_funds s.
Proof.
  intros H. unfold total_funds. destruct u as [[]|[]]; cbn in H; inv_update H; cbn;
    repeat match goal with HR : remove_htlc _ _ = _ |- _ => apply remove_htlc_inv in HR as (_&_&->) end;
    unfold htlc_total; rewrite ?sum_with_app; cbn; lia.
Qed.

Lemma apply_update_funds_ok s u s' :
  apply_update s u = Ok s' → update_ok u → funds_ok s → funds_ok s'.
Proof.
  intros H Hu (Hl & Hr & Hi & Ho). unfold funds_ok.
  destruct u as [[]|[]]; cbn in H, Hu; inv_update H; cbn;
    repeat match goal with HR : remove_htlc _ _ = _ |- _ =>
      apply (remove_htlc_Forall amount_ok) in HR as [Ha ?]; [unfold amount_ok in Ha|done] end;
    split_and!; try done; try (unfold amount_ok in Hu; lia);
    apply Forall_app; by auto.
Qed.

Lemma apply_updates_ind (P : LastCrossSignedState → Prop) (Q : UncommittedUpdate → Prop) us s s' :
  (∀ s u s', apply_update s u = Ok s' → Q u → P s → P s') →
  apply_updates us s = Ok s' → Forall Q us → P s → P s'.
Proof.
  intros Hstep. revert s. induction us as [|u us IH]; intros s H HQ HP; cbn in H.
  - by injection H as <-.
  - apply result_bind_ok in H as (s1 & H1 & H). apply Forall_cons in HQ as [??]. eauto.
Qed.

Lemma apply_updates_funds us s s' :
  apply_updates us s = Ok s' → total_funds s' = total_funds s.
Proof.
  intros H. eapply (apply_updates_ind (λ t, total_funds t = total_funds s) (λ _, True));
    [|done|by apply Forall_true|done].
  intros t u t' Ht _ <-. by eapply apply_update_funds.
Qed.

Lemma apply_updates_funds_ok us s s' :
  apply_updates us s = Ok s' → Forall update_ok us → funds_ok s → funds_ok s'.
Proof. apply apply_updates_ind. apply apply_update_funds_ok. Qed.

Lemma funds_bound s : funds_ok s →
  0 ≤ htlc_total (incoming_htlcs s) ∧ 0 ≤ htlc_total (outgoing_htlcs s).
Proof. intros (_&_&?&?). by split; apply htlc_total_nonneg. Qed.

(** The overflow branches are dead as long as the whole channel fits in [u64]. *)
Lemma apply_update_no_overflow s u :
  funds_ok s → total_funds s ≤ U64_MAX → apply_update s u ≠ Err StateOverflow.
Proof.
  intros Hok Ht. destruct (funds_bound s Hok) as [Hi Ho]. destruct Hok as (Hl&Hr&Hfi&Hfo).
  unfold total_funds, U64_MAX in Ht.
  assert (∀ id hs h hs', remove_htlc id hs = Ok (h, hs') → Forall amount_ok hs →
            0 ≤ uah_amount_msat h ≤ htlc_total hs) as Hrem.
  { intros id hs h hs' HR HF. destruct (remove_htlc_inv _ _ _ _ HR) as (_&_&->).
    apply (remove_htlc_Forall amount_ok) in HR as [Ha HF']; [|done].
    apply htlc_total_nonneg in HF'. unfold amount_ok in Ha. lia. }
  destruct u as [[]|[]]; cbn; try (unfold checked_sub_u64; zcase; done);
    (destruct (remove_htlc _ _) as [[h hs]|] eqn:HR; cbn;
      [|unfold remove_htlc in HR; destruct (list_find _ _) as [[]|]; by simplify_eq]);
    apply Hrem in HR; try done;
    try (unfold check_preimage; case_decide; cbn; [|done]);
    unfold checked_add_u64; rewrite ltb_true by lia; done.
Qed.

Lemma apply_updates_no_overflow us s :
  Forall update_ok us → funds_ok s → total_funds s ≤ U64_MAX →
  apply_updates us s ≠ Err StateOverflow.
Proof.
  revert s. induction us as [|u us IH]; intros s HF Hok Ht; cbn; [done|].
  apply Forall_cons in HF as [Hu HF].
  destruct (apply_update s u) as [s1|e] eqn:H1; cbn.
  - apply IH; [done|by eapply apply_update_funds_ok|by erewrite apply_update_funds].
  - intros [= ->]. by eapply apply_update_no_overflow.
Qed.

(** What the loop never touches. *)
Definition frame (s : LastCrossSignedState) :=
  (is_host s, last_refund_scriptpubkey s, init_hosted_channel s, block_day s,
   remote_sig_of_local s, local_sig_of_remote s).

Lemma apply_update_frame s u s' : apply_update s u = Ok s' → frame s' = frame s.
Proof. intros H. destruct u as [[]|[]]; cbn in H; inv_update H; done. Qed.

Lemma apply_updates_frame us s s' : apply_updates us s = Ok s' → frame s' = frame s.
Proof.
  intros H. eapply (apply_updates_ind (λ t, frame t = frame s) (λ _, True));
    [|done|by apply Forall_true|done].
  intros t u t' Ht _ <-. by eapply apply_update_frame.
Qed.

Lemma lcss_next_inv sm n :
  lcss_next sm = Ok n →
  ∃ t, apply_updates (sm_uncommitted sm) (set_updates 0 0 (sm_lcss sm)) = Ok t ∧
    n = set_block_day (block_day (sm_lcss sm))
          (set_updates (next_local_updates sm) (next_remote_updates sm) t).
Proof. unfold lcss_next. intros (t & Ht & H)%result_bind_ok. injection H as <-. by exists t. Qed.

(** ** The peer's computation *)

Definition mirror_update (u : UncommittedUpdate) : UncommittedUpdate :=
  match u with ULocal p => URemote p | URemote p => ULocal p end.

Definition mirror (sm : StateManager) : StateManager :=
  mkStateManager (lcss_reverse (sm_lcss sm)) (mirror_update <$> sm_uncommitted sm).

Lemma apply_update_mirror s u :
  apply_update (lcss_reverse s) (mirror_update u) = lcss_reverse <$> apply_update s u.
Proof.
  destruct u as [[]|[]]; cbn;
    try (destruct (remove_htlc _ _) as [[??]|]; cbn; [|done]);
    try (destruct (check_preimage _ _); cbn; [|done]);
    match goal with |- context [ok_or ?o _] => destruct o end; done.
Qed.

Lemma apply_updates_mirror us s :
  apply_updates (mirror_update <$> us) (lcss_reverse s) = lcss_reverse <$> apply_updates us s.
Proof.
  revert s. induction us as [|u us IH]; intros s; cbn; [done|].
  rewrite apply_update_mirror. destruct (apply_update s u); cbn; [apply IH|done].
Qed.

Lemma count_updates_mirror us :
  count_updates is_local_update (mirror_update <$> us) = count_updates is_remote_update us ∧
  count_updates is_remote_update (mirror_update <$> us) = count_updates is_local_update us.
Proof.
  unfold count_updates. assert (
    length (filter (λ u, is_local_update u = true) (mirror_update <$> us)) =
      length (filter (λ u, is_remote_update u = true) us) ∧
    length (filter (λ u, is_remote_update u = true) (mirror_update <$> us)) =
      length (filter (λ u, is_local_update u = true) us)) as [H1 H2].
  { induction us as [|[] us [IH1 IH2]]; [done|..];
      rewrite fmap_cons, !filter_cons; cbn [mirror_update is_local_update is_remote_update];
      repeat (case_decide; try done); cbn; split; congruence. }
  unfold len. by rewrite H1, H2.
Qed.

(** ** Interleavings *)

(** The loop body without the balance guards. *)
Definition relaxed_update (s : LastCrossSignedState) (u : UncommittedUpdate)
    : option LastCrossSignedState :=
  match u with
  | ULocal (PAdd h) =>
      Some (bump_local (set_outgoing (outgoing_htlcs s ++ [h])
              (set_local_balance (local_balance_msat s - uah_amount_msat h) s)))
  | URemote (PAdd h) =>
      Some (bump_remote (set_incoming (incoming_htlcs s ++ [h])
              (set_remote_balance (remote_balance_msat s - uah_amount_msat h) s)))
  | ULocal (PFulfill _ id p) =>
      match remove_htlc id (incoming_htlcs s) with
      | Ok (h, hs) => if is_ok (check_preimage p h) then
          Some (bump_local (set_local_balance (local_balance_msat s + uah_amount_msat h)
                  (set_incoming hs s))) else None
      | Err _ => None
      end
  | URemote (PFulfill _ id p) =>
      match remove_htlc id (outgoing_htlcs s) with
      | Ok (h, hs) => if is_ok (check_preimage p h) then
          Some (bump_remote (set_remote_balance (remote_balance_msat s + uah_amount_msat h)
                  (set_outgoing hs s))) else None
      | Err _ => None
      end
  | ULocal (PFail _ id _) | ULocal (PFailMalformed _ id _ _) =>
      match remove_htlc id (incoming_htlcs s) with
      | Ok (h, hs) => Some (bump_local
          (set_remote_balance (remote_balance_msat s + uah_amount_msat h) (set_incoming hs s)))
      | Err _ => None
      end
  | URemote (PFail _ id _) | URemote (PFailMalformed _ id _ _) =>
      match remove_htlc id (outgoing_htlcs s) with
      | Ok (h, hs) => Some (bump_remote
          (set_local_balance (local_balance_msat s + uah_amount_msat h) (set_outgoing hs s)))
      | Err _ => None
      end
  end.

Fixpoint relaxed_updates (us : list UncommittedUpdate) (s : LastCrossSignedState)
    : option LastCrossSignedState :=
  match us with
  | [] => Some s
  | u :: us => s ← relaxed_update s u; relaxed_updates us s
  end.

Lemma apply_update_relaxed s u s' : apply_update s u = Ok s' → relaxed_update s u = Some s'.
Proof.
  intros HU. destruct u as [[]|[]]; cbn in HU |- *; inv_update HU;
    repeat match goal with
    | HR : remove_htlc _ _ = _ |- _ => rewrite HR
    | HP : check_preimage _ _ = _ |- _ => rewrite HP
    end; done.
Qed.

Lemma apply_updates_relaxed us s s' :
  apply_updates us s = Ok s' → relaxed_updates us s = Some s'.
Proof.
  revert s. induction us as [|u us IH]; intros s HU; cbn in *; [congruence|].
  apply result_bind_ok in HU as (s1 & H1 & HU). apply apply_update_relaxed in H1. rewrite H1. eauto.
Qed.

(** Appending does not change which HTLC an id designates. *)
Lemma remove_htlc_app id hs h hs' extra :
  remove_htlc id hs = Ok (h, hs') → remove_htlc id (hs ++ extra) = Ok (h, hs' ++ extra).
Proof.
  unfold remove_htlc. destruct (list_find _ hs) as [[i x]|] eqn:Hf; [|done].
  intros [= -> <-]. rewrite (list_find_app_l _ _ _ _ _ Hf). do 2 f_equal.
  apply list_find_Some in Hf as [Hi%lookup_lt_Some _].
  by rewrite !delete_take_drop, take_app_le, drop_app_le, app_assoc by lia.
Qed.

Lemma wrap32_add1_comm a : wrap32 (wrap32 a + 1) = wrap32 (a + 1).
Proof. unfold wrap32. by rewrite Zplus_mod_idemp_l. Qed.

(** Evaluate the removals and preimage checks of [H], reusing what is known. *)
Ltac eval_removals H :=
  repeat (match type of H with
  | context [remove_htlc ?i ?l] =>
      first
      [ match goal with HR : remove_htlc i l = _ |- _ => rewrite HR in H end
      | match l with ?l0 ++ ?e =>
          match goal with HR : remove_htlc i l0 = Ok _ |- _ =>
            rewrite (remove_htlc_app _ _ _ _ e HR) in H end end
      | destruct (remove_htlc i l) as [[? ?]|] eqn:? ]
  | context [check_preimage ?p ?h] =>
      first [ match goal with HR : check_preimage p h = _ |- _ => rewrite HR in H end
            | destruct (check_preimage p h) eqn:? ]
  end; cbn in H; try discriminate H).

Ltac eval_goal :=
  repeat (match goal with
  | HR : remove_htlc ?i ?l = Ok _ |- context [remove_htlc ?i ?l] => rewrite HR
  | HR : remove_htlc ?i ?l = Ok _ |- context [remove_htlc ?i (?l ++ ?e)] =>
      rewrite (remove_htlc_app _ _ _ _ e HR)
  | HR : check_preimage ?p ?h = _ |- context [check_preimage ?p ?h] => rewrite HR
  end; cbn).

Lemma lcss_ext s1 s2 :
  frame s1 = frame s2 → local_balance_msat s1 = local_balance_msat s2 →
  remote_balance_msat s1 = remote_balance_msat s2 → local_updates s1 = local_updates s2 →
  remote_updates s1 = remote_updates s2 → incoming_htlcs s1 = incoming_htlcs s2 →
  outgoing_htlcs s1 = outgoing_htlcs s2 → s1 = s2.
Proof. destruct s1, s2; unfold frame; cbn. intros [=] -> -> -> -> -> ->. by subst. Qed.

(** The diamond: an update of one side that can go first may go first. *)
Lemma relaxed_diamond s a b sa sb :
  is_local_update a ≠ is_local_update b →
  relaxed_update s a = Some sa → relaxed_update s b = Some sb →
  ∃ t, relaxed_update sa b = Some t ∧ relaxed_update sb a = Some t.
Proof.
  intros Hd Ha Hb.
  destruct a as [[]|[]], b as [[]|[]]; try done; cbn in *; clear Hd;
    eval_removals Ha; injection Ha as <-; eval_removals Hb; injection Hb as <-;
    cbn; eval_goal; eexists; (split; [reflexivity|]);
    f_equal; apply lcss_ext; cbn; rewrite <-?app_assoc; try done; lia.
Qed.

(** The updates of one direction, in order. *)
Definition side (b : bool) (us : list UncommittedUpdate) : list UncommittedUpdate :=
  filter (λ u, is_local_update u = b) us.

Lemma relaxed_move_front us a vs s sa r :
  Forall (λ u, is_local_update u ≠ is_local_update a) us →
  relaxed_updates (us ++ a :: vs) s = Some r → relaxed_update s a = Some sa →
  relaxed_updates (us ++ vs) sa = Some r.
Proof.
  intros HF. revert s sa. induction HF as [|u us Hu HF IH]; intros s sa Hr Ha; cbn in *.
  - rewrite Ha in Hr. exact Hr.
  - destruct (relaxed_update s u) as [su|] eqn:Hsu; [|discriminate Hr]. cbn in Hr.
    destruct (relaxed_diamond s a u sa su) as (t & Ht1 & Ht2); [congruence|done|done|].
    rewrite Ht1. cbn. by eapply IH.
Qed.

Lemma side_app b us vs : side b (us ++ vs) = side b us ++ side b vs.
Proof. apply filter_app. Qed.

Lemma side_cons_eq u us : side (is_local_update u) (u :: us) = u :: side (is_local_update u) us.
Proof. unfold side. rewrite filter_cons, decide_True; done. Qed.

Lemma side_cons_neq b u us : is_local_update u ≠ b → side b (u :: us) = side b us.
Proof. intros. unfold side. by rewrite filter_cons, decide_False. Qed.

Lemma side_other b us : Forall (λ u, is_local_update u ≠ b) us → side b us = [].
Proof. induction 1 as [|u us Hu _ IH]; [done|]. by rewrite side_cons_neq. Qed.

(** Where the first update of a direction sits. *)
Lemma side_split a vs rest :
  side (is_local_update a) vs = a :: rest →
  ∃ v1 v2, vs = v1 ++ a :: v2 ∧ Forall (λ u, is_local_update u ≠ is_local_update a) v1 ∧
           side (is_local_update a) v2 = rest.
Proof.
  induction vs as [|v vs IH]; intros HS; [done|].
  destruct (decide (is_local_update v = is_local_update a)) as [Hv|Hv].
  - rewrite <-Hv, side_cons_eq in HS. injection HS as <- <-. by exists [], vs.
  - rewrite side_cons_neq in HS by done. destruct (IH HS) as (v1 & v2 & -> & HF & Hr).
    exists (v :: v1), v2. split; [done|]. split; [by constructor|done].
Qed.

Lemma relaxed_confluence us : ∀ vs s r1 r2,
  (∀ b, side b us = side b vs) →
  relaxed_updates us s = Some r1 → relaxed_updates vs s = Some r2 → r1 = r2.
Proof.
  induction us as [|a us IH]; intros vs s r1 r2 Hside H1 H2.
  - destruct vs as [|v vs]; [cbn in *; congruence|].
    specialize (Hside (is_local_update v)). rewrite side_cons_eq in Hside. discriminate Hside.
  - cbn in H1. destruct (relaxed_update s a) as [sa|] eqn:Ha; [|discriminate H1]. cbn in H1.
    pose proof (Hside (is_local_update a)) as Hsa. rewrite side_cons_eq in Hsa. symmetry in Hsa.
    destruct (side_split _ _ _ Hsa) as (v1 & v2 & -> & HF & Hv2).
    eapply (IH (v1 ++ v2)); [|exact H1|by eapply relaxed_move_front]. intros b.
    specialize (Hside b). rewrite side_app in Hside |- *.
    destruct (decide (is_local_update a = b)) as [<-|Hne].
    + by rewrite (side_other _ _ HF), Hv2.
    + rewrite !side_cons_neq in Hside by done. exact Hside.
Qed.

Lemma count_updates_side us vs :
  (∀ b, side b us = side b vs) →
  count_updates is_local_update us = count_updates is_local_update vs ∧
  count_updates is_remote_update us = count_updates is_remote_update vs.
Proof.
  intros Hs. assert (∀ us, filter (λ u, is_remote_update u = true) us = side false us) as Hr.
  { clear. intros us. unfold side. apply list_filter_iff. by intros []. }
  unfold count_updates. rewrite !Hr, (Hs false). split; [|done].
  specialize (Hs true). unfold side in Hs. by rewrite Hs.
Qed.

End FoldFacts.

(** The type invariant of a state together with what fits the channel. *)
Definition lcss_bounded (s : LastCrossSignedState) : Prop :=
  Lcss_typed s ∧ total_funds s ≤ U64_MAX.

Definition update_typed (u : UncommittedUpdate) : Prop :=
  match u with ULocal (PAdd h) | URemote (PAdd h) => UpdateAddHtlc_typed h | _ => True end.

Lemma htlc_typed_amount h : UpdateAddHtlc_typed h → amount_ok h.
Proof. intros (_&_&[]&_). done. Qed.

Lemma update_typed_ok u : update_typed u → update_ok u.
Proof. destruct u as [[]|[]]; cbn; auto using htlc_typed_amount. Qed.

Lemma lcss_typed_funds s : Lcss_typed s → funds_ok s.
Proof.
  intros (_&_&[]&[]&_&_&Hi&Ho&_). unfold funds_ok. split_and!; [done|done|..];
    (eapply Forall_impl; [eassumption|apply htlc_typed_amount]).
Qed.

Lemma apply_update_htlcs_typed {HC : Crypto} s u s' :
  apply_update s u = Ok s' → update_typed u →
  Forall UpdateAddHtlc_typed (incoming_htlcs s) ∧ Forall UpdateAddHtlc_typed (outgoing_htlcs s) →
  Forall UpdateAddHtlc_typed (incoming_htlcs s') ∧ Forall UpdateAddHtlc_typed (outgoing_htlcs s').
Proof.
  intros HU Hu [Hi Ho]. destruct u as [[]|[]]; cbn in HU, Hu; inv_update HU; cbn;
    repeat match goal with HR : remove_htlc _ _ = _ |- _ =>
      apply (remove_htlc_Forall UpdateAddHtlc_typed) in HR as [_ ?]; [|done] end;
    rewrite ?Forall_app; auto.
Qed.

Lemma apply_updates_typed {HC : Crypto} us s s' :
  apply_updates us s = Ok s' → Forall update_typed us → lcss_bounded s →
  u32 (local_updates s') → u32 (remote_updates s') → lcss_bounded s'.
Proof.
  intros HU HF [Ht Hb] Hlu Hru.
  pose proof (apply_updates_funds _ _ _ HU) as Hf. pose proof (apply_updates_frame _ _ _ HU) as Hfr.
  assert (funds_ok s') as Hok.
  { eapply apply_updates_funds_ok; [done| |by apply lcss_typed_funds].
    eapply Forall_impl; [done|apply update_typed_ok]. }
  destruct Ht as (Hi&Hd&_&_&_&_&Hin&Hout&Hs1&Hs2).
  edestruct (apply_updates_ind (λ t, Forall UpdateAddHtlc_typed (incoming_htlcs t) ∧
    Forall UpdateAddHtlc_typed (outgoing_htlcs t)) update_typed) as [Hin' Hout'];
    [apply apply_update_htlcs_typed|exact HU|done|done|].
  split; [|lia]. destruct (funds_bound _ Hok). destruct Hok as (?&?&_&_).
  unfold frame in Hfr. unfold total_funds, U64_MAX in *. unfold Lcss_typed, u64.
  injection Hfr as _ _ -> -> -> ->. split; [done|]. split_and!; try done; lia.
Qed.

Lemma Lcss_typed_set_updates a b s :
  Lcss_typed s → u32 a → u32 b → Lcss_typed (set_updates a b s).
Proof. unfold Lcss_typed; cbn. naive_solver. Qed.

Lemma apply_updates_counters {HC : Crypto} us s s' :
  apply_updates us s = Ok s' → u32 (local_updates s) ∧ u32 (remote_updates s) →
  u32 (local_updates s') ∧ u32 (remote_updates s').
Proof.
  intros HU. eapply (apply_updates_ind (λ t, u32 (local_updates t) ∧ u32 (remote_updates t))
    (λ _, True)); [|exact HU|by apply Forall_true].
  intros t u t' Ht _ [??]. destruct u as [[]|[]]; cbn in Ht; inv_update Ht; cbn;
    auto with canopus.
Qed.

Lemma lcss_next_bounded {HC : Crypto} sm n :
  lcss_next sm = Ok n → Forall update_typed (sm_uncommitted sm) → lcss_bounded (sm_lcss sm) →
  lcss_bounded n.
Proof.
  intros (t & Ht & ->)%lcss_next_inv HF [Hb Hf].
  assert (lcss_bounded (set_updates 0 0 (sm_lcss sm))) as H0
    by (split; [by apply Lcss_typed_set_updates|done]).
  destruct (apply_updates_counters _ _ _ Ht) as [??]; [done|].
  destruct (apply_updates_typed _ _ _ Ht HF H0) as [Hty Htf]; [done..|].
  split; [|done]. destruct Hb as (_&Hd&_). destruct Hty as (?&_&?&?&_&_&?).
  unfold Lcss_typed; cbn. split_and!; try apply wrap32_u32; tauto.
Qed.

Lemma lcss_next_mirror_eq {HC : Crypto} sm :
  lcss_next (mirror sm) = lcss_reverse <$> lcss_next sm.
Proof.
  unfold lcss_next, mirror; cbn.
  change (set_updates 0 0 (lcss_reverse (sm_lcss sm))) with (lcss_reverse (set_updates 0 0 (sm_lcss sm))).
  rewrite apply_updates_mirror. destruct (apply_updates _ _) as [t|e]; cbn; [|done].
  unfold next_local_updates, next_remote_updates; cbn.
  by destruct (count_updates_mirror (sm_uncommitted sm)) as [-> ->].
Qed.

(** ** Settlement

    Which HTLCs the updates of each side add, fulfil and fail, read off the updates
    alone: an account of the fold that does not follow its loop. *)

(** The updates of the host ([true]) or of the peer. *)
Definition sent_by (local : bool) (us : list UncommittedUpdate) : list PendingUpdate :=
  omap (λ u, match u with
             | ULocal p => if local then Some p else None
             | URemote p => if local then None else Some p
             end) us.

Definition adds_of (ps : list PendingUpdate) : list UpdateAddHtlc :=
  omap (λ p, match p with PAdd h => Some h | _ => None end) ps.
Definition fulfils_of (ps : list PendingUpdate) : list (Z * list byte) :=
  omap (λ p, match p with PFulfill _ id preimage => Some (id, preimage) | _ => None end) ps.
Definition fails_of (ps : list PendingUpdate) : list Z :=
  omap (λ p, match p with PFail _ id _ | PFailMalformed _ id _ _ => Some id | _ => None end) ps.

(** The updates [us] lead from [s] to [n] by settling four lists of HTLCs: those the
    peer offered that the host fulfilled ([paid_in]) or failed ([back_in]), and those
    the host offered that the peer fulfilled ([paid_out]) or failed ([back_out]).  A
    fulfilled HTLC is the one the update names, its hash is that of the preimage, and
    its amount goes to the side it was offered to; a failed one goes back. *)
Record settlement {HC : Crypto} (s n : LastCrossSignedState) (us : list UncommittedUpdate)
    (paid_in back_in paid_out back_out : list UpdateAddHtlc) : Prop := {
  stl_incoming : incoming_htlcs s ++ adds_of (sent_by false us) ≡ₚ incoming_htlcs n ++ paid_in ++ back_in;
  stl_outgoing : outgoing_htlcs s ++ adds_of (sent_by true us) ≡ₚ outgoing_htlcs n ++ paid_out ++ back_out;
  stl_paid_in : Forall2 (λ h f, htlc_id h = f.1 ∧ uah_payment_hash h = sha256 f.2) paid_in (fulfils_of (sent_by true us));
  stl_paid_out : Forall2 (λ h f, htlc_id h = f.1 ∧ uah_payment_hash h = sha256 f.2) paid_out (fulfils_of (sent_by false us));
  stl_back_in : htlc_id <$> back_in = fails_of (sent_by true us);
  stl_back_out : htlc_id <$> back_out = fails_of (sent_by false us);
  stl_local : local_balance_msat n =
    local_balance_msat s - htlc_total (adds_of (sent_by true us)) + htlc_total paid_in + htlc_total back_out;
  stl_remote : remote_balance_msat n =
    remote_balance_msat s - htlc_total (adds_of (sent_by false us)) + htlc_total paid_out + htlc_total back_in;
}.

Definition settled_by {HC : Crypto} s n us : Prop := ∃ pi bi po bo, settlement s n us pi bi po bo.

Lemma remove_htlc_perm id hs h hs' : remove_htlc id hs = Ok (h, hs') → htlc_id h = id ∧ hs ≡ₚ h :: hs'.
Proof.
  unfold remove_htlc. destruct (list_find _ _) as [[i h0]|] eqn:Hf; [|done].
  intros [= -> <-]. apply list_find_Some in Hf as (Hi & Hid & _). split; [done|]. by apply delete_Permutation.
Qed.

Lemma check_preimage_ok {HC : Crypto} p h : check_preimage p h = Ok tt → uah_payment_hash h = sha256 p.
Proof. unfold check_preimage. by case_decide. Qed.

Lemma htlc_total_cons h hs : htlc_total (h :: hs) = uah_amount_msat h + htlc_total hs.
Proof. done. Qed.

Lemma sent_by_cons b u us : sent_by b (u :: us) =
  match u with ULocal p => if b then p :: sent_by b us else sent_by b us
             | URemote p => if b then sent_by b us else p :: sent_by b us end.
Proof. by destruct u, b. Qed.
Lemma adds_of_cons p ps : adds_of (p :: ps) = match p with PAdd h => h :: adds_of ps | _ => adds_of ps end.
Proof. by destruct p. Qed.
Lemma fulfils_of_cons p ps :
  fulfils_of (p :: ps) = match p with PFulfill _ id x => (id, x) :: fulfils_of ps | _ => fulfils_of ps end.
Proof. by destruct p. Qed.
Lemma fails_of_cons p ps : fails_of (p :: ps) =
  match p with PFail _ id _ | PFailMalformed _ id _ _ => id :: fails_of ps | _ => fails_of ps end.
Proof. by destruct p. Qed.

#[local] Arguments sent_by : simpl never.
#[local] Arguments adds_of : simpl never.
#[local] Arguments fulfils_of : simpl never.
#[local] Arguments fails_of : simpl never.
#[local] Arguments htlc_total : simpl never.

(** The clauses that are not about the update at hand. *)
Ltac settle_rest :=
  rewrite ?sent_by_cons, ?adds_of_cons, ?fulfils_of_cons, ?fails_of_cons; cbn;
  rewrite ?adds_of_cons, ?fulfils_of_cons, ?fails_of_cons, ?fmap_cons, ?htlc_total_cons;
  try done; try (constructor; [by eauto|done]); try lia; try congruence.

Lemma settles_cons {HC : Crypto} s u s1 n us :
  apply_update s u = Ok s1 → settled_by s1 n us → settled_by s n (u :: us).
Proof.
  intros Hu (pi & bi & po & bo & [Hi Ho Hpi Hpo Hbi Hbo Hl Hr]).
  destruct u as [[h|c id p|c id r|c id sh fc]|[h|c id p|c id r|c id sh fc]]; cbn in Hu; inv_update Hu;
    repeat match goal with
    | HR : remove_htlc _ _ = Ok _ |- _ => apply remove_htlc_perm in HR as [? HR]
    | HP : check_preimage _ _ = Ok _ |- _ => apply check_preimage_ok in HP
    end; cbn in Hi, Ho, Hl, Hr.
  - exists pi, bi, po, bo. split; settle_rest. by rewrite <- app_assoc in Ho.
  - exists (h :: pi), bi, po, bo. split; settle_rest.
    rewrite Hrem. cbn. rewrite Hi. by rewrite <- Permutation_middle.
  - exists pi, (h :: bi), po, bo. split; settle_rest.
    rewrite Hrem. cbn. rewrite Hi. by rewrite !app_assoc, <- Permutation_middle.
  - exists pi, (h :: bi), po, bo. split; settle_rest.
    rewrite Hrem. cbn. rewrite Hi. by rewrite !app_assoc, <- Permutation_middle.
  - exists pi, bi, po, bo. split; settle_rest. by rewrite <- app_assoc in Hi.
  - exists pi, bi, (h :: po), bo. split; settle_rest.
    rewrite Hrem. cbn. rewrite Ho. by rewrite <- Permutation_middle.
  - exists pi, bi, po, (h :: bo). split; settle_rest.
    rewrite Hrem. cbn. rewrite Ho. by rewrite !app_assoc, <- Permutation_middle.
  - exists pi, bi, po, (h :: bo). split; settle_rest.
    rewrite Hrem. cbn. rewrite Ho. by rewrite !app_assoc, <- Permutation_middle.
Qed.

Lemma apply_updates_settles {HC : Crypto} us s n : apply_updates us s = Ok n → settled_by s n us.
Proof.
  revert s. induction us as [|u us IH]; intros s H; cbn in H.
  - injection H as <-. exists [], [], [], []. split; cbn; rewrite ?app_nil_r; try done; unfold adds_of, sent_by, htlc_total; cbn; lia.
  - apply result_bind_ok in H as (s1 & H1 & H). eapply settles_cons; [exact H1|]. by apply IH.
Qed.

(** ** Guarantees of the fold *)

(** C11. Folding pending updates settles exactly what the updates say.  Each fulfilled
    HTLC is one that was in flight under the id the update names, with the hash of
    its preimage, and its amount is credited to the side it was offered to; each
    failed one is credited back to the side that offered it; each added one is debited
    from its sender and is in flight afterwards, with those nobody resolved.  So the
    balances and HTLCs add up to what they did, nothing becomes negative, the
    identity, parameters, block day and signatures of the channel are untouched, and
    the counters advance by the number of updates of each side (modulo 2^32). *)
Theorem lcss_next_conserves {HC : Crypto} sm n :
  lcss_next sm = Ok n → Forall update_ok (sm_uncommitted sm) → funds_ok (sm_lcss sm) →
  settled_by (sm_lcss sm) n (sm_uncommitted sm) ∧
  total_funds n = total_funds (sm_lcss sm) ∧ funds_ok n ∧ frame n = frame (sm_lcss sm) ∧
  local_updates n =
    (local_updates (sm_lcss sm) + len (side true (sm_uncommitted sm))) mod 2 ^ 32 ∧
  remote_updates n =
    (remote_updates (sm_lcss sm) + len (side false (sm_uncommitted sm))) mod 2 ^ 32.
Proof.
  intros (t & Ht & ->)%lcss_next_inv HF Hok.
  pose proof (apply_updates_funds _ _ _ Ht) as Hf. pose proof (apply_updates_frame _ _ _ Ht) as Hfr.
  pose proof (apply_updates_settles _ _ _ Ht) as (pi & bi & po & bo & Hs).
  apply apply_updates_funds_ok in Ht; [|done|done].
  split; [exists pi, bi, po, bo; by destruct Hs|].
  split; [done|]. split; [done|]. split; [unfold frame in *; cbn in *; congruence|].
  cbn. unfold next_local_updates, next_remote_updates, count_updates, wrap32.
  rewrite !Zplus_mod_idemp_r. split; [done|]. unfold side. do 3 f_equal.
  f_equal. apply list_filter_iff. by intros [].
Qed.

(** The [Overflow] error is dead code: when the whole channel fits in a
    [u64], no sequence of updates, valid or not, makes the fold overflow. *)
Theorem lcss_next_no_overflow {HC : Crypto} sm :
  Forall update_ok (sm_uncommitted sm) → funds_ok (sm_lcss sm) →
  total_funds (sm_lcss sm) ≤ U64_MAX → lcss_next sm ≠ Err StateOverflow.
Proof.
  intros HF Hok Ht. unfold lcss_next.
  pose proof (apply_updates_no_overflow (sm_uncommitted sm) (set_updates 0 0 (sm_lcss sm)) HF Hok Ht).
  by destruct (apply_updates _ _); cbn.
Qed.

(** Type invariant: a state within its Rust types whose funds fit in [u64]
    folds, under well-typed updates, to such a state. *)
Theorem lcss_next_typed {HC : Crypto} sm n :
  lcss_next sm = Ok n → Forall update_typed (sm_uncommitted sm) → lcss_bounded (sm_lcss sm) →
  lcss_bounded n.
Proof. apply lcss_next_bounded. Qed.

(** C24. The two peers compute mirror images: folding the reversed state with
    every update seen from the other side gives the reverse of the result, and
    fails with the same error when it fails. *)
Theorem lcss_next_mirror {HC : Crypto} sm :
  lcss_next (mirror sm) = lcss_reverse <$> lcss_next sm.
Proof. apply lcss_next_mirror_eq. Qed.

(** C25. Interleaving does not matter: the peers may record the updates of the two
    directions in different relative orders; whenever both folds succeed they
    give the same state, hence the same octets to sign. *)
Theorem lcss_next_interleaving {HC : Crypto} s us vs n1 n2 :
  (∀ b, side b us = side b vs) →
  lcss_next (mkStateManager s us) = Ok n1 → lcss_next (mkStateManager s vs) = Ok n2 → n1 = n2.
Proof.
  intros Hs (t1 & H1 & ->)%lcss_next_inv (t2 & H2 & ->)%lcss_next_inv. cbn in *.
  apply apply_updates_relaxed in H1, H2. rewrite (relaxed_confluence _ _ _ _ _ Hs H1 H2).
  unfold next_local_updates, next_remote_updates; cbn.
  by destruct (count_updates_side _ _ Hs) as [-> ->].
Qed.

(** C12. Cross-signing works: when the host signs the state it folded, the peer,
    folding the same updates from its own side, finds the host's signature valid
    for its own result. *)
Theorem cross_signing {HC : Crypto} {HL : CryptoLaws} sk sm n signed :
  lcss_next sm = Ok n → lcss_sign sk n = Ok signed →
  ∃ peer, lcss_next (mirror sm) = Ok peer ∧
    verify_remote_sig (set_remote_sig (local_sig_of_remote signed) peer) (pk_from_secret_key sk) = true.
Proof.
  intros Hn Hs. exists (lcss_reverse n). split.
  - by rewrite lcss_next_mirror_eq, Hn.
  - pose proof (lcss_sign_verifies _ _ _ Hs) as Hv.
    apply lcss_sign_ok in Hs as (h & _ & ->). exact Hv.
Qed.

(** ** Evaluated examples *)
Module StateExamples.
Import Toy.

Definition preimage : list byte := be_bytes 32 7.
Definition htlc (id amount : Z) : UpdateAddHtlc :=
  mkUpdateAddHtlc (be_bytes 32 1) id amount (Toy.digest preimage) 500 (be_bytes 1366 0) [].
Definition params : InitHostedChannel := mkInitHostedChannel 1000 1 10 1000 0 [].
Definition lcss : LastCrossSignedState :=
  mkLcss true [] params 100 600 400 3 4 [] [] (be_bytes 64 0) (be_bytes 64 0).

Definition us1 : list UncommittedUpdate :=
  [ULocal (PAdd (htlc 4 100)); URemote (PAdd (htlc 5 50)); URemote (PFulfill [] 4 preimage)].
Definition us2 : list UncommittedUpdate :=
  [URemote (PAdd (htlc 5 50)); ULocal (PAdd (htlc 4 100)); URemote (PFulfill [] 4 preimage)].

Definition next : LastCrossSignedState :=
  mkLcss true [] params 100 500 450 4 6 [htlc 5 50] [] (be_bytes 64 0) (be_bytes 64 0).

Lemma us1_next : lcss_next (mkStateManager lcss us1) = Ok next.
Proof. vm_compute. reflexivity. Qed.
Lemma us2_next : lcss_next (mkStateManager lcss us2) = Ok next.
Proof. vm_compute. reflexivity. Qed.

Lemma lcss_next_conserves_witness :
  lcss_next (mkStateManager lcss us1) = Ok next ∧ total_funds next = 1000 ∧ settled_by lcss next us1.
Proof.
  split; [apply us1_next|].
  destruct (lcss_next_conserves (mkStateManager lcss us1) next us1_next) as (Hs & Ht & _);
    [by repeat constructor|by repeat constructor|]. split; [exact Ht|exact Hs].
Defined.

Lemma lcss_next_no_overflow_witness : lcss_next (mkStateManager lcss us1) ≠ Err StateOverflow.
Proof. apply lcss_next_no_overflow; [by repeat constructor|by repeat constructor|vm_compute; done]. Defined.

Lemma lcss_bounded_example : lcss_bounded lcss.
Proof. split; [by apply (bool_decide_unpack _)|vm_compute; done]. Qed.

Lemma us1_typed : Forall update_typed us1.
Proof.
  repeat constructor; try done; by apply (bool_decide_unpack _).
Qed.

Lemma lcss_next_typed_witness : lcss_bounded next.
Proof.
  apply (lcss_next_typed (mkStateManager lcss us1)); [apply us1_next|apply us1_typed|apply lcss_bounded_example].
Defined.

Lemma lcss_next_interleaving_witness :
  us1 ≠ us2 ∧ lcss_next (mkStateManager lcss us1) = lcss_next (mkStateManager lcss us2).
Proof.
  split; [done|]. destruct (lcss_next (mkStateManager lcss us2)) as [n2|] eqn:H2;
    [|vm_compute in H2; discriminate].
  rewrite us1_next. apply (f_equal Ok).
  apply (lcss_next_interleaving lcss us1 us2); [by intros []|apply us1_next|exact H2].
Defined.

Lemma next_signs : ∃ signed, lcss_sign (H := Toy.crypto) Byte.x05 next = Ok signed.
Proof. eexists. vm_compute. reflexivity. Qed.

Lemma cross_signing_witness :
  ∃ signed peer, lcss_sign (H := Toy.crypto) Byte.x05 next = Ok signed ∧
    lcss_next (mirror (mkStateManager lcss us1)) = Ok peer ∧
    verify_remote_sig (set_remote_sig (local_sig_of_remote signed) peer) (pk_from_secret_key (Crypto := Toy.crypto) Byte.x05) = true.
Proof.
  destruct next_signs as [signed Hs].
  destruct (cross_signing (HC := Toy.crypto) Byte.x05 (mkStateManager lcss us1) next signed us1_next Hs) as (peer & H1 & H2).
  exists signed, peer. split; [done|]. split; [exact H1|exact H2].
Defined.

End StateExamples.
