(* ===== verification/Store.v ===== *)
(** * The datastore ([src/store.rs])

    The persisted records, the [Store] interface with generation-based
    compare-and-swap, its contract ([StoreLaws]), the typed JSON helpers and the
    in-memory implementation.  Values are opaque: the store never looks inside
    them, and [serde_json] (with the derived instances it drives) is the
    interface [Json]. *)
From S2P Require Import Prelude Text Bytes Codecs Crypto Config Lcss State.
From stdpp Require Import options.
From stdpp Require Import sorting.
From Stdlib Require Import Ascii.
#[local] Open Scope Z_scope.

Definition key : Type := list string.

Inductive StoreError : Type :=
| KeyNotFound (k : key)
| GenerationMismatch (expected actual : Z)
| AlreadyExists (k : key)
| Backend (msg : string).

Record GenerationValue (V : Type) : Type := mkGenerationValue {
  gv_generation : Z;
  gv_bytes : V;
}.
Arguments mkGenerationValue {V}.
Arguments gv_generation {V}.
Arguments gv_bytes {V}.

(** ** Persisted records *)

Record ChannelRoutingPolicy : Type := mkChannelRoutingPolicy {
  crp_fee_base_msat : Z;
  crp_fee_proportional_millionths : Z;
  crp_cltv_expiry_delta : Z;
  crp_htlc_maximum_msat : Z;
}.

Definition ChannelRoutingPolicy_from_policy (p : ChannelPolicy) : ChannelRoutingPolicy :=
  {| crp_fee_base_msat := cp_fee_base_msat p;
     crp_fee_proportional_millionths := cp_fee_proportional_millionths p;
     crp_cltv_expiry_delta := cp_cltv_expiry_delta p;
     crp_htlc_maximum_msat := cp_channel_capacity_msat p |}.

Record ChannelData : Type := mkChannelData {
  cd_lcss : LastCrossSignedState;
  cd_uncommitted : list UncommittedUpdate;
  cd_local_errors : list string;
  cd_remote_errors : list string;
  cd_suspended : bool;
  cd_proposed_override : option LastCrossSignedState;
  cd_last_refund_scriptpubkey : list byte;
  cd_established : bool;
  cd_accepting_resize_sat : option Z;
  cd_routing_policy : option ChannelRoutingPolicy;
  cd_channel_update_pending : bool;
}.

Record ForwardLink : Type := mkForwardLink {
  fl_incoming_scid : Z;
  fl_incoming_htlc_id : Z;
  fl_outgoing_scid : Z;
  fl_outgoing_htlc_id : Z;
  fl_upstream_cltv_expiry : option Z;
  fl_hosted_commit_deadline_unix : option Z;
  fl_payment_hash : list byte;
  fl_shared_secret : option (list byte);
}.

Record Meta : Type := mkMeta {
  meta_next_ledger_seq : Z;
  meta_current_block_height : Z;
}.

(** ** The interface *)

Class Store (S V : Type) : Type := {
  st_get : key → S → result StoreError (GenerationValue V);
  st_exists : key → S → result StoreError bool;
  st_create : key → V → S → result StoreError unit * S;
  st_update : key → V → Z → S → result StoreError unit * S;
  st_delete : key → S → result StoreError unit * S;
  st_list : key → S → result StoreError (list key);
}.

(** Keys as the program builds them: non-empty paths whose parts have no [/]. *)
Definition key_ok (k : key) : Prop := k ≠ [] ∧ Forall (λ p, lacks "/"%char p = true) k.

#[global] Instance key_ok_dec k : Decision (key_ok k).
Proof. unfold key_ok; apply _. Defined.

(** [serde_json::to_vec] and [serde_json::from_slice] at one type. *)
Class Json (V A : Type) : Type := {
  to_vec : A → result string V;
  from_slice : V → result string A;
}.

Class JsonLaws (V A : Type) `{Json V A} : Prop := {
  json_roundtrip a : ∃ v, to_vec a = Ok v ∧ from_slice v = Ok a;
}.

(** What a store holds: a partial map from keys to values with a generation. *)
Class StoreView (S V : Type) : Type := view : S → key → option (Z * V).

(** The contract of a store: its view is a partial map on well-formed keys, and the
    generation counts the updates since creation. *)
Class StoreLaws (S V : Type) `{Store S V} : Type := {
  laws_view :: StoreView S V;
  st_get_spec k s : key_ok k →
    st_get k s = match view s k with
                 | Some (g, v) => Ok (mkGenerationValue g v)
                 | None => Err (KeyNotFound k)
                 end;
  st_exists_spec k s : key_ok k → st_exists k s = Ok (bool_decide (is_Some (view s k)));
  st_create_spec k v s : key_ok k →
    match view s k with
    | Some _ => st_create k v s = (Err (AlreadyExists k), s)
    | None => ∃ s', st_create k v s = (Ok tt, s') ∧
        ∀ k', key_ok k' → view s' k' = if decide (k' = k) then Some (0, v) else view s k'
    end;
  st_update_spec k v g s : key_ok k →
    match view s k with
    | None => st_update k v g s = (Err (KeyNotFound k), s)
    | Some (g0, _) =>
        if decide (g0 = g) then
          ∃ s', st_update k v g s = (Ok tt, s') ∧
            ∀ k', key_ok k' → view s' k' = if decide (k' = k) then Some (wrap64 (g + 1), v) else view s k'
        else st_update k v g s = (Err (GenerationMismatch g g0), s)
    end;
  st_delete_spec k s : key_ok k →
    ∃ s', st_delete k s = (Ok tt, s') ∧
      ∀ k', key_ok k' → view s' k' = if decide (k' = k) then None else view s k';
  st_list_spec p s : key_ok p → ∃ cs, st_list p s = Ok cs ∧ NoDup cs ∧
    ∀ c, c ∈ cs ↔ ∃ seg rest, c = p ++ [seg] ∧ key_ok (p ++ seg :: rest) ∧
                              is_Some (view s (p ++ seg :: rest));
}.

(** *** A store that others write to

    Between two operations of a task anything may happen to the store that [others]
    allows, and a write may not happen at all.  Reads are still true. *)
Definition stored_as {S V} `{StoreView S V} (k : key) (o : option (Z * V)) (s s' : S) : Prop :=
  ∀ k', key_ok k' → view s' k' = if decide (k' = k) then o else view s k'.

Inductive shared_write {S V} `{StoreView S V} (others : S → S → Prop) (k : key)
    (allowed : option (Z * V) → Prop) (s s' : S) : Prop :=
| write_lost : others s s' → shared_write others k allowed s s'
| write_done s1 s2 o : others s s1 → allowed o → stored_as k o s1 s2 → others s2 s' →
    shared_write others k allowed s s'.

Class SharedStore (S V : Type) `{Store S V} `{StoreView S V} : Type := {
  others : S → S → Prop;
  shared_get k s : key_ok k →
    st_get k s = match view s k with
                 | Some (g, v) => Ok (mkGenerationValue g v)
                 | None => Err (KeyNotFound k)
                 end;
  shared_list p s : key_ok p → ∃ cs, st_list p s = Ok cs ∧
    ∀ c, c ∈ cs → ∃ seg rest, c = p ++ [seg] ∧ key_ok (p ++ seg :: rest);
  shared_create k v s : key_ok k →
    shared_write others k (λ o, ∃ g, o = Some (g, v)) s (st_create k v s).2;
  shared_update k v g s : key_ok k →
    shared_write others k (λ o, ∃ g, o = Some (g, v)) s (st_update k v g s).2;
  shared_delete k s : key_ok k → shared_write others k (λ o, o = None) s (st_delete k s).2;
}.

(** A store one has to oneself is one of them. *)
#[global] Instance laws_shared {S V} {HS : Store S V} {HL : StoreLaws S V} : SharedStore S V.
Proof.
  refine {| others := eq |}.
  - intros k s Hk. by apply st_get_spec.
  - intros p s Hp. destruct (st_list_spec p s Hp) as (cs & Hl & _ & Hcs). exists cs. split; [done|].
    intros c (seg & rest & -> & Hk & _)%Hcs. eauto.
  - intros k v s Hk. pose proof (st_create_spec k v s Hk) as Hc. destruct (view s k).
    + rewrite Hc. by apply write_lost.
    + destruct Hc as (s' & -> & Hs). eapply write_done; [done|by eexists|exact Hs|done].
  - intros k v g s Hk. pose proof (st_update_spec k v g s Hk) as Hc. destruct (view s k) as [[g0 v0]|].
    + case_decide.
      * destruct Hc as (s' & -> & Hs). eapply write_done; [done|by eexists|exact Hs|done].
      * rewrite Hc. by apply write_lost.
    + rewrite Hc. by apply write_lost.
  - intros k s Hk. destruct (st_delete_spec k s Hk) as (s' & -> & Hs).
    eapply write_done; [done|reflexivity|exact Hs|done].
Defined.

(** ** Typed helpers *)
Section Typed.
Context {S V : Type} `{Store S V}.

Definition get_json {A} `{Json V A} (k : key) (s : S) : result StoreError (A * Z) :=
  gv ← st_get k s;
  val ← map_err (λ e, Backend ("deserialize error: " +:+ e)) (from_slice (gv_bytes gv));
  Ok (val, gv_generation gv).

Definition create_json {A} `{Json V A} (k : key) (value : A) (s : S)
    : result StoreError unit * S :=
  match to_vec value with
  | Err e => (Err (Backend ("serialize error: " +:+ e)), s)
  | Ok bytes => st_create k bytes s
  end.

Definition update_json {A} `{Json V A} (k : key) (value : A) (expected_generation : Z) (s : S)
    : result StoreError unit * S :=
  match to_vec value with
  | Err e => (Err (Backend ("serialize error: " +:+ e)), s)
  | Ok bytes => st_update k bytes expected_generation s
  end.

(** The retry loop of [cas_json], [attempts] of [max_retries] left.  Between the
    read and the write of an attempt other tasks may run: [env] is what they do
    to the store then. *)
Fixpoint cas_json_loop {A R} `{Json V A} (attempts : nat) (env : nat → S → S) (k : key)
    (f : A → result StoreError (A * R)) (s : S) : result StoreError R * S :=
  match attempts with
  | O => (Err (Backend "CAS retries exhausted"), s)
  | Datatypes.S attempts' =>
      match get_json (A := A) k s with
      | Err (KeyNotFound _) => (Err (KeyNotFound k), s)
      | Err e => (Err e, s)
      | Ok (val, gen) =>
          match f val with
          | Err e => (Err e, s)
          | Ok (val', r) =>
              match update_json k val' gen (env attempts s) with
              | (Ok _, s') => (Ok r, s')
              | (Err (GenerationMismatch x y), s') =>
                  if (1 <? Z.of_nat attempts) then cas_json_loop attempts' env k f s'
                  else (Err (GenerationMismatch x y), s')
              | (Err e, s') => (Err e, s')
              end
          end
      end
  end.

Definition cas_json {A R} `{Json V A} (env : nat → S → S) (k : key)
    (f : A → result StoreError (A * R)) (s : S) : result StoreError R * S :=
  cas_json_loop 10 env k f s.

(** The loop of [delete_subtree]; the top of the [pending] stack is the head of
    the list.  [None]: out of fuel. *)
Fixpoint delete_loop (fuel : nat) (pending : list (key * bool)) (deleted : Z) (s : S)
    : option (result StoreError Z * S) :=
  match fuel with
  | O => None
  | Datatypes.S fuel =>
      match pending with
      | [] => Some (Ok deleted, s)
      | (k, true) :: pending =>
          match st_exists k s with
          | Err e => Some (Err e, s)
          | Ok false => delete_loop fuel pending deleted s
          | Ok true =>
              match st_delete k s with
              | (Ok _, s) => delete_loop fuel pending (deleted + 1) s
              | (Err (KeyNotFound _), s) => delete_loop fuel pending deleted s
              | (Err e, s) => Some (Err e, s)
              end
          end
      | (k, false) :: pending =>
          match st_list k s with
          | Err e => Some (Err e, s)
          | Ok children =>
              delete_loop fuel (reverse ((λ c, (c, false)) <$> children) ++ (k, true) :: pending)
                deleted s
          end
      end
  end.

Definition delete_subtree (fuel : nat) (root : key) (s : S) : option (result StoreError Z * S) :=
  delete_loop fuel [(root, false)] 0 s.

End Typed.

(** ** The in-memory implementation *)

Record MemoryEntry (V : Type) : Type := mkMemoryEntry {
  me_generation : Z;
  me_bytes : V;
}.
Arguments mkMemoryEntry {V}.
Arguments me_generation {V}.
Arguments me_bytes {V}.

Abbreviation MemoryStore V := (gmap string (MemoryEntry V)).

Definition key_to_string (k : key) : string := join_with "/"%char k.

(** The order of [BTreeMap<String, _>]. *)
Fixpoint string_le (a b : string) : bool :=
  match a, b with
  | EmptyString, _ => true
  | String _ _, EmptyString => false
  | String x a, String y b =>
      if ascii_Z x <? ascii_Z y then true
      else if ascii_Z y <? ascii_Z x then false
      else string_le a b
  end.

Definition btree_keys {V} (m : MemoryStore V) : list string :=
  merge_sort (λ a b, Is_true (string_le a b)) (map_to_list m).*1.

Section Memory.
Context {V : Type}.
Implicit Types (m : MemoryStore V) (k : key).

Definition mem_get k m : result StoreError (GenerationValue V) :=
  match m !! key_to_string k with
  | Some e => Ok (mkGenerationValue (me_generation e) (me_bytes e))
  | None => Err (KeyNotFound k)
  end.

Definition mem_exists k m : result StoreError bool :=
  Ok (bool_decide (is_Some (m !! key_to_string k))).

Definition mem_create k (v : V) m : result StoreError unit * MemoryStore V :=
  let ks := key_to_string k in
  match m !! ks with
  | Some _ => (Err (AlreadyExists k), m)
  | None => (Ok tt, <[ks := mkMemoryEntry 0 v]> m)
  end.

Definition mem_update k (v : V) (expected_generation : Z) m
    : result StoreError unit * MemoryStore V :=
  let ks := key_to_string k in
  match m !! ks with
  | Some e =>
      if negb (me_generation e =? expected_generation) then
        (Err (GenerationMismatch expected_generation (me_generation e)), m)
      else (Ok tt, <[ks := mkMemoryEntry (wrap64 (me_generation e + 1)) v]> m)
  | None => (Err (KeyNotFound k), m)
  end.

Definition mem_delete k m : result StoreError unit * MemoryStore V :=
  (Ok tt, delete (key_to_string k) m).

(** One iteration of the loop of [list]. *)
Definition mem_list_step (prefix : key) (prefix_str : string) (acc : list key) (ks : string)
    : list key :=
  match str_strip_prefix prefix_str ks with
  | Some rest =>
      match split_on "/"%char rest with
      | part :: _ =>
          let child := prefix ++ [part] in
          if decide (child ∈ acc) then acc else acc ++ [child]
      | [] => acc
      end
  | None => acc
  end.

Definition mem_list (prefix : key) m : result StoreError (list key) :=
  let prefix_str := match prefix with [] => "" | _ => key_to_string prefix +:+ "/" end in
  Ok (fold_left (mem_list_step prefix prefix_str) (btree_keys m) []).

#[global] Instance memory_store : Store (MemoryStore V) V := {|
  st_get := mem_get; st_exists := mem_exists; st_create := mem_create;
  st_update := mem_update; st_delete := mem_delete; st_list := mem_list |}.

End Memory.

(** ** The in-memory store honours the contract *)

Lemma key_to_string_inj k1 k2 : key_ok k1 → key_ok k2 → key_to_string k1 = key_to_string k2 → k1 = k2.
Proof.
  unfold key_to_string. intros [Hn1 H1] [Hn2 H2] Heq.
  rewrite <-(split_on_join _ k1 Hn1 H1), <-(split_on_join _ k2 Hn2 H2). by rewrite Heq.
Qed.

Lemma key_ok_app p q : key_ok p → Forall (λ s, lacks "/"%char s = true) q → key_ok (p ++ q).
Proof. intros [Hn H] Hq. split; [by destruct p|]. by apply Forall_app. Qed.

Section MemoryFacts.
Context {V : Type}.
Implicit Types (m : MemoryStore V) (k : key).

Definition mem_view m k : option (Z * V) :=
  (λ e, (me_generation e, me_bytes e)) <$> m !! key_to_string k.

Lemma mem_view_insert m k e k' : key_ok k → key_ok k' →
  mem_view (<[key_to_string k := e]> m) k' =
    if decide (k' = k) then Some (me_generation e, me_bytes e) else mem_view m k'.
Proof.
  intros Hk Hk'. unfold mem_view. case_decide as Heq.
  - subst. by rewrite lookup_insert_eq.
  - rewrite lookup_insert_ne; [done|]. intros H. by apply Heq, key_to_string_inj.
Qed.

Lemma mem_view_delete m k k' : key_ok k → key_ok k' →
  mem_view (delete (key_to_string k) m) k' = if decide (k' = k) then None else mem_view m k'.
Proof.
  intros Hk Hk'. unfold mem_view. case_decide as Heq.
  - subst. by rewrite lookup_delete_eq.
  - rewrite lookup_delete_ne; [done|]. intros H. by apply Heq, key_to_string_inj.
Qed.

Lemma elem_of_btree_keys m s : s ∈ btree_keys m ↔ is_Some (m !! s).
Proof.
  unfold btree_keys. rewrite merge_sort_Permutation, list_elem_of_fmap. split.
  - intros ([k e] & -> & He%elem_of_map_to_list). cbn. rewrite He. by eexists.
  - intros [e He]. exists (s, e). by rewrite elem_of_map_to_list.
Qed.

(** The immediate child a stored key contributes below [prefix]. *)
Definition child_of (prefix : key) (prefix_str s : string) : option key :=
  rest ← str_strip_prefix prefix_str s;
  part ← head (split_on "/"%char rest);
  Some (prefix ++ [part]).

Lemma mem_list_step_spec p ps acc s :
  mem_list_step p ps acc s =
    match child_of p ps s with
    | Some c => if decide (c ∈ acc) then acc else acc ++ [c]
    | None => acc
    end.
Proof.
  unfold mem_list_step, child_of. destruct (str_strip_prefix ps s) as [rest|]; [|done].
  cbn. by destruct (split_on "/"%char rest).
Qed.

Lemma mem_list_fold p ps ss acc :
  NoDup acc →
  NoDup (fold_left (mem_list_step p ps) ss acc) ∧
  ∀ c, c ∈ fold_left (mem_list_step p ps) ss acc ↔
       c ∈ acc ∨ ∃ s, s ∈ ss ∧ child_of p ps s = Some c.
Proof.
  revert acc. induction ss as [|s ss IH]; intros acc Hnd; cbn [fold_left].
  - split; [done|]. intros c. set_solver.
  - assert (NoDup (mem_list_step p ps acc s)) as Hnd'.
    { rewrite mem_list_step_spec. repeat case_match; try done.
      apply NoDup_app. split_and!; [done|set_solver|apply NoDup_singleton]. }
    destruct (IH _ Hnd') as [H1 H2]. split; [done|]. intros c. rewrite H2, mem_list_step_spec.
    destruct (child_of p ps s) as [c0|] eqn:Hc; [case_decide|]; set_solver.
Qed.

Lemma child_of_spec p s c : key_ok p →
  child_of p (key_to_string p +:+ "/") s = Some c ↔
  ∃ seg rest, c = p ++ [seg] ∧ key_ok (p ++ seg :: rest) ∧ key_to_string (p ++ seg :: rest) = s.
Proof.
  intros Hp. unfold child_of. split.
  - destruct (str_strip_prefix _ s) as [r|] eqn:Hr; [|done]. cbn.
    pose proof (split_on_parts "/"%char r) as Hparts. pose proof (join_with_split "/"%char r) as Hj.
    destruct (split_on "/"%char r) as [|seg rest]; [done|]. cbn. intros [= <-].
    exists seg, rest. split; [done|]. split; [by apply key_ok_app|].
    apply str_strip_prefix_some in Hr as ->. unfold key_to_string.
    rewrite join_with_app, Hj by (done || apply Hp). by rewrite <-string_app_assoc.
  - intros (seg & rest & -> & Hk & <-). unfold key_to_string in *.
    rewrite join_with_app by (done || apply Hp).
    rewrite (string_app_char _ _ (join_with _ _)), str_strip_prefix_app. cbn -[join_with].
    destruct Hk as [_ Hk]. apply Forall_app in Hk as [_ Hk].
    by rewrite split_on_join.
Qed.

#[global] Instance memory_store_laws : StoreLaws (MemoryStore V) V.
Proof.
  refine {| laws_view := mem_view |}; unfold view.
  - intros k s _. cbn. unfold mem_get, mem_view. by destruct (s !! _).
  - intros k s _. cbn. unfold mem_exists, mem_view. f_equal. apply bool_decide_ext.
    by rewrite fmap_is_Some.
  - intros k v s Hk. cbn. unfold mem_create. unfold mem_view at 1. destruct (s !! _); cbn; [done|].
    eexists. split; [reflexivity|]. intros k' Hk'. by rewrite mem_view_insert.
  - intros k v g s Hk. cbn. unfold mem_update. unfold mem_view at 1.
    destruct (s !! key_to_string k) as [e|]; cbn; [|done]. case_decide as Hg.
    + rewrite (proj2 (Z.eqb_eq _ _) Hg). cbn. eexists. split; [reflexivity|].
      intros k' Hk'. rewrite mem_view_insert by done. by rewrite Hg.
    + rewrite (proj2 (Z.eqb_neq _ _) Hg). done.
  - intros k s Hk. cbn. unfold mem_delete. eexists. split; [reflexivity|].
    intros k' Hk'. by apply mem_view_delete.
  - intros p s Hp. cbn. unfold mem_list. eexists. split; [reflexivity|].
    destruct p as [|p0 p']; [by destruct Hp|]. set (p := p0 :: p') in *.
    destruct (mem_list_fold p (key_to_string p +:+ "/") (btree_keys s) []) as [H1 H2]; [constructor|].
    split; [done|]. intros c. rewrite H2. split.
    + intros [Hc|(t & Ht%elem_of_btree_keys & Hc)]; [by apply not_elem_of_nil in Hc|].
      apply child_of_spec in Hc as (seg & rest & -> & Hk & <-); [|done].
      exists seg, rest. split; [done|]. split; [done|]. unfold mem_view. by rewrite fmap_is_Some.
    + intros (seg & rest & -> & Hk & Hv). right. exists (key_to_string (p ++ seg :: rest)).
      unfold mem_view in Hv. rewrite fmap_is_Some in Hv. split; [by apply elem_of_btree_keys|].
      apply child_of_spec; [done|]. by exists seg, rest.
Defined.

End MemoryFacts.

(** ** Consequences of the contract *)
Section Contract.
Context {S V : Type} {HS : Store S V} {HL : StoreLaws S V}.
Implicit Types (s : S) (k p : key).

(** The keys at or below [p]. *)
Definition below (p k : key) : Prop := p `prefix_of` k.

Lemma key_ok_child p seg rest : key_ok (p ++ seg :: rest) → key_ok (p ++ [seg]).
Proof.
  intros [_ H]. apply Forall_app in H as [? H]. apply Forall_cons in H as [? _].
  split; [by destruct p|]. apply Forall_app; auto.
Qed.

Lemma below_child p k :
  below p k ↔ k = p ∨ ∃ seg rest, k = p ++ seg :: rest.
Proof.
  split.
  - intros [q ->]. destruct q as [|seg q]; [left; by rewrite app_nil_r|right; by eexists _, _].
  - intros [-> | (seg & rest & ->)]; [done|by eexists].
Qed.

(** The visit of one node, given that its children can be visited. *)
Definition visits (p : key) (s : S) : Prop :=
  ∀ rest deleted, ∃ n s' deleted',
    (∀ fuel, delete_loop (n + fuel) ((p, false) :: rest) deleted s =
             delete_loop fuel rest deleted' s') ∧
    ∀ k, key_ok k → view s' k = if decide (below p k) then None else view s k.

Lemma delete_loop_children (cs : list key) s rest deleted :
  (∀ c s', c ∈ cs → (∀ k, key_ok k → is_Some (view s' k) → is_Some (view s k)) → visits c s') →
  ∃ n s' deleted',
    (∀ fuel, delete_loop (n + fuel) (((λ c, (c, false)) <$> cs) ++ rest) deleted s =
             delete_loop fuel rest deleted' s') ∧
    ∀ k, key_ok k →
      view s' k = if decide (Exists (λ c, below c k) cs) then None else view s k.
Proof.
  revert s deleted. induction cs as [|c cs IH]; intros s deleted Hv.
  - exists 0%nat, s, deleted. split; [done|]. intros k _. rewrite decide_False; [done|].
    inversion 1.
  - destruct (Hv c s) with (rest := ((λ c, (c, false)) <$> cs) ++ rest) (deleted := deleted)
      as (n1 & s1 & d1 & H1 & Hv1); [set_solver|done|].
    destruct (IH s1 d1) as (n2 & s2 & d2 & H2 & Hv2).
    { intros c' s' Hc' Hs'. apply Hv; [set_solver|]. intros k Hk Hsome.
      specialize (Hs' k Hk Hsome). rewrite Hv1 in Hs' by done. case_decide; [|done].
      by destruct Hs'. }
    exists (n1 + n2)%nat, s2, d2. split.
    + intros fuel. rewrite <-Nat.add_assoc. cbn [fmap list_fmap app]. by rewrite H1, H2.
    + intros k Hk. rewrite Hv2, Hv1 by done.
      destruct (decide (Exists (λ c, below c k) cs)) as [He|He];
        [by rewrite decide_True by by right|].
      destruct (decide (below c k)); [by rewrite decide_True by by left|].
      rewrite decide_False; [done|]. rewrite Exists_cons. tauto.
Qed.

(** Listing the children, visiting them, then the node itself. *)
Lemma visits_node p s :
  key_ok p →
  (∀ c s', (∃ seg rest, c = p ++ [seg] ∧ key_ok (p ++ seg :: rest) ∧
                        is_Some (view s (p ++ seg :: rest))) →
     (∀ k, key_ok k → is_Some (view s' k) → is_Some (view s k)) → visits c s') →
  visits p s.
Proof.
  intros Hp Hv rest deleted. destruct (st_list_spec p s Hp) as (cs & Hcs & _ & Hin).
  destruct (delete_loop_children (reverse cs) s ((p, true) :: rest) deleted) as (n & s1 & d1 & H1 & Hv1).
  { intros c s' Hc. apply Hv, Hin. by rewrite elem_of_reverse in Hc. }
  assert (∀ k, key_ok k → k ≠ p → view s1 k = if decide (below p k) then None else view s k) as Hbelow.
  { intros k Hk Hne. rewrite Hv1 by done. destruct (decide (below p k)) as [Hb|Hb].
    - case_decide as He; [done|]. destruct (view s k) eqn:Hs; [|done]. exfalso. apply He.
      apply below_child in Hb as [->|(seg & r & ->)]; [done|].
      apply Exists_exists. exists (p ++ [seg]). split.
      + rewrite elem_of_reverse. apply Hin. exists seg, r. by rewrite Hs.
      + exists r. by rewrite <-app_assoc.
    - case_decide as He; [|done]. exfalso. apply Exists_exists in He as (c & Hc & Hck).
      rewrite elem_of_reverse in Hc. apply Hin in Hc as (seg & r & -> & _).
      apply Hb. destruct Hck as [q ->]. exists (seg :: q). by rewrite <-app_assoc. }
  destruct (st_delete_spec p s1 Hp) as (s2 & Hdel & Hv2).
  assert (∀ fuel, delete_loop (Datatypes.S (n + fuel)) ((p, false) :: rest) deleted s =
                  delete_loop fuel ((p, true) :: rest) d1 s1) as Hstep.
  { intros fuel. cbn [delete_loop]. rewrite Hcs, <-fmap_reverse. apply H1. }
  destruct (decide (is_Some (view s1 p))) as [Hsome|Hnone].
  - exists (Datatypes.S (n + 1)), s2, (d1 + 1). split.
    + intros fuel. cbn [Nat.add]. rewrite <-Nat.add_assoc. rewrite Hstep. cbn [delete_loop Nat.add].
      rewrite st_exists_spec by done. rewrite bool_decide_true by done. by rewrite Hdel.
    + intros k Hk. rewrite Hv2 by done. case_decide as Hkp.
      * subst. by rewrite decide_True.
      * by apply Hbelow.
  - exists (Datatypes.S (n + 1)), s1, d1. split.
    + intros fuel. cbn [Nat.add]. rewrite <-Nat.add_assoc. rewrite Hstep. cbn [delete_loop Nat.add].
      rewrite st_exists_spec by done. by rewrite bool_decide_false.
    + intros k Hk. destruct (decide (k = p)) as [->|Hkp]; [|by apply Hbelow].
      rewrite decide_True by done. by apply eq_None_not_Some.
Qed.

Lemma visits_depth d p s :
  key_ok p →
  (∀ k, key_ok k → below p k → is_Some (view s k) → (length k ≤ length p + d)%nat) →
  visits p s.
Proof.
  revert p s. induction d as [|d IHd]; intros p s Hp Hd; apply visits_node; try done;
    intros c s' (seg & r & -> & Hk & Hsome) Hs'.
  - pose proof (Hd _ Hk (ex_intro _ (seg :: r) eq_refl) Hsome) as Hl.
    rewrite length_app in Hl. cbn in Hl. lia.
  - apply IHd; [by eapply key_ok_child|]. intros k Hkk [q ->] Hsk.
    rewrite <-app_assoc in Hkk, Hsk. cbn in Hkk, Hsk.
    pose proof (Hd _ Hkk (ex_intro _ (seg :: q) eq_refl) (Hs' _ Hkk Hsk)) as Hl.
    rewrite !length_app in *. cbn in *. lia.
Qed.

(** Two writers that read the same generation: at most one of their updates is
    applied. *)
Lemma update_exclusive k s g v0 v1 v2 s1 :
  key_ok k → 0 ≤ g < 2 ^ 64 → view s k = Some (g, v0) → st_update k v1 g s = (Ok tt, s1) →
  ∃ g', g' ≠ g ∧ st_update k v2 g s1 = (Err (GenerationMismatch g g'), s1).
Proof.
  intros Hk Hg Hv Hu. pose proof (st_update_spec k v1 g s Hk) as Hspec. rewrite Hv in Hspec.
  rewrite decide_True in Hspec by done. destruct Hspec as (s' & Hu' & Hv').
  rewrite Hu in Hu'. injection Hu' as <-.
  pose proof (st_update_spec k v2 g s1 Hk) as H2. rewrite Hv', decide_True in H2 by done.
  assert (wrap64 (g + 1) ≠ g) as Hne.
  { unfold wrap64. intros Heq. pose proof (Z.div_mod (g + 1) (2 ^ 64)). lia. }
  rewrite decide_False in H2 by done. eauto.
Qed.

(** One attempt of the loop is a read of [k] in [s0] and a write over [s1]. *)
Lemma cas_json_loop_inv {A R} {J : Json V A} n env k (f : A → result StoreError (A * R)) s r s' :
  key_ok k → cas_json_loop n env k f s = (Ok r, s') →
  ∃ i s0 g v a a' w, view s0 k = Some (g, v) ∧ from_slice v = Ok a ∧ f a = Ok (a', r) ∧
    to_vec a' = Ok w ∧ st_update k w g (env i s0) = (Ok tt, s').
Proof.
  intros Hk. revert s. induction n as [|n IH]; intros s Hr; cbn [cas_json_loop] in Hr; [done|].
  unfold get_json in Hr. rewrite st_get_spec in Hr by done.
  destruct (view s k) as [[g v]|] eqn:Hv; cbn in Hr; [|done].
  destruct (from_slice v) as [a|] eqn:Ha; cbn in Hr; [|done].
  destruct (f a) as [[a' r']|] eqn:Hf; [|done].
  unfold update_json in Hr. destruct (to_vec a') as [w|] eqn:Hw; [|done].
  destruct (st_update k w g (env (Datatypes.S n) s)) as [[[]|[| | |]] s1] eqn:Hu; try done.
  - injection Hr as -> ->. by exists (Datatypes.S n), s, g, v, a, a', w.
  - case_match; [by eapply IH|done].
Qed.

End Contract.

(** Without interference the first attempt decides. *)
Lemma cas_json_quiet {S V A R} {HS : Store S V} {HL : StoreLaws S V} {J : Json V A} {JL : JsonLaws V A}
    k (f : A → result StoreError (A * R)) (s : S) : key_ok k →
  (∃ e, cas_json (λ _ s, s) k f s = (Err e, s)) ∨
  ∃ g v a a' r v' s', cas_json (λ _ s, s) k f s = (Ok r, s') ∧ view s k = Some (g, v) ∧
    from_slice v = Ok a ∧ f a = Ok (a', r) ∧ to_vec a' = Ok v' ∧
    ∀ k', key_ok k' → view s' k' = if decide (k' = k) then Some (wrap64 (g + 1), v') else view s k'.
Proof.
  intros Hk. unfold cas_json. cbn [cas_json_loop]. unfold get_json. rewrite st_get_spec by done.
  destruct (view s k) as [[g v]|] eqn:Hv; cbn; [|left; by eexists].
  destruct (from_slice v) as [a|] eqn:Ha; cbn; [|left; by eexists].
  destruct (f a) as [[a' r]|] eqn:Hf; [|left; by eexists]. right.
  destruct (json_roundtrip a') as (v' & Hto & _). unfold update_json. rewrite Hto.
  pose proof (st_update_spec k v' g s Hk) as Hspec. rewrite Hv, decide_True in Hspec by done.
  destruct Hspec as (s' & -> & Hs'). by exists g, v, a, a', r, v', s'.
Qed.

Lemma memory_depth {V} (m : MemoryStore V) :
  ∃ d, ∀ k, key_ok k → is_Some (mem_view m k) → (length k ≤ d)%nat.
Proof.
  assert (∀ ss : list string, ∃ d, ∀ s, s ∈ ss → (length (split_on "/"%char s) ≤ d)%nat) as Hd.
  { induction ss as [|s ss [d IH]]; [exists 0%nat; intros s Hs; by apply not_elem_of_nil in Hs|].
    exists (length (split_on "/"%char s) + d)%nat.
    intros t [->|Ht]%elem_of_cons; [lia|]. specialize (IH t Ht). lia. }
  destruct (Hd (btree_keys m)) as [d Hbound]. exists d. intros k [Hn Hk] Hsome.
  unfold mem_view in Hsome. rewrite fmap_is_Some in Hsome. apply elem_of_btree_keys, Hbound in Hsome.
  unfold key_to_string in Hsome. by rewrite split_on_join in Hsome.
Qed.

(** *** What other tasks do to a store *)

Inductive StoreOp (V : Type) : Type :=
| OpCreate (k : key) (v : V)
| OpUpdate (k : key) (v : V) (g : Z)
| OpDelete (k : key).
#[global] Arguments OpCreate {V}.
#[global] Arguments OpUpdate {V}.
#[global] Arguments OpDelete {V}.

Definition run_op {S V} `{Store S V} (s : S) (o : StoreOp V) : S :=
  match o with
  | OpCreate k v => (st_create k v s).2
  | OpUpdate k v g => (st_update k v g s).2
  | OpDelete k => (st_delete k s).2
  end.
Definition run_ops {S V} `{Store S V} (ops : list (StoreOp V)) (s : S) : S := foldl run_op s ops.

(** An operation on some key that does not delete [k]. *)
Definition op_spares {V} (k : key) (o : StoreOp V) : Prop :=
  match o with OpCreate k' _ | OpUpdate k' _ _ => key_ok k' | OpDelete k' => key_ok k' ∧ k' ≠ k end.

Lemma run_op_generation {S V} {HS : Store S V} {HL : StoreLaws S V} k o s g v :
  key_ok k → op_spares k o → view s k = Some (g, v) →
  view (run_op s o) k = Some (g, v) ∨ ∃ v', view (run_op s o) k = Some (wrap64 (g + 1), v').
Proof.
  intros Hk Ho Hv. destruct o as [k' w|k' w g'|k']; cbn in Ho |- *.
  - pose proof (st_create_spec k' w s Ho) as Hc. destruct (view s k') as [gv|] eqn:Hv'; [rewrite Hc; by left|].
    destruct Hc as (s' & -> & Hs'). left. cbn. rewrite Hs' by done. rewrite decide_False; [done|congruence].
  - pose proof (st_update_spec k' w g' s Ho) as Hu. destruct (view s k') as [[g0 v0]|] eqn:Hv'; [|rewrite Hu; by left].
    case_decide as Hg; [subst g0|rewrite Hu; by left]. destruct Hu as (s' & -> & Hs'). cbn. rewrite Hs' by done.
    case_decide as Hkk; [subst k'|by left]. right. exists w. congruence.
  - destruct Ho as [Ho Hne], (st_delete_spec k' s Ho) as (s' & -> & Hs'). left. cbn. rewrite Hs' by done.
    by rewrite decide_False by congruence.
Qed.

(** After [j] successful updates of the key its generation is [j] further. *)
Lemma run_ops_generation {S V} {HS : Store S V} {HL : StoreLaws S V} k ops s g v :
  key_ok k → Forall (op_spares k) ops → view s k = Some (g, v) →
  view (run_ops ops s) k = Some (g, v) ∨
  ∃ j v', 0 < j ≤ len ops ∧ view (run_ops ops s) k = Some (wrap64 (g + j), v').
Proof.
  intros Hk Hops. revert s g v. induction Hops as [|o ops Ho Hops IH]; intros s g v Hv; [by left|].
  cbn. change (foldl run_op (run_op s o) ops) with (run_ops ops (run_op s o)).
  assert (len (o :: ops) = 1 + len ops) as -> by (unfold len; cbn; lia). pose proof (len_nonneg ops).
  destruct (run_op_generation k o s g v Hk Ho Hv) as [H1|[v1 H1]].
  - destruct (IH _ _ _ H1) as [H2|(j & v' & Hj & H2)]; [by left|]. right. exists j, v'. split; [lia|done].
  - right. destruct (IH _ _ _ H1) as [H2|(j & v' & Hj & H2)].
    + exists 1, v1. split; [lia|done].
    + exists (1 + j), v'. split; [lia|]. rewrite H2. do 2 f_equal. unfold wrap64.
      by rewrite Zplus_mod_idemp_l, Z.add_assoc.
Qed.

(** The same generation means the same value. *)
Lemma run_ops_same {S V} {HS : Store S V} {HL : StoreLaws S V} k ops s g v v' :
  key_ok k → Forall (op_spares k) ops → len ops < 2 ^ 64 → view s k = Some (g, v) →
  view (run_ops ops s) k = Some (g, v') → v' = v.
Proof.
  intros Hk Hops Hlen Hv Hv'.
  destruct (run_ops_generation k ops s g v Hk Hops Hv) as [H|(j & v1 & Hj & H)]; [congruence|].
  exfalso. rewrite H in Hv'. injection Hv' as Hg _. unfold wrap64 in Hg.
  pose proof (Z.div_mod (g + j) (2 ^ 64)) as Hd.
  assert (j = 2 ^ 64 * ((g + j) `div` 2 ^ 64)) by lia.
  assert (0 < (g + j) `div` 2 ^ 64) by lia. nia.
Qed.

(** ** Guarantees *)

(** C27. [delete_subtree] terminates and deletes exactly the subtree: on the
    in-memory store some number of iterations suffices, it never fails, every key
    at or below the root is gone and every other key keeps its generation and
    value. *)
Theorem delete_subtree_exact {V} (m : MemoryStore V) root :
  key_ok root →
  ∃ enough n m', (∀ fuel, (enough ≤ fuel)%nat → delete_subtree fuel root m = Some (Ok n, m')) ∧
    ∀ k, key_ok k → mem_view m' k = if decide (root `prefix_of` k) then None else mem_view m k.
Proof.
  intros Hr. destruct (memory_depth m) as [d Hd].
  destruct (visits_depth d root m Hr) with (rest := @nil (key * bool)) (deleted := 0)
    as (n & m' & del & Hloop & Hview).
  { intros k Hk _ Hs. specialize (Hd k Hk Hs). lia. }
  exists (Datatypes.S n), del, m'. split; [|exact Hview]. intros fuel Hf. unfold delete_subtree.
  replace fuel with (n + (fuel - n))%nat by lia. rewrite Hloop.
  destruct (fuel - n)%nat eqn:Hfn; [lia|done].
Qed.

(** Compare-and-swap excludes lost updates: of two writers that read the
    same generation of a key, the second to write is refused and leaves the store
    as it was. *)
Theorem cas_no_lost_update {S V} {HS : Store S V} {HL : StoreLaws S V} k s g v0 v1 v2 s1 :
  key_ok k → 0 ≤ g < 2 ^ 64 → view s k = Some (g, v0) → st_update k v1 g s = (Ok tt, s1) →
  ∃ g', g' ≠ g ∧ st_update k v2 g s1 = (Err (GenerationMismatch g g'), s1).
Proof. apply update_exclusive. Qed.

(** C26. [cas_json] is an atomic read-modify-write among other tasks.  Between each of
    its reads and the write that follows, others may run any number (below 2^64) of the
    store's own operations, on any keys, but do not delete this one.  When [cas_json]
    succeeds, then at the moment of its write the key still held the value [f] was
    applied to, and the write replaced it by [f]'s result under the next generation
    and left every other key as it was: no update of another task is lost.  (Without
    the condition this fails, see [StoreExamples.cas_reborn].) *)
Theorem cas_json_atomic {S V A R} {HS : Store S V} {HL : StoreLaws S V} {J : Json V A}
    env k (f : A → result StoreError (A * R)) s r s' :
  key_ok k →
  (∀ i s0, ∃ ops, env i s0 = run_ops ops s0 ∧ Forall (op_spares k) ops ∧ len ops < 2 ^ 64) →
  cas_json env k f s = (Ok r, s') →
  ∃ t g v a a' w, view t k = Some (g, v) ∧ from_slice v = Ok a ∧ f a = Ok (a', r) ∧
    to_vec a' = Ok w ∧
    ∀ k', key_ok k' → view s' k' = if decide (k' = k) then Some (wrap64 (g + 1), w) else view t k'.
Proof.
  intros Hk Henv (i & s0 & g & v & a & a' & w & Hv & Ha & Hf & Hw & Hu)%cas_json_loop_inv; [|done].
  destruct (Henv i s0) as (ops & He & Hops & Hlen).
  pose proof (st_update_spec k w g (env i s0) Hk) as Hspec.
  destruct (view (env i s0) k) as [[g' v']|] eqn:Hv'; [|rewrite Hu in Hspec; discriminate].
  case_decide as Hg; [subst g'|rewrite Hu in Hspec; discriminate].
  destruct Hspec as (s1 & Hu1 & Hs1). rewrite Hu in Hu1. injection Hu1 as <-.
  pose proof Hv' as Hsame. rewrite He in Hsame.
  rewrite (run_ops_same _ _ _ _ _ _ Hk Hops Hlen Hv Hsame) in Hv'. by exists (env i s0), g, v, a, a', w.
Qed.

Module StoreExamples.

#[export] Instance json_Z : Json Z Z := {| to_vec z := Ok z; from_slice z := Ok z |}.

Definition m0 : MemoryStore Z :=
  {[ "canopus/a" := mkMemoryEntry 0 1; "canopus/b/c" := mkMemoryEntry 4 2; "other" := mkMemoryEntry 0 3 ]}.

Example list_children : st_list ["canopus"] m0 = Ok [["canopus"; "a"]; ["canopus"; "b"]].
Proof. vm_compute. reflexivity. Qed.

Example delete_all : ∃ m, delete_subtree 20 ["canopus"] m0 = Some (Ok 2, m) ∧
  mem_view m ["other"] = Some (0, 3) ∧ mem_view m ["canopus"; "a"] = None.
Proof. eexists. split; [vm_compute; reflexivity|]. by vm_compute. Qed.

Lemma delete_subtree_exact_witness : key_ok ["canopus"] ∧
  ∃ m', mem_view m' ["canopus"; "b"; "c"] = None ∧ mem_view m' ["other"] = Some (0, 3).
Proof.
  assert (key_ok ["canopus"]) as Hk by by apply (bool_decide_unpack _).
  split; [exact Hk|]. destruct (delete_subtree_exact m0 ["canopus"] Hk) as (n & del & m' & _ & Hv).
  exists m'. split.
  - rewrite Hv by (by apply (bool_decide_unpack _)). by rewrite decide_True by (by exists ["b"; "c"]).
  - rewrite Hv by (by apply (bool_decide_unpack _)). rewrite decide_False; [by vm_compute|].
    intros [q Hq]. discriminate Hq.
Defined.

Lemma update_other : ∃ s1, st_update ["other"] 9 0 m0 = (Ok tt, s1).
Proof. eexists. reflexivity. Qed.

Lemma cas_no_lost_update_witness :
  ∃ s1 g', st_update ["other"] 9 0 m0 = (Ok tt, s1) ∧
           st_update ["other"] 8 0 s1 = (Err (GenerationMismatch 0 g'), s1).
Proof.
  destruct update_other as [s1 Hu]. exists s1. destruct (cas_no_lost_update ["other"] m0 0 3 9 8 s1) as (g' & _ & Hu2).
  - by apply (bool_decide_unpack _).
  - lia.
  - by vm_compute.
  - exact Hu.
  - exists g'. split; [exact Hu|exact Hu2].
Defined.

(** Another task increments the value between the first read and write. *)
Definition interfere (i : nat) (s : MemoryStore Z) : MemoryStore Z :=
  if (i =? 10)%nat then (cas_json (λ _ s, s) ["other"] (λ z, Ok (z + 100, tt)) s).2 else s.

Example cas_retries :
  ∃ s', cas_json interfere ["other"] (λ z, Ok (z + 1, z)) m0 = (Ok 103, s') ∧
        mem_view (V := Z) s' ["other"] = Some (2, 104).
Proof. eexists. split; vm_compute; reflexivity. Qed.

(** Another task deletes the key and creates it again with another value, which has
    generation 0 once more: the write goes through and the new value is lost. *)
Definition rebirth (i : nat) (s : MemoryStore Z) : MemoryStore Z :=
  run_ops [OpDelete ["other"]; OpCreate ["other"] 50] s.

Example cas_reborn :
  ∃ s', cas_json rebirth ["other"] (λ z, Ok (z + 1, z)) m0 = (Ok 3, s') ∧
        mem_view (V := Z) s' ["other"] = Some (1, 4).
Proof. eexists. split; vm_compute; reflexivity. Qed.

(** Another task writes 103 between the first read and write. *)
Definition contending (i : nat) (s : MemoryStore Z) : MemoryStore Z :=
  run_ops (if (i =? 10)%nat then [OpUpdate ["other"] 103 0] else []) s.

Lemma cas_contended :
  ∃ s' : MemoryStore Z, cas_json contending ["other"] (λ z, Ok (z + 1, z)) m0 = (Ok 103, s').
Proof. eexists. vm_compute. reflexivity. Qed.

Lemma cas_json_atomic_witness :
  ∃ (s' t : MemoryStore Z) g, cas_json contending ["other"] (λ z, Ok (z + 1, z)) m0 = (Ok 103, s') ∧
    mem_view (V := Z) t ["other"] = Some (g, 103) ∧ mem_view (V := Z) s' ["other"] = Some (wrap64 (g + 1), 104).
Proof.
  destruct cas_contended as [s' Hc]. assert (key_ok ["other"]) as Hk by by apply (bool_decide_unpack _).
  destruct (cas_json_atomic contending ["other"] (λ z, Ok (z + 1, z)) m0 103 s')
    as (t & g & v & a & a' & w & Hv & Ha & Hf & Hw & Hs').
  - exact Hk.
  - intros i s0. exists (if (i =? 10)%nat then [OpUpdate ["other"] 103 0] else []). split; [reflexivity|].
    destruct (i =? 10)%nat; (split; [by repeat constructor|reflexivity]).
  - exact Hc.
  - cbn in Ha, Hw. injection Ha as <-. injection Hf as <- ->. injection Hw as <-.
    exists s', t, g. split; [exact Hc|]. split; [exact Hv|]. specialize (Hs' ["other"] Hk).
    rewrite decide_True in Hs' by done. exact Hs'.
Defined.

End StoreExamples.
