(* ===== verification/Json.v ===== *)
(** * JSON values

    [serde_json::Value] is a third-party type.  What the sources call of it — the
    accessors, the variants the [json!] macro builds and the parser — is an
    argument of the model ([JsonValue]); what the proofs rely on is its documented
    behaviour ([JsonValueLaws]).  [ToyJson] is a concrete choice that satisfies
    every law; the evaluated examples run on it. *)
From S2P Require Import Prelude Text.
From stdpp Require Import options.
#[local] Open Scope Z_scope.

Class JsonValue : Type := {
  Value : Type;
  (** [json!(null)], [json!(b)], [Value::from(n)], [Value::String], arrays and objects *)
  v_null : Value;
  v_bool : bool → Value;
  v_u64 : Z → Value;
  v_i64 : Z → Value;
  v_string : string → Value;
  v_array : list Value → Value;
  v_object : list (string * Value) → Value;
  (** [Value::get] of a name, [Value::as_bool], ... *)
  v_get : string → Value → option Value;
  as_bool : Value → option bool;
  as_u64 : Value → option Z;
  as_str : Value → option string;
  as_array : Value → option (list Value);
  is_null : Value → bool;
  (** [serde_json::from_str::<Value>] *)
  value_from_str : string → result string Value;
}.

(** The entry of an object under a name. *)
Fixpoint field {A} (k : string) (l : list (string * A)) : option A :=
  match l with
  | [] => None
  | (k', v) :: l => if String.eqb k' k then Some v else field k l
  end.

Class JsonValueLaws `{JsonValue} : Prop := {
  get_object k l : NoDup l.*1 → v_get k (v_object l) = field k l;
  get_array k l : v_get k (v_array l) = None;
  get_string k s : v_get k (v_string s) = None;
  as_str_string s : as_str (v_string s) = Some s;
  as_str_u64 n : as_str (v_u64 n) = None;
  as_array_array l : as_array (v_array l) = Some l;
  as_array_object l : as_array (v_object l) = None;
  as_bool_bool b : as_bool (v_bool b) = Some b;
  as_u64_u64 n : u64 n → as_u64 (v_u64 n) = Some n;
  as_u64_string s : as_u64 (v_string s) = None;
  as_u64_range v n : as_u64 v = Some n → u64 n;
  is_null_null : is_null v_null = true;
  is_null_u64 n : is_null (v_u64 n) = false;
  is_null_bool b : is_null (v_bool b) = false;
  is_null_string s : is_null (v_string s) = false;
  is_null_array l : is_null (v_array l) = false;
  is_null_object l : is_null (v_object l) = false;
}.

(** [v.get(k).and_then(Value::as_str)] and its like. *)
Section Accessors.
Context {HJ : JsonValue}.

Definition get_str (k : string) (v : Value) : option string := v_get k v ≫= as_str.
Definition get_u64 (k : string) (v : Value) : option Z := v_get k v ≫= as_u64.
Definition get_bool (k : string) (v : Value) : option bool := v_get k v ≫= as_bool.
Definition get_array_of (k : string) (v : Value) : option (list Value) := v_get k v ≫= as_array.

End Accessors.

(** [Option::or_else]. *)
Definition or_else {A} (o : option A) (o' : option A) : option A :=
  match o with Some a => Some a | None => o' end.

(** Reads a field of an object built by [json!]. *)
Ltac json_get :=
  repeat first
    [ rewrite get_object by (repeat constructor; set_solver)
    | rewrite as_str_string | rewrite as_array_array | rewrite as_bool_bool
    | rewrite as_u64_u64 by done | progress cbn [field String.eqb Ascii.eqb Bool.eqb mbind option_bind] ].

(** ** An executable instance *)
Module ToyJson.

Inductive t : Type :=
| Null
| Bool (b : bool)
| Number (n : Z)
| Str (s : string)
| Array (l : list t)
| Object (l : list (string * t)).

Definition get (k : string) (v : t) : option t :=
  match v with Object l => field k l | _ => None end.

(** Values as a tree, with some parser of texts. *)
Definition json_with (parse : string → result string t) : JsonValue := {|
  Value := t;
  v_null := Null; v_bool := Bool; v_u64 := Number; v_i64 := Number; v_string := Str;
  v_array := Array; v_object := Object;
  v_get := get;
  as_bool v := match v with Bool b => Some b | _ => None end;
  as_u64 v := match v with Number n => if bool_decide (u64 n) then Some n else None | _ => None end;
  as_str v := match v with Str s => Some s | _ => None end;
  as_array v := match v with Array l => Some l | _ => None end;
  is_null v := match v with Null => true | _ => false end;
  value_from_str := parse |}.

#[export] Instance json : JsonValue := json_with (λ _, Err "no text").

Lemma laws_with parse : @JsonValueLaws (json_with parse).
Proof.
  split; try done.
  - intros n Hn. cbn. by rewrite bool_decide_eq_true_2.
  - intros v n. cbn. destruct v; try done. case_bool_decide; naive_solver.
Qed.

#[export] Instance laws : JsonValueLaws := laws_with _.

End ToyJson.
