(* ===== verification/Node.v ===== *)
(** * The node interface ([src/node.rs])

    What the channel logic asks of lightningd, as a type class over the node's
    state, and the mock node the sources test with, as a test sets it up. *)
From S2P Require Import Prelude Bytes Crypto Json.
From stdpp Require Import options.
#[local] Open Scope Z_scope.

Inductive NodeError : Type :=
| Rpc (msg : string)
| NodeNotFound (msg : string)
| Io (msg : string).

Inductive PaymentStatus : Type :=
| Succeeded (preimage : list byte)
| PaymentFailed (failure_onion : list byte)
| Pending
| Unknown.

Inductive HtlcResolution : Type :=
| Resolve (preimage : list byte)
| ResolveFail (failure_onion : list byte)
| FailMessage (code : Z) (data : list byte)
| Continue.

Record SendOnionParams : Type := mkSendOnionParams {
  sop_onion : list byte;
  sop_payment_hash : list byte;
  sop_first_scid : Z;
  sop_first_amount_msat : Z;
  sop_first_delay : Z;
  sop_label : string;
  sop_group_id : Z;
  sop_part_id : Z;
}.

Record NodeInfo `{Crypto} : Type := mkNodeInfo {
  ni_network : string;
  ni_chain_hash : list byte;
  ni_block_height : Z;
  ni_our_pubkey : PublicKey;
}.
Arguments mkNodeInfo {_}.

(** The operations the sources call.  [n_now] is [SystemTime::now()] relative to
    the Unix epoch, in seconds ([None] before it); [n_random_key] is the key a
    fresh onion session draws from the operating system. *)
Class NodeActions (N : Type) `{Crypto} : Type := {
  n_send_custom_msg : PublicKey → list byte → N → result NodeError unit * N;
  n_send_onion : SendOnionParams → N → result NodeError unit * N;
  n_inspect_outgoing_payment : list byte → string → N → result NodeError PaymentStatus * N;
  n_get_block_height : N → result NodeError Z * N;
  n_get_raw_block_by_height : Z → N → result NodeError string * N;
  n_resolve_htlc : string → HtlcResolution → N → result NodeError unit * N;
  n_store_preimage : list byte → list byte → N → result NodeError unit * N;
  n_lookup_preimage : list byte → N → result NodeError (option (list byte)) * N;
  n_now : N → option Z;
  n_random_key : N → SecretKey * N;
}.

(** The rest of the trait, which nothing in the sources calls. *)
Class NodeExtras (N : Type) `{Crypto} `{JsonValue} : Type := {
  n_new_address : N → result NodeError string * N;
  n_get_info : N → result NodeError NodeInfo * N;
  n_delete_preimage : list byte → N → result NodeError unit * N;
  n_notify : string → Value → N → result NodeError unit * N;
}.

(** ** [MockNode] *)

Record MockNode `{Crypto} `{JsonValue} : Type := mkMockNode {
  mn_sent_messages : list (PublicKey * list byte);
  mn_sent_onions : list SendOnionParams;
  mn_block_height : Z;
  mn_preimages : gmap (list byte) (list byte);
  mn_htlc_resolutions : list (string * HtlcResolution);
  mn_notifications : list (string * Value);
  mn_payment_results : gmap string PaymentStatus;
  mn_send_onion_error : option string;
  mn_send_custom_msg_error : option string;
  mn_send_custom_msg_fail_after : option (Z * string);
  mn_node_info : option NodeInfo;
  mn_raw_blocks : gmap Z string;
  (** not in the source: the clock and the random source *)
  mn_now : option Z;
  mn_key : SecretKey;
}.

Section Mock.
Context {HC : Crypto} {HJ : JsonValue}.
Implicit Types (n : MockNode).

(** The clock and the key come first; the rest are the arguments of [MockNode::new]. *)
Definition MockNode_new (now : option Z) (key : SecretKey) (block_height : Z) (our_pubkey : PublicKey)
    (network : string) : MockNode :=
  {| mn_sent_messages := []; mn_sent_onions := []; mn_block_height := block_height;
     mn_preimages := ∅; mn_htlc_resolutions := []; mn_notifications := []; mn_payment_results := ∅;
     mn_send_onion_error := None; mn_send_custom_msg_error := None;
     mn_send_custom_msg_fail_after := None;
     mn_node_info := Some (mkNodeInfo network (be_bytes 32 0) block_height our_pubkey);
     mn_raw_blocks := ∅; mn_now := now; mn_key := key |}.

Definition mock_with_messages (l : list (PublicKey * list byte)) (err : option string)
    (fail_after : option (Z * string)) n : MockNode :=
  mkMockNode HC HJ l (mn_sent_onions n) (mn_block_height n) (mn_preimages n) (mn_htlc_resolutions n)
    (mn_notifications n) (mn_payment_results n) (mn_send_onion_error n) err fail_after (mn_node_info n)
    (mn_raw_blocks n) (mn_now n) (mn_key n).

Definition mock_with_onions (l : list SendOnionParams) (err : option string) n : MockNode :=
  mkMockNode HC HJ (mn_sent_messages n) l (mn_block_height n) (mn_preimages n) (mn_htlc_resolutions n)
    (mn_notifications n) (mn_payment_results n) err (mn_send_custom_msg_error n)
    (mn_send_custom_msg_fail_after n) (mn_node_info n) (mn_raw_blocks n) (mn_now n) (mn_key n).

Definition mock_with_resolutions (l : list (string * HtlcResolution)) n : MockNode :=
  mkMockNode HC HJ (mn_sent_messages n) (mn_sent_onions n) (mn_block_height n) (mn_preimages n) l
    (mn_notifications n) (mn_payment_results n) (mn_send_onion_error n) (mn_send_custom_msg_error n)
    (mn_send_custom_msg_fail_after n) (mn_node_info n) (mn_raw_blocks n) (mn_now n) (mn_key n).

Definition mock_with_preimages (m : gmap (list byte) (list byte)) n : MockNode :=
  mkMockNode HC HJ (mn_sent_messages n) (mn_sent_onions n) (mn_block_height n) m
    (mn_htlc_resolutions n) (mn_notifications n) (mn_payment_results n) (mn_send_onion_error n)
    (mn_send_custom_msg_error n) (mn_send_custom_msg_fail_after n) (mn_node_info n) (mn_raw_blocks n)
    (mn_now n) (mn_key n).

(** *** What a test sets up *)

Definition set_block_height (h : Z) n : MockNode :=
  mkMockNode HC HJ (mn_sent_messages n) (mn_sent_onions n) h (mn_preimages n) (mn_htlc_resolutions n)
    (mn_notifications n) (mn_payment_results n) (mn_send_onion_error n) (mn_send_custom_msg_error n)
    (mn_send_custom_msg_fail_after n) (mn_node_info n) (mn_raw_blocks n) (mn_now n) (mn_key n).

Definition set_payment_result (label : string) (status : PaymentStatus) n : MockNode :=
  mkMockNode HC HJ (mn_sent_messages n) (mn_sent_onions n) (mn_block_height n) (mn_preimages n)
    (mn_htlc_resolutions n) (mn_notifications n) (<[label := status]> (mn_payment_results n))
    (mn_send_onion_error n) (mn_send_custom_msg_error n) (mn_send_custom_msg_fail_after n)
    (mn_node_info n) (mn_raw_blocks n) (mn_now n) (mn_key n).

Definition fail_next_send_onion (message : string) n : MockNode :=
  mock_with_onions (mn_sent_onions n) (Some message) n.

Definition fail_next_send_custom_msg (message : string) n : MockNode :=
  mock_with_messages (mn_sent_messages n) (Some message) (mn_send_custom_msg_fail_after n) n.

Definition fail_send_custom_msg_after_successes (successes : Z) (message : string) n : MockNode :=
  mock_with_messages (mn_sent_messages n) (mn_send_custom_msg_error n) (Some (successes, message)) n.

Definition set_raw_block (height : Z) (block_hex : string) n : MockNode :=
  mkMockNode HC HJ (mn_sent_messages n) (mn_sent_onions n) (mn_block_height n) (mn_preimages n)
    (mn_htlc_resolutions n) (mn_notifications n) (mn_payment_results n) (mn_send_onion_error n)
    (mn_send_custom_msg_error n) (mn_send_custom_msg_fail_after n) (mn_node_info n)
    (<[height := block_hex]> (mn_raw_blocks n)) (mn_now n) (mn_key n).

(** *** What it does *)

Definition mock_send_custom_msg (pk : PublicKey) (bytes : list byte) n
    : result NodeError unit * MockNode :=
  match mn_send_custom_msg_error n with
  | Some message =>
      (Err (Rpc message),
       mock_with_messages (mn_sent_messages n) None (mn_send_custom_msg_fail_after n) n)
  | None =>
      match mn_send_custom_msg_fail_after n with
      | Some (successes, message) =>
          if successes =? 0 then
            (Err (Rpc message), mock_with_messages (mn_sent_messages n) None None n)
          else (Ok tt, mock_with_messages (mn_sent_messages n ++ [(pk, bytes)]) None
                         (Some (successes - 1, message)) n)
      | None => (Ok tt, mock_with_messages (mn_sent_messages n ++ [(pk, bytes)]) None None n)
      end
  end.

Definition mock_send_onion (p : SendOnionParams) n : result NodeError unit * MockNode :=
  match mn_send_onion_error n with
  | Some message => (Err (Rpc message), mock_with_onions (mn_sent_onions n) None n)
  | None => (Ok tt, mock_with_onions (mn_sent_onions n ++ [p]) None n)
  end.

Definition mock_raw_block (height : Z) n : result NodeError string * MockNode :=
  (ok_or (mn_raw_blocks n !! height) (NodeNotFound ("raw block at height " +:+ pretty height)), n).

Definition mock_inspect_outgoing_payment (payment_hash : list byte) (label : string) n
    : result NodeError PaymentStatus * MockNode :=
  (Ok (default Unknown (mn_payment_results n !! label)), n).

Definition mock_get_block_height n : result NodeError Z * MockNode := (Ok (mn_block_height n), n).

Definition mock_resolve_htlc (result_key : string) (resolution : HtlcResolution) n
    : result NodeError unit * MockNode :=
  (Ok tt, mock_with_resolutions (mn_htlc_resolutions n ++ [(result_key, resolution)]) n).

Definition mock_store_preimage (payment_hash preimage : list byte) n : result NodeError unit * MockNode :=
  (Ok tt, mock_with_preimages (<[payment_hash := preimage]> (mn_preimages n)) n).

Definition mock_lookup_preimage (payment_hash : list byte) n
    : result NodeError (option (list byte)) * MockNode := (Ok (mn_preimages n !! payment_hash), n).

Definition mock_delete_preimage (payment_hash : list byte) n : result NodeError unit * MockNode :=
  (Ok tt, mock_with_preimages (delete payment_hash (mn_preimages n)) n).

Definition mock_new_address n : result NodeError string * MockNode := (Ok "bc1qmockaddress", n).

Definition mock_get_info n : result NodeError NodeInfo * MockNode :=
  (ok_or (mn_node_info n) (NodeNotFound "node_info"), n).

Definition mock_notify (notification : string) (payload : Value) n : result NodeError unit * MockNode :=
  (Ok tt, mkMockNode HC HJ (mn_sent_messages n) (mn_sent_onions n) (mn_block_height n) (mn_preimages n)
    (mn_htlc_resolutions n) (mn_notifications n ++ [(notification, payload)]) (mn_payment_results n)
    (mn_send_onion_error n) (mn_send_custom_msg_error n) (mn_send_custom_msg_fail_after n)
    (mn_node_info n) (mn_raw_blocks n) (mn_now n) (mn_key n)).

#[global] Instance mock_node_actions : NodeActions MockNode := {|
  n_send_custom_msg := mock_send_custom_msg;
  n_send_onion := mock_send_onion;
  n_inspect_outgoing_payment := mock_inspect_outgoing_payment;
  n_get_block_height := mock_get_block_height;
  n_get_raw_block_by_height := mock_raw_block;
  n_resolve_htlc := mock_resolve_htlc;
  n_store_preimage := mock_store_preimage;
  n_lookup_preimage := mock_lookup_preimage;
  n_now := mn_now;
  n_random_key n := (mn_key n, n) |}.

#[global] Instance mock_node_extras : NodeExtras MockNode := {|
  n_new_address := mock_new_address;
  n_get_info := mock_get_info;
  n_delete_preimage := mock_delete_preimage;
  n_notify := mock_notify |}.

(** [fail_send_custom_msg_after_successes]: that many messages are sent, the next
    one fails, and the mock is what it was apart from those it has sent. *)
Fixpoint send_all (l : list (PublicKey * list byte)) n : result NodeError unit * MockNode :=
  match l with
  | [] => (Ok tt, n)
  | (pk, bytes) :: l =>
      match mock_send_custom_msg pk bytes n with
      | (Ok _, n) => send_all l n
      | (Err e, n) => (Err e, n)
      end
  end.

Lemma fails_after_successes l m n pk bytes :
  mn_send_custom_msg_error n = None →
  let armed := fail_send_custom_msg_after_successes (len l) m n in
  (send_all l armed).1 = Ok tt ∧
  mock_send_custom_msg pk bytes (send_all l armed).2
  = (Err (Rpc m), mock_with_messages (mn_sent_messages n ++ l) None None n).
Proof.
  cbn zeta. revert n. induction l as [|[pk' bytes'] l IH]; intros n Hn.
  - cbn. unfold mock_send_custom_msg. cbn. rewrite Hn. cbn. by rewrite app_nil_r.
  - assert (fail_send_custom_msg_after_successes (len ((pk', bytes') :: l)) m n
      = fail_send_custom_msg_after_successes (len l + 1) m n) as -> by (do 2 f_equal; unfold len; cbn; lia).
    cbn [send_all]. unfold mock_send_custom_msg at 1 3. cbn. rewrite Hn.
    rewrite (proj2 (Z.eqb_neq _ _)) by (pose proof (len_nonneg l); lia).
    rewrite Z.add_simpl_r.
    specialize (IH (mock_with_messages (mn_sent_messages n ++ [(pk', bytes')]) None None n) eq_refl).
    cbn in IH. rewrite <-app_assoc in IH. exact IH.
Qed.

End Mock.
