(* ===== verification/Gossip.v ===== *)
(** * Channel updates ([src/gossip.rs])

    BOLT-7 [channel_update] messages for the fake short channel ids. *)
From S2P Require Import Prelude Bytes Codecs Crypto ChannelId Config Wire.
From stdpp Require Import options.
#[local] Open Scope Z_scope.

Section Gossip.
Context {HC : Crypto}.

Definition channel_flags (node_public peer_id : PublicKey) (enabled : bool) : Z :=
  let direction := if is_node1 node_public peer_id then 0 else 1 in
  let disabled := if enabled then 0 else Z.shiftl 1 1 in
  Z.lor direction disabled.

Definition set_cu_signature (sig : list byte) (cu : ChannelUpdate) : ChannelUpdate :=
  {| cu_signature := sig; cu_chain_hash := cu_chain_hash cu;
     cu_short_channel_id := cu_short_channel_id cu; cu_timestamp := cu_timestamp cu;
     cu_message_flags := cu_message_flags cu; cu_channel_flags := cu_channel_flags cu;
     cu_cltv_expiry_delta := cu_cltv_expiry_delta cu;
     cu_htlc_minimum_msat := cu_htlc_minimum_msat cu; cu_fee_base_msat := cu_fee_base_msat cu;
     cu_fee_proportional_millionths := cu_fee_proportional_millionths cu;
     cu_htlc_maximum_msat := cu_htlc_maximum_msat cu; cu_tlv_stream := cu_tlv_stream cu |}.

Definition build_channel_update (node_secret : SecretKey) (node_public peer_id : PublicKey)
    (chain_hash : list byte) (policy : ChannelPolicy) (htlc_maximum_msat : Z) (enabled : bool)
    (timestamp : Z) : ChannelUpdate :=
  let scid := hosted_short_channel_id node_public peer_id in
  let flags := channel_flags node_public peer_id enabled in
  let cu := {|
    cu_signature := be_bytes 64 0; cu_chain_hash := chain_hash; cu_short_channel_id := scid;
    cu_timestamp := timestamp; cu_message_flags := 0x01; cu_channel_flags := flags;
    cu_cltv_expiry_delta := cp_cltv_expiry_delta policy;
    cu_htlc_minimum_msat := cp_htlc_minimum_msat policy;
    cu_fee_base_msat := cp_fee_base_msat policy;
    cu_fee_proportional_millionths := cp_fee_proportional_millionths policy;
    cu_htlc_maximum_msat := htlc_maximum_msat; cu_tlv_stream := [] |} in
  let digest := sha256 (sha256 (ChannelUpdate_witness cu)) in
  set_cu_signature (serialize_compact (sign_ecdsa digest node_secret)) cu.

(** [put_u16(258)] and the body; an encoding error is dropped. *)
Definition channel_update (node_secret : SecretKey) (node_public peer_id : PublicKey)
    (chain_hash : list byte) (policy : ChannelPolicy) (htlc_maximum_msat : Z) (enabled : bool)
    (timestamp : Z) : list byte :=
  let cu := build_channel_update node_secret node_public peer_id chain_hash policy
              htlc_maximum_msat enabled timestamp in
  be_bytes 2 258 ++ (ChannelUpdate_encode cu).1.

Definition phc_channel_update_sync (node_secret : SecretKey) (node_public peer_id : PublicKey)
    (chain_hash : list byte) (policy : ChannelPolicy) (htlc_maximum_msat : Z) (enabled : bool)
    (timestamp : Z) : PhcChannelUpdate :=
  mkPhcChannelUpdate TAG_PHC_CHANNEL_UPDATE_SYNC
    (build_channel_update node_secret node_public peer_id chain_hash policy htlc_maximum_msat
       enabled timestamp).

End Gossip.

Definition policy_typed (p : ChannelPolicy) : Prop :=
  u64 (cp_channel_capacity_msat p) ∧ u64 (cp_initial_client_balance_msat p) ∧
  u64 (cp_max_htlc_value_in_flight_msat p) ∧ u64 (cp_htlc_minimum_msat p) ∧
  u16 (cp_max_accepted_htlcs p) ∧ u32 (cp_fee_base_msat p) ∧
  u32 (cp_fee_proportional_millionths p) ∧ u16 (cp_cltv_expiry_delta p).

#[global] Instance policy_typed_dec p : Decision (policy_typed p).
Proof. unfold policy_typed; apply _. Defined.

Lemma channel_flags_range {HC : Crypto} a b e : 0 ≤ channel_flags a b e < 4.
Proof. unfold channel_flags. destruct (is_node1 a b), e; split; by vm_compute. Qed.

Lemma is_node1_flip {HC : Crypto} {HL : CryptoLaws} a b : a ≠ b → is_node1 a b = negb (is_node1 b a).
Proof.
  intros Hne. unfold is_node1. destruct (bytes_le (pk_serialize a) (pk_serialize b)) eqn:Hab.
  - destruct (bytes_le (pk_serialize b) (pk_serialize a)) eqn:Hba; [|done].
    destruct Hne. by apply (inj pk_serialize), bytes_le_antisym.
  - by rewrite (bytes_le_total _ _ Hab).
Qed.

Lemma witness_set_signature {HC : Crypto} sig cu :
  ChannelUpdate_witness (set_cu_signature sig cu) = ChannelUpdate_witness cu.
Proof. done. Qed.

Lemma set_signature_set {HC : Crypto} sig cu : cu_signature (set_cu_signature sig cu) = sig.
Proof. done. Qed.

Lemma encode_witness cu :
  cu_htlc_minimum_msat cu ≤ UINT64_OVERFLOW_MAX → cu_htlc_maximum_msat cu ≤ UINT64_OVERFLOW_MAX →
  length (cu_signature cu) = 64%nat →
  ∃ l, ChannelUpdate_encode cu = (l, None) ∧ drop 64 l = ChannelUpdate_witness cu.
Proof.
  intros H1 H2 Hs. unfold ChannelUpdate_encode, ChannelUpdate_witness, enc_ignore.
  rewrite !write_u64_overflow_small by done. eexists. split; [reflexivity|].
  by rewrite drop_app_length'.
Qed.

(** A [channel_update] the host builds verifies under the host's key over
    exactly the octets that follow its signature on the wire, the two ends of a
    channel announce it in opposite directions, and when the amounts fit the
    wire's 63 bits the peer decodes the very update that was built. *)
Theorem channel_update_authentic {HC : Crypto} {HL : CryptoLaws} sk peer chain_hash policy hmax
    enabled ts :
  length chain_hash = 32%nat → policy_typed policy → u32 ts → u64 hmax →
  cp_htlc_minimum_msat policy ≤ UINT64_OVERFLOW_MAX → hmax ≤ UINT64_OVERFLOW_MAX →
  let node := pk_from_secret_key sk in
  let cu := build_channel_update sk node peer chain_hash policy hmax enabled ts in
  verify_compact (sha256 (sha256 (ChannelUpdate_witness cu))) (cu_signature cu) node = true ∧
  (∃ l, ChannelUpdate_encode cu = (l, None) ∧ drop 64 l = ChannelUpdate_witness cu ∧
        HostedMessage_decode (be_bytes 2 TAG_PHC_CHANNEL_UPDATE_SYNC ++ l) =
          Ok (MPhcChannelUpdate (phc_channel_update_sync sk node peer chain_hash policy hmax enabled ts))) ∧
  (node ≠ peer → Z.testbit (channel_flags node peer enabled) 0 =
                 negb (Z.testbit (channel_flags peer node enabled) 0)).
Proof.
  intros Hch (?&?&?&Hmin&?&Hfb&Hfp&Hcd) Hts Hmax Hb1 Hb2 node cu.
  assert (length (cu_signature cu) = 64%nat) as Hsig by apply serialize_compact_length.
  split; [|split].
  - unfold cu, build_channel_update. rewrite witness_set_signature, set_signature_set.
    apply verify_compact_sign.
  - destruct (encode_witness cu) as (l & Hl & Hd); [done..|].
    exists l. split; [done|]. split; [done|].
    apply decode_strict_encode.
    + split; [done|]. cbn -[u64 u32 u16 u8 hosted_short_channel_id channel_flags].
      unfold ChannelUpdate_typed. cbn -[u64 u32 u16 u8 hosted_short_channel_id channel_flags].
      pose proof (channel_flags_range node peer enabled).
      split_and!; try done; [by apply sum_chunks_u64|unfold u8; lia].
    + split; [by right|done].
    + apply encode_strict_ok. by exists l.
  - intros Hne. unfold channel_flags. rewrite (is_node1_flip node peer Hne).
    by destruct (is_node1 peer node), enabled.
Qed.

Module GossipExamples.
Import Toy.

Lemma channel_update_authentic_witness :
  let cu := build_channel_update (HC := Toy.crypto) Byte.x05 Byte.x05 Byte.x09 (be_bytes 32 6)
              ChannelPolicy_default 5000 true 1700000000 in
  verify_compact (sha256 (sha256 (ChannelUpdate_witness cu))) (cu_signature cu)
    (pk_from_secret_key (Crypto := Toy.crypto) Byte.x05) = true.
Proof.
  cbn zeta.
  apply (channel_update_authentic (HC := Toy.crypto) (HL := Toy.laws) Byte.x05 Byte.x09
           (be_bytes 32 6) ChannelPolicy_default 5000 true 1700000000);
    [by vm_compute|by apply (bool_decide_unpack _)..|by vm_compute|by vm_compute].
Defined.

End GossipExamples.
