(* ===== verification/World.v ===== *)
(** * Effects

    The controller is asynchronous Rust over a shared store, the node and two
    in-memory maps.  Here a call is a function from the [World] to a result and
    the next [World]; an error leaves the effects already performed in place, as
    an early return does.  Each handler runs to completion; [Tasks] takes it apart
    at its [await] points.

    [w_log] is a history variable: every write to the store and every action on
    the node, in order. *)
From S2P Require Import Prelude Bytes Codecs Crypto Config Lcss Wire State Store Node.
From stdpp Require Import options.
#[local] Open Scope Z_scope.

Inductive Event `{Crypto} (V : Type) : Type :=
| EvPut (k : key) (v : V)
| EvDelete (k : key)
| EvSend (peer : PublicKey) (bytes : list byte)
| EvOnion (p : SendOnionParams)
| EvResolve (result_key : string) (resolution : HtlcResolution)
| EvPreimage (payment_hash preimage : list byte).
Arguments EvPut {_ V} k v.
Arguments EvDelete {_ V} k.
Arguments EvSend {_ V} peer bytes.
Arguments EvOnion {_ V} p.
Arguments EvResolve {_ V} result_key resolution.
Arguments EvPreimage {_ V} payment_hash preimage.

Record World `{Crypto} (S V N : Type) : Type := mkWorld {
  w_store : S;
  w_node : N;
  w_encodings : gmap PublicKey WireEncoding;
  w_connections : gmap PublicKey bool;
  w_log : list (Event V);
}.
Arguments mkWorld {_ S V N}.
Arguments w_store {_ S V N}.
Arguments w_node {_ S V N}.
Arguments w_encodings {_ S V N}.
Arguments w_connections {_ S V N}.
Arguments w_log {_ S V N}.

Section Effects.
Context {HC : Crypto} {S V N : Type} {HS : Store S V} {HN : NodeActions N}.
Local Notation W := (World S V N).

Definition M (E A : Type) : Type := W → result E A * W.

#[global] Instance M_ret {E} : MRet (M E) := λ A a w, (Ok a, w).
#[global] Instance M_bind {E} : MBind (M E) := λ A B f m w,
  match m w with
  | (Ok a, w') => f a w'
  | (Err e, w') => (Err e, w')
  end.

Definition fail {E A} (e : E) : M E A := λ w, (Err e, w).

(** [m.await] with its [Result] inspected instead of propagated. *)
Definition attempt {E E' A} (m : M E A) : M E' (result E A) := λ w, let '(r, w') := m w in (Ok r, w').

(** [m.await?] through [From<E>]. *)
Definition lift {E E' A} (f : E → E') (m : M E A) : M E' A := λ w,
  let '(r, w') := m w in (map_err f r, w').

Definition of_result {E A} (r : result E A) : M E A := λ w, (r, w).

Definition set_store (s : S) (evs : list (Event V)) (w : W) : W :=
  mkWorld s (w_node w) (w_encodings w) (w_connections w) (w_log w ++ evs).
Definition set_node (n : N) (evs : list (Event V)) (w : W) : W :=
  mkWorld (w_store w) n (w_encodings w) (w_connections w) (w_log w ++ evs).
Definition set_encodings (m : gmap PublicKey WireEncoding) (w : W) : W :=
  mkWorld (w_store w) (w_node w) m (w_connections w) (w_log w).
Definition set_connections (m : gmap PublicKey bool) (w : W) : W :=
  mkWorld (w_store w) (w_node w) (w_encodings w) m (w_log w).

(** ** The store *)

Definition m_get_json {A} `{Json V A} (k : key) : M StoreError (A * Z) :=
  λ w, (get_json k (w_store w), w).

Definition m_exists (k : key) : M StoreError bool := λ w, (st_exists k (w_store w), w).

Definition m_list (k : key) : M StoreError (list key) := λ w, (st_list k (w_store w), w).

(** A write leaves an event when it succeeds. *)
Definition put {A} `{Json V A} (k : key) (value : A) (op : S → result StoreError unit * S)
    : M StoreError unit := λ w,
  match op (w_store w) with
  | (Ok u, s) => (Ok u, set_store s match to_vec value with Ok v => [EvPut k v] | Err _ => [] end w)
  | (Err e, s) => (Err e, set_store s [] w)
  end.

Definition m_create_json {A} `{Json V A} (k : key) (value : A) : M StoreError unit :=
  put k value (create_json k value).

Definition m_update_json {A} `{Json V A} (k : key) (value : A) (generation : Z) : M StoreError unit :=
  put k value (update_json k value generation).

Definition m_delete (k : key) : M StoreError unit := λ w,
  match st_delete k (w_store w) with
  | (Ok u, s) => (Ok u, set_store s [EvDelete k] w)
  | (Err e, s) => (Err e, set_store s [] w)
  end.

(** [cas_json] with no other task running in between. *)
Definition m_cas_json {A R} `{Json V A} (k : key) (f : A → result StoreError (A * R))
    : M StoreError R := λ w,
  match cas_json (λ _ s, s) k f (w_store w) with
  | (Ok r, s) =>
      (Ok r, set_store s match st_get k s with Ok gv => [EvPut k (gv_bytes gv)] | Err _ => [] end w)
  | (Err e, s) => (Err e, set_store s [] w)
  end.

(** ** The node *)

Definition node_call {A} (op : N → result NodeError A * N) (evs : list (Event V)) : M NodeError A :=
  λ w, match op (w_node w) with
       | (Ok a, n) => (Ok a, set_node n evs w)
       | (Err e, n) => (Err e, set_node n [] w)
       end.

Definition send_custom_msg (peer : PublicKey) (bytes : list byte) : M NodeError unit :=
  node_call (n_send_custom_msg peer bytes) [EvSend peer bytes].
Definition send_onion (p : SendOnionParams) : M NodeError unit :=
  node_call (n_send_onion p) [EvOnion p].
Definition inspect_outgoing_payment (payment_hash : list byte) (label : string)
    : M NodeError PaymentStatus := node_call (n_inspect_outgoing_payment payment_hash label) [].
Definition get_block_height : M NodeError Z := node_call n_get_block_height [].
Definition get_raw_block_by_height (h : Z) : M NodeError string :=
  node_call (n_get_raw_block_by_height h) [].
Definition resolve_htlc (result_key : string) (r : HtlcResolution) : M NodeError unit :=
  node_call (n_resolve_htlc result_key r) [EvResolve result_key r].
Definition store_preimage (payment_hash preimage : list byte) : M NodeError unit :=
  node_call (n_store_preimage payment_hash preimage) [EvPreimage payment_hash preimage].
Definition lookup_preimage (payment_hash : list byte) : M NodeError (option (list byte)) :=
  node_call (n_lookup_preimage payment_hash) [].

(** The clock and the random source of the standard library and of [rand]. *)
Definition now {E} : M E (option Z) := λ w, (Ok (n_now (w_node w)), w).
Definition random_key {E} : M E SecretKey := λ w,
  let '(k, n) := n_random_key (w_node w) in (Ok k, set_node n [] w).

(** ** Loops *)

Fixpoint for_each {E A} (f : A → M E unit) (l : list A) : M E unit :=
  match l with
  | [] => mret tt
  | x :: l => _ ← f x; for_each f l
  end.

(** [Option::ok_or(e)?]. *)
Definition require {E A} (o : option A) (e : E) : M E A :=
  match o with Some a => mret a | None => fail e end.

End Effects.

(** What the store of a world holds. *)
Definition wview {HC : Crypto} {S V N : Type} {HV : StoreView S V} (w : World S V N) (k : key)
    : option (Z * V) := view (w_store w) k.

(** ** Reading a store *)
Section Reads.
#[local] Set Default Proof Using "Type*".
Context {HC : Crypto} {S V N : Type} {HS : Store S V} {HV : StoreView S V} {HL : SharedStore S V}.
Context {A : Type} {J : Json V A} {JL : JsonLaws V A}.
Implicit Types (w : World S V N) (k : key).

Lemma m_get_json_absent k w :
  key_ok k → wview w k = None → m_get_json (A := A) k w = (Err (KeyNotFound k), w).
Proof.
  intros Hk Hv. unfold m_get_json, get_json. rewrite shared_get by done.
  unfold wview in Hv. by rewrite Hv.
Qed.

Lemma m_get_json_present k w g v (a : A) :
  key_ok k → wview w k = Some (g, v) → from_slice v = Ok a → m_get_json k w = (Ok (a, g), w).
Proof.
  intros Hk Hv Ha. unfold m_get_json, get_json. rewrite shared_get by done.
  unfold wview in Hv. rewrite Hv. cbn. by rewrite Ha.
Qed.

Lemma m_get_json_inv k w r w' :
  key_ok k → m_get_json (A := A) k w = (r, w') → w' = w ∧
  match wview w k with
  | None => r = Err (KeyNotFound k)
  | Some (g, v) => match from_slice v with Ok a => r = Ok (a, g) | Err _ => ∃ e, r = Err (Backend e) end
  end.
Proof.
  intros Hk. unfold m_get_json, get_json, wview. rewrite shared_get by done.
  destruct (view (w_store w) k) as [[g v]|]; cbn; [|by intros [= <- <-]].
  destruct (from_slice v) as [a|e]; cbn; intros [= <- <-]; eauto.
Qed.

End Reads.

(** ** Effects on a store that honours its contract *)
Section EffectFacts.
Context {HC : Crypto} {S V N : Type} {HS : Store S V} {HL : StoreLaws S V} {HN : NodeActions N}.
Implicit Types (w : World S V N) (k : key).

Lemma set_store_nil w : set_store (w_store w) [] w = w.
Proof. destruct w. unfold set_store; cbn. by rewrite app_nil_r. Qed.

Lemma set_node_nil w : set_node (w_node w) [] w = w.
Proof. destruct w. unfold set_node; cbn. by rewrite app_nil_r. Qed.

(** The world after a successful write of [v] at [k] with generation [g]. *)
Definition wrote w k g (v : V) w' : Prop :=
  ∃ s, w' = set_store s [EvPut k v] w ∧
       ∀ k', key_ok k' → view s k' = if decide (k' = k) then Some (g, v) else wview w k'.

Lemma wrote_view w k g v w' k' : wrote w k g v w' → key_ok k' →
  wview w' k' = if decide (k' = k) then Some (g, v) else wview w k'.
Proof. intros (s & -> & Hs) Hk. by apply Hs. Qed.

Lemma wrote_log w k g v w' : wrote w k g v w' → w_log w' = w_log w ++ [EvPut k v].
Proof. by intros (s & -> & _). Qed.

Lemma wrote_node w k g v w' : wrote w k g v w' → w_node w' = w_node w.
Proof. by intros (s & -> & _). Qed.

Lemma wrote_maps w k g v w' : wrote w k g v w' →
  w_encodings w' = w_encodings w ∧ w_connections w' = w_connections w.
Proof. by intros (s & -> & _). Qed.

Section OneType.
#[local] Set Default Proof Using "Type*".
Context {A : Type} {J : Json V A} {JL : JsonLaws V A}.

Lemma m_create_json_fresh k (a : A) w :
  key_ok k → wview w k = None →
  ∃ v w', m_create_json k a w = (Ok tt, w') ∧ from_slice v = Ok a ∧ wrote w k 0 v w'.
Proof.
  intros Hk Hv. destruct (json_roundtrip a) as (v & Hto & Hfrom).
  pose proof (st_create_spec k v (w_store w) Hk) as Hspec. unfold wview in Hv. rewrite Hv in Hspec.
  destruct Hspec as (s & Hc & Hs). unfold m_create_json, put, create_json. rewrite Hto, Hc.
  eexists _, _. split; [reflexivity|]. split; [exact Hfrom|]. exists s. split; [done|exact Hs].
Qed.

Lemma m_create_json_exists k (a : A) w gv :
  key_ok k → wview w k = Some gv → m_create_json k a w = (Err (AlreadyExists k), w).
Proof.
  intros Hk Hv. destruct (json_roundtrip a) as (v & Hto & _).
  pose proof (st_create_spec k v (w_store w) Hk) as Hspec. unfold wview in Hv. rewrite Hv in Hspec.
  unfold m_create_json, put, create_json. rewrite Hto, Hspec. by rewrite set_store_nil.
Qed.

Lemma m_update_json_current k (a : A) w g v0 :
  key_ok k → wview w k = Some (g, v0) →
  ∃ v w', m_update_json k a g w = (Ok tt, w') ∧ from_slice v = Ok a ∧
          wrote w k (wrap64 (g + 1)) v w'.
Proof.
  intros Hk Hv. destruct (json_roundtrip a) as (v & Hto & Hfrom).
  pose proof (st_update_spec k v g (w_store w) Hk) as Hspec. unfold wview in Hv. rewrite Hv in Hspec.
  rewrite decide_True in Hspec by done. destruct Hspec as (s & Hc & Hs).
  unfold m_update_json, put, update_json. rewrite Hto, Hc.
  eexists _, _. split; [reflexivity|]. split; [exact Hfrom|]. exists s. split; [done|exact Hs].
Qed.

Lemma m_update_json_stale k (a : A) w g g0 v0 :
  key_ok k → wview w k = Some (g0, v0) → g0 ≠ g →
  m_update_json k a g w = (Err (GenerationMismatch g g0), w).
Proof.
  intros Hk Hv Hne. destruct (json_roundtrip a) as (v & Hto & _).
  pose proof (st_update_spec k v g (w_store w) Hk) as Hspec. unfold wview in Hv. rewrite Hv in Hspec.
  rewrite decide_False in Hspec by done.
  unfold m_update_json, put, update_json. rewrite Hto, Hspec. by rewrite set_store_nil.
Qed.

End OneType.

Lemma m_exists_view k w : key_ok k → m_exists k w = (Ok (bool_decide (is_Some (wview w k))), w).
Proof. intros Hk. unfold m_exists. by rewrite st_exists_spec. Qed.

Lemma m_delete_view k w : key_ok k →
  ∃ s, m_delete k w = (Ok tt, set_store s [EvDelete k] w) ∧
    ∀ k', key_ok k' → view s k' = if decide (k' = k) then None else wview w k'.
Proof.
  intros Hk. destruct (st_delete_spec k (w_store w) Hk) as (s & Hd & Hs).
  exists s. unfold m_delete. by rewrite Hd.
Qed.

End EffectFacts.
