(* ===== verification/Tasks.v ===== *)
(** * Tasks that yield

    The plugin serves every message and hook call as a task of one executor.  A
    task runs on until it awaits the store or the node; there the executor may run
    any other task.  [World] models a handler that is left alone.  Here a handler
    is a [Task]: the calls it awaits, each one atomic, with what it does next.  A
    [pool] of tasks runs on one world in any order, together with whatever else
    the process does to it ([rely]).

    [run_task] is the task left alone: a task is right when that is the handler. *)
From S2P Require Import Prelude Bytes Codecs Crypto Config Lcss Wire State Store Node World.
From stdpp Require Import options.

Section Tasks.
Context {HC : Crypto} {S V N : Type}.
Local Notation W := (World S V N).
Local Notation M := (M (S := S) (V := V) (N := N)).

Inductive Task (E A : Type) : Type :=
| Return (r : result E A)
| Await {B : Type} (m : M E B) (k : result E B → Task E A).
Arguments Return {E A} r.
Arguments Await {E A B} m k.

(** [m.await?] *)
Definition await {E A} (m : M E A) : Task E A := Await m Return.

#[global] Instance Task_ret {E} : MRet (Task E) := λ A a, Return (Ok a).
Fixpoint task_bind {E A B} (f : A → Task E B) (t : Task E A) : Task E B :=
  match t with
  | Return (Ok a) => f a
  | Return (Err e) => Return (Err e)
  | Await m k => Await m (λ r, task_bind f (k r))
  end.
#[global] Instance Task_bind {E} : MBind (Task E) := λ A B, task_bind.

(** ** One task left alone *)

Fixpoint run_task {E A} (t : Task E A) : M E A := λ w,
  match t with
  | Return r => (r, w)
  | Await m k => let '(r, w') := m w in run_task (k r) w'
  end.

(** Up to the next [await]. *)
Definition advance {E A} (t : Task E A) (w : W) : Task E A * W :=
  match t with
  | Return r => (Return r, w)
  | Await m k => let '(r, w') := m w in (k r, w')
  end.

Definition outcome {E A} (t : Task E A) : option (result E A) :=
  match t with Return r => Some r | Await _ _ => None end.

Lemma run_await {E A} (m : M E A) w : run_task (await m) w = m w.
Proof. cbn. by destruct (m w). Qed.

Lemma run_bind {E A B} (t : Task E A) (f : A → Task E B) w :
  run_task (t ≫= f) w = (run_task t ≫= λ a, run_task (f a)) w.
Proof.
  unfold mbind, Task_bind, M_bind. revert w. induction t as [[a|e]|B' m k IH]; intros w; [done..|].
  cbn. destruct (m w) as [r w']. apply IH.
Qed.

(** A task is compared with a handler one [await] at a time. *)
Lemma run_await_bind {E A B} (m : M E A) (f : A → Task E B) (g : A → M E B) w :
  (∀ a w', run_task (f a) w' = g a w') → run_task (await m ≫= f) w = (m ≫= g) w.
Proof using Type. intros Hf. cbn. unfold mbind, M_bind. destruct (m w) as [[a|e] w']; [apply Hf|done]. Qed.

Lemma run_seq {E A B} (t : Task E A) (m : M E A) (f : A → Task E B) (g : A → M E B) w :
  (∀ w', run_task t w' = m w') → (∀ a w', run_task (f a) w' = g a w') →
  run_task (t ≫= f) w = (m ≫= g) w.
Proof using Type.
  intros Ht Hf. rewrite run_bind. unfold mbind, M_bind. rewrite Ht. by destruct (m w) as [[a|e] w'].
Qed.

Lemma bind_assoc {E A B B'} (m : M E A) (f : A → M E B) (g : B → M E B') w :
  ((m ≫= f) ≫= g) w = (m ≫= λ a, f a ≫= g) w.
Proof using Type. unfold mbind, M_bind. by destruct (m w) as [[a|e] w']. Qed.

Lemma run_advance {E A} (t : Task E A) w : run_task (advance t w).1 (advance t w).2 = run_task t w.
Proof. destruct t as [r|B m k]; cbn; [done|]. by destruct (m w). Qed.

(** ** A pool *)
Section Pool.
Context {E A : Type} (rely : W → W → Prop).

Definition Pool : Type := list (Task E A) * W.

Inductive pool_step : Pool → Pool → Prop :=
| pool_task ts w i t : ts !! i = Some t →
    pool_step (ts, w) (<[i := (advance t w).1]> ts, (advance t w).2)
| pool_rely ts w w' : rely w w' → pool_step (ts, w) (ts, w').

(** A property of pools that every step keeps. *)
Lemma pool_invariant (I : list (Task E A) → W → Prop) :
  (∀ ts w i t, I ts w → ts !! i = Some t → I (<[i := (advance t w).1]> ts) (advance t w).2) →
  (∀ ts w w', I ts w → rely w w' → I ts w') →
  ∀ p p', rtc pool_step p p' → I p.1 p.2 → I p'.1 p'.2.
Proof.
  intros Ht Hr p p' Hs. induction Hs as [|p1 p2 p3 Hstep _ IH]; [done|]. intros Hi. apply IH.
  destruct Hstep; cbn in *; eauto.
Qed.

(** The executor may give a task all the time it needs: the handlers of [World]
    are the runs in which no task waits for another. *)
Lemma pool_runs_alone t ts w i : ts !! i = Some t →
  rtc pool_step (ts, w) (<[i := Return (run_task t w).1]> ts, (run_task t w).2).
Proof using Type.
  revert ts w. induction t as [r|B m k IH]; intros ts w Hi.
  - cbn. rewrite list_insert_id by done. apply rtc_refl.
  - eapply rtc_l; [by apply (pool_task ts w i _ Hi)|]. cbn. destruct (m w) as [r w']. cbn.
    specialize (IH r (<[i := k r]> ts) w'). rewrite list_insert_insert_eq in IH.
    apply IH, list_lookup_insert_eq. by eapply lookup_lt_Some.
Qed.

(** A schedule names the task that runs next. *)
Definition schedule_step (p : Pool) (i : nat) : Pool :=
  match p.1 !! i with
  | Some t => (<[i := (advance t p.2).1]> p.1, (advance t p.2).2)
  | None => p
  end.
Definition run_schedule (s : list nat) (p : Pool) : Pool := foldl schedule_step p s.

Lemma schedule_steps s p : rtc pool_step p (run_schedule s p).
Proof using Type.
  revert p. induction s as [|i s IH]; intros p; [apply rtc_refl|]. cbn.
  etrans; [|apply IH]. unfold schedule_step. destruct (p.1 !! i) as [t|] eqn:Hi; [|apply rtc_refl].
  apply rtc_once. destruct p as [ts w]. by apply pool_task.
Qed.

Lemma schedule_reaches s p : rtc pool_step p ((run_schedule s p).1, (run_schedule s p).2).
Proof using Type. rewrite <-surjective_pairing. apply schedule_steps. Qed.

Lemma insert_step (P : nat → Task E A → Prop) (ts : list (Task E A)) i t t' :
  (∀ j u, ts !! j = Some u → j ≠ i → P j u) → ts !! i = Some t → P i t' →
  ∀ j u, <[i := t']> ts !! j = Some u → P j u.
Proof using Type.
  intros H Hi Hp j u Hj. apply list_lookup_insert_Some in Hj as [(-> & -> & _)|[Hne Hj]]; [done|].
  by apply H.
Qed.
End Pool.
End Tasks.
Arguments Return {_ S V N E A} r.
Arguments Await {_ S V N E A B} m k.
