(* ===== verification/Ledger.v ===== *)
(** * The accounting ledger ([src/ledger.rs]) *)
From S2P Require Import Prelude Text Bytes Codecs Crypto Config Lcss Wire State Store Json Node World.
From stdpp Require Import options.
From stdpp Require Import sorting.
From Stdlib Require Import Ascii.
#[local] Open Scope Z_scope.

Inductive LedgerEventType : Type :=
| LChannelOpen
| LHtlcForwarded
| LHtlcFulfilled
| LHtlcFailed
| LOverride
| LResize
| LFeeEarned.

Record LedgerEvent : Type := mkLedgerEvent {
  le_seq : Z;
  le_event_id : option string;
  le_peer_pubkey : string;
  le_event_type : LedgerEventType;
  le_amount_msat : Z;
  le_fee_msat : Z;
  le_payment_hash : option string;
  le_timestamp : Z;
}.

Definition seq_le (a b : LedgerEvent) : Prop := le_seq a ≤ le_seq b.
#[global] Instance seq_le_dec a b : Decision (seq_le a b).
Proof. unfold seq_le; apply _. Defined.

Definition meta_key : key := ["canopus"; "meta"].
Definition event_key (seq : Z) : key := ["canopus"; "ledger"; pretty seq].
Definition marker_key (event_id : string) : key := ["canopus"; "ledger_event_ids"; event_id].

Section Ledger.
Context {HC : Crypto} {S V N : Type} {HS : Store S V} {HN : NodeActions N}.
Context {JM : Json V Meta} {JE : Json V LedgerEvent} {JB : Json V bool}.
Local Notation M := (M (S := S) (V := V) (N := N)).

(** Read the counters, creating them the first time. *)
Definition load_meta : M StoreError (Meta * Z) :=
  r ← attempt (m_get_json meta_key);
  match r with
  | Ok mg => mret mg
  | Err (KeyNotFound _) =>
      let meta := mkMeta 0 0 in
      _ ← m_create_json meta_key meta;
      mret (meta, 0)
  | Err e => fail e
  end.

Definition record_inner (peer_pubkey : string) (event_type : LedgerEventType)
    (amount_msat fee_msat : Z) (payment_hash : option (list byte)) (event_id : option string)
    : M StoreError unit :=
  '(meta, gen) ← load_meta;
  let seq := meta_next_ledger_seq meta in
  let meta := mkMeta (wrap64 (seq + 1)) (meta_current_block_height meta) in
  _ ← m_update_json meta_key meta gen;
  t ← now;
  let event := {| le_seq := seq; le_event_id := event_id; le_peer_pubkey := peer_pubkey;
                  le_event_type := event_type; le_amount_msat := amount_msat;
                  le_fee_msat := fee_msat; le_payment_hash := hex_encode <$> payment_hash;
                  le_timestamp := default 0 t |} in
  m_create_json (event_key seq) event.

Definition ledger_record (peer_pubkey : string) (event_type : LedgerEventType)
    (amount_msat fee_msat : Z) (payment_hash : option (list byte)) : M StoreError unit :=
  record_inner peer_pubkey event_type amount_msat fee_msat payment_hash None.

Definition record_once (event_id peer_pubkey : string) (event_type : LedgerEventType)
    (amount_msat fee_msat : Z) (payment_hash : option (list byte)) : M StoreError unit :=
  known ← m_exists (marker_key event_id);
  if (known : bool) then mret tt else
  _ ← record_inner peer_pubkey event_type amount_msat fee_msat payment_hash (Some event_id);
  r ← attempt (m_create_json (marker_key event_id) true);
  match r with
  | Ok _ | Err (AlreadyExists _) => mret tt
  | Err e => fail e
  end.

Definition wanted (peer_pubkey : option string) (event : LedgerEvent) : bool :=
  match peer_pubkey with Some pk => String.eqb (le_peer_pubkey event) pk | None => true end.

(** One iteration of the loop of [list_events]; unreadable entries are skipped. *)
Definition collect_event (peer_pubkey : option string) (events : list LedgerEvent) (child : key)
    : M StoreError (list LedgerEvent) :=
  r ← attempt (m_get_json (A := LedgerEvent) child);
  match r with
  | Ok (event, _) =>
      if negb (wanted peer_pubkey event) then mret events else mret (events ++ [event])
  | Err _ => mret events
  end.

Fixpoint collect_events (peer_pubkey : option string) (children : list key)
    (events : list LedgerEvent) : M StoreError (list LedgerEvent) :=
  match children with
  | [] => mret events
  | c :: cs => events ← collect_event peer_pubkey events c; collect_events peer_pubkey cs events
  end.

(** [sort_by_key] is stable. *)
Definition list_events (peer_pubkey : option string) : M StoreError (list LedgerEvent) :=
  children ← m_list ["canopus"; "ledger"];
  events ← collect_events peer_pubkey children [];
  mret (merge_sort seq_le events).

Definition balance_step (balance : Z) (e : LedgerEvent) : Z :=
  match le_event_type e with
  | LChannelOpen | LHtlcFulfilled => saturating_add_u64 balance (le_amount_msat e)
  | LHtlcForwarded => saturating_sub_u64 balance (le_amount_msat e)
  | LFeeEarned => saturating_add_u64 balance (le_fee_msat e)
  | _ => balance
  end.

Definition channel_balance (peer_pubkey : string) : M StoreError Z :=
  events ← list_events (Some peer_pubkey);
  mret (foldl balance_step 0 events).

End Ledger.

(** ** Facts *)

Lemma meta_key_ok : key_ok meta_key.
Proof. by apply (bool_decide_unpack _). Qed.

Lemma event_key_ok seq : 0 ≤ seq → key_ok (event_key seq).
Proof.
  intros Hs. split; [done|]. repeat constructor. by apply pretty_Z_lacks.
Qed.

Lemma marker_key_ok id : lacks "/"%char id = true → key_ok (marker_key id).
Proof. intros Hs. split; [done|]. by repeat constructor. Qed.

#[global] Instance seq_le_total : Total seq_le.
Proof. intros a b. unfold seq_le. lia. Qed.
#[global] Instance seq_le_trans : Transitive seq_le.
Proof. intros a b c. unfold seq_le. lia. Qed.

Lemma StronglySorted_filter {A} (R : relation A) (f : A → bool) l :
  StronglySorted R l → StronglySorted R (List.filter f l).
Proof.
  induction 1 as [|x l Hl IH Hx]; cbn; [constructor|]. destruct (f x); [|done].
  constructor; [done|]. rewrite List.Forall_forall in *. intros y [Hy _]%filter_In. by apply Hx.
Qed.

Lemma Forall_List_filter {A} (P : A → Prop) (f : A → bool) l : Forall P l → Forall P (List.filter f l).
Proof. induction 1 as [|x l Hx _ IH]; cbn; [constructor|]. destruct (f x); [by constructor|done]. Qed.

#[global] Instance filter_Permutation {A} (f : A → bool) : Proper ((≡ₚ) ==> (≡ₚ)) (List.filter f).
Proof.
  induction 1 as [|x l k _ IH|x y l|l1 l2 l3 _ IH1 _ IH2]; cbn; [done| | |by etrans].
  - destruct (f x); by rewrite IH.
  - destruct (f x), (f y); done || constructor.
Qed.

Lemma numbered_sorted evs (start : Z) :
  (∀ i e, evs !! i = Some e → le_seq e = start + Z.of_nat i) → StronglySorted seq_le evs.
Proof.
  revert start. induction evs as [|e evs IH]; intros start Hn; constructor.
  - apply (IH (start + 1)). intros i x Hx. rewrite (Hn (S i) x Hx). lia.
  - apply Forall_lookup. intros i x Hx. unfold seq_le.
    rewrite (Hn 0%nat e), (Hn (S i) x Hx); [lia|done].
Qed.

(** Sorting by number recovers the numbered list from any order. *)
Lemma merge_sort_numbered evs l (f : LedgerEvent → bool) :
  (∀ i e, evs !! i = Some e → le_seq e = Z.of_nat i) → l ≡ₚ evs →
  merge_sort seq_le (List.filter f l) = List.filter f evs.
Proof.
  intros Hn Hl. apply StronglySorted_unique_strong with seq_le.
  - intros x y Hx Hy Hxy Hyx. rewrite merge_sort_Permutation, Hl in Hx.
    apply list_elem_of_In, filter_In in Hx as [Hx%list_elem_of_In _].
    apply list_elem_of_In, filter_In in Hy as [Hy%list_elem_of_In _].
    apply list_elem_of_lookup in Hx as [i Hi], Hy as [j Hj].
    pose proof (Hn i x Hi) as Hsi. pose proof (Hn j y Hj) as Hsj. unfold seq_le in *.
    assert (i = j) as -> by lia. congruence.
  - apply (StronglySorted_merge_sort seq_le).
  - apply StronglySorted_filter. by apply (numbered_sorted evs 0).
  - rewrite merge_sort_Permutation. by rewrite Hl.
Qed.

#[export] Hint Resolve meta_key_ok event_key_ok marker_key_ok : canopus.

Section LedgerFacts.
#[local] Set Default Proof Using "Type*".
Context {HC : Crypto} {S V N : Type} {HS : Store S V} {HL : StoreLaws S V} {HN : NodeActions N}.
Context {JM : Json V Meta} {JE : Json V LedgerEvent} {JB : Json V bool}.
Context {LM : JsonLaws V Meta} {LE : JsonLaws V LedgerEvent} {LB : JsonLaws V bool}.
Implicit Types (w : World S V N).

(** The next sequence number a ledger at [w] will use. *)
Definition next_seq w (n : Z) : Prop :=
  match wview w meta_key with
  | None => n = 0
  | Some (_, v) => ∃ h, from_slice v = Ok (mkMeta n h)
  end.

Lemma load_meta_spec w n : next_seq w n →
  ∃ g h v w', load_meta w = (Ok (mkMeta n h, g), w') ∧ wview w' meta_key = Some (g, v) ∧
    ∀ k, key_ok k → k ≠ meta_key → wview w' k = wview w k.
Proof.
  unfold next_seq, load_meta, mbind, M_bind, attempt.
  destruct (wview w meta_key) as [[g v]|] eqn:Hv.
  - intros [h Hf]. rewrite (m_get_json_present _ _ _ _ _ meta_key_ok Hv Hf). cbn. eauto 10.
  - intros ->. rewrite (m_get_json_absent _ _ meta_key_ok Hv).
    destruct (m_create_json_fresh meta_key (mkMeta 0 0) w meta_key_ok Hv) as (v & w' & -> & Hf & Hw).
    cbn. exists 0, 0, v, w'. split; [done|]. split.
    + rewrite (wrote_view _ _ _ _ _ _ Hw meta_key_ok). by rewrite decide_True.
    + intros k Hk Hne. rewrite (wrote_view _ _ _ _ _ _ Hw Hk). by rewrite decide_False.
Qed.

(** One record appends one event under the next number and moves the counter. *)
Lemma record_inner_spec w n peer ty amt fee hash id :
  next_seq w n → 0 ≤ n < 2 ^ 64 - 1 → wview w (event_key n) = None →
  ∃ w' g v t, record_inner peer ty amt fee hash id w = (Ok tt, w') ∧ next_seq w' (n + 1) ∧
    wview w' (event_key n) = Some (g, v) ∧
    from_slice v = Ok (mkLedgerEvent n id peer ty amt fee (hex_encode <$> hash) t) ∧
    ∀ k, key_ok k → k ≠ meta_key → k ≠ event_key n → wview w' k = wview w k.
Proof.
  intros Hn Hr Hev. destruct (load_meta_spec w n Hn) as (g & h & v & w1 & Hload & Hv & Hother).
  unfold record_inner, mbind, M_bind. rewrite Hload. cbn [meta_next_ledger_seq meta_current_block_height].
  destruct (m_update_json_current meta_key (mkMeta (wrap64 (n + 1)) h) w1 g v meta_key_ok Hv)
    as (v2 & w2 & -> & Hf2 & Hw2). cbn [now].
  assert (key_ok (event_key n)) as Hek by (apply event_key_ok; lia).
  assert (wview w2 (event_key n) = None) as Hfresh.
  { rewrite (wrote_view _ _ _ _ _ _ Hw2 Hek), decide_False by done. by rewrite Hother. }
  unfold now. cbn.
  match goal with |- context [m_create_json _ ?ev _] =>
    destruct (m_create_json_fresh (event_key n) ev w2 Hek Hfresh) as (v3 & w3 & -> & Hf3 & Hw3) end.
  eexists w3, 0, v3, _. split; [done|]. split; [|split; [|split; [exact Hf3|]]].
  - unfold next_seq. rewrite (wrote_view _ _ _ _ _ _ Hw3 meta_key_ok), decide_False by done.
    rewrite (wrote_view _ _ _ _ _ _ Hw2 meta_key_ok), decide_True by done.
    exists h. rewrite Hf2. by rewrite wrap64_small by (unfold u64; lia).
  - rewrite (wrote_view _ _ _ _ _ _ Hw3 Hek). by rewrite decide_True.
  - intros k Hk H1 H2. rewrite (wrote_view _ _ _ _ _ _ Hw3 Hk), decide_False by done.
    rewrite (wrote_view _ _ _ _ _ _ Hw2 Hk), decide_False by done. by apply Hother.
Qed.

Lemma record_once_known w id peer ty amt fee hash gv :
  lacks "/"%char id = true → wview w (marker_key id) = Some gv →
  record_once id peer ty amt fee hash w = (Ok tt, w).
Proof.
  intros Hid Hm. unfold record_once, mbind, M_bind. rewrite m_exists_view by by apply marker_key_ok.
  by rewrite Hm, bool_decide_true by by eexists.
Qed.

Lemma record_once_fresh w n id peer ty amt fee hash :
  lacks "/"%char id = true → next_seq w n → 0 ≤ n < 2 ^ 64 - 1 → wview w (event_key n) = None →
  wview w (marker_key id) = None →
  ∃ w' g v t, record_once id peer ty amt fee hash w = (Ok tt, w') ∧ next_seq w' (n + 1) ∧
    is_Some (wview w' (marker_key id)) ∧ wview w' (event_key n) = Some (g, v) ∧
    from_slice v = Ok (mkLedgerEvent n (Some id) peer ty amt fee (hex_encode <$> hash) t) ∧
    ∀ k, key_ok k → k ≠ meta_key → k ≠ event_key n → k ≠ marker_key id → wview w' k = wview w k.
Proof.
  intros Hid Hn Hr Hev Hm. assert (key_ok (marker_key id)) as Hmk by by apply marker_key_ok.
  destruct (record_inner_spec w n peer ty amt fee hash (Some id) Hn Hr Hev)
    as (w1 & g & v & t & H1 & Hn1 & Hv1 & Hf1 & Ho1).
  unfold record_once, mbind, M_bind. rewrite m_exists_view by done.
  rewrite Hm, bool_decide_false by (by intros [? ?]). rewrite H1. unfold attempt.
  assert (wview w1 (marker_key id) = None) as Hm1 by (rewrite Ho1; done).
  destruct (m_create_json_fresh (marker_key id) true w1 Hmk Hm1) as (v2 & w2 & -> & _ & Hw2). cbn.
  assert (key_ok (event_key n)) as Hek by (apply event_key_ok; lia).
  exists w2, g, v, t. split; [done|]. split_and!.
  - unfold next_seq. rewrite (wrote_view _ _ _ _ _ _ Hw2 meta_key_ok), decide_False by done. exact Hn1.
  - rewrite (wrote_view _ _ _ _ _ _ Hw2 Hmk), decide_True by done. by eexists.
  - rewrite (wrote_view _ _ _ _ _ _ Hw2 Hek), decide_False by done. done.
  - done.
  - intros k Hk Hk1 Hk2 Hk3. rewrite (wrote_view _ _ _ _ _ _ Hw2 Hk), decide_False by done. auto.
Qed.

(** The abstract ledger at [w]: event number [i] is the [i]-th of [evs], and
    nothing else is stored under the ledger's prefix. *)
Definition ledger_holds w (evs : list LedgerEvent) : Prop :=
  next_seq w (len evs) ∧
  (∀ i e, evs !! i = Some e → le_seq e = Z.of_nat i ∧
     ∃ g v, wview w (event_key (Z.of_nat i)) = Some (g, v) ∧ from_slice v = Ok e) ∧
  ∀ seg rest, key_ok (["canopus"; "ledger"] ++ seg :: rest) →
    is_Some (wview w (["canopus"; "ledger"] ++ seg :: rest)) →
    ∃ i, (i < length evs)%nat ∧ seg = pretty (Z.of_nat i) ∧ rest = [].

Lemma ledger_holds_fresh w evs : ledger_holds w evs → wview w (event_key (len evs)) = None.
Proof.
  intros (_ & _ & Hkeys). apply eq_None_not_Some. intros Hs.
  destruct (Hkeys (pretty (len evs)) []) as (i & Hi & Heq & _); [|exact Hs|].
  - apply (event_key_ok (len evs)). unfold len; lia.
  - unfold len in Heq. apply (pretty_Z_nonneg_inj (Z.of_nat (length evs)) (Z.of_nat i)) in Heq; lia.
Qed.

(** A run that writes one new event extends the abstract ledger by it. *)
Lemma ledger_holds_snoc w w' evs e g v :
  ledger_holds w evs → next_seq w' (len evs + 1) → le_seq e = len evs →
  wview w' (event_key (len evs)) = Some (g, v) → from_slice v = Ok e →
  (∀ seg rest, key_ok (["canopus"; "ledger"] ++ seg :: rest) →
     ["canopus"; "ledger"] ++ seg :: rest ≠ event_key (len evs) →
     wview w' (["canopus"; "ledger"] ++ seg :: rest) = wview w (["canopus"; "ledger"] ++ seg :: rest)) →
  ledger_holds w' (evs ++ [e]).
Proof.
  intros Hh Hn Hseq Hv Hf Hsame. pose proof (ledger_holds_fresh w evs Hh) as Hfresh.
  destruct Hh as (_ & Hevs & Hkeys). split; [|split].
  - by rewrite len_app.
  - intros i x [Hi | [Hi Hx]]%lookup_app_Some.
    + destruct (Hevs _ _ Hi) as (Hs & g0 & v0 & Hv0 & Hf0). split; [done|]. exists g0, v0. split; [|done].
      rewrite <- Hv0. apply (Hsame (pretty (Z.of_nat i)) []).
      * apply (event_key_ok (Z.of_nat i)). lia.
      * intros Heq. injection Heq as Heq%pretty_Z_nonneg_inj; unfold len in *; apply lookup_lt_Some in Hi; lia.
    + assert (i = length evs) as -> by (apply lookup_lt_Some in Hx; cbn in Hx; lia).
      rewrite Nat.sub_diag in Hx. injection Hx as <-. split; [exact Hseq|]. by exists g, v.
  - intros seg rest Hk Hs. destruct (decide (["canopus"; "ledger"] ++ seg :: rest = event_key (len evs))) as [Heq|Hne].
    + exists (length evs). rewrite length_app. cbn. injection Heq as -> ->. split; [lia|done].
    + rewrite Hsame in Hs by done. destruct (Hkeys _ _ Hk Hs) as (i & Hi & -> & ->).
      exists i. rewrite length_app. cbn. split; [lia|done].
Qed.

(** The event [e] is what its key holds. *)
Definition event_stored w (e : LedgerEvent) : Prop :=
  0 ≤ le_seq e ∧ ∃ g v, wview w (event_key (le_seq e)) = Some (g, v) ∧ from_slice v = Ok e.

Lemma collect_events_spec w peer es acc :
  Forall (event_stored w) es →
  collect_events peer (map (λ e, event_key (le_seq e)) es) acc w
  = (Ok (acc ++ List.filter (wanted peer) es), w).
Proof.
  intros Hes. revert acc. induction Hes as [|e es He Hes IH]; intros acc.
  - cbn. by rewrite app_nil_r.
  - destruct He as (Hs & g & v & Hv & Hf). cbn [map collect_events]. unfold collect_event, mbind, M_bind, attempt.
    rewrite (m_get_json_present _ _ _ _ _ (event_key_ok _ Hs) Hv Hf). cbn [negb List.filter].
    destruct (wanted peer e); cbn; rewrite IH; [|done]. by rewrite <- app_assoc.
Qed.

Lemma ledger_holds_stored w evs : ledger_holds w evs → Forall (event_stored w) evs.
Proof.
  intros (_ & Hevs & _). apply Forall_lookup. intros i e Hi.
  destruct (Hevs i e Hi) as [Hs (g & v & Hv & Hf)]. split; [lia|]. rewrite Hs. by exists g, v.
Qed.

Lemma list_events_spec w evs peer : ledger_holds w evs →
  list_events peer w = (Ok (List.filter (wanted peer) evs), w).
Proof.
  intros Hh. pose proof (ledger_holds_stored w evs Hh) as Hst. destruct Hh as (_ & Hevs & Hkeys).
  destruct (st_list_spec ["canopus"; "ledger"] (w_store w)) as (cs & Hl & Hnd & Hcs);
    [by apply (bool_decide_unpack _)|].
  assert (∃ evs', cs = map (λ e, event_key (le_seq e)) evs' ∧ evs' ≡ₚ evs) as (evs' & -> & Hp).
  { edestruct (Permutation_map_inv (λ e, event_key (le_seq e)) evs (l1 := cs)) as (evs' & -> & Hp); [|by exists evs'].
    apply NoDup_Permutation; [done| |].
    - apply NoDup_alt. intros i j k Hi Hj.
      apply list_lookup_fmap_Some in Hi as (x & -> & Hx), Hj as (y & Hxy & Hy).
      destruct (Hevs _ _ Hx) as [Hsx _], (Hevs _ _ Hy) as [Hsy _]. rewrite Hsx, Hsy in Hxy.
      injection Hxy as Hxy%pretty_Z_nonneg_inj; lia.
    - intros c. rewrite Hcs, list_elem_of_fmap. split.
      + intros (seg & rest & -> & Hk & Hs). destruct (Hkeys seg rest Hk Hs) as (i & Hi & -> & ->).
        apply lookup_lt_is_Some in Hi as [e He]. exists e. split; [|by eapply list_elem_of_lookup_2].
        destruct (Hevs _ _ He) as [-> _]. done.
      + intros (e & -> & He). rewrite Forall_forall in Hst.
        destruct (Hst e He) as (Hs & g & v & Hv & _).
        exists (pretty (le_seq e)), []. split; [done|]. split; [by apply (event_key_ok (le_seq e))|].
        exists (g, v). exact Hv. }
  unfold list_events, mbind, M_bind, m_list. rewrite Hl.
  rewrite collect_events_spec by (by rewrite Hp). cbn.
  rewrite (merge_sort_numbered evs) by (done || intros; by apply Hevs). done.
Qed.

End LedgerFacts.

(** ** Documents

    The records the program persists, and one type of documents that holds them
    all: the instances under which the theorems are exercised. *)

Class AppJson (V : Type) : Type := {
  app_json_channel :: Json V ChannelData;
  app_json_policy :: Json V ChannelPolicy;
  app_json_link :: Json V ForwardLink;
  app_json_secret :: Json V ChannelSecret;
  app_json_meta :: Json V Meta;
  app_json_event :: Json V LedgerEvent;
  app_json_bool :: Json V bool;
}.

Class AppJsonLaws (V : Type) `{AppJson V} : Prop := {
  app_laws_channel :: JsonLaws V ChannelData;
  app_laws_policy :: JsonLaws V ChannelPolicy;
  app_laws_link :: JsonLaws V ForwardLink;
  app_laws_secret :: JsonLaws V ChannelSecret;
  app_laws_meta :: JsonLaws V Meta;
  app_laws_event :: JsonLaws V LedgerEvent;
  app_laws_bool :: JsonLaws V bool;
}.

(** ** What the ledger promises *)

(** One call of [record_once]. *)
Record OnceCall : Type := mkOnceCall {
  oc_id : string;
  oc_peer : string;
  oc_type : LedgerEventType;
  oc_amount : Z;
  oc_fee : Z;
  oc_hash : option (list byte);
}.

(** The calls that are the first with their id, given the ids [known] before. *)
Fixpoint first_calls (known : list string) (calls : list OnceCall) : list OnceCall :=
  match calls with
  | [] => []
  | c :: calls =>
      if decide (oc_id c ∈ known) then first_calls known calls
      else c :: first_calls (known ++ [oc_id c]) calls
  end.

(** The event of a call; the clock's time is not the call's. *)
Definition event_of {HC : Crypto} (c : OnceCall) (e : LedgerEvent) : Prop :=
  le_event_id e = Some (oc_id c) ∧ le_peer_pubkey e = oc_peer c ∧ le_event_type e = oc_type c ∧
  le_amount_msat e = oc_amount c ∧ le_fee_msat e = oc_fee c ∧ le_payment_hash e = hex_encode <$> oc_hash c.

Definition event_ids (evs : list LedgerEvent) : list string := omap le_event_id evs.

Section Promises.
#[local] Set Default Proof Using "Type*".
Context {HC : Crypto} {S V N : Type} {HS : Store S V} {HL : StoreLaws S V} {HN : NodeActions N}.
Context {JA : AppJson V} {LA : AppJsonLaws V}.
Implicit Types (w : World S V N).

Definition run_call (c : OnceCall) : M (S := S) (V := V) (N := N) StoreError unit :=
  record_once (oc_id c) (oc_peer c) (oc_type c) (oc_amount c) (oc_fee c) (oc_hash c).

(** The markers are those of the events recorded. *)
Definition marked w (evs : list LedgerEvent) : Prop :=
  ∀ id, lacks "/"%char id = true → is_Some (wview w (marker_key id)) ↔ id ∈ event_ids evs.

Lemma run_call_spec w evs c :
  ledger_holds w evs → marked w evs → lacks "/"%char (oc_id c) = true → len evs < 2 ^ 64 - 1 →
  if decide (oc_id c ∈ event_ids evs) then run_call c w = (Ok tt, w)
  else ∃ w' e, run_call c w = (Ok tt, w') ∧ event_of c e ∧ ledger_holds w' (evs ++ [e]) ∧ marked w' (evs ++ [e]).
Proof.
  intros Hh Hm Hid Hlen. case_decide as Hk.
  - apply (Hm _ Hid) in Hk as [gv Hk]. by eapply record_once_known.
  - assert (wview w (marker_key (oc_id c)) = None) as Hnone
      by (apply eq_None_not_Some; by rewrite (Hm _ Hid)).
    destruct (record_once_fresh w (len evs) (oc_id c) (oc_peer c) (oc_type c) (oc_amount c) (oc_fee c) (oc_hash c))
      as (w' & g & v & t & H1 & Hn & Hmk & Hv & Hf & Ho);
      [done|apply Hh|pose proof (len_nonneg evs); lia|by apply ledger_holds_fresh|done|].
    eexists w', _. split; [exact H1|]. split; [|split].
    2: { eapply ledger_holds_snoc; [exact Hh|exact Hn| |exact Hv|exact Hf|]; [done|].
         intros seg rest Hkey Hne. by apply Ho. }
    { by split_and!. }
    intros id Hlack. unfold event_ids. rewrite omap_app. cbn. rewrite elem_of_app, list_elem_of_singleton.
    destruct (decide (id = oc_id c)) as [->|Hne]; [tauto|].
    rewrite Ho; [rewrite (Hm id Hlack); unfold event_ids; tauto|by apply marker_key_ok|done|done|].
    intros Heq. by injection Heq.
Qed.

Lemma run_calls_spec w evs calls :
  ledger_holds w evs → marked w evs → Forall (λ c, lacks "/"%char (oc_id c) = true) calls →
  len evs + len calls < 2 ^ 64 →
  ∃ w' new, for_each run_call calls w = (Ok tt, w') ∧ ledger_holds w' (evs ++ new) ∧ marked w' (evs ++ new) ∧
    Forall2 event_of (first_calls (event_ids evs) calls) new.
Proof.
  revert w evs. induction calls as [|c calls IH]; intros w evs Hh Hm Hids Hlen.
  - exists w, []. rewrite app_nil_r. split; [done|]. split; [done|]. split; [done|constructor].
  - apply Forall_cons in Hids as [Hid Hids]. pose proof (len_nonneg calls).
    assert (len (c :: calls) = 1 + len calls) as Hc by (unfold len; cbn; lia). rewrite Hc in Hlen.
    pose proof (run_call_spec w evs c Hh Hm Hid ltac:(lia)) as Hrun. cbn [for_each first_calls].
    unfold mbind, M_bind. destruct (decide (oc_id c ∈ event_ids evs)) as [Hk|Hk].
    + rewrite Hrun. apply IH; [done..|lia].
    + destruct Hrun as (w1 & e & -> & He & Hh1 & Hm1).
      destruct (IH w1 (evs ++ [e]) Hh1 Hm1 Hids) as (w' & new & Hf & Hh' & Hm' & Hnew);
        [rewrite len_app; change (len [e]) with 1; lia|].
      exists w', (e :: new). rewrite <-app_assoc in Hh', Hm'. split_and!; [exact Hf|exact Hh'|exact Hm'|].
      constructor; [done|]. unfold event_ids in Hnew. rewrite omap_app in Hnew. cbn in Hnew.
      destruct He as (Heid & _). by rewrite Heid in Hnew.
Qed.

End Promises.

(** Every id called is known at the end, and none twice. *)
Lemma first_calls_ids known calls :
  NoDup known → NoDup (known ++ (oc_id <$> first_calls known calls)) ∧
  ∀ c, c ∈ calls → oc_id c ∈ known ++ (oc_id <$> first_calls known calls).
Proof.
  revert known. induction calls as [|c calls IH]; intros known Hk; cbn.
  - rewrite app_nil_r. split; [done|]. by intros c ?%not_elem_of_nil.
  - case_decide as Hc.
    + destruct (IH known Hk) as [H1 H2]. split; [done|]. intros x [->|Hx]%elem_of_cons; [|by apply H2].
      apply elem_of_app. by left.
    + destruct (IH (known ++ [oc_id c])) as [H1 H2].
      { apply NoDup_app. split_and!; [done| |apply NoDup_singleton]. intros x Hx ->%list_elem_of_singleton. done. }
      rewrite <-app_assoc in H1, H2. split; [done|]. intros x [->|Hx]%elem_of_cons; [set_solver|by apply H2].
Qed.

Lemma event_of_ids {HC : Crypto} calls new : Forall2 event_of calls new → event_ids new = oc_id <$> calls.
Proof. induction 1 as [|c e calls new [He _] _ IH]; [done|]. unfold event_ids in *. cbn. by rewrite He, IH. Qed.

(** C32. Calls of [record_once] that are made one after another are exactly-once.
    After any sequence of them, with ids in any order and repeated at will, the ledger
    holds what it held and one event for each id that was new, in the order and with
    the arguments of the first call with that id; so no id occurs twice and every id
    called occurs.  (Calls that overlap are not: see [Race.RaceExamples.record_once_overlaps].) *)
Theorem record_once_exactly_once {HC : Crypto} {S V N} {HS : Store S V} {HL : StoreLaws S V}
    {HN : NodeActions N} {JA : AppJson V} {LA : AppJsonLaws V} (w : World S V N) evs calls :
  ledger_holds w evs → marked w evs → NoDup (event_ids evs) →
  Forall (λ c, lacks "/"%char (oc_id c) = true) calls → len evs + len calls < 2 ^ 64 →
  ∃ w' new,
    for_each run_call calls w = (Ok tt, w') ∧ ledger_holds w' (evs ++ new) ∧
    Forall2 event_of (first_calls (event_ids evs) calls) new ∧
    NoDup (event_ids (evs ++ new)) ∧ ∀ c, c ∈ calls → oc_id c ∈ event_ids (evs ++ new).
Proof.
  intros Hh Hm Hnd Hids Hlen. destruct (run_calls_spec w evs calls Hh Hm Hids Hlen) as (w' & new & Hr & Hh' & _ & Hnew).
  exists w', new. pose proof (first_calls_ids (event_ids evs) calls Hnd) as Hfirst.
  rewrite <-(event_of_ids _ _ Hnew) in Hfirst. unfold event_ids in *. rewrite <-omap_app in Hfirst. tauto.
Qed.

(** *** Balances *)

#[global] Instance LedgerEventType_eq_dec : EqDecision LedgerEventType.
Proof. solve_decision. Defined.

(** The sum of a field over the events of one type. *)
Definition total_of (ty : LedgerEventType) (f : LedgerEvent → Z) (evs : list LedgerEvent) : Z :=
  sum_with f (List.filter (λ e, bool_decide (le_event_type e = ty)) evs).

(** What events pay in, and what they pay out. *)
Definition credits (evs : list LedgerEvent) : Z :=
  total_of LChannelOpen le_amount_msat evs + total_of LHtlcFulfilled le_amount_msat evs +
  total_of LFeeEarned le_fee_msat evs.
Definition debits (evs : list LedgerEvent) : Z := total_of LHtlcForwarded le_amount_msat evs.
Definition net (evs : list LedgerEvent) : Z := credits evs - debits evs.

Definition event_typed (e : LedgerEvent) : Prop := u64 (le_amount_msat e) ∧ u64 (le_fee_msat e).

Lemma total_of_cons ty f e evs :
  total_of ty f (e :: evs) = (if bool_decide (le_event_type e = ty) then f e else 0) + total_of ty f evs.
Proof. unfold total_of. cbn. by case_bool_decide. Qed.

Lemma total_of_nil ty f : total_of ty f [] = 0.
Proof. done. Qed.

Lemma total_of_app ty f xs ys : total_of ty f (xs ++ ys) = total_of ty f xs + total_of ty f ys.
Proof. unfold total_of. by rewrite List.filter_app, sum_with_app. Qed.

Lemma net_app xs ys : net (xs ++ ys) = net xs + net ys.
Proof. unfold net, credits, debits. rewrite !total_of_app. lia. Qed.

(** One event moves the balance by its credit and its debit, but not below zero. *)
Lemma balance_step_spec b e evs : event_typed e → 0 ≤ b → b + credits (e :: evs) ≤ U64_MAX →
  0 ≤ credits evs →
  balance_step b e = Z.max 0 (b + net [e]) ∧ 0 ≤ balance_step b e ∧ balance_step b e + credits evs ≤ U64_MAX ∧
  net (e :: evs) = net [e] + net evs.
Proof.
  intros [[Ha _] [Hf _]] Hb Hmax Hc.
  assert (net (e :: evs) = net [e] + net evs) as Hn by apply (net_app [e] evs).
  rewrite Hn. unfold net, credits, debits in *. rewrite !total_of_cons, !total_of_nil in *. clear Hn.
  unfold balance_step, saturating_add_u64, saturating_sub_u64, U64_MAX in *.
  destruct (le_event_type e); repeat (case_bool_decide; try congruence); lia.
Qed.

Lemma credits_nonneg evs : Forall event_typed evs → 0 ≤ credits evs.
Proof.
  intros Hty. unfold credits, total_of. pose proof (λ p, Forall_List_filter event_typed p evs Hty) as Hf.
  assert (∀ p, 0 ≤ sum_with le_amount_msat (List.filter p evs) ∧ 0 ≤ sum_with le_fee_msat (List.filter p evs)) as Hs.
  { intros p. split; apply sum_with_nonneg; eapply Forall_impl; try apply (Hf p); intros e [[? _] [? _]]; done. }
  pose proof (Hs (λ e, bool_decide (le_event_type e = LChannelOpen))).
  pose proof (Hs (λ e, bool_decide (le_event_type e = LHtlcFulfilled))).
  pose proof (Hs (λ e, bool_decide (le_event_type e = LFeeEarned))). lia.
Qed.

(** A balance that cannot fall below zero is the largest net sum of a suffix. *)
Lemma balance_fold evs : Forall event_typed evs → ∀ b, 0 ≤ b → b + credits evs ≤ U64_MAX →
  let r := foldl balance_step b evs in
  b + net evs ≤ r ∧ (∀ k, net (drop k evs) ≤ r) ∧ (r = b + net evs ∨ ∃ k, r = net (drop k evs)).
Proof.
  intros Hty. induction Hty as [|e evs He Hty IH]; intros b Hb Hmax; cbn [foldl].
  - change (net []) with 0. split_and!; [lia| |left; lia]. intros k. rewrite drop_nil. done.
  - destruct (balance_step_spec b e evs He Hb Hmax (credits_nonneg evs Hty)) as (Heq & Hpos & Hle & Hnet).
    destruct (IH (balance_step b e) Hpos Hle) as (H1 & H2 & H3). rewrite Hnet. split_and!; [lia| |].
    + intros [|k]; [|apply H2]. cbn [drop]. specialize (H2 0%nat). rewrite drop_0 in H2. lia.
    + destruct H3 as [H3|[k H3]]; [|right; by exists (S k)]. destruct (Z.max_spec 0 (b + net [e])) as [[_ Hm]|[_ Hm]].
      * left. lia.
      * right. exists 1%nat. cbn [drop]. rewrite drop_0. lia.
Qed.

(** C33. The ledger refines a list of events.  On a ledger that holds [evs],
    [list_events] returns exactly the events of the peer asked for, in the order they
    were recorded whatever order the store lists them in.  [channel_balance] is what a
    balance that never falls below zero comes to: with what was paid in (opening
    amounts, fulfilled HTLCs, fees) less what was paid out (forwarded HTLCs) as the
    [net] of some events, it is the greatest net of a suffix of the peer's events; when
    no beginning of them is in deficit it is the net of all.  (The sum of what was
    paid in is within u64.) *)
Theorem ledger_refines_list {HC : Crypto} {S V N} {HS : Store S V} {HL : StoreLaws S V}
    {HN : NodeActions N} {JA : AppJson V} {LA : AppJsonLaws V}
    (w : World S V N) evs peer pk :
  ledger_holds w evs → Forall event_typed evs →
  let mine := List.filter (λ e, String.eqb (le_peer_pubkey e) pk) evs in
  credits mine ≤ U64_MAX →
  list_events peer w = (Ok (List.filter (wanted peer) evs), w) ∧
  ∃ balance, channel_balance pk w = (Ok balance, w) ∧
    (∀ k, net (drop k mine) ≤ balance) ∧ (∃ k, balance = net (drop k mine)) ∧
    ((∀ k, 0 ≤ net (take k mine)) → balance = net mine).
Proof.
  intros Hh Hty mine Hmax. split; [by apply list_events_spec|].
  assert (Forall event_typed mine) as Hmine by by apply Forall_List_filter.
  exists (foldl balance_step 0 mine). unfold channel_balance, mbind, M_bind. rewrite (list_events_spec w evs (Some pk) Hh).
  split; [done|]. destruct (balance_fold mine Hmine 0 ltac:(lia) Hmax) as (H1 & H2 & H3).
  assert (∃ k, foldl balance_step 0 mine = net (drop k mine)) as [k Hk].
  { destruct H3 as [H3|H3]; [|done]. exists 0%nat. rewrite drop_0. lia. }
  split; [done|]. split; [by exists k|]. intros Hpre. specialize (Hpre k). rewrite Hk in *.
  pose proof (net_app (take k mine) (drop k mine)) as Happ. rewrite take_drop in Happ. lia.
Qed.

Module Docs.

Inductive Doc : Type :=
| DChannel (d : ChannelData)
| DPolicy (p : ChannelPolicy)
| DLink (l : ForwardLink)
| DSecret (s : ChannelSecret)
| DMeta (m : Meta)
| DEvent (e : LedgerEvent)
| DBool (b : bool).

#[export] Instance doc_json : AppJson Doc := {|
  app_json_channel := {| to_vec d := Ok (DChannel d);
    from_slice v := match v with DChannel d => Ok d | _ => Err "channel" end |};
  app_json_policy := {| to_vec d := Ok (DPolicy d);
    from_slice v := match v with DPolicy d => Ok d | _ => Err "policy" end |};
  app_json_link := {| to_vec d := Ok (DLink d);
    from_slice v := match v with DLink d => Ok d | _ => Err "link" end |};
  app_json_secret := {| to_vec d := Ok (DSecret d);
    from_slice v := match v with DSecret d => Ok d | _ => Err "secret" end |};
  app_json_meta := {| to_vec d := Ok (DMeta d);
    from_slice v := match v with DMeta d => Ok d | _ => Err "meta" end |};
  app_json_event := {| to_vec d := Ok (DEvent d);
    from_slice v := match v with DEvent d => Ok d | _ => Err "event" end |};
  app_json_bool := {| to_vec d := Ok (DBool d);
    from_slice v := match v with DBool d => Ok d | _ => Err "bool" end |} |}.

#[export] Instance doc_json_laws : AppJsonLaws Doc.
Proof. split; split; intros a; by eexists. Qed.

End Docs.

Module LedgerExamples.
Import Toy Docs ToyJson.

Definition w0 : World (MemoryStore Doc) Doc MockNode :=
  mkWorld ∅ (MockNode_new (Some 1700000000) Byte.x05 100 Byte.x05 "regtest") ∅ ∅ [].

Lemma w0_view k : wview w0 k = None.
Proof. unfold wview, w0. cbn. unfold mem_view. by rewrite lookup_empty. Qed.

Lemma w0_holds : ledger_holds w0 [].
Proof.
  split; [|split].
  - unfold next_seq. by rewrite w0_view.
  - intros i e Hi. by rewrite lookup_nil in Hi.
  - intros seg rest _ [gv Hs]. by rewrite w0_view in Hs.
Qed.

Lemma w0_marked : marked w0 [].
Proof.
  intros id _. split; [intros [gv Hs]; by rewrite w0_view in Hs|]. by intros ?%not_elem_of_nil.
Qed.

(** An opening, a repetition of its id with other arguments, and another id. *)
Definition calls : list OnceCall :=
  [mkOnceCall "open" "02aa" LChannelOpen 5000 0 None; mkOnceCall "open" "02aa" LHtlcFailed 1 0 None;
   mkOnceCall "other" "02bb" LOverride 7 0 None].

Lemma record_once_exactly_once_witness :
  ∃ w' new, for_each run_call calls w0 = (Ok tt, w') ∧ ledger_holds w' new ∧
    event_ids new = ["open"; "other"] ∧ (le_amount_msat <$> new) = [5000; 7].
Proof.
  destruct (record_once_exactly_once w0 [] calls w0_holds w0_marked) as (w' & new & H1 & H2 & H3 & _).
  - constructor.
  - by repeat constructor.
  - by vm_compute.
  - exists w', new. split; [exact H1|]. split; [exact H2|].
    change (first_calls (event_ids []) calls) with
      [mkOnceCall "open" "02aa" LChannelOpen 5000 0 None; mkOnceCall "other" "02bb" LOverride 7 0 None] in H3.
    apply Forall2_cons_inv_l in H3 as (e1 & l & (E1 & _ & _ & A1 & _) & H3 & ->).
    apply Forall2_cons_inv_l in H3 as (e2 & l2 & (E2 & _ & _ & A2 & _) & H3 & ->).
    apply Forall2_nil_inv_l in H3 as ->. unfold event_ids. cbn. rewrite E1, E2, A1, A2. split; reflexivity.
Defined.

Lemma one_event : ∃ w' t, ledger_holds w' [mkLedgerEvent 0 None "02aa" LChannelOpen 5000 0 None t]
  ∧ record_inner "02aa" LChannelOpen 5000 0 None None w0 = (Ok tt, w').
Proof.
  destruct (record_inner_spec w0 0 "02aa" LChannelOpen 5000 0 None None) as (w' & g & v & t & H1 & Hn & Hv & Hf & Ho).
  - apply w0_holds.
  - lia.
  - apply w0_view.
  - exists w', t. split; [|exact H1].
    eapply (ledger_holds_snoc w0 w' []); [exact w0_holds|exact Hn| |exact Hv|exact Hf|].
    + done.
    + intros seg rest Hk Hne. by apply Ho.
Qed.

Lemma ledger_refines_list_witness : ∃ (w' : World (MemoryStore Doc) Doc MockNode) t,
  list_events None w' = (Ok [mkLedgerEvent 0 None "02aa" LChannelOpen 5000 0 None t], w') ∧
  channel_balance "02aa" w' = (Ok 5000, w').
Proof.
  destruct one_event as (w' & t & Hh & _). exists w', t.
  destruct (ledger_refines_list w' _ None "02aa" Hh) as (Hl & b & Hb & _ & _ & Hnet).
  - repeat constructor; by vm_compute.
  - vm_compute. discriminate.
  - split; [exact Hl|]. rewrite Hb, Hnet; [reflexivity|]. intros [|[|k]]; vm_compute; discriminate.
Defined.

End LedgerExamples.
