(* ===== verification/Scanner.v ===== *)
(** * The preimage scanner ([src/scanner.rs])

    Finding payment preimages published in OP_RETURN outputs.  Decoding a block
    is the [bitcoin] crate's; here it is an argument that gives the output
    scripts of every transaction. *)
From S2P Require Import Prelude Text Bytes Crypto ChannelId Node.
From stdpp Require Import options.
From stdpp Require Import sorting gmap.
#[local] Open Scope Z_scope.

(** [OP_RETURN.to_u8()]. *)
Definition OP_RETURN : Z := 0x6a.

(** ** Pushes of a script *)

(** What the length match of one iteration decides: the data length and what
    follows, [continue], or [break]. *)
Inductive PushStep : Type :=
| PushData (n : Z) (rest : list byte)
| NoPush
| StopScript.

Definition push_step (opcode : Z) (script : list byte) : PushStep :=
  if (0x01 <=? opcode) && (opcode <=? 0x4b) then PushData opcode script
  else if opcode =? 0x4c then
    match script with
    | [] => StopScript
    | n :: rest => PushData (Z_of_byte n) rest
    end
  else if opcode =? 0x4d then
    if len script <? 2 then StopScript else PushData (le_Z (take 2 script)) (drop 2 script)
  else if opcode =? 0x4e then
    if len script <? 4 then StopScript else PushData (le_Z (take 4 script)) (drop 4 script)
  else NoPush.

(** [data.chunks_exact(32)]. *)
Fixpoint chunks (k : nat) (data : list byte) : list (list byte) :=
  match k with
  | O => []
  | S k => take 32 data :: chunks k (drop 32 data)
  end.

(** The values one push contributes. *)
Definition pieces (data : list byte) : list (list byte) :=
  if len data =? 32 then [data]
  else if len data mod 32 =? 0 then chunks (length data / 32) data
  else [].

(** The loop; [None]: out of fuel. *)
Fixpoint pushed_loop (fuel : nat) (script : list byte) : option (list (list byte)) :=
  match fuel with
  | O => None
  | S fuel =>
      match script with
      | [] => Some []
      | opcode :: script =>
          match push_step (Z_of_byte opcode) script with
          | StopScript => Some []
          | NoPush => pushed_loop fuel script
          | PushData n script =>
              if len script <? n then Some []
              else values ← pushed_loop fuel (drop (Z.to_nat n) script);
                   Some (pieces (take (Z.to_nat n) script) ++ values)
          end
      end
  end.

Definition pushed_32_byte_values (script : list byte) : list (list byte) :=
  default [] (pushed_loop (S (length script)) script).

(** ** Scripts and blocks *)

(** [Vec::dedup]. *)
Fixpoint dedup {A} `{EqDecision A} (l : list A) : list A :=
  match l with
  | x :: ((y :: _) as l) => if decide (x = y) then dedup l else x :: dedup l
  | l => l
  end.

Definition sort_dedup (found : list (list byte)) : list (list byte) :=
  dedup (merge_sort (λ a b, Is_true (bytes_le a b)) found).

Section Scan.
Context {HC : Crypto}.

Definition scan_script_for_preimages (script : list byte) (inflight_hashes : gset (list byte))
    : list (list byte) :=
  match script with
  | opcode :: script =>
      if negb (Z_of_byte opcode =? OP_RETURN) then []
      else filter (λ candidate, sha256 candidate ∈ inflight_hashes) (pushed_32_byte_values script)
  | [] => []
  end.

(** [deserialize::<Block>], down to the scripts of the outputs of each transaction. *)
Variable block_scripts : list byte → option (list (list (list byte))).

Definition scan_block_for_preimages (block_hex : string) (inflight_hashes : gset (list byte))
    : list (list byte) :=
  match hex_decode block_hex with
  | None => []
  | Some bytes =>
      match block_scripts bytes with
      | None => []
      | Some txdata =>
          sort_dedup (txdata ≫= λ outputs,
            outputs ≫= λ script, scan_script_for_preimages script inflight_hashes)
      end
  end.

(** ** The scanner *)

Record PreimageScanner : Type := mkPreimageScanner {
  last_scanned_height : Z;
  inflight_hashes : gset (list byte);
}.

Definition PreimageScanner_new : PreimageScanner := mkPreimageScanner 0 ∅.

Definition watch (payment_hash : list byte) (s : PreimageScanner) : PreimageScanner :=
  mkPreimageScanner (last_scanned_height s) ({[payment_hash]} ∪ inflight_hashes s).

Definition unwatch (payment_hash : list byte) (s : PreimageScanner) : PreimageScanner :=
  mkPreimageScanner (last_scanned_height s) (inflight_hashes s ∖ {[payment_hash]}).

Context {N : Type} {HN : NodeActions N}.

(** The loop over [heights]: what is found, the last height scanned, the node. *)
Fixpoint scan_heights (heights : list Z) (inflight : gset (list byte)) (last : Z) (node : N)
    : list (list byte) * Z * N :=
  match heights with
  | [] => ([], last, node)
  | height :: heights =>
      match n_get_raw_block_by_height height node with
      | (Err _, node) => ([], last, node)
      | (Ok block_hex, node) =>
          let '(found, last, node) := scan_heights heights inflight height node in
          (scan_block_for_preimages block_hex inflight ++ found, last, node)
      end
  end.

Definition scan_once (s : PreimageScanner) (node : N) : list (list byte) * PreimageScanner * N :=
  match n_get_block_height node with
  | (Err _, node) => ([], s, node)
  | (Ok current_height, node) =>
      let last := last_scanned_height s in
      if current_height <=? last then ([], s, node) else
      let from := Z.min (last + 1) U32_MAX in
      let '(found, last, node) :=
        scan_heights (seqZ from (current_height - from + 1)) (inflight_hashes s) last node in
      (sort_dedup found, mkPreimageScanner last (inflight_hashes s), node)
  end.

End Scan.

(** ** Scripts made of pushes *)

(** [Builder::push_slice]: the shortest opcode for the length. *)
Definition encode_push (data : list byte) : list byte :=
  if len data <=? 0x4b then byte_of_Z (len data) :: data
  else if len data <=? 0xff then byte_of_Z 0x4c :: byte_of_Z (len data) :: data
  else if len data <=? 0xffff then byte_of_Z 0x4d :: le_bytes 2 (len data) ++ data
  else byte_of_Z 0x4e :: le_bytes 4 (len data) ++ data.

Lemma take_le_bytes n z l : take n (le_bytes n z ++ l) = le_bytes n z.
Proof. apply take_app_length'. by rewrite le_bytes_length. Qed.
Lemma drop_le_bytes n z l : drop n (le_bytes n z ++ l) = l.
Proof. apply drop_app_length'. by rewrite le_bytes_length. Qed.
Lemma le_Z_le_bytes n z : 0 ≤ z < 256 ^ Z.of_nat n → le_Z (le_bytes n z) = z.
Proof. intros Hz. unfold le_Z, le_bytes. by rewrite reverse_involutive, be_Z_be_bytes_id. Qed.

Lemma len_le_bytes n z : len (le_bytes n z) = Z.of_nat n.
Proof. unfold len. by rewrite le_bytes_length. Qed.

(** One push is read back with its data in front. *)
Lemma push_step_encode data rest : 0 < len data < 2 ^ 32 →
  ∃ op l, encode_push data ++ rest = op :: l ∧
          push_step (Z_of_byte op) l = PushData (len data) (data ++ rest).
Proof.
  intros Hl. unfold encode_push.
  destruct (Z.leb_spec (len data) 0x4b); [|destruct (Z.leb_spec (len data) 0xff);
    [|destruct (Z.leb_spec (len data) 0xffff)]]; eexists _, _; (split; [rewrite <-!app_comm_cons; reflexivity|]);
    unfold push_step; rewrite Z_of_byte_of_Z.
  - rewrite (Z.mod_small (len data)) by lia.
    replace ((1 <=? len data) && (len data <=? 75)) with true by lia. done.
  - cbn. rewrite Z_of_byte_of_Z, (Z.mod_small (len data)) by lia. done.
  - rewrite <-app_assoc. rewrite take_le_bytes, drop_le_bytes, le_Z_le_bytes by (cbn; lia).
    rewrite len_app, len_le_bytes. pose proof (len_nonneg (data ++ rest)).
    destruct (Z.ltb_spec (Z.of_nat 2 + len (data ++ rest)) 2); [lia|]. done.
  - rewrite <-app_assoc. rewrite take_le_bytes, drop_le_bytes, le_Z_le_bytes by (cbn; lia).
    rewrite len_app, len_le_bytes. pose proof (len_nonneg (data ++ rest)).
    destruct (Z.ltb_spec (Z.of_nat 4 + len (data ++ rest)) 4); [lia|]. done.
Qed.

Lemma push_step_length op script n rest :
  push_step op script = PushData n rest → (length rest ≤ length script)%nat.
Proof.
  unfold push_step. repeat case_match; intros; simplify_eq; cbn; rewrite ?length_drop; lia.
Qed.

(** The loop returns: every iteration consumes its opcode. *)
Lemma pushed_loop_returns fuel script :
  (length script < fuel)%nat → ∃ values, pushed_loop fuel script = Some values.
Proof.
  revert script. induction fuel as [|fuel IH]; intros script Hf; [lia|].
  destruct script as [|op script]; [by eexists|]. cbn in *.
  destruct (push_step _ script) as [n rest| |] eqn:Hp; [|apply IH; lia|by eexists].
  apply push_step_length in Hp. destruct (len rest <? n); [by eexists|].
  destruct (IH (drop (Z.to_nat n) rest)) as [vs ->]; [rewrite length_drop; lia|]. by eexists.
Qed.

Lemma pushed_loop_fuel fuel1 fuel2 script values :
  pushed_loop fuel1 script = Some values → (fuel1 ≤ fuel2)%nat → pushed_loop fuel2 script = Some values.
Proof.
  revert fuel2 script values. induction fuel1 as [|f1 IH]; intros [|f2] script values H Hle; try done; [lia|].
  cbn in *. destruct script as [|op script]; [done|].
  destruct (push_step _ script) as [n rest| |]; [|apply IH; [done|lia]|done].
  destruct (len rest <? n); [done|]. apply bind_Some in H as (vs & Hvs & H).
  by rewrite (IH _ _ _ Hvs) by lia.
Qed.

Lemma pushed_eq script values fuel :
  pushed_loop fuel script = Some values → pushed_32_byte_values script = values.
Proof.
  intros H. unfold pushed_32_byte_values.
  destruct (pushed_loop_returns (S (length script)) script) as [vs Hvs]; [lia|]. rewrite Hvs. cbn.
  apply (pushed_loop_fuel _ (Nat.max fuel (S (length script)))) in H; [|lia].
  apply (pushed_loop_fuel _ (Nat.max fuel (S (length script)))) in Hvs; [|lia]. congruence.
Qed.

Lemma pushed_loop_push fuel op script n rest :
  push_step (Z_of_byte op) script = PushData n rest → n ≤ len rest →
  pushed_loop (S fuel) (op :: script) =
    values ← pushed_loop fuel (drop (Z.to_nat n) rest);
    Some (pieces (take (Z.to_nat n) rest) ++ values).
Proof. intros Hp Hn. cbn. rewrite Hp. destruct (Z.ltb_spec (len rest) n); [lia|done]. Qed.

Lemma take_len {A} (l k : list A) : take (Z.to_nat (len l)) (l ++ k) = l.
Proof. apply take_app_length'. unfold len. lia. Qed.
Lemma drop_len {A} (l k : list A) : drop (Z.to_nat (len l)) (l ++ k) = k.
Proof. apply drop_app_length'. unfold len. lia. Qed.

(** Reading a script of pushes back: whatever data items are pushed, with the
    shortest opcode each, the scanner sees exactly their 32-byte pieces, in
    order; and it does so on every script, however malformed, within the fuel. *)
Theorem pushes_roundtrip items :
  Forall (λ d, 0 < len d < 2 ^ 32) items →
  pushed_32_byte_values (items ≫= encode_push) = items ≫= pieces.
Proof.
  intros Hi. apply (pushed_eq _ _ (S (length items))). induction Hi as [|d items Hd _ IH]; [done|].
  rewrite !bind_cons. destruct (push_step_encode d (items ≫= encode_push) Hd) as (op & l & -> & Hp).
  rewrite (pushed_loop_push _ _ _ _ _ Hp) by (rewrite len_app; pose proof (len_nonneg (items ≫= encode_push)); lia).
  change (length (d :: items)) with (S (length items)). by rewrite drop_len, take_len, IH.
Qed.

(** ** What a scan finds *)

Section ScanFacts.
Context {HC : Crypto}.
Variable block_scripts : list byte → option (list (list (list byte))).

Lemma elem_of_dedup {A} `{EqDecision A} (l : list A) x : x ∈ dedup l ↔ x ∈ l.
Proof.
  induction l as [|y l IH]; [done|]. destruct l as [|z l]; [done|]. cbn [dedup].
  destruct (decide (y = z)) as [->|]; rewrite ?elem_of_cons, IH, ?elem_of_cons; naive_solver.
Qed.

Lemma elem_of_sort_dedup l p : p ∈ sort_dedup l ↔ p ∈ l.
Proof. unfold sort_dedup. by rewrite elem_of_dedup, merge_sort_Permutation. Qed.

Lemma chunks_length k data d : (32 * k ≤ length data)%nat → d ∈ chunks k data → length d = 32%nat.
Proof.
  revert data. induction k as [|k IH]; intros data Hl Hd; [by apply elem_of_nil in Hd|]. cbn in Hd.
  apply elem_of_cons in Hd as [->|Hd]; [rewrite length_take; lia|].
  apply IH in Hd; [done|]. rewrite length_drop. lia.
Qed.

Lemma pieces_length data d : d ∈ pieces data → length d = 32%nat.
Proof.
  unfold pieces. destruct (Z.eqb_spec (len data) 32).
  - intros ->%list_elem_of_singleton. unfold len in *. lia.
  - destruct (_ =? 0); [|by intros ?%elem_of_nil].
    apply chunks_length. pose proof (Nat.Div0.div_mod (length data) 32). lia.
Qed.

Lemma pushed_loop_pieces fuel script values d :
  pushed_loop fuel script = Some values → d ∈ values → length d = 32%nat.
Proof.
  revert script values. induction fuel as [|fuel IH]; intros script values H Hd; [done|].
  cbn in H. destruct script as [|op script]; [injection H as <-; by apply elem_of_nil in Hd|].
  destruct (push_step _ script) as [n rest| |]; [|by eapply IH|injection H as <-; by apply elem_of_nil in Hd].
  destruct (len rest <? n); [injection H as <-; by apply elem_of_nil in Hd|].
  apply bind_Some in H as (vs & Hvs & [= <-]). apply elem_of_app in Hd as [Hd|Hd];
    [by eapply pieces_length|by eapply IH].
Qed.

(** An output of the block has the script. *)
Definition publishes (bytes script : list byte) : Prop :=
  ∃ txdata outputs, block_scripts bytes = Some txdata ∧ outputs ∈ txdata ∧ script ∈ outputs.

(** A scan of a block returns exactly the preimages of watched payment hashes
    that some OP_RETURN output pushes: nothing that is not a 32-byte preimage of
    a watched hash, and none that is published is missed. *)
Theorem scan_block_exact block_hex bytes hashes p :
  hex_decode block_hex = Some bytes →
  p ∈ scan_block_for_preimages block_scripts block_hex hashes ↔
  sha256 p ∈ hashes ∧ length p = 32%nat ∧
  ∃ op script, publishes bytes (op :: script) ∧ Z_of_byte op = OP_RETURN ∧
               p ∈ pushed_32_byte_values script.
Proof.
  intros Hhex. unfold scan_block_for_preimages, publishes. rewrite Hhex.
  assert (∀ script, p ∈ pushed_32_byte_values script → length p = 32%nat) as Hlen.
  { intros script. unfold pushed_32_byte_values.
    destruct (pushed_loop _ script) as [vs|] eqn:Hl; cbn; [by apply (pushed_loop_pieces _ _ _ p Hl)|].
    by intros ?%elem_of_nil. }
  destruct (block_scripts bytes) as [txdata|]; [|split; [by intros ?%elem_of_nil|naive_solver]].
  rewrite elem_of_sort_dedup, list_elem_of_bind. setoid_rewrite list_elem_of_bind. split.
  - intros (outputs & (script & Hp & Hs) & Ho). unfold scan_script_for_preimages in Hp.
    destruct script as [|op script]; [by apply elem_of_nil in Hp|].
    destruct (Z.eqb_spec (Z_of_byte op) OP_RETURN); cbn [negb] in Hp; [|by apply elem_of_nil in Hp].
    apply list_elem_of_filter in Hp as [Hh Hp]. split; [done|]. split; [by eapply Hlen|].
    exists op, script. split; [by exists txdata, outputs|done].
  - intros (Hh & _ & op & script & (tx & outputs & [= <-] & Ho & Hs) & Hop & Hp).
    exists outputs. split; [|done]. exists (op :: script). split; [|done]. cbn.
    rewrite Hop, Z.eqb_refl. cbn [negb]. by apply list_elem_of_filter.
Qed.

Context {N : Type} {HN : NodeActions N}.

(** The node answers with the blocks of [chain]. *)
Definition serves (node : N) (chain : Z → result NodeError string) : Prop :=
  ∀ h, n_get_raw_block_by_height h node = (chain h, node).

Lemma scan_heights_spec node chain hashes n from found last' node' :
  serves node chain →
  scan_heights block_scripts (seqZ from (Z.of_nat n)) hashes (from - 1) node = (found, last', node') →
  from - 1 ≤ last' < from + Z.of_nat n ∧ node' = node ∧
  (∀ p, p ∈ found ↔ ∃ h hex, from ≤ h ≤ last' ∧ chain h = Ok hex ∧
                     p ∈ scan_block_for_preimages block_scripts hex hashes) ∧
  (last' = from + Z.of_nat n - 1 ∨ ∃ e, chain (last' + 1) = Err e).
Proof.
  intros Hn. revert from found last'. induction n as [|n IH]; intros from found last'.
  - cbn. intros [= <- <- <-]. split_and!; [lia|lia|done| |left; lia].
    intros p. rewrite elem_of_nil. split; [done|]. intros (h & hex & Hh & _). lia.
  - rewrite seqZ_cons by lia. replace (Z.pred (Z.of_nat (S n))) with (Z.of_nat n) by lia.
    cbn [scan_heights]. rewrite Hn. destruct (chain from) as [hex|e] eqn:Hc.
    + destruct (scan_heights _ _ _ from node) as [[found1 last1] node1] eqn:Hr. intros [= <- <- <-].
      replace from with (Z.succ from - 1) in Hr at 2 by lia. apply IH in Hr as (Hl & -> & Hf & He).
      split_and!; [lia|lia|done| |destruct He as [He|He]; [left; lia|by right]].
      intros p. rewrite elem_of_app, Hf. split.
      * intros [Hp|(h & hx & Hh & ? & ?)]; [exists from, hex|exists h, hx]; (split; [lia|done]).
      * intros (h & hx & Hh & Hch & Hp). destruct (decide (h = from)) as [->|]; [left; congruence|].
        right. exists h, hx. split; [lia|done].
    + intros [= <- <- <-]. split_and!; [lia|lia|done| |right; exists e; by replace (from - 1 + 1) with from by lia].
      intros p. rewrite elem_of_nil. split; [done|]. intros (h & hx & Hh & _). lia.
Qed.

(** A block of the chain after [last] and up to [k] has an OP_RETURN output with the
    script's rest. *)
Definition published_between (chain : Z → result NodeError string) (last k : Z) (script : list byte) : Prop :=
  ∃ h hex bytes op, last < h ≤ k ∧ chain h = Ok hex ∧ hex_decode hex = Some bytes ∧
                    publishes bytes (op :: script) ∧ Z_of_byte op = OP_RETURN.

Lemma found_published chain last k hashes (found : list (list byte)) :
  (∀ p, p ∈ found ↔ ∃ h hex, last < h ≤ k ∧ chain h = Ok hex ∧ p ∈ scan_block_for_preimages block_scripts hex hashes) →
  (∀ p, p ∈ found ↔ sha256 p ∈ hashes ∧ length p = 32%nat ∧
     ∃ script, published_between chain last k script ∧ p ∈ pushed_32_byte_values script) ∧
  (∀ p items, sha256 p ∈ hashes → length p = 32%nat → p ∈ items → Forall (λ d, 0 < len d < 2 ^ 32) items →
     published_between chain last k (items ≫= encode_push) → p ∈ found).
Proof.
  intros Hf. assert (∀ p, p ∈ found ↔ sha256 p ∈ hashes ∧ length p = 32%nat ∧
     ∃ script, published_between chain last k script ∧ p ∈ pushed_32_byte_values script) as Hfound.
  { intros p. rewrite Hf. unfold published_between. split.
    - intros (h & hex & Hh & Hc & Hp). destruct (hex_decode hex) as [bytes|] eqn:Hx.
      + destruct (proj1 (scan_block_exact hex bytes hashes p Hx) Hp) as (? & ? & op & script & ? & ? & ?).
        split; [done|]. split; [done|]. exists script. split; [by exists h, hex, bytes, op|done].
      + unfold scan_block_for_preimages in Hp. rewrite Hx in Hp. by apply elem_of_nil in Hp.
    - intros (Hh & Hl & script & (h & hex & bytes & op & ? & ? & Hx & ? & ?) & ?). exists h, hex.
      split; [done|]. split; [done|]. apply (scan_block_exact hex bytes hashes p Hx).
      split; [done|]. split; [done|]. by exists op, script. }
  split; [exact Hfound|]. intros p items Hh Hl Hp Hi Hpub. apply Hfound. split; [done|]. split; [done|].
  exists (items ≫= encode_push). split; [done|]. rewrite pushes_roundtrip by done. apply list_elem_of_bind.
  exists p. split; [|done]. unfold pieces, len. rewrite Hl. by left.
Qed.

(** C39. No block is skipped and none is scanned twice: a run of the preimage scanner
    takes up where the last one stopped and advances block by block to the tip of the
    chain, or to the first block the node cannot deliver.  It returns exactly the
    32-byte preimages of watched payment hashes that some OP_RETURN output of the
    blocks it passed pushes; in particular each that is pushed, whatever is pushed
    before and after it, is found. *)
Theorem scan_once_progress s node chain top :
  n_get_block_height node = (Ok top, node) → serves node chain →
  0 ≤ last_scanned_height s < top → top ≤ U32_MAX →
  ∃ found k, scan_once block_scripts s node = (found, mkPreimageScanner k (inflight_hashes s), node) ∧
    last_scanned_height s ≤ k ≤ top ∧
    (k = top ∨ ∃ e, chain (k + 1) = Err e) ∧
    (∀ p, p ∈ found ↔ sha256 p ∈ inflight_hashes s ∧ length p = 32%nat ∧
       ∃ script, published_between chain (last_scanned_height s) k script ∧ p ∈ pushed_32_byte_values script) ∧
    (∀ p items, sha256 p ∈ inflight_hashes s → length p = 32%nat → p ∈ items →
       Forall (λ d, 0 < len d < 2 ^ 32) items →
       published_between chain (last_scanned_height s) k (items ≫= encode_push) → p ∈ found).
Proof.
  intros Htop Hserves Hlast Hmax. unfold scan_once. rewrite Htop. cbv zeta.
  destruct (Z.leb_spec top (last_scanned_height s)); [lia|]. rewrite Z.min_l by lia.
  destruct (scan_heights _ _ _ _ node) as [[found k] node'] eqn:Hr.
  replace (top - (last_scanned_height s + 1) + 1) with (Z.of_nat (Z.to_nat (top - last_scanned_height s))) in Hr by lia.
  replace (last_scanned_height s) with (last_scanned_height s + 1 - 1) in Hr at 3 by lia.
  apply (scan_heights_spec node chain) in Hr as (Hk & -> & Hf & He); [|done].
  exists (sort_dedup found), k. split; [done|]. split; [lia|]. split; [destruct He as [He|He]; [left; lia|by right]|].
  apply found_published. intros p. rewrite elem_of_sort_dedup, Hf.
  split; intros (h & hex & Hh & Hx); exists h, hex; (split; [lia|done]).
Qed.

End ScanFacts.

(** ** Evaluated examples

    A block is one octet per script length; the chain publishes the preimage of
    a watched hash in block 2. *)
Module ScannerExamples.
Import Toy.

Definition preimage : list byte := be_bytes 32 77.
Definition script : list byte := byte_of_Z OP_RETURN :: encode_push preimage.

(** Each "block" is one transaction with one output. *)
Definition scripts_of (l : list byte) : option (list (list (list byte))) := Some [[l]].

Definition chain (h : Z) : result NodeError string :=
  if h =? 2 then Ok (hex_encode script) else if h =? 4 then Err (Rpc "pruned") else Ok "".

Definition scanner : PreimageScanner := watch (sha256 preimage) PreimageScanner_new.

#[local] Instance chain_node : NodeActions () := {|
  n_send_custom_msg _ _ n := (Ok tt, n);
  n_send_onion _ n := (Ok tt, n);
  n_inspect_outgoing_payment _ _ n := (Ok Unknown, n);
  n_get_block_height n := (Ok 5, n);
  n_get_raw_block_by_height h n := (chain h, n);
  n_resolve_htlc _ _ n := (Ok tt, n);
  n_store_preimage _ _ n := (Ok tt, n);
  n_lookup_preimage _ n := (Ok None, n);
  n_now _ := None;
  n_random_key n := (Byte.x01, n) |}.

Lemma pushes_roundtrip_witness :
  pushed_32_byte_values ([be_bytes 5 1; preimage; be_bytes 300 7; be_bytes 64 9] ≫= encode_push) =
  [preimage; be_bytes 32 0; be_bytes 32 9].
Proof.
  rewrite pushes_roundtrip; [vm_compute; reflexivity|]. repeat constructor; vm_compute; discriminate || done.
Defined.

Lemma scan_block_exact_witness :
  preimage ∈ scan_block_for_preimages scripts_of (hex_encode script) {[sha256 preimage]}.
Proof.
  apply (scan_block_exact scripts_of _ script).
  - vm_compute. reflexivity.
  - split; [by apply elem_of_singleton|]. split; [vm_compute; reflexivity|].
    exists (byte_of_Z OP_RETURN), (encode_push preimage). split; [|split; [vm_compute; reflexivity|]].
    + exists [[script]], [script]. split; [reflexivity|]. split; by left.
    + replace (pushed_32_byte_values (encode_push preimage)) with [preimage] by (vm_compute; reflexivity).
      by left.
Defined.

Lemma scan_once_progress_witness :
  ∃ found k, scan_once scripts_of scanner tt = (found, mkPreimageScanner k (inflight_hashes scanner), tt) ∧
    k = 3 ∧ preimage ∈ found.
Proof.
  destruct (scan_once_progress scripts_of scanner tt chain 5) as (found & k & Hs & Hk & Hend & Hf);
    [reflexivity|done|vm_compute; split; [discriminate|reflexivity]|vm_compute; discriminate|].
  exists found, k. split; [exact Hs|].
  assert (k = 3) as ->.
  { apply (f_equal (λ r, last_scanned_height r.1.2)) in Hs. vm_compute in Hs. congruence. }
  split; [reflexivity|]. apply (proj2 Hf preimage [preimage]).
  - vm_compute. reflexivity.
  - reflexivity.
  - by left.
  - repeat constructor; vm_compute; reflexivity.
  - exists 2, (hex_encode script), script, (byte_of_Z OP_RETURN).
    split; [vm_compute; split; [reflexivity|discriminate]|]. split; [reflexivity|].
    split; [vm_compute; reflexivity|]. split; [|vm_compute; reflexivity].
    exists [[script]], [script]. split; [reflexivity|]. split; by left.
Defined.

End ScannerExamples.
