(* ===== verification/Keys.v ===== *)
(** * Node keys ([src/keys.rs])

    What kind of [hsm_secret] file the node has, extracting its secret material
    and deriving the node's key pair.  HKDF, Argon2, the AEAD and the mnemonic
    code are third-party crates ([KeyDerivation]). *)
From S2P Require Import Prelude Text Bytes Codecs Crypto.
From stdpp Require Import options.
#[local] Open Scope Z_scope.

Definition LEGACY_PLAIN_LEN : Z := 32.
Definition LEGACY_ENCRYPTED_LEN : Z := 73.
Definition PASSPHRASE_HASH_LEN : Z := 32.
Definition NODE_KEY_IKM_LEN : Z := 32.
Definition LEGACY_ENCRYPTED_HEADER_LEN : Z := 24.
Definition CLN_ARGON2ID_SALT : list byte := bytes_of_string "c-lightning" ++ be_bytes 5 0.

Inductive KeyError : Type :=
| KeyRead (path e : string)
| InvalidFormat (path : string) (n : Z)
| PassphraseRequired (path : string)
| PassphraseNotNeeded (path : string)
| WrongPassphrase (path : string)
| InvalidMnemonic (path reason : string)
| KeyDecrypt (path reason : string)
| InvalidKey (reason : string).

Inductive HsmSecretKind : Type :=
| LegacyPlain
| LegacyEncrypted
| MnemonicNoPassphrase
| MnemonicWithPassphrase
| InvalidSecret.

#[global] Instance HsmSecretKind_eq_dec : EqDecision HsmSecretKind.
Proof. solve_decision. Defined.

Definition detect_hsm_secret_kind (data : list byte) : HsmSecretKind :=
  if len data <? LEGACY_PLAIN_LEN then InvalidSecret
  else if len data =? LEGACY_PLAIN_LEN then LegacyPlain
  else if len data =? LEGACY_ENCRYPTED_LEN then LegacyEncrypted
  else if forallb (λ b, Z_of_byte b =? 0) (take 32 data) then MnemonicNoPassphrase
  else MnemonicWithPassphrase.

(** The crates [hkdf], [secp256k1], [argon2], [chacha20poly1305] and [bip39]. *)
Class KeyDerivation `{Crypto} : Type := {
  Mnemonic : Type;
  (** [Hkdf::<Sha256>::new(Some(salt), ikm).expand(info, &mut [0u8; 32])] *)
  hkdf_expand : list byte → list byte → list byte → result string (list byte);
  (** [SecretKey::from_slice] *)
  sk_from_slice : list byte → option SecretKey;
  (** [Params::new(m_cost, t_cost, p_cost, Some(len))] *)
  argon2_params : Z → Z → Z → Z → result string unit;
  (** [Argon2id] under those parameters, of a passphrase and a salt *)
  argon2id : Z → Z → Z → Z → list byte → list byte → option (list byte);
  (** [XChaCha20Poly1305::decrypt] under a key, a nonce and a ciphertext *)
  xchacha20poly1305_decrypt : list byte → list byte → list byte → option (list byte);
  (** [Mnemonic::parse_normalized], [to_seed] *)
  parse_mnemonic : list byte → result string Mnemonic;
  to_seed : Mnemonic → string → list byte;
}.

(** The AEAD's output is its input less the 16-byte tag. *)
Class KeyDerivationLaws `{KeyDerivation} : Prop := {
  decrypt_length key nonce ct pt :
    xchacha20poly1305_decrypt key nonce ct = Some pt → len pt = len ct - 16;
}.

(** A loop of at most [2^k] rounds: [inl] goes on, [inr] leaves it. *)
Fixpoint rounds {A B} (k : nat) (f : A → A + B) (a : A) : A + B :=
  match k with
  | O => f a
  | S k => match rounds k f a with inl a => rounds k f a | inr b => inr b end
  end.

Section Keys.
Context {HC : Crypto} {HK : KeyDerivation}.

Record NodeKeys : Type := mkNodeKeys {
  nk_secret : SecretKey;
  nk_public : PublicKey;
}.

(** The key of one salt counter; [to_ne_bytes] of a little-endian machine. *)
Definition salted_key (secret_material : list byte) (salt_counter : Z) : result string (list byte) :=
  hkdf_expand (le_bytes 4 salt_counter) (take 32 secret_material) (bytes_of_string "nodeid").

Definition salt_round (secret_material : list byte) (salt_counter : Z) : Z + result KeyError SecretKey :=
  match salted_key secret_material salt_counter with
  | Err e => inr (Err (InvalidKey e))
  | Ok okm =>
      match sk_from_slice okm with
      | Some secret => inr (Ok secret)
      | None =>
          match checked_add_u32 salt_counter 1 with
          | Some salt_counter => inl salt_counter
          | None => inr (Err (InvalidKey "salt counter overflow"))
          end
      end
  end.

(** [None]: the loop did not end (it always does). *)
Definition from_secret_material (secret_material : list byte) : option (result KeyError NodeKeys) :=
  if len secret_material <? NODE_KEY_IKM_LEN
  then Some (Err (InvalidFormat "<memory>" (len secret_material))) else
  match rounds 32 (salt_round secret_material) 0 with
  | inl _ => None
  | inr r => Some (secret ← r; mret (mkNodeKeys secret (pk_from_secret_key secret)))
  end.

Definition from_hsm_secret (hsm_secret : list byte) : option (result KeyError NodeKeys) :=
  if negb (len hsm_secret =? NODE_KEY_IKM_LEN)
  then Some (Err (InvalidFormat "<memory>" (len hsm_secret)))
  else from_secret_material hsm_secret.

Definition decrypt_legacy_hsm_secret (path : string) (data : list byte) (passphrase : option string)
    : result KeyError (list byte) :=
  match passphrase with
  | None => Err (PassphraseRequired path)
  | Some passphrase =>
      match argon2_params 268435456 3 1 32 with
      | Err e => Err (KeyDecrypt path e)
      | Ok _ =>
          match argon2id 268435456 3 1 32 (bytes_of_string passphrase) CLN_ARGON2ID_SALT with
          | None => Err (WrongPassphrase path)
          | Some key_bytes =>
              match xchacha20poly1305_decrypt key_bytes (take 24 data) (drop 24 data) with
              | None => Err (WrongPassphrase path)
              | Some plaintext =>
                  if negb (len plaintext =? LEGACY_PLAIN_LEN) then
                    Err (KeyDecrypt path ("decrypted secret is " +:+ pretty (len plaintext) +:+ " bytes"))
                  else Ok plaintext
              end
          end
      end
  end.

(** [utf8_error] is the display of the [Utf8Error]. *)
Variable utf8_error : list byte → string.

Definition extract_mnemonic_secret (path : string) (data : list byte) (passphrase : option string)
    : result KeyError (list byte) :=
  let kind := detect_hsm_secret_kind data in
  let phrase := drop 32 data in
  if negb (utf8_valid phrase) then Err (InvalidMnemonic path (utf8_error phrase)) else
  mnemonic ← map_err (InvalidMnemonic path) (parse_mnemonic phrase);
  passphrase ← match kind, passphrase with
               | MnemonicNoPassphrase, None => Ok ""
               | MnemonicNoPassphrase, Some _ => Err (PassphraseNotNeeded path)
               | MnemonicWithPassphrase, Some passphrase => Ok passphrase
               | _, _ => Err (PassphraseRequired path)
               end;
  let seed := to_seed mnemonic passphrase in
  if bool_decide (kind = MnemonicWithPassphrase) && negb (bool_decide (sha256 seed = take 32 data))
  then Err (WrongPassphrase path)
  else Ok seed.

Definition extract_hsm_secret_material (path : string) (data : list byte) (passphrase : option string)
    : result KeyError (list byte) :=
  match detect_hsm_secret_kind data with
  | LegacyPlain =>
      match passphrase with Some _ => Err (PassphraseNotNeeded path) | None => Ok data end
  | LegacyEncrypted => decrypt_legacy_hsm_secret path data passphrase
  | MnemonicNoPassphrase | MnemonicWithPassphrase => extract_mnemonic_secret path data passphrase
  | InvalidSecret => Err (InvalidFormat path (len data))
  end.

Definition from_hsm_secret_bytes (data : list byte) (passphrase : option string)
    : option (result KeyError NodeKeys) :=
  match extract_hsm_secret_material "<memory>" data passphrase with
  | Err e => Some (Err e)
  | Ok material => from_secret_material material
  end.

Definition with_path (e : KeyError) (path : string) : KeyError :=
  match e with
  | InvalidFormat _ n => InvalidFormat path n
  | PassphraseRequired _ => PassphraseRequired path
  | PassphraseNotNeeded _ => PassphraseNotNeeded path
  | WrongPassphrase _ => WrongPassphrase path
  | InvalidMnemonic _ reason => InvalidMnemonic path reason
  | KeyDecrypt _ reason => KeyDecrypt path reason
  | other => other
  end.

(** The file system: the content, or the error's display. *)
Variable fs_read : string → result string (list byte).

Definition from_file_with_passphrase (path : string) (passphrase : option string)
    : option (result KeyError NodeKeys) :=
  match fs_read path with
  | Err e => Some (Err (KeyRead path e))
  | Ok data =>
      r ← from_hsm_secret_bytes data passphrase; Some (map_err (λ e, with_path e path) r)
  end.

Definition from_file (path : string) : option (result KeyError NodeKeys) :=
  from_file_with_passphrase path None.

End Keys.

(** ** Guarantees *)

(** What the kind of a file says of its octets. *)
Lemma detected_plain data : detect_hsm_secret_kind data = LegacyPlain ↔ len data = 32.
Proof.
  unfold detect_hsm_secret_kind, LEGACY_PLAIN_LEN, LEGACY_ENCRYPTED_LEN.
  repeat zcase; try (split; [done|lia]); try done. by destruct (forallb _ _).
Qed.

Lemma zero_octets l : forallb (λ b, Z_of_byte b =? 0) l = true ↔ l = replicate (length l) (byte_of_Z 0).
Proof.
  induction l as [|b l IH]; cbn; [done|]. rewrite andb_true_iff, Z.eqb_eq, IH. split.
  - intros [Hb ->]. by rewrite length_replicate, <-Hb, byte_of_Z_of_byte.
  - intros [= Hb Hl]. split; [|done]. by rewrite Hb.
Qed.

Definition no_hash : list byte := replicate 32 (byte_of_Z 0).

Lemma detected_mnemonic data :
  (detect_hsm_secret_kind data = MnemonicNoPassphrase ↔ 32 < len data ∧ len data ≠ 73 ∧ take 32 data = no_hash) ∧
  (detect_hsm_secret_kind data = MnemonicWithPassphrase ↔ 32 < len data ∧ len data ≠ 73 ∧ take 32 data ≠ no_hash).
Proof.
  unfold detect_hsm_secret_kind, LEGACY_PLAIN_LEN, LEGACY_ENCRYPTED_LEN, no_hash.
  repeat zcase; try (by split; (split; [done|lia])).
  assert (length (take 32 data) = 32%nat) as Hl by (rewrite length_take; unfold len in *; lia).
  pose proof (zero_octets (take 32 data)) as Hz. rewrite Hl in Hz.
  destruct (forallb _ _); (split; (split; [intros Hk; try discriminate Hk|intros (_ & _ & Hk)]));
    try done; try (split_and!; [lia|lia|]); naive_solver.
Qed.

Section KeysFacts.
Context {HC : Crypto} {HK : KeyDerivation}.
Variable utf8_error : list byte → string.

(** The loop goes on through all its rounds, or leaves at the first that does
    not go on. *)
Lemma rounds_spec {B} (f : Z → Z + B) k a :
  (∀ c c', f c = inl c' → c' = c + 1) →
  match rounds k f a with
  | inl b => b = a + 2 ^ Z.of_nat k ∧ ∀ m, 0 ≤ m < 2 ^ Z.of_nat k → f (a + m) = inl (a + m + 1)
  | inr r => ∃ n, 0 ≤ n < 2 ^ Z.of_nat k ∧ f (a + n) = inr r ∧
               ∀ m, 0 ≤ m < n → f (a + m) = inl (a + m + 1)
  end.
Proof.
  intros Hf. revert a. induction k as [|k IH]; intros a; cbn [rounds].
  - rewrite ?Z.pow_0_r. destruct (f a) as [b|r] eqn:Ha.
    + pose proof (Hf _ _ Ha) as ->. split; [lia|]. intros m Hm.
      replace m with 0 by lia. by rewrite Z.add_0_r.
    + exists 0. rewrite Z.add_0_r. split_and!; [lia..|done|lia].
  - rewrite Nat2Z.inj_succ, Z.pow_succ_r by lia.
    assert (∀ g m, (0 ≤ m < 2 ^ Z.of_nat k → f (a + m) = g (a + m)) →
              (0 ≤ m - 2 ^ Z.of_nat k → f (a + 2 ^ Z.of_nat k + (m - 2 ^ Z.of_nat k)) = g (a + m)) →
              0 ≤ m → f (a + m) = g (a + m)) as Hsplit.
    { intros g m H1 H2 Hm. destruct (Z.lt_ge_cases m (2 ^ Z.of_nat k)); [apply H1; lia|].
      rewrite <- H2 by lia. f_equal. lia. }
    pose proof (IH a) as Ha. destruct (rounds k f a) as [b|r].
    + destruct Ha as [-> Hfirst]. specialize (IH (a + 2 ^ Z.of_nat k)).
      destruct (rounds k f _) as [b|r].
      * destruct IH as [-> Hsecond]. split; [lia|]. intros m Hm.
        apply (Hsplit (λ x, inl (x + 1))); [auto| |lia].
        intros. rewrite Hsecond by lia. f_equal. lia.
      * destruct IH as (n & Hn & Hr & Hm). exists (2 ^ Z.of_nat k + n).
        rewrite Z.add_assoc. split_and!; [lia..|done|]. intros m ?.
        apply (Hsplit (λ x, inl (x + 1))); [auto| |lia].
        intros. rewrite Hm by lia. f_equal. lia.
    + destruct Ha as (n & Hn & Hr & Hm). exists n. split_and!; [lia..|done|done].
Qed.

Lemma salt_round_next material c c' : salt_round material c = inl c' → c' = c + 1.
Proof. unfold salt_round, checked_add_u32. intros. crush_match. Qed.

Lemma salt_round_left material c :
  salt_round material c = inl (c + 1) →
  ∃ okm, salted_key material c = Ok okm ∧ sk_from_slice okm = None.
Proof. unfold salt_round. intros. crush_match. eauto. Qed.

(** The last salt never goes on. *)
Lemma salt_round_last material c : salt_round material (2 ^ 32 - 1) ≠ inl c.
Proof. unfold salt_round, checked_add_u32. intros H. crush_match. Qed.

Lemma salt_loop material :
  ∃ n r, rounds 32 (salt_round material) 0 = inr r ∧ u32 n ∧ salt_round material n = inr r ∧
    ∀ m, 0 ≤ m < n → ∃ okm, salted_key material m = Ok okm ∧ sk_from_slice okm = None.
Proof.
  pose proof (rounds_spec (salt_round material) 32 0 (salt_round_next material)) as H.
  destruct (rounds 32 (salt_round material) 0) as [b|r].
  - destruct H as [_ H]. specialize (H (2 ^ 32 - 1) ltac:(lia)). rewrite Z.add_0_l in H.
    by apply salt_round_last in H.
  - destruct H as (n & Hn & Hr & Hm). exists n, r. rewrite Z.add_0_l in Hr.
    split_and!; [done|unfold u32; lia|done|].
    intros m Hlt. apply salt_round_left. by apply (Hm m).
Qed.

Lemma salt_round_prefix material c : salt_round (take 32 material) c = salt_round material c.
Proof. unfold salt_round, salted_key. by rewrite take_take. Qed.

Lemma rounds_ext {A B} (f g : A → A + B) k a : (∀ a, f a = g a) → rounds k f a = rounds k g a.
Proof.
  intros Hfg. revert a. induction k as [|k IH]; intros a; cbn [rounds]; [done|].
  rewrite IH. by destruct (rounds k g a).
Qed.

(** Deriving the node key ends on every input: a short secret is refused,
    and otherwise the key is the one of the least 32-bit salt counter whose HKDF
    output is a valid secret key, with the public key that belongs to it; only
    the first 32 octets of the secret material count. *)
Theorem node_key_derivation material :
  ∃ r, from_secret_material material = Some r ∧
    from_secret_material (take 32 material) =
      (if len material <? 32 then Some (Err (InvalidFormat "<memory>" (len material))) else Some r) ∧
    match r with
    | Ok keys =>
        32 ≤ len material ∧ nk_public keys = pk_from_secret_key (nk_secret keys) ∧
        ∃ c okm, u32 c ∧ salted_key material c = Ok okm ∧ sk_from_slice okm = Some (nk_secret keys) ∧
          ∀ d, 0 ≤ d < c → ∃ okm', salted_key material d = Ok okm' ∧ sk_from_slice okm' = None
    | Err (InvalidFormat _ n) => n = len material ∧ n < 32
    | Err (InvalidKey _) =>
        ∃ c, u32 c ∧ ((∃ x, salted_key material c = Err x) ∨ c = U32_MAX)
    | Err _ => False
    end.
Proof.
  unfold from_secret_material, NODE_KEY_IKM_LEN.
  rewrite (rounds_ext (salt_round (take 32 material)) (salt_round material)) by apply salt_round_prefix.
  destruct (salt_loop material) as (n & r & -> & Hn & Hr & Hm).
  destruct (Z.ltb_spec (len material) 32) as [Hlen|Hlen].
  - eexists. split_and!; [reflexivity| |done].
    rewrite take_ge by (unfold len in Hlen; lia). by rewrite ltb_true by done.
  - eexists. split; [reflexivity|]. split.
    { rewrite ltb_false; [done|]. unfold len in *. rewrite length_take. lia. }
    unfold salt_round, checked_add_u32 in Hr. destruct (salted_key material n) as [okm|x] eqn:Hk; simplify_eq/=.
    + destruct (sk_from_slice okm) as [sk|] eqn:Hsk; simplify_eq/=.
      * split_and!; [done|done|]. by exists n, okm.
      * zcase_in Hr; simplify_eq/=. exists n. split; [done|]. right. unfold u32, U32_MAX in *. lia.
    + exists n. split; [done|]. left. eauto.
Qed.

(** The encrypted form is decrypted by the plain AEAD over [73 - 24] octets, which leaves 33. *)
Lemma legacy_encrypted_never_unlocks `{!KeyDerivationLaws} path data passphrase material :
  len data = LEGACY_ENCRYPTED_LEN → decrypt_legacy_hsm_secret path data passphrase ≠ Ok material.
Proof.
  unfold LEGACY_ENCRYPTED_LEN, decrypt_legacy_hsm_secret, LEGACY_PLAIN_LEN. intros Hlen Hok.
  destruct passphrase as [pw|]; [|done]. destruct (argon2_params _ _ _ _) as [?|]; [|done].
  destruct (argon2id _ _ _ _ _ _) as [key|]; [|done].
  destruct (xchacha20poly1305_decrypt _ _ _) as [pt|] eqn:Hpt; [|done].
  apply decrypt_length in Hpt. assert (len pt = 33) as Hl.
  { rewrite Hpt. unfold len in *. rewrite length_drop. lia. }
  by rewrite Hl in Hok.
Qed.

Lemma encrypted_length data : detect_hsm_secret_kind data = LegacyEncrypted → len data = LEGACY_ENCRYPTED_LEN.
Proof.
  unfold detect_hsm_secret_kind. intros Hk. repeat (zcase_in Hk; [done || lia|]). by destruct (forallb _ _).
Qed.

#[local] Opaque from_secret_material.

Lemma encrypted_form_never_unlocks `{!KeyDerivationLaws} data passphrase keys :
  detect_hsm_secret_kind data = LegacyEncrypted →
  from_hsm_secret_bytes utf8_error data passphrase ≠ Some (Ok keys).
Proof.
  intros Hk Hok. unfold from_hsm_secret_bytes, extract_hsm_secret_material in Hok. rewrite Hk in Hok.
  destruct (decrypt_legacy_hsm_secret _ data passphrase) as [m|] eqn:Hd; [|done].
  by eapply legacy_encrypted_never_unlocks, Hd; apply encrypted_length.
Qed.

(** Closes a case in which nothing unlocks. *)
Ltac refute_unlock := split; [done|];
  intros [(? & _)|(_ & _ & ? & m' & ? & [(? & ? & ?)|(? & pw' & ? & ? & ?)])]; (lia || done || congruence).

(** C35. Which secret files unlock, with what, said of their octets.  A file of 32
    octets is the secret and needs no passphrase.  A longer one, not of 73 octets, is
    32 octets and a mnemonic in UTF-8: when the 32 octets are zero it unlocks without
    a passphrase only, with the seed of the empty one; otherwise with exactly the
    passphrases whose seed has those octets as its SHA-256.  Nothing else unlocks: no
    shorter file, no file of 73 octets (the encrypted form), and no passphrase where
    none is needed. *)
Theorem unlock_exact `{!KeyDerivationLaws} data passphrase keys :
  from_hsm_secret_bytes utf8_error data passphrase = Some (Ok keys) ↔
  (len data = 32 ∧ passphrase = None ∧ from_secret_material data = Some (Ok keys)) ∨
  (32 < len data ∧ len data ≠ 73 ∧ utf8_valid (drop 32 data) = true ∧
   ∃ m, parse_mnemonic (drop 32 data) = Ok m ∧
     ((take 32 data = no_hash ∧ passphrase = None ∧ from_secret_material (to_seed m "") = Some (Ok keys)) ∨
      (take 32 data ≠ no_hash ∧ ∃ pw, passphrase = Some pw ∧ sha256 (to_seed m pw) = take 32 data ∧
         from_secret_material (to_seed m pw) = Some (Ok keys)))).
Proof.
  destruct (detected_mnemonic data) as [Hno Hwith]. pose proof (detected_plain data) as Hplain.
  unfold from_hsm_secret_bytes, extract_hsm_secret_material, extract_mnemonic_secret.
  destruct (detect_hsm_secret_kind data) eqn:Hk.
  - pose proof (proj1 Hplain eq_refl). destruct passphrase; naive_solver lia.
  - assert (len data = 73) by by apply encrypted_length.
    destruct (decrypt_legacy_hsm_secret _ data passphrase) as [m|] eqn:Hd; [|naive_solver lia].
    exfalso. by eapply legacy_encrypted_never_unlocks, Hd; apply encrypted_length.
  - destruct (proj1 Hno eq_refl) as (H32 & H73 & Hz).
    destruct (utf8_valid _); [|refute_unlock]. destruct (parse_mnemonic _) as [m|] eqn:Hm; [|refute_unlock].
    destruct passphrase as [pw|]; cbn; [refute_unlock|]. split.
    + intros Hf. right. split_and!; [done..|]. exists m. split; [done|]. by left.
    + intros [(? & _)|(_ & _ & _ & m' & [= <-] & [(_ & _ & Hf)|[? _]])]; [lia|done|done].
  - destruct (proj1 Hwith eq_refl) as (H32 & H73 & Hz).
    destruct (utf8_valid _); [|refute_unlock]. destruct (parse_mnemonic _) as [m|] eqn:Hm; [|refute_unlock].
    destruct passphrase as [pw|]; cbn; [|refute_unlock].
    destruct (bool_decide_reflect (sha256 (to_seed m pw) = take 32 data)) as [Hpw|Hpw]; cbn; [|refute_unlock]. split.
    + intros Hf. right. split_and!; [done..|]. exists m. split; [done|]. right. split; [done|]. by exists pw.
    + intros [(? & _)|(_ & _ & _ & m' & [= <-] & [[? _]|(_ & pw' & [= <-] & _ & Hf)])]; [lia|done|done].
  - assert (len data ≠ 32 ∧ ¬ (32 < len data ∧ len data ≠ 73)) as [? ?].
    { split; [by intros ?%Hplain|]. intros [??].
      destruct (decide (take 32 data = no_hash)); [by assert (InvalidSecret = MnemonicNoPassphrase) by by apply Hno|].
      by assert (InvalidSecret = MnemonicWithPassphrase) by by apply Hwith. }
    naive_solver.
Qed.

End KeysFacts.

Module KeysExamples.
Import Toy.

(** The "mnemonic" is its text; a derived key is valid when its last octet is not 0. *)
#[export] Instance key_derivation : KeyDerivation := {|
  Mnemonic := list byte;
  hkdf_expand salt ikm info := Ok (be_bytes 32 (be_Z ikm + le_Z salt));
  sk_from_slice okm := k ← last okm; if Z_of_byte k =? 0 then None else Some k;
  argon2_params _ _ _ _ := Ok tt;
  argon2id _ _ _ _ pw salt := Some (be_bytes 32 (be_Z pw));
  xchacha20poly1305_decrypt key nonce ct := if len ct <? 16 then None else Some (drop 16 ct);
  parse_mnemonic l := if len l =? 0 then Err "empty" else Ok l;
  to_seed m pw := let half := be_bytes 32 (be_Z m + be_Z (bytes_of_string pw)) in half ++ half |}.

#[export] Instance key_derivation_laws : KeyDerivationLaws.
Proof.
  split. intros key nonce ct pt H. cbn in H. zcase_in H; simplify_eq.
  unfold len in *. rewrite length_drop. lia.
Qed.

(** The first salt of an all-zero secret gives no key, the second does. *)
Example node_key_second_salt : from_secret_material (be_bytes 32 0) = Some (Ok (mkNodeKeys Byte.x01 Byte.x01)).
Proof. reflexivity. Qed.

Definition phrase : list byte := bytes_of_string "abandon abandon about".
Definition locked_file : list byte := sha256 (to_seed (phrase : Mnemonic) "horse") ++ phrase.

(** The error of an attempt that failed. *)
Definition refusal (passphrase : option string) : option KeyError :=
  match from_hsm_secret_bytes (λ _, "") locked_file passphrase with
  | Some (Err e) => Some e
  | _ => None
  end.

Lemma unlock_exact_witness :
  (∃ keys, from_hsm_secret_bytes (λ _, "") locked_file (Some "horse") = Some (Ok keys)) ∧
  refusal (Some "battery") = Some (WrongPassphrase "<memory>") ∧
  refusal None = Some (PassphraseRequired "<memory>").
Proof.
  split; [|split; vm_compute; reflexivity].
  exists (mkNodeKeys (HC := crypto) Byte.xd9 Byte.xd9). apply unlock_exact; [exact key_derivation_laws|].
  right. split; [vm_compute; reflexivity|]. split; [vm_compute; discriminate|]. split; [vm_compute; reflexivity|].
  exists phrase. split; [vm_compute; reflexivity|]. right. split; [vm_compute; discriminate|].
  exists "horse". split; [reflexivity|]. split; [vm_compute; reflexivity|].
  vm_cast_no_check (eq_refl (Some (Ok (E := KeyError) (mkNodeKeys (HC := crypto) Byte.xd9 Byte.xd9)))).
Defined.

End KeysExamples.
