(* ===== verification/Persist.v ===== *)
(** * The persisted form of the records (serde attributes of [src/store.rs],
      [src/wire/lcss.rs], [src/wire/codecs.rs], [src/config.rs], [src/ledger.rs])

    The JSON value that each stored record is written as, field by field with its
    serde attributes — renamed tags, hex strings, defaults — and how it is read
    back.  A [Codec] pairs the two directions with the values that the Rust type
    holds; [Lawful] says that what was written is read back.  The text of a value
    is [serde_json]'s.  The positional (array) form of a struct, which serde also
    reads and this code never writes, is left out. *)
From S2P Require Import Prelude Text Bytes Codecs Crypto Config Lcss State Store Ledger Json.
From stdpp Require Import options.
#[local] Open Scope Z_scope.

Section Persist.
#[local] Set Default Proof Using "Type*".
Context {HC : Crypto} {HJ : JsonValue}.

Record Codec (A : Type) : Type := mkCodec {
  c_enc : A → Value;
  c_dec : Value → result string A;
  c_wf : A → Prop;
}.
#[local] Arguments mkCodec {A}.
#[local] Arguments c_enc {A}.
#[local] Arguments c_dec {A}.
#[local] Arguments c_wf {A}.

(** ** The types of [std] *)

Definition ser_err {A} (o : option A) : result string A := ok_or o "invalid type".

Definition c_uint (width : Z) : Codec Z := {|
  c_enc := v_u64;
  c_dec v := n ← ser_err (as_u64 v); if n <? 2 ^ width then Ok n else Err "invalid value";
  c_wf n := 0 ≤ n < 2 ^ width |}.
Definition c_bool : Codec bool := mkCodec v_bool (λ v, ser_err (as_bool v)) (λ _, True).
Definition c_string : Codec string := mkCodec v_string (λ v, ser_err (as_str v)) (λ _, True).

Fixpoint dec_list {A} (dec : Value → result string A) (l : list Value) : result string (list A) :=
  match l with
  | [] => Ok []
  | v :: l => a ← dec v; rest ← dec_list dec l; Ok (a :: rest)
  end.

Definition c_list {A} (c : Codec A) : Codec (list A) := {|
  c_enc l := v_array (c_enc c <$> l);
  c_dec v := l ← ser_err (as_array v); dec_list (c_dec c) l;
  c_wf := Forall (c_wf c) |}.

(** [[u8; n]] without an attribute: an array of numbers. *)
Definition c_byte : Codec byte := {|
  c_enc b := v_u64 (Z_of_byte b);
  c_dec v := n ← c_dec (c_uint 8) v; Ok (byte_of_Z n);
  c_wf _ := True |}.
Definition c_array (n : nat) : Codec (list byte) := {|
  c_enc := c_enc (c_list c_byte);
  c_dec v := l ← c_dec (c_list c_byte) v;
             if (length l =? n)%nat then Ok l else Err "invalid length";
  c_wf l := length l = n |}.

(** [serde_bytes_hex], [serde_array_hex_32] and [serde_array_hex_64]. *)
Definition serde_bytes_hex : Codec (list byte) := {|
  c_enc b := v_string (hex_encode b);
  c_dec v := s ← ser_err (as_str v); ok_or (hex_decode s) "invalid hex";
  c_wf _ := True |}.
Definition serde_array_hex (n : nat) : Codec (list byte) := {|
  c_enc b := v_string (hex_encode b);
  c_dec v := s ← ser_err (as_str v);
             bytes ← ok_or (hex_decode s) "invalid hex";
             if negb (length bytes =? n)%nat then Err ("expected " +:+ pretty n +:+ " bytes") else Ok bytes;
  c_wf b := length b = n |}.

Definition serde_array_hex_32 : Codec (list byte) := serde_array_hex 32.
Definition serde_array_hex_64 : Codec (list byte) := serde_array_hex 64.
(** [store.rs] has its own copy, and one for an [Option]. *)
Definition store_array_hex_32 : Codec (list byte) := serde_array_hex 32.

Definition option_array_hex_32_serialize (b : option (list byte)) : Value :=
  match b with
  | Some bytes => v_string (hex_encode bytes)
  | None => v_null
  end.
Definition option_array_hex_32_deserialize (v : Value) : result string (option (list byte)) :=
  if is_null v then Ok None else
  s ← ser_err (as_str v);
  bytes ← ok_or (hex_decode s) "invalid hex";
  if negb (length bytes =? 32)%nat then Err "expected 32 bytes" else Ok (Some bytes).

(** ** Fields *)

Definition missing (k : string) : string := "missing field " +:+ k.

Definition get_field {A} (c : Codec A) (k : string) (v : Value) : result string A :=
  match v_get k v with Some x => c_dec c x | None => Err (missing k) end.

(** [#[serde(default)]] *)
Definition get_default {A} (c : Codec A) (d : A) (k : string) (v : Value) : result string A :=
  match v_get k v with Some x => c_dec c x | None => Ok d end.

(** An [Option]: [null] and a missing field are [None], with [default] or without. *)
Definition get_option {A} (c : Codec A) (k : string) (v : Value) : result string (option A) :=
  match v_get k v with
  | Some x => if is_null x then Ok None else a ← c_dec c x; Ok (Some a)
  | None => Ok None
  end.
Definition put_option {A} (c : Codec A) (o : option A) : Value :=
  match o with Some a => c_enc c a | None => v_null end.
Definition wf_option {A} (c : Codec A) (o : option A) : Prop := ∀ a, o = Some a → c_wf c a.

(** ** Laws *)

Context {HCL : CryptoLaws} {LJ : JsonValueLaws}.

Class Lawful {A} (c : Codec A) : Prop := {
  lawful a : c_wf c a → c_dec c (c_enc c a) = Ok a;
  not_null a : is_null (c_enc c a) = false;
}.

#[export] Instance uint_lawful width : 0 ≤ width ≤ 64 → Lawful (c_uint width).
Proof.
  intros Hw. split; [|intros; apply is_null_u64]. intros n [H0 H1]. cbn in *.
  assert (2 ^ width ≤ 2 ^ 64) by (apply Z.pow_le_mono_r; lia).
  rewrite as_u64_u64 by (unfold u64; lia). cbn. by rewrite ltb_true.
Qed.
#[export] Instance bool_lawful : Lawful c_bool.
Proof. split; [|intros; apply is_null_bool]. intros b _. cbn. by rewrite as_bool_bool. Qed.
#[export] Instance string_lawful : Lawful c_string.
Proof. split; [|intros; apply is_null_string]. intros b _. cbn. by rewrite as_str_string. Qed.

#[export] Instance list_lawful {A} (c : Codec A) : Lawful c → Lawful (c_list c).
Proof.
  intros Hc. split; [|intros; apply is_null_array]. intros l Hl. cbn in *. rewrite as_array_array. cbn.
  induction Hl as [|a l Ha _ IH]; [done|]. cbn [fmap list_fmap dec_list]. rewrite lawful by done. cbn.
  change (list_fmap A Value (c_enc c) l) with (c_enc c <$> l) in IH. by rewrite IH.
Qed.

#[export] Instance byte_lawful : Lawful c_byte.
Proof.
  split; [|intros; apply is_null_u64]. intros b _. unfold c_byte. cbn [c_enc c_dec]. 
  pose proof (lawful (Lawful := uint_lawful 8 ltac:(lia)) (Z_of_byte b) (Z_of_byte_bound b)) as Hb.
  cbn in Hb |- *. rewrite Hb. cbn. by rewrite byte_of_Z_of_byte.
Qed.

#[export] Instance array_lawful n : Lawful (c_array n).
Proof.
  split; [|intros; apply is_null_array]. intros l Hl. unfold c_array. cbn [c_enc c_dec c_wf] in *.
  rewrite (lawful (c := c_list c_byte) l) by (apply Forall_forall; done). cbn. by rewrite Hl, Nat.eqb_refl.
Qed.

#[export] Instance hex_lawful : Lawful serde_bytes_hex.
Proof.
  split; [|intros; apply is_null_string]. intros b _. cbn. rewrite as_str_string. cbn. by rewrite hex_decode_encode.
Qed.
#[export] Instance array_hex_lawful n : Lawful (serde_array_hex n).
Proof.
  split; [|intros; apply is_null_string]. intros b Hb. cbn in *. rewrite as_str_string. cbn.
  rewrite hex_decode_encode. cbn. by rewrite Hb, Nat.eqb_refl.
Qed.

#[export] Instance array_hex_32_lawful : Lawful serde_array_hex_32.
Proof. apply array_hex_lawful. Qed.
#[export] Instance array_hex_64_lawful : Lawful serde_array_hex_64.
Proof. apply array_hex_lawful. Qed.
#[export] Instance store_array_hex_32_lawful : Lawful store_array_hex_32.
Proof. apply array_hex_lawful. Qed.

Lemma get_field_object {A} (c : Codec A) k l a : Lawful c →
  NoDup l.*1 → field k l = Some (c_enc c a) → c_wf c a → get_field c k (v_object l) = Ok a.
Proof. intros Hc Hl Hk Ha. unfold get_field. rewrite get_object, Hk by done. by apply lawful. Qed.

Lemma get_default_object {A} (c : Codec A) d k l a : Lawful c →
  NoDup l.*1 → field k l = Some (c_enc c a) → c_wf c a → get_default c d k (v_object l) = Ok a.
Proof. intros Hc Hl Hk Ha. unfold get_default. rewrite get_object, Hk by done. by apply lawful. Qed.

Lemma get_option_object {A} (c : Codec A) k l o : Lawful c →
  NoDup l.*1 → field k l = Some (put_option c o) → wf_option c o → get_option c k (v_object l) = Ok o.
Proof.
  intros Hc Hl Hk Ho. unfold get_option. rewrite get_object, Hk by done. destruct o as [a|]; cbn.
  - rewrite not_null, lawful by (apply Ho; done). done.
  - by rewrite is_null_null.
Qed.

#[export] Instance u16_lawful : Lawful (c_uint 16).
Proof. by apply uint_lawful. Qed.
#[export] Instance u32_lawful : Lawful (c_uint 32).
Proof. by apply uint_lawful. Qed.
#[export] Instance u64_lawful : Lawful (c_uint 64).
Proof. by apply uint_lawful. Qed.

End Persist.
Arguments mkCodec {_ A}.
Arguments c_enc {_ A}.
Arguments c_dec {_ A}.
Arguments c_wf {_ A}.

Lemma bind_field {A B} (r : result string A) (f : A → result string B) a : r = Ok a → r ≫= f = f a.
Proof. by intros ->. Qed.

(** Reads the next field of the object that was written. *)
Ltac persist_field :=
  match goal with
  | |- _ ≫= _ = _ =>
      etransitivity; [apply bind_field;
        first [eapply get_field_object | eapply get_default_object | eapply get_option_object];
        [apply _|by apply (bool_decide_unpack _)|reflexivity|by auto]|cbv beta]
  end.

(** ** The records *)
Section Records.
#[local] Set Default Proof Using "Type*".
Context {HC : Crypto} {HJ : JsonValue}.

Definition c_htlc : Codec UpdateAddHtlc := {|
  c_enc h := v_object
    [("channel_id", c_enc (c_array 32) (uah_channel_id h));
     ("id", c_enc (c_uint 64) (uah_id h));
     ("amount_msat", c_enc (c_uint 64) (uah_amount_msat h));
     ("payment_hash", c_enc (c_array 32) (uah_payment_hash h));
     ("cltv_expiry", c_enc (c_uint 32) (uah_cltv_expiry h));
     ("onion_routing_packet", c_enc serde_bytes_hex (uah_onion_routing_packet h));
     ("tlv_stream", c_enc serde_bytes_hex (uah_tlv_stream h))];
  c_dec v :=
    channel_id ← get_field (c_array 32) "channel_id" v;
    id ← get_field (c_uint 64) "id" v;
    amount_msat ← get_field (c_uint 64) "amount_msat" v;
    payment_hash ← get_field (c_array 32) "payment_hash" v;
    cltv_expiry ← get_field (c_uint 32) "cltv_expiry" v;
    onion ← get_field serde_bytes_hex "onion_routing_packet" v;
    tlv_stream ← get_default serde_bytes_hex [] "tlv_stream" v;
    Ok (mkUpdateAddHtlc channel_id id amount_msat payment_hash cltv_expiry onion tlv_stream);
  c_wf := UpdateAddHtlc_typed |}.

Definition c_init : Codec InitHostedChannel := {|
  c_enc m := v_object
    [("max_htlc_value_in_flight_msat", c_enc (c_uint 64) (ihc_max_htlc_value_in_flight_msat m));
     ("htlc_minimum_msat", c_enc (c_uint 64) (ihc_htlc_minimum_msat m));
     ("max_accepted_htlcs", c_enc (c_uint 16) (ihc_max_accepted_htlcs m));
     ("channel_capacity_msat", c_enc (c_uint 64) (ihc_channel_capacity_msat m));
     ("initial_client_balance_msat", c_enc (c_uint 64) (ihc_initial_client_balance_msat m));
     ("features", c_enc (c_list (c_uint 16)) (ihc_features m))];
  c_dec v :=
    inflight ← get_field (c_uint 64) "max_htlc_value_in_flight_msat" v;
    minimum ← get_field (c_uint 64) "htlc_minimum_msat" v;
    max_htlcs ← get_field (c_uint 16) "max_accepted_htlcs" v;
    capacity ← get_field (c_uint 64) "channel_capacity_msat" v;
    initial ← get_field (c_uint 64) "initial_client_balance_msat" v;
    features ← get_field (c_list (c_uint 16)) "features" v;
    Ok (mkInitHostedChannel inflight minimum max_htlcs capacity initial features);
  c_wf := InitHostedChannel_typed |}.

Definition c_lcss : Codec LastCrossSignedState := {|
  c_enc s := v_object
    [("is_host", c_enc c_bool (is_host s));
     ("last_refund_scriptpubkey", c_enc serde_bytes_hex (last_refund_scriptpubkey s));
     ("init_hosted_channel", c_enc c_init (init_hosted_channel s));
     ("block_day", c_enc (c_uint 32) (block_day s));
     ("local_balance_msat", c_enc (c_uint 64) (local_balance_msat s));
     ("remote_balance_msat", c_enc (c_uint 64) (remote_balance_msat s));
     ("local_updates", c_enc (c_uint 32) (local_updates s));
     ("remote_updates", c_enc (c_uint 32) (remote_updates s));
     ("incoming_htlcs", c_enc (c_list c_htlc) (incoming_htlcs s));
     ("outgoing_htlcs", c_enc (c_list c_htlc) (outgoing_htlcs s));
     ("remote_sig_of_local", c_enc serde_array_hex_64 (remote_sig_of_local s));
     ("local_sig_of_remote", c_enc serde_array_hex_64 (local_sig_of_remote s))];
  c_dec v :=
    host ← get_field c_bool "is_host" v;
    refund ← get_field serde_bytes_hex "last_refund_scriptpubkey" v;
    init ← get_field c_init "init_hosted_channel" v;
    day ← get_field (c_uint 32) "block_day" v;
    local ← get_field (c_uint 64) "local_balance_msat" v;
    remote ← get_field (c_uint 64) "remote_balance_msat" v;
    lu ← get_field (c_uint 32) "local_updates" v;
    ru ← get_field (c_uint 32) "remote_updates" v;
    incoming ← get_field (c_list c_htlc) "incoming_htlcs" v;
    outgoing ← get_field (c_list c_htlc) "outgoing_htlcs" v;
    rsig ← get_field serde_array_hex_64 "remote_sig_of_local" v;
    lsig ← get_field serde_array_hex_64 "local_sig_of_remote" v;
    Ok (mkLcss host refund init day local remote lu ru incoming outgoing rsig lsig);
  c_wf := Lcss_typed |}.

(** ** Pending updates: the fields of both tagged enums in one object *)

Definition pending_fields (u : PendingUpdate) : list (string * Value) :=
  match u with
  | PAdd htlc => [("type", v_string "add"); ("htlc", c_enc c_htlc htlc)]
  | PFulfill channel_id id preimage =>
      [("type", v_string "fulfill"); ("channel_id", c_enc serde_array_hex_32 channel_id);
       ("id", c_enc (c_uint 64) id); ("preimage", c_enc store_array_hex_32 preimage)]
  | PFail channel_id id reason =>
      [("type", v_string "fail"); ("channel_id", c_enc serde_array_hex_32 channel_id);
       ("id", c_enc (c_uint 64) id); ("reason", c_enc serde_bytes_hex reason)]
  | PFailMalformed channel_id id sha256_of_onion failure_code =>
      [("type", v_string "fail_malformed"); ("channel_id", c_enc serde_array_hex_32 channel_id);
       ("id", c_enc (c_uint 64) id); ("sha256_of_onion", c_enc store_array_hex_32 sha256_of_onion);
       ("failure_code", c_enc (c_uint 16) failure_code)]
  end.

Definition dec_pending (v : Value) : result string PendingUpdate :=
  tag ← get_field c_string "type" v;
  if String.eqb tag "add" then
    htlc ← get_field c_htlc "htlc" v; Ok (PAdd htlc)
  else if String.eqb tag "fulfill" then
    channel_id ← get_field serde_array_hex_32 "channel_id" v;
    id ← get_field (c_uint 64) "id" v;
    preimage ← get_field store_array_hex_32 "preimage" v;
    Ok (PFulfill channel_id id preimage)
  else if String.eqb tag "fail" then
    channel_id ← get_field serde_array_hex_32 "channel_id" v;
    id ← get_field (c_uint 64) "id" v;
    reason ← get_field serde_bytes_hex "reason" v;
    Ok (PFail channel_id id reason)
  else if String.eqb tag "fail_malformed" then
    channel_id ← get_field serde_array_hex_32 "channel_id" v;
    id ← get_field (c_uint 64) "id" v;
    sha256_of_onion ← get_field store_array_hex_32 "sha256_of_onion" v;
    failure_code ← get_field (c_uint 16) "failure_code" v;
    Ok (PFailMalformed channel_id id sha256_of_onion failure_code)
  else Err ("unknown variant " +:+ tag).

Definition pending_wf (u : PendingUpdate) : Prop :=
  match u with
  | PAdd htlc => UpdateAddHtlc_typed htlc
  | PFulfill channel_id id preimage => length channel_id = 32%nat ∧ u64 id ∧ length preimage = 32%nat
  | PFail channel_id id _ => length channel_id = 32%nat ∧ u64 id
  | PFailMalformed channel_id id sha256_of_onion failure_code =>
      length channel_id = 32%nat ∧ u64 id ∧ length sha256_of_onion = 32%nat ∧ u16 failure_code
  end.

Definition c_update : Codec UncommittedUpdate := {|
  c_enc u := v_object match u with
                      | ULocal u => ("direction", v_string "local") :: pending_fields u
                      | URemote u => ("direction", v_string "remote") :: pending_fields u
                      end;
  c_dec v :=
    direction ← get_field c_string "direction" v;
    if String.eqb direction "local" then u ← dec_pending v; Ok (ULocal u)
    else if String.eqb direction "remote" then u ← dec_pending v; Ok (URemote u)
    else Err ("unknown variant " +:+ direction);
  c_wf u := match u with ULocal u | URemote u => pending_wf u end |}.

(** ** The stored records *)

Definition c_routing : Codec ChannelRoutingPolicy := {|
  c_enc p := v_object
    [("fee_base_msat", c_enc (c_uint 32) (crp_fee_base_msat p));
     ("fee_proportional_millionths", c_enc (c_uint 32) (crp_fee_proportional_millionths p));
     ("cltv_expiry_delta", c_enc (c_uint 16) (crp_cltv_expiry_delta p));
     ("htlc_maximum_msat", c_enc (c_uint 64) (crp_htlc_maximum_msat p))];
  c_dec v :=
    base ← get_field (c_uint 32) "fee_base_msat" v;
    ppm ← get_field (c_uint 32) "fee_proportional_millionths" v;
    cltv ← get_field (c_uint 16) "cltv_expiry_delta" v;
    maximum ← get_field (c_uint 64) "htlc_maximum_msat" v;
    Ok (mkChannelRoutingPolicy base ppm cltv maximum);
  c_wf p := u32 (crp_fee_base_msat p) ∧ u32 (crp_fee_proportional_millionths p) ∧
            u16 (crp_cltv_expiry_delta p) ∧ u64 (crp_htlc_maximum_msat p) |}.

Definition c_channel : Codec ChannelData := {|
  c_enc d := v_object
    [("lcss", c_enc c_lcss (cd_lcss d));
     ("uncommitted", c_enc (c_list c_update) (cd_uncommitted d));
     ("local_errors", c_enc (c_list c_string) (cd_local_errors d));
     ("remote_errors", c_enc (c_list c_string) (cd_remote_errors d));
     ("suspended", c_enc c_bool (cd_suspended d));
     ("proposed_override", put_option c_lcss (cd_proposed_override d));
     ("last_refund_scriptpubkey", c_enc serde_bytes_hex (cd_last_refund_scriptpubkey d));
     ("established", c_enc c_bool (cd_established d));
     ("accepting_resize_sat", put_option (c_uint 64) (cd_accepting_resize_sat d));
     ("routing_policy", put_option c_routing (cd_routing_policy d));
     ("channel_update_pending", c_enc c_bool (cd_channel_update_pending d))];
  c_dec v :=
    lcss ← get_field c_lcss "lcss" v;
    uncommitted ← get_default (c_list c_update) [] "uncommitted" v;
    local_errors ← get_default (c_list c_string) [] "local_errors" v;
    remote_errors ← get_default (c_list c_string) [] "remote_errors" v;
    suspended ← get_default c_bool false "suspended" v;
    proposed ← get_option c_lcss "proposed_override" v;
    refund ← get_default serde_bytes_hex [] "last_refund_scriptpubkey" v;
    established ← get_default c_bool false "established" v;
    resize ← get_option (c_uint 64) "accepting_resize_sat" v;
    routing ← get_option c_routing "routing_policy" v;
    update_pending ← get_default c_bool false "channel_update_pending" v;
    Ok (mkChannelData lcss uncommitted local_errors remote_errors suspended proposed refund established
          resize routing update_pending);
  c_wf d := Lcss_typed (cd_lcss d) ∧ Forall (c_wf c_update) (cd_uncommitted d) ∧
            wf_option c_lcss (cd_proposed_override d) ∧ wf_option (c_uint 64) (cd_accepting_resize_sat d) ∧
            wf_option c_routing (cd_routing_policy d) |}.

Definition c_link : Codec ForwardLink := {|
  c_enc l := v_object
    [("incoming_scid", c_enc (c_uint 64) (fl_incoming_scid l));
     ("incoming_htlc_id", c_enc (c_uint 64) (fl_incoming_htlc_id l));
     ("outgoing_scid", c_enc (c_uint 64) (fl_outgoing_scid l));
     ("outgoing_htlc_id", c_enc (c_uint 64) (fl_outgoing_htlc_id l));
     ("upstream_cltv_expiry", put_option (c_uint 32) (fl_upstream_cltv_expiry l));
     ("hosted_commit_deadline_unix", put_option (c_uint 64) (fl_hosted_commit_deadline_unix l));
     ("payment_hash", c_enc store_array_hex_32 (fl_payment_hash l));
     ("shared_secret", option_array_hex_32_serialize (fl_shared_secret l))];
  c_dec v :=
    incoming_scid ← get_field (c_uint 64) "incoming_scid" v;
    incoming_id ← get_field (c_uint 64) "incoming_htlc_id" v;
    outgoing_scid ← get_field (c_uint 64) "outgoing_scid" v;
    outgoing_id ← get_field (c_uint 64) "outgoing_htlc_id" v;
    expiry ← get_option (c_uint 32) "upstream_cltv_expiry" v;
    deadline ← get_option (c_uint 64) "hosted_commit_deadline_unix" v;
    payment_hash ← get_field store_array_hex_32 "payment_hash" v;
    shared_secret ← match v_get "shared_secret" v with
                    | Some x => option_array_hex_32_deserialize x
                    | None => Ok None
                    end;
    Ok (mkForwardLink incoming_scid incoming_id outgoing_scid outgoing_id expiry deadline payment_hash
          shared_secret);
  c_wf l := u64 (fl_incoming_scid l) ∧ u64 (fl_incoming_htlc_id l) ∧ u64 (fl_outgoing_scid l) ∧
            u64 (fl_outgoing_htlc_id l) ∧ wf_option (c_uint 32) (fl_upstream_cltv_expiry l) ∧
            wf_option (c_uint 64) (fl_hosted_commit_deadline_unix l) ∧
            length (fl_payment_hash l) = 32%nat ∧ wf_option store_array_hex_32 (fl_shared_secret l) |}.

Definition c_meta : Codec Meta := {|
  c_enc m := v_object
    [("next_ledger_seq", c_enc (c_uint 64) (meta_next_ledger_seq m));
     ("current_block_height", c_enc (c_uint 32) (meta_current_block_height m))];
  c_dec v :=
    seq ← get_field (c_uint 64) "next_ledger_seq" v;
    height ← get_field (c_uint 32) "current_block_height" v;
    Ok (mkMeta seq height);
  c_wf m := u64 (meta_next_ledger_seq m) ∧ u32 (meta_current_block_height m) |}.

Definition c_secret : Codec ChannelSecret := {|
  c_enc x := v_object
    [("secret", c_enc c_string (cs_secret x));
     ("capacity_msat", c_enc (c_uint 64) (cs_capacity_msat x));
     ("initial_balance_msat", c_enc (c_uint 64) (cs_initial_balance_msat x));
     ("consumed", c_enc c_bool (cs_consumed x))];
  c_dec v :=
    secret ← get_field c_string "secret" v;
    capacity ← get_field (c_uint 64) "capacity_msat" v;
    initial ← get_field (c_uint 64) "initial_balance_msat" v;
    consumed ← get_field c_bool "consumed" v;
    Ok (mkChannelSecret secret capacity initial consumed);
  c_wf x := u64 (cs_capacity_msat x) ∧ u64 (cs_initial_balance_msat x) |}.

Definition c_policy : Codec ChannelPolicy := {|
  c_enc p := v_object
    [("channel_capacity_msat", c_enc (c_uint 64) (cp_channel_capacity_msat p));
     ("initial_client_balance_msat", c_enc (c_uint 64) (cp_initial_client_balance_msat p));
     ("max_htlc_value_in_flight_msat", c_enc (c_uint 64) (cp_max_htlc_value_in_flight_msat p));
     ("htlc_minimum_msat", c_enc (c_uint 64) (cp_htlc_minimum_msat p));
     ("max_accepted_htlcs", c_enc (c_uint 16) (cp_max_accepted_htlcs p));
     ("fee_base_msat", c_enc (c_uint 32) (cp_fee_base_msat p));
     ("fee_proportional_millionths", c_enc (c_uint 32) (cp_fee_proportional_millionths p));
     ("cltv_expiry_delta", c_enc (c_uint 16) (cp_cltv_expiry_delta p))];
  c_dec v :=
    capacity ← get_field (c_uint 64) "channel_capacity_msat" v;
    initial ← get_field (c_uint 64) "initial_client_balance_msat" v;
    inflight ← get_field (c_uint 64) "max_htlc_value_in_flight_msat" v;
    minimum ← get_field (c_uint 64) "htlc_minimum_msat" v;
    max_htlcs ← get_field (c_uint 16) "max_accepted_htlcs" v;
    base ← get_field (c_uint 32) "fee_base_msat" v;
    ppm ← get_field (c_uint 32) "fee_proportional_millionths" v;
    cltv ← get_field (c_uint 16) "cltv_expiry_delta" v;
    Ok (mkChannelPolicy capacity initial inflight minimum max_htlcs base ppm cltv);
  c_wf p := u64 (cp_channel_capacity_msat p) ∧ u64 (cp_initial_client_balance_msat p) ∧
            u64 (cp_max_htlc_value_in_flight_msat p) ∧ u64 (cp_htlc_minimum_msat p) ∧
            u16 (cp_max_accepted_htlcs p) ∧ u32 (cp_fee_base_msat p) ∧
            u32 (cp_fee_proportional_millionths p) ∧ u16 (cp_cltv_expiry_delta p) |}.

(** [#[serde(rename_all = snake_case)]] *)
Definition event_type_name (t : LedgerEventType) : string :=
  match t with
  | LChannelOpen => "channel_open"
  | LHtlcForwarded => "htlc_forwarded"
  | LHtlcFulfilled => "htlc_fulfilled"
  | LHtlcFailed => "htlc_failed"
  | LOverride => "override"
  | LResize => "resize"
  | LFeeEarned => "fee_earned"
  end.

Definition c_event_type : Codec LedgerEventType := {|
  c_enc t := v_string (event_type_name t);
  c_dec v :=
    s ← ser_err (as_str v);
    ok_or (List.find (λ t, String.eqb (event_type_name t) s)
             [LChannelOpen; LHtlcForwarded; LHtlcFulfilled; LHtlcFailed; LOverride; LResize; LFeeEarned])
      ("unknown variant " +:+ s);
  c_wf _ := True |}.

Definition c_event : Codec LedgerEvent := {|
  c_enc e := v_object
    [("seq", c_enc (c_uint 64) (le_seq e));
     ("event_id", put_option c_string (le_event_id e));
     ("peer_pubkey", c_enc c_string (le_peer_pubkey e));
     ("event_type", c_enc c_event_type (le_event_type e));
     ("amount_msat", c_enc (c_uint 64) (le_amount_msat e));
     ("fee_msat", c_enc (c_uint 64) (le_fee_msat e));
     ("payment_hash", put_option c_string (le_payment_hash e));
     ("timestamp", c_enc (c_uint 64) (le_timestamp e))];
  c_dec v :=
    seq ← get_field (c_uint 64) "seq" v;
    event_id ← get_option c_string "event_id" v;
    peer ← get_field c_string "peer_pubkey" v;
    ty ← get_field c_event_type "event_type" v;
    amount ← get_field (c_uint 64) "amount_msat" v;
    fee ← get_field (c_uint 64) "fee_msat" v;
    payment_hash ← get_option c_string "payment_hash" v;
    timestamp ← get_field (c_uint 64) "timestamp" v;
    Ok (mkLedgerEvent seq event_id peer ty amount fee payment_hash timestamp);
  c_wf e := u64 (le_seq e) ∧ u64 (le_amount_msat e) ∧ u64 (le_fee_msat e) ∧ u64 (le_timestamp e) |}.

(** ** What was stored is read back *)

Context {HCL : CryptoLaws} {LJ : JsonValueLaws}.

#[export] Instance htlc_lawful : Lawful c_htlc.
Proof.
  split; [|intros; apply is_null_object]. intros h (? & ? & ? & ? & ?). cbn [c_enc c_dec c_htlc].
  repeat persist_field. by destruct h.
Qed.
#[export] Instance init_lawful : Lawful c_init.
Proof.
  split; [|intros; apply is_null_object]. intros m (? & ? & ? & ? & ? & ?). cbn [c_enc c_dec c_init].
  repeat persist_field. by destruct m.
Qed.
#[export] Instance lcss_lawful : Lawful c_lcss.
Proof.
  split; [|intros; apply is_null_object]. intros s (? & ? & ? & ? & ? & ? & ? & ? & ? & ?).
  cbn [c_enc c_dec c_lcss]. repeat persist_field. by destruct s.
Qed.


(** The object of an update: its direction, then the fields of the update. *)
Lemma dec_pending_fields dir u : pending_wf u →
  dec_pending (v_object (("direction", v_string dir) :: pending_fields u)) = Ok u.
Proof.
  assert (v_string = c_enc c_string) as Hs by done.
  destruct u; cbn [pending_wf pending_fields]; intros Hwf; destruct_and? Hwf; unfold dec_pending; rewrite Hs;
    repeat (persist_field; cbn [String.eqb Ascii.eqb Bool.eqb]); done.
Qed.

#[export] Instance update_lawful : Lawful c_update.
Proof.
  split; [|intros; apply is_null_object].
  assert (v_string = c_enc c_string) as Hs by done.
  intros [u|u] Hu; cbn [c_enc c_dec c_wf c_update] in *; erewrite get_field_object;
    [|apply _|by destruct u; apply (bool_decide_unpack _)|rewrite Hs; reflexivity|done|
     |apply _|by destruct u; apply (bool_decide_unpack _)|rewrite Hs; reflexivity|done];
    cbn [mbind result_bind String.eqb Ascii.eqb Bool.eqb]; by rewrite dec_pending_fields.
Qed.

#[export] Instance routing_lawful : Lawful c_routing.
Proof.
  split; [|intros; apply is_null_object]. intros p (? & ? & ? & ?). cbn [c_enc c_dec c_routing].
  repeat persist_field. by destruct p.
Qed.
#[export] Instance channel_lawful : Lawful c_channel.
Proof.
  split; [|intros; apply is_null_object]. intros d (? & ? & ? & ? & ?). cbn [c_enc c_dec c_channel].
  assert (∀ l : list string, c_wf (c_list c_string) l) by (intros; by apply Forall_forall).
  repeat persist_field. by destruct d.
Qed.
(** The hand-written module for an optional array is what serde does for an
    [Option] of the other. *)
Lemma option_hex_put o : option_array_hex_32_serialize o = put_option store_array_hex_32 o.
Proof. by destruct o. Qed.
Lemma option_hex_get k v :
  match v_get k v with Some x => option_array_hex_32_deserialize x | None => Ok None end =
  get_option store_array_hex_32 k v.
Proof.
  unfold get_option, option_array_hex_32_deserialize. destruct (v_get k v) as [x|]; [|done].
  destruct (is_null x); [done|]. cbn. destruct (as_str x); [|done]. cbn. destruct (hex_decode _); [|done]. cbn.
  destruct (negb _); [|done]. vm_compute. reflexivity.
Qed.

#[export] Instance link_lawful : Lawful c_link.
Proof.
  split; [|intros; apply is_null_object]. intros l (? & ? & ? & ? & ? & ? & ? & ?). cbn [c_enc c_dec c_link].
  rewrite option_hex_put, option_hex_get.
  repeat persist_field. by destruct l.
Qed.
#[export] Instance meta_lawful : Lawful c_meta.
Proof.
  split; [|intros; apply is_null_object]. intros m (? & ?). cbn [c_enc c_dec c_meta].
  repeat persist_field. by destruct m.
Qed.
#[export] Instance secret_lawful : Lawful c_secret.
Proof.
  split; [|intros; apply is_null_object]. intros x (? & ?). cbn [c_enc c_dec c_secret].
  repeat persist_field. by destruct x.
Qed.
#[export] Instance policy_lawful : Lawful c_policy.
Proof.
  split; [|intros; apply is_null_object]. intros p (? & ? & ? & ? & ? & ? & ? & ?). cbn [c_enc c_dec c_policy].
  repeat persist_field. by destruct p.
Qed.
#[export] Instance event_type_lawful : Lawful c_event_type.
Proof.
  split; [|intros; apply is_null_string]. intros t _. cbn [c_enc c_dec c_event_type].
  rewrite as_str_string. by destruct t.
Qed.
#[export] Instance event_lawful : Lawful c_event.
Proof.
  split; [|intros; apply is_null_object]. intros e (? & ? & ? & ?). cbn [c_enc c_dec c_event].
  assert (∀ o, wf_option c_string o) by done.
  repeat persist_field. by destruct e.
Qed.

(** ** What is read is typed, whatever is stored *)

Class Sound {A} (c : Codec A) : Prop := dec_sound v a : c_dec c v = Ok a → c_wf c a.

Lemma uint_sound width : Sound (c_uint width).
Proof.
  intros v n Hv. cbn in *. apply result_bind_ok in Hv as (m & Hm%ok_or_ok & Hv).
  apply as_u64_range in Hm as [H0 _]. destruct (Z.ltb_spec m (2 ^ width)); naive_solver.
Qed.
#[local] Hint Extern 0 (Sound (c_uint _)) => apply uint_sound : typeclass_instances.

#[export] Instance bool_sound : Sound c_bool.
Proof. done. Qed.
#[export] Instance string_sound : Sound c_string.
Proof. done. Qed.
#[export] Instance bytes_hex_sound : Sound serde_bytes_hex.
Proof. done. Qed.
#[export] Instance event_type_sound : Sound c_event_type.
Proof. done. Qed.

#[export] Instance list_sound {A} (c : Codec A) : Sound c → Sound (c_list c).
Proof.
  intros Hc v l Hv. cbn in *. apply result_bind_ok in Hv as (vs & _ & Hv). revert l Hv.
  induction vs as [|x vs IH]; intros l Hv; cbn in Hv; [by injection Hv as <-|].
  apply result_bind_ok in Hv as (a & Ha & Hv). apply result_bind_ok in Hv as (rest & Hrest & [= <-]).
  constructor; [by eapply dec_sound|by apply IH].
Qed.
#[export] Instance array_sound n : Sound (c_array n).
Proof.
  intros v l Hv. unfold c_array in *. cbn [c_dec c_wf] in *. apply result_bind_ok in Hv as (l' & _ & Hv).
  destruct (Nat.eqb_spec (length l') n); naive_solver.
Qed.
#[export] Instance array_hex_sound n : Sound (serde_array_hex n).
Proof.
  intros v l Hv. cbn in *. apply result_bind_ok in Hv as (s & _ & Hv). apply result_bind_ok in Hv as (l' & _ & Hv).
  destruct (Nat.eqb_spec (length l') n); naive_solver.
Qed.

#[export] Instance array_hex_32_sound : Sound serde_array_hex_32.
Proof. apply array_hex_sound. Qed.
#[export] Instance array_hex_64_sound : Sound serde_array_hex_64.
Proof. apply array_hex_sound. Qed.
#[export] Instance store_array_hex_32_sound : Sound store_array_hex_32.
Proof. apply array_hex_sound. Qed.

Lemma get_field_sound {A} (c : Codec A) k v a : Sound c → get_field c k v = Ok a → c_wf c a.
Proof. intros Hc. unfold get_field. destruct (v_get k v); [apply dec_sound|done]. Qed.
Lemma get_default_sound {A} (c : Codec A) d k v a : Sound c → get_default c d k v = Ok a → c_wf c d → c_wf c a.
Proof. intros Hc. unfold get_default. destruct (v_get k v); [by eauto using dec_sound|by intros [= <-]]. Qed.
Lemma get_option_sound {A} (c : Codec A) k v o : Sound c → get_option c k v = Ok o → wf_option c o.
Proof.
  intros Hc. unfold get_option. destruct (v_get k v) as [x|]; [|by intros [= <-]].
  destruct (is_null x); [by intros [= <-]|]. intros (a & Ha & [= <-])%result_bind_ok b [= <-]. by eapply dec_sound.
Qed.

(** Every field that was read is in the range of its type. *)
Ltac fields_sound H :=
  repeat (apply result_bind_ok in H as (? & ?Hfield & H));
  injection H as <-;
  repeat match goal with
    | Hf : get_field _ _ _ = Ok _ |- _ => apply get_field_sound in Hf; [|apply _]
    | Hf : get_default _ _ _ _ = Ok _ |- _ => apply get_default_sound in Hf; [|apply _|by constructor]
    | Hf : get_option _ _ _ = Ok _ |- _ => apply get_option_sound in Hf; [|apply _]
    end.

#[export] Instance htlc_sound : Sound c_htlc.
Proof. intros v a H. cbn [c_dec c_htlc] in H. fields_sound H. by repeat (assumption || apply conj). Qed.
#[export] Instance init_sound : Sound c_init.
Proof. intros v a H. cbn [c_dec c_init] in H. fields_sound H. by repeat (assumption || apply conj). Qed.
#[export] Instance lcss_record_sound : Sound c_lcss.
Proof. intros v a H. cbn [c_dec c_lcss] in H. fields_sound H. by repeat (assumption || apply conj). Qed.
#[export] Instance routing_sound : Sound c_routing.
Proof. intros v a H. cbn [c_dec c_routing] in H. fields_sound H. by repeat (assumption || apply conj). Qed.

Lemma pending_record_sound v u : dec_pending v = Ok u → pending_wf u.
Proof.
  unfold dec_pending. intros (tag & _ & H)%result_bind_ok.
  repeat (destruct (String.eqb tag _); [fields_sound H; by repeat (assumption || apply conj)|]). done.
Qed.
#[export] Instance update_sound : Sound c_update.
Proof.
  intros v u. cbn [c_dec c_update]. intros (dir & _ & H)%result_bind_ok.
  repeat (destruct (String.eqb dir _); [apply result_bind_ok in H as (p & Hp & [= <-]); by apply pending_record_sound in Hp|]).
  done.
Qed.
#[export] Instance channel_record_sound : Sound c_channel.
Proof. intros v a H. cbn [c_dec c_channel] in H. fields_sound H. by repeat (assumption || apply conj). Qed.
#[export] Instance link_sound : Sound c_link.
Proof. intros v a H. cbn [c_dec c_link] in H. rewrite option_hex_get in H. fields_sound H. by repeat (assumption || apply conj). Qed.
#[export] Instance policy_sound : Sound c_policy.
Proof. intros v a H. cbn [c_dec c_policy] in H. fields_sound H. by repeat (assumption || apply conj). Qed.
#[export] Instance secret_sound : Sound c_secret.
Proof. intros v a H. cbn [c_dec c_secret] in H. fields_sound H. by repeat (assumption || apply conj). Qed.
#[export] Instance meta_sound : Sound c_meta.
Proof. intros v a H. cbn [c_dec c_meta] in H. fields_sound H. by repeat (assumption || apply conj). Qed.
#[export] Instance event_sound : Sound c_event.
Proof. intros v a H. cbn [c_dec c_event] in H. fields_sound H. by repeat (assumption || apply conj). Qed.

(** ** Guarantees *)

(** C14. Nothing is lost in the datastore: every record whose numbers and arrays have
    the widths of its Rust type — channel, forward link, policy, secret, counters,
    ledger event — is read back from its JSON form exactly as it was written. *)
Theorem records_roundtrip :
  (∀ d, c_wf c_channel d → c_dec c_channel (c_enc c_channel d) = Ok d) ∧
  (∀ l, c_wf c_link l → c_dec c_link (c_enc c_link l) = Ok l) ∧
  (∀ p, c_wf c_policy p → c_dec c_policy (c_enc c_policy p) = Ok p) ∧
  (∀ x, c_wf c_secret x → c_dec c_secret (c_enc c_secret x) = Ok x) ∧
  (∀ m, c_wf c_meta m → c_dec c_meta (c_enc c_meta m) = Ok m) ∧
  (∀ e, c_wf c_event e → c_dec c_event (c_enc c_event e) = Ok e).
Proof. split_and!; intros; by apply lawful. Qed.

(** C15. Whatever JSON the datastore holds, a channel record that is read from it is
    typed — every amount, counter and id within its width, every hash, id and
    signature of its length, in the signed state, the pending updates and a
    proposed override alike — and can be written and read again unchanged. *)
Theorem loaded_channel_typed v d :
  c_dec c_channel v = Ok d →
  Lcss_typed (cd_lcss d) ∧ Forall (c_wf c_update) (cd_uncommitted d) ∧
  (∀ s, cd_proposed_override d = Some s → Lcss_typed s) ∧
  c_dec c_channel (c_enc c_channel d) = Ok d.
Proof.
  intros Hd%dec_sound. pose proof Hd as (Hl & Hu & Ho & _).
  split; [exact Hl|]. split; [exact Hu|]. split; [exact Ho|]. by apply lawful.
Qed.

(** A record from before the optional fields existed is read with their defaults. *)
Theorem older_record_loads v s :
  v_get "lcss" v = Some (c_enc c_lcss s) → Lcss_typed s → (∀ k, k ≠ "lcss" → v_get k v = None) →
  c_dec c_channel v = Ok (mkChannelData s [] [] [] false None [] false None None false).
Proof.
  intros Hs Ht Hk. cbn [c_dec c_channel]. unfold get_field, get_default, get_option. rewrite Hs.
  rewrite (lawful (c := c_lcss)) by done. cbn [mbind result_bind]. by rewrite !Hk.
Qed.

End Records.

Module PersistExamples.
Import Toy ToyJson.

Definition stored_state : LastCrossSignedState :=
  mkLcss true (be_bytes 2 7) (mkInitHostedChannel 1000000 1000 12 1000000 0 [1; 9]) 10 600000 400000 3 4
    [mkUpdateAddHtlc (be_bytes 32 1) 5 2000 (be_bytes 32 9) 700 (be_bytes 4 1) []] [] (be_bytes 64 2) (be_bytes 64 3).
Definition stored_channel : ChannelData :=
  mkChannelData stored_state
    [ULocal (PFulfill (be_bytes 32 1) 5 (be_bytes 32 77)); URemote (PFailMalformed (be_bytes 32 1) 6 (be_bytes 32 8) 3)]
    ["peer error"] [] false (Some stored_state) [] true None (Some (mkChannelRoutingPolicy 1 2 3 4)) true.

Lemma stored_wf : c_wf c_channel stored_channel.
Proof.
  assert (Lcss_typed stored_state) as Hs by (apply (bool_decide_unpack _); vm_compute; exact I).
  cbn. split; [exact Hs|]. split; [by repeat constructor|].
  split; [by intros ? [= <-]|]. split; [done|]. intros ? [= <-]. by cbn.
Qed.

Lemma records_roundtrip_witness : c_dec c_channel (c_enc c_channel stored_channel) = Ok stored_channel.
Proof. apply (proj1 records_roundtrip), stored_wf. Defined.

Lemma loaded_channel_typed_witness :
  ∃ d, c_dec c_channel (c_enc c_channel stored_channel) = Ok d ∧ Lcss_typed (cd_lcss d).
Proof.
  exists stored_channel. assert (c_dec c_channel (c_enc c_channel stored_channel) = Ok stored_channel) as H
    by (apply lawful, stored_wf).
  split; [exact H|]. exact (proj1 (loaded_channel_typed _ _ H)).
Defined.

(** A number too wide for its field makes the whole record unreadable. *)
Example too_wide : c_dec (c_uint 16) (v_u64 65536) = Err "invalid value".
Proof. reflexivity. Qed.

End PersistExamples.
