(* ===== verification/ClnStore.v ===== *)
(** * The datastore of lightningd ([src/cln_store.rs])

    The [Store] that production uses: each operation is one or two JSON-RPC calls
    to lightningd, whose answers are taken apart here.  lightningd itself is the
    interface [ClnRpc]; what the store relies on of its datastore commands is
    [DatastoreLaws], and [ToyLightningd] is a datastore that obeys them. *)
From S2P Require Import Prelude Text Bytes Codecs Crypto Config Lcss State Store Json.
From stdpp Require Import options.
From Stdlib Require Import Ascii.
#[local] Open Scope Z_scope.

(** [str::contains] and [str::to_lowercase]; the patterns searched are ASCII, and
    no letter outside ASCII becomes one of their letters. *)
Fixpoint str_contains (pattern s : string) : bool :=
  match str_strip_prefix pattern s with
  | Some _ => true
  | None => match s with EmptyString => false | String _ s => str_contains pattern s end
  end.

Definition ascii_lowercase (a : ascii) : ascii :=
  let n := nat_of_ascii a in
  if (65 <=? Z.of_nat n) && (Z.of_nat n <=? 90) then ascii_of_nat (n + 32) else a.

Fixpoint to_lowercase (s : string) : string :=
  match s with
  | EmptyString => EmptyString
  | String a s => String (ascii_lowercase a) (to_lowercase s)
  end.

(** A JSON-RPC connection to lightningd: the answer, or the message of the error
    ([RpcError]).  [hex_error] is the display of the [hex] crate's error. *)
Class ClnRpc (R : Type) `{JsonValue} : Type := {
  rpc_call : string → Value → R → result string Value * R;
  hex_error : string → string;
}.

Definition key_value `{JsonValue} (k : key) : Value := v_array (v_string <$> k).

Section ClnStore.
Context {HC : Crypto} {HJ : JsonValue} {R : Type} {HR : ClnRpc R}.

Definition map_rpc_error (k : key) (err : string) : StoreError :=
  let message := to_lowercase err in
  if str_contains "already exists" message || str_contains "already have" message then AlreadyExists k
  else if str_contains "generation" message || str_contains "does not match" message then
    GenerationMismatch 0 0
  else if str_contains "not found" message || str_contains "no such" message then KeyNotFound k
  else Backend err.

Definition datastore_params (k : key) (hex : option string) (mode : string) (generation : option Z)
    : Value :=
  v_object ([("key", key_value k); ("mode", v_string mode)] ++
            match hex with Some hex => [("hex", v_string hex)] | None => [] end ++
            match generation with Some g => [("generation", v_u64 g)] | None => [] end).

Definition key_params (k : key) : Value := v_object [("key", key_value k)].

Definition call (k : key) (method : string) (params : Value) (r : R) : result StoreError Value * R :=
  let '(res, r) := rpc_call method params r in (map_err (map_rpc_error k) res, r).

Definition datastore_call (k : key) (hex : option string) (mode : string) (generation : option Z)
    (r : R) : result StoreError Value * R :=
  call k "datastore" (datastore_params k hex mode generation) r.

(** The parts of an entry's key that are strings ([filter_map(|p| p.as_str())]). *)
Definition key_parts (entry : Value) : option key :=
  (omap as_str : list Value → list string) <$> get_array_of "key" entry.

Definition entry_is (k : key) (entry : Value) : bool :=
  match key_parts entry with Some parts => bool_decide (parts = k) | None => false end.

Definition datastore_entries (response : Value) : result StoreError (list Value) :=
  ok_or (get_array_of "datastore" response) (Backend "listdatastore missing datastore array").

Definition find_entry (k : key) (response : Value) : result StoreError (GenerationValue (list byte)) :=
  entries ← datastore_entries response;
  entry ← ok_or (List.find (entry_is k) entries) (KeyNotFound k);
  hex ← ok_or (get_str "hex" entry) (Backend "datastore entry missing hex");
  bytes ← ok_or (hex_decode hex) (Backend (hex_error hex));
  Ok (mkGenerationValue (default 0 (get_u64 "generation" entry)) bytes).

Definition cln_get (k : key) (r : R) : result StoreError (GenerationValue (list byte)) * R :=
  let '(res, r) := call k "listdatastore" (key_params k) r in (res ≫= find_entry k, r).

Definition cln_exists (k : key) (r : R) : result StoreError bool * R :=
  match cln_get k r with
  | (Ok _, r) => (Ok true, r)
  | (Err (KeyNotFound _), r) => (Ok false, r)
  | (Err e, r) => (Err e, r)
  end.

Definition cln_create (k : key) (value : list byte) (r : R) : result StoreError unit * R :=
  let '(res, r) := datastore_call k (Some (hex_encode value)) "must-create" None r in
  (_ ← res; Ok tt, r).

Definition cln_update (k : key) (value : list byte) (expected_generation : Z) (r : R)
    : result StoreError unit * R :=
  let '(res, r) := datastore_call k (Some (hex_encode value)) "must-replace" (Some expected_generation) r in
  (_ ← res; Ok tt, r).

Definition cln_delete (k : key) (r : R) : result StoreError unit * R :=
  let '(res, r) := call k "deldatastore" (key_params k) r in (_ ← res; Ok tt, r).

(** The child of [prefix] that one entry stands for. *)
Definition entry_child (prefix : key) (entry : Value) : option key :=
  parts ← key_parts entry;
  if len parts <=? len prefix then None
  else if bool_decide (take (length prefix) parts = prefix) then Some (take (S (length prefix)) parts)
  else None.

Fixpoint collect_children (prefix : key) (entries : list Value) (found : list key) : list key :=
  match entries with
  | [] => found
  | entry :: entries =>
      collect_children prefix entries
        match entry_child prefix entry with
        | Some child => if decide (child ∈ found) then found else found ++ [child]
        | None => found
        end
  end.

Definition cln_list (prefix : key) (r : R) : result StoreError (list key) * R :=
  let '(res, r) := call prefix "listdatastore" (key_params prefix) r in
  (response ← res; entries ← datastore_entries response; Ok (collect_children prefix entries []), r).

(** Reading leaves lightningd as it is ([ds_list]). *)
#[global] Instance cln_store : Store R (list byte) := {|
  st_get k r := (cln_get k r).1;
  st_exists k r := (cln_exists k r).1;
  st_create := cln_create;
  st_update := cln_update;
  st_delete := cln_delete;
  st_list k r := (cln_list k r).1 |}.

End ClnStore.

(** ** The datastore's contract *)

(** A key the datastore would refuse to create because of another: a stored key
    has no stored prefix. *)
Definition related (k k' : key) : Prop := k `prefix_of` k' ∨ k' `prefix_of` k.

(** What [lightning-datastore(7)], [lightning-listdatastore(7)] and
    [lightning-deldatastore(7)] promise, for a request described by its fields:
    a map from keys to a value and the number of its updates; listing a key gives
    its own entry and one for each immediate child.  The messages of the two
    refusals that the store distinguishes are those it looks for. *)
Class DatastoreLaws `{Crypto} `{JsonValue} (R : Type) `{!ClnRpc R} : Type := {
  ds : R → key → option (Z * list byte);
  ds_typed r k g v : ds r k = Some (g, v) → u64 g;
  ds_list p k r : k ≠ [] → get_array_of "key" p = Some (v_string <$> k) →
    ∃ response entries, rpc_call "listdatastore" p r = (Ok response, r) ∧
      get_array_of "datastore" response = Some entries ∧
      (∀ e, e ∈ entries → ∃ c, get_array_of "key" e = Some (v_string <$> c) ∧
         ((c = k ∧ ∃ g v, ds r k = Some (g, v) ∧ get_str "hex" e = Some (hex_encode v) ∧
                   get_u64 "generation" e = Some g) ∨
          (∃ seg rest, c = k ++ [seg] ∧ is_Some (ds r (k ++ seg :: rest))))) ∧
      (∀ c, (c = k ∧ is_Some (ds r k)) ∨
            (∃ seg rest, c = k ++ [seg] ∧ is_Some (ds r (k ++ seg :: rest))) →
         ∃ e, e ∈ entries ∧ get_array_of "key" e = Some (v_string <$> c));
  ds_create p k v r : k ≠ [] → get_array_of "key" p = Some (v_string <$> k) →
    get_str "mode" p = Some "must-create" → get_str "hex" p = Some (hex_encode v) →
    v_get "generation" p = None →
    match ds r k with
    | Some _ => ∃ msg, rpc_call "datastore" p r = (Err msg, r) ∧
                       str_contains "already exists" (to_lowercase msg) = true
    | None => (∀ k', is_Some (ds r k') → ¬ related k k') →
        ∃ response r', rpc_call "datastore" p r = (Ok response, r') ∧
          ∀ k', ds r' k' = if decide (k' = k) then Some (0, v) else ds r k'
    end;
  ds_replace p k v g r : k ≠ [] → u64 g → get_array_of "key" p = Some (v_string <$> k) →
    get_str "mode" p = Some "must-replace" → get_str "hex" p = Some (hex_encode v) →
    get_u64 "generation" p = Some g →
    match ds r k with
    | None => ∃ msg, rpc_call "datastore" p r = (Err msg, r)
    | Some (g0, _) =>
        if decide (g0 = g) then
          ∃ response r', rpc_call "datastore" p r = (Ok response, r') ∧
            ∀ k', ds r' k' = if decide (k' = k) then Some (wrap64 (g + 1), v) else ds r k'
        else ∃ msg, rpc_call "datastore" p r = (Err msg, r) ∧
               str_contains "already exists" (to_lowercase msg) = false ∧
               str_contains "already have" (to_lowercase msg) = false ∧
               str_contains "generation" (to_lowercase msg) = true
    end;
  ds_upsert p k v r : k ≠ [] → get_array_of "key" p = Some (v_string <$> k) →
    get_str "mode" p = Some "create-or-replace" → get_str "hex" p = Some (hex_encode v) →
    v_get "generation" p = None →
    (∀ k', is_Some (ds r k') → related k k' → k' = k) →
    ∃ response r' g, rpc_call "datastore" p r = (Ok response, r') ∧
      ∀ k', ds r' k' = if decide (k' = k) then Some (g, v) else ds r k';
  ds_delete p k r : k ≠ [] → get_array_of "key" p = Some (v_string <$> k) →
    match ds r k with
    | None => ∃ msg, rpc_call "deldatastore" p r = (Err msg, r)
    | Some _ => ∃ response r', rpc_call "deldatastore" p r = (Ok response, r') ∧
          ∀ k', ds r' k' = if decide (k' = k) then None else ds r k'
    end;
}.

Section ClnStoreFacts.
#[local] Set Default Proof Using "Type*".
Context {HC : Crypto} {LC : CryptoLaws} {HJ : JsonValue} {LJ : JsonValueLaws}.
Context {R : Type} {HR : ClnRpc R} {LR : DatastoreLaws R}.
Implicit Types (k : key) (r : R).

Lemma key_params_key k : get_array_of "key" (key_params k) = Some (v_string <$> k).
Proof. unfold get_array_of, key_params, key_value. json_get. reflexivity. Qed.

Lemma datastore_params_fields k v mode g :
  let p := datastore_params k (Some v) mode (Some g) in
  get_array_of "key" p = Some (v_string <$> k) ∧ get_str "mode" p = Some mode ∧
  get_str "hex" p = Some v ∧ (u64 g → get_u64 "generation" p = Some g).
Proof.
  unfold get_array_of, get_str, get_u64, datastore_params, key_value. cbn [app].
  split_and!; [| | |intros]; json_get; reflexivity.
Qed.

Lemma create_params_fields k v mode :
  let p := datastore_params k (Some v) mode None in
  get_array_of "key" p = Some (v_string <$> k) ∧ get_str "mode" p = Some mode ∧
  get_str "hex" p = Some v ∧ v_get "generation" p = None.
Proof.
  unfold get_array_of, get_str, datastore_params, key_value. cbn [app].
  split_and!; json_get; reflexivity.
Qed.

Lemma omap_as_str k : (omap as_str : list Value → list string) (v_string <$> k) = k.
Proof. induction k as [|x k IH]; [done|]. cbn. rewrite as_str_string. by f_equal. Qed.

Lemma key_parts_of e k : get_array_of "key" e = Some (v_string <$> k) → key_parts e = Some k.
Proof. unfold key_parts. intros ->. cbn. by rewrite omap_as_str. Qed.

(** The answer to a listing, as the store reads it. *)
Lemma listing k r : k ≠ [] → ∃ response entries,
  call k "listdatastore" (key_params k) r = (Ok response, r) ∧
  datastore_entries response = Ok entries ∧
  (∀ e, e ∈ entries → ∃ c, key_parts e = Some c ∧
     ((c = k ∧ ∃ g v, ds r k = Some (g, v) ∧ get_str "hex" e = Some (hex_encode v) ∧
               get_u64 "generation" e = Some g) ∨
      (∃ seg rest, c = k ++ [seg] ∧ is_Some (ds r (k ++ seg :: rest))))) ∧
  (∀ c, (c = k ∧ is_Some (ds r k)) ∨
        (∃ seg rest, c = k ++ [seg] ∧ is_Some (ds r (k ++ seg :: rest))) →
     ∃ e, e ∈ entries ∧ key_parts e = Some c).
Proof.
  intros Hk. destruct (ds_list _ k r Hk (key_params_key k)) as (response & entries & Hc & He & H1 & H2).
  exists response, entries. unfold call, datastore_entries. rewrite Hc, He. split_and!; [done..| |].
  - intros e Hin. destruct (H1 e Hin) as (c & Hkey & Hcase). exists c. split; [by apply key_parts_of|done].
  - intros c Hcase. destruct (H2 c Hcase) as (e & Hin & Hkey). exists e. split; [done|by apply key_parts_of].
Qed.

Lemma entry_is_spec k e : entry_is k e = true ↔ key_parts e = Some k.
Proof. unfold entry_is. destruct (key_parts e); [|done]. rewrite bool_decide_eq_true. naive_solver. Qed.

Lemma find_none {A} (f : A → bool) l : (∀ x, x ∈ l → f x = false) → List.find f l = None.
Proof.
  induction l as [|x l IH]; intros H; [done|]. cbn. rewrite H by (by left). apply IH. intros y Hy. apply H. by right.
Qed.

Lemma cln_get_spec k r : k ≠ [] →
  cln_get k r = (match ds r k with
                 | Some (g, v) => Ok (mkGenerationValue g v)
                 | None => Err (KeyNotFound k)
                 end, r).
Proof.
  intros Hk. unfold cln_get. destruct (listing k r Hk) as (response & entries & -> & He & H1 & H2).
  cbn. unfold find_entry. rewrite He. cbn. f_equal.
  assert (∀ e, e ∈ entries → entry_is k e = true → ∃ g v, ds r k = Some (g, v) ∧
            get_str "hex" e = Some (hex_encode v) ∧ get_u64 "generation" e = Some g) as Hexact.
  { intros e Hin He'%entry_is_spec. destruct (H1 e Hin) as (c & Hc & [[-> Hv]|(seg & rest & -> & _)]); [done|].
    exfalso. rewrite Hc in He'. injection He' as He'. by apply (f_equal length) in He'; rewrite length_app in He'; cbn in He'; lia. }
  destruct (ds r k) as [[g v]|] eqn:Hds.
  - destruct (H2 k) as (e & Hin & Hkey); [left; eauto|].
    destruct (List.find (entry_is k) entries) as [e'|] eqn:Hf.
    + apply List.find_some in Hf as [Hin'%list_elem_of_In Hf]. cbn.
      destruct (Hexact e' Hin' Hf) as (g' & v' & [= <- <-] & -> & ->). cbn.
      by rewrite hex_decode_encode.
    + exfalso. apply list_elem_of_In, (List.find_none _ _ Hf) in Hin.
      apply entry_is_spec in Hkey. congruence.
  - rewrite find_none; [done|]. intros e Hin. destruct (entry_is k e) eqn:Hf; [|done].
    by destruct (Hexact e Hin Hf) as (? & ? & ? & _).
Qed.

Lemma entry_child_spec k e c :
  key_parts e = Some c →
  (c = k ∨ ∃ seg, c = k ++ [seg]) →
  entry_child k e = if decide (c = k) then None else Some c.
Proof.
  unfold entry_child. intros -> [->|[seg ->]]; cbn.
  - rewrite leb_true by done. by rewrite decide_True.
  - rewrite len_app, leb_false by (unfold len; cbn; lia).
    rewrite take_app_length, bool_decide_eq_true_2 by done.
    rewrite decide_False by (intros H; apply (f_equal length) in H; rewrite length_app in H; cbn in H; lia).
    rewrite take_ge; [done|]. rewrite length_app. cbn. lia.
Qed.

Lemma collect_children_spec k es found : NoDup found →
  NoDup (collect_children k es found) ∧
  ∀ c, c ∈ collect_children k es found ↔ c ∈ found ∨ ∃ e, e ∈ es ∧ entry_child k e = Some c.
Proof.
  revert found. induction es as [|e es IH]; intros found Hd; cbn [collect_children].
  { split; [done|]. intros c. set_solver. }
  destruct (IH match entry_child k e with
               | Some child => if decide (child ∈ found) then found else found ++ [child]
               | None => found
               end) as [H1 H2].
  { destruct (entry_child k e) as [c|]; [case_decide|]; [done| |done].
    apply NoDup_app. split_and!; [done| |apply NoDup_singleton]. set_solver. }
  split; [done|]. intros c. rewrite H2. setoid_rewrite elem_of_cons.
  destruct (entry_child k e) as [c'|] eqn:He; [case_decide|]; [set_solver| |set_solver].
  rewrite elem_of_app, list_elem_of_singleton. naive_solver.
Qed.

Lemma cln_list_spec k r : k ≠ [] →
  ∃ cs, cln_list k r = (Ok cs, r) ∧ NoDup cs ∧
    ∀ c, c ∈ cs ↔ ∃ seg rest, c = k ++ [seg] ∧ is_Some (ds r (k ++ seg :: rest)).
Proof.
  intros Hk. unfold cln_list. destruct (listing k r Hk) as (response & entries & -> & He & H1 & H2).
  cbn. rewrite He. cbn. eexists. split; [reflexivity|].
  destruct (collect_children_spec k entries []) as [Hd Hin]; [constructor|]. split; [done|].
  intros c. rewrite Hin, elem_of_nil. split.
  - intros [[]|(e & He' & Hc)]. destruct (H1 e He') as (c' & Hkey & Hcase).
    rewrite (entry_child_spec k e c' Hkey) in Hc by naive_solver.
    case_decide; [done|]. injection Hc as <-. naive_solver.
  - intros (seg & rest & -> & Hs). right. destruct (H2 (k ++ [seg])) as (e & He' & Hkey); [eauto 10|].
    exists e. split; [done|]. rewrite (entry_child_spec k e _ Hkey) by eauto.
    rewrite decide_False; [done|]. intros H. apply (f_equal length) in H. rewrite length_app in H. cbn in H. lia.
Qed.

(** The answers of the store, on a map from keys to values with a generation: the
    contract of [StoreLaws] with coarser errors.  A refused overwrite does not
    say which generation it found, and overwriting or deleting what is not there
    is an error. *)
Definition store_contract (k : key) (r : R) : Prop :=
  st_get k r = match ds r k with
               | Some (g, v) => Ok (mkGenerationValue g v)
               | None => Err (KeyNotFound k)
               end ∧
  st_exists k r = Ok (bool_decide (is_Some (ds r k))) ∧
  (∃ cs, st_list k r = Ok cs ∧ NoDup cs ∧
     ∀ c, c ∈ cs ↔ ∃ seg rest, c = k ++ [seg] ∧ is_Some (ds r (k ++ seg :: rest))) ∧
  (∀ v, match ds r k with
        | Some _ => st_create k v r = (Err (AlreadyExists k), r)
        | None => (∀ k', is_Some (ds r k') → ¬ related k k') → ∃ r', st_create k v r = (Ok tt, r') ∧
            ∀ k', ds r' k' = if decide (k' = k) then Some (0, v) else ds r k'
        end) ∧
  (∀ v g, u64 g → match ds r k with
          | Some (g0, _) =>
              if decide (g0 = g) then ∃ r', st_update k v g r = (Ok tt, r') ∧
                ∀ k', ds r' k' = if decide (k' = k) then Some (wrap64 (g + 1), v) else ds r k'
              else st_update k v g r = (Err (GenerationMismatch 0 0), r)
          | None => ∃ e, st_update k v g r = (Err e, r)
          end) ∧
  match ds r k with
  | Some _ => ∃ r', st_delete k r = (Ok tt, r') ∧
                ∀ k', ds r' k' = if decide (k' = k) then None else ds r k'
  | None => ∃ e, st_delete k r = (Err e, r)
  end.

(** C13. On a datastore that behaves as documented, the store of production is the
    store the controller expects, for every non-empty key: it reads exactly what
    was stored, creates only what is absent, overwrites only under the current
    generation, lists each child once, and a refusal changes nothing. *)
Theorem cln_store_refines k r : k ≠ [] → store_contract k r.
Proof.
  intros Hk. unfold store_contract, st_get, st_exists, st_list, st_create, st_update, st_delete, cln_store.
  pose proof (cln_get_spec k r Hk) as Hget. split_and!.
  - by rewrite Hget.
  - unfold cln_exists. rewrite Hget. by destruct (ds r k) as [[g v]|].
  - destruct (cln_list_spec k r Hk) as (cs & -> & Hcs). eauto.
  - intros v. destruct (create_params_fields k (hex_encode v) "must-create") as (H1 & H2 & H3 & H4).
    pose proof (ds_create _ k v r Hk H1 H2 H3 H4) as Hc. unfold cln_create, datastore_call, call.
    destruct (ds r k).
    + destruct Hc as (msg & -> & Hmsg). cbn. unfold map_rpc_error. by rewrite Hmsg.
    + intros Hrel. destruct (Hc Hrel) as (response & r' & -> & Hr'). cbn. eauto.
  - intros v g Hg. destruct (datastore_params_fields k (hex_encode v) "must-replace" g) as (H1 & H2 & H3 & H4).
    pose proof (ds_replace _ k v g r Hk Hg H1 H2 H3 (H4 Hg)) as Hc. unfold cln_update, datastore_call, call.
    destruct (ds r k) as [[g0 v0]|]; [case_decide|].
    + destruct Hc as (response & r' & -> & Hr'). cbn. eauto.
    + destruct Hc as (msg & -> & Hm1 & Hm2 & Hm3). cbn. unfold map_rpc_error. by rewrite Hm1, Hm2, Hm3.
    + destruct Hc as (msg & ->). cbn. eauto.
  - pose proof (ds_delete _ k r Hk (key_params_key k)) as Hc. unfold cln_delete, call.
    destruct (ds r k); [destruct Hc as (response & r' & -> & Hr')|destruct Hc as (msg & ->)]; cbn; eauto.
Qed.

End ClnStoreFacts.

(** ** A datastore *)
Module ToyLightningd.
Import Toy ToyJson.

Abbreviation Datastore := (gmap key (Z * list byte)).

(** A stored generation counts modulo [2^64]. *)
Definition data_at (d : Datastore) (k : key) : option (Z * list byte) := prod_map wrap64 id <$> d !! k.

Definition parts_of (v : Value) : option key := get_array_of "key" v ≫= mapM as_str.

Definition entry (k : key) (data : option (Z * list byte)) : Value :=
  v_object (("key", key_value k) ::
    match data with
    | Some (g, v) => [("generation", v_u64 g); ("hex", v_string (hex_encode v))]
    | None => []
    end).

(** The immediate children of a key. *)
Definition children (k : key) (d : Datastore) : list key :=
  remove_dups (omap (λ k', if decide (k `prefix_of` k' ∧ k ≠ k') then Some (take (S (length k)) k') else None)
                    (map_to_list d).*1).

Definition list_entries (k : key) (d : Datastore) : list Value :=
  match data_at d k with Some data => [entry k (Some data)] | None => [] end ++
  ((λ c, entry c (data_at d c)) <$> children k d).

Definition must_create (k : key) (v : list byte) (d : Datastore) : result string Value * Datastore :=
  match data_at d k with
  | Some _ => (Err "Key already exists", d)
  | None => (Ok (entry k (Some (0, v))), <[k := (0, v)]> d)
  end.

Definition must_replace (k : key) (v : list byte) (g : Z) (d : Datastore) : result string Value * Datastore :=
  match data_at d k with
  | Some (g0, _) =>
      if decide (g0 = g) then (Ok (entry k (Some (wrap64 (g + 1), v))), <[k := (wrap64 (g + 1), v)]> d)
      else (Err "generation is different", d)
  | None => (Err "Key does not exist", d)
  end.

Definition upsert (k : key) (v : list byte) (d : Datastore) : result string Value * Datastore :=
  let g := match data_at d k with Some (g, _) => wrap64 (g + 1) | None => 0 end in
  (Ok (entry k (Some (g, v))), <[k := (g, v)]> d).

Definition serve (method : string) (p : Value) (d : Datastore) : result string Value * Datastore :=
  match parts_of p with
  | None => (Err "missing key", d)
  | Some k =>
      if String.eqb method "listdatastore" then
        (Ok (v_object [("datastore", v_array (list_entries k d))]), d)
      else if String.eqb method "deldatastore" then
        match data_at d k with
        | Some data => (Ok (entry k (Some data)), delete k d)
        | None => (Err "Key does not exist", d)
        end
      else if String.eqb method "datastore" then
        match get_str "hex" p ≫= hex_decode, get_str "mode" p, get_u64 "generation" p with
        | Some v, Some mode, generation =>
            if String.eqb mode "must-create" then must_create k v d
            else if String.eqb mode "must-replace" then
              match generation with Some g => must_replace k v g d | None => (Err "generation missing", d) end
            else if String.eqb mode "create-or-replace" then upsert k v d
            else (Err "unknown mode", d)
        | _, _, _ => (Err "malformed", d)
        end
      else (Err "unknown method", d)
  end.

#[export] Instance rpc : ClnRpc Datastore := {| rpc_call := serve; hex_error _ := "invalid hex" |}.

Lemma mapM_as_str (k : key) : mapM as_str (v_string <$> k) = Some k.
Proof. apply mapM_fmap_Some. intros s. apply as_str_string. Qed.

Lemma data_at_is_some d k : is_Some (data_at d k) ↔ is_Some (d !! k).
Proof. unfold data_at. by rewrite fmap_is_Some. Qed.

Lemma data_at_typed d k g v : data_at d k = Some (g, v) → u64 g.
Proof.
  unfold data_at. destruct (d !! k) as [[g' v']|]; cbn; [|done]. intros [= <- <-]. apply wrap64_u64.
Qed.

Lemma data_at_insert d k g v k' : u64 g →
  data_at (<[k := (g, v)]> d) k' = if decide (k' = k) then Some (g, v) else data_at d k'.
Proof.
  intros Hg. unfold data_at. case_decide as Hk.
  - subst. rewrite lookup_insert_eq. cbn. by rewrite wrap64_small.
  - by rewrite lookup_insert_ne.
Qed.

Lemma data_at_delete d k k' :
  data_at (delete k d) k' = if decide (k' = k) then None else data_at d k'.
Proof.
  unfold data_at. case_decide as Hk.
  - subst. by rewrite lookup_delete_eq.
  - by rewrite lookup_delete_ne.
Qed.

Lemma entry_key c data : get_array_of "key" (entry c data) = Some (v_string <$> c).
Proof. unfold get_array_of, entry, key_value. by destruct data as [[g v]|]. Qed.

Lemma entry_data c g v : u64 g →
  get_str "hex" (entry c (Some (g, v))) = Some (hex_encode v) ∧
  get_u64 "generation" (entry c (Some (g, v))) = Some g.
Proof. intros Hg. split; [done|]. unfold get_u64, entry. cbn. by rewrite bool_decide_eq_true_2. Qed.

Lemma elem_of_children k d c :
  c ∈ children k d ↔ ∃ seg rest, c = k ++ [seg] ∧ is_Some (data_at d (k ++ seg :: rest)).
Proof.
  unfold children. rewrite elem_of_remove_dups, list_elem_of_omap. split.
  - intros (k' & Hk' & Hc). case_decide as Hp; [|done]. injection Hc as <-. destruct Hp as [[rest ->] Hne].
    destruct rest as [|seg rest]; [by rewrite app_nil_r in Hne|]. exists seg, rest. split.
    + rewrite take_app_ge by lia. replace (S (length k) - length k)%nat with 1%nat by lia. reflexivity.
    + rewrite data_at_is_some. apply list_elem_of_fmap in Hk' as ([k0 x] & Heq & Hx%elem_of_map_to_list).
      cbn in Heq. rewrite Heq. eauto.
  - intros (seg & rest & -> & Hs). exists (k ++ seg :: rest). split.
    + rewrite data_at_is_some in Hs. destruct Hs as [x Hx]. apply list_elem_of_fmap.
      exists (k ++ seg :: rest, x). split; [done|by apply elem_of_map_to_list].
    + rewrite decide_True.
      * rewrite take_app_ge by lia. replace (S (length k) - length k)%nat with 1%nat by lia. reflexivity.
      * split; [by exists (seg :: rest)|]. intros H. apply (f_equal length) in H.
        rewrite length_app in H. cbn in H. lia.
Qed.

Lemma serve_parts p (k : key) : get_array_of "key" p = Some (v_string <$> k) →
  parts_of p = Some k.
Proof. unfold parts_of. intros ->. apply mapM_as_str. Qed.

#[export] Instance datastore_laws : DatastoreLaws Datastore.
Proof.
  refine {| ds := data_at |}.
  - apply data_at_typed.
  - intros p k d Hk Hp. eexists _, (list_entries k d). split.
    { cbn. unfold serve. by rewrite (serve_parts p k Hp). }
    split; [done|]. unfold list_entries. split.
    + intros e [He|He]%elem_of_app.
      * destruct (data_at d k) as [[g v]|] eqn:Hd; [|by apply elem_of_nil in He].
        apply list_elem_of_singleton in He as ->. exists k. split; [apply entry_key|]. left. split; [done|].
        exists g, v. by destruct (entry_data k g v (data_at_typed d k g v Hd)).
      * apply list_elem_of_fmap in He as (c & -> & Hc). exists c. split; [apply entry_key|]. right.
        by apply elem_of_children.
    + intros c [[-> [x Hx]]|Hc].
      * exists (entry k (Some x)). rewrite Hx. split; [by left|apply entry_key].
      * exists (entry c (data_at d c)). split; [|apply entry_key]. apply elem_of_app. right.
        apply list_elem_of_fmap. exists c. split; [done|by apply elem_of_children].
  - intros p k v d Hk Hp Hm Hh Hg. cbn. unfold serve. rewrite (serve_parts p k Hp), Hm, Hh.
    cbn [mbind option_bind]. rewrite hex_decode_encode. cbn. unfold must_create.
    destruct (data_at d k) as [x|]; [eauto|]. intros _. eexists _, _. split; [reflexivity|].
    intros k'. by apply data_at_insert.
  - intros p k v g d Hk Hg Hp Hm Hh Hgen. cbn. unfold serve. rewrite (serve_parts p k Hp), Hm, Hh, Hgen.
    cbn [mbind option_bind]. rewrite hex_decode_encode. cbn. unfold must_replace.
    destruct (data_at d k) as [[g0 v0]|]; [|eauto]. case_decide as Heq.
    + eexists _, _. split; [reflexivity|]. intros k'. apply data_at_insert, wrap64_u64.
    + eexists. split; [reflexivity|]. done.
  - intros p k v d Hk Hp Hm Hh Hg _. cbn. unfold serve. rewrite (serve_parts p k Hp), Hm, Hh.
    cbn [mbind option_bind]. rewrite hex_decode_encode. cbn. unfold upsert.
    eexists _, _, _. split; [reflexivity|]. intros k'. apply data_at_insert.
    destruct (data_at d k) as [[g v']|]; [apply wrap64_u64|done].
  - intros p k d Hk Hp. cbn. unfold serve. rewrite (serve_parts p k Hp). cbn.
    destruct (data_at d k) as [x|]; [|eauto]. eexists _, _. split; [reflexivity|]. intros k'. apply data_at_delete.
Defined.

(** Our entries next to another plugin's. *)
Definition stored : Datastore :=
  <[["canopus"; "policy"] := (3, be_bytes 4 99)]>
    {[["canopus"; "channels"; "02ab"] := (0, be_bytes 2 1); ["summary"] := (1, [])]}.

Lemma cln_store_refines_witness :
  store_contract ["canopus"; "policy"] stored ∧
  st_get ["canopus"; "policy"] stored = Ok (mkGenerationValue 3 (be_bytes 4 99)) ∧
  st_list ["canopus"] stored = Ok [["canopus"; "policy"]; ["canopus"; "channels"]] ∧
  (st_update ["canopus"; "policy"] [] 2 stored).1 = Err (GenerationMismatch 0 0).
Proof.
  split; [by apply (cln_store_refines (R := Datastore))|]. split_and!; vm_compute; reflexivity.
Defined.

End ToyLightningd.
