(* ===== verification/ClnNode.v ===== *)
(** * lightningd as the node ([src/cln_node.rs])

    The [NodeActions] that production uses: JSON-RPC calls to lightningd and the
    reading of their answers, with the HTLC resolutions kept in memory until the
    hook that waits for them takes them. *)
From S2P Require Import Prelude Text Bytes Codecs Crypto ChannelId Config Lcss State Store Node Json ClnStore.
From stdpp Require Import options.
#[local] Open Scope Z_scope.

(** [PublicKey]'s [Display] and [FromStr] (the error is displayed). *)
Class PublicKeyText `{Crypto} : Type := {
  pk_to_string : PublicKey → string;
  pk_from_str : string → result string PublicKey;
}.

Class PublicKeyTextLaws `{PublicKeyText} : Prop := {
  pk_from_to_string pk : pk_from_str (pk_to_string pk) = Ok pk;
}.

(** The clock and the random source, which are the operating system's. *)
Class System (R : Type) `{Crypto} : Type := {
  sys_now : R → option Z;
  sys_random_key : R → SecretKey * R;
}.

Record ClnNode `{Crypto} (R : Type) : Type := mkClnNode {
  cn_rpc : R;
  cn_node_id : PublicKey;
  cn_pending_resolutions : gmap string HtlcResolution;
}.
Arguments mkClnNode {_ R}.
Arguments cn_rpc {_ R}.
Arguments cn_node_id {_ R}.
Arguments cn_pending_resolutions {_ R}.

Record FirstHop `{Crypto} : Type := mkFirstHop { fh_id : PublicKey }.
Arguments mkFirstHop {_}.

Section Responses.
Context {HC : Crypto} {HP : PublicKeyText} {HJ : JsonValue}.
Variable hex_error : string → string.

Definition decode_hex_or (s : string) : result NodeError (list byte) :=
  ok_or (hex_decode s) (Rpc (hex_error s)).

(** [bytes.try_into::<[u8; 32]>()]. *)
Definition to_array_32 (bytes : list byte) : result NodeError (list byte) :=
  if len bytes =? 32 then Ok bytes else Err (Rpc "preimage is not 32 bytes").

Fixpoint peer_states (peers : list Value) (states : gmap PublicKey bool) : gmap PublicKey bool :=
  match peers with
  | [] => states
  | peer :: peers =>
      match get_str "id" peer with
      | None => peer_states peers states
      | Some id =>
          match pk_from_str id with
          | Err _ => peer_states peers states
          | Ok id => peer_states peers (<[id := default false (get_bool "connected" peer)]> states)
          end
      end
  end.

Definition peer_connection_states_from_listpeers (response : Value)
    : result NodeError (gmap PublicKey bool) :=
  peers ← ok_or (get_array_of "peers" response) (Rpc "listpeers missing peers array");
  Ok (peer_states peers ∅).

(** The guards of one [listchannels] entry. *)
Definition usable_channel (node_id : string) (scid : Z) (channel : Value) : bool :=
  bool_decide (get_str "short_channel_id" channel ≫= parse_short_channel_id = Some scid) &&
  bool_decide (get_str "source" channel = Some node_id) &&
  negb (bool_decide (get_bool "active" channel = Some false)).

Definition first_hop_from_listchannels (node_id : PublicKey) (scid : Z) (response : Value)
    : result NodeError FirstHop :=
  channels ← ok_or (get_array_of "channels" response) (Rpc "listchannels missing channels array");
  match List.find (usable_channel (pk_to_string node_id) scid) channels with
  | Some channel =>
      destination ← ok_or (get_str "destination" channel) (Rpc "listchannels entry missing destination");
      id ← map_err Rpc (pk_from_str destination);
      Ok (mkFirstHop id)
  | None => Err (NodeNotFound ("active outgoing channel for scid " +:+ format_short_channel_id scid))
  end.

(** What one entry under the label says; [None]: look further. *)
Definition payment_verdict (payment : Value) : option (result NodeError PaymentStatus) :=
  match get_str "status" payment with
  | Some "complete" =>
      Some (preimage_hex ← ok_or (get_str "payment_preimage" payment)
                             (Rpc "complete sendpay missing preimage");
            bytes ← decode_hex_or preimage_hex;
            preimage ← to_array_32 bytes;
            Ok (Succeeded preimage))
  | Some "failed" =>
      let onion := default "" (or_else (v_get "erroronion" payment) (v_get "onionreply" payment) ≫= as_str) in
      Some (Ok (PaymentFailed (default [] (hex_decode onion))))
  | Some "pending" => Some (Ok Pending)
  | _ => None
  end.

Fixpoint payments_status (label : string) (pays : list Value) : result NodeError PaymentStatus :=
  match pays with
  | [] => Ok Unknown
  | payment :: pays =>
      if negb (bool_decide (get_str "label" payment = Some label)) then payments_status label pays
      else match payment_verdict payment with
           | Some verdict => verdict
           | None => payments_status label pays
           end
  end.

Definition payment_status_from_listsendpays_response (label : string) (response : Value)
    : result NodeError PaymentStatus :=
  match get_array_of "payments" response with
  | None => Ok Unknown
  | Some pays => payments_status label pays
  end.

Definition sendonion_params (first_hop : FirstHop) (p : SendOnionParams) : Value :=
  v_object
    [("onion", v_string (hex_encode (sop_onion p)));
     ("payment_hash", v_string (hex_encode (sop_payment_hash p)));
     ("label", v_string (sop_label p));
     ("groupid", v_u64 (sop_group_id p));
     ("partid", v_u64 (sop_part_id p));
     ("first_hop", v_object
        [("id", v_string (pk_to_string (fh_id first_hop)));
         ("amount_msat", v_string (pretty (sop_first_amount_msat p) +:+ "msat"));
         ("delay", v_u64 (sop_first_delay p))])].

Definition block_height_of (response : Value) : result NodeError Z :=
  ok_or (wrap32 <$> get_u64 "blockheight" response) (Rpc "getinfo missing blockheight").

Definition block_of (response : Value) : result NodeError string :=
  ok_or (or_else (v_get "block" response) (v_get "hex" response) ≫= as_str)
    (Rpc "getrawblockbyheight missing block hex").

Definition address_of (response : Value) : result NodeError string :=
  ok_or (or_else (v_get "bech32" response) (v_get "p2tr" response) ≫= as_str)
    (Rpc "newaddr returned no address").

Definition stored_preimage (response : Value) : result NodeError (option (list byte)) :=
  match get_array_of "datastore" response ≫= head with
  | None => Ok None
  | Some entry =>
      match get_str "hex" entry with
      | None => Ok None
      | Some hex_value => bytes ← decode_hex_or hex_value; preimage ← to_array_32 bytes; Ok (Some preimage)
      end
  end.

End Responses.

Section ClnNode.
Context {HC : Crypto} {HP : PublicKeyText} {HJ : JsonValue} {R : Type} {HR : ClnRpc R} {HS : System R}.
Local Notation Node := (ClnNode R).
Implicit Types (n : Node).

Definition from_rpc (rpc : R) (node_id : PublicKey) : Node := mkClnNode rpc node_id ∅.

Definition with_rpc (rpc : R) n : Node := mkClnNode rpc (cn_node_id n) (cn_pending_resolutions n).

Definition take_resolution (k : string) n : option HtlcResolution * Node :=
  (cn_pending_resolutions n !! k,
   mkClnNode (cn_rpc n) (cn_node_id n) (delete k (cn_pending_resolutions n))).

Definition cn_call (method : string) (params : Value) n : result NodeError Value * Node :=
  let '(res, rpc) := rpc_call method params (cn_rpc n) in (map_err Rpc res, with_rpc rpc n).

(** [self.call(..).await?] and the reading of its answer. *)
Definition cn_query {A} (method : string) (params : Value) (read : Value → result NodeError A) n
    : result NodeError A * Node :=
  let '(res, n) := cn_call method params n in (res ≫= read, n).

Definition first_hop_for_scid (scid : Z) n : result NodeError FirstHop * Node :=
  cn_query "listchannels" (v_object [("short_channel_id", v_string (format_short_channel_id scid))])
    (first_hop_from_listchannels (cn_node_id n) scid) n.

Definition peer_connection_states n : result NodeError (gmap PublicKey bool) * Node :=
  cn_query "listpeers" (v_object []) peer_connection_states_from_listpeers n.

Definition cn_send_custom_msg (peer_pubkey : PublicKey) (msg_bytes : list byte) n
    : result NodeError unit * Node :=
  cn_query "sendcustommsg"
    (v_object [("node_id", v_string (pk_to_string peer_pubkey)); ("msg", v_string (hex_encode msg_bytes))])
    (λ _, Ok tt) n.

Definition cn_send_onion (p : SendOnionParams) n : result NodeError unit * Node :=
  match first_hop_for_scid (sop_first_scid p) n with
  | (Err e, n) => (Err e, n)
  | (Ok first_hop, n) => cn_query "sendonion" (sendonion_params first_hop p) (λ _, Ok tt) n
  end.

Definition cn_inspect_outgoing_payment (payment_hash : list byte) (label : string) n
    : result NodeError PaymentStatus * Node :=
  cn_query "listsendpays" (v_object [("payment_hash", v_string (hex_encode payment_hash))])
    (payment_status_from_listsendpays_response hex_error label) n.

Definition cn_get_block_height n : result NodeError Z * Node :=
  cn_query "getinfo" (v_object []) block_height_of n.

Definition cn_get_raw_block_by_height (height : Z) n : result NodeError string * Node :=
  cn_query "getrawblockbyheight" (v_object [("height", v_u64 height)]) block_of n.

Definition new_address n : result NodeError string * Node :=
  cn_query "newaddr" (v_object []) address_of n.

Definition cn_resolve_htlc (result_key : string) (resolution : HtlcResolution) n
    : result NodeError unit * Node :=
  (Ok tt, mkClnNode (cn_rpc n) (cn_node_id n) (<[result_key := resolution]> (cn_pending_resolutions n))).

Definition get_info n : result NodeError NodeInfo * Node :=
  cn_query "getinfo" (v_object [])
    (λ response, Ok {| ni_network := default "" (get_str "network" response);
                       ni_chain_hash := be_bytes 32 0;
                       ni_block_height := wrap32 (default 0 (get_u64 "blockheight" response));
                       ni_our_pubkey := cn_node_id n |}) n.

Definition preimage_path (payment_hash : list byte) : key :=
  ["canopus"; "preimages"; hex_encode payment_hash].

Definition cn_store_preimage (payment_hash preimage : list byte) n : result NodeError unit * Node :=
  cn_query "datastore"
    (v_object [("key", key_value (preimage_path payment_hash)); ("hex", v_string (hex_encode preimage));
               ("mode", v_string "create-or-replace")])
    (λ _, Ok tt) n.

Definition cn_lookup_preimage (payment_hash : list byte) n : result NodeError (option (list byte)) * Node :=
  cn_query "listdatastore" (v_object [("key", key_value (preimage_path payment_hash))])
    (stored_preimage hex_error) n.

Definition cn_notify (notification : string) (payload : Value) n : result NodeError unit * Node := (Ok tt, n).

Definition cn_delete_preimage (payment_hash : list byte) n : result NodeError unit * Node :=
  cn_query "deldatastore" (v_object [("key", key_value (preimage_path payment_hash))]) (λ _, Ok tt) n.

#[global] Instance cln_node_actions : NodeActions Node := {|
  n_send_custom_msg := cn_send_custom_msg;
  n_send_onion := cn_send_onion;
  n_inspect_outgoing_payment := cn_inspect_outgoing_payment;
  n_get_block_height := cn_get_block_height;
  n_get_raw_block_by_height := cn_get_raw_block_by_height;
  n_resolve_htlc := cn_resolve_htlc;
  n_store_preimage := cn_store_preimage;
  n_lookup_preimage := cn_lookup_preimage;
  n_now n := sys_now (cn_rpc n);
  n_random_key n := let '(k, rpc) := sys_random_key (cn_rpc n) in (k, with_rpc rpc n) |}.

#[global] Instance cln_node_extras : NodeExtras Node := {|
  n_new_address := new_address;
  n_get_info := get_info;
  n_delete_preimage := cn_delete_preimage;
  n_notify := cn_notify |}.

End ClnNode.

(** ** Guarantees *)
Section ClnNodeFacts.
#[local] Set Default Proof Using "Type*".
Context {HC : Crypto} {LC : CryptoLaws} {HP : PublicKeyText} {HJ : JsonValue} {LJ : JsonValueLaws}.
Context {R : Type} {HR : ClnRpc R} {LR : DatastoreLaws R} {HS : System R}.
Local Notation Node := (ClnNode R).
Implicit Types (n : Node).

(** Nothing is stored above or below the preimages. *)
Definition preimages_apart (r : R) : Prop :=
  ∀ h k, is_Some (ds r k) → related (preimage_path h) k → k = preimage_path h.

Lemma preimage_path_inj h h' : preimage_path h = preimage_path h' → h = h'.
Proof. intros [= H]. by apply (inj hex_encode). Qed.

Lemma lookup_preimage_spec h n : preimages_apart (cn_rpc n) →
  cn_lookup_preimage h n =
    (match ds (cn_rpc n) (preimage_path h) with
     | Some (_, p) => p ← to_array_32 p; Ok (Some p)
     | None => Ok None
     end, n).
Proof.
  intros Hapart. unfold cn_lookup_preimage, cn_query, cn_call.
  destruct (ds_list _ (preimage_path h) (cn_rpc n) ltac:(done) (key_params_key _))
    as (response & entries & Hc & He & H1 & H2).
  unfold key_params in Hc. rewrite Hc. destruct n as [r id pending]. cbn in *. f_equal.
  assert (∀ seg rest, ¬ is_Some (ds r (preimage_path h ++ seg :: rest))) as Hleaf.
  { intros seg rest Hs. apply (Hapart h) in Hs; [done|]. left. by exists (seg :: rest). }
  unfold stored_preimage. rewrite He. cbn [mbind option_bind].
  destruct (ds r (preimage_path h)) as [[g p]|] eqn:Hds.
  - destruct (H2 (preimage_path h)) as (e & Hin & _); [left; eauto|].
    destruct entries as [|e0 entries]; [by apply not_elem_of_nil in Hin|]. cbn.
    destruct (H1 e0) as (c & _ & [(_ & g' & p' & Heq & -> & _)|(seg & rest & _ & Hs)]);
      [by left| |by apply Hleaf in Hs].
    injection Heq as <- <-. unfold decode_hex_or. rewrite hex_decode_encode. cbn. by destruct (to_array_32 p).
  - destruct entries as [|e0 entries]; [done|].
    destruct (H1 e0) as (c & _ & [(_ & g' & p' & ? & _)|(seg & rest & _ & Hs)]); [by left|done|by apply Hleaf in Hs].
Qed.

(** C21. A preimage that was stored is found again, also by a plugin started anew
    on the same lightningd; the preimages of other payments stay what they were,
    and storing never fails. *)
Theorem preimage_survives h p n node_id : len p = 32 → preimages_apart (cn_rpc n) →
  ∃ n', cn_store_preimage h p n = (Ok tt, n') ∧ preimages_apart (cn_rpc n') ∧
    (cn_lookup_preimage h (from_rpc (cn_rpc n') node_id)).1 = Ok (Some p) ∧
    ∀ h', h' ≠ h → (cn_lookup_preimage h' n').1 = (cn_lookup_preimage h' n).1.
Proof.
  intros Hlen Hapart. unfold cn_store_preimage, cn_query, cn_call.
  destruct (ds_upsert (v_object [("key", key_value (preimage_path h)); ("hex", v_string (hex_encode p));
                                 ("mode", v_string "create-or-replace")])
              (preimage_path h) p (cn_rpc n)) as (response & r' & g & -> & Hr'); [done|..].
  1-4: unfold get_array_of, get_str, key_value; json_get; reflexivity.
  { intros k Hk Hrel. by apply (Hapart h). }
  assert (preimages_apart r') as Hapart'.
  { intros h0 k Hk Hrel. rewrite Hr' in Hk. case_decide as Heq; [|by apply Hapart].
    subst k. destruct (decide (h0 = h)) as [->|Hne]; [done|]. exfalso.
    destruct Hrel as [[l Hl]|[l Hl]]; injection Hl as Hl; destruct l; try done; by apply Hne, (inj hex_encode). }
  eexists. split; [reflexivity|]. split; [exact Hapart'|]. split.
  - rewrite lookup_preimage_spec by done. cbn. rewrite Hr', decide_True by done. cbn.
    unfold to_array_32. by rewrite Hlen.
  - intros h' Hne. rewrite !lookup_preimage_spec by done. cbn. rewrite Hr', decide_False; [done|].
    intros Heq. by apply Hne, preimage_path_inj.
Qed.

End ClnNodeFacts.

Module ToyClnNode.
Import Toy ToyJson ToyLightningd.

#[export] Instance key_text : PublicKeyText := {|
  pk_to_string pk := hex_encode (pk_serialize pk);
  pk_from_str s := ok_or (hex_decode s ≫= pk_from_slice) "malformed public key" |}.

#[export] Instance key_text_laws : PublicKeyTextLaws.
Proof.
  split. intros pk. unfold pk_from_str, pk_to_string, key_text. rewrite hex_decode_encode.
  cbn [mbind option_bind]. by rewrite pk_from_slice_serialize.
Qed.

#[export] Instance system : System Datastore := {|
  sys_now _ := Some 1700000000; sys_random_key d := (Byte.x07 : @SecretKey Toy.crypto, d) |}.

Definition payment : list byte := be_bytes 32 5.
Definition secret : list byte := be_bytes 32 77.
Definition node : ClnNode Datastore := from_rpc ToyLightningd.stored (Byte.x05 : @PublicKey Toy.crypto).

Lemma apart : preimages_apart (cn_rpc node).
Proof.
  intros h k Hk Hrel. exfalso. revert k Hk Hrel.
  assert (∀ k, is_Some (ds (cn_rpc node) k) →
            k ∈ [["canopus"; "policy"]; ["canopus"; "channels"; "02ab"]; ["summary"]]) as Hin.
  { intros k Hk. change (is_Some (data_at stored k)) in Hk. apply data_at_is_some in Hk. unfold stored in Hk.
    rewrite !lookup_insert_is_Some, lookup_singleton_is_Some in Hk. set_solver. }
  intros k Hk%Hin [[l Hl]|[l Hl]]; set_unfold in Hk; destruct_or! Hk; subst k; by destruct l as [|? [|? [|]]].
Qed.

Lemma preimage_survives_witness :
  ∃ n', cn_store_preimage payment secret node = (Ok tt, n') ∧
    (cn_lookup_preimage payment (from_rpc (cn_rpc n') (cn_node_id node))).1 = Ok (Some secret).
Proof.
  destruct (preimage_survives (R := Datastore) payment secret node (cn_node_id node)) as (n' & Hs & _ & Hl & _);
    [reflexivity|exact apart|].
  exists n'. split; [exact Hs|exact Hl].
Defined.

(** lightningd's view of two attempts: only the one under the label counts. *)
Definition sendpays : Value :=
  v_object [("payments", v_array
    [v_object [("label", v_string "1/1"); ("status", v_string "failed")];
     v_object [("label", v_string "1/2"); ("status", v_string "complete");
               ("payment_preimage", v_string (hex_encode secret))]])].

Example status_of_label :
  payment_status_from_listsendpays_response (λ _, "") "1/2" sendpays = Ok (Succeeded secret) ∧
  payment_status_from_listsendpays_response (λ _, "") "1/1" sendpays = Ok (PaymentFailed []) ∧
  payment_status_from_listsendpays_response (λ _, "") "1/3" sendpays = Ok Unknown.
Proof. vm_compute. done. Qed.

End ToyClnNode.
