(* ===== verification/ChannelBase.v ===== *)
(** * The channel controller: data and helpers ([src/channel.rs])

    The errors, the status a channel derives from its record, and the helpers of
    [ChannelController] that every handler calls: loading and saving the record,
    policies, messages, and marking a channel as errored. *)
From S2P Require Import Prelude Text Bytes Codecs Crypto ChannelId Config Lcss Wire State Store Node Gossip World Ledger.
From stdpp Require Import options.
#[local] Open Scope Z_scope.

Definition HOSTED_DELIVERY_FAILED_ERROR : string :=
  "hosted HTLC delivery failed after upstream acceptance".
Definition HOSTED_HTLC_EXPIRED_ERROR : string := "hosted HTLC expired before settlement".
Definition HOSTED_COMMIT_TIMEOUT_SECS : Z := 30.

(** [ErrPanic] is not an error of the source: it stands for the abort of the
    process by a panic, and nothing catches it ([catch]). *)
Inductive ChannelError : Type :=
| ErrState (e : StateError)
| ErrStore (e : StoreError)
| ErrNode (e : NodeError)
| ErrEncode (msg : string)
| ErrNotFound (peer : string)
| ErrErrored
| ErrChainHashMismatch
| ErrInvalidSecret
| ErrInvalidMessage (msg : string)
| ErrBlockDayOutOfRange (got current : Z)
| ErrInFlightHtlcs
| ErrPanic.

Inductive Status : Type := NotOpened | Opening | Active | Errored | Overriding | Suspended.

#[global] Instance Status_eq_dec : EqDecision Status.
Proof. solve_decision. Defined.

Definition Status_to_string (s : Status) : string :=
  match s with
  | NotOpened => "NOT_OPENED"
  | Opening => "OPENING"
  | Active => "ACTIVE"
  | Errored => "ERRORED"
  | Overriding => "OVERRIDING"
  | Suspended => "SUSPENDED"
  end.

Record SetChannelParams : Type := mkSetChannelParams {
  scp_channel_capacity_msat : option Z;
  scp_initial_client_balance_msat : option Z;
  scp_fee_base_msat : option Z;
  scp_fee_proportional_millionths : option Z;
  scp_cltv_expiry_delta : option Z;
  scp_htlc_minimum_msat : option Z;
  scp_htlc_maximum_msat : option Z;
  scp_max_accepted_htlcs : option Z;
}.

Definition is_some {A} (o : option A) : bool := match o with Some _ => true | None => false end.

Definition SetChannelParams_is_empty (p : SetChannelParams) : bool :=
  negb (is_some (scp_channel_capacity_msat p)) && negb (is_some (scp_initial_client_balance_msat p)) &&
  negb (is_some (scp_fee_base_msat p)) && negb (is_some (scp_fee_proportional_millionths p)) &&
  negb (is_some (scp_cltv_expiry_delta p)) && negb (is_some (scp_htlc_minimum_msat p)) &&
  negb (is_some (scp_htlc_maximum_msat p)) && negb (is_some (scp_max_accepted_htlcs p)).

Definition affects_lcss (p : SetChannelParams) : bool :=
  is_some (scp_channel_capacity_msat p) || is_some (scp_initial_client_balance_msat p) ||
  is_some (scp_htlc_minimum_msat p) || is_some (scp_max_accepted_htlcs p).

Record ChannelParameters : Type := mkChannelParameters {
  chp_channel_capacity_msat : Z;
  chp_initial_client_balance_msat : Z;
  chp_local_balance_msat : Z;
  chp_remote_balance_msat : Z;
  chp_max_htlc_value_in_flight_msat : Z;
  chp_htlc_minimum_msat : Z;
  chp_htlc_maximum_msat : Z;
  chp_maxhtlcs : Z;
  chp_feebase_msat : Z;
  chp_feeppm : Z;
  chp_cltv_expiry_delta : Z;
  chp_channel_update_pending : bool;
  chp_override_pending : bool;
}.

(** ** Field updates of [ChannelData] *)

Definition set_lcss (l : LastCrossSignedState) (d : ChannelData) : ChannelData :=
  mkChannelData l (cd_uncommitted d) (cd_local_errors d) (cd_remote_errors d) (cd_suspended d)
    (cd_proposed_override d) (cd_last_refund_scriptpubkey d) (cd_established d)
    (cd_accepting_resize_sat d) (cd_routing_policy d) (cd_channel_update_pending d).
Definition set_uncommitted (us : list UncommittedUpdate) (d : ChannelData) : ChannelData :=
  mkChannelData (cd_lcss d) us (cd_local_errors d) (cd_remote_errors d) (cd_suspended d)
    (cd_proposed_override d) (cd_last_refund_scriptpubkey d) (cd_established d)
    (cd_accepting_resize_sat d) (cd_routing_policy d) (cd_channel_update_pending d).
Definition set_errors (local remote : list string) (d : ChannelData) : ChannelData :=
  mkChannelData (cd_lcss d) (cd_uncommitted d) local remote (cd_suspended d)
    (cd_proposed_override d) (cd_last_refund_scriptpubkey d) (cd_established d)
    (cd_accepting_resize_sat d) (cd_routing_policy d) (cd_channel_update_pending d).
Definition set_suspended (b : bool) (d : ChannelData) : ChannelData :=
  mkChannelData (cd_lcss d) (cd_uncommitted d) (cd_local_errors d) (cd_remote_errors d) b
    (cd_proposed_override d) (cd_last_refund_scriptpubkey d) (cd_established d)
    (cd_accepting_resize_sat d) (cd_routing_policy d) (cd_channel_update_pending d).
Definition set_proposed_override (o : option LastCrossSignedState) (d : ChannelData) : ChannelData :=
  mkChannelData (cd_lcss d) (cd_uncommitted d) (cd_local_errors d) (cd_remote_errors d)
    (cd_suspended d) o (cd_last_refund_scriptpubkey d) (cd_established d)
    (cd_accepting_resize_sat d) (cd_routing_policy d) (cd_channel_update_pending d).
Definition set_established (b : bool) (d : ChannelData) : ChannelData :=
  mkChannelData (cd_lcss d) (cd_uncommitted d) (cd_local_errors d) (cd_remote_errors d)
    (cd_suspended d) (cd_proposed_override d) (cd_last_refund_scriptpubkey d) b
    (cd_accepting_resize_sat d) (cd_routing_policy d) (cd_channel_update_pending d).
Definition set_accepting_resize (o : option Z) (d : ChannelData) : ChannelData :=
  mkChannelData (cd_lcss d) (cd_uncommitted d) (cd_local_errors d) (cd_remote_errors d)
    (cd_suspended d) (cd_proposed_override d) (cd_last_refund_scriptpubkey d) (cd_established d)
    o (cd_routing_policy d) (cd_channel_update_pending d).
Definition set_routing_policy (o : option ChannelRoutingPolicy) (d : ChannelData) : ChannelData :=
  mkChannelData (cd_lcss d) (cd_uncommitted d) (cd_local_errors d) (cd_remote_errors d)
    (cd_suspended d) (cd_proposed_override d) (cd_last_refund_scriptpubkey d) (cd_established d)
    (cd_accepting_resize_sat d) o (cd_channel_update_pending d).
Definition set_channel_update_pending (b : bool) (d : ChannelData) : ChannelData :=
  mkChannelData (cd_lcss d) (cd_uncommitted d) (cd_local_errors d) (cd_remote_errors d)
    (cd_suspended d) (cd_proposed_override d) (cd_last_refund_scriptpubkey d) (cd_established d)
    (cd_accepting_resize_sat d) (cd_routing_policy d) b.

Definition push_uncommitted (u : UncommittedUpdate) (d : ChannelData) : ChannelData :=
  set_uncommitted (cd_uncommitted d ++ [u]) d.

(** ** Derived status *)

Definition is_empty {A} (l : list A) : bool := match l with [] => true | _ => false end.

Definition derive_status (data : ChannelData) : Status :=
  if cd_suspended data then Suspended
  else if is_some (cd_proposed_override data) then Overriding
  else if negb (is_empty (cd_local_errors data)) || negb (is_empty (cd_remote_errors data)) then Errored
  else if negb (cd_established data) then
    if (local_updates (cd_lcss data) =? 0) && (remote_updates (cd_lcss data) =? 0) then
      if is_empty (cd_last_refund_scriptpubkey data) then NotOpened else Opening
    else Opening
  else Active.

Definition status_is (s : Status) (data : ChannelData) : bool := bool_decide (derive_status data = s).

(** ** Pending resolutions *)

Definition resolution_id (u : PendingUpdate) : option Z :=
  match u with
  | PFulfill _ id _ | PFail _ id _ | PFailMalformed _ id _ _ => Some id
  | PAdd _ => None
  end.

Definition resolution_key (update : UncommittedUpdate) : option (bool * Z) :=
  match update with
  | ULocal u => pair true <$> resolution_id u
  | URemote u => pair false <$> resolution_id u
  end.

Definition has_uncommitted_local_resolution (data : ChannelData) (htlc_id : Z) : bool :=
  existsb (λ update, match update with
                     | ULocal u => match resolution_id u with Some id => id =? htlc_id | None => false end
                     | URemote _ => false
                     end) (cd_uncommitted data).

Definition has_uncommitted_remote_resolution (data : ChannelData) (htlc_id : Z) : bool :=
  existsb (λ update, match update with
                     | URemote u => match resolution_id u with Some id => id =? htlc_id | None => false end
                     | ULocal _ => false
                     end) (cd_uncommitted data).

(** [seen.insert(key)] is false when the key was there. *)
Fixpoint filter_unseen (seen : list (bool * Z)) (updates : list UncommittedUpdate)
    : list UncommittedUpdate :=
  match updates with
  | [] => []
  | update :: updates =>
      match resolution_key update with
      | None => update :: filter_unseen seen updates
      | Some k => if decide (k ∈ seen) then filter_unseen seen updates
                  else update :: filter_unseen (k :: seen) updates
      end
  end.

Definition deduplicate_uncommitted_resolutions (updates : list UncommittedUpdate)
    : list UncommittedUpdate := filter_unseen [] updates.

(** ** The controller *)

Record Controller `{Crypto} : Type := mkController {
  ctl_config : Config;
  ctl_node_secret : SecretKey;
  ctl_node_public : PublicKey;
}.

Section Keys.
Context {HC : Crypto}.

Definition peer_hex (peer_id : PublicKey) : string := hex_encode (pk_serialize peer_id).
Definition channel_key (peer_id : PublicKey) : key := ["canopus"; "channels"; peer_hex peer_id].
Definition secret_key (secret : list byte) : key := ["canopus"; "secrets"; hex_encode secret].
Definition forward_key (scid htlc_id : Z) : key :=
  ["canopus"; "htlc_forwards"; pretty scid; pretty htlc_id].
Definition preimage_key (payment_hash : list byte) : key :=
  ["canopus"; "preimages"; hex_encode payment_hash].
Definition policy_key : key := ["canopus"; "policy"].

(** [hex::decode(..)?.try_into::<[u8; 32]>()]. *)
Definition parse_secret_hex (secret : string) : result ChannelError (list byte) :=
  match hex_decode secret with
  | None => Err (ErrInvalidMessage "secret must be 32-byte hex")
  | Some bytes =>
      if len bytes =? 32 then Ok bytes else Err (ErrInvalidMessage "secret must be 32-byte hex")
  end.

End Keys.

Section Controller.
Context {HC : Crypto} {S V N : Type} {HS : Store S V} {HN : NodeActions N} {JA : AppJson V}.
Context (C : Controller).
Local Notation W := (World S V N).
Local Notation M := (M (S := S) (V := V) (N := N) ChannelError).

Definition store {A} (m : World.M (S := S) (V := V) (N := N) StoreError A) : M A := lift ErrStore m.
Definition node {A} (m : World.M (S := S) (V := V) (N := N) NodeError A) : M A := lift ErrNode m.

(** A [Result] inspected by the caller; a panic is not one. *)
Definition catch {A} (m : M A) : M (result ChannelError A) := λ w,
  match m w with
  | (Err ErrPanic, w') => (Err ErrPanic, w')
  | (r, w') => (Ok r, w')
  end.

(** [match get_json(..) { Ok(x) => Some(x), Err(NotFound) => None, Err(e) => return Err(e) }]. *)
Definition load_optional {A} `{Json V A} (k : key) : M (option (A * Z)) :=
  r ← attempt (m_get_json k);
  match r with
  | Ok x => mret (Some x)
  | Err (KeyNotFound _) => mret None
  | Err e => fail (ErrStore e)
  end.

(** [match create_json(..) { Ok(()) | Err(AlreadyExists(_)) => {}, Err(e) => return Err(e) }]. *)
Definition create_if_absent {A} `{Json V A} (k : key) (value : A) : M unit :=
  r ← attempt (m_create_json k value);
  match r with
  | Ok _ | Err (AlreadyExists _) => mret tt
  | Err e => fail (ErrStore e)
  end.

(** Create, or read the generation and overwrite. *)
Definition create_or_overwrite {A} `{Json V A} (k : key) (value : A) : M unit :=
  r ← attempt (m_create_json k value);
  match r with
  | Ok _ => mret tt
  | Err (AlreadyExists _) =>
      '(_, gen) ← store (m_get_json (A := A) k);
      store (m_update_json k value gen)
  | Err e => fail (ErrStore e)
  end.

Definition note_peer_wire_encoding (peer_id : PublicKey) (encoding : WireEncoding) : M unit :=
  λ w, (Ok tt, set_encodings (<[peer_id := encoding]> (w_encodings w)) w).

Definition note_peer_connection (peer_id : PublicKey) (connected : bool) : M unit :=
  λ w, (Ok tt, set_connections (<[peer_id := connected]> (w_connections w)) w).

(** [entry(..).or_insert(..)] for each: what is known stays. *)
Definition note_initial_peer_connections (connections : gmap PublicKey bool) : M unit :=
  λ w, (Ok tt, set_connections (w_connections w ∪ connections) w).

Definition peer_is_known_disconnected (peer_id : PublicKey) : M bool :=
  λ w, (Ok (match w_connections w !! peer_id with Some false => true | _ => false end), w).

Definition peer_wire_encoding (peer_id : PublicKey) : M WireEncoding :=
  λ w, (Ok (default Strict (w_encodings w !! peer_id)), w).

Definition forget_wire_encoding (peer_id : PublicKey) : M unit :=
  λ w, (Ok tt, set_encodings (delete peer_id (w_encodings w)) w).

Definition load_channel (peer_id : PublicKey) : M (option ChannelData) :=
  r ← load_optional (A := ChannelData) (channel_key peer_id);
  mret (fst <$> r).

(** [.ok_or(ChannelError::NotFound(..))?] on the result. *)
Definition require_channel (peer_id : PublicKey) : M ChannelData :=
  d ← load_channel peer_id;
  require d (ErrNotFound (peer_hex peer_id)).

Definition save_channel (peer_id : PublicKey) (data : ChannelData) (existing_gen : option Z) : M unit :=
  match existing_gen with
  | Some gen => store (m_update_json (channel_key peer_id) data gen)
  | None => create_or_overwrite (channel_key peer_id) data
  end.

Definition repair_duplicate_uncommitted_resolutions (peer_id : PublicKey) (data : ChannelData)
    : M ChannelData :=
  let deduplicated := deduplicate_uncommitted_resolutions (cd_uncommitted data) in
  if negb (len deduplicated =? len (cd_uncommitted data)) then
    let data := set_uncommitted deduplicated data in
    _ ← save_channel peer_id data None;
    mret data
  else mret data.

Definition current_block_day : M Z :=
  height ← node get_block_height;
  mret (height `div` 144).

Definition effective_policy : M ChannelPolicy :=
  r ← load_optional (A := ChannelPolicy) policy_key;
  mret match r with Some (policy, _) => policy | None => cfg_policy (ctl_config C) end.

Definition set_policy (policy : ChannelPolicy) : M unit := create_or_overwrite policy_key policy.

Definition routing_policy_for_data (data : ChannelData) : M ChannelRoutingPolicy :=
  match cd_routing_policy data with
  | Some policy => mret policy
  | None => p ← effective_policy; mret (ChannelRoutingPolicy_from_policy p)
  end.

Definition channel_parameters_for_data (data : ChannelData) : M ChannelParameters :=
  let lcss := default (cd_lcss data) (cd_proposed_override data) in
  let init := init_hosted_channel lcss in
  routing ← routing_policy_for_data data;
  mret {| chp_channel_capacity_msat := ihc_channel_capacity_msat init;
          chp_initial_client_balance_msat := ihc_initial_client_balance_msat init;
          chp_local_balance_msat := local_balance_msat lcss;
          chp_remote_balance_msat := remote_balance_msat lcss;
          chp_max_htlc_value_in_flight_msat := ihc_max_htlc_value_in_flight_msat init;
          chp_htlc_minimum_msat := ihc_htlc_minimum_msat init;
          chp_htlc_maximum_msat := crp_htlc_maximum_msat routing;
          chp_maxhtlcs := ihc_max_accepted_htlcs init;
          chp_feebase_msat := crp_fee_base_msat routing;
          chp_feeppm := crp_fee_proportional_millionths routing;
          chp_cltv_expiry_delta := crp_cltv_expiry_delta routing;
          chp_channel_update_pending := cd_channel_update_pending data;
          chp_override_pending := is_some (cd_proposed_override data) |}.

(** ** Errors *)

Definition mark_errored (peer_id : PublicKey) (data : ChannelData) (error : string) : M unit :=
  save_channel peer_id (set_errors (cd_local_errors data ++ [error]) (cd_remote_errors data) data) None.

Definition mark_remote_errored (peer_id : PublicKey) (data : ChannelData) (error : string) : M unit :=
  save_channel peer_id (set_errors (cd_local_errors data) (cd_remote_errors data ++ [error]) data) None.

(** ** Messages *)

Definition encoded {A} (r : result EncodeError A) : M A :=
  of_result (map_err (λ e, ErrEncode (EncodeError_to_string e)) r).

Definition send_message_with_encoding (peer_id : PublicKey) (msg : HostedMessage)
    (encoding : WireEncoding) : M unit :=
  bytes ← encoded (encode_with_encoding encoding msg);
  node (send_custom_msg peer_id bytes).

Definition send_message (peer_id : PublicKey) (msg : HostedMessage) : M unit :=
  encoding ← peer_wire_encoding peer_id;
  send_message_with_encoding peer_id msg encoding.

(** The policy a [channel_update] announces for one channel. *)
Definition announced_policy (init : InitHostedChannel) (routing : ChannelRoutingPolicy) : ChannelPolicy :=
  {| cp_channel_capacity_msat := ihc_channel_capacity_msat init;
     cp_initial_client_balance_msat := ihc_initial_client_balance_msat init;
     cp_max_htlc_value_in_flight_msat := ihc_max_htlc_value_in_flight_msat init;
     cp_htlc_minimum_msat := ihc_htlc_minimum_msat init;
     cp_max_accepted_htlcs := ihc_max_accepted_htlcs init;
     cp_fee_base_msat := crp_fee_base_msat routing;
     cp_fee_proportional_millionths := crp_fee_proportional_millionths routing;
     cp_cltv_expiry_delta := crp_cltv_expiry_delta routing |}.

Definition send_channel_update (peer_id : PublicKey) : M unit :=
  data ← require_channel peer_id;
  t ← now;
  let timestamp := wrap32 (default 0 t) in
  routing ← routing_policy_for_data data;
  let phc := phc_channel_update_sync (ctl_node_secret C) (ctl_node_public C) peer_id
               (cfg_chain_hash (ctl_config C))
               (announced_policy (init_hosted_channel (cd_lcss data)) routing)
               (crp_htlc_maximum_msat routing) (status_is Active data) timestamp in
  encoding ← peer_wire_encoding peer_id;
  bytes ← encoded (encode_with_encoding encoding (MPhcChannelUpdate phc));
  node (send_custom_msg peer_id bytes).

Definition send_pending_channel_update (peer_id : PublicKey) : M unit :=
  data ← require_channel peer_id;
  if negb (cd_channel_update_pending data) then mret tt else
  _ ← send_channel_update peer_id;
  new_data ← require_channel peer_id;
  save_channel peer_id (set_channel_update_pending false new_data) None.

(** ** Signing the next state *)

Definition with_uncommitted (data : ChannelData) : StateManager :=
  mkStateManager (cd_lcss data) (cd_uncommitted data).

(** [sm.lcss_next()?] on the channel's state and pending updates. *)
Definition next_state (data : ChannelData) : M LastCrossSignedState :=
  of_result (map_err ErrState (lcss_next (with_uncommitted data))).

Definition sign_state (lcss : LastCrossSignedState) : M LastCrossSignedState :=
  encoded (lcss_sign (ctl_node_secret C) lcss).

Definition state_update_for_uncommitted (data : ChannelData) : M StateUpdate :=
  next ← next_state data;
  day ← current_block_day;
  next ← sign_state (set_block_day day next);
  mret (mkStateUpdate (block_day next) (local_updates next) (remote_updates next)
          (local_sig_of_remote next)).

(** ** Listing *)

Definition get_status (peer_id : PublicKey) : M Status :=
  d ← load_channel peer_id;
  mret match d with Some data => derive_status data | None => NotOpened end.

Definition channel_of_child (child : key) : option PublicKey :=
  hex_id ← last child;
  bytes ← hex_decode hex_id;
  if len bytes =? 33 then pk_from_slice bytes else None.

Definition list_channels : M (list PublicKey) :=
  children ← store (m_list ["canopus"; "channels"]);
  mret (omap channel_of_child children).

Definition peer_for_hosted_scid (scid : Z) : M (option PublicKey) :=
  peers ← list_channels;
  mret (List.find (λ peer, hosted_short_channel_id (ctl_node_public C) peer =? scid) peers).

Definition record_ledger_once (peer_id : PublicKey) (event_id : string)
    (event_type : LedgerEventType) (amount_msat : Z) (payment_hash : option (list byte)) : M unit :=
  store (record_once event_id (peer_hex peer_id) event_type amount_msat 0 payment_hash).

End Controller.
