(* ===== verification/ChannelForward.v ===== *)
(** * Forwarding ([src/channel.rs])

    Settling, failing and adding HTLCs on behalf of the node and of other hosted
    channels: the local updates the host signs and sends, the links from an
    outgoing HTLC to the incoming one, the dispatch of committed HTLCs, recovery
    after a restart and the enforcement of deadlines. *)
From S2P Require Import Prelude Text Bytes Codecs Crypto ChannelId Config Lcss Wire Sphinx State Store Node Gossip World Ledger ChannelBase.
From stdpp Require Import options.
#[local] Open Scope Z_scope.

Section Forward.
Context {HC : Crypto} {HO : OnionCrypto} {S V N : Type} {HS : Store S V} {HN : NodeActions N}
  {JA : AppJson V}.
Context (C : Controller).
Local Notation M := (M (S := S) (V := V) (N := N) ChannelError).

(** A call that may panic. *)
Definition panicking {A} (o : outcome A) : M A :=
  match o with Returns a => mret a | Panics | OutOfFuel => fail ErrPanic end.

Definition my_channel_id (peer_id : PublicKey) : list byte := channel_id (ctl_node_public C) peer_id.
Definition my_scid (peer_id : PublicKey) : Z := hosted_short_channel_id (ctl_node_public C) peer_id.

Definition has_htlc (htlcs : list UpdateAddHtlc) (id : Z) : bool :=
  existsb (λ h, htlc_id h =? id) htlcs.

(** ** Local updates: persist the pending update, then send it with the signed
    next state *)

Definition send_local_fulfill (peer_id : PublicKey) (link : ForwardLink) (preimage : list byte) : M unit :=
  data ← require_channel peer_id;
  if negb (has_htlc (incoming_htlcs (cd_lcss data)) (fl_incoming_htlc_id link)) then mret tt else
  let new_data := push_uncommitted
    (ULocal (PFulfill (my_channel_id peer_id) (fl_incoming_htlc_id link) preimage)) data in
  state_update ← state_update_for_uncommitted C new_data;
  _ ← save_channel peer_id new_data None;
  _ ← send_message peer_id (MUpdateFulfillHtlc
        (mkUpdateFulfillHtlc (my_channel_id peer_id) (fl_incoming_htlc_id link) preimage []));
  send_message peer_id (MStateUpdate state_update).

Definition send_local_fail_for_htlc (peer_id : PublicKey) (htlc_id : Z) (reason : list byte) : M unit :=
  data ← require_channel peer_id;
  if negb (has_htlc (incoming_htlcs (cd_lcss data)) htlc_id) then mret tt else
  let new_data := push_uncommitted (ULocal (PFail (my_channel_id peer_id) htlc_id reason)) data in
  state_update ← state_update_for_uncommitted C new_data;
  _ ← save_channel peer_id new_data None;
  _ ← send_message peer_id (MUpdateFailHtlc (mkUpdateFailHtlc (my_channel_id peer_id) htlc_id reason []));
  send_message peer_id (MStateUpdate state_update).

Definition send_local_fail (peer_id : PublicKey) (link : ForwardLink) (reason : list byte) : M unit :=
  send_local_fail_for_htlc peer_id (fl_incoming_htlc_id link) reason.

Definition send_local_fail_malformed_for_htlc (peer_id : PublicKey) (htlc_id : Z)
    (sha256_of_onion : list byte) (failure_code : Z) : M unit :=
  data ← require_channel peer_id;
  if negb (has_htlc (incoming_htlcs (cd_lcss data)) htlc_id) then mret tt else
  let new_data := push_uncommitted
    (ULocal (PFailMalformed (my_channel_id peer_id) htlc_id sha256_of_onion failure_code)) data in
  state_update ← state_update_for_uncommitted C new_data;
  _ ← save_channel peer_id new_data None;
  _ ← send_message peer_id (MUpdateFailMalformedHtlc
        (mkUpdateFailMalformedHtlc (my_channel_id peer_id) htlc_id sha256_of_onion failure_code []));
  send_message peer_id (MStateUpdate state_update).

(** The onion's session key is random. *)
Definition send_direct_payment (peer_id : PublicKey) (amount_msat : Z) (payment_hash : list byte)
    (final_cltv_expiry : Z) (payment_secret : option (list byte)) : M Z :=
  data ← require_channel peer_id;
  if negb (status_is Active data) then fail ErrErrored else
  next ← next_state data;
  if local_balance_msat next <? amount_msat then
    fail (ErrInvalidMessage "insufficient hosted balance") else
  let htlc_id := next_local_updates (with_uncommitted data) + 1 in
  session_secret ← random_key;
  onion ← of_result (map_err (λ e, ErrInvalidMessage (SphinxError_to_string e))
            (create_single_hop_onion session_secret peer_id amount_msat final_cltv_expiry
               payment_secret payment_hash));
  let htlc := mkUpdateAddHtlc (my_channel_id peer_id) htlc_id amount_msat payment_hash
                final_cltv_expiry onion [] in
  let new_data := push_uncommitted (ULocal (PAdd htlc)) data in
  state_update ← state_update_for_uncommitted C new_data;
  _ ← save_channel peer_id new_data None;
  _ ← send_message peer_id (MUpdateAddHtlc htlc);
  _ ← send_message peer_id (MStateUpdate state_update);
  mret htlc_id.

(** ** Failure onions *)

Definition failure_onion_for_peer_htlc (htlc : UpdateAddHtlc) (failure_code : Z) : M (list byte) :=
  let failure := be_bytes 2 failure_code in
  r ← panicking (peel_onion (ctl_node_secret C) (uah_onion_routing_packet htlc) (uah_payment_hash htlc));
  mret match r with
       | Ok peeled => wrap_failure (po_shared_secret peeled) failure
       | Err _ => failure
       end.

Definition wrap_forward_failure (link : ForwardLink) (failure : list byte) : list byte :=
  match fl_shared_secret link with
  | Some shared_secret => wrap_failure shared_secret failure
  | None => failure
  end.

(** ** Links *)

(** One key of the inner loop: the link when it is the one looked for. *)
Definition check_link (incoming_scid incoming_htlc_id : Z) (k : key) : M (option ForwardLink) :=
  r ← load_optional (A := ForwardLink) k;
  match r with
  | None => mret None
  | Some (link, _) =>
      if (fl_incoming_scid link =? incoming_scid) && (fl_incoming_htlc_id link =? incoming_htlc_id)
      then mret (Some link) else mret None
  end.

(** The first [Some] of a loop that returns early. *)
Fixpoint first_some {A B} (f : A → M (option B)) (l : list A) : M (option B) :=
  match l with
  | [] => mret None
  | x :: l => r ← f x; match r with Some b => mret (Some b) | None => first_some f l end
  end.

Definition links_of_scid (incoming_scid incoming_htlc_id : Z) (scid_key : key)
    : M (option ForwardLink) :=
  match last scid_key with
  | None => mret None
  | Some scid =>
      htlc_keys ← store (m_list ["canopus"; "htlc_forwards"; scid]);
      first_some (check_link incoming_scid incoming_htlc_id) htlc_keys
  end.

Definition forward_link_for_incoming (incoming_scid incoming_htlc_id : Z) : M (option ForwardLink) :=
  scid_keys ← store (m_list ["canopus"; "htlc_forwards"]);
  first_some (links_of_scid incoming_scid incoming_htlc_id) scid_keys.

Definition delete_quietly (k : key) : M unit :=
  _ ← attempt (E' := ChannelError) (m_delete k); mret tt.

Definition slash (a b : Z) : string := pretty a +:+ "/" +:+ pretty b.

Definition resolve_forward_fulfill (outgoing_scid outgoing_htlc_id : Z) (preimage : list byte) : M unit :=
  let k := forward_key outgoing_scid outgoing_htlc_id in
  r ← load_optional (A := ForwardLink) k;
  match r with
  | None => mret tt
  | Some (link, _) =>
      source ← peer_for_hosted_scid C (fl_incoming_scid link);
      _ ← match source with
          | Some source_peer => send_local_fulfill source_peer link preimage
          | None => node (resolve_htlc (slash (fl_incoming_scid link) (fl_incoming_htlc_id link))
                            (Resolve preimage))
          end;
      delete_quietly k
  end.

Definition resolve_forward_fail (outgoing_scid outgoing_htlc_id : Z) (failure : list byte) : M unit :=
  let k := forward_key outgoing_scid outgoing_htlc_id in
  r ← load_optional (A := ForwardLink) k;
  match r with
  | None => mret tt
  | Some (link, _) =>
      let failure_onion := wrap_forward_failure link failure in
      source ← peer_for_hosted_scid C (fl_incoming_scid link);
      _ ← match source with
          | Some source_peer => send_local_fail source_peer link failure_onion
          | None => node (resolve_htlc (slash (fl_incoming_scid link) (fl_incoming_htlc_id link))
                            (ResolveFail failure_onion))
          end;
      delete_quietly k
  end.

Definition handle_outgoing_payment_result (outgoing_scid outgoing_htlc_id : Z) (status : PaymentStatus)
    : M unit :=
  let k := forward_key outgoing_scid outgoing_htlc_id in
  r ← load_optional (A := ForwardLink) k;
  match r with
  | None => mret tt
  | Some (link, _) =>
      source ← peer_for_hosted_scid C (fl_incoming_scid link);
      match source with
      | None => mret tt
      | Some peer_id =>
          match status with
          | Succeeded preimage =>
              _ ← node (store_preimage (fl_payment_hash link) preimage);
              _ ← send_local_fulfill peer_id link preimage;
              delete_quietly k
          | PaymentFailed failure_onion =>
              _ ← send_local_fail peer_id link (wrap_forward_failure link failure_onion);
              delete_quietly k
          | Pending | Unknown => mret tt
          end
      end
  end.

(** ** Adding an HTLC to a channel

    The checks of [channel_handle_htlc_add_with_upstream_expiry] in their order;
    each rejection is one failure code given to the node. *)

Definition reject (result_key : string) (code : Z) : M unit :=
  node (resolve_htlc result_key (FailMessage code [])).

(** [map(amount).sum::<u64>()] wraps. *)
Definition inflight (lcss : LastCrossSignedState) : Z :=
  wrap64 (sum_with uah_amount_msat (incoming_htlcs lcss ++ outgoing_htlcs lcss)).

Definition htlc_count (lcss : LastCrossSignedState) : Z :=
  len (incoming_htlcs lcss) + len (outgoing_htlcs lcss).

(** The [incorrect_cltv_expiry] check: [None] passes, [Some e] fails with [e]. *)
Definition cltv_too_soon (normal_source : bool) (upstream_cltv_expiry : option Z) (cltv_expiry delta : Z)
    : result ChannelError bool :=
  match upstream_cltv_expiry with
  | None => Ok false
  | Some upstream =>
      if normal_source then
        match checked_add_u32 cltv_expiry delta with
        | None => Err (ErrInvalidMessage "hosted CLTV expiry overflow")
        | Some needed => Ok (upstream <? needed)
        end
      else Ok false
  end.

(** The checks against the next state, in order. *)
Definition add_refused (init : InitHostedChannel) (next : LastCrossSignedState) (amount_msat : Z) : bool :=
  (local_balance_msat next <? amount_msat) ||
  (ihc_max_accepted_htlcs init <? htlc_count next + 1) ||
  (ihc_max_htlc_value_in_flight_msat init <? saturating_add_u64 (inflight next) amount_msat).

Definition commit_deadline : M Z :=
  t ← now;
  now_secs ← require t (ErrInvalidMessage "system clock is before Unix epoch");
  require (checked_add_u64 now_secs HOSTED_COMMIT_TIMEOUT_SECS)
    (ErrInvalidMessage "hosted commit deadline overflow").

(** Persist the link and the pending add, then send it and the signed state; a
    failed delivery marks the channel as errored. *)
Definition deliver_htlc_add (peer_id : PublicKey) (data : ChannelData) (htlc : UpdateAddHtlc)
    (incoming_scid incoming_htlc_id : Z) (shared_secret : option (list byte))
    (upstream_cltv_expiry : option Z) : M unit :=
  let htlc_id := next_local_updates (with_uncommitted data) + 1 in
  let htlc := mkUpdateAddHtlc (my_channel_id peer_id) htlc_id (uah_amount_msat htlc)
                (uah_payment_hash htlc) (uah_cltv_expiry htlc) (uah_onion_routing_packet htlc)
                (uah_tlv_stream htlc) in
  deadline ← commit_deadline;
  let link := {| fl_incoming_scid := incoming_scid; fl_incoming_htlc_id := incoming_htlc_id;
                 fl_outgoing_scid := my_scid peer_id; fl_outgoing_htlc_id := htlc_id;
                 fl_upstream_cltv_expiry := upstream_cltv_expiry;
                 fl_hosted_commit_deadline_unix := Some deadline;
                 fl_payment_hash := uah_payment_hash htlc; fl_shared_secret := shared_secret |} in
  _ ← create_if_absent (forward_key (my_scid peer_id) htlc_id) link;
  let new_data := push_uncommitted (ULocal (PAdd htlc)) data in
  _ ← save_channel peer_id new_data None;
  let send_or_mark msg :=
    r ← catch (send_message peer_id msg);
    match r with
    | Ok _ => mret tt
    | Err err => _ ← mark_errored peer_id new_data HOSTED_DELIVERY_FAILED_ERROR; fail err
    end in
  _ ← send_or_mark (MUpdateAddHtlc htlc);
  state_update ← state_update_for_uncommitted C new_data;
  send_or_mark (MStateUpdate state_update).

Definition channel_handle_htlc_add_with_upstream_expiry (peer_id : PublicKey) (htlc : UpdateAddHtlc)
    (result_key : string) (incoming_scid incoming_htlc_id : Z) (shared_secret : option (list byte))
    (upstream_cltv_expiry : option Z) : M unit :=
  data ← require_channel peer_id;
  if negb (status_is Active data) then fail ErrErrored else
  disconnected ← peer_is_known_disconnected peer_id;
  if (disconnected : bool) then reject result_key 0x1007 else
  known ← attempt (lookup_preimage (uah_payment_hash htlc));
  match known with
  | Ok (Some preimage) => node (resolve_htlc result_key (Resolve preimage))
  | _ =>
      let init := init_hosted_channel (cd_lcss data) in
      routing ← routing_policy_for_data C data;
      source ← peer_for_hosted_scid C incoming_scid;
      too_soon ← of_result (cltv_too_soon (negb (is_some source)) upstream_cltv_expiry
                   (uah_cltv_expiry htlc) (crp_cltv_expiry_delta routing));
      if (too_soon : bool) then reject result_key 0x100d else
      if uah_amount_msat htlc <? ihc_htlc_minimum_msat init then reject result_key 0x400e else
      if crp_htlc_maximum_msat routing <? uah_amount_msat htlc then reject result_key 0x1007 else
      next ← next_state data;
      if add_refused init next (uah_amount_msat htlc) then reject result_key 0x1007 else
      deliver_htlc_add peer_id data htlc incoming_scid incoming_htlc_id shared_secret
        upstream_cltv_expiry
  end.

Definition channel_handle_htlc_add (peer_id : PublicKey) (htlc : UpdateAddHtlc) (result_key : string)
    (incoming_scid incoming_htlc_id : Z) (shared_secret : option (list byte)) : M unit :=
  channel_handle_htlc_add_with_upstream_expiry peer_id htlc result_key incoming_scid
    incoming_htlc_id shared_secret (Some (uah_cltv_expiry htlc)).

(** ** Committed HTLCs *)

(** The limits a committed incoming HTLC must respect. *)
Definition within_limits (lcss : LastCrossSignedState) (htlc : UpdateAddHtlc) : bool :=
  let policy := init_hosted_channel lcss in
  negb ((uah_amount_msat htlc <? ihc_htlc_minimum_msat policy) ||
        (ihc_max_accepted_htlcs policy <? htlc_count lcss) ||
        (ihc_max_htlc_value_in_flight_msat policy <? inflight lcss)).

Definition required_fee (amt_to_forward : Z) (routing : ChannelRoutingPolicy) : Z :=
  saturating_add_u64
    (saturating_mul_u64 (amt_to_forward `div` 1000000) (crp_fee_proportional_millionths routing))
    (crp_fee_base_msat routing).

(** The terms of a hosted-to-hosted forward. *)
Definition forward_terms_ok (htlc : UpdateAddHtlc) (peeled : PeeledOnion)
    (routing : ChannelRoutingPolicy) (current_height : Z) : bool :=
  negb ((po_outgoing_cltv_value peeled <? saturating_add_u32 current_height 2) ||
        (uah_amount_msat htlc <?
           saturating_add_u64 (po_amt_to_forward peeled) (required_fee (po_amt_to_forward peeled) routing)) ||
        (uah_cltv_expiry htlc <?
           saturating_add_u32 (po_outgoing_cltv_value peeled) (crp_cltv_expiry_delta routing))).

Definition fail_htlc (peer_id : PublicKey) (htlc : UpdateAddHtlc) : M unit :=
  reason ← failure_onion_for_peer_htlc htlc 0x1007;
  send_local_fail_for_htlc peer_id (htlc_id htlc) reason.

Definition height_or_zero : M Z :=
  r ← attempt get_block_height;
  mret match r with Ok h => h | Err _ => 0 end.

Definition forward_to_hosted (peer_id target_peer : PublicKey) (htlc : UpdateAddHtlc)
    (peeled : PeeledOnion) : M unit :=
  if decide (target_peer = peer_id) then
    fail (ErrInvalidMessage "cannot forward hosted HTLC back to same channel") else
  target_data ← require_channel target_peer;
  target_routing ← routing_policy_for_data C target_data;
  current_height ← height_or_zero;
  if negb (forward_terms_ok htlc peeled target_routing current_height) then fail_htlc peer_id htlc else
  let outgoing_htlc := mkUpdateAddHtlc (my_channel_id target_peer) 0 (po_amt_to_forward peeled)
    (uah_payment_hash htlc) (po_outgoing_cltv_value peeled) (po_next_onion peeled) [] in
  r ← catch (channel_handle_htlc_add target_peer outgoing_htlc (slash (my_scid peer_id) (htlc_id htlc))
               (my_scid peer_id) (htlc_id htlc) (Some (po_shared_secret peeled)));
  match r with
  | Ok _ => mret tt
  | Err _ =>
      _ ← fail_htlc peer_id htlc;
      link ← forward_link_for_incoming (my_scid peer_id) (htlc_id htlc);
      match link with
      | Some link => store (m_delete (forward_key (fl_outgoing_scid link) (fl_outgoing_htlc_id link)))
      | None => mret tt
      end
  end.

(** [saturating_sub(..).saturating_sub(1).min(u16::MAX)]. *)
Definition first_delay (outgoing_cltv_value current_height : Z) : Z :=
  Z.min (saturating_sub_u32 (saturating_sub_u32 outgoing_cltv_value current_height) 1) U16_MAX.

Definition forward_to_node (peer_id : PublicKey) (htlc : UpdateAddHtlc) (peeled : PeeledOnion) : M unit :=
  let outgoing_scid := po_short_channel_id peeled in
  let outgoing_htlc_id := htlc_id htlc in
  let link := {| fl_incoming_scid := my_scid peer_id; fl_incoming_htlc_id := htlc_id htlc;
                 fl_outgoing_scid := outgoing_scid; fl_outgoing_htlc_id := outgoing_htlc_id;
                 fl_upstream_cltv_expiry := None; fl_hosted_commit_deadline_unix := None;
                 fl_payment_hash := uah_payment_hash htlc;
                 fl_shared_secret := Some (po_shared_secret peeled) |} in
  let k := forward_key outgoing_scid outgoing_htlc_id in
  _ ← create_if_absent k link;
  current_height ← height_or_zero;
  r ← attempt (send_onion
        {| sop_onion := po_next_onion peeled; sop_payment_hash := uah_payment_hash htlc;
           sop_first_scid := outgoing_scid; sop_first_amount_msat := po_amt_to_forward peeled;
           sop_first_delay := first_delay (po_outgoing_cltv_value peeled) current_height;
           sop_label := slash outgoing_scid outgoing_htlc_id;
           sop_group_id := outgoing_scid `div` 100; sop_part_id := outgoing_htlc_id |});
  match r with
  | Ok _ => mret tt
  | Err _ => _ ← fail_htlc peer_id htlc; delete_quietly k
  end.

Definition dispatch_committed_incoming_htlc (peer_id : PublicKey) (committed_data : ChannelData)
    (htlc : UpdateAddHtlc) : M unit :=
  if negb (within_limits (cd_lcss committed_data) htlc) then fail_htlc peer_id htlc else
  r ← panicking (peel_onion (ctl_node_secret C) (uah_onion_routing_packet htlc) (uah_payment_hash htlc));
  match r with
  | Err _ =>
      send_local_fail_malformed_for_htlc peer_id (htlc_id htlc)
        (sha256 (uah_onion_routing_packet htlc)) 0xc005
  | Ok peeled =>
      if uah_amount_msat htlc <? po_amt_to_forward peeled then fail_htlc peer_id htlc else
      target ← peer_for_hosted_scid C (po_short_channel_id peeled);
      match target with
      | Some target_peer => forward_to_hosted peer_id target_peer htlc peeled
      | None => forward_to_node peer_id htlc peeled
      end
  end.

(** The failures the peer committed are passed back. *)
Definition dispatch_update (hosted_scid : Z) (update : UncommittedUpdate) : M unit :=
  match update with
  | URemote (PFail _ id reason) => resolve_forward_fail hosted_scid id reason
  | URemote (PFailMalformed _ id sha256_of_onion failure_code) =>
      resolve_forward_fail hosted_scid id (be_bytes 2 failure_code ++ sha256_of_onion)
  | _ => mret tt
  end.

Definition dispatch_committed_effects (peer_id : PublicKey) (old_data committed_data : ChannelData)
    (committed_updates : list UncommittedUpdate) : M unit :=
  _ ← for_each (λ htlc,
        if has_htlc (incoming_htlcs (cd_lcss old_data)) (htlc_id htlc) then mret tt
        else dispatch_committed_incoming_htlc peer_id committed_data htlc)
      (incoming_htlcs (cd_lcss committed_data));
  for_each (dispatch_update (my_scid peer_id)) committed_updates.

(** ** Recovery *)

(** A fulfilment is safe to pass on while the hosted HTLC has not expired and the
    upstream HTLC leaves the forwarding delta. *)
Definition hosted_settlement_is_safe (peer_id : PublicKey) (outgoing_htlc : UpdateAddHtlc) : M bool :=
  r ← load_optional (A := ForwardLink) (forward_key (my_scid peer_id) (htlc_id outgoing_htlc));
  match r with
  | None => mret true
  | Some (link, _) =>
      source ← peer_for_hosted_scid C (fl_incoming_scid link);
      if is_some source then mret true else
      match fl_upstream_cltv_expiry link with
      | None => mret false
      | Some expiry =>
          data ← require_channel peer_id;
          routing ← routing_policy_for_data C data;
          required ← require (checked_add_u32 (uah_cltv_expiry outgoing_htlc)
                                (crp_cltv_expiry_delta routing))
                       (ErrInvalidMessage "hosted CLTV expiry overflow");
          height ← node get_block_height;
          mret ((height <? uah_cltv_expiry outgoing_htlc) && (required <=? expiry))
      end
  end.

(** The loop of [recover_outgoing_htlcs]: [None] when it returned early. *)
Fixpoint recover_outgoing_loop (peer_id : PublicKey) (data : ChannelData)
    (htlcs : list UpdateAddHtlc) (hashes : list (list byte)) : M (option (list (list byte))) :=
  match htlcs with
  | [] => mret (Some hashes)
  | htlc :: htlcs =>
      if has_uncommitted_remote_resolution data (htlc_id htlc)
      then recover_outgoing_loop peer_id data htlcs hashes else
      safe ← hosted_settlement_is_safe peer_id htlc;
      if negb safe then
        _ ← mark_errored peer_id data "hosted HTLC outlived upstream CLTV safety deadline";
        mret None
      else
        preimage ← node (lookup_preimage (uah_payment_hash htlc));
        match preimage with
        | Some preimage =>
            _ ← resolve_forward_fulfill (my_scid peer_id) (htlc_id htlc) preimage;
            recover_outgoing_loop peer_id data htlcs hashes
        | None => recover_outgoing_loop peer_id data htlcs (hashes ++ [uah_payment_hash htlc])
        end
  end.

Definition recover_outgoing_htlcs (peer_id : PublicKey) (data : ChannelData) : M unit :=
  hashes ← recover_outgoing_loop peer_id data (outgoing_htlcs (cd_lcss data)) [];
  match hashes with
  | None | Some [] => mret tt
  | Some hashes => send_message peer_id (MQueryPreimages (mkQueryPreimages hashes))
  end.

Definition recover_incoming_htlc (peer_id : PublicKey) (data : ChannelData) (htlc : UpdateAddHtlc)
    : M unit :=
  if has_uncommitted_local_resolution data (htlc_id htlc) then mret tt else
  link ← forward_link_for_incoming (my_scid peer_id) (htlc_id htlc);
  match link with
  | None => dispatch_committed_incoming_htlc peer_id data htlc
  | Some link =>
      target ← peer_for_hosted_scid C (fl_outgoing_scid link);
      if is_some target then mret tt else
      status ← node (inspect_outgoing_payment (fl_payment_hash link)
                 (slash (fl_outgoing_scid link) (fl_outgoing_htlc_id link)));
      match status with
      | Succeeded preimage =>
          handle_outgoing_payment_result (fl_outgoing_scid link) (fl_outgoing_htlc_id link)
            (Succeeded preimage)
      | PaymentFailed failure_onion =>
          handle_outgoing_payment_result (fl_outgoing_scid link) (fl_outgoing_htlc_id link)
            (PaymentFailed failure_onion)
      | Pending => mret tt
      | Unknown => dispatch_committed_incoming_htlc peer_id data htlc
      end
  end.

Definition recover_channel_htlcs (peer_id : PublicKey) (query_outgoing : bool) : M unit :=
  d ← load_channel peer_id;
  match d with
  | None => mret tt
  | Some data =>
      if negb (status_is Active data) then mret tt else
      _ ← for_each (recover_incoming_htlc peer_id data) (incoming_htlcs (cd_lcss data));
      if query_outgoing then recover_outgoing_htlcs peer_id data else mret tt
  end.

Definition recover_committed_htlcs : M unit :=
  peers ← list_channels;
  for_each (λ peer_id, _ ← catch (recover_channel_htlcs peer_id false); mret tt) peers.

(** ** Deadlines *)

(** [get_json] of a link: [None] means [continue]. *)
Definition load_link (scid id : Z) : M (option ForwardLink) :=
  r ← load_optional (A := ForwardLink) (forward_key scid id);
  mret (fst <$> r).

(** The loop over pending adds; [true] when the channel was errored. *)
Fixpoint enforce_commit_deadline (peer_id : PublicKey) (data : ChannelData) (now : Z)
    (updates : list UncommittedUpdate) : M bool :=
  match updates with
  | [] => mret false
  | ULocal (PAdd htlc) :: updates =>
      link ← load_link (my_scid peer_id) (htlc_id htlc);
      match link with
      | None => enforce_commit_deadline peer_id data now updates
      | Some link =>
          if match fl_hosted_commit_deadline_unix link with
             | None => true | Some deadline => now <? deadline end
          then enforce_commit_deadline peer_id data now updates
          else
            _ ← mark_errored peer_id data HOSTED_DELIVERY_FAILED_ERROR;
            _ ← resolve_forward_fail (my_scid peer_id) (htlc_id htlc) (be_bytes 2 0x1007);
            mret true
      end
  | _ :: updates => enforce_commit_deadline peer_id data now updates
  end.

(** The loop over committed outgoing HTLCs, with the cached block height. *)
Fixpoint enforce_expiry (peer_id : PublicKey) (data : ChannelData) (current_height : option Z)
    (htlcs : list UpdateAddHtlc) : M (option Z) :=
  match htlcs with
  | [] => mret current_height
  | htlc :: htlcs =>
      link ← load_link (my_scid peer_id) (htlc_id htlc);
      match link with
      | None => enforce_expiry peer_id data current_height htlcs
      | Some link =>
          if negb (is_some (fl_upstream_cltv_expiry link))
          then enforce_expiry peer_id data current_height htlcs else
          height ← match current_height with
                   | Some height => mret height
                   | None => node get_block_height
                   end;
          if height <? uah_cltv_expiry htlc then enforce_expiry peer_id data (Some height) htlcs else
          _ ← mark_errored peer_id data HOSTED_HTLC_EXPIRED_ERROR;
          _ ← resolve_forward_fail (my_scid peer_id) (htlc_id htlc) (be_bytes 2 0x4008);
          mret (Some height)
      end
  end.

Definition enforce_channel (now : Z) (current_height : option Z) (peer_id : PublicKey) : M (option Z) :=
  d ← load_channel peer_id;
  match d with
  | None => mret current_height
  | Some data =>
      if negb (status_is Active data) then mret current_height else
      errored ← enforce_commit_deadline peer_id data now (cd_uncommitted data);
      if (errored : bool) then mret current_height
      else enforce_expiry peer_id data current_height (outgoing_htlcs (cd_lcss data))
  end.

Fixpoint enforce_channels (now : Z) (current_height : option Z) (peers : list PublicKey) : M unit :=
  match peers with
  | [] => mret tt
  | peer_id :: peers =>
      current_height ← enforce_channel now current_height peer_id;
      enforce_channels now current_height peers
  end.

Definition enforce_forward_deadlines_at (now : Z) : M unit :=
  peers ← list_channels;
  enforce_channels now None peers.

Definition enforce_forward_deadlines : M unit :=
  t ← now;
  secs ← require t (ErrInvalidMessage "system clock is before Unix epoch");
  enforce_forward_deadlines_at secs.

Definition handle_connect (peer_id : PublicKey) : M unit :=
  _ ← note_peer_connection peer_id true;
  d ← load_channel peer_id;
  match d with
  | None => mret tt
  | Some data =>
      _ ← if status_is Active data && cd_channel_update_pending data
          then send_pending_channel_update C peer_id else mret tt;
      recover_channel_htlcs peer_id true
  end.

Definition handle_disconnect (peer_id : PublicKey) : M unit :=
  _ ← note_peer_connection peer_id false;
  forget_wire_encoding peer_id.

End Forward.
