(* ===== verification/Htlc.v ===== *)
(** * The HTLC manager ([src/htlc.rs])

    A second entry point for the node's HTLCs, with its own table of the HTLCs it
    handed to hosted channels.  Sleeping during the startup grace period changes
    no state and is left out. *)
From S2P Require Import Prelude Text Bytes Codecs Crypto ChannelId Config Lcss Wire Sphinx State Store Node World Ledger ChannelBase ChannelForward.
From stdpp Require Import options.
From Stdlib Require Import Ascii.
#[local] Open Scope Z_scope.

Record PendingHtlc : Type := mkPendingHtlc {
  ph_result_key : string;
  ph_incoming_scid : Z;
  ph_incoming_htlc_id : Z;
  ph_amount_msat : Z;
  ph_payment_hash : list byte;
  ph_cltv_expiry : Z;
  ph_onion : list byte;
  ph_shared_secret : option (list byte);
}.

(** [s.rsplit_once(c)]: what follows the last [c]. *)
Definition after_last (c : ascii) (s : string) : option string :=
  match split_on c s with
  | _ :: ((_ :: _) as parts) => last parts
  | _ => None
  end.

Definition htlc_id_of_result_key (result_key : string) : Z :=
  default 0 (after_last "/"%char result_key ≫= parse_u64).

Example id_of_key : htlc_id_of_result_key "77/7" = 7 ∧ htlc_id_of_result_key "77" = 0.
Proof. done. Qed.

Section Htlc.
Context {HC : Crypto} {HO : OnionCrypto} {S V N : Type} {HS : Store S V} {HN : NodeActions N}
  {JA : AppJson V}.
Context (C : Controller).
Local Notation M := (M (S := S) (V := V) (N := N) ChannelError).

(** The manager's state: the pending HTLCs under their result keys. *)
Definition HtlcManager : Type := gmap string PendingHtlc.

Definition find_channel_by_scid (scid : Z) : M (option PublicKey) :=
  r ← catch (list_channels (S := S) (V := V) (N := N));
  mret match r with
       | Ok channels => List.find (λ peer, hosted_short_channel_id (ctl_node_public C) peer =? scid) channels
       | Err _ => None
       end.

(** The HTLC for the channel; the channel assigns its id. *)
Definition unassigned_htlc (amount_msat : Z) (payment_hash : list byte) (cltv_expiry : Z)
    (onion : list byte) : UpdateAddHtlc :=
  mkUpdateAddHtlc (be_bytes 32 0) 0 amount_msat payment_hash cltv_expiry onion [].

(** [Some r]: resolve at once; [None]: the resolution comes later. *)
Definition handle_htlc_accepted (m : HtlcManager) (result_key : string) (incoming_scid : option Z)
    (amount_msat : Z) (payment_hash : list byte) (cltv_expiry : Z) (onion : list byte)
    (shared_secret : option (list byte)) : M (option HtlcResolution * HtlcManager) :=
  match incoming_scid with
  | None => mret (Some Continue, m)
  | Some incoming_scid =>
      peer ← find_channel_by_scid incoming_scid;
      match peer with
      | None => mret (Some Continue, m)
      | Some peer_id =>
          known ← attempt (lookup_preimage payment_hash);
          match known with
          | Ok (Some preimage) => mret (Some (Resolve preimage), m)
          | _ =>
              let incoming_htlc_id := htlc_id_of_result_key result_key in
              let pending_htlc := {|
                ph_result_key := result_key; ph_incoming_scid := incoming_scid;
                ph_incoming_htlc_id := incoming_htlc_id; ph_amount_msat := amount_msat;
                ph_payment_hash := payment_hash; ph_cltv_expiry := cltv_expiry;
                ph_onion := onion; ph_shared_secret := shared_secret |} in
              r ← catch (channel_handle_htlc_add_with_upstream_expiry C peer_id
                           (unassigned_htlc amount_msat payment_hash cltv_expiry onion)
                           result_key incoming_scid (ph_incoming_htlc_id pending_htlc)
                           (ph_shared_secret pending_htlc) (Some cltv_expiry));
              mret match r with
                   | Ok _ => (None, <[result_key := pending_htlc]> m)
                   | Err _ => (Some (FailMessage 0x1007 []), m)
                   end
          end
      end
  end.

Definition handle_payment_result (outgoing_scid outgoing_htlc_id : Z) (status : PaymentStatus) : M unit :=
  let k := forward_key outgoing_scid outgoing_htlc_id in
  r ← attempt (m_get_json (A := ForwardLink) k);
  match r with
  | Err _ => mret tt
  | Ok (link, _) =>
      let result_key := slash (fl_incoming_scid link) (fl_incoming_htlc_id link) in
      match status with
      | Succeeded preimage =>
          _ ← attempt (store_preimage (fl_payment_hash link) preimage);
          _ ← attempt (resolve_htlc result_key (Resolve preimage));
          delete_quietly k
      | PaymentFailed failure_onion =>
          _ ← attempt (resolve_htlc result_key (ResolveFail failure_onion));
          delete_quietly k
      | Pending | Unknown => mret tt
      end
  end.

Definition peel_client_onion (onion payment_hash : list byte) :=
  peel_onion (ctl_node_secret C) onion payment_hash.

End Htlc.
