(* ===== verification/ChannelUpdate.v ===== *)
(** * HTLC updates and messages of the peer ([src/channel.rs])

    [update_add_htlc], the three ways of removing an HTLC, [error] and the
    preimage queries. *)
From S2P Require Import Prelude Text Bytes Codecs Crypto ChannelId Config Lcss Wire Sphinx State Store Node Gossip World Ledger ChannelBase ChannelForward.
From stdpp Require Import options.
#[local] Open Scope Z_scope.

Section Update.
Context {HC : Crypto} {HO : OnionCrypto} {S V N : Type} {HS : Store S V} {HN : NodeActions N}
  {JA : AppJson V}.
Context (C : Controller).
Local Notation M := (M (S := S) (V := V) (N := N) ChannelError).

(** Send [error] for the channel with the peer. *)
Definition send_error (peer_id : PublicKey) (data : string) : M unit :=
  send_message peer_id (MError (mkHcError (my_channel_id C peer_id) (bytes_of_string data) [])).

Definition handle_update_add (peer_id : PublicKey) (htlc : UpdateAddHtlc) : M unit :=
  data ← require_channel peer_id;
  if negb (status_is Active data) then
    reason ← failure_onion_for_peer_htlc C htlc 0x1007;
    send_message peer_id (MUpdateFailHtlc
      (mkUpdateFailHtlc (uah_channel_id htlc) (uah_id htlc) reason []))
  else
  next ← next_state data;
  if remote_balance_msat next <? uah_amount_msat htlc then
    _ ← mark_errored peer_id data "peer sent update_add_htlc above available balance";
    send_error peer_id "update_add_htlc above available balance"
  else
  save_channel peer_id (push_uncommitted (URemote (PAdd htlc)) data) None.

(** Both are still processed for the HTLCs of an errored channel. *)
Definition settles (data : ChannelData) : bool := status_is Active data || status_is Errored data.

Definition has_local_error (errors : list string) (data : ChannelData) : bool :=
  existsb (λ e, existsb (String.eqb e) errors) (cd_local_errors data).

Definition handle_update_fail_malformed (peer_id : PublicKey) (msg : UpdateFailMalformedHtlc) : M unit :=
  data ← require_channel peer_id;
  if negb (settles data) then mret tt else
  if has_local_error [HOSTED_DELIVERY_FAILED_ERROR] data then mret tt else
  if has_uncommitted_remote_resolution data (ufm_id msg) then mret tt else
  if negb (has_htlc (outgoing_htlcs (cd_lcss data)) (ufm_id msg)) then mret tt else
  save_channel peer_id
    (push_uncommitted (URemote (PFailMalformed (ufm_channel_id msg) (ufm_id msg)
                                  (ufm_sha256_of_onion msg) (ufm_failure_code msg))) data) None.

Definition handle_update_fail (peer_id : PublicKey) (msg : UpdateFailHtlc) : M unit :=
  data ← require_channel peer_id;
  if negb (settles data) then mret tt else
  if has_uncommitted_remote_resolution data (ufh_id msg) then mret tt else
  if negb (has_htlc (outgoing_htlcs (cd_lcss data)) (ufh_id msg)) then mret tt else
  if is_empty (ufh_reason msg) then mark_errored peer_id data "peer sent empty fail reason" else
  save_channel peer_id
    (push_uncommitted (URemote (PFail (ufh_channel_id msg) (ufh_id msg) (ufh_reason msg))) data) None.

Definition handle_update_fulfill (peer_id : PublicKey) (msg : UpdateFulfillHtlc) : M unit :=
  data ← require_channel peer_id;
  if negb (settles data) then mret tt else
  if has_local_error [HOSTED_DELIVERY_FAILED_ERROR; HOSTED_HTLC_EXPIRED_ERROR] data then mret tt else
  if has_uncommitted_remote_resolution data (ufl_id msg) then mret tt else
  let preimage := ufl_payment_preimage msg in
  match List.find (λ h, htlc_id h =? ufl_id msg) (outgoing_htlcs (cd_lcss data)) with
  | None => mret tt
  | Some htlc =>
      if negb (bool_decide (uah_payment_hash htlc = sha256 preimage)) then mret tt else
      safe ← hosted_settlement_is_safe C peer_id htlc;
      if negb safe then
        _ ← mark_errored peer_id data "hosted fulfill arrived after hosted HTLC expiry";
        send_error peer_id "hosted fulfill arrived after hosted HTLC expiry"
      else
      _ ← node (store_preimage (uah_payment_hash htlc) preimage);
      _ ← save_channel peer_id
            (push_uncommitted (URemote (PFulfill (ufl_channel_id msg) (ufl_id msg) preimage)) data) None;
      resolve_forward_fulfill C (my_scid C peer_id) (ufl_id msg) preimage
  end.

Definition handle_error (peer_id : PublicKey) (msg : HcError) : M unit :=
  data ← require_channel peer_id;
  mark_remote_errored peer_id data (string_of_bytes (from_utf8_lossy (he_data msg))).

Fixpoint known_preimages (hashes : list (list byte)) (preimages : list (list byte))
    : M (list (list byte)) :=
  match hashes with
  | [] => mret preimages
  | hash :: hashes =>
      p ← node (lookup_preimage hash);
      known_preimages hashes match p with Some p => preimages ++ [p] | None => preimages end
  end.

Definition handle_query_preimages (peer_id : PublicKey) (msg : QueryPreimages) : M unit :=
  preimages ← known_preimages (qp_hashes msg) [];
  if is_empty preimages then mret tt
  else send_message peer_id (MReplyPreimages (mkReplyPreimages preimages)).

Definition handle_reply_preimages (_ : PublicKey) (msg : ReplyPreimages) : M unit :=
  for_each (λ preimage, node (store_preimage (sha256 preimage) preimage)) (rp_preimages msg).

(** ** Ledger events of a commitment *)

Definition update_event_id (peer_id : PublicKey) (new_lcss : LastCrossSignedState) (what : string)
    (id : Z) : string :=
  peer_hex peer_id +:+ ":" +:+ pretty (local_updates new_lcss) +:+ ":" +:+
  pretty (remote_updates new_lcss) +:+ ":" +:+ what +:+ ":" +:+ pretty id.

Definition record_htlc_event (peer_id : PublicKey) (new_lcss : LastCrossSignedState) (what : string)
    (ty : LedgerEventType) (htlc : UpdateAddHtlc) (id : Z) : M unit :=
  record_ledger_once peer_id (update_event_id peer_id new_lcss what id) ty (uah_amount_msat htlc)
    (Some (uah_payment_hash htlc)).

(** An event for the HTLC with [id], when the old state has it. *)
Definition record_resolved (peer_id : PublicKey) (new_lcss : LastCrossSignedState) (what : string)
    (ty : LedgerEventType) (htlcs : list UpdateAddHtlc) (id : Z) : M unit :=
  match List.find (λ h, htlc_id h =? id) htlcs with
  | Some htlc => record_htlc_event peer_id new_lcss what ty htlc id
  | None => mret tt
  end.

Definition record_committed_update (peer_id : PublicKey) (old_lcss new_lcss : LastCrossSignedState)
    (update : UncommittedUpdate) : M unit :=
  match update with
  | ULocal (PAdd htlc) => record_htlc_event peer_id new_lcss "local-add" LHtlcForwarded htlc (htlc_id htlc)
  | URemote (PAdd htlc) => record_htlc_event peer_id new_lcss "remote-add" LHtlcForwarded htlc (htlc_id htlc)
  | ULocal (PFulfill _ id _) =>
      record_resolved peer_id new_lcss "local-fulfill" LHtlcFulfilled (incoming_htlcs old_lcss) id
  | URemote (PFulfill _ id _) =>
      record_resolved peer_id new_lcss "remote-fulfill" LHtlcFulfilled (outgoing_htlcs old_lcss) id
  | ULocal (PFail _ id _) | ULocal (PFailMalformed _ id _ _) =>
      record_resolved peer_id new_lcss "local-fail" LHtlcFailed (incoming_htlcs old_lcss) id
  | URemote (PFail _ id _) | URemote (PFailMalformed _ id _ _) =>
      record_resolved peer_id new_lcss "remote-fail" LHtlcFailed (outgoing_htlcs old_lcss) id
  end.

Definition record_committed_update_events (peer_id : PublicKey)
    (committed_updates : list UncommittedUpdate) (old_lcss new_lcss : LastCrossSignedState) : M unit :=
  for_each (record_committed_update peer_id old_lcss new_lcss) committed_updates.

End Update.
