(* ===== verification/ChannelOpen.v ===== *)
(** * Opening, reconnecting and committing ([src/channel.rs])

    [invoke_hosted_channel], the reconnection replies, the three meanings of a
    [state_update], reconciliation by [last_cross_signed_state], and the
    one-time secrets. *)
From S2P Require Import Prelude Text Bytes Codecs Crypto ChannelId Config Lcss Wire Sphinx State Store Node Gossip World Ledger ChannelBase ChannelForward ChannelUpdate.
From stdpp Require Import options.
#[local] Open Scope Z_scope.

Section Open.
Context {HC : Crypto} {HO : OnionCrypto} {S V N : Type} {HS : Store S V} {HN : NodeActions N}
  {JA : AppJson V}.
Context (C : Controller).
Local Notation M := (M (S := S) (V := V) (N := N) ChannelError).

Definition zeros64 : list byte := repeat (byte_of_Z 0) 64.

(** ** Secrets *)

Definition add_secret (secret : string) (capacity_msat initial_balance_msat : Z) : M unit :=
  secret_bytes ← of_result (parse_secret_hex secret);
  let channel_secret := mkChannelSecret (hex_encode secret_bytes) capacity_msat
                          initial_balance_msat false in
  r ← attempt (m_create_json (secret_key secret_bytes) channel_secret);
  match r with
  | Ok _ => mret tt
  | Err (AlreadyExists _) => fail (ErrInvalidMessage "secret already exists")
  | Err e => fail (ErrStore e)
  end.

Definition remove_secret (secret : string) : M unit :=
  secret_bytes ← of_result (parse_secret_hex secret);
  store (m_delete (secret_key secret_bytes)).

Definition consume_secret (secret : list byte) : M (option ChannelPolicy) :=
  if negb (len secret =? 32) then mret None else
  r ← load_optional (A := ChannelSecret) (secret_key secret);
  match r with
  | None => mret None
  | Some (s, gen) =>
      if cs_consumed s then mret None else
      effective ← effective_policy C;
      let policy := {|
        cp_channel_capacity_msat := cs_capacity_msat s;
        cp_initial_client_balance_msat := cs_initial_balance_msat s;
        cp_max_htlc_value_in_flight_msat := cp_max_htlc_value_in_flight_msat effective;
        cp_htlc_minimum_msat := cp_htlc_minimum_msat effective;
        cp_max_accepted_htlcs := cp_max_accepted_htlcs effective;
        cp_fee_base_msat := cp_fee_base_msat effective;
        cp_fee_proportional_millionths := cp_fee_proportional_millionths effective;
        cp_cltv_expiry_delta := cp_cltv_expiry_delta effective |} in
      _ ← store (m_update_json (secret_key secret)
            (mkChannelSecret (cs_secret s) (cs_capacity_msat s) (cs_initial_balance_msat s) true) gen);
      _ ← store (m_delete (secret_key secret));
      mret (Some policy)
  end.

Definition list_secrets : M (list string) :=
  children ← store (m_list ["canopus"; "secrets"]);
  mret (map (λ c, default "" (last c)) children).

(** ** [invoke_hosted_channel] *)

Definition default_policy : M (option ChannelPolicy) :=
  p ← effective_policy C; mret (Some p).

(** The policy the invocation is entitled to; [None] refuses it silently. *)
Definition invoked_policy (secret : list byte) : M (option ChannelPolicy) :=
  if cfg_require_secret (ctl_config C) then
    if is_empty secret then mret None else consume_secret secret
  else if negb (is_empty secret) then
    p ← consume_secret secret;
    match p with Some cap => mret (Some cap) | None => default_policy end
  else default_policy.

Definition init_of_policy (policy : ChannelPolicy) : InitHostedChannel := {|
  ihc_max_htlc_value_in_flight_msat := cp_max_htlc_value_in_flight_msat policy;
  ihc_htlc_minimum_msat := cp_htlc_minimum_msat policy;
  ihc_max_accepted_htlcs := cp_max_accepted_htlcs policy;
  ihc_channel_capacity_msat := cp_channel_capacity_msat policy;
  ihc_initial_client_balance_msat := cp_initial_client_balance_msat policy;
  ihc_features := [] |}.

(** The host's balance is a bare subtraction. *)
Definition new_channel_data (policy : ChannelPolicy) (refund_scriptpubkey : list byte) : ChannelData := {|
  cd_lcss := {|
    is_host := true; last_refund_scriptpubkey := refund_scriptpubkey;
    init_hosted_channel := init_of_policy policy; block_day := 0;
    local_balance_msat := wrap64 (cp_channel_capacity_msat policy - cp_initial_client_balance_msat policy);
    remote_balance_msat := cp_initial_client_balance_msat policy;
    local_updates := 0; remote_updates := 0; incoming_htlcs := []; outgoing_htlcs := [];
    remote_sig_of_local := zeros64; local_sig_of_remote := zeros64 |};
  cd_uncommitted := []; cd_local_errors := []; cd_remote_errors := []; cd_suspended := false;
  cd_proposed_override := None; cd_last_refund_scriptpubkey := refund_scriptpubkey;
  cd_established := false; cd_accepting_resize_sat := None;
  cd_routing_policy := Some (ChannelRoutingPolicy_from_policy policy);
  cd_channel_update_pending := false |}.

Definition handle_new_channel_invoke (peer_id : PublicKey) (msg : InvokeHostedChannel) : M unit :=
  policy ← invoked_policy (inv_secret msg);
  match policy with
  | None => mret tt
  | Some policy =>
      _ ← save_channel peer_id (new_channel_data policy (inv_refund_scriptpubkey msg)) None;
      send_message peer_id (MInitHostedChannel (init_of_policy policy))
  end.

(** ** Reconnection *)

Definition replay_message (peer_id : PublicKey) (update : PendingUpdate) : HostedMessage :=
  match update with
  | PAdd htlc =>
      MUpdateAddHtlc (mkUpdateAddHtlc (my_channel_id C peer_id) (uah_id htlc) (uah_amount_msat htlc)
        (uah_payment_hash htlc) (uah_cltv_expiry htlc) (uah_onion_routing_packet htlc)
        (uah_tlv_stream htlc))
  | PFulfill channel_id id preimage => MUpdateFulfillHtlc (mkUpdateFulfillHtlc channel_id id preimage [])
  | PFail channel_id id reason => MUpdateFailHtlc (mkUpdateFailHtlc channel_id id reason [])
  | PFailMalformed channel_id id sha256_of_onion failure_code =>
      MUpdateFailMalformedHtlc
        (mkUpdateFailMalformedHtlc channel_id id sha256_of_onion failure_code [])
  end.

Definition replay_update (peer_id : PublicKey) (update : UncommittedUpdate) : M unit :=
  match update with
  | ULocal u => send_message peer_id (replay_message peer_id u)
  | URemote _ => mret tt
  end.

Definition handle_reconnect_active (peer_id : PublicKey) (data : ChannelData) : M unit :=
  data ← repair_duplicate_uncommitted_resolutions peer_id data;
  _ ← send_message peer_id (MLastCrossSignedState (cd_lcss data));
  _ ← for_each (replay_update peer_id) (cd_uncommitted data);
  _ ← if negb (is_empty (cd_uncommitted data)) then
        state_update ← state_update_for_uncommitted C data;
        send_message peer_id (MStateUpdate state_update)
      else mret tt;
  _ ← send_pending_channel_update C peer_id;
  _ ← catch (recover_channel_htlcs C peer_id true);
  mret tt.

Definition handle_reconnect_errored (peer_id : PublicKey) (data : ChannelData) : M unit :=
  _ ← send_message peer_id (MLastCrossSignedState (cd_lcss data));
  _ ← match cd_local_errors data with
      | err_msg :: _ => send_error C peer_id err_msg
      | [] => mret tt
      end;
  match cd_proposed_override data with
  | Some override_lcss => send_message peer_id (MStateOverride (lcss_state_override override_lcss))
  | None => mret tt
  end.

Definition handle_invoke (peer_id : PublicKey) (msg : InvokeHostedChannel) : M unit :=
  if negb (bool_decide (inv_chain_hash msg = cfg_chain_hash (ctl_config C))) then
    _ ← send_error C peer_id "chain hash mismatch";
    fail ErrChainHashMismatch
  else
  existing ← load_channel peer_id;
  match existing with
  | None => handle_new_channel_invoke peer_id msg
  | Some data =>
      match derive_status data with
      | NotOpened | Suspended => handle_new_channel_invoke peer_id msg
      | Errored | Overriding => handle_reconnect_errored peer_id data
      | Opening | Active => handle_reconnect_active peer_id data
      end
  end.

(** ** [state_update] *)

Definition send_signed (peer_id : PublicKey) (lcss : LastCrossSignedState) : M unit :=
  send_message peer_id (MStateUpdate (lcss_state_update lcss)).

(** The identifier of a channel-wide ledger event. *)
Definition state_event_id (peer_id : PublicKey) (lcss : LastCrossSignedState) (what : string) : string :=
  peer_hex peer_id +:+ ":" +:+ pretty (local_updates lcss) +:+ ":" +:+
  pretty (remote_updates lcss) +:+ ":" +:+ what.

(** The state the client must have signed to open the channel. *)
Definition opening_state (data : ChannelData) (msg : StateUpdate) : LastCrossSignedState :=
  set_remote_sig (su_local_sig_of_remote msg)
    (set_htlcs [] []
       (set_updates 0 0 (set_block_day (su_block_day msg) (cd_lcss data)))).

Definition handle_opening_state_update (peer_id : PublicKey) (data : ChannelData) (msg : StateUpdate)
    : M unit :=
  current ← current_block_day;
  if 1 <? abs_diff_u32 (su_block_day msg) current then mret tt else
  let lcss := opening_state data msg in
  if negb (verify_remote_sig lcss peer_id) then mret tt else
  lcss ← sign_state C lcss;
  let new_data := set_established true (set_lcss lcss data) in
  _ ← save_channel peer_id new_data None;
  _ ← record_ledger_once peer_id (state_event_id peer_id lcss "open") LChannelOpen
        (remote_balance_msat lcss) None;
  _ ← send_signed peer_id lcss;
  send_channel_update C peer_id.

(** The state the peer must have signed to commit the pending updates. *)
Definition committed_state (next : LastCrossSignedState) (msg : StateUpdate) : LastCrossSignedState :=
  set_remote_sig (su_local_sig_of_remote msg) (set_block_day (su_block_day msg) next).

(** Both "behind" and "mismatch" are ignored. *)
Definition counters_match (data : ChannelData) (msg : StateUpdate) : bool :=
  let sm := with_uncommitted data in
  (su_local_updates msg =? next_remote_updates sm) && (su_remote_updates msg =? next_local_updates sm).

Definition handle_active_state_update (peer_id : PublicKey) (data : ChannelData) (msg : StateUpdate)
    : M unit :=
  data ← repair_duplicate_uncommitted_resolutions peer_id data;
  if is_empty (cd_uncommitted data) then mret tt else
  if negb (counters_match data msg) then mret tt else
  current ← current_block_day;
  if negb (su_block_day msg =? current) then mret tt else
  next ← next_state data;
  let next := committed_state next msg in
  if negb (verify_remote_sig next peer_id) then mret tt else
  next ← sign_state C next;
  let new_data := set_uncommitted [] (set_lcss next data) in
  _ ← save_channel peer_id new_data None;
  _ ← record_committed_update_events peer_id (cd_uncommitted data) (cd_lcss data) next;
  _ ← send_signed peer_id next;
  dispatch_committed_effects C peer_id data new_data (cd_uncommitted data).

Definition handle_override_acceptance (peer_id : PublicKey) (data : ChannelData) (msg : StateUpdate)
    : M unit :=
  proposed ← require (cd_proposed_override data) (ErrInvalidMessage "no proposed override");
  if negb ((su_local_updates msg =? remote_updates proposed) &&
           (su_remote_updates msg =? local_updates proposed)) then mret tt else
  current ← current_block_day;
  if negb (su_block_day msg =? current) then mret tt else
  let lcss := set_remote_sig (su_local_sig_of_remote msg) proposed in
  if negb (verify_remote_sig lcss peer_id) then mret tt else
  lcss ← sign_state C lcss;
  let new_data := {|
    cd_lcss := lcss; cd_uncommitted := []; cd_local_errors := []; cd_remote_errors := [];
    cd_suspended := false; cd_proposed_override := None;
    cd_last_refund_scriptpubkey := cd_last_refund_scriptpubkey data; cd_established := true;
    cd_accepting_resize_sat := cd_accepting_resize_sat data;
    cd_routing_policy := cd_routing_policy data;
    cd_channel_update_pending := cd_channel_update_pending data |} in
  _ ← save_channel peer_id new_data None;
  _ ← record_ledger_once peer_id (state_event_id peer_id lcss "override") LOverride
        (local_balance_msat lcss) None;
  _ ← send_signed peer_id lcss;
  if cd_channel_update_pending data then send_pending_channel_update C peer_id
  else send_channel_update C peer_id.

Definition handle_state_update (peer_id : PublicKey) (msg : StateUpdate) : M unit :=
  data ← require_channel peer_id;
  match derive_status data with
  | Opening => handle_opening_state_update peer_id data msg
  | Overriding => handle_override_acceptance peer_id data msg
  | Active => handle_active_state_update peer_id data msg
  | Errored | NotOpened | Suspended => mret tt
  end.

(** ** [last_cross_signed_state] *)

(** What the host does with a peer's state that both sides signed. *)
Inductive Reconciliation : Type := HostAhead | InAgreement | HostBehind.

Definition reconcile (host peer : LastCrossSignedState) : Reconciliation :=
  if (local_updates peer <? local_updates host) || (remote_updates peer <? remote_updates host)
  then HostAhead
  else if (local_updates peer =? local_updates host) && (remote_updates peer =? remote_updates host)
  then InAgreement
  else HostBehind.

Definition handle_lcss (peer_id : PublicKey) (msg : LastCrossSignedState) : M unit :=
  data ← require_channel peer_id;
  if negb (verify_remote_sig msg (ctl_node_public C)) then
    _ ← mark_errored peer_id data "our signature doesn't match in peer lcss";
    _ ← send_error C peer_id "bad signature";
    fail ErrErrored
  else
  let reversed := lcss_reverse msg in
  if negb (verify_remote_sig reversed peer_id) then
    _ ← mark_errored peer_id data "bad signature in lcss from peer";
    fail ErrErrored
  else
  match reconcile (cd_lcss data) reversed with
  | HostAhead | InAgreement => send_message peer_id (MLastCrossSignedState (cd_lcss data))
  | HostBehind =>
      let new_data := set_uncommitted [] (set_lcss reversed data) in
      _ ← save_channel peer_id new_data None;
      send_message peer_id (MLastCrossSignedState (cd_lcss new_data))
  end.

End Open.
