(* ===== verification/ChannelAdmin.v ===== *)
(** * Administration of channels ([src/channel.rs])

    Resizing, parameter changes, state overrides, branding and removal. *)
From S2P Require Import Prelude Text Bytes Codecs Crypto ChannelId Config Lcss Wire Sphinx State Store Node Gossip World Ledger ChannelBase ChannelForward ChannelUpdate ChannelOpen.
From stdpp Require Import options.
#[local] Open Scope Z_scope.

Section Admin.
Context {HC : Crypto} {HO : OnionCrypto} {S V N : Type} {HS : Store S V} {HN : NodeActions N}
  {JA : AppJson V}.
Context (C : Controller).
Local Notation M := (M (S := S) (V := V) (N := N) ChannelError).

Definition set_init (init : InitHostedChannel) (s : LastCrossSignedState) : LastCrossSignedState :=
  mkLcss (is_host s) (last_refund_scriptpubkey s) init (block_day s) (local_balance_msat s)
    (remote_balance_msat s) (local_updates s) (remote_updates s) (incoming_htlcs s)
    (outgoing_htlcs s) (remote_sig_of_local s) (local_sig_of_remote s).

(** A new capacity is also the new in-flight limit. *)
Definition set_capacity (capacity : Z) (init : InitHostedChannel) : InitHostedChannel := {|
  ihc_max_htlc_value_in_flight_msat := capacity;
  ihc_htlc_minimum_msat := ihc_htlc_minimum_msat init;
  ihc_max_accepted_htlcs := ihc_max_accepted_htlcs init;
  ihc_channel_capacity_msat := capacity;
  ihc_initial_client_balance_msat := ihc_initial_client_balance_msat init;
  ihc_features := ihc_features init |}.

Definition set_maximum (m : Z) (r : ChannelRoutingPolicy) : ChannelRoutingPolicy :=
  mkChannelRoutingPolicy (crp_fee_base_msat r) (crp_fee_proportional_millionths r)
    (crp_cltv_expiry_delta r) m.

(** ** [resize_channel] *)

Definition resized_balance (lcss : LastCrossSignedState) (new_capacity_msat : Z) : option Z :=
  let old := ihc_channel_capacity_msat (init_hosted_channel lcss) in
  if old <=? new_capacity_msat
  then checked_add_u64 (local_balance_msat lcss) (new_capacity_msat - old)
  else checked_sub_u64 (local_balance_msat lcss) (old - new_capacity_msat).

(** The state after a resize, before it is signed again. *)
Definition resized_state (lcss : LastCrossSignedState) (new_capacity_msat new_local_balance : Z)
    : LastCrossSignedState :=
  set_local_balance new_local_balance
    (set_init (set_capacity new_capacity_msat (init_hosted_channel lcss)) lcss).

Definition handle_resize_channel (peer_id : PublicKey) (msg : ResizeChannel) : M unit :=
  data ← require_channel peer_id;
  if negb (status_is Active data) || negb (ResizeChannel_verify_client_sig msg peer_id) then mret tt else
  match cd_accepting_resize_sat data with
  | None => mret tt
  | Some max_capacity_sat =>
      if max_capacity_sat <? rc_new_capacity_sat msg then mret tt else
      new_capacity_msat ← require (checked_mul_u64 (rc_new_capacity_sat msg) 1000)
                            (ErrInvalidMessage "resize capacity overflow");
      if new_capacity_msat <=? remote_balance_msat (cd_lcss data) then mret tt else
      new_local_balance ← require (resized_balance (cd_lcss data) new_capacity_msat)
                            (ErrInvalidMessage "resize balance overflow");
      routing ← routing_policy_for_data C data;
      lcss ← sign_state C (resized_state (cd_lcss data) new_capacity_msat new_local_balance);
      let new_data :=
        set_lcss lcss (set_channel_update_pending true
          (set_routing_policy (Some (set_maximum new_capacity_msat routing))
             (set_accepting_resize None data))) in
      _ ← save_channel peer_id new_data None;
      _ ← record_ledger_once peer_id
            (state_event_id peer_id lcss ("resize:" +:+ pretty new_capacity_msat)) LResize
            new_capacity_msat None;
      _ ← send_signed peer_id lcss;
      _ ← catch (send_pending_channel_update C peer_id);
      mret tt
  end.

Definition accept_resize (peer_id : PublicKey) (max_capacity_sat : option Z) : M unit :=
  store (m_cas_json (channel_key peer_id)
           (λ data, Ok (set_accepting_resize max_capacity_sat data, tt))).

(** ** Overrides *)

(** The terms of a proposed override: no HTLCs, counters past the current ones,
    not yet signed. *)
Definition override_state (data : ChannelData) (init : InitHostedChannel) (day local remote : Z)
    : LastCrossSignedState := {|
  is_host := true; last_refund_scriptpubkey := cd_last_refund_scriptpubkey data;
  init_hosted_channel := init; block_day := day;
  local_balance_msat := local; remote_balance_msat := remote;
  local_updates := wrap32 (local_updates (cd_lcss data) + 1);
  remote_updates := wrap32 (remote_updates (cd_lcss data) + 1);
  incoming_htlcs := []; outgoing_htlcs := [];
  remote_sig_of_local := zeros64; local_sig_of_remote := zeros64 |}.

Definition propose (reason : string) (override_lcss : LastCrossSignedState) (data : ChannelData)
    : ChannelData :=
  let errors := if is_empty (cd_local_errors data) then [reason] else cd_local_errors data in
  set_proposed_override (Some override_lcss) (set_errors errors (cd_remote_errors data) data).

Definition propose_override (peer_id : PublicKey) (new_local_balance : option Z) : M unit :=
  data ← require_channel peer_id;
  if negb (status_is Errored data || status_is Overriding data) then
    fail (ErrInvalidMessage ("can only override errored/overriding channels, got " +:+
                             Status_to_string (derive_status data)))
  else
  let init := init_hosted_channel (cd_lcss data) in
  let local_balance := default (local_balance_msat (cd_lcss data)) new_local_balance in
  remote_balance ← require (checked_sub_u64 (ihc_channel_capacity_msat init) local_balance)
                     (ErrInvalidMessage "local balance exceeds capacity");
  day ← current_block_day;
  override_lcss ← sign_state C (override_state data init day local_balance remote_balance);
  let new_data := propose "host proposed state override" override_lcss data in
  _ ← save_channel peer_id new_data None;
  _ ← send_error C peer_id (default "" (head (cd_local_errors new_data)));
  send_message peer_id (MStateOverride (lcss_state_override override_lcss)).

(** ** [set_channel] *)

Definition apply_routing_params (p : SetChannelParams) (r : ChannelRoutingPolicy) : ChannelRoutingPolicy :=
  mkChannelRoutingPolicy (default (crp_fee_base_msat r) (scp_fee_base_msat p))
    (default (crp_fee_proportional_millionths r) (scp_fee_proportional_millionths p))
    (default (crp_cltv_expiry_delta r) (scp_cltv_expiry_delta p))
    (default (crp_htlc_maximum_msat r) (scp_htlc_maximum_msat p)).

Definition apply_init_params (p : SetChannelParams) (init : InitHostedChannel) : InitHostedChannel :=
  let init := match scp_channel_capacity_msat p with Some v => set_capacity v init | None => init end in
  {| ihc_max_htlc_value_in_flight_msat := ihc_max_htlc_value_in_flight_msat init;
     ihc_htlc_minimum_msat := default (ihc_htlc_minimum_msat init) (scp_htlc_minimum_msat p);
     ihc_max_accepted_htlcs := default (ihc_max_accepted_htlcs init) (scp_max_accepted_htlcs p);
     ihc_channel_capacity_msat := ihc_channel_capacity_msat init;
     ihc_initial_client_balance_msat :=
       default (ihc_initial_client_balance_msat init) (scp_initial_client_balance_msat p);
     ihc_features := ihc_features init |}.

Definition check {E} (ok : bool) (msg : E) : World.M (S := S) (V := V) (N := N) E unit :=
  if ok then mret tt else fail msg.

Definition set_channel (peer_id : PublicKey) (params : SetChannelParams) (force_lcss_override : bool)
    : M (ChannelParameters * bool) :=
  data ← require_channel peer_id;
  if SetChannelParams_is_empty params then
    p ← channel_parameters_for_data C data; mret (p, false)
  else
  let active := status_is Active data in
  let overriding := status_is Overriding data in
  _ ← check (active || overriding)
        (ErrInvalidMessage "can only update active or overriding channels");
  _ ← check (negb (active && (negb (is_empty (incoming_htlcs (cd_lcss data))) ||
                              negb (is_empty (outgoing_htlcs (cd_lcss data))) ||
                              negb (is_empty (cd_uncommitted data)))))
        (ErrInvalidMessage "cannot update channel with in-flight HTLCs");
  _ ← check (negb (active && affects_lcss params && negb force_lcss_override))
        (ErrInvalidMessage "LCSS-backed channel changes require an errored channel reset; active peers ignore state_override proposals");
  routing ← routing_policy_for_data C data;
  let routing := apply_routing_params params routing in
  let new_data := set_channel_update_pending true (set_routing_policy (Some routing) data) in
  let maximum := crp_htlc_maximum_msat routing in
  if affects_lcss params || overriding then
    base_lcss ← (if overriding then
                   require (cd_proposed_override data)
                     (ErrInvalidMessage "overriding channel has no proposed override")
                 else mret (cd_lcss data));
    let init := apply_init_params params (init_hosted_channel base_lcss) in
    let capacity := ihc_channel_capacity_msat init in
    _ ← check (ihc_initial_client_balance_msat init <=? capacity)
          (ErrInvalidMessage "initial_client_balance_msat exceeds channel_capacity_msat");
    let remote_balance := default (remote_balance_msat base_lcss) (scp_initial_client_balance_msat params) in
    local_balance ← require (checked_sub_u64 capacity remote_balance)
                      (ErrInvalidMessage "client balance exceeds channel capacity");
    _ ← check (maximum <=? capacity)
          (ErrInvalidMessage "htlc_maximum_msat exceeds channel_capacity_msat");
    _ ← check (ihc_htlc_minimum_msat init <=? maximum)
          (ErrInvalidMessage "htlc_minimum_msat exceeds htlc_maximum_msat");
    day ← current_block_day;
    override_lcss ← sign_state C (override_state data init day local_balance remote_balance);
    let new_data := propose "forced channel parameter override" override_lcss new_data in
    _ ← save_channel peer_id new_data None;
    _ ← catch (send_error C peer_id (default "" (head (cd_local_errors new_data))));
    _ ← catch (send_message peer_id (MStateOverride (lcss_state_override override_lcss)));
    data ← require_channel peer_id;
    p ← channel_parameters_for_data C data;
    mret (p, true)
  else
  let init := init_hosted_channel (cd_lcss data) in
  _ ← check (maximum <=? ihc_channel_capacity_msat init)
        (ErrInvalidMessage "htlc_maximum_msat exceeds channel_capacity_msat");
  _ ← check (ihc_htlc_minimum_msat init <=? maximum)
        (ErrInvalidMessage "htlc_minimum_msat exceeds htlc_maximum_msat");
  _ ← save_channel peer_id new_data None;
  _ ← catch (send_pending_channel_update C peer_id);
  data ← require_channel peer_id;
  p ← channel_parameters_for_data C data;
  mret (p, true).

(** ** Branding *)

(** The file system the logo is read from. *)
Variable file_read : string → option (list byte).

Definition color_bytes (c : Z * Z * Z) : list byte :=
  let '(r, g, b) := c in [byte_of_Z r; byte_of_Z g; byte_of_Z b].

Definition handle_ask_branding (peer_id : PublicKey) (_ : AskBrandingInfo) : M unit :=
  match br_contact_url (cfg_branding (ctl_config C)) with
  | None => mret tt
  | Some contact_url =>
      match rgb_color (ctl_config C) with
      | None => fail ErrPanic
      | Some color =>
          send_message peer_id (MHostedChannelBranding
            (mkHostedChannelBranding (color_bytes (default (0, 0, 0) color))
               (logo_bytes file_read (ctl_config C)) (bytes_of_string contact_url)))
      end
  end.

(** ** Removal *)

Definition remove_channel (peer_id : PublicKey) (force : bool) : M unit :=
  data ← require_channel peer_id;
  next ← next_state data;
  if negb force && (negb (is_empty (incoming_htlcs next)) || negb (is_empty (outgoing_htlcs next)) ||
                    negb (is_empty (cd_uncommitted data)))
  then fail ErrInFlightHtlcs else
  keys ← store (m_list ["canopus"; "htlc_forwards"; pretty (my_scid C peer_id)]);
  _ ← for_each (λ k, store (m_delete k)) keys;
  _ ← store (m_delete (channel_key peer_id));
  forget_wire_encoding peer_id.

End Admin.
