(* ===== verification/ChannelSound.v ===== *)
(** * Sound channel records

    When a channel's record is sound: its funds add up to the capacity, nothing
    is negative, and its pending updates fold.  A record whose pending updates do
    not fold is stuck: no handler can sign a next state for it again. *)
From S2P Require Import Prelude Bytes Codecs Crypto Config Lcss Wire State Store ChannelBase ChannelForward ChannelUpdate ChannelOpen ChannelAdmin.
From stdpp Require Import options.
#[local] Open Scope Z_scope.

Definition capacity (s : LastCrossSignedState) : Z := ihc_channel_capacity_msat (init_hosted_channel s).

Definition lcss_sound (s : LastCrossSignedState) : Prop :=
  funds_ok s ∧ total_funds s = capacity s ∧ capacity s ≤ U64_MAX.

Section Sound.
Context {HC : Crypto}.
Implicit Types (d : ChannelData) (s t : LastCrossSignedState) (u : UncommittedUpdate).

(** The ids of the HTLCs the host receives, and of the updates of each side that
    remove one. *)
Definition remote_adds (us : list UncommittedUpdate) : list Z :=
  omap (λ u, match u with URemote (PAdd h) => Some (htlc_id h) | _ => None end) us.
Definition resolutions (local : bool) (us : list UncommittedUpdate) : list Z :=
  omap (λ u, match resolution_key u with
             | Some (b, id) => if Bool.eqb b local then Some id else None
             | None => None
             end) us.
Definition ids (hs : list UpdateAddHtlc) : list Z := map htlc_id hs.
Definition incoming_ids d : list Z := ids (incoming_htlcs (cd_lcss d)) ++ remote_adds (cd_uncommitted d).

(** The state all pending updates lead to, before the counters are set. *)
Definition folded d t : Prop := apply_updates (cd_uncommitted d) (set_updates 0 0 (cd_lcss d)) = Ok t.

Record chan_sound d : Prop := mkChanSound {
  chs_lcss : lcss_sound (cd_lcss d);
  chs_override o : cd_proposed_override d = Some o → lcss_sound o ∧ incoming_htlcs o = [];
  chs_updates : Forall update_ok (cd_uncommitted d);
  chs_folds : ∃ t, folded d t;
  chs_fresh : cd_established d = false →
    cd_uncommitted d = [] ∧ incoming_htlcs (cd_lcss d) = [] ∧ outgoing_htlcs (cd_lcss d) = [];
  chs_ids : NoDup (incoming_ids d);
  chs_resolved : NoDup (resolutions false (cd_uncommitted d));
}.

Lemma apply_updates_app us vs s :
  apply_updates (us ++ vs) s = t ← apply_updates us s; apply_updates vs t.
Proof.
  revert s. induction us as [|u us IH]; intros s; [done|]. cbn.
  destruct (apply_update s u); cbn; [apply IH|done].
Qed.

Lemma lcss_next_folded d n : lcss_next (with_uncommitted d) = Ok n →
  ∃ t, folded d t ∧ local_balance_msat n = local_balance_msat t ∧
       remote_balance_msat n = remote_balance_msat t ∧ incoming_htlcs n = incoming_htlcs t ∧
       outgoing_htlcs n = outgoing_htlcs t.
Proof. intros (t & Ht & ->)%lcss_next_inv. by exists t. Qed.

Lemma folded_next d t : folded d t → ∃ n, lcss_next (with_uncommitted d) = Ok n.
Proof. intros Ht. unfold lcss_next, with_uncommitted; cbn. unfold folded in Ht. rewrite Ht. by eexists. Qed.

Lemma folded_push d u t : folded (push_uncommitted u d) t ↔ ∃ t0, folded d t0 ∧ apply_update t0 u = Ok t.
Proof.
  unfold folded; cbn. rewrite apply_updates_app, result_bind_ok. split.
  - intros (t0 & H0 & (t1 & H1 & [= <-])%result_bind_ok). by exists t0.
  - intros (t0 & H0 & H1). exists t0. split; [done|]. cbn. by rewrite H1.
Qed.

Lemma folded_sound d t : chan_sound d → folded d t → funds_ok t ∧ total_funds t ≤ U64_MAX.
Proof.
  intros [(Hf & Ht & Hc) _ Hu _ _ _ _] Hd. split.
  - by eapply apply_updates_funds_ok.
  - apply apply_updates_funds in Hd. rewrite Hd.
    change (total_funds (cd_lcss d) ≤ U64_MAX). lia.
Qed.

(** ** HTLCs under a fold *)

Definition find_htlc (id : Z) (hs : list UpdateAddHtlc) : option UpdateAddHtlc :=
  List.find (λ h, htlc_id h =? id) hs.

Lemma find_remove id hs h : find_htlc id hs = Some h → ∃ hs', remove_htlc id hs = Ok (h, hs').
Proof.
  unfold find_htlc, remove_htlc. intros Hf.
  destruct (list_find (λ h, htlc_id h = id) hs) as [[i h']|] eqn:Hl.
  - apply list_find_Some in Hl as (Hi & Hid & Hfirst). exists (delete i hs). do 2 f_equal.
    revert i Hi Hfirst. induction hs as [|x hs IH]; intros i Hi Hfirst; [done|]. cbn in Hf.
    destruct i as [|i]; cbn in Hi.
    + injection Hi as ->. destruct (Z.eqb_spec (htlc_id h') id); [congruence|done].
    + destruct (Z.eqb_spec (htlc_id x) id) as [Hx|]; [exfalso; by apply (Hfirst 0%nat x eq_refl); [lia|]|].
      apply (IH Hf i Hi). intros j y Hj Hlt. apply (Hfirst (Datatypes.S j) y Hj). lia.
  - exfalso. apply list_find_None in Hl. apply List.find_some in Hf as [Hin Hid].
    rewrite List.Forall_forall in Hl. apply (Hl h Hin). lia.
Qed.

Lemma find_remove_other id id' hs h hs' :
  id ≠ id' → remove_htlc id' hs = Ok (h, hs') → find_htlc id hs' = find_htlc id hs.
Proof.
  unfold remove_htlc. intros Hne. destruct (list_find _ _) as [[i x]|] eqn:Hl; [|done].
  intros [= <- <-]. apply list_find_Some in Hl as (Hi & Hid & _).
  revert i Hi. induction hs as [|y hs IH]; intros i Hi; [done|]. destruct i as [|i]; cbn in Hi.
  - injection Hi as ->. cbn. destruct (Z.eqb_spec (htlc_id x) id); [congruence|done].
  - change (delete (Datatypes.S i) (y :: hs)) with (y :: delete i hs). unfold find_htlc in *. cbn.
    destruct (htlc_id y =? id); [done|]. by apply IH.
Qed.

Lemma find_app id hs k h : find_htlc id hs = Some h → find_htlc id (hs ++ k) = Some h.
Proof.
  unfold find_htlc. induction hs as [|x hs IH]; [done|]. cbn. destruct (htlc_id x =? id); [done|]. apply IH.
Qed.

Lemma has_htlc_find id hs : has_htlc hs id = true → ∃ h, find_htlc id hs = Some h ∧ h ∈ hs.
Proof.
  unfold has_htlc, find_htlc. induction hs as [|x hs IH]; [done|]. cbn.
  destruct (htlc_id x =? id); [exists x; split; [done|by left]|].
  intros (h & ? & ?)%IH. exists h. split; [done|by right].
Qed.

(** Until the peer resolves it, a committed outgoing HTLC is the first with its
    id in every later state. *)
Lemma apply_update_keeps_outgoing s u s' id h :
  apply_update s u = Ok s' → find_htlc id (outgoing_htlcs s) = Some h →
  resolution_key u ≠ Some (false, id) → find_htlc id (outgoing_htlcs s') = Some h.
Proof.
  intros HU Hf Hk. destruct u as [[]|[]]; cbn in HU; inv_update HU; cbn -[find_htlc]; try done;
    try (by apply find_app); (erewrite find_remove_other; [exact Hf| |eassumption]);
    intros ->; by apply Hk.
Qed.

Lemma apply_updates_keep_outgoing us s s' id h :
  apply_updates us s = Ok s' → find_htlc id (outgoing_htlcs s) = Some h →
  Forall (λ u, resolution_key u ≠ Some (false, id)) us → find_htlc id (outgoing_htlcs s') = Some h.
Proof.
  intros HU Hf HF. revert s HU Hf. induction HF as [|u us Hu _ IH]; intros s HU Hf; cbn in HU.
  - by injection HU as <-.
  - apply result_bind_ok in HU as (t & Ht & HU). eapply IH; [exact HU|].
    by eapply apply_update_keeps_outgoing.
Qed.

Lemma no_remote_resolution d id :
  has_uncommitted_remote_resolution d id = false →
  Forall (λ u, resolution_key u ≠ Some (false, id)) (cd_uncommitted d).
Proof.
  unfold has_uncommitted_remote_resolution. induction (cd_uncommitted d) as [|u us IH]; [constructor|].
  cbn. intros [Hu Hus]%orb_false_iff. constructor; [|by apply IH].
  destruct u as [u|u]; cbn; [by destruct (resolution_id u)|].
  destruct (resolution_id u) as [z|]; cbn; [|done]. intros [= ->]. by rewrite Z.eqb_refl in Hu.
Qed.

(** The three removals the peer may send, and whether they carry the preimage. *)
Definition removal (id : Z) (h : UpdateAddHtlc) (p : PendingUpdate) : Prop :=
  match p with
  | PFulfill _ i preimage => i = id ∧ sha256 preimage = uah_payment_hash h
  | PFail _ i _ | PFailMalformed _ i _ _ => i = id
  | PAdd _ => False
  end.

(** A removal of a committed outgoing HTLC that the peer has not resolved yet
    folds. *)
Lemma remote_removal_folds d id h p :
  chan_sound d → has_uncommitted_remote_resolution d id = false →
  find_htlc id (outgoing_htlcs (cd_lcss d)) = Some h → removal id h p →
  ∃ t, folded (push_uncommitted (URemote p) d) t.
Proof.
  intros Hs Hno Hf Hp. destruct (chs_folds d Hs) as [t Ht].
  pose proof (folded_sound d t Hs Ht) as [(Hl & Hr & Hi & Ho) Htot].
  assert (find_htlc id (outgoing_htlcs t) = Some h) as Hft.
  { eapply apply_updates_keep_outgoing; [exact Ht|exact Hf|by apply no_remote_resolution]. }
  destruct (find_remove _ _ _ Hft) as [hs' Hrem]. pose proof (remove_htlc_inv _ _ _ _ Hrem) as (_ & _ & Hsum).
  pose proof (remove_htlc_Forall amount_ok _ _ _ _ Hrem Ho) as [Hh Hhs'].
  apply htlc_total_nonneg in Hi, Hhs'. unfold amount_ok in Hh. unfold total_funds in Htot.
  assert (∀ b, 0 ≤ b → b ≤ local_balance_msat t + remote_balance_msat t →
          checked_add_u64 b (uah_amount_msat h) = Some (b + uah_amount_msat h)) as Hadd.
  { intros b Hb0 Hb. apply checked_add_u64_some. unfold U64_MAX in *. split; [done|]. lia. }
  destruct p as [|cid i pre|cid i r|cid i hash code]; cbn in Hp; [done| | |].
  - destruct Hp as [-> Hpre]. eexists. apply folded_push. exists t. split; [done|]. cbn.
    rewrite Hrem. cbn. unfold check_preimage. rewrite decide_True by done. cbn. rewrite Hadd by lia. done.
  - subst i. eexists. apply folded_push. exists t. split; [done|]. cbn. rewrite Hrem. cbn.
    rewrite Hadd by lia. done.
  - subst i. eexists. apply folded_push. exists t. split; [done|]. cbn. rewrite Hrem. cbn.
    rewrite Hadd by lia. done.
Qed.

(** ** Bookkeeping of ids *)

Lemma remove_htlc_ids id hs h hs' : remove_htlc id hs = Ok (h, hs') → ids hs ≡ₚ id :: ids hs'.
Proof.
  unfold remove_htlc. destruct (list_find _ _) as [[i x]|] eqn:Hl; [|done]. intros [= <- <-].
  apply list_find_Some in Hl as (Hi & <- & _). unfold ids.
  rewrite (delete_Permutation hs i x Hi) at 1. done.
Qed.

(** A fold keeps account of the incoming ids: what was there or was added is
    still there or was removed by the host. *)
Lemma apply_update_ids s u s' : apply_update s u = Ok s' →
  ids (incoming_htlcs s') ++ resolutions true [u] ≡ₚ ids (incoming_htlcs s) ++ remote_adds [u].
Proof.
  intros HU. destruct u as [[]|[]]; cbn in HU; inv_update HU; cbn; rewrite ?app_nil_r; try done;
    try (by rewrite (remove_htlc_ids _ _ _ _ Hrem), Permutation_app_comm).
  unfold ids. by rewrite map_app.
Qed.

Lemma resolutions_cons b u us : resolutions b (u :: us) = resolutions b [u] ++ resolutions b us.
Proof. unfold resolutions. by rewrite <-omap_app. Qed.
Lemma remote_adds_cons u us : remote_adds (u :: us) = remote_adds [u] ++ remote_adds us.
Proof. unfold remote_adds. by rewrite <-omap_app. Qed.

Lemma apply_updates_ids us s s' : apply_updates us s = Ok s' →
  ids (incoming_htlcs s') ++ resolutions true us ≡ₚ ids (incoming_htlcs s) ++ remote_adds us.
Proof.
  revert s. induction us as [|u us IH]; intros s HU; cbn in HU; [by injection HU as <-|].
  apply result_bind_ok in HU as (t & Ht & HU). apply IH in HU. apply apply_update_ids in Ht.
  rewrite resolutions_cons, remote_adds_cons. rewrite (Permutation_app_comm (resolutions _ [u])), !app_assoc, HU.
  rewrite <-app_assoc, (Permutation_app_comm (remote_adds us)), !app_assoc, Ht. done.
Qed.

Lemma folded_ids d t : chan_sound d → folded d t →
  NoDup (ids (incoming_htlcs t)) ∧ NoDup (resolutions true (cd_uncommitted d)).
Proof.
  intros Hs Ht. apply apply_updates_ids in Ht. cbn in Ht. pose proof (chs_ids d Hs) as Hn.
  unfold incoming_ids in Hn. rewrite <-Ht in Hn. by apply NoDup_app in Hn as (? & _ & ?).
Qed.

(** ** A sound record has no duplicate resolutions *)

Lemma filter_unseen_id us seen :
  (∀ b id, (b, id) ∈ seen → id ∉ resolutions b us) →
  NoDup (resolutions true us) → NoDup (resolutions false us) → filter_unseen seen us = us.
Proof.
  revert seen. induction us as [|u us IH]; intros seen Hseen Ht Hf; [done|].
  rewrite resolutions_cons in Ht, Hf. cbn [filter_unseen].
  apply NoDup_app in Ht as (_ & Ht' & Ht), Hf as (_ & Hf' & Hf).
  destruct (resolution_key u) as [[b id]|] eqn:Hk.
  - rewrite decide_False.
    + f_equal. apply IH; [|done|done]. intros b' id' [[= -> ->]|Hin]%elem_of_cons Hin'.
      * destruct b; [eapply Ht'|eapply Hf']; [..|exact Hin'| |exact Hin'];
          unfold resolutions; cbn; rewrite Hk; cbn; by left.
      * apply (Hseen _ _ Hin). rewrite resolutions_cons. apply elem_of_app. by right.
    + intros Hin. apply (Hseen _ _ Hin). rewrite resolutions_cons. apply elem_of_app. left.
      unfold resolutions; cbn. rewrite Hk. destruct b; cbn; by left.
  - f_equal. apply IH; [|done|done]. intros b id Hin Hin'. apply (Hseen _ _ Hin).
    rewrite resolutions_cons. apply elem_of_app. by right.
Qed.

Lemma sound_deduplicated d : chan_sound d →
  deduplicate_uncommitted_resolutions (cd_uncommitted d) = cd_uncommitted d.
Proof.
  intros Hs. destruct (chs_folds d Hs) as [t Ht]. apply filter_unseen_id.
  - intros b id Hin. by apply elem_of_nil in Hin.
  - by eapply folded_ids.
  - apply Hs.
Qed.

(** ** Sound transitions *)

(** What signing and dating a state leaves alone. *)
Definition same_funds s s' : Prop :=
  local_balance_msat s = local_balance_msat s' ∧ remote_balance_msat s = remote_balance_msat s' ∧
  incoming_htlcs s = incoming_htlcs s' ∧ outgoing_htlcs s = outgoing_htlcs s' ∧
  init_hosted_channel s = init_hosted_channel s'.

Lemma errors_sound d l r : chan_sound d → chan_sound (set_errors l r d).
Proof. intros []. by split. Qed.
Lemma pending_sound d b : chan_sound d → chan_sound (set_channel_update_pending b d).
Proof. intros []. by split. Qed.
Lemma routing_sound d r : chan_sound d → chan_sound (set_routing_policy r d).
Proof. intros []. by split. Qed.
Lemma accepting_sound d o : chan_sound d → chan_sound (set_accepting_resize o d).
Proof. intros []. by split. Qed.
Lemma proposed_sound d o : chan_sound d → lcss_sound o → incoming_htlcs o = [] →
  chan_sound (set_proposed_override (Some o) d).
Proof. intros [] Ho Hi. split; cbn; try done. by intros ? [= <-]. Qed.

(** A local update needs nothing but to fold, and a channel that is open. *)
Lemma local_push_sound d p t :
  chan_sound d → update_ok (ULocal p) → folded (push_uncommitted (ULocal p) d) t →
  cd_established d = true → chan_sound (push_uncommitted (ULocal p) d).
Proof.
  intros [] Hu Ht He. split; cbn; try done.
  - apply Forall_app. split; [done|]. by constructor.
  - by exists t.
  - congruence.
  - unfold incoming_ids, remote_adds; cbn. by rewrite omap_app, app_nil_r.
  - unfold resolutions. rewrite omap_app. cbn. destruct (resolution_id p); cbn; by rewrite app_nil_r.
Qed.

Lemma remote_add_sound d h n :
  chan_sound d → cd_established d = true → amount_ok h → htlc_id h ∉ incoming_ids d →
  lcss_next (with_uncommitted d) = Ok n → uah_amount_msat h ≤ remote_balance_msat n →
  chan_sound (push_uncommitted (URemote (PAdd h)) d).
Proof.
  intros Hs He Hh Hid Hn Ha. apply lcss_next_folded in Hn as (t & Ht & _ & Hr & _). destruct Hs.
  split; cbn; try done.
  - apply Forall_app. split; [done|]. by constructor.
  - eexists. apply folded_push. exists t. split; [done|]. cbn. unfold checked_sub_u64.
    rewrite leb_true by lia. done.
  - congruence.
  - unfold incoming_ids, remote_adds in *; cbn. rewrite omap_app, app_assoc. cbn.
    apply NoDup_app. split; [done|]. split; [|apply NoDup_singleton].
    intros x Hx ->%list_elem_of_singleton. done.
  - unfold resolutions. by rewrite omap_app, app_nil_r.
Qed.

Lemma no_remote_resolution_ids d id :
  has_uncommitted_remote_resolution d id = false → id ∉ resolutions false (cd_uncommitted d).
Proof.
  intros Hno%no_remote_resolution Hin. apply list_elem_of_omap in Hin as (u & Hu & Hk).
  rewrite Forall_forall in Hno. apply (Hno u Hu). destruct (resolution_key u) as [[[] i]|]; cbn in Hk; congruence.
Qed.

Lemma remote_removal_sound d id h p :
  chan_sound d → has_uncommitted_remote_resolution d id = false →
  find_htlc id (outgoing_htlcs (cd_lcss d)) = Some h → removal id h p →
  chan_sound (push_uncommitted (URemote p) d).
Proof.
  intros Hs Hno Hf Hp. destruct (remote_removal_folds d id h p Hs Hno Hf Hp) as [t Ht].
  pose proof (no_remote_resolution_ids d id Hno) as Hid. destruct Hs. split; cbn; try done.
  - apply Forall_app. split; [done|]. constructor; [|done]. by destruct p.
  - by exists t.
  - intros He. destruct (chs_fresh0 He) as (_ & _ & Ho). rewrite Ho in Hf. done.
  - unfold incoming_ids, remote_adds in *; cbn. rewrite omap_app. by destruct p; rewrite ?app_nil_r.
  - unfold resolutions. rewrite omap_app. apply NoDup_app. split; [done|].
    assert (omap (λ u, match resolution_key u with
                       | Some (b, id) => if Bool.eqb b false then Some id else None
                       | None => None end) [URemote p] = [id]) as ->
      by (destruct p; cbn in Hp |- *; try done; naive_solver).
    split; [|apply NoDup_singleton]. by intros x Hx ->%list_elem_of_singleton.
Qed.

Lemma lcss_sound_signed s s' : lcss_sound s → same_funds s s' → lcss_sound s'.
Proof. intros Hs (H1 & H2 & H3 & H4 & H5). unfold lcss_sound, funds_ok, total_funds, capacity in *. by rewrite <-H1, <-H2, <-H3, <-H4, <-H5. Qed.

(** The state a fold arrives at, however it is then dated and signed. *)
Lemma next_sound d n s' :
  chan_sound d → lcss_next (with_uncommitted d) = Ok n → same_funds n s' → lcss_sound s'.
Proof.
  intros Hs Hn Hsame. eapply lcss_sound_signed; [|exact Hsame]. apply lcss_next_inv in Hn as (t & Ht & ->).
  pose proof (folded_sound d t Hs Ht) as [Hf _]. pose proof (apply_updates_funds _ _ _ Ht) as Htot.
  pose proof (apply_updates_frame _ _ _ Ht) as Hfr. destruct Hs as [(_ & Hcap & Hmax) _ _ _ _ _ _].
  unfold frame in Hfr. injection Hfr as _ _ Hinit _ _ _.
  unfold lcss_sound, capacity in *. cbn in *. rewrite Hinit. split; [exact Hf|]. split; [|done].
  rewrite <-Hcap. exact Htot.
Qed.

(** A record whose pending updates are all committed. *)
Lemma committed_sound d n s' :
  chan_sound d → cd_established d = true → lcss_next (with_uncommitted d) = Ok n → same_funds n s' →
  chan_sound (set_uncommitted [] (set_lcss s' d)).
Proof.
  intros Hs He Hn Hsame. pose proof (next_sound d n s' Hs Hn Hsame) as Hl.
  apply lcss_next_inv in Hn as (t & Ht & ->). destruct (folded_ids d t Hs Ht) as [Hid _].
  destruct Hs. split; cbn; try done.
  - by eexists.
  - congruence.
  - unfold incoming_ids; cbn. rewrite app_nil_r. destruct Hsame as (_ & _ & <- & _). exact Hid.
  - constructor.
Qed.

Lemma opening_sound d s' msg :
  chan_sound d → cd_established d = false → same_funds (opening_state d msg) s' →
  chan_sound (set_established true (set_lcss s' d)).
Proof.
  intros Hs He Hsame. destruct Hs. destruct (chs_fresh0 He) as (Hu & Hi & Ho).
  assert (same_funds (opening_state d msg) (cd_lcss d)) as Hd by (repeat split; cbn; by rewrite ?Hi, ?Ho).
  split; cbn; try done.
  - eapply lcss_sound_signed; [exact chs_lcss0|].
    unfold same_funds in *. destruct Hd as (<- & <- & <- & <- & <-). exact Hsame.
  - unfold folded; cbn. rewrite Hu. by eexists.
  - unfold incoming_ids; cbn. destruct Hsame as (_ & _ & <- & _). rewrite Hu. constructor.
Qed.

Lemma accepted_override_sound d s o : chan_sound d → cd_proposed_override d = Some o →
  same_funds o s →
  ∀ refund resize routing pending, chan_sound {|
    cd_lcss := s; cd_uncommitted := []; cd_local_errors := []; cd_remote_errors := [];
    cd_suspended := false; cd_proposed_override := None; cd_last_refund_scriptpubkey := refund;
    cd_established := true; cd_accepting_resize_sat := resize; cd_routing_policy := routing;
    cd_channel_update_pending := pending |}.
Proof.
  intros Hs Ho Hsame refund resize routing pending. destruct (chs_override d Hs o Ho) as [Hl Hin].
  split; cbn; try done.
  - by eapply lcss_sound_signed.
  - by eexists.
  - unfold incoming_ids; cbn. destruct Hsame as (_ & _ & <- & _). rewrite Hin. constructor.
  - constructor.
Qed.

Lemma override_state_sound d init day local remote :
  0 ≤ local → 0 ≤ remote → local + remote = ihc_channel_capacity_msat init →
  ihc_channel_capacity_msat init ≤ U64_MAX → lcss_sound (override_state d init day local remote).
Proof.
  intros Hl Hr Hsum Hmax. unfold lcss_sound, funds_ok, total_funds, capacity; cbn. split_and!; done || lia.
Qed.

Lemma propose_sound d reason o s : chan_sound d → lcss_sound o → incoming_htlcs o = [] →
  same_funds o s → chan_sound (propose reason s d).
Proof.
  intros Hd Ho Hi Hsame. unfold propose. apply proposed_sound.
  - by apply errors_sound.
  - by eapply lcss_sound_signed.
  - by destruct Hsame as (_ & _ & <- & _).
Qed.

(** Adopting a state that is sound by itself. *)
Lemma adopted_sound d s : chan_sound d → lcss_sound s → NoDup (ids (incoming_htlcs s)) →
  (cd_established d = false → incoming_htlcs s = [] ∧ outgoing_htlcs s = []) →
  chan_sound (set_uncommitted [] (set_lcss s d)).
Proof.
  intros [] Hs Hn He. split; cbn; try done.
  - by eexists.
  - intros E. by destruct (He E).
  - unfold incoming_ids; cbn. by rewrite app_nil_r.
  - constructor.
Qed.

(** A resize adds to the host's side what it adds to the capacity. *)
Lemma resized_state_sound s cap local :
  lcss_sound s → 0 ≤ cap ≤ U64_MAX → 0 ≤ capacity s → resized_balance s cap = Some local →
  lcss_sound (resized_state s cap local).
Proof.
  unfold resized_balance, lcss_sound, funds_ok, total_funds, capacity. cbn zeta.
  intros ((Hl & Hr & Hi & Ho) & Ht & Hm) Hc H0 Hres. cbn -[htlc_total].
  zcase_in Hres; [apply checked_add_u64_some in Hres as [-> Hb]|apply checked_sub_u64_some in Hres as [-> Hb]];
    split_and!; done || lia.
Qed.

Lemma resized_sound d s cap local :
  chan_sound d → cd_uncommitted d = [] → 0 ≤ cap ≤ U64_MAX → 0 ≤ capacity (cd_lcss d) →
  resized_balance (cd_lcss d) cap = Some local → same_funds (resized_state (cd_lcss d) cap local) s →
  chan_sound (set_lcss s d).
Proof.
  intros Hs Hu Hc H0 Hres Hsame. destruct Hs.
  pose proof (resized_state_sound (cd_lcss d) cap local chs_lcss0 Hc H0 Hres) as Hl.
  pose proof (lcss_sound_signed _ _ Hl Hsame). destruct Hsame as (_ & _ & Hi & Ho & _). cbn in Hi, Ho.
  split; cbn; try done.
  - unfold folded; cbn. rewrite Hu. by eexists.
  - intros He. rewrite <-Hi, <-Ho. by apply chs_fresh0.
  - unfold incoming_ids in *; cbn. by rewrite <-Hi.
Qed.

(** A new channel is sound when the client's initial balance is within the
    capacity. *)
Lemma new_channel_sound policy refund :
  0 ≤ cp_initial_client_balance_msat policy ≤ cp_channel_capacity_msat policy →
  cp_channel_capacity_msat policy ≤ U64_MAX → chan_sound (new_channel_data policy refund).
Proof.
  intros Hi Hm. unfold U64_MAX in *. split; cbn; try done.
  - unfold lcss_sound, funds_ok, total_funds, capacity; cbn.
    rewrite wrap64_small by (unfold u64; lia). unfold U64_MAX. split_and!; done || lia.
  - by eexists.
  - constructor.
  - constructor.
Qed.

(** What soundness is for: the channel can be committed. *)
Lemma chan_commits d :
  chan_sound d →
  funds_ok (cd_lcss d) ∧ total_funds (cd_lcss d) = capacity (cd_lcss d) ∧
  ∃ n, lcss_next (with_uncommitted d) = Ok n ∧ funds_ok n ∧ total_funds n = capacity (cd_lcss d).
Proof.
  intros Hd.
  destruct (chs_lcss d Hd) as (Hf & Ht & _). destruct (chs_folds d Hd) as [t Hfold].
  split_and!; [done|done|]. destruct (folded_next d t Hfold) as [n Hn]. exists n.
  destruct (next_sound d n n Hd Hn ltac:(by repeat split)) as (Hf' & Ht' & _).
  split_and!; [done|done|]. rewrite Ht'. apply lcss_next_inv in Hn as (t' & Hfr & ->).
  apply apply_updates_frame in Hfr. unfold capacity. cbn. unfold frame in Hfr. cbn in Hfr. congruence.
Qed.

End Sound.
