(* ===== verification/ChannelInv.v ===== *)
(** * Handlers preserve sound channels

    [keeps m Q]: run from a world whose channel records are all sound, [m] ends in
    such a world whether it succeeds or fails, and its result satisfies [Q].  The
    rules follow the shape of the handlers, so most proofs are one tactic.  They ask
    little of the store: that others who write to it keep records sound too. *)
From S2P Require Import Prelude Text Bytes Codecs Crypto ChannelId Config Lcss Wire Sphinx State Store Node Gossip World Ledger ChannelBase ChannelForward ChannelUpdate ChannelOpen ChannelAdmin ChannelSound.
From stdpp Require Import options.
From Stdlib Require Import Ascii.
#[local] Open Scope Z_scope.

(** ** Keys *)
Section Keys.
#[local] Set Default Proof Using "Type*".
Context {HC : Crypto} {HCL : CryptoLaws}.

Lemma channel_key_ok (peer : PublicKey) : key_ok (channel_key peer).
Proof. split; [done|]. repeat constructor. by apply hex_encode_lacks. Qed.

Lemma forward_key_ok scid id : key_ok (forward_key scid id).
Proof. split; [done|]. repeat constructor; by apply pretty_lacks. Qed.

Lemma event_key_ok' seq : key_ok (event_key seq).
Proof. split; [done|]. repeat constructor. by apply pretty_lacks. Qed.

Lemma secret_key_ok s : key_ok (secret_key s).
Proof. split; [done|]. repeat constructor. by apply hex_encode_lacks. Qed.

Lemma policy_key_ok : key_ok policy_key.
Proof. by apply (bool_decide_unpack _). Qed.

End Keys.

(** ** Sound stores

    Each channel record a store holds is sound.  Whoever else writes to the store
    has to leave it so; a store one has to oneself meets that for nothing. *)
Definition store_sound {HC : Crypto} {S V : Type} {HV : StoreView S V} {JA : AppJson V} (s : S) : Prop :=
  ∀ peer d g v, view s (channel_key peer) = Some (g, v) → from_slice v = Ok d → chan_sound d.

Class SoundOthers {HC : Crypto} (S V : Type) {HS : Store S V} {HV : StoreView S V}
    {HL : SharedStore S V} {JA : AppJson V} : Prop :=
  others_sound s s' : others s s' → store_sound s → store_sound s'.

#[global] Instance laws_sound_others {HC : Crypto} {S V : Type} {HS : Store S V} {HL : StoreLaws S V}
  {JA : AppJson V} : SoundOthers S V.
Proof. by intros s s' <-. Qed.

Section Inv.
#[local] Set Default Proof Using "Type*".
Context {HC : Crypto} {HCL : CryptoLaws} {HO : OnionCrypto} {S V N : Type} {JA : AppJson V} {LA : AppJsonLaws V}.
Context {HS : Store S V} {HV : StoreView S V} {HL : SharedStore S V} {HSO : SoundOthers S V} {HN : NodeActions N}.
Implicit Types (w : World S V N) (peer : PublicKey) (d : ChannelData) (k : key).
Local Notation M := (World.M (S := S) (V := V) (N := N)).

(** What is stored for a peer. *)
Definition channel_at w peer d : Prop :=
  ∃ g v, wview w (channel_key peer) = Some (g, v) ∧ from_slice v = Ok d.

Definition channels_sound w : Prop := ∀ peer d, channel_at w peer d → chan_sound d.

Lemma channels_sound_store w : channels_sound w ↔ store_sound (w_store w).
Proof using Type.
  split.
  - intros Hw p d g v Hv Hf. apply (Hw p d). by exists g, v.
  - intros Hs p d (g & v & Hv & Hf). by eapply Hs.
Qed.

(** ** The judgement *)

(** The next world: records sound, and the log only longer. *)
Definition good w w' : Prop := channels_sound w' ∧ w_log w `prefix_of` w_log w'.

Lemma good_refl w : channels_sound w → good w w.
Proof. by split. Qed.

Lemma good_trans w1 w2 w3 : good w1 w2 → good w2 w3 → good w1 w3.
Proof. intros [_ ?] [? ?]. split; [done|by etrans]. Qed.

Definition keeps {E A} (m : M E A) (Q : A → Prop) : Prop :=
  ∀ w, channels_sound w → good w (m w).2 ∧ ∀ a, (m w).1 = Ok a → Q a.

Lemma keeps_sound {E A} (m : M E A) Q w : keeps m Q → channels_sound w → channels_sound (m w).2.
Proof. intros Hm Hw. by destruct (Hm w Hw) as [[? _] _]. Qed.

Lemma keeps_ret {E A} (a : A) (Q : A → Prop) : Q a → keeps (mret (M := M E) a) Q.
Proof. intros HQ w Hw. split; [by apply good_refl|]. by intros ? [= <-]. Qed.

Lemma keeps_fail {E A} (e : E) (Q : A → Prop) : keeps (fail e) Q.
Proof. intros w Hw. split; [by apply good_refl|done]. Qed.

Lemma keeps_bind {E A B} (m : M E A) (f : A → M E B) (Q : A → Prop) (R : B → Prop) :
  keeps m Q → (∀ a, Q a → keeps (f a) R) → keeps (m ≫= f) R.
Proof.
  intros Hm Hf w Hw. destruct (Hm w Hw) as [Hw' Ha]. unfold mbind, M_bind.
  destruct (m w) as [[a|e] w']; cbn in *; [|by split].
  destruct (Hf a (Ha a eq_refl) w') as [Hw2 Hr]; [apply Hw'|]. split; [by eapply good_trans|exact Hr].
Qed.

Lemma keeps_weaken {E A} (m : M E A) (Q R : A → Prop) : keeps m Q → (∀ a, Q a → R a) → keeps m R.
Proof. intros Hm HQR w Hw. destruct (Hm w Hw). split; eauto. Qed.

Lemma keeps_true {E A} (m : M E A) (Q : A → Prop) : keeps m Q → keeps m (λ _, True).
Proof. intros. by eapply keeps_weaken. Qed.

Lemma keeps_of_result {E A} (r : result E A) : keeps (of_result r) (λ a, r = Ok a).
Proof. intros w Hw. split; [by apply good_refl|done]. Qed.

Lemma keeps_require {E A} (o : option A) (e : E) : keeps (require o e) (λ a, o = Some a).
Proof. intros w Hw. destruct o; cbn; (split; [by apply good_refl|]); by intros ? [= <-]. Qed.

Lemma keeps_check {E} b (e : E) : keeps (check (S := S) (V := V) (N := N) b e) (λ _, b = true).
Proof. intros w Hw. destruct b; (split; [by apply good_refl|done]). Qed.

Lemma keeps_lift {E E' A} (f : E → E') (m : M E A) Q : keeps m Q → keeps (lift f m) Q.
Proof.
  intros Hm w Hw. destruct (Hm w Hw) as [? Ha]. unfold lift. destruct (m w) as [[a|e] w']; cbn in *; split; try done.
  intros ? [= <-]. auto.
Qed.

Lemma keeps_attempt {E E' A} (m : M E A) Q : keeps m Q → keeps (attempt (E' := E') m) (λ r, ∀ a, r = Ok a → Q a).
Proof.
  intros Hm w Hw. destruct (Hm w Hw) as [? Ha]. unfold attempt. destruct (m w) as [r w']; cbn in *.
  split; [done|]. intros ? [= <-]. done.
Qed.

Lemma keeps_catch {A} (m : M ChannelError A) Q : keeps m Q → keeps (catch m) (λ r, ∀ a, r = Ok a → Q a).
Proof.
  intros Hm w Hw. destruct (Hm w Hw) as [? Ha]. unfold catch. destruct (m w) as [[a|e] w']; cbn in *.
  - split; [done|]. by intros ? [= <-].
  - destruct e; cbn; (split; [done|]); by intros ? [= <-].
Qed.

(** Calls that change nothing, or only what no channel record lives in. *)
Lemma keeps_read {E A} (m : M E A) : (∀ w, (m w).2 = w) → keeps m (λ _, True).
Proof. intros Hm w Hw. rewrite Hm. split; [by apply good_refl|done]. Qed.

Lemma same_store_sound w w' : w_store w' = w_store w → channels_sound w → channels_sound w'.
Proof.
  intros Hs Hw p d (g & v & Hv & Hf). apply (Hw p d). exists g, v. unfold wview in *. by rewrite Hs in Hv.
Qed.

Lemma keeps_same {E A} (m : M E A) :
  (∀ w, w_store (m w).2 = w_store w ∧ ∃ l, w_log (m w).2 = w_log w ++ l) → keeps m (λ _, True).
Proof.
  intros Hm w Hw. destruct (Hm w) as (Hs & l & Hl). split; [|done]. split.
  - by eapply same_store_sound.
  - rewrite Hl. by exists l.
Qed.

Lemma keeps_node_call {A} (op : N → result NodeError A * N) evs : keeps (node_call op evs) (λ _, True).
Proof. apply keeps_same. intros w. unfold node_call. destruct (op (w_node w)) as [[] ?]; (split; [done|by eexists]). Qed.

Lemma keeps_for_each {E A} (f : A → M E unit) l :
  (∀ x, x ∈ l → keeps (f x) (λ _, True)) → keeps (for_each f l) (λ _, True).
Proof.
  induction l as [|x l IH]; intros Hf; cbn [for_each]; [by apply keeps_ret|].
  eapply keeps_bind; [apply Hf; by left|]. intros _ _. apply IH. intros y Hy. apply Hf. by right.
Qed.

(** ** The store *)

Definition off_channels k : Prop := ∀ peer, k ≠ channel_key peer.

(** A write that puts nothing unsound under a channel's key. *)
Lemma store_write_sound k allowed (s s' : S) : shared_write others k allowed s s' → store_sound s →
  (∀ peer d g v, k = channel_key peer → allowed (Some (g, v)) → from_slice v = Ok d → chan_sound d) →
  store_sound s'.
Proof using HCL HSO.
  intros Hwr Hw Hk. destruct Hwr as [Ho|s1 s2 o Ho1 Ha Hs Ho2]; [by eapply others_sound|].
  eapply others_sound; [exact Ho2|]. pose proof (others_sound _ _ Ho1 Hw) as Hw1.
  intros p d g v Hv Hf. rewrite Hs in Hv by apply channel_key_ok. case_decide as Heq; [|by eapply Hw1].
  subst o. by eapply Hk.
Qed.

Lemma write_sound w k allowed s' evs : shared_write others k allowed (w_store w) s' → channels_sound w →
  (∀ peer d g v, k = channel_key peer → allowed (Some (g, v)) → from_slice v = Ok d → chan_sound d) →
  good w (set_store s' evs w).
Proof using HCL HSO.
  intros Hwr Hw Hk. split; [|by eexists]. apply channels_sound_store. cbn.
  eapply store_write_sound; [exact Hwr|by apply channels_sound_store|exact Hk].
Qed.

Section Json.
Context {A : Type} {J : Json V A} {JL : JsonLaws V A}.

(** The value [a] may be put under [k]. *)
Definition puts_sound k (a : A) : Prop :=
  ∀ peer d v, k = channel_key peer → to_vec a = Ok v → from_slice v = Ok d → chan_sound d.

Lemma put_sound k (a : A) op v w : to_vec a = Ok v → puts_sound k a → channels_sound w →
  shared_write others k (λ o, ∃ g, o = Some (g, v)) (w_store w) (op (w_store w)).2 →
  good w (put k a op w).2.
Proof.
  intros Hto Hk Hw Hs. unfold put. destruct (op (w_store w)) as [[u|e] s'];
    (eapply write_sound; [exact Hs|done|]; intros p d g v' Hp [g' [= <- <-]] Hf; by eapply Hk).
Qed.

Lemma keeps_create k (a : A) : key_ok k → puts_sound k a → keeps (m_create_json k a) (λ _, True).
Proof.
  intros Hk Ha w Hw. split; [|done]. destruct (json_roundtrip a) as (v & Hto & _).
  eapply put_sound; [exact Hto|done..|]. unfold create_json. rewrite Hto. by apply shared_create.
Qed.

Lemma keeps_update k (a : A) g : key_ok k → puts_sound k a → keeps (m_update_json k a g) (λ _, True).
Proof.
  intros Hk Ha w Hw. split; [|done]. destruct (json_roundtrip a) as (v & Hto & _).
  eapply put_sound; [exact Hto|done..|]. unfold update_json. rewrite Hto. by apply shared_update.
Qed.

Lemma off_puts_sound k (a : A) : off_channels k → puts_sound k a.
Proof using Type. intros Hoff p d v Hp. by destruct (Hoff p). Qed.

Lemma keeps_get k : keeps (m_get_json (A := A) k) (λ _, True).
Proof. by apply keeps_read. Qed.

Lemma keeps_load_optional k : keeps (load_optional (A := A) k) (λ _, True).
Proof.
  apply keeps_read. intros w. unfold load_optional, mbind, M_bind, attempt, m_get_json.
  by destruct (get_json k (w_store w)) as [|[]].
Qed.

Lemma keeps_create_off k (a : A) : key_ok k → off_channels k → keeps (m_create_json k a) (λ _, True).
Proof. intros Hk Hoff. by apply keeps_create, off_puts_sound. Qed.

Lemma keeps_update_off k (a : A) g : key_ok k → off_channels k → keeps (m_update_json k a g) (λ _, True).
Proof. intros Hk Hoff. by apply keeps_update, off_puts_sound. Qed.

Lemma keeps_create_if_absent k (a : A) : key_ok k → off_channels k → keeps (create_if_absent k a) (λ _, True).
Proof.
  intros Hk Hoff. eapply keeps_bind; [by apply keeps_attempt, keeps_create_off|]. intros r _.
  repeat case_match; by (apply keeps_ret || apply keeps_fail).
Qed.

End Json.

Lemma keeps_delete k : key_ok k → keeps (m_delete k) (λ _, True).
Proof.
  intros Hk w Hw. split; [|done]. pose proof (shared_delete k (w_store w) Hk) as Hs. unfold m_delete.
  destruct (st_delete k (w_store w)) as [[u|e] s']; (eapply write_sound; [exact Hs|done|done]).
Qed.

Lemma channel_puts_sound peer d : chan_sound d → puts_sound (channel_key peer) d.
Proof.
  intros Hd p d' v _ Hto Hf. destruct (json_roundtrip d) as (v' & Hto' & Hf'). congruence.
Qed.

Lemma keeps_channel_create peer d : chan_sound d → keeps (m_create_json (channel_key peer) d) (λ _, True).
Proof. intros Hd. apply keeps_create; [apply channel_key_ok|by apply channel_puts_sound]. Qed.

Lemma keeps_channel_update peer d g : chan_sound d → keeps (m_update_json (channel_key peer) d g) (λ _, True).
Proof. intros Hd. apply keeps_update; [apply channel_key_ok|by apply channel_puts_sound]. Qed.

Lemma keeps_save peer d o : chan_sound d → keeps (save_channel peer d o) (λ _, True).
Proof.
  intros Hd. unfold save_channel. destruct o as [g|].
  - by apply keeps_lift, keeps_channel_update.
  - unfold create_or_overwrite. eapply keeps_bind; [by apply keeps_attempt, keeps_channel_create|].
    intros r _. repeat case_match; try (by apply keeps_ret || apply keeps_fail).
    eapply keeps_bind; [apply keeps_lift, keeps_get|]. intros [d' g] _.
    by apply keeps_lift, keeps_channel_update.
Qed.

Lemma keeps_load peer : keeps (load_channel peer) (λ r, ∀ d, r = Some d → chan_sound d).
Proof.
  intros w Hw. unfold load_channel, load_optional, mbind, M_bind, attempt.
  destruct (m_get_json (channel_key peer) w) as [r w'] eqn:Hg.
  apply m_get_json_inv in Hg as [-> Hr]; [|apply channel_key_ok].
  destruct (wview w (channel_key peer)) as [[g v]|] eqn:Hv.
  - destruct (from_slice v) as [d|e] eqn:Hf.
    + subst r. split; [by apply good_refl|]. cbn. intros ? [= <-] d' [= <-]. apply (Hw peer d). by exists g, v.
    + destruct Hr as [e' ->]. split; [by apply good_refl|done].
  - subst r. split; [by apply good_refl|]. cbn. by intros ? [= <-].
Qed.

Lemma keeps_require_channel peer : keeps (require_channel peer) chan_sound.
Proof.
  eapply keeps_bind; [apply keeps_load|]. intros o Ho. eapply keeps_weaken; [apply keeps_require|]. done.
Qed.

(** ** Helpers *)

Lemma off_forward scid id : off_channels (forward_key scid id).
Proof using HCL. by intros p. Qed.
Lemma off_event seq : off_channels (event_key seq).
Proof using HCL. by intros p. Qed.
Lemma off_marker id : off_channels (marker_key id).
Proof using HCL. by intros p. Qed.
Lemma off_meta : off_channels meta_key.
Proof using HCL. by intros p. Qed.
Lemma off_secret s : off_channels (secret_key s).
Proof using HCL. by intros p. Qed.

Create HintDb keeps.
Hint Resolve forward_key_ok event_key_ok' secret_key_ok policy_key_ok channel_key_ok meta_key_ok
  off_forward off_event off_marker off_meta off_secret : keeps.
Hint Resolve keeps_of_result keeps_require keeps_check keeps_load keeps_require_channel keeps_save
  keeps_get keeps_load_optional keeps_create_if_absent keeps_delete keeps_create_off keeps_update_off : keeps.
Hint Resolve errors_sound pending_sound routing_sound accepting_sound proposed_sound : keeps.
Hint Extern 0 (JsonLaws _ _) => typeclasses eauto : keeps.
Hint Extern 1 (keeps (node _) _) => apply keeps_lift, keeps_node_call : keeps.
Hint Extern 1 (keeps (attempt (node _)) _) => apply keeps_attempt, keeps_lift, keeps_node_call : keeps.
Hint Extern 2 (keeps (attempt _) _) => eapply keeps_true, keeps_attempt : keeps.
Hint Extern 2 (keeps (catch _) _) => eapply keeps_true, keeps_catch : keeps.
Hint Extern 2 (keeps (store _) _) => eapply keeps_lift : keeps.

(** One step of a handler. *)
Ltac keeps_step :=
  match goal with
  | |- keeps (mret _) _ => apply keeps_ret
  | |- keeps (fail _) _ => apply keeps_fail
  | |- keeps (if ?b then _ else _) _ => destruct b eqn:?
  | |- keeps (match ?x with _ => _ end) _ => destruct x eqn:?
  | |- keeps (let _ := _ in _) _ => cbv zeta
  | |- keeps (mbind _ _) _ => eapply keeps_bind; [solve [eauto 4 with keeps]|intros ? ?]
  | |- keeps (mbind _ _) _ => apply (keeps_bind _ _ (λ _, True)); [|intros ? _]
  | |- keeps _ _ => solve [eauto 4 with keeps]
  | |- keeps _ (λ _, True) => eapply keeps_true; solve [eauto 4 with keeps]
  end.
Ltac keeps_auto := repeat keeps_step; try done.

Lemma keeps_list k : keeps (m_list k) (λ _, True).
Proof. by apply keeps_read. Qed.
Lemma keeps_exists k : keeps (m_exists k) (λ _, True).
Proof. by apply keeps_read. Qed.
Lemma keeps_now {E} : keeps (now (E := E)) (λ _, True).
Proof. by apply keeps_read. Qed.
Lemma keeps_random {E} : keeps (random_key (E := E)) (λ _, True).
Proof.
  apply keeps_same. intros w. unfold random_key. destruct (n_random_key (w_node w)); cbn.
  split; [done|by exists []].
Qed.
Lemma keeps_wire_encoding peer : keeps (peer_wire_encoding peer) (λ _, True).
Proof. by apply keeps_read. Qed.
Lemma keeps_disconnected peer : keeps (peer_is_known_disconnected peer) (λ _, True).
Proof. by apply keeps_read. Qed.
Lemma keeps_note_connection peer b : keeps (note_peer_connection peer b) (λ _, True).
Proof. apply keeps_same. intros w. split; [done|]. exists []. by rewrite app_nil_r. Qed.
Lemma keeps_forget peer : keeps (forget_wire_encoding peer) (λ _, True).
Proof. apply keeps_same. intros w. split; [done|]. exists []. by rewrite app_nil_r. Qed.
Hint Resolve keeps_list keeps_exists keeps_now keeps_random keeps_wire_encoding keeps_disconnected
  keeps_note_connection keeps_forget : keeps.

Lemma keeps_delete_quietly k : key_ok k → keeps (delete_quietly k) (λ _, True).
Proof. intros Hk. unfold delete_quietly. keeps_auto. Qed.

Lemma keeps_mark_errored peer d e : chan_sound d → keeps (mark_errored peer d e) (λ _, True).
Proof. intros Hd. apply keeps_save. auto with keeps. Qed.
Lemma keeps_mark_remote_errored peer d e : chan_sound d → keeps (mark_remote_errored peer d e) (λ _, True).
Proof. intros Hd. apply keeps_save. auto with keeps. Qed.

Lemma keeps_send_message peer m : keeps (send_message peer m) (λ _, True).
Proof. unfold send_message, send_message_with_encoding, encoded. keeps_auto. Qed.
Hint Resolve keeps_delete_quietly keeps_mark_errored keeps_mark_remote_errored keeps_send_message : keeps.

Lemma keeps_send_error C peer e : keeps (send_error C peer e) (λ _, True).
Proof. apply keeps_send_message. Qed.

Lemma keeps_effective C : keeps (effective_policy C) (λ _, True).
Proof. unfold effective_policy. keeps_auto. Qed.
Hint Resolve keeps_send_error keeps_effective : keeps.

Lemma keeps_routing C d : keeps (routing_policy_for_data C d) (λ _, True).
Proof. unfold routing_policy_for_data. keeps_auto. Qed.
Hint Resolve keeps_routing : keeps.

Lemma keeps_parameters C d : keeps (channel_parameters_for_data C d) (λ _, True).
Proof. unfold channel_parameters_for_data. keeps_auto. Qed.

Lemma keeps_block_day : keeps current_block_day (λ _, True).
Proof. unfold current_block_day. keeps_auto. Qed.

Lemma keeps_next_state d : keeps (next_state d) (λ n, lcss_next (with_uncommitted d) = Ok n).
Proof.
  eapply keeps_weaken; [apply keeps_of_result|]. intros n. unfold map_err.
  destruct (lcss_next (with_uncommitted d)); [by intros [= ->]|done].
Qed.

Lemma keeps_list_channels : keeps list_channels (λ _, True).
Proof. unfold list_channels. keeps_auto. Qed.
Hint Resolve keeps_parameters keeps_block_day keeps_next_state keeps_list_channels : keeps.

Lemma keeps_peer_for C scid : keeps (peer_for_hosted_scid C scid) (λ _, True).
Proof. unfold peer_for_hosted_scid. keeps_auto. Qed.
Hint Resolve keeps_peer_for : keeps.

(** Signing changes only the host's signature. *)
Lemma sign_same_funds sk s s' : lcss_sign sk s = Ok s' → same_funds s s'.
Proof using HCL. intros (h & _ & ->)%lcss_sign_ok. by repeat split. Qed.

Lemma keeps_sign C s : keeps (sign_state C s) (λ s', ∃ sk, lcss_sign sk s = Ok s').
Proof.
  eapply keeps_weaken; [apply keeps_of_result|]. intros s'. unfold map_err.
  destruct (lcss_sign (ctl_node_secret C) s) eqn:Hs; [|done]. intros [= <-]. eauto.
Qed.
Hint Resolve keeps_sign : keeps.

Lemma keeps_state_update C d : keeps (state_update_for_uncommitted C d) (λ _, ∃ t, folded d t).
Proof.
  unfold state_update_for_uncommitted. eapply keeps_bind; [apply keeps_next_state|].
  intros n (t & Ht & _)%lcss_next_folded. keeps_auto. by exists t.
Qed.
Hint Resolve keeps_state_update : keeps.

(** ** Local updates and links *)

Lemma local_resolution_sound d p id t : chan_sound d → has_htlc (incoming_htlcs (cd_lcss d)) id = true →
  update_ok (ULocal p) → folded (push_uncommitted (ULocal p) d) t → chan_sound (push_uncommitted (ULocal p) d).
Proof using HCL.
  intros Hd Hh Hu Ht. eapply local_push_sound; [done|done|exact Ht|].
  destruct (cd_established d) eqn:He; [done|]. destruct (chs_fresh d Hd He) as (_ & Hi & _).
  by rewrite Hi in Hh.
Qed.

(** The shape all local resolutions share. *)
Lemma keeps_local_resolution C peer d p id (k : StateUpdate → M ChannelError unit) :
  chan_sound d → has_htlc (incoming_htlcs (cd_lcss d)) id = true → update_ok (ULocal p) →
  (∀ su, keeps (k su) (λ _, True)) →
  keeps (su ← state_update_for_uncommitted C (push_uncommitted (ULocal p) d);
         _ ← save_channel peer (push_uncommitted (ULocal p) d) None; k su) (λ _, True).
Proof.
  intros Hd Hh Hu Hk. eapply keeps_bind; [apply keeps_state_update|]. intros su [t Ht].
  pose proof (local_resolution_sound d p id t Hd Hh Hu Ht). keeps_auto.
Qed.

Lemma keeps_send_local_fulfill C peer link preimage :
  keeps (send_local_fulfill C peer link preimage) (λ _, True).
Proof.
  unfold send_local_fulfill. eapply keeps_bind; [apply keeps_require_channel|]. intros d Hd.
  destruct (has_htlc _ _) eqn:Hh; cbn [negb]; [|by apply keeps_ret].
  eapply keeps_local_resolution; [done|exact Hh|done|]. intros su. keeps_auto.
Qed.

Lemma keeps_send_local_fail C peer id reason :
  keeps (send_local_fail_for_htlc C peer id reason) (λ _, True).
Proof.
  unfold send_local_fail_for_htlc. eapply keeps_bind; [apply keeps_require_channel|]. intros d Hd.
  destruct (has_htlc _ _) eqn:Hh; cbn [negb]; [|by apply keeps_ret].
  eapply keeps_local_resolution; [done|exact Hh|done|]. intros su. keeps_auto.
Qed.

Lemma keeps_send_local_malformed C peer id hash code :
  keeps (send_local_fail_malformed_for_htlc C peer id hash code) (λ _, True).
Proof.
  unfold send_local_fail_malformed_for_htlc. eapply keeps_bind; [apply keeps_require_channel|]. intros d Hd.
  destruct (has_htlc _ _) eqn:Hh; cbn [negb]; [|by apply keeps_ret].
  eapply keeps_local_resolution; [done|exact Hh|done|]. intros su. keeps_auto.
Qed.
Hint Resolve keeps_send_local_fulfill keeps_send_local_fail keeps_send_local_malformed : keeps.
Hint Extern 1 (keeps (send_local_fail _ _ _ _) _) => apply keeps_send_local_fail : keeps.

Lemma active_established d : status_is Active d = true → cd_established d = true.
Proof using HCL.
  unfold status_is. rewrite bool_decide_eq_true. unfold derive_status.
  repeat case_match; try done. intros _. by apply negb_false_iff.
Qed.

Lemma keeps_send_direct_payment C peer amount hash cltv secret : 0 ≤ amount →
  keeps (send_direct_payment C peer amount hash cltv secret) (λ _, True).
Proof.
  intros Ha. unfold send_direct_payment. eapply keeps_bind; [apply keeps_require_channel|]. intros d Hd.
  destruct (status_is Active d) eqn:Hact; cbn [negb]; [|apply keeps_fail]. apply active_established in Hact.
  eapply keeps_bind; [apply keeps_next_state|]. intros n Hn. destruct (_ <? _); [apply keeps_fail|].
  cbv zeta. eapply keeps_bind; [apply keeps_random|]. intros sk _.
  eapply keeps_bind; [apply keeps_of_result|]. intros onion _.
  eapply keeps_bind; [apply keeps_state_update|]. intros su [t Ht].
  assert (chan_sound (push_uncommitted (ULocal (PAdd (mkUpdateAddHtlc (my_channel_id C peer)
    (next_local_updates (with_uncommitted d) + 1) amount hash cltv onion []))) d))
    by (eapply local_push_sound; [done|done|exact Ht|done]).
  keeps_auto.
Qed.

Lemma keeps_panicking {A} (o : outcome A) :
  keeps (panicking (S := S) (V := V) (N := N) o) (λ a, o = Returns a).
Proof. destruct o; cbn; [by apply keeps_ret|apply keeps_fail..]. Qed.
Hint Resolve keeps_panicking : keeps.

Lemma keeps_failure_onion C htlc code : keeps (failure_onion_for_peer_htlc C htlc code) (λ _, True).
Proof. unfold failure_onion_for_peer_htlc. keeps_auto. Qed.
Hint Resolve keeps_failure_onion : keeps.

Lemma keeps_first_some {A B} (f : A → M ChannelError (option B)) l :
  (∀ x, keeps (f x) (λ _, True)) → keeps (first_some f l) (λ _, True).
Proof.
  intros Hf. induction l as [|x l IH]; cbn [first_some]; [by apply keeps_ret|].
  eapply keeps_bind; [apply Hf|]. intros [b|] _; [by apply keeps_ret|exact IH].
Qed.

Lemma keeps_forward_link a b : keeps (forward_link_for_incoming a b) (λ _, True).
Proof.
  unfold forward_link_for_incoming. eapply keeps_bind; [eauto with keeps|]. intros ks _.
  apply keeps_first_some. intros k. unfold links_of_scid. destruct (last k); [|by apply keeps_ret].
  eapply keeps_bind; [eauto with keeps|]. intros hs _. apply keeps_first_some. intros k'.
  unfold check_link. keeps_auto.
Qed.
Hint Resolve keeps_forward_link : keeps.

Lemma keeps_resolve_fulfill C scid id preimage : keeps (resolve_forward_fulfill C scid id preimage) (λ _, True).
Proof. unfold resolve_forward_fulfill. keeps_auto. Qed.
Lemma keeps_resolve_fail C scid id failure : keeps (resolve_forward_fail C scid id failure) (λ _, True).
Proof. unfold resolve_forward_fail. keeps_auto. Qed.
Lemma keeps_payment_result C scid id status : keeps (handle_outgoing_payment_result C scid id status) (λ _, True).
Proof. unfold handle_outgoing_payment_result. keeps_auto. Qed.
Hint Resolve keeps_resolve_fulfill keeps_resolve_fail keeps_payment_result : keeps.

(** ** Adding and dispatching *)

Lemma local_add_sound d h n : chan_sound d → cd_established d = true → amount_ok h →
  lcss_next (with_uncommitted d) = Ok n → uah_amount_msat h ≤ local_balance_msat n →
  chan_sound (push_uncommitted (ULocal (PAdd h)) d).
Proof using HCL.
  intros Hd He Hh Hn Ha. apply lcss_next_folded in Hn as (t & Ht & Hl & _).
  eapply local_push_sound; [done|done| |done]. apply folded_push. exists t. split; [done|]. cbn.
  unfold checked_sub_u64. rewrite leb_true by lia. done.
Qed.

Lemma keeps_commit_deadline : keeps commit_deadline (λ _, True).
Proof. unfold commit_deadline. keeps_auto. Qed.
Hint Resolve keeps_commit_deadline : keeps.

Lemma keeps_deliver C peer d h n a b ss cltv :
  chan_sound d → cd_established d = true → amount_ok h → lcss_next (with_uncommitted d) = Ok n →
  uah_amount_msat h ≤ local_balance_msat n → keeps (deliver_htlc_add C peer d h a b ss cltv) (λ _, True).
Proof.
  intros Hd He Hh Hn Ha. unfold deliver_htlc_add. cbv zeta. eapply keeps_bind; [eauto with keeps|]. intros dl _.
  set (h' := mkUpdateAddHtlc _ _ _ _ _ _ _).
  assert (chan_sound (push_uncommitted (ULocal (PAdd h')) d)) by (by eapply local_add_sound).
  keeps_auto.
Qed.

Lemma keeps_reject rk code : keeps (reject rk code) (λ _, True).
Proof. unfold reject. keeps_auto. Qed.
Hint Resolve keeps_reject : keeps.

Lemma keeps_htlc_add C peer h rk a b ss cltv : amount_ok h →
  keeps (channel_handle_htlc_add_with_upstream_expiry C peer h rk a b ss cltv) (λ _, True).
Proof.
  intros Hh. unfold channel_handle_htlc_add_with_upstream_expiry.
  eapply keeps_bind; [apply keeps_require_channel|]. intros d Hd.
  destruct (status_is Active d) eqn:Hact; cbn [negb]; [|apply keeps_fail]. apply active_established in Hact.
  eapply keeps_bind; [eauto with keeps|]. intros dis _. destruct dis; [keeps_auto|].
  eapply keeps_bind; [eapply keeps_true, keeps_attempt, keeps_node_call|]. intros known _.
  assert (keeps (
    let init := init_hosted_channel (cd_lcss d) in
    routing ← routing_policy_for_data C d;
    source ← peer_for_hosted_scid C a;
    too_soon ← of_result (cltv_too_soon (negb (is_some source)) cltv (uah_cltv_expiry h) (crp_cltv_expiry_delta routing));
    if (too_soon : bool) then reject rk 0x100d else
    if uah_amount_msat h <? ihc_htlc_minimum_msat init then reject rk 0x400e else
    if crp_htlc_maximum_msat routing <? uah_amount_msat h then reject rk 0x1007 else
    next ← next_state d;
    if add_refused init next (uah_amount_msat h) then reject rk 0x1007 else
    deliver_htlc_add C peer d h a b ss cltv) (λ _, True)) as Hrest.
  { cbv zeta. do 3 (eapply keeps_bind; [eauto with keeps|intros ? _]).
    do 3 (case_match; [keeps_auto|]). eapply keeps_bind; [apply keeps_next_state|]. intros n Hn.
    destruct (add_refused _ n _) eqn:Hr; [keeps_auto|].
    apply orb_false_iff in Hr as [[Hr _]%orb_false_iff _]. apply Z.ltb_ge in Hr.
    eapply keeps_deliver; [done..|exact Hn|exact Hr]. }
  destruct known as [[p|]|e]; [keeps_auto|exact Hrest..].
Qed.

Lemma keeps_fail_htlc C peer h : keeps (fail_htlc C peer h) (λ _, True).
Proof. unfold fail_htlc. keeps_auto. Qed.
Lemma keeps_height_or_zero : keeps height_or_zero (λ _, True).
Proof.
  unfold height_or_zero. eapply keeps_bind; [eapply keeps_true, keeps_attempt, keeps_node_call|].
  intros r _. by apply keeps_ret.
Qed.
Hint Resolve keeps_fail_htlc keeps_height_or_zero : keeps.

Lemma keeps_forward_to_hosted C peer target h p : 0 ≤ po_amt_to_forward p →
  keeps (forward_to_hosted C peer target h p) (λ _, True).
Proof.
  intros Hp. unfold forward_to_hosted. case_decide; [apply keeps_fail|].
  do 3 (eapply keeps_bind; [eauto with keeps|intros ? ?]).
  destruct (forward_terms_ok _ _ _ _); cbn [negb]; [|keeps_auto]. cbv zeta.
  eapply keeps_bind; [eapply keeps_true, keeps_catch; by apply keeps_htlc_add|]. intros r _.
  destruct r; keeps_auto.
Qed.

Lemma keeps_forward_to_node C peer h p : keeps (forward_to_node C peer h p) (λ _, True).
Proof.
  unfold forward_to_node. cbv zeta. do 2 (eapply keeps_bind; [eauto with keeps|intros ? _]).
  eapply keeps_bind; [eapply keeps_true, keeps_attempt, keeps_node_call|]. intros r _. keeps_auto.
Qed.

Lemma keeps_dispatch C peer d h : keeps (dispatch_committed_incoming_htlc C peer d h) (λ _, True).
Proof.
  unfold dispatch_committed_incoming_htlc. destruct (within_limits _ _); cbn [negb]; [|keeps_auto].
  eapply keeps_bind; [apply keeps_panicking|]. intros r Hr. destruct r as [p|e]; [|keeps_auto].
  destruct (peel_onion_outcome (ctl_node_secret C) (uah_onion_routing_packet h) (uah_payment_hash h))
    as [Hp|(r' & Hp & Hty)]; rewrite Hr in Hp; [done|]. injection Hp as <-.
  destruct (Hty p eq_refl) as (_ & [Hamt _] & _). destruct (_ <? _); [keeps_auto|].
  eapply keeps_bind; [eauto with keeps|]. intros [t|] _; [by apply keeps_forward_to_hosted|apply keeps_forward_to_node].
Qed.
Hint Resolve keeps_dispatch : keeps.

Lemma keeps_dispatch_effects C peer d0 d1 us : keeps (dispatch_committed_effects C peer d0 d1 us) (λ _, True).
Proof.
  unfold dispatch_committed_effects. eapply keeps_bind; [apply keeps_for_each; intros h _; keeps_auto|].
  intros _ _. apply keeps_for_each. intros u _. unfold dispatch_update. keeps_auto.
Qed.

(** ** Recovery and deadlines *)

Lemma keeps_settlement C peer h : keeps (hosted_settlement_is_safe C peer h) (λ _, True).
Proof. unfold hosted_settlement_is_safe. keeps_auto. Qed.
Hint Resolve keeps_settlement keeps_dispatch_effects : keeps.

Lemma keeps_recover_outgoing C peer d : chan_sound d → keeps (recover_outgoing_htlcs C peer d) (λ _, True).
Proof.
  intros Hd. unfold recover_outgoing_htlcs. eapply (keeps_bind _ _ (λ _, True)).
  - generalize (@nil (list byte)). induction (outgoing_htlcs (cd_lcss d)) as [|h hs IH]; intros hashes;
      cbn [recover_outgoing_loop]; [by apply keeps_ret|].
    destruct (has_uncommitted_remote_resolution _ _); [apply IH|].
    eapply keeps_bind; [eauto with keeps|]. intros safe _. destruct safe; cbn [negb]; [|keeps_auto].
    eapply keeps_bind; [eauto with keeps|]. intros [p|] _; [|apply IH].
    eapply keeps_bind; [eauto with keeps|]. intros _ _. apply IH.
  - intros r _. keeps_auto.
Qed.
Hint Resolve keeps_recover_outgoing : keeps.

Lemma keeps_recover C peer b : keeps (recover_channel_htlcs C peer b) (λ _, True).
Proof.
  unfold recover_channel_htlcs. eapply keeps_bind; [apply keeps_load|]. intros [d|] Hd; [|by apply keeps_ret].
  pose proof (Hd d eq_refl). destruct (negb _); [by apply keeps_ret|].
  eapply keeps_bind; [|intros; destruct b; keeps_auto]. apply keeps_for_each. intros h _.
  unfold recover_incoming_htlc. keeps_auto.
Qed.
Hint Resolve keeps_recover : keeps.

Lemma keeps_recover_all C : keeps (recover_committed_htlcs C) (λ _, True).
Proof.
  unfold recover_committed_htlcs. eapply keeps_bind; [eauto with keeps|]. intros ps _.
  apply keeps_for_each. intros p _. keeps_auto.
Qed.

Lemma keeps_load_link scid id : keeps (load_link scid id) (λ _, True).
Proof. unfold load_link. keeps_auto. Qed.
Hint Resolve keeps_load_link : keeps.

Lemma keeps_enforce_channel C now height peer : keeps (enforce_channel C now height peer) (λ _, True).
Proof.
  unfold enforce_channel. eapply keeps_bind; [apply keeps_load|]. intros [d|] Hd; [|by apply keeps_ret].
  pose proof (Hd d eq_refl) as Hs. destruct (negb _); [by apply keeps_ret|].
  eapply (keeps_bind _ _ (λ _, True)).
  - generalize (cd_uncommitted d). induction l as [|u us IH]; cbn [enforce_commit_deadline]; [by apply keeps_ret|].
    destruct u as [[h| | |]|]; try exact IH. eapply keeps_bind; [eauto with keeps|].
    intros [l|] _; [|exact IH]. case_match; [exact IH|]. keeps_auto.
  - intros errored _. destruct errored; [by apply keeps_ret|]. revert height.
    induction (outgoing_htlcs (cd_lcss d)) as [|h hs IH]; intros height; cbn [enforce_expiry]; [by apply keeps_ret|].
    eapply keeps_bind; [eauto with keeps|]. intros [l|] _; [|apply IH]. destruct (negb _); [apply IH|].
    eapply (keeps_bind _ _ (λ _, True)); [destruct height; keeps_auto|]. intros z _.
    destruct (_ <? _); [apply IH|]. keeps_auto.
Qed.

Lemma keeps_enforce C now : keeps (enforce_forward_deadlines_at C now) (λ _, True).
Proof.
  unfold enforce_forward_deadlines_at. eapply keeps_bind; [eauto with keeps|]. intros ps _.
  generalize (@None Z). induction ps as [|p ps IH]; intros h; cbn [enforce_channels]; [by apply keeps_ret|].
  eapply keeps_bind; [apply keeps_enforce_channel|]. intros h' _. apply IH.
Qed.

(** ** Messages of the peer *)

Lemma load_channel_cases w peer :
  match wview w (channel_key peer) with
  | None => load_channel peer w = (Ok None, w)
  | Some (g, v) => (∃ d, from_slice v = Ok d ∧ load_channel peer w = (Ok (Some d), w)) ∨
                   ∃ e, load_channel peer w = (Err e, w)
  end.
Proof.
  unfold load_channel, load_optional, mbind, M_bind, attempt.
  destruct (m_get_json (channel_key peer) w) as [r w'] eqn:Hg.
  apply m_get_json_inv in Hg as [-> Hr]; [|apply channel_key_ok].
  destruct (wview w (channel_key peer)) as [[g v]|].
  - destruct (from_slice v) as [d|e]; [left; exists d; by rewrite Hr|right].
    destruct Hr as [e' ->]. by eexists.
  - by rewrite Hr.
Qed.

Lemma require_channel_cases w peer :
  (∃ d, require_channel peer w = (Ok d, w) ∧ channel_at w peer d) ∨
  ∃ e, require_channel peer w = (Err e, w).
Proof.
  unfold require_channel, mbind, M_bind. pose proof (load_channel_cases w peer) as Hl.
  destruct (wview w (channel_key peer)) as [[g v]|] eqn:Hv; [|rewrite Hl; right; by eexists].
  destruct Hl as [(d & Hf & ->)|[e ->]]; [|right; by eexists].
  left. exists d. split; [done|]. by exists g, v.
Qed.

Lemma require_channel_sound {B} w peer (f : ChannelData → M ChannelError B) :
  channels_sound w → (∀ d, channel_at w peer d → keeps (f d) (λ _, True)) →
  channels_sound ((require_channel peer ≫= f) w).2.
Proof.
  intros Hw Hf. unfold mbind, M_bind. destruct (require_channel_cases w peer) as [(d & -> & Hd)|[e ->]]; [|done].
  eapply keeps_sound; [by apply Hf|done].
Qed.

(** The peer gives every HTLC of a channel its own id. *)
Definition fresh_id w peer (h : UpdateAddHtlc) : Prop :=
  ∀ d, channel_at w peer d → htlc_id h ∉ incoming_ids d.

Lemma update_add_sound C w peer h :
  channels_sound w → amount_ok h → fresh_id w peer h → channels_sound (handle_update_add C peer h w).2.
Proof.
  intros Hw Hh Hid. apply require_channel_sound; [done|]. intros d Hd.
  pose proof (Hw peer d Hd) as Hs. specialize (Hid d Hd).
  destruct (status_is Active d) eqn:Hact; cbn [negb]; [|keeps_auto]. apply active_established in Hact.
  eapply keeps_bind; [apply keeps_next_state|]. intros n Hn. cbn beta in Hn.
  destruct (Z.ltb_spec (remote_balance_msat n) (uah_amount_msat h)) as [Hlt|Hge]; [keeps_auto|].
  apply keeps_save. by eapply remote_add_sound.
Qed.

Lemma keeps_update_fail peer m : keeps (handle_update_fail peer m) (λ _, True).
Proof.
  unfold handle_update_fail. eapply keeps_bind; [apply keeps_require_channel|]. intros d Hd.
  do 2 (match goal with |- keeps (if ?b then _ else _) _ => destruct b eqn:?; [by apply keeps_ret|] end).
  destruct (has_htlc _ _) eqn:Hh; cbn [negb]; [|by apply keeps_ret].
  apply has_htlc_find in Hh as (h & Hf & _). destruct (is_empty _); [keeps_auto|].
  apply keeps_save. by eapply remote_removal_sound.
Qed.

Lemma keeps_update_malformed peer m : keeps (handle_update_fail_malformed peer m) (λ _, True).
Proof.
  unfold handle_update_fail_malformed. eapply keeps_bind; [apply keeps_require_channel|]. intros d Hd.
  do 3 (match goal with |- keeps (if ?b then _ else _) _ => destruct b eqn:?; [by apply keeps_ret|] end).
  destruct (has_htlc _ _) eqn:Hh; cbn [negb]; [|by apply keeps_ret].
  apply has_htlc_find in Hh as (h & Hf & _). apply keeps_save. by eapply remote_removal_sound.
Qed.

Lemma keeps_update_fulfill C peer m : keeps (handle_update_fulfill C peer m) (λ _, True).
Proof.
  unfold handle_update_fulfill. eapply keeps_bind; [apply keeps_require_channel|]. intros d Hd.
  do 3 (match goal with |- keeps (if ?b then _ else _) _ => destruct b eqn:?; [by apply keeps_ret|] end).
  cbv zeta. destruct (List.find _ _) as [h|] eqn:Hf; [|by apply keeps_ret].
  case_bool_decide as Hpre; cbn [negb]; [|by apply keeps_ret].
  eapply keeps_bind; [eauto with keeps|]. intros safe _. destruct safe; cbn [negb]; [|keeps_auto].
  assert (chan_sound (push_uncommitted (URemote (PFulfill (ufl_channel_id m) (ufl_id m)
            (ufl_payment_preimage m))) d)) by (eapply remote_removal_sound; [done|done|exact Hf|done]).
  keeps_auto.
Qed.

Lemma keeps_error peer m : keeps (handle_error peer m) (λ _, True).
Proof. unfold handle_error. keeps_auto. Qed.

Lemma keeps_query peer m : keeps (handle_query_preimages peer m) (λ _, True).
Proof.
  unfold handle_query_preimages. eapply (keeps_bind _ _ (λ _, True)).
  - generalize (@nil (list byte)). induction (qp_hashes m) as [|h hs IH]; intros acc; cbn [known_preimages];
      [by apply keeps_ret|]. eapply keeps_bind; [eauto with keeps|]. intros p _. apply IH.
  - intros ps _. keeps_auto.
Qed.

Lemma keeps_reply peer m : keeps (handle_reply_preimages peer m) (λ _, True).
Proof. unfold handle_reply_preimages. apply keeps_for_each. intros p _. keeps_auto. Qed.

(** ** Committing *)

Lemma keeps_record_once id who ty amt fee hash : lacks "/"%char id = true →
  keeps (record_once id who ty amt fee hash) (λ _, True).
Proof.
  intros Hid. apply marker_key_ok in Hid. unfold record_once, record_inner, load_meta. keeps_auto.
Qed.

Lemma keeps_record_ledger peer id ty amt hash : lacks "/"%char id = true →
  keeps (record_ledger_once peer id ty amt hash) (λ _, True).
Proof. intros Hid. by apply keeps_lift, keeps_record_once. Qed.

Lemma peer_hex_lacks peer : lacks "/"%char (peer_hex peer) = true.
Proof using HCL. by apply hex_encode_lacks. Qed.

Lemma state_event_id_lacks peer s what : lacks "/"%char what = true →
  lacks "/"%char (state_event_id peer s what) = true.
Proof using HCL.
  intros Hw. unfold state_event_id. rewrite !lacks_app, peer_hex_lacks, Hw, !pretty_lacks by done. done.
Qed.

Lemma keeps_record_htlc peer s what ty h id : lacks "/"%char what = true →
  keeps (record_htlc_event peer s what ty h id) (λ _, True).
Proof.
  intros Hw. apply keeps_record_ledger. unfold update_event_id.
  rewrite !lacks_app, peer_hex_lacks, Hw, !pretty_lacks by done. done.
Qed.

Lemma keeps_record_events peer us s0 s1 : keeps (record_committed_update_events peer us s0 s1) (λ _, True).
Proof.
  apply keeps_for_each. intros u _. unfold record_committed_update, record_resolved.
  destruct u as [[]|[]]; try case_match; (by apply keeps_record_htlc) || (by apply keeps_ret).
Qed.

Lemma keeps_send_channel_update C peer : keeps (send_channel_update C peer) (λ _, True).
Proof. unfold send_channel_update, encoded. keeps_auto. Qed.
Hint Resolve keeps_record_events keeps_send_channel_update : keeps.

Lemma keeps_send_pending C peer : keeps (send_pending_channel_update C peer) (λ _, True).
Proof. unfold send_pending_channel_update. keeps_auto. Qed.
Hint Resolve keeps_send_pending : keeps.

Lemma keeps_repair peer d : chan_sound d →
  keeps (repair_duplicate_uncommitted_resolutions peer d) (λ d', d' = d).
Proof.
  intros Hd. unfold repair_duplicate_uncommitted_resolutions. cbv zeta.
  rewrite (sound_deduplicated d Hd), Z.eqb_refl. by apply keeps_ret.
Qed.

Lemma same_funds_trans s1 s2 s3 : same_funds s1 s2 → same_funds s2 s3 → same_funds s1 s3.
Proof using HCL. unfold same_funds. intuition congruence. Qed.

(** What follows the save of an accepted record: ledger, signature, forwards. *)
Lemma keeps_commit_effects C peer us s0 s d d' :
  keeps (_ ← record_committed_update_events peer us s0 s; _ ← send_signed peer s;
         dispatch_committed_effects C peer d d' us) (λ _, True).
Proof. unfold send_signed. keeps_auto. Qed.

Lemma keeps_opening_effects C peer s amount :
  keeps (_ ← record_ledger_once peer (state_event_id peer s "open") LChannelOpen amount None;
         _ ← send_signed peer s; send_channel_update C peer) (λ _, True).
Proof.
  unfold send_signed. eapply keeps_bind; [by apply keeps_record_ledger, state_event_id_lacks|].
  intros _ _. keeps_auto.
Qed.

Lemma keeps_override_effects C peer s amount (b : bool) :
  keeps (_ ← record_ledger_once peer (state_event_id peer s "override") LOverride amount None;
         _ ← send_signed peer s;
         if b then send_pending_channel_update C peer else send_channel_update C peer) (λ _, True).
Proof.
  unfold send_signed. eapply keeps_bind; [by apply keeps_record_ledger, state_event_id_lacks|].
  intros _ _. keeps_auto.
Qed.

Lemma keeps_active_state_update C peer d m : chan_sound d → cd_established d = true →
  keeps (handle_active_state_update C peer d m) (λ _, True).
Proof.
  intros Hd He. unfold handle_active_state_update. eapply keeps_bind; [by apply keeps_repair|].
  intros d' ->. destruct (is_empty _); [by apply keeps_ret|]. destruct (negb _); [by apply keeps_ret|].
  eapply keeps_bind; [eauto with keeps|]. intros day _. destruct (negb _); [by apply keeps_ret|].
  eapply keeps_bind; [apply keeps_next_state|]. intros n Hn. cbn beta in Hn. cbv zeta.
  destruct (negb _); [by apply keeps_ret|].
  eapply keeps_bind; [apply keeps_sign|]. intros s [sk Hs%sign_same_funds].
  eapply keeps_bind; [|intros _ _; apply keeps_commit_effects]. apply keeps_save.
  eapply committed_sound; [done|done|exact Hn|]. eapply same_funds_trans; [|exact Hs]. by repeat split.
Qed.

Lemma keeps_opening C peer d m : chan_sound d → cd_established d = false →
  keeps (handle_opening_state_update C peer d m) (λ _, True).
Proof.
  intros Hd He. unfold handle_opening_state_update. eapply keeps_bind; [eauto with keeps|]. intros day _.
  destruct (_ <? _); [by apply keeps_ret|]. cbv zeta. destruct (negb _); [by apply keeps_ret|].
  eapply keeps_bind; [apply keeps_sign|]. intros s [sk Hs%sign_same_funds].
  eapply keeps_bind; [by apply keeps_save, (opening_sound d s m)|intros _ _; apply keeps_opening_effects].
Qed.

Lemma keeps_override_acceptance C peer d m : chan_sound d →
  keeps (handle_override_acceptance C peer d m) (λ _, True).
Proof.
  intros Hd. unfold handle_override_acceptance. eapply keeps_bind; [apply keeps_require|]. intros o Ho.
  destruct (negb _); [by apply keeps_ret|]. eapply keeps_bind; [eauto with keeps|]. intros day _.
  destruct (negb _); [by apply keeps_ret|]. cbv zeta. destruct (negb _); [by apply keeps_ret|].
  eapply keeps_bind; [apply keeps_sign|]. intros s [sk Hs%sign_same_funds].
  pose proof (accepted_override_sound d s o Hd Ho Hs (cd_last_refund_scriptpubkey d)
    (cd_accepting_resize_sat d) (cd_routing_policy d) (cd_channel_update_pending d)) as Hnew.
  eapply keeps_bind; [by apply keeps_save|intros _ _; apply keeps_override_effects].
Qed.

Lemma keeps_state_update_msg C peer m : keeps (handle_state_update C peer m) (λ _, True).
Proof.
  unfold handle_state_update. eapply keeps_bind; [apply keeps_require_channel|]. intros d Hd.
  destruct (derive_status d) eqn:Hst; try (by apply keeps_ret).
  - apply keeps_opening; [done|]. unfold derive_status in Hst. repeat case_match; done || by apply negb_true_iff.
  - apply keeps_active_state_update; [done|]. apply active_established. unfold status_is. by rewrite Hst.
  - by apply keeps_override_acceptance.
Qed.

(** A state of the peer that the host may adopt. *)
Definition adoptable w peer (m : LastCrossSignedState) : Prop :=
  lcss_sound (lcss_reverse m) ∧ NoDup (ids (outgoing_htlcs m)) ∧
  ∀ d, channel_at w peer d → cd_established d = false → incoming_htlcs m = [] ∧ outgoing_htlcs m = [].

Lemma lcss_msg_sound C w peer m : channels_sound w → adoptable w peer m →
  channels_sound (handle_lcss C peer m w).2.
Proof.
  intros Hw (Hm & Hn & He). apply require_channel_sound; [done|]. intros d Hd. pose proof (Hw peer d Hd).
  assert (chan_sound (set_uncommitted [] (set_lcss (lcss_reverse m) d))).
  { apply adopted_sound; [done|done|done|]. intros E. by destruct (He d Hd E). }
  keeps_auto.
Qed.

Lemma reconnect_errored_keeps C peer d : keeps (handle_reconnect_errored C peer d) (λ _, True).
Proof. unfold handle_reconnect_errored. keeps_auto. Qed.

Lemma reconnect_active_keeps C peer d : chan_sound d → keeps (handle_reconnect_active C peer d) (λ _, True).
Proof.
  intros Hd. unfold handle_reconnect_active. eapply keeps_bind; [by apply keeps_repair|]. intros d' ->.
  eapply keeps_bind; [eauto with keeps|]. intros _ _.
  eapply keeps_bind; [apply keeps_for_each; intros u _; unfold replay_update; keeps_auto|]. intros _ _.
  keeps_auto.
Qed.

(** A policy whose initial balance is within the capacity. *)
Definition policy_ok (p : ChannelPolicy) : Prop :=
  0 ≤ cp_initial_client_balance_msat p ≤ cp_channel_capacity_msat p ∧ cp_channel_capacity_msat p ≤ U64_MAX.

Lemma keeps_consume C secret : keeps (consume_secret C secret) (λ _, True).
Proof. unfold consume_secret. keeps_auto. Qed.

Lemma keeps_invoked_policy C secret : keeps (invoked_policy C secret) (λ _, True).
Proof. unfold invoked_policy, default_policy. pose proof (keeps_consume C). keeps_auto. Qed.

Lemma bind_sound {E A B} (m : M E A) (f : A → M E B) w : channels_sound w → keeps m (λ _, True) →
  (∀ a w', m w = (Ok a, w') → keeps (f a) (λ _, True)) → channels_sound ((m ≫= f) w).2.
Proof.
  intros Hw Hm Hf. destruct (Hm w Hw) as [[Hw' _] _]. unfold mbind, M_bind.
  destruct (m w) as [[a|e] w']; [|done]. eapply keeps_sound; [by apply (Hf a w')|done].
Qed.

Definition policies_ok C w (secret : list byte) : Prop :=
  ∀ p w', invoked_policy C secret w = (Ok (Some p), w') → policy_ok p.

Lemma new_channel_invoke_sound C w peer m : channels_sound w → policies_ok C w (inv_secret m) →
  channels_sound (handle_new_channel_invoke C peer m w).2.
Proof.
  intros Hw Hp. apply bind_sound; [done|apply keeps_invoked_policy|].
  intros [p|] w' Hr; [|by apply keeps_ret]. destruct (Hp p w' Hr) as [Hi Hc].
  pose proof (new_channel_sound p (inv_refund_scriptpubkey m) Hi Hc). keeps_auto.
Qed.

Lemma invoke_sound C w peer m : channels_sound w → policies_ok C w (inv_secret m) →
  channels_sound (handle_invoke C peer m w).2.
Proof.
  intros Hw Hp. unfold handle_invoke. destruct (negb _).
  { assert (keeps (_ ← send_error C peer "chain hash mismatch"; fail (A := unit) ErrChainHashMismatch)
      (λ _, True)) as Hk by keeps_auto. by eapply keeps_sound. }
  unfold mbind, M_bind. pose proof (load_channel_cases w peer) as Hl.
  destruct (wview w (channel_key peer)) as [[g v]|] eqn:Hv.
  - destruct Hl as [(d & Hf & ->)|[e ->]]; [|done].
    assert (chan_sound d) as Hd by (apply (Hw peer); by exists g, v).
    destruct (derive_status d); (by apply new_channel_invoke_sound) ||
      (by eapply keeps_sound; [apply reconnect_active_keeps|]) ||
      (by eapply keeps_sound; [apply reconnect_errored_keeps|]).
  - rewrite Hl. by apply new_channel_invoke_sound.
Qed.

(** ** Administration *)

Lemma capacity_nonneg s : lcss_sound s → 0 ≤ capacity s.
Proof using HCL.
  intros ((Hl & Hr & Hi & Ho) & Ht & _). apply htlc_total_nonneg in Hi, Ho. unfold total_funds in Ht. lia.
Qed.

Lemma resize_sound C w peer m : channels_sound w → 0 ≤ rc_new_capacity_sat m →
  (∀ d, channel_at w peer d → cd_uncommitted d = []) →
  channels_sound (handle_resize_channel C peer m w).2.
Proof.
  intros Hw Hm Hu. apply require_channel_sound; [done|]. intros d Hd. specialize (Hu d Hd).
  pose proof (Hw peer d Hd) as Hs. destruct (_ || _); [by apply keeps_ret|].
  destruct (cd_accepting_resize_sat d); [|by apply keeps_ret]. destruct (_ <? _); [by apply keeps_ret|].
  eapply keeps_bind; [apply keeps_require|]. intros cap Hcap. destruct (_ <=? _); [by apply keeps_ret|].
  eapply keeps_bind; [apply keeps_require|]. intros local Hlocal.
  eapply keeps_bind; [eauto with keeps|]. intros routing _.
  eapply keeps_bind; [apply keeps_sign|]. intros s [sk Hsig%sign_same_funds]. cbv zeta.
  assert (0 ≤ cap ≤ U64_MAX) as Hb.
  { unfold checked_mul_u64 in Hcap. unfold U64_MAX. zcase_in Hcap; [|done]. injection Hcap as <-. lia. }
  assert (chan_sound (set_lcss s d)) as Hn.
  { eapply resized_sound; [done|done|exact Hb|apply capacity_nonneg, Hs|exact Hlocal|exact Hsig]. }
  set (new := set_lcss _ _).
  assert (chan_sound new)
    by exact (pending_sound _ true (routing_sound _ _ (accepting_sound _ None Hn))).
  eapply keeps_bind; [by apply keeps_save|]. intros _ _.
  eapply keeps_bind; [apply keeps_record_ledger, state_event_id_lacks|].
  { rewrite lacks_app, pretty_lacks; done. }
  intros _ _. unfold send_signed. keeps_auto.
Qed.

(** Every attempt of a read-modify-write that keeps records sound does so, whatever
    the others store between its read and its write. *)
Lemma cas_sound {R} peer (f : ChannelData → result StoreError (ChannelData * R)) n (s : S) :
  (∀ d d' r, f d = Ok (d', r) → chan_sound d → chan_sound d') → store_sound s →
  store_sound (cas_json_loop n (λ _ s, s) (channel_key peer) f s).2.
Proof using HCL HSO LA.
  intros Hf. revert s. induction n as [|n IH]; intros s Hs; [done|]. cbn [cas_json_loop].
  unfold get_json. rewrite shared_get by apply channel_key_ok.
  destruct (view s (channel_key peer)) as [[g v]|] eqn:Hv; [|done]. cbn.
  destruct (from_slice v) as [d|] eqn:Hd; [|done]. cbn.
  destruct (f d) as [[d' r]|] eqn:Hr; [|done].
  assert (chan_sound d') as Hd' by (eapply Hf; [exact Hr|by eapply Hs]).
  destruct (json_roundtrip d') as (b & Hto & Hfrom). unfold update_json. rewrite Hto.
  pose proof (shared_update (channel_key peer) b g s (channel_key_ok peer)) as Hu.
  assert (store_sound (st_update (channel_key peer) b g s).2) as Hs'.
  { eapply store_write_sound; [exact Hu|done|]. intros p x g' v' _ [g'' [= <- <-]] Hx. congruence. }
  destruct (st_update _ _ _ s) as [[u|[]] s']; cbn in *; try done. destruct (1 <? _); [by apply IH|done].
Qed.

Lemma keeps_accept_resize peer o : keeps (accept_resize peer o) (λ _, True).
Proof.
  intros w Hw. split; [|done]. apply channels_sound_store in Hw.
  pose proof (cas_sound peer (λ d, Ok (set_accepting_resize o d, tt)) 10 (w_store w)) as Hc.
  unfold accept_resize, store, lift, m_cas_json, cas_json.
  destruct (cas_json_loop _ _ _ _ _) as [[r|e] s]; cbn in *; (split; [apply channels_sound_store; cbn|by eexists]);
    (apply Hc; [|done]); intros d d' r' [= <- _]; apply accepting_sound.
Qed.

Lemma propose_override_sound C peer o :
  match o with Some b => 0 ≤ b | None => True end → keeps (propose_override C peer o) (λ _, True).
Proof.
  intros Ho. unfold propose_override. eapply keeps_bind; [apply keeps_require_channel|]. intros d Hd.
  destruct (negb _); [apply keeps_fail|]. cbv zeta.
  eapply keeps_bind; [apply keeps_require|]. intros remote Hr. cbn beta in Hr.
  apply checked_sub_u64_some in Hr as [-> Hle].
  eapply keeps_bind; [eauto with keeps|]. intros day _.
  eapply keeps_bind; [apply keeps_sign|]. intros s [sk Hs%sign_same_funds].
  assert (0 ≤ default (local_balance_msat (cd_lcss d)) o) as Hl.
  { destruct o; cbn; [done|]. apply (chs_lcss d Hd). }
  assert (chan_sound (propose "host proposed state override" s d)).
  { eapply propose_sound; [done| | |exact Hs]; [|done]. apply override_state_sound; [done|lia..|].
    apply (chs_lcss d Hd). }
  keeps_auto.
Qed.

(** Parameters within their Rust types. *)
Definition params_typed (p : SetChannelParams) : Prop :=
  match scp_channel_capacity_msat p with Some z => 0 ≤ z ≤ U64_MAX | None => True end ∧
  match scp_initial_client_balance_msat p with Some z => 0 ≤ z | None => True end.

Lemma apply_init_capacity p init :
  ihc_channel_capacity_msat (apply_init_params p init)
  = default (ihc_channel_capacity_msat init) (scp_channel_capacity_msat p).
Proof using HCL. unfold apply_init_params. by destruct (scp_channel_capacity_msat p). Qed.

Lemma set_channel_sound C peer p force : params_typed p → keeps (set_channel C peer p force) (λ _, True).
Proof.
  intros [Hcap Hinit]. unfold set_channel. eapply keeps_bind; [apply keeps_require_channel|]. intros d Hd.
  destruct (SetChannelParams_is_empty p); [keeps_auto|]. cbv zeta.
  do 3 (eapply keeps_bind; [apply keeps_check|intros _ _]).
  eapply keeps_bind; [eauto with keeps|]. intros routing _.
  destruct (affects_lcss p || status_is Overriding d).
  - eapply (keeps_bind _ _ lcss_sound).
    { destruct (status_is Overriding d); [|apply keeps_ret, Hd].
      eapply keeps_weaken; [apply keeps_require|]. intros o Ho. by apply (chs_override d Hd). }
    intros base Hb. do 1 (eapply keeps_bind; [apply keeps_check|intros _ _]).
    eapply keeps_bind; [apply keeps_require|]. intros local Hl. cbn beta in Hl.
    apply checked_sub_u64_some in Hl as [-> Hle].
    do 2 (eapply keeps_bind; [apply keeps_check|intros _ _]).
    eapply keeps_bind; [eauto with keeps|]. intros day _.
    eapply keeps_bind; [apply keeps_sign|]. intros s [sk Hs%sign_same_funds].
    set (reason := "forced channel parameter override").
    assert (chan_sound (propose reason s (set_channel_update_pending true
              (set_routing_policy (Some (apply_routing_params p routing)) d)))).
    { eapply propose_sound; [by apply pending_sound, routing_sound| | |exact Hs]; [|done].
      apply override_state_sound; [lia| |lia|].
      - destruct (scp_initial_client_balance_msat p); cbn; [done|apply Hb].
      - rewrite apply_init_capacity. destruct (scp_channel_capacity_msat p); cbn; [lia|apply Hb]. }
    keeps_auto.
  - do 2 (eapply keeps_bind; [apply keeps_check|intros _ _]).
    assert (chan_sound (set_channel_update_pending true
              (set_routing_policy (Some (apply_routing_params p routing)) d)))
      by (by apply pending_sound, routing_sound).
    keeps_auto.
Qed.

Lemma keeps_list_ok p : key_ok p → keeps (m_list p) (λ cs, ∀ c, c ∈ cs → key_ok c).
Proof.
  intros Hp w Hw. split; [by apply good_refl|]. destruct (shared_list p (w_store w) Hp) as (cs & Hl & Hcs).
  unfold m_list. cbn. rewrite Hl. intros ? [= <-] c (seg & rest & -> & Hk)%Hcs. by eapply key_ok_child.
Qed.

Lemma keeps_remove_channel C peer force : keeps (remove_channel C peer force) (λ _, True).
Proof.
  unfold remove_channel. eapply keeps_bind; [apply keeps_require_channel|]. intros d Hd.
  eapply keeps_bind; [apply keeps_next_state|]. intros n _. destruct (_ && _); [apply keeps_fail|].
  eapply keeps_bind; [apply keeps_lift, keeps_list_ok|].
  { split; [done|]. repeat constructor. by apply pretty_lacks. }
  intros ks Hks. eapply keeps_bind; [apply keeps_for_each; intros k Hk; apply keeps_lift, keeps_delete; auto|].
  intros _ _. keeps_auto.
Qed.

Lemma keeps_set_policy p : keeps (set_policy p) (λ _, True).
Proof.
  assert (off_channels policy_key) by done. unfold set_policy, create_or_overwrite.
  eapply keeps_bind; [apply keeps_attempt, keeps_create_off; auto with keeps|]. intros r _. keeps_auto.
Qed.

Lemma keeps_add_secret secret cap init : keeps (add_secret secret cap init) (λ _, True).
Proof. unfold add_secret. keeps_auto. Qed.

Lemma keeps_remove_secret secret : keeps (remove_secret secret) (λ _, True).
Proof. unfold remove_secret. keeps_auto. Qed.

Lemma keeps_connect C peer : keeps (handle_connect C peer) (λ _, True).
Proof.
  unfold handle_connect. eapply keeps_bind; [eauto with keeps|]. intros _ _.
  eapply keeps_bind; [apply keeps_load|]. intros [d|] _; [|by apply keeps_ret].
  apply (keeps_bind _ _ (λ _, True)); [|intros; keeps_auto]. destruct (_ && _); keeps_auto.
Qed.

Lemma keeps_disconnect peer : keeps (handle_disconnect peer) (λ _, True).
Proof. unfold handle_disconnect. keeps_auto. Qed.

Lemma keeps_ask_branding C files peer m : keeps (handle_ask_branding C files peer m) (λ _, True).
Proof. unfold handle_ask_branding. keeps_auto. Qed.

(** ** The controller as a transition system *)

(** Everything that reaches the controller: messages of peers, events of the
    node, timers and operator commands. *)
Inductive Input : Type :=
| InInvoke (peer : PublicKey) (m : InvokeHostedChannel)
| InStateUpdate (peer : PublicKey) (m : StateUpdate)
| InLcss (peer : PublicKey) (m : LastCrossSignedState)
| InUpdateAdd (peer : PublicKey) (h : UpdateAddHtlc)
| InUpdateFulfill (peer : PublicKey) (m : UpdateFulfillHtlc)
| InUpdateFail (peer : PublicKey) (m : UpdateFailHtlc)
| InUpdateFailMalformed (peer : PublicKey) (m : UpdateFailMalformedHtlc)
| InError (peer : PublicKey) (m : HcError)
| InQueryPreimages (peer : PublicKey) (m : QueryPreimages)
| InReplyPreimages (peer : PublicKey) (m : ReplyPreimages)
| InResize (peer : PublicKey) (m : ResizeChannel)
| InAskBranding (files : string → option (list byte)) (peer : PublicKey) (m : AskBrandingInfo)
| InHtlcAdd (peer : PublicKey) (h : UpdateAddHtlc) (result_key : string) (scid id : Z)
    (shared_secret : option (list byte)) (upstream_cltv_expiry : option Z)
| InPaymentResult (scid id : Z) (status : PaymentStatus)
| InConnect (peer : PublicKey)
| InDisconnect (peer : PublicKey)
| InRecover
| InDeadlines (now : Z)
| InDirectPayment (peer : PublicKey) (amount : Z) (hash : list byte) (cltv : Z) (secret : option (list byte))
| InProposeOverride (peer : PublicKey) (new_local_balance : option Z)
| InSetChannel (peer : PublicKey) (params : SetChannelParams) (force : bool)
| InAcceptResize (peer : PublicKey) (max_capacity_sat : option Z)
| InRemoveChannel (peer : PublicKey) (force : bool)
| InSetPolicy (policy : ChannelPolicy)
| InAddSecret (secret : string) (capacity_msat initial_balance_msat : Z)
| InRemoveSecret (secret : string).

Definition ignore {A} (m : M ChannelError A) : M ChannelError unit := _ ← m; mret tt.

Definition run_input (C : Controller) (i : Input) : M ChannelError unit :=
  match i with
  | InInvoke peer m => handle_invoke C peer m
  | InStateUpdate peer m => handle_state_update C peer m
  | InLcss peer m => handle_lcss C peer m
  | InUpdateAdd peer h => handle_update_add C peer h
  | InUpdateFulfill peer m => handle_update_fulfill C peer m
  | InUpdateFail peer m => handle_update_fail peer m
  | InUpdateFailMalformed peer m => handle_update_fail_malformed peer m
  | InError peer m => handle_error peer m
  | InQueryPreimages peer m => handle_query_preimages peer m
  | InReplyPreimages peer m => handle_reply_preimages peer m
  | InResize peer m => handle_resize_channel C peer m
  | InAskBranding files peer m => handle_ask_branding C files peer m
  | InHtlcAdd peer h rk scid id ss cltv =>
      channel_handle_htlc_add_with_upstream_expiry C peer h rk scid id ss cltv
  | InPaymentResult scid id status => handle_outgoing_payment_result C scid id status
  | InConnect peer => handle_connect C peer
  | InDisconnect peer => handle_disconnect peer
  | InRecover => recover_committed_htlcs C
  | InDeadlines now => enforce_forward_deadlines_at C now
  | InDirectPayment peer amount hash cltv secret =>
      ignore (send_direct_payment C peer amount hash cltv secret)
  | InProposeOverride peer b => propose_override C peer b
  | InSetChannel peer params force => ignore (set_channel C peer params force)
  | InAcceptResize peer o => accept_resize peer o
  | InRemoveChannel peer force => remove_channel C peer force
  | InSetPolicy policy => set_policy policy
  | InAddSecret secret cap init => add_secret secret cap init
  | InRemoveSecret secret => remove_secret secret
  end.

(** What an input must respect.  Amounts are within their types; a policy offers
    no more than its capacity; and three conditions the code does not check: the
    peer's HTLC ids are fresh, a resize finds no pending updates, and a state the
    host adopts is one it could have signed. *)
Definition admissible (C : Controller) w (i : Input) : Prop :=
  match i with
  | InInvoke _ m => policies_ok C w (inv_secret m)
  | InLcss peer m => adoptable w peer m
  | InUpdateAdd peer h => amount_ok h ∧ fresh_id w peer h
  | InResize peer m => 0 ≤ rc_new_capacity_sat m ∧ ∀ d, channel_at w peer d → cd_uncommitted d = []
  | InHtlcAdd _ h _ _ _ _ _ => amount_ok h
  | InDirectPayment _ amount _ _ _ => 0 ≤ amount
  | InProposeOverride _ o => match o with Some b => 0 ≤ b | None => True end
  | InSetChannel _ params _ => params_typed params
  | _ => True
  end.

(** One input, handled to completion, whatever its outcome. *)
Definition step (C : Controller) w w' : Prop :=
  ∃ i, admissible C w i ∧ w' = (run_input C i w).2.

Lemma step_sound C w w' : step C w w' → channels_sound w → channels_sound w'.
Proof.
  intros (i & Hi & ->) Hw.
  assert (∀ m : M ChannelError unit, keeps m (λ _, True) → channels_sound (m w).2) as Hk
    by (intros m Hm; by eapply keeps_sound).
  destruct i; cbn in Hi |- *.
  - by apply invoke_sound.
  - apply Hk, keeps_state_update_msg.
  - by apply lcss_msg_sound.
  - destruct Hi. by apply update_add_sound.
  - apply Hk, keeps_update_fulfill.
  - apply Hk, keeps_update_fail.
  - apply Hk, keeps_update_malformed.
  - apply Hk, keeps_error.
  - apply Hk, keeps_query.
  - apply Hk, keeps_reply.
  - destruct Hi. by apply resize_sound.
  - apply Hk, keeps_ask_branding.
  - by apply Hk, keeps_htlc_add.
  - apply Hk, keeps_payment_result.
  - apply Hk, keeps_connect.
  - apply Hk, keeps_disconnect.
  - apply Hk, keeps_recover_all.
  - apply Hk, keeps_enforce.
  - apply Hk. eapply keeps_bind; [by apply keeps_send_direct_payment|]. intros. by apply keeps_ret.
  - by apply Hk, propose_override_sound.
  - apply Hk. eapply keeps_bind; [by apply set_channel_sound|]. intros. by apply keeps_ret.
  - apply Hk, keeps_accept_resize.
  - apply Hk, keeps_remove_channel.
  - apply Hk, keeps_set_policy.
  - apply Hk, keeps_add_secret.
  - apply Hk, keeps_remove_secret.
Qed.

Lemma steps_sound C w w' : rtc (step C) w w' → channels_sound w → channels_sound w'.
Proof. induction 1; [done|]. eauto using step_sound. Qed.

End Inv.

(** The same of a write to a store one has to oneself. *)
Lemma wrote_sound {HC : Crypto} {HCL : CryptoLaws} {S V N : Type} {HS : Store S V} {HL : StoreLaws S V}
    {JA : AppJson V} (w : World S V N) k g v w' :
  channels_sound w → wrote w k g v w' →
  (∀ peer d, k = channel_key peer → from_slice v = Ok d → chan_sound d) → good w w'.
Proof.
  intros Hw (s & -> & Hs) Hk. eapply (write_sound w k (λ o, ∃ g, o = Some (g, v))); [|done|].
  - eapply write_done; [reflexivity|by eexists|exact Hs|reflexivity].
  - intros p d g' v' Hp [? [= _ ->]] Hf. by eapply Hk.
Qed.
