(* ===== verification/Contended.v ===== *)
(** * A store among other tasks, and threads on it

    [Contended] is a store that other tasks write to as well, and on which the
    process may be killed: around each write of the handler that runs on it the
    others make a move each, and after a number of writes nothing is written any
    more.  It is a [SharedStore], so what [ChannelInv] proves of a handler, which is
    unchanged, holds on it.

    Any number of handlers over one store, each stopped between its writes while
    the others go on, is then a transition system ([conc]) whose every store is
    sound, wherever the process dies ([conc_never_wedge]). *)
From S2P Require Import Prelude Text Bytes Codecs Crypto ChannelId Config Lcss Wire Sphinx State Store Node Gossip World Ledger ChannelBase ChannelForward ChannelUpdate ChannelOpen ChannelAdmin ChannelSound ChannelInv.
From stdpp Require Import options.
#[local] Open Scope Z_scope.

(** ** A contended store *)
Section Contended.
Context {S V : Type} {HS : Store S V}.
Context (P : S → S → Prop).

(** What the others may do to the store at one moment. *)
Definition Move : Type := { f : S → S | ∀ s, P s (f s) }.

(** What the store holds, the moves to come, and how many writes are left. *)
Record Contended : Type := mkContended {
  co_now : S;
  co_moves : list Move;
  co_left : option nat;
}.

Definition co_turn (c : Contended) : Contended :=
  match co_moves c with
  | [] => c
  | m :: moves => mkContended (`m (co_now c)) moves (co_left c)
  end.

Definition co_write {A} (op : S → A * S) (c : Contended) : A * Contended :=
  let c := co_turn c in
  let '(a, s) := op (co_now c) in
  match co_left c with
  | Some O => (a, c)
  | Some (Datatypes.S n) => (a, co_turn (mkContended s (co_moves c) (Some n)))
  | None => (a, co_turn (mkContended s (co_moves c) None))
  end.

#[global] Instance contended_store : Store Contended V := {|
  st_get k c := st_get k (co_now c);
  st_exists k c := st_exists k (co_now c);
  st_create k v := co_write (st_create k v);
  st_update k v g := co_write (st_update k v g);
  st_delete k := co_write (st_delete k);
  st_list k c := st_list k (co_now c) |}.

Section Laws.
Context {HL : StoreLaws S V}.

#[global] Instance contended_view : StoreView Contended V := λ c k, view (co_now c) k.

Definition co_others (c c' : Contended) : Prop := rtc P (co_now c) (co_now c').

Lemma co_turn_others c : co_others c (co_turn c).
Proof. unfold co_others, co_turn. destruct (co_moves c) as [|[f Hf] ms]; [done|]. by apply rtc_once. Qed.

Lemma co_write_shared {A} (op : S → A * S) k allowed c :
  (∀ s, shared_write eq k allowed s (op s).2) → shared_write co_others k allowed c (co_write op c).2.
Proof.
  intros Hop. unfold co_write. pose proof (co_turn_others c) as H1. specialize (Hop (co_now (co_turn c))).
  destruct (op (co_now (co_turn c))) as [a s]. cbn [snd] in Hop.
  assert (∀ n, shared_write co_others k allowed c (co_turn (mkContended s (co_moves (co_turn c)) n))) as Hs.
  { intros n. pose proof (co_turn_others (mkContended s (co_moves (co_turn c)) n)) as H2.
    destruct Hop as [Heq|s1 s2 o <- Ha Hst <-].
    - apply write_lost. unfold co_others in *. cbn [co_now] in H2. subst s. etrans; [exact H1|exact H2].
    - eapply (write_done _ _ _ _ _ (co_turn c) (mkContended s2 (co_moves (co_turn c)) n)); done. }
  destruct (co_left (co_turn c)) as [[|n]|]; [by apply write_lost|apply Hs|apply Hs].
Qed.

#[global] Instance contended_shared : SharedStore Contended V.
Proof.
  refine {| others := co_others |}.
  - intros k c Hk. exact (shared_get (S := S) k (co_now c) Hk).
  - intros p c Hp. exact (shared_list (S := S) p (co_now c) Hp).
  - intros k v c Hk. apply co_write_shared. intros s. exact (shared_create (S := S) k v s Hk).
  - intros k v g c Hk. apply co_write_shared. intros s. exact (shared_update (S := S) k v g s Hk).
  - intros k c Hk. apply co_write_shared. intros s. exact (shared_delete (S := S) k s Hk).
Defined.

End Laws.
End Contended.
Arguments mkContended {S P}.
Arguments co_now {S P}.
Arguments co_moves {S P}.
Arguments co_left {S P}.
Arguments co_turn {S P}.

(** ** Others that keep channels sound *)
Section Keeping.
Context {HC : Crypto} {S V : Type} {HS : Store S V} {HL : StoreLaws S V} {JA : AppJson V}.

Definition keeping (s s' : S) : Prop := store_sound s → store_sound s'.

#[global] Instance keeping_sound : SoundOthers (Contended keeping) V.
Proof.
  intros c c' Ho Hs. change (store_sound (co_now c')). change (store_sound (co_now c)) in Hs.
  induction Ho as [|s1 s2 s3 H12 _ IH]; [done|]. by apply IH, H12.
Qed.

End Keeping.

(** ** Handlers in threads *)
Section Threads.
#[local] Set Default Proof Using "Type*".
Context {HC : Crypto} {HCL : CryptoLaws} {HO : OnionCrypto} {S V N : Type} {HS : Store S V} {HL : StoreLaws S V}.
Context {HN : NodeActions N} {JA : AppJson V} {LA : AppJsonLaws V}.
Local Notation Move := (Move (S := S) keeping).
Local Notation CW := (World (Contended (S := S) keeping) V N).
Implicit Types (s : S) (w : World S V N).

(** What is handled, how, and under which condition. *)
Context {Act : Type} (exec : Act → CW → CW) (adm : Act → CW → Prop).

(** A world whose store the others share. *)
Definition contend {P : S → S → Prop} (moves : list (Contended.Move P)) (left : option nat) w
    : World (Contended P) V N :=
  mkWorld (mkContended (w_store w) moves left) (w_node w) (w_encodings w) (w_connections w) (w_log w).

(** A handler under way: what it handles, the world it began in, and what it has found in
    the store since, before and after each of its writes.  (Nothing is asked of the
    node and the tables: the world it began in may hold any.) *)
Record Thread : Type := mkThread {
  th_act : Act;
  th_world : World S V N;
  th_moves : list Move;
}.
Definition th_find (m : Move) (t : Thread) : Thread :=
  mkThread (th_act t) (th_world t) (th_moves t ++ [m]).

(** The handler up to its write number [n]. *)
Definition th_begin (n : nat) (t : Thread) : CW := contend (th_moves t) (Some n) (th_world t).
Definition th_run (n : nat) (t : Thread) : CW := exec (th_act t) (th_begin n t).

(** The others have made the store [s] of what it was. *)
Definition finds (m : Move) s : Prop := ∀ s0, `m s0 = s.

(** Threads start, write, look at the store again after a write, and die with the
    process.  The write of a handler is the one it makes when the store is what it
    has found it to be each time, this time [s]. *)
Inductive conc : list Thread * S → list Thread * S → Prop :=
| conc_start ts w a : conc (ts, w_store w) (ts ++ [mkThread a w []], w_store w)
| conc_write ts s k t m n : ts !! k = Some t → length (th_moves t) = (2 * n)%nat → finds m s →
    adm (th_act t) (th_begin (Datatypes.S n) (th_find m t)) →
    co_left (w_store (th_run (Datatypes.S n) (th_find m t))) = Some O →
    conc (ts, s) (<[k := th_find m t]> ts, co_now (w_store (th_run (Datatypes.S n) (th_find m t))))
| conc_look ts s k t m n : ts !! k = Some t → length (th_moves t) = Datatypes.S (2 * n) → finds m s →
    conc (ts, s) (<[k := th_find m t]> ts, s)
| conc_crash ts s : conc (ts, s) ([], s).

(** A sound store can always be found. *)
Definition found s (Hs : store_sound s) : Move :=
  exist (λ f : S → S, ∀ s0, keeping s0 (f s0)) (λ _, s) (λ _ _, Hs).
Lemma found_finds s Hs : finds (found s Hs) s.
Proof using Type. done. Qed.

Hypothesis exec_sound : ∀ a (w : CW), adm a w → channels_sound w → channels_sound (exec a w).

Lemma th_run_sound n t : store_sound (w_store (th_world t)) → adm (th_act t) (th_begin n t) →
  store_sound (co_now (w_store (th_run n t))).
Proof.
  intros Hs Ha. assert (channels_sound (th_begin n t)) as Hw by by apply channels_sound_store.
  pose proof (exec_sound _ _ Ha Hw) as Hr. by apply channels_sound_store in Hr.
Qed.

(** Every thread began in a sound store, and the store is sound. *)
Definition conc_sound (p : list Thread * S) : Prop :=
  Forall (λ t, store_sound (w_store (th_world t))) p.1 ∧ store_sound p.2.

Lemma conc_step_sound p p' : conc p p' → conc_sound p → conc_sound p'.
Proof.
  intros Hc [Ht Hs]. destruct Hc as [ts w a|ts s k t m n Hk _ _ Ha _|ts s k t m n Hk _ _|ts s]; cbn [fst snd] in *.
  - split; [|done]. apply Forall_app. split; [done|by constructor].
  - pose proof (Forall_lookup_1 _ _ _ _ Ht Hk) as Hw. split; [by apply Forall_insert|]. by apply th_run_sound.
  - pose proof (Forall_lookup_1 _ _ _ _ Ht Hk) as Hw. split; [by apply Forall_insert|done].
  - by split.
Qed.

Lemma conc_never_wedge s ts s' peer d g v :
  store_sound s → rtc conc ([], s) (ts, s') →
  view s' (channel_key peer) = Some (g, v) → from_slice v = Ok d →
  funds_ok (cd_lcss d) ∧ total_funds (cd_lcss d) = capacity (cd_lcss d) ∧
  ∃ n, lcss_next (with_uncommitted d) = Ok n ∧ funds_ok n ∧ total_funds n = capacity (cd_lcss d).
Proof.
  intros Hs Hr Hv Hf. assert (conc_sound (ts, s')) as [_ Hs'].
  { assert (conc_sound ([], s)) as H0 by by split. revert H0. clear Hv. revert Hr. generalize (@nil Thread, s), (ts, s').
    induction 1; eauto using conc_step_sound. }
  eapply chan_commits, Hs'; eassumption.
Qed.

End Threads.
