(* ===== verification/Scenario.v ===== *)
(** * A channel of the example cryptography

    One host and one peer over the memory store and the mock node, with the
    example primitives of [Crypto.Toy] and [Sphinx.ToyOnion]: the channel is
    invoked, opened, carries an HTLC and settles it.  The concrete inputs of the
    channel's theorems are states of this run. *)
From S2P Require Import Prelude Text Bytes Codecs Crypto ChannelId Config Lcss Wire Sphinx State Store Json Node Gossip World Ledger ChannelBase ChannelForward ChannelUpdate ChannelOpen ChannelAdmin ChannelSound ChannelInv.
From stdpp Require Import options.
#[local] Open Scope Z_scope.

Module Scenario.
Export Toy ToyOnion Docs.
#[export] Existing Instance ToyJson.json.

Abbreviation W := (World (MemoryStore Doc) Doc MockNode).

Definition host_sk : byte := Byte.x05.
Definition peer : byte := Byte.x09.

(** No secret is required, and clients start with a balance. *)
Definition policy : ChannelPolicy := {|
  cp_channel_capacity_msat := 100000000; cp_initial_client_balance_msat := 40000000;
  cp_max_htlc_value_in_flight_msat := 100000000; cp_htlc_minimum_msat := 1000;
  cp_max_accepted_htlcs := 12; cp_fee_base_msat := 0; cp_fee_proportional_millionths := 1000;
  cp_cltv_expiry_delta := 6 |}.
Definition config : Config :=
  mkConfig policy (mkBranding None None None) false false "" (be_bytes 32 0) "".
Definition host : Controller := mkController Toy.crypto config host_sk host_sk.

Definition start : W := mkWorld ∅ (MockNode_new (Some 1700000000) Byte.x0b 1440 Byte.x05 "regtest") ∅ ∅ [].

Definition run (i : Input) (w : W) : W := (run_input host i w).2.
Definition data_of (w : W) : option ChannelData :=
  match load_channel peer w with (Ok o, _) => o | _ => None end.

Definition data (w : W) : ChannelData := default (new_channel_data policy []) (data_of w).

Lemma data_at w : match data_of w with Some _ => true | None => false end = true → channel_at w peer (data w).
Proof.
  unfold data, data_of. intros H. pose proof (load_channel_cases (HC := Toy.crypto) w peer) as Hl.
  destruct (wview w _) as [[g v]|] eqn:Hv; [|by rewrite Hl in H].
  destruct Hl as [(d & Hf & Hd)|[e Hd]]; rewrite Hd in *; [|done]. cbn. by exists g, v.
Qed.

Definition peer_signs (s : LastCrossSignedState) : list byte :=
  match hosted_sig_hash s with Ok h => sign h peer | Err _ => [] end.

(** What a well-behaved peer answers in a world. *)
Definition open_msg (w : W) : StateUpdate :=
  match data_of w with
  | Some d => mkStateUpdate 10 0 0 (peer_signs (opening_state d (mkStateUpdate 10 0 0 [])))
  | None => mkStateUpdate 0 0 0 []
  end.

Definition commit_msg (w : W) : StateUpdate :=
  match data_of w with
  | Some d =>
      let sm := with_uncommitted d in
      let sig := match lcss_next sm with
                 | Ok n => peer_signs (set_block_day 10 n) | Err _ => [] end in
      mkStateUpdate 10 (next_remote_updates sm) (next_local_updates sm) sig
  | None => mkStateUpdate 0 0 0 []
  end.

Definition preimage : list byte := be_bytes 32 77.
Definition htlc : UpdateAddHtlc :=
  mkUpdateAddHtlc (be_bytes 32 0) 7 2000000 (Toy.digest preimage) 1600 (be_bytes 1366 0) [].

Definition opening : W := run (InInvoke peer (mkInvokeHostedChannel (be_bytes 32 0) [Byte.x01] [])) start.
Definition opened : W := run (InStateUpdate peer (open_msg opening)) opening.
(** The node hands over an HTLC for the peer. *)
Definition added : W := run (InHtlcAdd peer htlc "77/7" 77 7 None (Some 1700)) opened.
Definition carried : W := run (InStateUpdate peer (commit_msg added)) added.
Definition fulfill_msg : UpdateFulfillHtlc :=
  mkUpdateFulfillHtlc (be_bytes 32 0) 1 preimage [].
Definition fulfilled : W := run (InUpdateFulfill peer fulfill_msg) carried.
Definition settled : W := run (InStateUpdate peer (commit_msg fulfilled)) fulfilled.

(** An HTLC of the peer: the host cannot read its onion, and reports that. *)
Definition peer_htlc : UpdateAddHtlc :=
  mkUpdateAddHtlc (be_bytes 32 0) 1 3000000 (Toy.digest (be_bytes 32 78)) 1650 (be_bytes 1366 0) [].
Definition received : W := run (InUpdateAdd peer peer_htlc) settled.
Definition refused : W := run (InStateUpdate peer (commit_msg received)) received.
(** The same, before the host has resolved the HTLC. *)
Definition unresolved : W := (save_channel peer (set_uncommitted [] (data refused)) None refused).2.

(** The states the commitment of a world's pending updates goes through. *)
Definition next_of (w : W) : LastCrossSignedState :=
  match lcss_next (with_uncommitted (data w)) with Ok n => n | Err _ => cd_lcss (data w) end.
Definition signed_of (w : W) : LastCrossSignedState :=
  let s := committed_state (next_of w) (commit_msg w) in
  match lcss_sign (H := Toy.crypto) host_sk s with Ok s => s | Err _ => s end.

(** ** The run is one of the controller *)

Lemma start_sound : channels_sound start.
Proof. intros p d (g & v & Hv & _). exfalso. clear -Hv. change (mem_view ∅ (channel_key (HC := Toy.crypto) p) = Some (g, v)) in Hv. unfold mem_view in Hv. by rewrite lookup_empty in Hv. Qed.

Lemma run_step i w : admissible host w i → step host w (run i w).
Proof. intros Hi. exists i. split; [done|]. reflexivity. Qed.

Lemma policies_start : policies_ok host start [].
Proof.
  intros p w' H. assert ((invoked_policy host [] start).1 = Ok (Some policy)) as Hp by (vm_compute; reflexivity).
  rewrite H in Hp. injection Hp as ->. vm_compute. by repeat split.
Qed.

Lemma opened_steps : rtc (step host) start opened.
Proof.
  unfold opened, opening. repeat (eapply rtc_r; [|apply run_step]); [apply rtc_refl|..]; try exact I.
  exact policies_start.
Qed.

Lemma added_steps : rtc (step host) start added.
Proof. unfold added. eapply rtc_r; [apply opened_steps|apply run_step]. by vm_compute. Qed.

(** The run of the scenario is a run of the controller. *)
Lemma scenario_steps : rtc (step host) start fulfilled.
Proof.
  unfold fulfilled. eapply rtc_r; [|by apply run_step]. unfold carried.
  eapply rtc_r; [apply added_steps|by apply run_step].
Qed.

Lemma opened_sound : channels_sound opened.
Proof. exact (steps_sound host start opened opened_steps start_sound). Qed.
Lemma added_sound : channels_sound added.
Proof. exact (steps_sound host start added added_steps start_sound). Qed.

End Scenario.
