(* ===== verification/ChannelCommit.v ===== *)
(** * What a committed channel state is ([src/channel.rs])

    The theorems on [handle_state_update], [handle_lcss] and the updates the host
    originates: which messages change the signed state of a channel, that the
    new state is signed by both sides, and that it is persisted before the peer
    or another channel can see it. *)
From S2P Require Import Prelude Text Bytes Codecs Crypto ChannelId Config Lcss Wire Sphinx State Store Node Gossip World Ledger ChannelBase ChannelForward ChannelUpdate ChannelOpen ChannelAdmin ChannelSound ChannelInv Scenario.
From stdpp Require Import options.
#[local] Open Scope Z_scope.

Section Commit.
#[local] Set Default Proof Using "Type*".
Context {HC : Crypto} {HCL : CryptoLaws} {HO : OnionCrypto} {S V N : Type}.
Context {HS : Store S V} {HL : StoreLaws S V} {HN : NodeActions N}.
Context {JA : AppJson V} {LA : AppJsonLaws V}.
Local Notation M := (M (S := S) (V := V) (N := N)).
Implicit Types (w : World S V N) (d : ChannelData).

(** ** Computing with a channel that is in the store *)

Lemma require_channel_at w peer d : channel_at w peer d → require_channel peer w = (Ok d, w).
Proof.
  intros (g & v & Hv & Hf). unfold require_channel, load_channel, load_optional, mbind, M_bind, attempt.
  by rewrite (m_get_json_present _ _ _ _ _ (channel_key_ok peer) Hv Hf).
Qed.

Lemma channel_at_inj w peer d1 d2 : channel_at w peer d1 → channel_at w peer d2 → d1 = d2.
Proof. intros (g & v & Hv & Hf) (g' & v' & Hv' & Hf'). simplify_eq. congruence. Qed.

(** Overwriting always succeeds where nothing or a readable record is stored. *)
Lemma overwrite_wrote {A} {J : Json V A} {JL : JsonLaws V A} k (a : A) w : key_ok k →
  (∀ g v, wview w k = Some (g, v) → ∃ a0 : A, from_slice v = Ok a0) →
  ∃ g v w', create_or_overwrite k a w = (Ok tt, w') ∧ from_slice v = Ok a ∧ wrote w k g v w'.
Proof using HL HN.
  intros Hk Hread. unfold create_or_overwrite, attempt, mbind, M_bind, store, lift.
  destruct (wview w k) as [[g v]|] eqn:Hv.
  - destruct (Hread g v eq_refl) as [a0 Hf].
    destruct (m_update_json_current k a w g v Hk Hv) as (v' & w' & Hu & Hf' & Hw).
    exists (wrap64 (g + 1)), v', w'. split; [|done].
    rewrite (m_create_json_exists _ _ _ _ Hk Hv), (m_get_json_present _ _ _ _ _ Hk Hv Hf). cbn. by rewrite Hu.
  - destruct (m_create_json_fresh k a w Hk Hv) as (v & w' & Hc & Hf & Hw).
    exists 0, v, w'. split; [|done]. by rewrite Hc.
Qed.

(** Saving over a channel always succeeds, and it is the write of the record. *)
Lemma save_channel_wrote w peer d0 d : channel_at w peer d0 →
  ∃ g v w', save_channel peer d None w = (Ok tt, w') ∧ from_slice v = Ok d ∧
            wrote w (channel_key peer) g v w'.
Proof.
  intros (g & v & Hv & Hf). apply overwrite_wrote; [apply channel_key_ok|].
  intros g' v' Hv'. simplify_eq. eauto.
Qed.

Lemma wrote_channel_at w w' peer g v d :
  wrote w (channel_key peer) g v w' → from_slice v = Ok d → channel_at w' peer d.
Proof.
  intros Hw Hf. exists g, v. split; [|done].
  by rewrite (wrote_view _ _ _ _ _ _ Hw (channel_key_ok peer)), decide_True.
Qed.

(** A handler that saves the channel first: its log starts with that write. *)
Lemma saves_first {A} w w0 peer d0 d (k : unit → M ChannelError A) (Q : A → Prop) :
  channel_at w peer d0 → channels_sound w → chan_sound d → keeps (k tt) Q → w_log w = w_log w0 →
  ∃ v l, from_slice v = Ok d ∧
    w_log ((save_channel peer d None ≫= k) w).2 = w_log w0 ++ EvPut (channel_key peer) v :: l.
Proof.
  intros Hat Hw Hd Hk Hlog. destruct (save_channel_wrote w peer d0 d Hat) as (g & v & w' & Hs & Hf & Hwr).
  assert (channels_sound w') as Hw'.
  { eapply wrote_sound; [exact Hw|exact Hwr|]. intros p d' Hp Hfd. congruence. }
  destruct (Hk w' Hw') as [[_ [l Hl]] _]. exists v, l. split; [done|].
  unfold mbind, M_bind. rewrite Hs, Hl, (wrote_log _ _ _ _ _ Hwr), Hlog, <-app_assoc. done.
Qed.

(** The height is asked of the node and changes nothing else. *)
Lemma current_block_day_run w height :
  (n_get_block_height (w_node w)).1 = Ok height →
  ∃ w', current_block_day w = (Ok (height `div` 144), w') ∧ w_store w' = w_store w ∧ w_log w' = w_log w.
Proof using Type.
  intros Hh. unfold current_block_day, mbind, M_bind, node, lift, get_block_height, node_call.
  destruct (n_get_block_height (w_node w)) as [r n]. cbn in Hh. subst r.
  eexists. split; [reflexivity|]. cbn. by rewrite app_nil_r.
Qed.

Lemma same_store_at w w' peer d : w_store w' = w_store w → channel_at w peer d → channel_at w' peer d.
Proof. intros Hs (g & v & Hv & Hf). exists g, v. split; [|done]. unfold wview in *. by rewrite Hs. Qed.

(** ** [state_update] *)

(** The record an accepted override leaves. *)
Definition overridden d (s : LastCrossSignedState) : ChannelData := {|
  cd_lcss := s; cd_uncommitted := []; cd_local_errors := []; cd_remote_errors := [];
  cd_suspended := false; cd_proposed_override := None;
  cd_last_refund_scriptpubkey := cd_last_refund_scriptpubkey d; cd_established := true;
  cd_accepting_resize_sat := cd_accepting_resize_sat d;
  cd_routing_policy := cd_routing_policy d;
  cd_channel_update_pending := cd_channel_update_pending d |}.

(** The contract of [handle_state_update]: the three ways a signature of the peer
    moves a channel to its next record, on the day [day]. *)
Inductive accepts (C : Controller) (day : Z) (peer : PublicKey) d (m : StateUpdate) : ChannelData → Prop :=
| accepts_opening s :
    derive_status d = Opening →
    abs_diff_u32 (su_block_day m) day ≤ 1 →
    verify_remote_sig (opening_state d m) peer = true →
    lcss_sign (ctl_node_secret C) (opening_state d m) = Ok s →
    accepts C day peer d m (set_established true (set_lcss s d))
| accepts_commit n s :
    derive_status d = Active →
    cd_uncommitted d ≠ [] →
    su_local_updates m = next_remote_updates (with_uncommitted d) →
    su_remote_updates m = next_local_updates (with_uncommitted d) →
    su_block_day m = day →
    lcss_next (with_uncommitted d) = Ok n →
    verify_remote_sig (committed_state n m) peer = true →
    lcss_sign (ctl_node_secret C) (committed_state n m) = Ok s →
    accepts C day peer d m (set_uncommitted [] (set_lcss s d))
| accepts_override o s :
    derive_status d = Overriding →
    cd_proposed_override d = Some o →
    su_local_updates m = remote_updates o →
    su_remote_updates m = local_updates o →
    su_block_day m = day →
    verify_remote_sig (set_remote_sig (su_local_sig_of_remote m) o) peer = true →
    lcss_sign (ctl_node_secret C) (set_remote_sig (su_local_sig_of_remote m) o) = Ok s →
    accepts C day peer d m (overridden d s).

(** What a run of the handler from [w] ends in. *)
Definition commits_or_ignores C day peer d m w w' : Prop :=
  (∃ d' v l, accepts C day peer d m d' ∧ from_slice v = Ok d' ∧
             w_log w' = w_log w ++ EvPut (channel_key peer) v :: l) ∨
  ((∀ d', ¬ accepts C day peer d m d') ∧ w_store w' = w_store w ∧ w_log w' = w_log w).

(** A guard that fails: the message is ignored. *)
Ltac ignored :=
  right; split; [|done]; inversion 1; simplify_eq; first [congruence | lia].

Lemma commits_by_saving C day peer d m d' w w1 (k : unit → M ChannelError unit) :
  channel_at w peer d → channels_sound w → w_store w1 = w_store w → w_log w1 = w_log w →
  accepts C day peer d m d' → chan_sound d' → keeps (k tt) (λ _, True) →
  commits_or_ignores C day peer d m w ((save_channel peer d' None ≫= k) w1).2.
Proof.
  intros Hat Hw Hstore Hlog Ha Hd Hk. left. destruct (saves_first w1 w peer d d' k (λ _, True)) as (v & l & Hf & Hl);
    [by eapply same_store_at|by eapply same_store_sound|done..|]. by exists d', v, l.
Qed.

Lemma opening_commits C height peer d m w :
  channels_sound w → channel_at w peer d → derive_status d = Opening →
  (n_get_block_height (w_node w)).1 = Ok height →
  commits_or_ignores C (height `div` 144) peer d m w (handle_opening_state_update C peer d m w).2.
Proof.
  intros Hw Hat Hst (w1 & Hday & Hstore & Hlog)%current_block_day_run.
  assert (cd_established d = false) as He
    by (unfold derive_status in Hst; repeat case_match; done || by apply negb_true_iff).
  unfold handle_opening_state_update. unfold mbind at 1, M_bind at 1. rewrite Hday.
  destruct (Z.ltb_spec 1 (abs_diff_u32 (su_block_day m) (height `div` 144))).
  { ignored. }
  destruct (verify_remote_sig _ _) eqn:Hv; cbn [negb].
  2: ignored.
  unfold mbind at 1, M_bind at 1, sign_state at 1, encoded, of_result.
  destruct (lcss_sign _ _) as [s|] eqn:Hs; cbn.
  2: ignored.
  eapply (commits_by_saving C _ peer d m _ w w1);
    [done..|by apply accepts_opening|
     by apply (opening_sound d s m (Hw _ _ Hat) He), (sign_same_funds _ _ _ Hs)|].
  apply keeps_opening_effects.
Qed.

Lemma active_commits C height peer d m w :
  channels_sound w → channel_at w peer d → derive_status d = Active →
  (n_get_block_height (w_node w)).1 = Ok height →
  commits_or_ignores C (height `div` 144) peer d m w (handle_active_state_update C peer d m w).2.
Proof.
  intros Hw Hat Hst Hh. assert (cd_established d = true) as He
    by (apply active_established; unfold status_is; by rewrite Hst).
  pose proof (sound_deduplicated d (Hw _ _ Hat)) as Hdd.
  unfold handle_active_state_update, repair_duplicate_uncommitted_resolutions.
  rewrite Hdd, Z.eqb_refl. unfold mbind at 1, M_bind at 1. cbn [negb mret M_ret].
  destruct (cd_uncommitted d) as [|u us] eqn:Hus; cbn [is_empty].
  { ignored. }
  rewrite <-Hus in *. destruct (counters_match d m) eqn:Hc; cbn [negb].
  2: { right. split; [|done]. apply andb_false_iff in Hc. rewrite !Z.eqb_neq in Hc.
       inversion 1; simplify_eq; try congruence. destruct Hc; congruence. }
  apply andb_true_iff in Hc as [Hc1%Z.eqb_eq Hc2%Z.eqb_eq].
  apply current_block_day_run in Hh as (w1 & Hday & Hstore & Hlog).
  unfold mbind at 1, M_bind at 1. rewrite Hday.
  destruct (Z.eqb_spec (su_block_day m) (height `div` 144)); cbn [negb].
  2: ignored.
  unfold mbind at 1, M_bind at 1, next_state at 1, of_result.
  destruct (lcss_next (with_uncommitted d)) as [n|] eqn:Hn; cbn [map_err].
  2: ignored.
  cbv zeta. destruct (verify_remote_sig (committed_state n m) peer) eqn:Hv; cbn [negb].
  2: ignored.
  unfold mbind at 1, M_bind at 1, sign_state at 1, encoded, of_result.
  destruct (lcss_sign _ _) as [s|] eqn:Hs; cbn [map_err].
  2: ignored.
  eapply (commits_by_saving C _ peer d m _ w w1); [done..| | |].
  - eapply (accepts_commit _ _ _ _ _ n s); congruence.
  - eapply committed_sound; [by apply (Hw _ _ Hat)|done|exact Hn|].
    eapply same_funds_trans; [|by eapply sign_same_funds]. by repeat split.
  - apply keeps_commit_effects.
Qed.

Lemma override_commits C height peer d m w :
  channels_sound w → channel_at w peer d → derive_status d = Overriding →
  (n_get_block_height (w_node w)).1 = Ok height →
  commits_or_ignores C (height `div` 144) peer d m w (handle_override_acceptance C peer d m w).2.
Proof.
  intros Hw Hat Hst Hh. unfold handle_override_acceptance. unfold mbind at 1, M_bind at 1.
  destruct (cd_proposed_override d) as [o|] eqn:Ho; cbn [require fail mret M_ret]; [|ignored].
  destruct ((su_local_updates m =? _) && (su_remote_updates m =? _)) eqn:Hc; cbn [negb].
  2: { right. split; [|done]. apply andb_false_iff in Hc. rewrite !Z.eqb_neq in Hc.
       inversion 1; simplify_eq; try congruence. destruct Hc; congruence. }
  apply andb_true_iff in Hc as [Hc1%Z.eqb_eq Hc2%Z.eqb_eq].
  apply current_block_day_run in Hh as (w1 & Hday & Hstore & Hlog).
  unfold mbind at 1, M_bind at 1. rewrite Hday.
  destruct (Z.eqb_spec (su_block_day m) (height `div` 144)); cbn [negb]; [|ignored].
  cbv zeta. destruct (verify_remote_sig _ peer) eqn:Hv; cbn [negb]; [|ignored].
  unfold mbind at 1, M_bind at 1, sign_state at 1, encoded, of_result.
  destruct (lcss_sign _ _) as [s|] eqn:Hs; cbn [map_err]; [|ignored].
  eapply (commits_by_saving C _ peer d m _ w w1); [done..| | |].
  - by eapply (accepts_override _ _ _ _ _ o s).
  - eapply accepted_override_sound; [by apply (Hw _ _ Hat)|exact Ho|exact (sign_same_funds _ _ _ Hs)].
  - apply keeps_override_effects.
Qed.

(** C4. A [state_update] moves the channel exactly when the contract [accepts]
    allows it: then the first effect on the world is that the accepted record is
    persisted, before the host's signature, a ledger event or a forward leaves;
    otherwise nothing is written or sent at all. *)
Theorem state_update_contract C height peer d m w :
  channels_sound w → channel_at w peer d → (n_get_block_height (w_node w)).1 = Ok height →
  commits_or_ignores C (height `div` 144) peer d m w (handle_state_update C peer m w).2.
Proof.
  intros Hw Hat Hh. unfold handle_state_update. unfold mbind at 1, M_bind at 1.
  rewrite (require_channel_at _ _ _ Hat). destruct (derive_status d) eqn:Hst;
    [ignored|by apply opening_commits|by apply active_commits|ignored|by apply override_commits|ignored].
Qed.

Lemma signed_both C peer s0 s : lcss_sign (ctl_node_secret C) s0 = Ok s →
  verify_remote_sig s0 peer = true →
  verify_remote_sig s peer = true ∧
  verify_remote_sig (lcss_reverse s) (pk_from_secret_key (ctl_node_secret C)) = true.
Proof.
  intros Hs Hv. split; [|by eapply lcss_sign_verifies].
  apply lcss_sign_ok in Hs as (h & _ & ->). exact Hv.
Qed.

Lemma accepts_signed C day peer d m d' : accepts C day peer d m d' →
  verify_remote_sig (cd_lcss d') peer = true ∧
  verify_remote_sig (lcss_reverse (cd_lcss d')) (pk_from_secret_key (ctl_node_secret C)) = true.
Proof. destruct 1; cbn; by eapply signed_both. Qed.

Lemma opening_not_established d : derive_status d = Opening → cd_established d = false.
Proof. unfold derive_status. intros Hst. repeat case_match; done || by apply negb_true_iff. Qed.

Lemma accepts_sound C day peer d m d' : chan_sound d → accepts C day peer d m d' → chan_sound d'.
Proof.
  intros Hd. destruct 1 as [s Hst _ _ Hs|n s Hst _ _ _ _ Hn _ Hs|o s _ Ho _ _ _ _ Hs].
  - apply (opening_sound d s m); [done|by apply opening_not_established|exact (sign_same_funds _ _ _ Hs)].
  - eapply committed_sound; [done| |exact Hn|].
    + apply active_established. unfold status_is. by rewrite Hst.
    + eapply same_funds_trans; [|by eapply sign_same_funds]. by repeat split.
  - eapply accepted_override_sound; [done|exact Ho|exact (sign_same_funds _ _ _ Hs)].
Qed.

(** C6. Every record a [state_update] leads to carries both signatures, the
    peer's on the host's view and the host's on the peer's view, and divides
    exactly the channel's capacity between balances and HTLCs; both sides can
    compute the next state from it. *)
Theorem accepted_is_cross_signed C day peer d m d' :
  chan_sound d → accepts C day peer d m d' → pk_from_secret_key (ctl_node_secret C) = ctl_node_public C →
  verify_remote_sig (cd_lcss d') peer = true ∧
  verify_remote_sig (lcss_reverse (cd_lcss d')) (ctl_node_public C) = true ∧
  lcss_sound (cd_lcss d') ∧ ∃ n, lcss_next (with_uncommitted d') = Ok n.
Proof.
  intros Hd Ha <-. destruct (accepts_signed _ _ _ _ _ _ Ha) as [Hp Hh].
  pose proof (accepts_sound _ _ _ _ _ _ Hd Ha) as Hd'. destruct (chs_folds d' Hd') as [t Ht].
  split_and!; [done|done|apply (chs_lcss d' Hd')|by eapply folded_next].
Qed.

(** ** [last_cross_signed_state] *)

(** Calls that leave the store alone: messages to the peer. *)
Definition quiet {E A} (m : M E A) : Prop := ∀ w, w_store (m w).2 = w_store w.

Lemma quiet_bind {E A B} (m : M E A) (f : A → M E B) : quiet m → (∀ a, quiet (f a)) → quiet (m ≫= f).
Proof.
  intros Hm Hf w. unfold mbind, M_bind. specialize (Hm w). destruct (m w) as [[a|e] w']; cbn in *; [|done].
  by rewrite Hf.
Qed.

Lemma quiet_node_call {A} (op : N → result NodeError A * N) evs : quiet (node (node_call op evs)).
Proof. intros w. unfold node, lift, node_call. by destruct (op (w_node w)) as [[] ?]. Qed.

Lemma quiet_send peer m : quiet (send_message peer m).
Proof.
  unfold send_message, send_message_with_encoding. apply quiet_bind; [done|]. intros enc.
  apply quiet_bind; [done|]. intros bytes. apply quiet_node_call.
Qed.

Lemma save_then {A} w peer d0 d (k : unit → M ChannelError A) : channel_at w peer d0 → quiet (k tt) →
  channel_at ((save_channel peer d None ≫= k) w).2 peer d.
Proof.
  intros Hat Hk. destruct (save_channel_wrote w peer d0 d Hat) as (g & v & w' & Hs & Hf & Hwr).
  unfold mbind, M_bind. rewrite Hs. eapply same_store_at; [apply Hk|]. by eapply wrote_channel_at.
Qed.

(** Both parties signed the peer's state. *)
Definition cross_signed (C : Controller) (peer : PublicKey) (m : LastCrossSignedState) : Prop :=
  verify_remote_sig m (ctl_node_public C) = true ∧ verify_remote_sig (lcss_reverse m) peer = true.

(** No counter went back, and one advanced. *)
Definition newer (s t : LastCrossSignedState) : Prop :=
  local_updates s ≤ local_updates t ∧ remote_updates s ≤ remote_updates t ∧
  (local_updates s ≠ local_updates t ∨ remote_updates s ≠ remote_updates t).

Lemma reconcile_behind s t : reconcile s t = HostBehind ↔ newer s t.
Proof.
  unfold reconcile, newer.
  destruct (Z.ltb_spec (local_updates t) (local_updates s)),
    (Z.ltb_spec (remote_updates t) (remote_updates s)); cbn; try (split; [done|lia]).
  destruct (Z.eqb_spec (local_updates t) (local_updates s)),
    (Z.eqb_spec (remote_updates t) (remote_updates s)); cbn; (split; [done || lia|]); intros; done || lia.
Qed.

(** C7. A peer's [last_cross_signed_state] replaces the host's state exactly when
    both parties signed it and it is newer, and then every pending update is
    dropped; a state that is not signed by both leaves the channel errored, and
    an older or equal one leaves it untouched.  The state never goes back. *)
Theorem lcss_adoption C peer d m w :
  channel_at w peer d →
  ∃ d', channel_at (handle_lcss C peer m w).2 peer d' ∧
    (cross_signed C peer m → newer (cd_lcss d) (lcss_reverse m) →
       d' = set_uncommitted [] (set_lcss (lcss_reverse m) d)) ∧
    (cross_signed C peer m → ¬ newer (cd_lcss d) (lcss_reverse m) → d' = d) ∧
    (¬ cross_signed C peer m →
       ∃ e, d' = set_errors (cd_local_errors d ++ [e]) (cd_remote_errors d) d).
Proof.
  intros Hat. unfold handle_lcss, cross_signed. unfold mbind at 1, M_bind at 1.
  rewrite (require_channel_at _ _ _ Hat).
  destruct (verify_remote_sig m (ctl_node_public C)) eqn:Hh; cbn [negb].
  2: { eexists. split; [eapply save_then; [exact Hat|]; apply quiet_bind; [apply quiet_send|done]|].
       split_and!; [by intros []..|by eexists]. }
  cbv zeta. destruct (verify_remote_sig (lcss_reverse m) peer) eqn:Hp; cbn [negb].
  2: { eexists. split; [by eapply save_then|]. split_and!; [by intros []..|by eexists]. }
  destruct (reconcile (cd_lcss d) (lcss_reverse m)) eqn:Hr.
  3: { apply reconcile_behind in Hr. eexists. split; [eapply save_then; [done|apply quiet_send]|].
       split_and!; [done|done|naive_solver]. }
  all: exists d; split; [eapply same_store_at; [apply quiet_send|done]|];
    split_and!; [intros _ Hn%reconcile_behind; congruence|done|naive_solver].
Qed.

(** ** Updates of the host *)

(** The peer, computing from its mirror of [d], accepts the signature of [su]. *)
Definition peer_accepts (C : Controller) d (su : StateUpdate) : Prop :=
  su_local_updates su = next_remote_updates (mirror (with_uncommitted d)) ∧
  su_remote_updates su = next_local_updates (mirror (with_uncommitted d)) ∧
  ∃ p, lcss_next (mirror (with_uncommitted d)) = Ok p ∧
       verify_remote_sig (committed_state p su) (pk_from_secret_key (ctl_node_secret C)) = true.

(** Nothing was written or sent. *)
Definition untouched w w' : Prop :=
  w_store w' = w_store w ∧ w_log w' = w_log w ∧ w_encodings w' = w_encodings w.

Lemma signed_update_accepted C d n day s su :
  lcss_next (with_uncommitted d) = Ok n → lcss_sign (ctl_node_secret C) (set_block_day day n) = Ok s →
  su = mkStateUpdate (block_day s) (local_updates s) (remote_updates s) (local_sig_of_remote s) →
  peer_accepts C d su.
Proof.
  intros Hn Hs ->. pose proof (lcss_sign_verifies _ _ _ Hs) as Hv.
  apply lcss_sign_ok in Hs as (h & _ & ->). pose proof (lcss_next_mirror_eq (with_uncommitted d)) as Hm.
  rewrite Hn in Hm. destruct (count_updates_mirror (cd_uncommitted d)) as [Hc1 Hc2].
  apply lcss_next_inv in Hn as (t & Ht & ->). unfold peer_accepts; cbn.
  split_and!; [unfold next_remote_updates; cbn; by rewrite Hc2|unfold next_local_updates; cbn; by rewrite Hc1|].
  eexists. split; [exact Hm|]. exact Hv.
Qed.

Lemma current_block_day_untouched w : untouched w (current_block_day w).2.
Proof.
  unfold current_block_day, mbind, M_bind, node, lift, get_block_height, node_call, untouched.
  destruct (n_get_block_height (w_node w)) as [[h|] nd]; cbn; by rewrite app_nil_r.
Qed.

Lemma state_update_run C d w :
  untouched w (state_update_for_uncommitted C d w).2 ∧
  ∀ su, (state_update_for_uncommitted C d w).1 = Ok su → peer_accepts C d su.
Proof.
  unfold state_update_for_uncommitted, mbind, M_bind, next_state, of_result.
  destruct (lcss_next (with_uncommitted d)) as [n|] eqn:Hn; cbn [map_err]; [|by split].
  pose proof (current_block_day_untouched w) as Hu.
  destruct (current_block_day w) as [[day|e] w']; cbn in Hu; [|by split].
  unfold sign_state, encoded, of_result.
  destruct (lcss_sign _ _) as [s|] eqn:Hs; cbn; [|by split]. split; [done|].
  intros su [= <-]. by eapply signed_update_accepted.
Qed.

(** What announcing [p] with [msg] does, by its result: the pending update is
    persisted, then its message leaves, then a signed next state that the peer
    accepts; a failure stops the sequence where it occurs. *)
Inductive announced (C : Controller) peer d (p : PendingUpdate) (msg : HostedMessage) (enc : WireEncoding)
    : result ChannelError unit → list (Event V) → Prop :=
| announced_nothing e : announced C peer d p msg enc (Err e) []
| announced_saved v e :
    from_slice v = Ok (push_uncommitted (ULocal p) d) →
    announced C peer d p msg enc (Err e) [EvPut (channel_key peer) v]
| announced_update v b e :
    from_slice v = Ok (push_uncommitted (ULocal p) d) → encode_with_encoding enc msg = Ok b →
    announced C peer d p msg enc (Err e) [EvPut (channel_key peer) v; EvSend peer b]
| announced_signed v b su b' :
    from_slice v = Ok (push_uncommitted (ULocal p) d) → encode_with_encoding enc msg = Ok b →
    peer_accepts C (push_uncommitted (ULocal p) d) su →
    encode_with_encoding enc (MStateUpdate su) = Ok b' →
    announced C peer d p msg enc (Ok tt)
      [EvPut (channel_key peer) v; EvSend peer b; EvSend peer b'].

(** The run adds to the log what announcing does, or nothing when the HTLC is
    not there to be resolved. *)
Definition announces (C : Controller) peer d p id msg w (run : result ChannelError unit * World S V N) : Prop :=
  if has_htlc (incoming_htlcs (cd_lcss d)) id then
    ∃ l, w_log run.2 = w_log w ++ l ∧
         announced C peer d p msg (default Strict (w_encodings w !! peer)) run.1 l
  else run = (Ok tt, w).

Lemma send_message_run peer msg w :
  w_encodings (send_message peer msg w).2 = w_encodings w ∧
  ((∃ b, encode_with_encoding (default Strict (w_encodings w !! peer)) msg = Ok b ∧
         (send_message peer msg w).1 = Ok tt ∧
         w_log (send_message peer msg w).2 = w_log w ++ [EvSend peer b]) ∨
   (w_log (send_message peer msg w).2 = w_log w ∧ ∃ e, (send_message peer msg w).1 = Err e)).
Proof.
  unfold send_message, send_message_with_encoding, mbind, M_bind, peer_wire_encoding, encoded, of_result.
  destruct (encode_with_encoding _ msg) as [b|e]; cbn; [|split; [done|right; by split; [|eexists]]].
  unfold node, lift, send_custom_msg, node_call.
  destruct (n_send_custom_msg peer b (w_node w)) as [[[]|e] n]; cbn; (split; [done|]); [left; by exists b|].
  right. rewrite app_nil_r. by split; [|eexists].
Qed.

Lemma announcing C peer d p id msg w :
  channel_at w peer d →
  announces C peer d p id msg w
    ((if negb (has_htlc (incoming_htlcs (cd_lcss d)) id) then mret tt else
      su ← state_update_for_uncommitted C (push_uncommitted (ULocal p) d);
      _ ← save_channel peer (push_uncommitted (ULocal p) d) None;
      _ ← send_message peer msg;
      send_message peer (MStateUpdate su)) w).
Proof.
  intros Hat. destruct (has_htlc _ id) eqn:Hh; cbn [negb]; [|by unfold announces; rewrite Hh].
  unfold mbind at 1, M_bind at 1.
  destruct (state_update_run C (push_uncommitted (ULocal p) d) w) as [(Hs & Hl & He) Hsu].
  destruct (state_update_for_uncommitted _ _ w) as [[su|e] w1]; cbn in Hs, Hl, He; unfold announces; rewrite Hh.
  2: { exists []. rewrite app_nil_r. split; [done|constructor]. }
  specialize (Hsu su eq_refl). unfold mbind, M_bind.
  destruct (save_channel_wrote w1 peer d (push_uncommitted (ULocal p) d)) as (g & v & w2 & -> & Hf & Hw);
    [by eapply same_store_at|].
  pose proof (wrote_log _ _ _ _ _ Hw) as Hl2. destruct (wrote_maps _ _ _ _ _ Hw) as [He2 _].
  rewrite Hl in Hl2. rewrite He in He2.
  destruct (send_message_run peer msg w2) as [He3 Hsend].
  destruct (send_message peer msg w2) as [r w3]. cbn in He3, Hsend. rewrite He2 in He3, Hsend.
  destruct Hsend as [(b & Hb & -> & Hl3)|(Hl3 & e & ->)]; rewrite Hl2 in Hl3.
  2: { eexists. cbn. split; [exact Hl3|by constructor]. }
  destruct (send_message_run peer (MStateUpdate su) w3) as [_ [(b' & Hb' & -> & ->)|(-> & e & ->)]];
    rewrite Hl3, <-?app_assoc; eexists; (split; [done|]); [rewrite He3 in Hb'|]; by econstructor.
Qed.

(** C9. When the host resolves an HTLC of the peer (fulfils it, fails it, or
    reports a malformed onion), the pending update is persisted before anything
    leaves; then the update and the signature of the next state are sent, in that
    order, and the peer, who computes that state from its own mirror of the
    channel, accepts the counters and the signature.  A failure stops the
    sequence, and a resolution of an HTLC that is not in the channel does nothing. *)
Theorem local_resolution_trace C peer d w link id preimage reason hash code :
  channel_at w peer d →
  announces C peer d (PFulfill (my_channel_id C peer) (fl_incoming_htlc_id link) preimage)
    (fl_incoming_htlc_id link)
    (MUpdateFulfillHtlc (mkUpdateFulfillHtlc (my_channel_id C peer) (fl_incoming_htlc_id link) preimage []))
    w (send_local_fulfill C peer link preimage w) ∧
  announces C peer d (PFail (my_channel_id C peer) id reason) id
    (MUpdateFailHtlc (mkUpdateFailHtlc (my_channel_id C peer) id reason []))
    w (send_local_fail_for_htlc C peer id reason w) ∧
  announces C peer d (PFailMalformed (my_channel_id C peer) id hash code) id
    (MUpdateFailMalformedHtlc (mkUpdateFailMalformedHtlc (my_channel_id C peer) id hash code []))
    w (send_local_fail_malformed_for_htlc C peer id hash code w).
Proof.
  intros Hat. pose proof (require_channel_at _ _ _ Hat) as Hr.
  split_and!; [unfold send_local_fulfill|unfold send_local_fail_for_htlc|
               unfold send_local_fail_malformed_for_htlc];
    unfold mbind at 1, M_bind at 1; rewrite Hr; by apply announcing.
Qed.

End Commit.

Module CommitExamples.
Import Scenario.

Lemma added_at : channel_at added peer (data added).
Proof. apply data_at. vm_compute. reflexivity. Qed.
Lemma opened_at : channel_at opened peer (data opened).
Proof. apply data_at. vm_compute. reflexivity. Qed.
Lemma unresolved_at : channel_at unresolved peer (data unresolved).
Proof. apply data_at. vm_compute. reflexivity. Qed.

(** The record the peer's answer to the add leads to. *)
Definition committed_record : ChannelData := set_uncommitted [] (set_lcss (signed_of added) (data added)).

Lemma added_accepts : accepts host 10 peer (data added) (commit_msg added) committed_record.
Proof.
  unfold committed_record.
  apply (accepts_commit _ _ _ _ _ (next_of added)); try (vm_compute; reflexivity).
  vm_compute. discriminate.
Qed.

Lemma state_update_contract_witness :
  accepts host 10 peer (data added) (commit_msg added) committed_record ∧
  commits_or_ignores host (1440 `div` 144) peer (data added) (commit_msg added) added
    (handle_state_update host peer (commit_msg added) added).2.
Proof.
  split; [exact added_accepts|].
  apply (state_update_contract host 1440 peer (data added) (commit_msg added) added);
    [exact added_sound|exact added_at|vm_compute; reflexivity].
Defined.

Lemma accepted_is_cross_signed_witness :
  verify_remote_sig (H := Toy.crypto) (cd_lcss committed_record) peer = true ∧
  ∃ n, lcss_next (with_uncommitted committed_record) = Ok n.
Proof.
  destruct (accepted_is_cross_signed host 10 peer (data added) (commit_msg added) committed_record)
    as (Hp & _ & _ & Hn);
    [exact (added_sound _ _ added_at)|exact added_accepts|vm_compute; reflexivity|].
  split; [exact Hp|exact Hn].
Defined.

(** A host that has lost the commitment of the add learns it from the peer. *)
Lemma lcss_adoption_witness :
  ∃ d', channel_at (handle_lcss host peer (lcss_reverse (cd_lcss (data carried))) opened).2 peer d' ∧
        local_updates (cd_lcss d') = 1.
Proof.
  destruct (lcss_adoption host peer (data opened) (lcss_reverse (cd_lcss (data carried))) opened opened_at)
    as (d' & Hat & Hadopt & _).
  exists d'. split; [exact Hat|]. rewrite Hadopt; [vm_compute; reflexivity| |].
  - split; vm_compute; reflexivity.
  - vm_compute. split; [discriminate|]. split; [discriminate|]. left. discriminate.
Defined.

Lemma local_resolution_trace_witness :
  announces host peer (data unresolved) (PFail (my_channel_id host peer) 1 [Byte.x20]) 1
    (MUpdateFailHtlc (mkUpdateFailHtlc (my_channel_id host peer) 1 [Byte.x20] []))
    unresolved (send_local_fail_for_htlc host peer 1 [Byte.x20] unresolved) ∧
  (send_local_fail_for_htlc host peer 1 [Byte.x20] unresolved).1 = Ok tt.
Proof.
  split; [|vm_compute; reflexivity].
  destruct (local_resolution_trace host peer (data unresolved) unresolved
    (mkForwardLink 0 1 0 1 None None [] None) 1 [] [Byte.x20] [] 0 unresolved_at) as (_ & Hfail & _).
  exact Hfail.
Defined.

End CommitExamples.
