(* ===== verification/ChannelAdd.v ===== *)
(** * Adding an HTLC to a channel ([src/channel.rs])

    The contract of [channel_handle_htlc_add_with_upstream_expiry]: what the host
    promises when it puts an HTLC on a hosted channel.  The proofs follow the
    stored record of one channel through a handler. *)
From S2P Require Import Prelude Text Bytes Codecs Crypto ChannelId Config Lcss Wire Sphinx State Store Node Gossip World Ledger ChannelBase ChannelForward ChannelUpdate ChannelOpen ChannelAdmin ChannelSound ChannelInv Scenario ChannelCommit.
From stdpp Require Import options.
#[local] Open Scope Z_scope.

Section Add.
#[local] Set Default Proof Using "Type*".
Context {HC : Crypto} {HCL : CryptoLaws} {HO : OnionCrypto} {S V N : Type}.
Context {HS : Store S V} {HL : StoreLaws S V} {HN : NodeActions N}.
Context {JA : AppJson V} {LA : AppJsonLaws V}.
Local Notation M := (M (S := S) (V := V) (N := N)).
Implicit Types (w : World S V N) (d : ChannelData).

(** ** Following a run *)





(** A call that leaves the record of a channel alone. *)
Definition frames {E A} (peer : PublicKey) (m : M E A) : Prop :=
  ∀ w d, channel_at w peer d → channel_at (m w).2 peer d.

Lemma quiet_frames {E A} peer (m : M E A) : quiet m → frames peer m.
Proof. intros Hq w d. by apply same_store_at. Qed.





(** ** Quiet calls *)

Lemma quiet_ret {E A} (a : A) : quiet (mret (M := M E) a).
Proof. done. Qed.





(** ** The terms of an add *)





(** ** Delivery *)



Section Offer.
Context (C : Controller) (peer : PublicKey) (d : ChannelData) (h : UpdateAddHtlc) (a b : Z)
  (ss : option (list byte)) (upstream : option Z) (w0 : World S V N).








End Offer.

(** ** The handler *)









End Add.

Module AddExamples.
Import Scenario.


End AddExamples.
