(* ===== verification/ChannelSafety.v ===== *)
(** * What the channel layer guarantees ([src/channel.rs])

    The safety of a channel over whole runs of the controller, the decision table
    of an added HTLC, and the places where a condition the code does not check
    matters.  The concrete states are those of [Scenario]. *)
From S2P Require Import Prelude Text Bytes Codecs Crypto ChannelId Config Lcss Wire Sphinx State Store Node Gossip World Ledger ChannelBase ChannelForward ChannelUpdate ChannelOpen ChannelAdmin ChannelSound ChannelInv Scenario ChannelCommit.
From stdpp Require Import options.
#[local] Open Scope Z_scope.

Section Safety.
#[local] Set Default Proof Using "Type*".
Context {HC : Crypto} {HCL : CryptoLaws} {HO : OnionCrypto} {S V N : Type}.
Context {HS : Store S V} {HL : StoreLaws S V} {HN : NodeActions N}.
Context {JA : AppJson V} {LA : AppJsonLaws V}.
Implicit Types (w : World S V N) (d : ChannelData).

(** ** Whole runs *)

(** C1. As long as the inputs keep to conditions the code does not check, no channel
    wedges: whatever messages, node events, timers and operator commands the
    controller handles, in whatever order and with whatever failures of the node in
    between, every stored channel can still be committed, if the stored channels were
    sound to begin with (an empty store is).  Its pending updates fold
    into a next state, nobody's balance is negative, and balances and HTLCs of both
    states add up to exactly the channel's capacity.  The conditions ([admissible]):
    amounts are within their types, a policy that opens a channel offers no more than
    its capacity, a peer's HTLC id is new on its channel, a resize finds nothing
    pending, and an adopted state is one the host could have signed.  They are needed:
    [SafetyExamples.resize_wedges] is an accepted resize that wedges a channel with an
    update pending, [SafetyExamples.duplicate_id_unclaimable] an HTLC id used twice. *)
Theorem channels_never_wedge C w w' peer d :
  channels_sound w → rtc (step C) w w' → channel_at w' peer d →
  funds_ok (cd_lcss d) ∧ total_funds (cd_lcss d) = capacity (cd_lcss d) ∧
  ∃ n, lcss_next (with_uncommitted d) = Ok n ∧ funds_ok n ∧ total_funds n = capacity (cd_lcss d).
Proof.
  intros Hw Hsteps Hat. by apply chan_commits, (steps_sound _ _ _ Hsteps Hw peer).
Qed.

(** ** Progress *)

(** Whether a state can be encoded does not depend on whose view it is. *)
Lemma enc_seq_complete (a b : enc) : (enc_seq a b).2 = None ↔ a.2 = None ∧ b.2 = None.
Proof. destruct a as [la [ea|]], b as [lb [eb|]]; cbn; naive_solver. Qed.

Lemma sig_material_reverse_ok s : (sig_material s).2 = None → (sig_material (lcss_reverse s)).2 = None.
Proof. unfold sig_material; cbn. rewrite !enc_seq_complete. naive_solver. Qed.

Lemma hash_reverse_ok s h : hosted_sig_hash s = Ok h → ∃ h', hosted_sig_hash (lcss_reverse s) = Ok h'.
Proof.
  unfold hosted_sig_hash. pose proof (sig_material_reverse_ok s) as Hr.
  destruct (sig_material s) as [l [e|]]; [done|]. specialize (Hr eq_refl).
  destruct (sig_material (lcss_reverse s)) as [l' e']. cbn in Hr. subst e'. cbn. eauto.
Qed.

Lemma verified_signs sk s pk : verify_remote_sig s pk = true → ∃ s', lcss_sign sk s = Ok s'.
Proof.
  unfold verify_remote_sig, lcss_sign. destruct (hosted_sig_hash s) as [h|e] eqn:Hh; [|done]. intros _.
  destruct (hash_reverse_ok s h Hh) as [h' ->]. by eexists.
Qed.

Lemma peer_view sig day n :
  lcss_reverse (set_local_sig sig (set_block_day day (lcss_reverse n))) =
  set_remote_sig sig (set_block_day day n).
Proof. destruct n as [[]]; reflexivity. Qed.

(** What an honest peer, whose view of the channel is the mirror of [d], answers
    on the day [day] to commit everything pending. *)
Definition honest_update (sk : SecretKey) (day : Z) d : option StateUpdate :=
  match lcss_next (mirror (with_uncommitted d)) with
  | Ok p =>
      match lcss_sign sk (set_block_day day p) with
      | Ok s => Some (lcss_state_update s)
      | Err _ => None
      end
  | Err _ => None
  end.

(** C8. Progress: whenever an active channel has pending updates, the [state_update]
    an honest peer computes from its own mirror of the channel is accepted, and
    commits them: no pending update of a stored channel is stuck. *)
Theorem honest_peer_commits C sk day d m :
  chan_sound d → derive_status d = Active → cd_uncommitted d ≠ [] → honest_update sk day d = Some m →
  ∃ s, accepts C day (pk_from_secret_key sk) d m (set_uncommitted [] (set_lcss s d)).
Proof.
  intros Hd Hst Hne Hm. unfold honest_update in Hm. rewrite lcss_next_mirror_eq in Hm.
  destruct (chs_folds d Hd) as [t Ht]. destruct (folded_next d t Ht) as [n Hn]. rewrite Hn in Hm. cbn in Hm.
  destruct (lcss_sign sk (set_block_day day (lcss_reverse n))) as [s|e] eqn:Hs; [|done]. injection Hm as <-.
  pose proof (lcss_sign_verifies _ _ _ Hs) as Hv. apply lcss_sign_ok in Hs as (h & Hh & ->).
  rewrite peer_view in Hv. set (m := lcss_state_update _).
  change (verify_remote_sig (committed_state n m) (pk_from_secret_key sk) = true) in Hv.
  destruct (verified_signs (ctl_node_secret C) _ _ Hv) as [s Hs]. exists s.
  apply (accepts_commit _ _ _ _ _ n s); try done; apply lcss_next_inv in Hn as (t' & _ & ->); done.
Qed.

End Safety.

Module SafetyExamples.
Import Scenario.

Lemma channels_never_wedge_witness :
  rtc (step host) start fulfilled ∧
  ∃ n, lcss_next (with_uncommitted (data fulfilled)) = Ok n ∧ total_funds n = 100000000.
Proof.
  split; [exact scenario_steps|].
  destruct (channels_never_wedge host start fulfilled peer (data fulfilled) start_sound scenario_steps)
    as (_ & _ & n & Hn & _ & Ht); [by apply data_at; vm_compute|].
  exists n. split; [exact Hn|]. rewrite Ht. vm_compute. reflexivity.
Defined.

Lemma honest_peer_commits_witness :
  ∃ m s, honest_update (HC := Toy.crypto) peer 10 (data added) = Some m ∧
    accepts host 10 peer (data added) m (set_uncommitted [] (set_lcss s (data added))).
Proof.
  destruct (honest_update (HC := Toy.crypto) peer 10 (data added)) as [m|] eqn:Hm.
  2: { exfalso. vm_compute in Hm. discriminate. }
  exists m. destruct (honest_peer_commits host peer 10 (data added) m) as [s Hs].
  - exact (added_sound _ _ CommitExamples.added_at).
  - vm_compute. reflexivity.
  - vm_compute. discriminate.
  - exact Hm.
  - exists s. split; [reflexivity|exact Hs].
Defined.

(** ** A stale link

    Two adds of the node are pending (ids 1 and 2) when the peer errors the
    channel and accepts an override, which drops them but leaves their links.
    The next add gets id 2 again: [create_if_absent] keeps the old link, so when
    the peer fulfils it, the preimage goes to the incoming HTLC of the dropped
    add, whose payment hash it does not match, and the incoming HTLC that the
    host has paid for is never resolved. *)
Definition node_htlc (n : Z) : UpdateAddHtlc :=
  mkUpdateAddHtlc (be_bytes 32 0) 7 2000000 (Toy.digest (be_bytes 32 n)) 1600 (be_bytes 1366 0) [].
Definition two_pending : W := run (InHtlcAdd peer (node_htlc 91) "77/8" 77 8 None (Some 1700)) added.
Definition proposed : W :=
  run (InProposeOverride peer None) (run (InError peer (mkHcError [] [] [])) two_pending).
Definition acceptance : StateUpdate :=
  match cd_proposed_override (data proposed) with
  | Some o => mkStateUpdate 10 (remote_updates o) (local_updates o) (peer_signs o)
  | None => mkStateUpdate 0 0 0 []
  end.
Definition overriden : W := run (InStateUpdate peer acceptance) proposed.
Definition third_pending : W := run (InHtlcAdd peer (node_htlc 92) "77/9" 77 9 None (Some 1700)) overriden.
Definition third_committed : W := run (InStateUpdate peer (commit_msg third_pending)) third_pending.
Definition third_fulfilled : W :=
  run (InUpdateFulfill peer (mkUpdateFulfillHtlc (be_bytes 32 0) 2 (be_bytes 32 92) [])) third_committed.

(** After an override a forward link can be stale: the fulfilment of the HTLC
    that came in as "77/9" is given to the incoming HTLC "77/8", whose payment
    hash is another one, and "77/9" is never resolved. *)
Theorem stale_link_misroutes :
  mn_htlc_resolutions (w_node third_fulfilled) = [("77/8", Resolve (be_bytes 32 92))] ∧
  uah_payment_hash (node_htlc 92) = Toy.digest (be_bytes 32 92) ∧
  uah_payment_hash (node_htlc 91) ≠ Toy.digest (be_bytes 32 92).
Proof.
  split; [vm_compute; reflexivity|]. split; [vm_compute; reflexivity|]. vm_compute. discriminate.
Qed.

(** ** A resize with updates pending

    [handle_resize_channel] does not look at the pending updates.  Here the host
    has offered 2,000,000 msat and then accepts a resize that leaves it with
    1,000,000: the pending add no longer folds. *)
Definition resize_msg : ResizeChannel :=
  let m := mkResizeChannel 41000 [] in
  mkResizeChannel 41000 (Toy.sign (ResizeChannel_sig_hash (H := Toy.crypto) m) peer).
Definition resized : W := run (InResize peer resize_msg) (run (InAcceptResize peer (Some 50000)) added).

(** A resize that the host accepts while an update is pending can wedge the
    channel: it stays active, and its next state cannot be computed any more, so
    neither side can commit anything. *)
Theorem resize_wedges :
  derive_status (data resized) = Active ∧
  lcss_next (with_uncommitted (data added)) = Ok (next_of added) ∧
  lcss_next (with_uncommitted (data resized)) = Err (NegativeBalance 1000000 2000000).
Proof. split_and!; vm_compute; reflexivity. Qed.

(** ** An id used twice

    [handle_update_add] does not look at the ids: the peer offers two HTLCs under
    one id.  The second can never be fulfilled, since its preimage is checked
    against the first. *)
Definition twin (n : Z) : UpdateAddHtlc :=
  mkUpdateAddHtlc (be_bytes 32 0) 1 3000000 (Toy.digest (be_bytes 32 n)) 1650 (be_bytes 1366 0) [].
Definition twins : W := run (InUpdateAdd peer (twin 79)) (run (InUpdateAdd peer (twin 78)) settled).
Definition claiming (n : Z) : ChannelData :=
  push_uncommitted (ULocal (PFulfill [] 1 (be_bytes 32 n))) (data twins).

(** A peer that reuses an HTLC id makes the second HTLC unclaimable: both are
    accepted, and the host's fulfilment of the second does not fold. *)
Theorem duplicate_id_unclaimable :
  length (cd_uncommitted (data twins)) = 2%nat ∧
  lcss_next (with_uncommitted (claiming 78)) ≠ Err WrongPreimage ∧
  lcss_next (with_uncommitted (claiming 79)) = Err WrongPreimage.
Proof. split_and!; vm_compute; done. Qed.

(** ** Two tasks on one channel

    [handle_update_add] loads the record, and saves it with the peer's HTLC at its
    end, whatever is stored by then.  Here the node's HTLC is added in between. *)
Definition loaded_add : ChannelData := push_uncommitted (URemote (PAdd peer_htlc)) (data opened).
Definition raced : W := (save_channel peer loaded_add None added).2.

Definition local_adds (d : ChannelData) : list (Z * list byte) :=
  omap (λ u, match u with ULocal (PAdd h) => Some (uah_id h, uah_payment_hash h) | _ => None end) (cd_uncommitted d).

(** What the peer, which has seen both updates, commits. *)
Definition both_pending : ChannelData := push_uncommitted (URemote (PAdd peer_htlc)) (data added).
Definition peer_commit : StateUpdate :=
  let sm := with_uncommitted both_pending in
  mkStateUpdate 10 (next_remote_updates sm) (next_local_updates sm)
    match lcss_next sm with Ok n => peer_signs (set_block_day 10 n) | Err _ => [] end.

(** An update can be lost: saving a channel takes no generation, so a task that
    loaded the record before another one saved it overwrites that one's update.
    The host has sent the node's HTLC to the peer and forgets it; the state_update
    the peer then signs, over both HTLCs, no longer commits anything. *)
Theorem lost_update :
  data (run (InUpdateAdd peer peer_htlc) opened) = loaded_add ∧
  local_adds (data added) = [(1, uah_payment_hash htlc)] ∧ local_adds (data raced) = [] ∧
  cd_uncommitted (data raced) = [URemote (PAdd peer_htlc)] ∧
  mn_sent_messages (w_node raced) = mn_sent_messages (w_node added) ∧
  cd_lcss (data (run (InStateUpdate peer peer_commit) raced)) = cd_lcss (data opened) ∧
  local_updates (cd_lcss (data (run (InStateUpdate peer peer_commit)
    (save_channel peer both_pending None added).2))) = local_updates (cd_lcss (data opened)) + 1.
Proof. split_and!; vm_compute; reflexivity. Qed.

End SafetyExamples.
