(* ===== verification/Race.v ===== *)
(** * Tasks that race for the same records

    [World] leaves every handler alone; here several run at once ([Tasks]).  Three
    places where the sources meet other tasks at the store: the one-time secrets
    of [src/channel.rs], which compare-and-swap protects; the event numbers of
    [src/ledger.rs], likewise; and the places where nothing does. *)
From S2P Require Import Prelude Text Bytes Codecs Crypto ChannelId Config Lcss Wire Sphinx State Store Node Gossip World Tasks Ledger ChannelBase ChannelForward ChannelUpdate ChannelOpen ChannelAdmin ChannelSound ChannelInv Scenario ChannelCommit ChannelAdd.
From stdpp Require Import options.
#[local] Open Scope Z_scope.

Lemma wrap64_succ_ne g : wrap64 (g + 1) ≠ g.
Proof.
  unfold wrap64. intros Hg. assert (0 ≤ g < 2 ^ 64) as Hr by (rewrite <-Hg; apply Z.mod_pos_bound; lia).
  destruct (decide (g = 2 ^ 64 - 1)) as [->|Hne]; [by vm_compute in Hg|].
  rewrite Z.mod_small in Hg; lia.
Qed.

(** ** Claiming a secret *)
Section Claim.
#[local] Set Default Proof Using "Type*".
Context {HC : Crypto} {HO : OnionCrypto} {S V N : Type} {HS : Store S V} {HN : NodeActions N}.
Context {JA : AppJson V}.
Context (C : Controller) (secret : list byte).
Local Notation Task := (Task (S := S) (V := V) (N := N) ChannelError (option ChannelPolicy)).

(** [consume_secret], an [await] at a time. *)
Definition secret_policy (s : ChannelSecret) (effective : ChannelPolicy) : ChannelPolicy := {|
  cp_channel_capacity_msat := cs_capacity_msat s;
  cp_initial_client_balance_msat := cs_initial_balance_msat s;
  cp_max_htlc_value_in_flight_msat := cp_max_htlc_value_in_flight_msat effective;
  cp_htlc_minimum_msat := cp_htlc_minimum_msat effective;
  cp_max_accepted_htlcs := cp_max_accepted_htlcs effective;
  cp_fee_base_msat := cp_fee_base_msat effective;
  cp_fee_proportional_millionths := cp_fee_proportional_millionths effective;
  cp_cltv_expiry_delta := cp_cltv_expiry_delta effective |}.

Definition mark_consumed (s : ChannelSecret) : ChannelSecret :=
  mkChannelSecret (cs_secret s) (cs_capacity_msat s) (cs_initial_balance_msat s) true.

Definition claim_marked (policy : ChannelPolicy) : Task :=
  _ ← await (store (m_delete (secret_key secret)));
  mret (Some policy).

Definition claim_ready (s : ChannelSecret) (gen : Z) (policy : ChannelPolicy) : Task :=
  _ ← await (store (m_update_json (secret_key secret) (mark_consumed s) gen));
  claim_marked policy.

Definition claim_loaded (s : ChannelSecret) (gen : Z) : Task :=
  effective ← await (effective_policy C);
  claim_ready s gen (secret_policy s effective).

Definition consume_secret_task : Task :=
  if negb (len secret =? 32) then mret None else
  r ← await (load_optional (secret_key secret));
  match r with
  | None => mret None
  | Some (s, gen) => if cs_consumed s then mret None else claim_loaded s gen
  end.

(** Left alone, the task is the handler. *)
Lemma consume_secret_task_run w : run_task consume_secret_task w = consume_secret C secret w.
Proof using Type.
  unfold consume_secret_task, consume_secret. destruct (negb _); [done|].
  apply run_await_bind. intros [[s gen]|] w1; [|done]. destruct (cs_consumed s); [done|].
  apply run_await_bind. intros eff w2. apply run_await_bind. intros _ w3. by apply run_await_bind.
Qed.

End Claim.

(** *** Any number of claims at once *)
Section ClaimRace.
#[local] Set Default Proof Using "Type*".
Context {HC : Crypto} {HCL : CryptoLaws} {HO : OnionCrypto} {S V N : Type} {HS : Store S V} {HL : StoreLaws S V}.
Context {HN : NodeActions N} {JA : AppJson V} {LA : AppJsonLaws V}.
Context (C : Controller) (secret : list byte).
Implicit Types (w : World S V N).
Local Notation Task := (Task (S := S) (V := V) (N := N) ChannelError (option ChannelPolicy)).
Implicit Types (t : Task) (ts : list Task).

Lemma load_optional_absent {A} {J : Json V A} {JL : JsonLaws V A} k w :
  key_ok k → wview w k = None → load_optional (A := A) k w = (Ok None, w).
Proof using HL HN.
  intros Hk Hv. unfold load_optional, mbind, M_bind, attempt. by rewrite (m_get_json_absent _ _ Hk Hv).
Qed.

Lemma load_optional_present {A} {J : Json V A} {JL : JsonLaws V A} k w g v (a : A) :
  key_ok k → wview w k = Some (g, v) → from_slice v = Ok a →
  load_optional k w = (Ok (Some (a, g)), w).
Proof using HL HN.
  intros Hk Hv Ha. unfold load_optional, mbind, M_bind, attempt.
  by rewrite (m_get_json_present _ _ _ _ _ Hk Hv Ha).
Qed.

Lemma skey_ok : key_ok (secret_key secret).
Proof using HCL. apply secret_key_ok. Qed.

Lemma effective_policy_reads w : (effective_policy (S := S) (V := V) (N := N) C w).2 = w.
Proof using Type.
  unfold effective_policy, load_optional, mbind, M_bind, attempt, m_get_json.
  destruct (get_json policy_key (w_store w)) as [[]|[]]; done.
Qed.

(** The stored secret, loaded by nobody else yet when the claims begin. *)
Context (s0 : ChannelSecret) (g0 : Z).

(** A policy with the amounts of the secret. *)
Definition granted (policy : ChannelPolicy) : Prop :=
  cp_channel_capacity_msat policy = cs_capacity_msat s0 ∧
  cp_initial_client_balance_msat policy = cs_initial_balance_msat s0.

(** A claim that has not come to its compare-and-swap, or lost it. *)
Inductive pending_claim : Task → Prop :=
| pending_start : pending_claim (consume_secret_task C secret)
| pending_loaded : pending_claim (claim_loaded C secret s0 g0)
| pending_ready policy : granted policy → pending_claim (claim_ready secret s0 g0 policy)
| pending_failed e : pending_claim (Return (Err e)).

Definition beaten_claim t : Prop := pending_claim t ∨ t = Return (Ok None).

Definition others_beaten ts (i : nat) : Prop := ∀ j t, ts !! j = Some t → j ≠ i → beaten_claim t.

(** The states of the race: nobody has the secret; claim [i] has marked it; claim
    [i] has returned the policy. *)
Inductive race ts w : Prop :=
| race_open v : wview w (secret_key secret) = Some (g0, v) → from_slice v = Ok s0 →
    (∀ i t, ts !! i = Some t → pending_claim t) → race ts w
| race_marked i policy v : ts !! i = Some (claim_marked secret policy) → granted policy →
    wview w (secret_key secret) = Some (wrap64 (g0 + 1), v) → from_slice v = Ok (mark_consumed s0) →
    others_beaten ts i → race ts w
| race_over i policy : ts !! i = Some (Return (Ok (Some policy))) → granted policy →
    wview w (secret_key secret) = None → others_beaten ts i → race ts w.

Hypothesis Hlen : len secret = 32.
Hypothesis Hunused : cs_consumed s0 = false.

Lemma start_advance w :
  advance (consume_secret_task C secret) w
  = match load_optional (secret_key secret) w with
    | (Ok (Some (s, gen)), w') => (if cs_consumed s then Return (Ok None) else claim_loaded C secret s gen, w')
    | (Ok None, w') => (Return (Ok None), w')
    | (Err e, w') => (Return (Err e), w')
    end.
Proof.
  unfold consume_secret_task. rewrite (proj2 (Z.eqb_eq _ _) Hlen). cbn.
  destruct (load_optional _ w) as [[[[s gen]|]|e] w']; cbn; [by destruct (cs_consumed s)|done..].
Qed.

(** Loading the policy changes nothing, and does not decide the race. *)
Lemma loaded_advance w :
  pending_claim (advance (claim_loaded C secret s0 g0) w).1 ∧ (advance (claim_loaded C secret s0 g0) w).2 = w.
Proof using Type.
  pose proof (effective_policy_reads w) as Hr. cbn in *.
  destruct (effective_policy C w) as [[eff|e] w']; cbn in *; (split; [by repeat constructor|done]).
Qed.

(** The secret is no longer for the taking. *)
Definition taken w : Prop :=
  wview w (secret_key secret) = None ∨
  ∃ v, wview w (secret_key secret) = Some (wrap64 (g0 + 1), v) ∧ from_slice v = Ok (mark_consumed s0).

Lemma ready_late w policy : taken w →
  ∃ e, advance (claim_ready secret s0 g0 policy) w = (Return (Err e), w).
Proof using HCL HL HN LA HO.
  intros [Hv|(v & Hv & _)]; cbn; unfold store, lift, m_update_json, put, update_json;
    destruct (json_roundtrip (mark_consumed s0)) as (b & -> & _);
    pose proof (st_update_spec (secret_key secret) b g0 (w_store w) skey_ok) as Hu;
    unfold wview in Hv; rewrite Hv in Hu.
  - rewrite Hu. cbn. rewrite set_store_nil. by eexists.
  - rewrite decide_False in Hu by apply wrap64_succ_ne. rewrite Hu. cbn. rewrite set_store_nil. by eexists.
Qed.

Lemma beaten_step t w : taken w → beaten_claim t →
  beaten_claim (advance t w).1 ∧ (advance t w).2 = w.
Proof.
  intros Ht [Hp| ->]; [|cbn; split; [by right|done]]. destruct Hp as [| |policy Hg|e].
  - rewrite start_advance. destruct Ht as [Hv|(v & Hv & Hf)].
    + rewrite (load_optional_absent _ _ skey_ok Hv). cbn. split; [by right|done].
    + rewrite (load_optional_present _ _ _ _ _ skey_ok Hv Hf). cbn. split; [by right|done].
  - destruct (loaded_advance w) as [H1 H2]. split; [by left|done].
  - destruct (ready_late w policy Ht) as [e ->]. split; [left; constructor|done].
  - cbn. split; [left; constructor|done].
Qed.

Lemma open_step t w v : wview w (secret_key secret) = Some (g0, v) → from_slice v = Ok s0 → pending_claim t →
  (pending_claim (advance t w).1 ∧ (advance t w).2 = w) ∨
  ∃ policy v', granted policy ∧ t = claim_ready secret s0 g0 policy ∧ (advance t w).1 = claim_marked secret policy ∧
    wview (advance t w).2 (secret_key secret) = Some (wrap64 (g0 + 1), v') ∧ from_slice v' = Ok (mark_consumed s0).
Proof.
  intros Hv Hf Hp. destruct Hp as [| |policy Hg|e].
  - left. rewrite start_advance, (load_optional_present _ _ _ _ _ skey_ok Hv Hf), Hunused. cbn.
    split; [constructor|done].
  - left. apply loaded_advance.
  - right. destruct (m_update_json_current (secret_key secret) (mark_consumed s0) w g0 v skey_ok Hv)
      as (v' & w' & Hu & Hf' & Hw). exists policy, v'. cbn. unfold store, lift. rewrite Hu. cbn.
    split_and!; try done. by rewrite (wrote_view _ _ _ _ _ _ Hw skey_ok), decide_True.
  - left. cbn. split; [constructor|done].
Qed.

Lemma others_step ts i j t w :
  taken w → others_beaten ts i → ts !! j = Some t → j ≠ i →
  others_beaten (<[j := (advance t w).1]> ts) i ∧ (advance t w).2 = w.
Proof.
  intros Ht Ho Hj Hne. destruct (beaten_step t w Ht (Ho _ _ Hj Hne)) as [Hb Hw]. split; [|done].
  intros n u Hn Hni. apply list_lookup_insert_Some in Hn as [(-> & <- & _)|[_ Hn]]; [done|by eapply Ho].
Qed.

Lemma others_insert ts i t : others_beaten ts i → others_beaten (<[i := t]> ts) i.
Proof using Type.
  intros Ho j u Hj Hne. rewrite list_lookup_insert_ne in Hj by done. by eapply Ho.
Qed.

Lemma race_step ts w i t : race ts w → ts !! i = Some t → race (<[i := (advance t w).1]> ts) (advance t w).2.
Proof.
  intros Hrace Hi. destruct Hrace as [v Hv Hf Hp|j policy v Hj Hg Hv Hf Ho|j policy Hj Hg Hv Ho].
  - destruct (open_step t w v Hv Hf (Hp _ _ Hi)) as [[Hp' ->]|(policy & v' & Hg & _ & -> & Hv' & Hf')].
    + apply (race_open _ _ v); [done..|]. apply (insert_step (λ _, pending_claim) ts i t); eauto.
    + apply (race_marked _ _ i policy v'); try done.
      * by eapply list_lookup_insert_eq, lookup_lt_Some.
      * apply others_insert. intros n u Hn _. left. by eapply Hp.
  - destruct (decide (i = j)) as [->|Hne].
    + rewrite Hi in Hj. injection Hj as ->. destruct (m_delete_view (secret_key secret) w skey_ok) as (s & Hd & Hs).
      cbn. unfold store, lift. rewrite Hd. cbn. apply (race_over _ _ j policy); try done.
      * by eapply list_lookup_insert_eq, lookup_lt_Some.
      * unfold wview. cbn. by rewrite (Hs _ skey_ok), decide_True.
      * by apply others_insert.
    + destruct (others_step ts j i t w) as [Ho' ->]; [right; eauto|done..|].
      apply (race_marked _ _ j policy v); try done. by rewrite list_lookup_insert_ne.
  - destruct (decide (i = j)) as [->|Hne].
    + rewrite Hi in Hj. injection Hj as ->. cbn. rewrite list_insert_id by done. by apply (race_over _ _ j policy).
    + destruct (others_step ts j i t w) as [Ho' ->]; [by left|done..|].
      apply (race_over _ _ j policy); try done. by rewrite list_lookup_insert_ne.
Qed.

(** What other tasks of the process may do meanwhile: anything but to this secret. *)
Definition off_secret_rely w w' : Prop := wview w' (secret_key secret) = wview w (secret_key secret).

Lemma race_rely ts w w' : race ts w → off_secret_rely w w' → race ts w'.
Proof using Type.
  unfold off_secret_rely. intros Hrace Hr.
  destruct Hrace; [eapply race_open|eapply race_marked|eapply race_over]; try done; congruence.
Qed.

Lemma race_reached n w ts w' v :
  wview w (secret_key secret) = Some (g0, v) → from_slice v = Ok s0 →
  rtc (pool_step off_secret_rely) (replicate n (consume_secret_task C secret), w) (ts, w') → race ts w'.
Proof.
  intros Hv Hf Hs. apply (pool_invariant _ race race_step race_rely _ _ Hs). cbn.
  apply (race_open _ _ v); [done..|]. intros i t [-> _]%lookup_replicate. constructor.
Qed.

(** A claim has succeeded only when it has the policy. *)
Lemma pending_not_ok t : pending_claim t → match t with Return (Ok _) => False | _ => True end.
Proof using Hlen.
  intros [| |policy _|e]; try done. unfold consume_secret_task.
  by rewrite (proj2 (Z.eqb_eq _ _) Hlen).
Qed.

Lemma winner_unique ts i j p : others_beaten ts i → ts !! j = Some (Return (Ok (Some p))) → i = j.
Proof using Hlen.
  intros Ho Hj. destruct (decide (j = i)) as [|Hne]; [done|].
  destruct (Ho _ _ Hj Hne) as [Hp%pending_not_ok|]; done.
Qed.

End ClaimRace.

(** C10. A secret opens one channel.  Let any number of tasks run [consume_secret]
    on one unused secret at once, interleaved at every [await] in any order and
    among tasks that do not touch that secret.  At most one of them ever returns a
    policy; it has the amounts of the secret, and the secret is then gone.  A task
    that is told there is no secret was beaten by another one, which has marked it.
    (Left alone, the task is [consume_secret].) *)
Theorem secret_claimed_once {HC : Crypto} {HCL : CryptoLaws} {HO : OnionCrypto} {S V N : Type}
    {HS : Store S V} {HL : StoreLaws S V} {HN : NodeActions N} {JA : AppJson V} {LA : AppJsonLaws V}
    C secret g v s n (w : World S V N) ts w' :
  len secret = 32 → wview w (secret_key secret) = Some (g, v) → from_slice v = Ok s → cs_consumed s = false →
  rtc (pool_step (off_secret_rely secret)) (replicate n (consume_secret_task C secret), w) (ts, w') →
  (∀ w0 : World S V N, run_task (consume_secret_task C secret) w0 = consume_secret C secret w0) ∧
  (∀ i j p q, ts !! i = Some (Return (Ok (Some p))) → ts !! j = Some (Return (Ok (Some q))) → i = j) ∧
  (∀ i p, ts !! i = Some (Return (Ok (Some p))) →
     cp_channel_capacity_msat p = cs_capacity_msat s ∧
     cp_initial_client_balance_msat p = cs_initial_balance_msat s ∧
     wview w' (secret_key secret) = None) ∧
  (∀ i, ts !! i = Some (Return (Ok None)) →
     ∃ j p, j ≠ i ∧ (ts !! j = Some (claim_marked secret p) ∨ ts !! j = Some (Return (Ok (Some p))))).
Proof.
  intros Hlen Hv Hf Hu Hs. split; [apply consume_secret_task_run|].
  pose proof (race_reached C secret s g Hlen Hu n w ts w' v Hv Hf Hs) as Hrace.
  destruct Hrace as [v' _ _ Hp|k policy v' Hk _ _ _ Ho|k policy Hk [H1 H2] Hgone Ho].
  - assert (∀ i r, ts !! i = Some (Return (Ok r)) → False) as Hnone.
    { intros i r Hi. exact (pending_not_ok _ _ _ _ Hlen _ (Hp _ _ Hi)). }
    split_and!; naive_solver.
  - assert (∀ j p, ts !! j = Some (Return (Ok (Some p))) → False) as Hnone.
    { intros j p Hj. pose proof (winner_unique C secret s g Hlen _ _ _ _ Ho Hj) as ->. by rewrite Hk in Hj. }
    split_and!; [naive_solver..|]. intros i Hi. exists k, policy. split; [|by left]. intros ->. by rewrite Hk in Hi.
  - split_and!.
    + intros i j p q Hi%(winner_unique C secret s g Hlen _ _ _ _ Ho) Hj%(winner_unique C secret s g Hlen _ _ _ _ Ho).
      congruence.
    + intros i p Hi. pose proof (winner_unique C secret s g Hlen _ _ _ _ Ho Hi) as ->.
      rewrite Hk in Hi. by injection Hi as <-.
    + intros i Hi. exists k, policy. split; [congruence|by right].
Qed.

(** ** Recording events *)

(** The arguments of one call of [record_inner]. *)
Record RecordCall : Type := mkRecordCall {
  rc_peer : string;
  rc_type : LedgerEventType;
  rc_amount : Z;
  rc_fee : Z;
  rc_hash : option (list byte);
  rc_id : option string;
}.

Section Record.
#[local] Set Default Proof Using "Type*".
Context {HC : Crypto} {S V N : Type} {HS : Store S V} {HN : NodeActions N}.
Context {JM : Json V Meta} {JE : Json V LedgerEvent} {JB : Json V bool}.
Local Notation Task := (Task (S := S) (V := V) (N := N) StoreError).

Definition call_event (a : RecordCall) (seq timestamp : Z) : LedgerEvent :=
  {| le_seq := seq; le_event_id := rc_id a; le_peer_pubkey := rc_peer a; le_event_type := rc_type a;
     le_amount_msat := rc_amount a; le_fee_msat := rc_fee a; le_payment_hash := hex_encode <$> rc_hash a;
     le_timestamp := timestamp |}.

Definition record_write (a : RecordCall) (seq : Z) : Task unit :=
  await (t ← now; m_create_json (event_key seq) (call_event a seq (default 0 t))).

Definition record_bump (a : RecordCall) (meta : Meta) (gen : Z) : Task unit :=
  let seq := meta_next_ledger_seq meta in
  _ ← await (m_update_json meta_key (mkMeta (wrap64 (seq + 1)) (meta_current_block_height meta)) gen);
  record_write a seq.

Definition record_first (a : RecordCall) : Task unit :=
  _ ← await (m_create_json meta_key (mkMeta 0 0));
  record_bump a (mkMeta 0 0) 0.

(** [record_inner], an [await] at a time. *)
Definition record_inner_task (a : RecordCall) : Task unit :=
  r ← await (attempt (m_get_json meta_key));
  match r with
  | Ok (meta, gen) => record_bump a meta gen
  | Err (KeyNotFound _) => record_first a
  | Err e => Return (Err e)
  end.

(** [record_once], an [await] at a time. *)
Definition record_once_task (event_id : string) (a : RecordCall) : Task unit :=
  known ← await (m_exists (marker_key event_id));
  if (known : bool) then mret tt else
  _ ← record_inner_task a;
  r ← await (attempt (m_create_json (marker_key event_id) true));
  match r with
  | Ok _ | Err (AlreadyExists _) => mret tt
  | Err e => Return (Err e)
  end.

Lemma record_bump_run a meta gen w :
  run_task (record_bump a meta gen) w
  = (_ ← m_update_json meta_key (mkMeta (wrap64 (meta_next_ledger_seq meta + 1)) (meta_current_block_height meta)) gen;
     t ← now;
     m_create_json (event_key (meta_next_ledger_seq meta)) (call_event a (meta_next_ledger_seq meta) (default 0 t))) w.
Proof using Type. apply run_await_bind. intros _ w1. apply run_await. Qed.

Lemma record_inner_task_run a w :
  run_task (record_inner_task a) w
  = record_inner (rc_peer a) (rc_type a) (rc_amount a) (rc_fee a) (rc_hash a) (rc_id a) w.
Proof using Type.
  unfold record_inner, load_meta. rewrite bind_assoc. apply run_await_bind.
  intros [[meta gen]|[]] w1; try done.
  - apply record_bump_run.
  - rewrite bind_assoc. apply run_await_bind. intros _ w2. apply record_bump_run.
Qed.

Lemma record_once_task_run event_id a w : rc_id a = Some event_id →
  run_task (record_once_task event_id a) w
  = record_once event_id (rc_peer a) (rc_type a) (rc_amount a) (rc_fee a) (rc_hash a) w.
Proof using Type.
  intros Hid. apply run_await_bind. intros [] w1; [done|]. rewrite <-Hid.
  apply run_seq; [apply record_inner_task_run|]. intros _ w2. apply run_await_bind. by intros [[]|[]].
Qed.

End Record.

(** *** Any number of records at once *)
Section RecordRace.
#[local] Set Default Proof Using "Type*".
Context {HC : Crypto} {S V N : Type} {HS : Store S V} {HL : StoreLaws S V} {HN : NodeActions N}.
Context {JM : Json V Meta} {JE : Json V LedgerEvent} {LM : JsonLaws V Meta} {LE : JsonLaws V LedgerEvent}.
Local Notation Task := (Task (S := S) (V := V) (N := N) StoreError unit).
Implicit Types (w : World S V N) (a : RecordCall) (t : Task) (ts : list Task) (owners : list nat).

(** The calls, and the counter and its generation when they begin. *)
Context (calls : list RecordCall) (n0 g0 : Z).

(** The counter has given out [m] numbers since. *)
Definition counter_at w (m : Z) : Prop :=
  (m = 0 ∧ n0 = 0 ∧ g0 = 0 ∧ wview w meta_key = None) ∨
  ∃ v h, wview w meta_key = Some (g0 + m, v) ∧ from_slice v = Ok (mkMeta (n0 + m) h).

Definition free_from w (q0 : Z) : Prop := ∀ q, q0 ≤ q → wview w (event_key q) = None.

Definition holds_event w a (q : Z) : Prop :=
  ∃ g v time, wview w (event_key q) = Some (g, v) ∧ from_slice v = Ok (call_event a q time).

(** A call that has no number yet, [m] of them being out. *)
Inductive unnumbered a (m : Z) : Task → Prop :=
| un_start : unnumbered a m (record_inner_task a)
| un_first : unnumbered a m (record_first a)
| un_loaded m' h : 0 ≤ m' ≤ m → unnumbered a m (record_bump a (mkMeta (n0 + m') h) (g0 + m'))
| un_failed e : unnumbered a m (Return (Err e)).

(** A call that has the number [q]. *)
Inductive numbered a (q : Z) w : Task → Prop :=
| num_taken : wview w (event_key q) = None → numbered a q w (record_write a q)
| num_written : holds_event w a q → numbered a q w (Return (Ok tt)).

Lemma unnumbered_mono a m m' t : m ≤ m' → unnumbered a m t → unnumbered a m' t.
Proof using Type. intros Hm []; constructor; lia. Qed.

(** Worlds that agree on the ledger's events. *)
Definition same_events w w' : Prop := ∀ q, 0 ≤ q → wview w' (event_key q) = wview w (event_key q).

Lemma wrote_meta_events w g v w' : wrote w meta_key g v w' → same_events w w'.
Proof using Type.
  intros Hw q Hq. by rewrite (wrote_view _ _ _ _ _ _ Hw (event_key_ok q Hq)), decide_False.
Qed.

Lemma bump_step a w m m' h :
  counter_at w m → 0 ≤ m' ≤ m → 0 ≤ n0 → 0 ≤ g0 → n0 + m + 1 < 2 ^ 64 → g0 + m + 1 < 2 ^ 64 →
  let '(t', w') := advance (record_bump a (mkMeta (n0 + m') h) (g0 + m')) w in
  (unnumbered a m t' ∧ w' = w) ∨
  (t' = record_write a (n0 + m) ∧ counter_at w' (m + 1) ∧ same_events w w').
Proof.
  intros Hc Hm Hn Hg Hb1 Hb2. unfold record_bump. cbn [meta_next_ledger_seq meta_current_block_height].
  destruct Hc as [(-> & -> & -> & Hv)|(v & h' & Hv & Hf)].
  - cbn. unfold m_update_json, put, update_json.
    destruct (json_roundtrip (mkMeta (wrap64 (0 + m' + 1)) h)) as (b & -> & _).
    pose proof (st_update_spec meta_key b (0 + m') (w_store w) meta_key_ok) as Hu.
    unfold wview in Hv. rewrite Hv in Hu. rewrite Hu. cbn. rewrite set_store_nil.
    left. split; [constructor|done].
  - destruct (decide (m' = m)) as [->|Hne].
    + destruct (m_update_json_current meta_key (mkMeta (wrap64 (n0 + m + 1)) h) w (g0 + m) v meta_key_ok Hv)
        as (v' & w' & Hu & Hf' & Hw). cbn. rewrite Hu. cbn.
      right. split_and!; [done| |by eapply wrote_meta_events].
      right. exists v', h. rewrite (wrote_view _ _ _ _ _ _ Hw meta_key_ok), decide_True by done.
      rewrite !wrap64_small in * by (unfold u64; lia).
      split; [do 2 f_equal; lia|]. rewrite Hf'. do 2 f_equal. lia.
    + cbn. rewrite (m_update_json_stale _ _ _ (g0 + m') (g0 + m) v meta_key_ok Hv) by lia. cbn.
      left. split; [constructor|done].
Qed.

Lemma first_step a w m : counter_at w m →
  let '(t', w') := advance (record_first a) w in
  unnumbered a m t' ∧ counter_at w' m ∧ same_events w w'.
Proof.
  intros [(-> & Hn & Hg & Hv)|(v & h & Hv & Hf)].
  - destruct (m_create_json_fresh meta_key (mkMeta 0 0) w meta_key_ok Hv) as (v & w' & Hcr & Hf & Hw).
    cbn. rewrite Hcr. cbn. split_and!; [|right|by eapply wrote_meta_events].
    + pose proof (un_loaded a 0 0 0) as Hl. rewrite Hn, Hg in Hl. by apply Hl.
    + exists v, 0. by rewrite (wrote_view _ _ _ _ _ _ Hw meta_key_ok), decide_True, Hn, Hg.
  - cbn. rewrite (m_create_json_exists _ _ _ _ meta_key_ok Hv). cbn.
    split_and!; [constructor|right; eauto|by intros q _].
Qed.

Lemma start_step a w m : 0 ≤ m → counter_at w m →
  let '(t', w') := advance (record_inner_task a) w in unnumbered a m t' ∧ w' = w.
Proof.
  intros Hm [(-> & Hn & Hg & Hv)|(v & h & Hv & Hf)]; cbn -[m_get_json]; unfold attempt.
  - rewrite (m_get_json_absent (A := Meta) _ _ meta_key_ok Hv). cbn. split; [constructor|done].
  - rewrite (m_get_json_present _ _ _ _ _ meta_key_ok Hv Hf). cbn. split; [constructor; lia|done].
Qed.

Lemma write_step a q w : 0 ≤ q → wview w (event_key q) = None →
  let '(t', w') := advance (record_write a q) w in
  numbered a q w' t' ∧ wview w' meta_key = wview w meta_key ∧
  ∀ q', 0 ≤ q' → q' ≠ q → wview w' (event_key q') = wview w (event_key q').
Proof.
  intros Hq Hv. cbn. unfold mbind, M_bind. cbn.
  destruct (m_create_json_fresh (event_key q) (call_event a q (default 0 (n_now (w_node w)))) w (event_key_ok _ Hq) Hv)
    as (v & w' & Hcr & Hf & Hw). rewrite Hcr. split_and!.
  - apply num_written. do 3 eexists. rewrite (wrote_view _ _ _ _ _ _ Hw (event_key_ok _ Hq)), decide_True by done.
    split; [done|exact Hf].
  - by rewrite (wrote_view _ _ _ _ _ _ Hw meta_key_ok), decide_False.
  - intros q' Hq' Hne. rewrite (wrote_view _ _ _ _ _ _ Hw (event_key_ok _ Hq')), decide_False; [done|].
    intros [= Heq]. apply pretty_Z_nonneg_inj in Heq; lia.
Qed.

Lemma unnumbered_step a t w m :
  counter_at w m → unnumbered a m t → 0 ≤ m → 0 ≤ n0 → 0 ≤ g0 → n0 + m + 1 < 2 ^ 64 → g0 + m + 1 < 2 ^ 64 →
  same_events w (advance t w).2 ∧
  (unnumbered a m (advance t w).1 ∧ counter_at (advance t w).2 m ∨
   (advance t w).1 = record_write a (n0 + m) ∧ counter_at (advance t w).2 (m + 1)).
Proof.
  intros Hc Hu Hm Hn Hg Hb1 Hb2. destruct Hu as [| |m' h Hm'|e].
  - pose proof (start_step a w m Hm Hc) as H. destruct (advance _ w) as [t' w']. destruct H as [Hu ->].
    split; [by intros q _|by left].
  - pose proof (first_step a w m Hc) as H. destruct (advance _ w) as [t' w']. destruct H as (Hu & Hc' & He).
    split; [done|by left].
  - pose proof (bump_step a w m m' h Hc Hm' Hn Hg Hb1 Hb2) as H. destruct (advance _ w) as [t' w'].
    destruct H as [[Hu ->]|(-> & Hc' & He)]; (split; [done|by eauto]).
  - cbn. split; [by intros q _|left; split; [constructor|done]].
Qed.

Lemma numbered_frame a q w w' t :
  wview w' (event_key q) = wview w (event_key q) → numbered a q w t → numbered a q w' t.
Proof using Type.
  intros Hq [Hv|(g & v & time & Hv & Hf)]; constructor; [congruence|]. exists g, v, time. by rewrite Hq.
Qed.

(** The calls own the numbers in the order of [owners]; nothing else has changed. *)
Record ledger_race w0 ts w owners : Prop := {
  lr_length : length ts = length calls;
  lr_nodup : NoDup owners;
  lr_range : Forall (λ i, (i < length calls)%nat) owners;
  lr_counter : counter_at w (len owners);
  lr_free : free_from w (n0 + len owners);
  lr_old q : 0 ≤ q < n0 → wview w (event_key q) = wview w0 (event_key q);
  lr_task i a t : calls !! i = Some a → ts !! i = Some t →
    (i ∉ owners ∧ unnumbered a (len owners) t) ∨
    ∃ k, owners !! k = Some i ∧ numbered a (n0 + Z.of_nat k) w t;
}.

Lemma bounded_nodup (l : list nat) n : NoDup l → Forall (λ i, (i < n)%nat) l → len l ≤ Z.of_nat n.
Proof using Type.
  intros Hd Hf. assert (l ⊆+ seq 0 n) as Hs.
  { apply NoDup_submseteq; [done|]. intros x Hx. rewrite Forall_forall in Hf. apply elem_of_seq.
    specialize (Hf x Hx). cbn in Hf. lia. }
  apply submseteq_length in Hs. rewrite length_seq in Hs. unfold len. lia.
Qed.

Hypothesis Hn0 : 0 ≤ n0.
Hypothesis Hg0 : 0 ≤ g0.
Hypothesis Hn1 : n0 + len calls < 2 ^ 64.
Hypothesis Hg1 : g0 + len calls < 2 ^ 64.

Lemma race_write w0 ts w owners i k a :
  ledger_race w0 ts w owners → calls !! i = Some a → owners !! k = Some i →
  ts !! i = Some (record_write a (n0 + Z.of_nat k)) → wview w (event_key (n0 + Z.of_nat k)) = None →
  ledger_race w0 (<[i := (advance (record_write a (n0 + Z.of_nat k)) w).1]> ts)
    (advance (record_write a (n0 + Z.of_nat k)) w).2 owners.
Proof using Hn0 LE LM HL.
  intros [Hl Hd Hr Hc Hf Hold Ht] Ha Hk Hi Hnone.
  pose proof (write_step a (n0 + Z.of_nat k) w ltac:(lia) Hnone) as Hw.
  destruct (advance _ w) as [t' w']. destruct Hw as (Hnum & Hmeta & Hev). cbn [fst snd].
  pose proof (lookup_lt_Some _ _ _ Hk) as Hlt. split.
  - by rewrite length_insert.
  - done.
  - done.
  - unfold counter_at. by rewrite Hmeta.
  - intros q Hq. unfold len in *. rewrite Hev by lia. apply Hf. lia.
  - intros q Hq. rewrite Hev by lia. by apply Hold.
  - intros j b t Hb Hj. apply list_lookup_insert_Some in Hj as [(-> & <- & _)|[Hne Hj]].
    + right. exists k. replace b with a by congruence. done.
    + destruct (Ht j b t Hb Hj) as [Hu|(k' & Hk' & Hnum')]; [by left|right]. exists k'. split; [done|].
      eapply numbered_frame, Hnum'. apply Hev; [lia|]. intros Heq.
      assert (k' = k) as -> by lia. congruence.
Qed.

Lemma race_number w0 ts w owners i a t :
  ledger_race w0 ts w owners → calls !! i = Some a → ts !! i = Some t → i ∉ owners →
  unnumbered a (len owners) t →
  ∃ owners', ledger_race w0 (<[i := (advance t w).1]> ts) (advance t w).2 owners'.
Proof.
  intros [Hl Hd Hr Hc Hf Hold Ht] Ha Hi Hni Hu.
  assert (len (i :: owners) ≤ len calls) as Hlen.
  { apply bounded_nodup; [by constructor|]. constructor; [by eapply lookup_lt_Some|done]. }
  pose proof (len_nonneg owners) as Hpos. unfold len in Hlen. cbn [length] in Hlen. fold (len calls) in Hlen.
  destruct (unnumbered_step a t w (len owners) Hc Hu) as [Hev Hcase]; [unfold len in *; lia..|].
  destruct (advance t w) as [t' w']. cbn [fst snd] in *.
  assert (∀ q, 0 ≤ q < n0 → wview w' (event_key q) = wview w0 (event_key q)) as Hold'.
  { intros q Hq. rewrite Hev by lia. by apply Hold. }
  assert (∀ j b u m, calls !! j = Some b → ts !! j = Some u → j ≠ i → len owners ≤ m →
    (j ∉ owners ∧ unnumbered b m u) ∨ ∃ k, owners !! k = Some j ∧ numbered b (n0 + Z.of_nat k) w' u) as Hothers.
  { intros j b u m Hb Hj _ Hm. destruct (Ht j b u Hb Hj) as [[Hno Hun]|(k & Hk & Hnum)].
    - left. split; [done|]. by eapply unnumbered_mono.
    - right. exists k. split; [done|]. eapply numbered_frame, Hnum. apply Hev. lia. }
  destruct Hcase as [[Hu' Hc']|[-> Hc']].
  - exists owners. split; try done; [by rewrite length_insert| |].
    + intros q Hq. rewrite Hev by lia. by apply Hf.
    + intros j b u Hb Hj. apply list_lookup_insert_Some in Hj as [(-> & <- & _)|[Hne Hj]].
      * left. replace b with a by congruence. done.
      * by apply Hothers.
  - exists (owners ++ [i]). split; try done; [by rewrite length_insert| | | | |].
    + apply NoDup_app. split_and!; [done| |apply NoDup_singleton]. set_solver.
    + apply Forall_app. split; [done|]. constructor; [by eapply lookup_lt_Some|done].
    + by rewrite len_app.
    + intros q Hq. rewrite len_app in Hq. change (len [i]) with 1 in Hq. rewrite Hev by lia. apply Hf. lia.
    + intros j b u Hb Hj. apply list_lookup_insert_Some in Hj as [(-> & <- & _)|[Hne Hj]].
      * right. exists (length owners). split; [by rewrite lookup_app_r, Nat.sub_diag|].
        replace b with a by congruence. apply num_taken. rewrite Hev by lia. apply Hf. unfold len. lia.
      * destruct (Hothers j b u (len owners + 1) Hb Hj) as [[Hno Hun]|(k & Hk & Hnum)]; [done|lia| |].
        -- left. rewrite len_app. split; [set_solver|done].
        -- right. exists k. split; [by apply lookup_app_l_Some|done].
Qed.

(** What other tasks may do meanwhile: anything but to the ledger's numbers. *)
Definition off_ledger_rely w w' : Prop := wview w' meta_key = wview w meta_key ∧ same_events w w'.

Lemma records_race w0 ts w :
  counter_at w0 0 → free_from w0 n0 →
  rtc (pool_step off_ledger_rely) (record_inner_task <$> calls, w0) (ts, w) →
  ∃ owners, ledger_race w0 ts w owners.
Proof.
  intros Hc Hf Hs. refine (pool_invariant _ (λ ts w, ∃ owners, ledger_race w0 ts w owners) _ _ _ _ Hs _); cbn.
  - clear Hs ts w. intros ts w i t [owners Hl] Hi. pose proof Hl as Hl'.
    destruct (lookup_lt_is_Some_2 calls i) as [a Ha].
    { rewrite <-(lr_length _ _ _ _ Hl). by eapply lookup_lt_Some. }
    destruct (lr_task _ _ _ _ Hl _ _ _ Ha Hi) as [[Hni Hu]|(k & Hk & Hnum)]; [by eapply race_number|].
    exists owners. destruct Hnum as [Hnone|Hev]; [by eapply race_write|]. cbn. by rewrite list_insert_id.
  - clear Hs ts w. intros ts w w' [owners [Hl Hd Hr Hcn Hfr Hold Ht]] [Hmeta Hev]. exists owners. split; try done.
    + unfold counter_at. by rewrite Hmeta.
    + intros q Hq. pose proof (len_nonneg owners). rewrite Hev by lia. by apply Hfr.
    + intros q Hq. rewrite Hev by lia. by apply Hold.
    + intros i a t Ha Hi. destruct (Ht i a t Ha Hi) as [?|(k & Hk & Hnum)]; [by left|right].
      exists k. split; [done|]. eapply numbered_frame, Hnum. apply Hev. lia.
  - exists []. split; try done; [by rewrite length_fmap|constructor| |].
    + unfold len; cbn. by rewrite Z.add_0_r.
    + intros i a t Ha Hi. rewrite list_lookup_fmap, Ha in Hi. injection Hi as <-.
      left. split; [apply not_elem_of_nil|constructor].
Qed.

End RecordRace.

(** C34. No event is overwritten, however many are recorded at once.  Let any list
    of [record_inner] calls run interleaved at every [await], among tasks that
    leave the counter and the events alone.  At every moment the numbers given out
    since the start belong to distinct calls, in the order of [owners]; a call that
    has returned has its event stored under its own number; the older events are as
    they were, and the numbers not given out are free.  (Left alone, the task is
    [record_inner].) *)
Theorem concurrent_records_kept {HC : Crypto} {S V N : Type} {HS : Store S V} {HL : StoreLaws S V}
    {HN : NodeActions N} {JA : AppJson V} {LA : AppJsonLaws V}
    calls n0 g0 (w : World S V N) ts w' :
  counter_at n0 g0 w 0 → free_from w n0 → 0 ≤ n0 → 0 ≤ g0 →
  n0 + len calls < 2 ^ 64 → g0 + len calls < 2 ^ 64 →
  rtc (pool_step off_ledger_rely) (record_inner_task <$> calls, w) (ts, w') →
  (∀ a (w1 : World S V N), run_task (record_inner_task a) w1
     = record_inner (rc_peer a) (rc_type a) (rc_amount a) (rc_fee a) (rc_hash a) (rc_id a) w1) ∧
  ∃ owners, NoDup owners ∧ counter_at n0 g0 w' (len owners) ∧
    (∀ i a, calls !! i = Some a → ts !! i = Some (Return (Ok tt)) →
       ∃ k, owners !! k = Some i ∧ holds_event w' a (n0 + Z.of_nat k)) ∧
    (∀ q, 0 ≤ q < n0 → wview w' (event_key q) = wview w (event_key q)) ∧
    (∀ q, n0 + len owners ≤ q → wview w' (event_key q) = None).
Proof.
  intros Hc Hf Hn Hg Hn1 Hg1 Hs. split; [intros; apply record_inner_task_run|].
  destruct (records_race calls n0 g0 Hn Hg Hn1 Hg1 w ts w' Hc Hf Hs) as [owners [Hl Hd Hr Hcn Hfr Hold Ht]].
  exists owners. split_and!; [done..| |done|done].
  intros i a Ha Hi. destruct (Ht i a _ Ha Hi) as [[_ Hu]|(k & Hk & Hnum)].
  - inversion Hu.
  - exists k. split; [done|]. by inversion Hnum.
Qed.

Module RaceExamples.
Export Scenario.

(** Two peers present the same secret. *)
Definition a_secret : list byte := be_bytes 32 4242.
Definition with_secret : W := (add_secret (hex_encode a_secret) 7000000 1000000 start).2.
Definition the_secret : ChannelSecret := mkChannelSecret (hex_encode a_secret) 7000000 1000000 false.
Definition claims : list (Task (S := MemoryStore Doc) (V := Doc) (N := MockNode) ChannelError (option ChannelPolicy)) :=
  replicate 2 (consume_secret_task host a_secret).

(** Both read it; the second is then the first to write. *)
Definition claimed : Pool := run_schedule [0; 1; 0; 1; 1; 0; 1]%nat (claims, with_secret).

Lemma first_beaten :
  outcome <$> claimed.1 !! 0%nat = Some (Some (Err (ErrStore (GenerationMismatch 0 1)))).
Proof. vm_compute. reflexivity. Qed.

Lemma second_won : ∃ p, claimed.1 !! 1%nat = Some (Return (Ok (Some p))).
Proof. eexists. reflexivity. Qed.

Lemma secret_stored :
  wview with_secret (secret_key a_secret)
  = Some (0, DSecret (mkChannelSecret (hex_encode a_secret) 7000000 1000000 false)).
Proof. vm_compute. reflexivity. Qed.

Lemma secret_claimed_once_witness :
  (∃ p, claimed.1 !! 1%nat = Some (Return (Ok (Some p))) ∧
        cp_initial_client_balance_msat p = 1000000 ∧
        ∀ j q, claimed.1 !! j = Some (Return (Ok (Some q))) → j = 1%nat) ∧
  outcome <$> claimed.1 !! 0%nat = Some (Some (Err (ErrStore (GenerationMismatch 0 1)))) ∧
  wview claimed.2 (secret_key a_secret) = None.
Proof.
  destruct (secret_claimed_once host a_secret 0 (DSecret the_secret) the_secret
              2 with_secret claimed.1 claimed.2) as (_ & Hone & Hp & _).
  - reflexivity.
  - exact secret_stored.
  - reflexivity.
  - reflexivity.
  - exact (schedule_reaches _ _ (claims, with_secret)).
  - destruct second_won as [p Hw]. destruct (Hp _ _ Hw) as (_ & H2 & H3).
    split; [|split; [exact first_beaten|exact H3]].
    exists p. split; [exact Hw|]. split; [exact H2|]. intros j q Hj. exact (Hone _ _ _ _ Hj Hw).
Defined.

(** Three calls on an empty ledger: the last has read the counter too early, and
    the first has its number but writes its event after the second. *)
Definition three_calls : list RecordCall :=
  map (λ n, mkRecordCall "02aa" LFeeEarned 0 n None None) [5; 6; 7].
Definition recorded : Pool (S := MemoryStore Doc) (V := Doc) (N := MockNode) :=
  run_schedule [0; 0; 2; 0; 1; 1; 1; 0; 2]%nat (record_inner_task <$> three_calls, start).

Lemma recorded_outcomes : (λ t, outcome t) <$> recorded.1
  = [Some (Ok tt); Some (Ok tt); Some (Err (GenerationMismatch 0 2))].
Proof. reflexivity. Qed.

Lemma start_empty k : wview start k = None.
Proof. unfold wview, start. cbn. unfold mem_view. by rewrite lookup_empty. Qed.

Lemma concurrent_records_kept_witness : ∃ owners, NoDup owners ∧
  (∃ k : nat, owners !! k = Some 0%nat ∧ holds_event recorded.2 (mkRecordCall "02aa" LFeeEarned 0 5 None None) (Z.of_nat k)) ∧
  (∃ k : nat, owners !! k = Some 1%nat ∧ holds_event recorded.2 (mkRecordCall "02aa" LFeeEarned 0 6 None None) (Z.of_nat k)).
Proof.
  destruct (concurrent_records_kept three_calls 0 0 start recorded.1 recorded.2)
    as (_ & owners & Hd & _ & Hev & _ & _).
  - left. split; [done|]. split; [done|]. split; [done|]. exact (start_empty _).
  - intros q _. exact (start_empty _).
  - lia.
  - lia.
  - reflexivity.
  - reflexivity.
  - exact (schedule_reaches _ _ (record_inner_task <$> three_calls, start)).
  - exists owners. split; [exact Hd|]. split.
    + apply (Hev 0%nat (mkRecordCall "02aa" LFeeEarned 0 5 None None)); reflexivity.
    + apply (Hev 1%nat (mkRecordCall "02aa" LFeeEarned 0 6 None None)); reflexivity.
Defined.

(** [record_once] is exactly-once only for calls that do not overlap: of two calls
    with one id, the second looks for the marker before the first has left it. *)
Definition open_call : RecordCall := mkRecordCall "02aa" LChannelOpen 5000 0 None (Some "open").
Definition recorded_twice : Pool (S := MemoryStore Doc) (V := Doc) (N := MockNode) :=
  run_schedule [0; 0; 0; 0; 0; 1; 1; 1; 1; 1; 0]%nat (replicate 2 (record_once_task "open" open_call), start).

Lemma record_once_overlaps :
  (λ t, outcome t) <$> recorded_twice.1 = [Some (Ok tt); Some (Ok tt)] ∧
  (channel_balance "02aa" recorded_twice.2).1 = Ok 10000.
Proof. split; [reflexivity|]. vm_compute. reflexivity. Qed.

End RaceExamples.
