(* ===== verification/Racy.v ===== *)
(** * Whole handlers among other tasks

    The controller's handlers as threads of one process ([Contended]): the channels
    never wedge, whatever the interleaving and wherever the process dies.  Then the
    same handlers, unchanged, in two races that lose something. *)
From S2P Require Import Prelude Text Bytes Codecs Crypto ChannelId Config Lcss Wire Sphinx State Store Node Gossip World Tasks Ledger ChannelBase ChannelForward ChannelUpdate ChannelOpen ChannelAdmin ChannelSound ChannelInv Contended Scenario ChannelCommit ChannelAdd ChannelSafety Race.
From stdpp Require Import options.
#[local] Open Scope Z_scope.

(** ** The controller's handlers in threads *)
Section Controllers.
Context {HC : Crypto} {HCL : CryptoLaws} {HO : OnionCrypto} {S V N : Type} {HS : Store S V} {HL : StoreLaws S V}.
Context {HN : NodeActions N} {JA : AppJson V} {LA : AppJsonLaws V}.
Local Notation CW := (World (Contended (S := S) keeping) V N).

Definition handles (C : Controller) (i : Input) (w : CW) : CW := (run_input C i w).2.
Definition handleable (C : Controller) (i : Input) (w : CW) : Prop := admissible C w i.

Lemma handles_sound C i w : handleable C i w → channels_sound w → channels_sound (handles C i w).
Proof using HCL LA. intros Ha. apply (step_sound C). by exists i. Qed.

End Controllers.

(** The channels survive every interleaving and every crash.  Any number of
    handlers run at once over one store: each is stopped before each of its writes
    and again after it, any time the others may go on, and the process may die
    between any two writes.  Every channel stored at any moment can still be
    committed: its pending updates fold, no balance is negative, and both states
    add up to the capacity.  (An update may be lost; the account stays right.) *)
Theorem interleaved_never_wedge {HC : Crypto} {HCL : CryptoLaws} {HO : OnionCrypto} {S V N : Type}
    {HS : Store S V} {HL : StoreLaws S V} {HN : NodeActions N} {JA : AppJson V} {LA : AppJsonLaws V}
    C s (ts : list (Thread (S := S) (V := V) (N := N))) s' peer d g v :
  store_sound s → rtc (conc (handles C) (handleable C)) ([], s) (ts, s') →
  view s' (channel_key peer) = Some (g, v) → from_slice v = Ok d →
  funds_ok (cd_lcss d) ∧ total_funds (cd_lcss d) = capacity (cd_lcss d) ∧
  ∃ n, lcss_next (with_uncommitted d) = Ok n ∧ funds_ok n ∧ total_funds n = capacity (cd_lcss d).
Proof. apply conc_never_wedge, handles_sound. Qed.

Module RacyExamples.
Export RaceExamples SafetyExamples.

(** Others that may do anything. *)
Definition any (_ _ : MemoryStore Doc) : Prop := True.
Abbreviation RW := (World (Contended any) Doc MockNode).
Definition freely (f : MemoryStore Doc → MemoryStore Doc) : Move any := exist _ f (λ _, I).

(** A world whose store the others share, and the world afterwards. *)
Definition among (others : list (MemoryStore Doc → MemoryStore Doc)) (w : W) : RW :=
  contend (map freely others) None w.
Definition after (w : RW) : W :=
  mkWorld (co_now (w_store w)) (w_node w) (w_encodings w) (w_connections w) (w_log w).

(** What a whole handler of another task does to the store. *)
Definition meanwhile (i : Input) (w : W) (s : MemoryStore Doc) : MemoryStore Doc :=
  w_store (run i (mkWorld s (w_node w) (w_encodings w) (w_connections w) (w_log w))).

(** ** Two tasks on one channel

    [handle_update_add] of the peer's HTLC has loaded the record when the node's
    HTLC is put on the channel; then it saves. *)
Definition node_add : MemoryStore Doc → MemoryStore Doc :=
  meanwhile (InHtlcAdd peer htlc "77/7" 77 7 None (Some 1700)) opened.
Definition add_among (others : list (MemoryStore Doc → MemoryStore Doc)) : result ChannelError unit * RW :=
  run_input (S := Contended any) host (InUpdateAdd peer peer_htlc) (among others opened).

Definition raced_channel : W := after (add_among [node_add]).2.
(** The other order: the node's HTLC first, then the whole of [handle_update_add]. *)
Definition serial_channel : W := run (InUpdateAdd peer peer_htlc) added.

(** An update lost to a race ([Losses.concurrent_update_lost] is the general case).  [handle_update_add], run as it is on a
    store where the node's HTLC is added between its load and its save, succeeds and
    overwrites that HTLC, since saving a channel compares no generation; run one
    after the other, both are kept.  The state_update the peer then signs over the
    two HTLCs it knows commits in the second case and is ignored in the first. *)
Theorem raced_add_lost :
  (add_among [node_add]).1 = Ok tt ∧
  local_adds (data added) = [(1, uah_payment_hash htlc)] ∧
  cd_uncommitted (data raced_channel) = [URemote (PAdd peer_htlc)] ∧
  cd_uncommitted (data serial_channel) = cd_uncommitted (data added) ++ [URemote (PAdd peer_htlc)] ∧
  cd_lcss (data (run (InStateUpdate peer peer_commit) raced_channel)) = cd_lcss (data opened) ∧
  local_updates (cd_lcss (data (run (InStateUpdate peer peer_commit) serial_channel)))
    = local_updates (cd_lcss (data opened)) + 1.
Proof. split_and!; vm_compute; reflexivity. Qed.

(** ** Two channels and one ledger

    The peer's [state_update] commits the HTLC; before the ledger's counter is
    moved for it, an event of another channel is recorded. *)
Definition other_record (s : MemoryStore Doc) : MemoryStore Doc :=
  w_store (record_inner "02bb" LHtlcForwarded 5000 0 None None
             (mkWorld s (w_node added) (w_encodings added) (w_connections added) [])).2.
Definition commit_among (others : list (MemoryStore Doc → MemoryStore Doc)) : result ChannelError unit * RW :=
  run_input (S := Contended any) host (InStateUpdate peer (commit_msg added)) (among others added).

(** The first two writes save the channel, the third moves the counter. *)
Definition conflicting : list (MemoryStore Doc → MemoryStore Doc) := [id; id; id; id; other_record].

Definition conflicted : W := after (commit_among conflicting).2.
Definition sent (w : W) : nat := length (mn_sent_messages (w_node w)).

(** A commitment that goes unanswered ([Losses.commit_unanswered] is the general case).  The host stores the state it has
    cross-signed, then records it in the ledger; when an event of any other channel
    is recorded in between, the ledger's compare-and-swap fails, and with it the
    handler, before the host's state_update is sent.  Repeating the message does
    not help, since nothing is pending any more; only a reconnection does.  With
    nobody in between, the same message is answered. *)
Theorem commit_reply_lost :
  (commit_among conflicting).1 = Err (ErrStore (GenerationMismatch 1 2)) ∧
  cd_lcss (data conflicted) = cd_lcss (data carried) ∧ cd_uncommitted (data conflicted) = [] ∧
  sent conflicted = sent added ∧
  (run_input host (InStateUpdate peer (commit_msg added)) conflicted).1 = Ok tt ∧
  sent (run_input host (InStateUpdate peer (commit_msg added)) conflicted).2 = sent added ∧
  (run_input host (InConnect peer) conflicted).1 = Ok tt ∧
  sent (run_input host (InConnect peer) conflicted).2 = Datatypes.S (sent added) ∧
  (commit_among []).1 = Ok tt ∧ sent (after (commit_among []).2) = Datatypes.S (sent added).
Proof. split_and!; vm_compute; reflexivity. Qed.

(** ** Two handlers in threads

    Two HTLCs of the node are put on one channel at once; the process dies when the
    first handler has saved the channel and the second has only begun. *)
Abbreviation T := (Thread (S := MemoryStore Doc) (V := Doc) (N := MockNode) (Act := Input)).
Definition second_htlc : UpdateAddHtlc :=
  mkUpdateAddHtlc (be_bytes 32 0) 8 3000000 (Toy.digest (be_bytes 32 78)) 1600 (be_bytes 1366 0) [].
Definition first_thread : T :=
  mkThread (InHtlcAdd peer htlc "77/7" 77 7 None (Some 1700)) opened [].
Definition second_thread : T :=
  mkThread (InHtlcAdd peer second_htlc "77/8" 77 8 None (Some 1700)) opened [].

Lemma opened_store_sound : store_sound (w_store opened).
Proof. apply channels_sound_store. exact opened_sound. Qed.

(** A thread once it has found a store, and the store it makes of it. *)
Definition finding (s : MemoryStore Doc) (Hs : store_sound s) (t : T) : T := th_find (found s Hs) t.
Definition wrote_store (n : nat) (t : T) : MemoryStore Doc := co_now (w_store (th_run (handles host) n t)).

Definition first1 : T := finding _ opened_store_sound first_thread.
Definition store1 : MemoryStore Doc := wrote_store 1 first1.
Lemma store1_sound : store_sound store1.
Proof. apply (th_run_sound _ _ (handles_sound host)); [exact opened_store_sound|]. by vm_compute. Qed.

Definition second1 : T := finding _ store1_sound second_thread.
Definition store2 : MemoryStore Doc := wrote_store 1 second1.
Lemma store2_sound : store_sound store2.
Proof. apply (th_run_sound _ _ (handles_sound host)); [exact opened_store_sound|]. by vm_compute. Qed.

Definition first2 : T := finding _ store2_sound (finding _ store2_sound first1).
Definition store3 : MemoryStore Doc := wrote_store 2 first2.
Lemma store3_sound : store_sound store3.
Proof. apply (th_run_sound _ _ (handles_sound host)); [exact opened_store_sound|]. by vm_compute. Qed.

Definition first3 : T := finding _ store3_sound (finding _ store3_sound first2).
Definition store4 : MemoryStore Doc := wrote_store 3 first3.

Lemma writes_made :
  co_left (w_store (th_run (handles host) 1 first1)) = Some O ∧ co_left (w_store (th_run (handles host) 1 second1)) = Some O ∧
  co_left (w_store (th_run (handles host) 2 first2)) = Some O ∧ co_left (w_store (th_run (handles host) 3 first3)) = Some O.
Proof. split_and!; vm_compute; reflexivity. Qed.

Lemma adds_admissible (w : World (Contended (S := MemoryStore Doc) keeping) Doc MockNode) :
  handleable host (th_act first_thread) w ∧ handleable host (th_act second_thread) w.
Proof. split; by vm_compute. Qed.

Lemma write_to (ts ts' : list T) (s s' : MemoryStore Doc) (k : nat) (t : T) (Hs : store_sound s) n :
  ts !! k = Some t → length (th_moves t) = (2 * n)%nat →
  handleable host (th_act t) (th_begin (Datatypes.S n) (finding s Hs t)) →
  co_left (w_store (th_run (handles host) (Datatypes.S n) (finding s Hs t))) = Some O →
  s' = wrote_store (Datatypes.S n) (finding s Hs t) → ts' = <[k := finding s Hs t]> ts →
  conc (handles host) (handleable host) (ts, s) (ts', s').
Proof. intros ???? -> ->. by apply conc_write. Qed.

Lemma look_at (ts ts' : list T) (s : MemoryStore Doc) (k : nat) (t : T) (Hs : store_sound s) n :
  ts !! k = Some t → length (th_moves t) = Datatypes.S (2 * n) → ts' = <[k := finding s Hs t]> ts →
  conc (handles host) (handleable host) (ts, s) (ts', s).
Proof. intros ?? ->. by eapply conc_look. Qed.

Lemma crashed_run : rtc (conc (handles host) (handleable host)) ([], w_store opened) ([] : list T, store4).
Proof.
  destruct writes_made as (H1 & H2 & H3 & H4).
  eapply rtc_l; [exact (conc_start (handles host) (handleable host) [] opened (th_act first_thread))|]. cbn [app].
  eapply rtc_l; [exact (conc_start (handles host) (handleable host) [first_thread] opened (th_act second_thread))|]. cbn [app].
  apply (rtc_l _ _ ([first1; second_thread], store1)).
  { exact (write_to [first_thread; second_thread] [first1; second_thread] (w_store opened) store1 0
             first_thread opened_store_sound 0 eq_refl eq_refl (proj1 (adds_admissible _)) H1 eq_refl eq_refl). }
  apply (rtc_l _ _ ([first1; second1], store2)).
  { exact (write_to [first1; second_thread] [first1; second1] store1 store2 1 second_thread store1_sound 0 eq_refl eq_refl (proj2 (adds_admissible _)) H2 eq_refl eq_refl). }
  apply (rtc_l _ _ ([finding _ store2_sound first1; second1], store2)).
  { exact (look_at [first1; second1] [finding _ store2_sound first1; second1] store2 0 first1 store2_sound 0 eq_refl eq_refl eq_refl). }
  apply (rtc_l _ _ ([first2; second1], store3)).
  { exact (write_to [finding _ store2_sound first1; second1] [first2; second1] store2 store3 0 (finding _ store2_sound first1) store2_sound 1 eq_refl eq_refl (proj1 (adds_admissible _)) H3 eq_refl eq_refl). }
  apply (rtc_l _ _ ([finding _ store3_sound first2; second1], store3)).
  { exact (look_at [first2; second1] [finding _ store3_sound first2; second1] store3 0 first2 store3_sound 1 eq_refl eq_refl eq_refl). }
  apply (rtc_l _ _ ([first3; second1], store4)).
  { exact (write_to [finding _ store3_sound first2; second1] [first3; second1] store3 store4 0 (finding _ store3_sound first2) store3_sound 2 eq_refl eq_refl (proj1 (adds_admissible _)) H4 eq_refl eq_refl). }
  apply rtc_once, conc_crash.
Qed.

(** The record the crash leaves. *)
Definition record_at (s : MemoryStore Doc) : option (Z * Doc) := view s (channel_key peer).
Definition channel_in (s : MemoryStore Doc) : ChannelData :=
  match record_at s with Some (_, DChannel d) => d | _ => new_channel_data policy [] end.

Lemma store4_record : match record_at store4 with Some (_, DChannel _) => true | _ => false end = true.
Proof. vm_compute. reflexivity. Qed.

Lemma interleaved_never_wedge_witness :
  local_adds (channel_in store4) = [(1, uah_payment_hash htlc)] ∧
  ∃ n, lcss_next (with_uncommitted (channel_in store4)) = Ok n ∧ total_funds n = 100000000.
Proof.
  split; [vm_compute; reflexivity|]. pose proof store4_record as Hr.
  destruct (record_at store4) as [[g [d| | | | | |]]|] eqn:Hv; try discriminate Hr.
  destruct (interleaved_never_wedge host (w_store opened) [] store4 peer (channel_in store4) g (DChannel d))
    as (_ & _ & n & Hn & _ & Ht).
  - exact opened_store_sound.
  - exact crashed_run.
  - exact Hv.
  - unfold channel_in. rewrite Hv. reflexivity.
  - exists n. split; [exact Hn|]. rewrite Ht. vm_compute. reflexivity.
Defined.

End RacyExamples.
