(* ===== verification/Losses.v ===== *)
(** * Where something is lost

    Four places where the code keeps less than one would expect, each as a theorem
    about every state it happens in: a link that a new HTLC inherits, an update that a
    concurrent handler overwrites, a commitment that is not answered, and an incoming
    amount that is not looked at (the last in [PluginFindings]).  [SafetyExamples] and
    [RacyExamples] evaluate them on the scenario. *)
From S2P Require Import Prelude Text Bytes Codecs Crypto ChannelId Config Lcss Wire Sphinx State Store Node Gossip World Ledger ChannelBase ChannelForward ChannelUpdate ChannelOpen ChannelAdmin ChannelSound ChannelInv Contended Scenario ChannelCommit ChannelAdd ChannelSafety Race Racy.
From Stdlib Require Import Ascii.
From stdpp Require Import options.
#[local] Open Scope Z_scope.

(** What a store holds of a peer's channel. *)
Definition holds {HC : Crypto} {S V : Type} {HV : StoreView S V} {JA : AppJson V} (s : S) (peer : PublicKey)
    (d : ChannelData) : Prop :=
  ∃ g v, view s (channel_key peer) = Some (g, v) ∧ from_slice v = Ok d.

(** A channel on which the host takes the HTLC [h] of the peer. *)
Definition takes_add {HC : Crypto} (d : ChannelData) (h : UpdateAddHtlc) : Prop :=
  derive_status d = Active ∧
  ∃ n, lcss_next (with_uncommitted d) = Ok n ∧ uah_amount_msat h ≤ remote_balance_msat n.

Section Shared.
#[local] Set Default Proof Using "Type*".
Context {HC : Crypto} {HCL : CryptoLaws} {HO : OnionCrypto} {S V N : Type} {HS : Store S V} {HV : StoreView S V}.
Context {HL : SharedStore S V} {HN : NodeActions N} {JA : AppJson V} {LA : AppJsonLaws V}.
Local Notation M := (M (S := S) (V := V) (N := N)).
Implicit Types (w : World S V N) (d : ChannelData).

Lemma require_holds w peer d : holds (w_store w) peer d → require_channel peer w = (Ok d, w).
Proof.
  intros (g & v & Hv & Hf). unfold require_channel, load_channel, load_optional, mbind, M_bind, attempt.
  by rewrite (m_get_json_present _ w _ _ _ (channel_key_ok peer) Hv Hf).
Qed.

(** Taking the peer's HTLC is saving the record with it, on any store. *)
Lemma update_add_saves C peer d h w : holds (w_store w) peer d → takes_add d h →
  handle_update_add C peer h w = save_channel peer (push_uncommitted (URemote (PAdd h)) d) None w.
Proof.
  intros Hd (Hst & n & Hn & Hle). unfold handle_update_add. unfold mbind at 1, M_bind at 1.
  rewrite (require_holds _ _ _ Hd). unfold status_is. rewrite bool_decide_true by done. cbn [negb].
  unfold mbind, M_bind, next_state, of_result. rewrite Hn. cbn [map_err]. by rewrite (proj2 (Z.ltb_ge _ _)) by done.
Qed.

(** ** Calls that leave the channels alone *)

Definition no_send (e : Event V) : Prop := match e with EvSend _ _ => False | _ => True end.

(** The same records of all channels, under the same generations. *)
Definition spares (s s' : S) : Prop := ∀ peer, view s' (channel_key peer) = view s (channel_key peer).

(** A call that leaves every channel's record alone and sends nothing. *)
Definition aside {E A} (m : M E A) : Prop := ∀ w,
  spares (w_store w) (w_store (m w).2) ∧ ∃ l, w_log (m w).2 = w_log w ++ l ∧ Forall no_send l.

Lemma aside_read {E A} (m : M E A) : (∀ w, (m w).2 = w) → aside m.
Proof. intros Hm w. rewrite Hm. split; [done|]. exists []. by rewrite app_nil_r. Qed.

Lemma aside_bind {E A B} (m : M E A) (f : A → M E B) : aside m → (∀ a, aside (f a)) → aside (m ≫= f).
Proof.
  intros Hm Hf w. unfold mbind, M_bind. destruct (Hm w) as (H1 & l & Hl & Hn).
  destruct (m w) as [[a|e] w1]; cbn in *; [|split; [done|by exists l]].
  destruct (Hf a w1) as (H2 & l2 & Hl2 & Hn2). split; [intros peer; by rewrite H2, H1|]. exists (l ++ l2).
  rewrite Hl2, Hl, app_assoc. split; [done|]. by apply Forall_app.
Qed.

Lemma aside_attempt {E E' A} (m : M E A) : aside m → aside (attempt (E' := E') m).
Proof. intros Hm w. specialize (Hm w). unfold attempt. by destruct (m w). Qed.
Lemma aside_lift {E E' A} (f : E → E') (m : M E A) : aside m → aside (lift f m).
Proof. intros Hm w. specialize (Hm w). unfold lift. by destruct (m w). Qed.

(** As long as the other tasks leave the channels alone. *)
Hypothesis others_spare : ∀ s s', others s s' → spares s s'.

Lemma shared_write_off k allowed (s s' : S) : off_channels k → shared_write others k allowed s s' → spares s s'.
Proof.
  intros Hoff Hw peer. destruct Hw as [Ho|s1 s2 o Ho1 _ Hs Ho2]; [by apply others_spare|].
  rewrite (others_spare _ _ Ho2), Hs by apply channel_key_ok.
  rewrite decide_False by (intros Heq; by apply (Hoff peer)). by apply others_spare.
Qed.

Lemma aside_put {A} {J : Json V A} k (a : A) op : off_channels k →
  (∀ s, (op s).2 = s ∨ ∃ allowed, shared_write others k allowed s (op s).2) → aside (put k a op).
Proof.
  intros Hoff Hop w. unfold put. specialize (Hop (w_store w)).
  assert (spares (w_store w) (op (w_store w)).2) as Hv.
  { destruct Hop as [->|[allowed Hw]]; [done|]. by eapply shared_write_off. }
  destruct (op (w_store w)) as [[u|e] s]; cbn in *; (split; [exact Hv|]); (eexists; split; [done|]).
  - destruct (to_vec a); by repeat constructor.
  - constructor.
Qed.

Lemma aside_create {A} {J : Json V A} k (a : A) : key_ok k → off_channels k → aside (m_create_json k a).
Proof.
  intros Hk Hoff. apply aside_put; [done|]. intros s. unfold create_json.
  destruct (to_vec a) as [v|]; [right; eexists; by apply shared_create|by left].
Qed.
Lemma aside_update {A} {J : Json V A} k (a : A) g : key_ok k → off_channels k → aside (m_update_json k a g).
Proof.
  intros Hk Hoff. apply aside_put; [done|]. intros s. unfold update_json.
  destruct (to_vec a) as [v|]; [right; eexists; by apply shared_update|by left].
Qed.

Lemma aside_record_inner who ty amt fee hash id : aside (record_inner who ty amt fee hash id).
Proof.
  unfold record_inner, load_meta. apply aside_bind.
  - apply aside_bind; [by apply aside_attempt, aside_read|]. intros [mg|[]]; try by apply aside_read.
    apply aside_bind; [|intros; by apply aside_read]. apply aside_create; [apply meta_key_ok|apply off_meta].
  - intros [meta g]. apply aside_bind; [apply aside_update; [apply meta_key_ok|apply off_meta]|]. intros _.
    apply aside_bind; [by apply aside_read|]. intros t. apply aside_create; [apply event_key_ok'|apply off_event].
Qed.

Lemma aside_record_once id who ty amt fee hash : lacks "/"%char id = true →
  aside (record_once id who ty amt fee hash).
Proof.
  intros Hid%marker_key_ok. unfold record_once.
  apply aside_bind; [by apply aside_read|]. intros [|]; [by apply aside_read|].
  apply aside_bind; [apply aside_record_inner|]. intros _. apply aside_bind; [|intros [|[]]; by apply aside_read].
  apply aside_attempt, aside_create; [done|apply off_marker].
Qed.

Lemma aside_record_events peer us s0 s1 : aside (record_committed_update_events peer us s0 s1).
Proof.
  unfold record_committed_update_events. induction us as [|u us IH]; cbn [for_each]; [by apply aside_read|].
  apply aside_bind; [|by intros _]. unfold record_committed_update, record_resolved.
  assert (∀ what ty h id, lacks "/"%char what = true → aside (record_htlc_event peer s1 what ty h id)) as Hr.
  { intros what ty h id Hw. apply aside_lift, aside_record_once. unfold update_event_id.
    rewrite !lacks_app, peer_hex_lacks, Hw, !pretty_lacks by done. done. }
  destruct u as [[]|[]]; try case_match; (by apply Hr) || (by apply aside_read).
Qed.

End Shared.

Section Losses.
#[local] Set Default Proof Using "Type*".
Context {HC : Crypto} {HCL : CryptoLaws} {HO : OnionCrypto} {S V N : Type}.
Context {HS : Store S V} {HL : StoreLaws S V} {HN : NodeActions N}.
Context {JA : AppJson V} {LA : AppJsonLaws V}.
Local Notation M := (M (S := S) (V := V) (N := N)).
Implicit Types (w : World S V N) (d : ChannelData).

(** ** A link that is inherited *)



(** ** An update that is overwritten *)

(** The others do [f] to the store, whatever that is, before the handler's first write. *)
Definition at_will (_ _ : S) : Prop := True.
Definition doing (f : S → S) : Move at_will := exist (λ f : S → S, ∀ s, at_will s (f s)) f (λ _, I).
Definition while (f : S → S) w : World (Contended at_will) V N := contend [doing f] None w.

Lemma overwrites f w peer d d' : holds (f (w_store w)) peer d' →
  ∃ w' : World (Contended at_will) V N, save_channel peer d None (while f w) = (Ok tt, w') ∧ holds (co_now (w_store w')) peer d.
Proof.
  intros (g & v & Hv & Hf). destruct (json_roundtrip d) as (v1 & Hto & Hfrom).
  unfold save_channel, create_or_overwrite, attempt, mbind, M_bind, store, lift, m_create_json, put, create_json.
  rewrite Hto. pose proof (st_create_spec (channel_key peer) v1 (f (w_store w)) (channel_key_ok peer)) as Hc.
  rewrite Hv in Hc.
  unfold while, contend, doing. cbn. unfold co_write, co_turn. cbn. rewrite Hc. cbn.
  unfold m_get_json, get_json. cbn. rewrite st_get_spec by apply channel_key_ok. rewrite Hv. cbn. rewrite Hf. cbn.
  pose proof (st_update_spec (channel_key peer) v1 g (f (w_store w)) (channel_key_ok peer)) as Hu.
  rewrite Hv, decide_True in Hu by done. destruct Hu as (s & Hu & Hs).
  unfold m_update_json, put, update_json. rewrite Hto. cbn. unfold co_write, co_turn. cbn. rewrite Hu. cbn.
  eexists. split; [reflexivity|]. cbn. exists (wrap64 (g + 1)), v1.
  split; [|done]. rewrite (Hs _ (channel_key_ok peer)). by rewrite decide_True.
Qed.

(** C37. An update can be lost to a race.  Let another task do anything to the store
    between the load and the save of a [handle_update_add] that takes the HTLC: add an
    update to the same channel, say, so that it holds the record [d'].  The handler
    succeeds, and what is stored is the record it had loaded with its own HTLC: of
    what the other task has changed in the channel nothing is left, since saving a
    channel compares no generation.  When the two run one after the other instead, the
    record is [d'] with the HTLC. *)
Theorem concurrent_update_lost C peer h f w d d' :
  holds (w_store w) peer d → takes_add d h → holds (f (w_store w)) peer d' →
  (∃ w' : World (Contended at_will) V N, handle_update_add C peer h (while f w) = (Ok tt, w') ∧
         holds (co_now (w_store w')) peer (push_uncommitted (URemote (PAdd h)) d)) ∧
  ∀ w1, w_store w1 = f (w_store w) → takes_add d' h →
    ∃ w1', handle_update_add C peer h w1 = (Ok tt, w1') ∧
           holds (w_store w1') peer (push_uncommitted (URemote (PAdd h)) d').
Proof.
  intros Hd Ht Hd'. split.
  - rewrite (update_add_saves C peer d h (while f w)) by done. by eapply overwrites.
  - intros w1 Hs Ht'. rewrite <-Hs in Hd'. rewrite (update_add_saves C peer d' h w1) by done.
    destruct (save_channel_wrote w1 peer d' (push_uncommitted (URemote (PAdd h)) d')) as (g & v & w1' & Hsave & Hf & Hw);
      [exact Hd'|]. exists w1'. split; [exact Hsave|]. exact (wrote_channel_at _ _ _ _ _ _ Hw Hf).
Qed.

End Losses.

(** ** A commitment that is not answered *)

Section Unanswered.
#[local] Set Default Proof Using "Type*".
Context {HC : Crypto} {HCL : CryptoLaws} {HO : OnionCrypto} {S V N : Type}.
Context {HS : Store S V} {HL : StoreLaws S V} {HN : NodeActions N}.
Context {JA : AppJson V} {LA : AppJsonLaws V}.

(** A store to which other tasks may do anything, at any write, except to channels. *)
Local Notation Shared := (Contended (S := S) spares).
Local Notation CW := (World Shared V N).
Implicit Types (c : Shared) (w : CW) (d : ChannelData).

Lemma others_spare_channels c c' : others (S := Shared) (V := V) c c' → spares c c'.
Proof.
  intros Ho. change (rtc spares (co_now c) (co_now c')) in Ho. intros peer.
  change (view (co_now c') (channel_key peer) = view (co_now c) (channel_key peer)).
  induction Ho as [|s1 s2 s3 H12 _ IH]; [done|]. by rewrite IH.
Qed.

Lemma turn_spares c : spares (co_now c) (co_now (co_turn c)).
Proof. unfold co_turn. destruct (co_moves c) as [|[f Hf] ms]; [done|]. apply Hf. Qed.
Lemma turn_left c : co_left (co_turn c) = co_left c.
Proof. unfold co_turn. by destruct (co_moves c). Qed.

Lemma create_among c peer gv v : co_left c = None → view (co_now c) (channel_key peer) = Some gv →
  ∃ c', st_create (channel_key peer) v c = (Err (AlreadyExists (channel_key peer)), c') ∧
        co_left c' = None ∧ view (co_now c') (channel_key peer) = Some gv.
Proof.
  intros Hl Hv. pose proof (st_create_spec (channel_key peer) v (co_now (co_turn c)) (channel_key_ok peer)) as Hc.
  rewrite (turn_spares c), Hv in Hc. cbn. unfold co_write. rewrite Hc, turn_left, Hl.
  eexists. split; [reflexivity|]. split; [apply turn_left|]. rewrite (turn_spares _ peer). cbn.
  by rewrite (turn_spares c peer).
Qed.

Lemma update_among c peer g v0 v : co_left c = None → view (co_now c) (channel_key peer) = Some (g, v0) →
  ∃ c', st_update (channel_key peer) v g c = (Ok tt, c') ∧
        view (co_now c') (channel_key peer) = Some (wrap64 (g + 1), v).
Proof.
  intros Hl Hv. pose proof (st_update_spec (channel_key peer) v g (co_now (co_turn c)) (channel_key_ok peer)) as Hc.
  rewrite (turn_spares c), Hv, decide_True in Hc by done. destruct Hc as (s & Hc & Hs).
  cbn. unfold co_write. rewrite Hc, turn_left, Hl. eexists. split; [reflexivity|].
  rewrite (turn_spares _ peer). cbn. rewrite (Hs _ (channel_key_ok peer)). by rewrite decide_True.
Qed.

(** Saving a channel among tasks that leave it alone. *)
Lemma save_among w peer d0 d : co_left (w_store w) = None → holds (w_store w) peer d0 →
  ∃ v w', save_channel peer d None w = (Ok tt, w') ∧ holds (w_store w') peer d ∧
          w_log w' = w_log w ++ [EvPut (channel_key peer) v].
Proof.
  intros Hl (g & v0 & Hv & Hf). destruct (json_roundtrip d) as (v & Hto & Hfrom).
  destruct (create_among (w_store w) peer _ v Hl Hv) as (c1 & Hc1 & Hl1 & Hv1).
  destruct (update_among c1 peer g v0 v Hl1 Hv1) as (c2 & Hc2 & Hv2).
  unfold save_channel, create_or_overwrite, attempt, mbind, M_bind, store, lift, m_create_json, put, create_json.
  rewrite Hto, Hc1. rewrite (m_get_json_present _ (set_store c1 [] w) _ _ _ (channel_key_ok peer) Hv1 Hf).
  cbn [map_err]. unfold m_update_json, put, update_json. rewrite Hto. cbn [w_store set_store]. rewrite Hc2.
  eexists v, _. split; [reflexivity|]. split; [by exists (wrap64 (g + 1)), v|]. cbn. by rewrite app_nil_r.
Qed.

(** C38. A commitment can stand and go unanswered.  While a handler runs, let other
    tasks do anything at all to the store around each of its writes, except to the
    channels' records.  Let a [state_update] be one that the host accepts for an
    active channel.  If, with what the others do, the ledger fails to record its
    events (it does when an event of another channel is recorded at the wrong moment),
    the handler fails with that error: the cross-signed state is stored and nothing is
    pending any more, nothing at all has been sent to the peer, and repeating the
    [state_update] succeeds without doing anything, so that it is never answered. *)
Theorem commit_unanswered C height peer d m d' w saved r :
  co_left (w_store w) = None → holds (w_store w) peer d → chan_sound d → derive_status d = Active →
  (n_get_block_height (w_node w)).1 = Ok height → accepts C (height `div` 144) peer d m d' →
  save_channel peer d' None (current_block_day w).2 = (r, saved) →
  ∀ e, (record_committed_update_events peer (cd_uncommitted d) (cd_lcss d) (cd_lcss d') saved).1 = Err e →
  ∃ w' l, handle_state_update C peer m w = (Err e, w') ∧ holds (w_store w') peer d' ∧ cd_uncommitted d' = [] ∧
    w_log w' = w_log w ++ l ∧ Forall no_send l ∧
    handle_state_update C peer m w' = (Ok tt, w').
Proof.
  intros Hl Hat Hd Hst Hh Ha. inversion Ha as [|n s _ Hne Hc1 Hc2 Hday Hn Hv Hs|]; subst; [congruence| |congruence].
  pose proof (sound_deduplicated d Hd) as Hdd.
  pose proof Hh as (w1 & Hw1 & Hstore & Hlog)%current_block_day_run. rewrite Hw1. cbn [snd]. rewrite <-Hstore in Hl.
  destruct (save_among w1 peer d (set_uncommitted [] (set_lcss s d)) Hl) as (v & w2 & Hsave & Hat2 & Hlog2);
    [by rewrite Hstore|]. rewrite Hsave. intros [= <- <-] e Hrec.
  destruct (aside_record_events others_spare_channels peer (cd_uncommitted d) (cd_lcss d) s w2) as (Hframe & l & Hl2 & Hsilent).
  assert (holds (w_store (record_committed_update_events peer (cd_uncommitted d) (cd_lcss d) s w2).2) peer
            (set_uncommitted [] (set_lcss s d))) as Hat'
    by (destruct Hat2 as (g & v' & Hv' & Hf'); exists g, v'; by rewrite Hframe).
  change (cd_lcss (set_uncommitted [] (set_lcss s d))) with s in Hrec.
  destruct (record_committed_update_events _ _ _ s w2) as [r w'] eqn:Hev. cbn [fst snd] in *. subst r.
  exists w', (EvPut (channel_key peer) v :: l). split; [|split; [exact Hat'|split; [done|split; [|split]]]].
  - unfold handle_state_update. unfold mbind at 1, M_bind at 1. rewrite (require_holds _ _ _ Hat), Hst.
    unfold handle_active_state_update, repair_duplicate_uncommitted_resolutions.
    rewrite Hdd, Z.eqb_refl. unfold mbind at 1, M_bind at 1. cbn [negb mret M_ret].
    destruct (is_empty (cd_uncommitted d)) eqn:He; [by destruct (cd_uncommitted d)|]. clear He.
    unfold counters_match. rewrite Hc1, Hc2, !Z.eqb_refl. cbn [andb negb].
    unfold mbind at 1, M_bind at 1. rewrite Hw1, Hday, Z.eqb_refl. cbn [negb].
    unfold mbind at 1, M_bind at 1, next_state at 1, of_result. rewrite Hn. cbn [map_err]. cbv zeta. rewrite Hv. cbn [negb].
    unfold mbind at 1, M_bind at 1, sign_state at 1, encoded, of_result. rewrite Hs. cbn [map_err].
    unfold mbind at 1, M_bind at 1. rewrite Hsave. unfold mbind at 1, M_bind at 1. by rewrite Hev.
  - by rewrite Hl2, Hlog2, Hlog, <-app_assoc.
  - by constructor.
  - unfold handle_state_update. unfold mbind at 1, M_bind at 1. rewrite (require_holds _ _ _ Hat').
    assert (derive_status (set_uncommitted [] (set_lcss s d)) = Active) as ->; [|reflexivity].
    clear -Hst. unfold derive_status in *. cbn. by repeat case_match.
Qed.

End Unanswered.

Module LossesExamples.
Export RacyExamples.

(** ** The override's stale link *)





(** ** The node's HTLC, overwritten *)

Lemma meanwhile_self i (w : W) : meanwhile i w (w_store w) = w_store (run i w).
Proof. by destruct w. Qed.

Lemma concurrent_update_lost_witness :
  cd_uncommitted (data added) ≠ [] ∧
  ∃ w' : World (Contended at_will) Doc MockNode, handle_update_add host peer peer_htlc (while node_add opened) = (Ok tt, w') ∧
    holds (co_now (w_store w')) peer (push_uncommitted (URemote (PAdd peer_htlc)) (data opened)).
Proof.
  split; [vm_compute; discriminate|].
  apply (concurrent_update_lost host peer peer_htlc node_add opened (data opened) (data added)).
  - exact CommitExamples.opened_at.
  - split; [vm_compute; reflexivity|]. exists (next_of opened). split; [vm_compute; reflexivity|vm_compute; discriminate].
  - unfold node_add. rewrite meanwhile_self. exact CommitExamples.added_at.
Defined.

(** ** The ledger's counter, moved by another channel *)

Lemma other_record_spares s : spares s (other_record s).
Proof.
  unfold other_record.
  assert (∀ s s' : MemoryStore Doc, others s s' → spares s s') as Ho by (by intros ?? <-).
  apply (aside_record_inner (N := MockNode) Ho "02bb" LHtlcForwarded 5000 0 None None (mkWorld s (w_node added) (w_encodings added) (w_connections added) [])).
Qed.
Definition nothing : Move (S := MemoryStore Doc) spares := exist (λ f, ∀ s, spares s (f s)) id (λ _ _, eq_refl).
Definition other_event : Move (S := MemoryStore Doc) spares := exist (λ f, ∀ s, spares s (f s)) other_record other_record_spares.
Definition disturbed : World (Contended (S := MemoryStore Doc) spares) Doc MockNode :=
  contend [nothing; nothing; nothing; nothing; other_event] None added.

Lemma commit_unanswered_witness :
  ∃ w' l, handle_state_update host peer (commit_msg added) disturbed = (Err (ErrStore (GenerationMismatch 1 2)), w') ∧
    holds (w_store w') peer CommitExamples.committed_record ∧ w_log w' = w_log disturbed ++ l ∧ Forall no_send l.
Proof.
  destruct (commit_unanswered host 1440 peer (data added) (commit_msg added) CommitExamples.committed_record disturbed
    _ _ eq_refl CommitExamples.added_at (added_sound _ _ CommitExamples.added_at) ltac:(vm_compute; reflexivity)
    ltac:(vm_compute; reflexivity) CommitExamples.added_accepts (surjective_pairing _)
    (ErrStore (GenerationMismatch 1 2)) ltac:(vm_compute; reflexivity)) as (w' & l & Hrun & Hat & _ & Hl & Hsilent & _).
  exists w', l. split; [exact Hrun|]. split; [exact Hat|]. split; [exact Hl|exact Hsilent].
Defined.

End LossesExamples.
