(* ===== verification/PluginRequest.v ===== *)
(** * The plugin's requests and answers ([src/main.rs])

    The options, the feature bits, and the helpers with which the plugin's
    handlers take a JSON request apart and build their JSON answers.  The option
    values and errors of [cln_plugin] and [anyhow] are data; a file is read by
    the argument [read_to_string]. *)
From S2P Require Import Prelude Text Bytes Codecs Crypto ChannelId Config Lcss Wire State Store Node World Ledger ChannelBase Keys Json ClnStore ClnNode.
From stdpp Require Import options.
From Stdlib Require Import Ascii.
#[local] Open Scope Z_scope.

(** [anyhow::Error], by the type it was made from. *)
Inductive PluginError : Type :=
| Msg (s : string)
| PChannel (e : ChannelError)
| PStore (e : StoreError)
| PNode (e : NodeError)
| PKey (e : KeyError)
| PConfig (e : ConfigError).

(** [err.downcast_ref::<KeyError>()]. *)
Definition requires_unlock (err : PluginError) : bool :=
  match err with PKey (PassphraseRequired _) => true | _ => false end.

(** ** Strings *)

(** [s.strip_suffix(suffix)]. *)
Fixpoint str_strip_suffix (suffix s : string) : option string :=
  if String.eqb s suffix then Some ""
  else match s with
       | EmptyString => None
       | String a s => String a <$> str_strip_suffix suffix s
       end.

(** [s.split_once(c)]. *)
Definition split_once (c : ascii) (s : string) : option (string * string) :=
  match split_on c s with
  | a :: ((_ :: _) as rest) => Some (a, join_with c rest)
  | _ => None
  end.

Example split_once_first : split_once "/"%char "7/8/9" = Some ("7", "8/9") ∧ split_once "/"%char "7" = None.
Proof. done. Qed.

Definition LF : ascii := ascii_of_nat 10.
Definition CR : ascii := ascii_of_nat 13.

(** A trailing line end, [\n] or [\r\n], is dropped. *)
Definition trim_one_trailing_newline (s : string) : string :=
  match str_strip_suffix (String LF "") s with
  | Some s => default s (str_strip_suffix (String CR "") s)
  | None => s
  end.

(** ** Options *)

Inductive OptionValue : Type :=
| OString (s : string)
| OInteger (i : Z)
| OBoolean (b : bool).

(** [if let Some(Value::Integer(v)) = ..]. *)
Definition as_option_string (o : option OptionValue) : option string :=
  match o with Some (OString s) => Some s | _ => None end.
Definition as_option_integer (o : option OptionValue) : option Z :=
  match o with Some (OInteger i) => Some i | _ => None end.
Definition as_option_boolean (o : option OptionValue) : option bool :=
  match o with Some (OBoolean b) => Some b | _ => None end.

(** [v as u64] of an [i64], and so on: the value modulo the width. *)
Definition or_default_cast (wrap : Z → Z) (default_value : Z) (o : option OptionValue) : Z :=
  match as_option_integer o with Some v => wrap v | None => default_value end.

Definition or_some {A} (o old : option A) : option A := match o with Some a => Some a | None => old end.

Section Options.
(** [plugin.option_str(name)], and the environment of [Config::validate]. *)
Variable option_str : string → result string (option OptionValue).
Variable url_parses : string → bool.
Variable file_length : string → result string Z.

Definition option_value (name : string) : result PluginError (option OptionValue) :=
  map_err Msg (option_str name).

Definition config_from_options : result PluginError Config :=
  let d := Config_default in
  let b := cfg_branding d in
  let p := cfg_policy d in
  contact_url ← option_value "canopus-contact-url";
  color ← option_value "canopus-color";
  logo ← option_value "canopus-logo";
  capacity ← option_value "canopus-capacity-msat";
  initial ← option_value "canopus-initial-balance-msat";
  fee_base ← option_value "canopus-fee-base-msat";
  fee_ppm ← option_value "canopus-fee-ppm";
  cltv_delta ← option_value "canopus-cltv-delta";
  htlc_min ← option_value "canopus-htlc-min-msat";
  max_htlcs ← option_value "canopus-max-htlcs";
  max_inflight ← option_value "canopus-max-inflight-msat";
  require_secret ← option_value "canopus-require-secret";
  preimage_scan ← option_value "canopus-preimage-scan";
  let config := {|
    cfg_policy := {|
      cp_channel_capacity_msat := or_default_cast wrap64 (cp_channel_capacity_msat p) capacity;
      cp_initial_client_balance_msat := or_default_cast wrap64 (cp_initial_client_balance_msat p) initial;
      cp_max_htlc_value_in_flight_msat :=
        or_default_cast wrap64 (cp_max_htlc_value_in_flight_msat p) max_inflight;
      cp_htlc_minimum_msat := or_default_cast wrap64 (cp_htlc_minimum_msat p) htlc_min;
      cp_max_accepted_htlcs := or_default_cast wrap16 (cp_max_accepted_htlcs p) max_htlcs;
      cp_fee_base_msat := or_default_cast wrap32 (cp_fee_base_msat p) fee_base;
      cp_fee_proportional_millionths := or_default_cast wrap32 (cp_fee_proportional_millionths p) fee_ppm;
      cp_cltv_expiry_delta := or_default_cast wrap16 (cp_cltv_expiry_delta p) cltv_delta |};
    cfg_branding := {|
      br_contact_url := or_some (as_option_string contact_url) (br_contact_url b);
      br_color := or_some (as_option_string color) (br_color b);
      br_logo_path := or_some (as_option_string logo) (br_logo_path b) |};
    cfg_require_secret := default (cfg_require_secret d) (as_option_boolean require_secret);
    cfg_preimage_scan := default (cfg_preimage_scan d) (as_option_boolean preimage_scan);
    cfg_hsm_secret_path := cfg_hsm_secret_path d;
    cfg_chain_hash := cfg_chain_hash d;
    cfg_network := cfg_network d |} in
  _ ← map_err PConfig (Config_validate url_parses file_length config);
  Ok config.

End Options.

Section Request.
Context {HC : Crypto} {HP : PublicKeyText} {HJ : JsonValue}.
Variable hex_error : string → string.

Definition decode_hex (s : string) : result PluginError (list byte) :=
  ok_or (hex_decode s) (Msg (hex_error s)).

Definition chain_hash_for_network (network : string) : result PluginError (list byte) :=
  hex ← (if String.eqb network "bitcoin" || String.eqb network "mainnet" then
           Ok "6fe28c0ab6f1b372c1a6a246ae63f74f931e8365e15a089c68d6190000000000"
         else if String.eqb network "testnet" then
           Ok "43497fd7f826957108f4a30fd9cec3aeba79972084e90ead01ea330900000000"
         else if String.eqb network "signet" then
           Ok "48164da60c7fbf8c3c79114e940b0b4b7c9ff9f01f2c4225e973988108000000"
         else if String.eqb network "regtest" then
           Ok "06226e46111a0b59caaf126043eb5bbf28c34f3a5e332a1fc7b2b73cf188910f"
         else Err (Msg ("unsupported network " +:+ network)));
  decode_hex hex.

(** [bytes[byte_len - 1 - bit / 8] |= 1 << (bit % 8)]. *)
Definition set_feature_bit (bytes : list byte) (bit : Z) : list byte :=
  alter (λ b, byte_of_Z (Z.lor (Z_of_byte b) (Z.shiftl 1 (bit mod 8))))
        (Z.to_nat (len bytes - 1 - bit / 8)) bytes.

Definition feature_bits (bits : list Z) : list byte :=
  let max_bit := foldr Z.max 0 bits in
  foldl set_feature_bit (be_bytes (Z.to_nat (max_bit / 8 + 1)) 0) bits.

Definition compute_feature_bits_hex (bits : list Z) : string :=
  match bits with
  | [] => "00"
  | _ => hex_encode (feature_bits bits)
  end.

(** ** Requests *)

Definition param (request : Value) (k : string) : option Value :=
  or_else (v_get k request)
    (or_else (v_get "params" request ≫= v_get k)
             ((v_get "params" request ≫= v_get "params") ≫= v_get k)).

Definition arg (request : Value) (index : nat) (k : string) : option Value :=
  or_else (param request k)
    (args ← or_else (as_array request)
              (or_else (v_get "params" request ≫= as_array)
                       ((v_get "params" request ≫= v_get "params") ≫= as_array));
     args !! index).

Definition arg_str (request : Value) (index : nat) (k : string) : option string :=
  arg request index k ≫= as_str.
Definition arg_u64 (request : Value) (index : nat) (k : string) : option Z :=
  arg request index k ≫= as_u64.
Definition param_u64 (request : Value) (k : string) : option Z := param request k ≫= as_u64.

(** [arg(..).and_then(as_str).ok_or_else(|| anyhow!("missing .."))]. *)
Definition required {A} (o : option A) (k : string) : result PluginError A :=
  ok_or o (Msg ("missing " +:+ k)).

Definition parse_peer (s : string) : result PluginError PublicKey := map_err Msg (pk_from_str s).

Definition notification_peer (request : Value) (topic : string) : option string :=
  or_else (param request "id")
    (or_else (param request "peer_id")
      (or_else (v_get topic request ≫= v_get "id") (v_get topic request ≫= v_get "peer_id"))) ≫= as_str.

Definition parse_msat (value : Value) : option Z :=
  match as_u64 value with
  | Some n => Some n
  | None => s ← as_str value; parse_u64 (default s (str_strip_suffix "msat" s))
  end.

Definition parse_force (value : option Value) : bool :=
  match value with
  | None => false
  | Some v =>
      match as_bool v, as_str v, as_u64 v with
      | Some force, _, _ => force
      | None, Some force, _ => bool_decide (force ∈ ["true"; "1"; "force"; "--force"])
      | None, None, Some n => negb (n =? 0)
      | None, None, None => false
      end
  end.

Definition parse_32_hex (s : string) : result PluginError (list byte) :=
  bytes ← decode_hex s;
  if len bytes =? 32 then Ok bytes else Err (Msg "expected 32-byte hex value").

Definition parse_forward_label (label : string) : option (Z * Z) :=
  match split_once "/"%char label with
  | Some (scid, id) => scid ← parse_u64 scid; id ← parse_u64 id; Some (scid, id)
  | None =>
      match value_from_str label with
      | Err _ => None
      | Ok value =>
          arr ← as_array value;
          scid ← (head arr ≫= as_str) ≫= parse_u64;
          id ← arr !! 1%nat ≫= as_u64;
          Some (scid, id)
      end
  end.

Definition nested (request : Value) (k : string) : Value := default request (v_get k request).

(** [u16::try_from(v).ok()]. *)
Definition u16_of (v : Z) : option Z := if v <? 2 ^ 16 then Some v else None.
Definition u32_of (v : Z) : option Z := if v <? 2 ^ 32 then Some v else None.

Definition sendpay_failure_payload (payload : Value) : list byte :=
  match (or_else (v_get "onionreply" payload) (v_get "erroronion" payload) ≫= as_str) ≫= hex_decode with
  | Some ((_ :: _) as bytes) => bytes
  | _ => be_bytes 2 (default 0x1007 (get_u64 "failcode" payload ≫= u16_of))
  end.

Definition rpc_param (request : Value) (k : string) (index : nat) : option Value :=
  params ← or_else (v_get "rpc_command" request ≫= v_get "params") (v_get "params" request);
  or_else (v_get k params) (as_array params ≫= (λ a, a !! index)).

(** ** Answers *)

Definition hook_continue : Value := v_object [("result", v_string "continue")].

Definition htlc_fail_temp_channel_failure : Value :=
  v_object [("result", v_string "fail"); ("failure_message", v_string "1007")].

Definition rpc_hook_error (code : Z) (message : string) : Value :=
  v_object [("return", v_object [("error", v_object [("code", v_i64 code); ("message", v_string message)])])].

Definition resolution_to_json (resolution : HtlcResolution) : Value :=
  match resolution with
  | Resolve preimage =>
      v_object [("result", v_string "resolve"); ("payment_key", v_string (hex_encode preimage))]
  | ResolveFail failure_onion =>
      v_object [("result", v_string "fail"); ("failure_onion", v_string (hex_encode failure_onion))]
  | FailMessage code data =>
      v_object [("result", v_string "fail");
                ("failure_message", v_string (hex_encode (be_bytes 2 code ++ data)))]
  | Continue => hook_continue
  end.

Definition hosted_pay_success (peer_id : PublicKey) (payment_hash : list byte) (amount_msat : Z)
    (preimage : list byte) : Value :=
  v_object [("return", v_object [("result", v_object
    [("destination", v_string (pk_to_string peer_id));
     ("payment_hash", v_string (hex_encode payment_hash));
     ("parts", v_u64 1);
     ("amount_msat", v_u64 amount_msat);
     ("msatoshi_sent", v_u64 amount_msat);
     ("payment_preimage", v_string (hex_encode preimage));
     ("status", v_string "complete")])])].

(** ** Message types *)

(** The tags registered with lightningd. *)
Definition custommessages : list Z :=
  [TAG_INVOKE_HOSTED_CHANNEL; TAG_INIT_HOSTED_CHANNEL; TAG_LAST_CROSS_SIGNED_STATE; TAG_STATE_UPDATE;
   TAG_STATE_OVERRIDE; TAG_HOSTED_CHANNEL_BRANDING; TAG_ANNOUNCEMENT_SIGNATURE; TAG_RESIZE_CHANNEL;
   TAG_QUERY_PUBLIC_HOSTED_CHANNELS; TAG_REPLY_PUBLIC_HOSTED_CHANNELS_END; TAG_QUERY_PREIMAGES;
   TAG_REPLY_PREIMAGES; TAG_ASK_BRANDING_INFO; TAG_UPDATE_ADD_HTLC; TAG_UPDATE_FULFILL_HTLC;
   TAG_UPDATE_FAIL_HTLC; TAG_UPDATE_FAIL_MALFORMED_HTLC; TAG_ERROR; TAG_PHC_CHANNEL_UPDATE_GOSSIP;
   TAG_PHC_CHANNEL_UPDATE_SYNC].

Definition is_canopus_custom_tag (tag : Z) : bool :=
  bool_decide (tag ∈
    [TAG_INVOKE_HOSTED_CHANNEL; TAG_INIT_HOSTED_CHANNEL; TAG_LAST_CROSS_SIGNED_STATE; TAG_STATE_UPDATE;
     TAG_STATE_OVERRIDE; TAG_HOSTED_CHANNEL_BRANDING; TAG_ANNOUNCEMENT_SIGNATURE; TAG_RESIZE_CHANNEL;
     TAG_QUERY_PUBLIC_HOSTED_CHANNELS; TAG_REPLY_PUBLIC_HOSTED_CHANNELS_END; TAG_QUERY_PREIMAGES;
     TAG_REPLY_PREIMAGES; TAG_ASK_BRANDING_INFO; TAG_UPDATE_ADD_HTLC; TAG_UPDATE_FULFILL_HTLC;
     TAG_UPDATE_FAIL_HTLC; TAG_UPDATE_FAIL_MALFORMED_HTLC; TAG_ERROR; TAG_PHC_CHANNEL_UPDATE_GOSSIP;
     TAG_PHC_CHANNEL_UPDATE_SYNC]).

End Request.
