(* ===== verification/Plugin.v ===== *)
(** * The plugin ([src/main.rs])

    The state the handlers share — locked until the secret file could be read, or
    a running controller — and one definition per hook, notification and command,
    each a function of the JSON request.  A hook that waits for a resolution
    answers later ([Waiting], [poll_htlc]).  Logging is left out. *)
From S2P Require Import Prelude Text Bytes Codecs Crypto ChannelId Config Lcss Wire Sphinx State Store Node World Ledger Keys Json ClnStore ClnNode ChannelBase ChannelForward ChannelUpdate ChannelOpen ChannelAdmin PluginRequest.
From stdpp Require Import options.
#[local] Open Scope Z_scope.

(** The crate [lightning_invoice]. *)
Class Invoices : Type := {
  Bolt11 : Type;
  parse_bolt11 : string → option Bolt11;
  amount_milli_satoshis : Bolt11 → option Z;
  inv_payment_hash : Bolt11 → list byte;
  inv_payment_secret : Bolt11 → list byte;
  min_final_cltv_expiry_delta : Bolt11 → Z;
  (** each route hint as its hops: the serialized source and the channel *)
  route_hints : Bolt11 → list (list (list byte * Z));
}.

(** The amount is a [u64]. *)
Class InvoicesLaws `{Invoices} : Prop := {
  amount_range i n : amount_milli_satoshis i = Some n → u64 n;
}.

(** The operating system and the displays of errors. *)
Class Environment : Type := {
  env_read_to_string : string → result string string;
  env_read : string → result string (list byte);
  env_file : string → option (list byte);
  env_utf8_error : list byte → string;
  (** connecting to the RPC socket at a path *)
  env_connect : string → result string unit;
  env_display : PluginError → string;
}.

(** What the plugin asks of [ClnNode] beyond [NodeActions]. *)
Class PluginNode (N : Type) `{Crypto} : Type := {
  pn_take_resolution : string → N → option HtlcResolution * N;
  pn_peer_states : N → result NodeError (gmap PublicKey bool) * N;
  (** a new client of the same lightningd *)
  pn_reconnect : PublicKey → N → N;
}.

#[global] Instance cln_plugin_node `{Crypto} `{!PublicKeyText} `{JsonValue} {R} `{!ClnRpc R}
    : PluginNode (ClnNode R) := {|
  pn_take_resolution := take_resolution;
  pn_peer_states := peer_connection_states;
  pn_reconnect pk n := from_rpc (cn_rpc n) pk |}.

Inductive RuntimeState `{Crypto} : Type :=
| Locked (reason : string)
| Unlocked (controller : Controller).
Arguments Locked {_}.
Arguments Unlocked {_}.

Record Plugin `{Crypto} (S V N : Type) : Type := mkPlugin {
  pl_config : Config;
  pl_rpc_path : string;
  pl_hsm_secret_path : string;
  pl_runtime : RuntimeState;
  pl_world : World S V N;
}.
Arguments mkPlugin {_ S V N}.
Arguments pl_config {_ S V N}.
Arguments pl_rpc_path {_ S V N}.
Arguments pl_hsm_secret_path {_ S V N}.
Arguments pl_runtime {_ S V N}.
Arguments pl_world {_ S V N}.

Section Plugin.
Context {HC : Crypto} {HO : OnionCrypto} {HK : KeyDerivation} {HP : PublicKeyText} {HJ : JsonValue}
  {HI : Invoices} {HE : Environment}.
Context {S V N : Type} {HS : Store S V} {HN : NodeActions N} {HPN : PluginNode N} {JA : AppJson V}.
Variable hex_error : string → string.
Local Notation P := (Plugin S V N).

(** ** Handlers as functions of the plugin's state *)

Definition H (A : Type) : Type := P → result PluginError A * P.

#[global] Instance H_ret : MRet H := λ A a p, (Ok a, p).
#[global] Instance H_bind : MBind H := λ A B f m p,
  match m p with
  | (Ok a, p') => f a p'
  | (Err e, p') => (Err e, p')
  end.

Definition bail {A} (e : PluginError) : H A := λ p, (Err e, p).
Definition pure_result {A} (r : result PluginError A) : H A := λ p, (r, p).

Definition with_world (w : World S V N) (p : P) : P :=
  mkPlugin (pl_config p) (pl_rpc_path p) (pl_hsm_secret_path p) (pl_runtime p) w.

(** A call on the world, its error wrapped. *)
Definition in_world {E A} (f : E → PluginError) (m : M (S := S) (V := V) (N := N) E A) : H A := λ p,
  let '(r, w) := m (pl_world p) in (map_err f r, with_world w p).
Definition channel {A} (m : M ChannelError A) : H A := in_world PChannel m.

(** The call's [Result], inspected; a panic is not one. *)
Definition caught {A} (m : H A) : H (result PluginError A) := λ p,
  match m p with
  | (Err (PChannel ErrPanic), p') => (Err (PChannel ErrPanic), p')
  | (r, p') => (Ok r, p')
  end.

Definition controller : H Controller := λ p,
  match pl_runtime p with
  | Unlocked C => (Ok C, p)
  | Locked reason => (Err (Msg ("canopus locked: " +:+ reason)), p)
  end.

Definition is_locked : H bool := λ p,
  (Ok match pl_runtime p with Locked _ => true | Unlocked _ => false end, p).

Definition locked_reason : H (option string) := λ p,
  (Ok match pl_runtime p with Locked reason => Some reason | Unlocked _ => None end, p).

(** ** Starting and unlocking *)

(** [build_runtime]: the keys, two connections, and a controller with empty
    tables. *)
Definition build_runtime (passphrase : option string) : H Controller := λ p,
  match from_file_with_passphrase env_utf8_error env_read (pl_hsm_secret_path p) passphrase with
  | None => (Err (Msg ""), p)
  | Some (Err e) => (Err (PKey e), p)
  | Some (Ok keys) =>
      match env_connect (pl_rpc_path p) with
      | Err e => (Err (Msg e), p)
      | Ok _ =>
          let w := pl_world p in
          (Ok (mkController HC (pl_config p) (nk_secret keys) (nk_public keys)),
           with_world (mkWorld (w_store w) (pn_reconnect (nk_public keys) (w_node w)) ∅ ∅ (w_log w)) p)
      end
  end.

Definition set_runtime (r : RuntimeState) : H unit := λ p,
  (Ok tt, mkPlugin (pl_config p) (pl_rpc_path p) (pl_hsm_secret_path p) r (pl_world p)).

(** The end of [main]: the first attempt, without a passphrase. *)
Definition start_runtime : H unit :=
  r ← caught (build_runtime None);
  match r with
  | Ok C => set_runtime (Unlocked C)
  | Err err => if requires_unlock err then set_runtime (Locked (env_display err)) else bail err
  end.

(** What lightningd tells the plugin about itself. *)
Record PluginConfiguration : Type := mkPluginConfiguration {
  lightning_dir : string;
  rpc_file : string;
  pc_network : string;
}.

(** [Path::join]: an absolute path replaces the first. *)
Definition path_join (dir file : string) : string :=
  if String.prefix "/" file then file
  else if String.eqb dir "" then file
  else match str_strip_suffix "/" dir with
       | Some _ => dir +:+ file
       | None => dir +:+ "/" +:+ file
       end.

Definition startup_config (options : string → result string (option OptionValue)) (url_parses : string → bool)
    (file_length : string → result string Z) (pc : PluginConfiguration) : result PluginError Config :=
  config ← config_from_options options url_parses file_length;
  chain_hash ← chain_hash_for_network hex_error (pc_network pc);
  Ok {| cfg_policy := cfg_policy config; cfg_branding := cfg_branding config;
        cfg_require_secret := cfg_require_secret config; cfg_preimage_scan := cfg_preimage_scan config;
        cfg_hsm_secret_path := path_join (lightning_dir pc) "hsm_secret";
        cfg_chain_hash := chain_hash; cfg_network := pc_network pc |}.

(** [main] up to the plugin's start, over the store and the node it finds. *)
Definition start_plugin (options : string → result string (option OptionValue)) (url_parses : string → bool)
    (file_length : string → result string Z) (pc : PluginConfiguration) (w : World S V N)
    : result PluginError P :=
  config ← startup_config options url_parses file_length pc;
  let hsm_secret_path := path_join (lightning_dir pc) "hsm_secret" in
  let p := mkPlugin config (path_join (lightning_dir pc) (rpc_file pc)) hsm_secret_path (Locked "") w in
  match start_runtime p with
  | (Ok _, p) => Ok p
  | (Err e, _) => Err e
  end.

Definition unlock_passphrase (request : Value) : result PluginError string :=
  match arg_str request 0 "passphrase", arg_str request 1 "passphrase_file" with
  | Some _, Some _ | None, None => Err (Msg "provide exactly one of passphrase or passphrase_file")
  | Some passphrase, None => Ok passphrase
  | None, Some path =>
      passphrase ← map_err (λ e, Msg ("cannot read passphrase_file " +:+ path +:+ ": " +:+ e))
                     (env_read_to_string path);
      Ok (trim_one_trailing_newline passphrase)
  end.

Definition handle_unlock (request : Value) : H Value :=
  reason ← locked_reason;
  match reason with
  | None => bail (Msg "canopus is already unlocked")
  | Some _ =>
      passphrase ← pure_result (unlock_passphrase request);
      C ← build_runtime (Some passphrase);
      _ ← set_runtime (Unlocked C);
      mret (v_object [("status", v_string "unlocked"); ("locked", v_bool false);
                      ("node_id", v_string (pk_to_string (ctl_node_public C)))])
  end.

Definition handle_status (_ : Value) : H Value := λ p,
  (Ok match pl_runtime p with
      | Locked reason =>
          v_object [("status", v_string "locked"); ("locked", v_bool true); ("reason", v_string reason);
                    ("hsm_secret_path", v_string (pl_hsm_secret_path p))]
      | Unlocked C =>
          v_object [("status", v_string "unlocked"); ("locked", v_bool false);
                    ("node_id", v_string (pk_to_string (ctl_node_public C)))]
      end, p).

(** ** Background tasks *)

Definition spawned_recovery : H unit :=
  locked ← is_locked;
  if (locked : bool) then mret tt else
  C ← controller;
  _ ← caught (channel (recover_committed_htlcs C)); mret tt.

Definition spawned_hydration : H unit :=
  locked ← is_locked;
  if (locked : bool) then mret tt else
  r ← caught (in_world PNode (node_call pn_peer_states []));
  match r with
  | Ok connections => channel (note_initial_peer_connections connections)
  | Err _ => mret tt
  end.

Definition spawned_deadlines : H unit :=
  locked ← is_locked;
  if (locked : bool) then mret tt else
  C ← controller;
  _ ← caught (channel (enforce_forward_deadlines C)); mret tt.

(** ** Notifications *)

Definition connection_notification (topic : string) (connected : bool)
    (then_do : Controller → PublicKey → M ChannelError unit) (request : Value) : H unit :=
  match notification_peer request topic with
  | None => mret tt
  | Some peer =>
      locked ← is_locked;
      if (locked : bool) then mret tt else
      peer ← pure_result (parse_peer peer);
      C ← controller;
      _ ← channel (note_peer_connection peer connected);
      channel (then_do C peer)
  end.

Definition plugin_connect (request : Value) : H unit :=
  connection_notification "connect" true handle_connect request.

Definition plugin_disconnect (request : Value) : H unit :=
  connection_notification "disconnect" false (λ _, handle_disconnect) request.

Definition handle_sendpay_success (request : Value) : H unit :=
  let payload := nested request "sendpay_success" in
  match get_str "label" payload ≫= parse_forward_label with
  | None => mret tt
  | Some (scid, htlc_id) =>
      locked ← is_locked;
      if (locked : bool) then mret tt else
      preimage ← pure_result (hex ← ok_or (get_str "payment_preimage" payload)
                                      (Msg "sendpay_success missing payment_preimage");
                              parse_32_hex hex_error hex);
      C ← controller;
      channel (handle_outgoing_payment_result C scid htlc_id (Succeeded preimage))
  end.

Definition handle_sendpay_failure (request : Value) : H unit :=
  let payload := nested (nested request "sendpay_failure") "data" in
  match get_str "label" payload ≫= parse_forward_label with
  | None => mret tt
  | Some (scid, htlc_id) =>
      locked ← is_locked;
      if (locked : bool) then mret tt else
      C ← controller;
      channel (handle_outgoing_payment_result C scid htlc_id
                 (PaymentFailed (sendpay_failure_payload payload)))
  end.

(** ** The [custommsg] hook *)

(** The handler of each message; those only a client receives are ignored. *)
Definition dispatch_message (C : Controller) (peer_id : PublicKey) (msg : HostedMessage)
    : M ChannelError unit :=
  match msg with
  | MInvokeHostedChannel m => handle_invoke C peer_id m
  | MLastCrossSignedState m => handle_lcss C peer_id m
  | MStateUpdate m => handle_state_update C peer_id m
  | MUpdateAddHtlc m => handle_update_add C peer_id m
  | MUpdateFulfillHtlc m => handle_update_fulfill C peer_id m
  | MUpdateFailHtlc m => handle_update_fail peer_id m
  | MUpdateFailMalformedHtlc m => handle_update_fail_malformed peer_id m
  | MResizeChannel m => handle_resize_channel C peer_id m
  | MQueryPreimages m => handle_query_preimages peer_id m
  | MReplyPreimages m => handle_reply_preimages peer_id m
  | MError m => handle_error peer_id m
  | MAskBrandingInfo m => handle_ask_branding C env_file peer_id m
  | MStateOverride _ | MInitHostedChannel _ | MHostedChannelBranding _ | MAnnouncementSignature _
  | MQueryPublicHostedChannels _ | MReplyPublicHostedChannelsEnd _ | MPhcChannelUpdate _ => mret tt
  end.

(** The sender and the message of a hook payload; [None]: not for us. *)
Definition custommsg_of (request : Value) : option (PublicKey * DecodedHostedMessage) :=
  peer_id ← or_else (v_get "peer_id" request) (v_get "node_id" request) ≫= as_str;
  message ← or_else (v_get "message" request) (v_get "payload" request) ≫= as_str;
  peer_id ← match parse_peer peer_id with Ok pk => Some pk | Err _ => None end;
  bytes ← hex_decode message;
  if len bytes <? 2 then None
  else if negb (is_canopus_custom_tag (be_Z (take 2 bytes))) then None
  else match decode_legacy_aware bytes with
       | Ok decoded => Some (peer_id, decoded)
       | Err _ => None
       end.

Definition handle_custommsg (request : Value) : H Value :=
  locked ← is_locked;
  if (locked : bool) then mret hook_continue else
  match custommsg_of request with
  | None => mret hook_continue
  | Some (peer_id, decoded) =>
      C ← controller;
      _ ← channel (note_peer_wire_encoding peer_id (dhm_encoding decoded));
      _ ← caught (channel (dispatch_message C peer_id (dhm_message decoded)));
      mret hook_continue
  end.

(** ** The [htlc_accepted] hook *)

Inductive HookAnswer : Type :=
| Answered (v : Value)
| Waiting (result_key : string).

Record AcceptedHtlc : Type := mkAcceptedHtlc {
  ah_htlc : UpdateAddHtlc;
  ah_result_key : string;
  ah_incoming_scid : Z;
  ah_htlc_id : Z;
  ah_shared_secret : option (list byte);
  ah_incoming_cltv_expiry : Z;
}.

Definition msg_or {A} (o : option A) (s : string) : result PluginError A := ok_or o (Msg s).

Definition accepted_htlc (htlc onion : Value) (target_scid : Z) : result PluginError AcceptedHtlc :=
  incoming_amount_msat ← msg_or (v_get "amount_msat" htlc ≫= parse_msat) "htlc missing amount_msat";
  let amount_msat := default incoming_amount_msat
    (or_else (v_get "forward_amount" onion) (v_get "forward_msat" onion) ≫= parse_msat) in
  hash_hex ← msg_or (get_str "payment_hash" htlc) "htlc missing payment_hash";
  payment_hash ← parse_32_hex hex_error hash_hex;
  cltv ← msg_or (get_u64 "cltv_expiry" htlc) "htlc missing cltv_expiry";
  let incoming_cltv_expiry := wrap32 cltv in
  let cltv_expiry := default incoming_cltv_expiry (wrap32 <$> get_u64 "outgoing_cltv_value" onion) in
  next_onion ← msg_or (get_str "next_onion" onion) "onion missing next_onion";
  let htlc_id := default 0 (get_u64 "id" htlc) in
  let incoming_scid := default target_scid (get_str "short_channel_id" htlc ≫= parse_short_channel_id) in
  shared_secret ← match get_str "shared_secret" onion with
                  | Some s => s ← parse_32_hex hex_error s; Ok (Some s)
                  | None => Ok None
                  end;
  onion_bytes ← decode_hex hex_error next_onion;
  Ok {| ah_htlc := mkUpdateAddHtlc (be_bytes 32 0) 0 amount_msat payment_hash cltv_expiry onion_bytes [];
        ah_result_key := slash incoming_scid htlc_id;
        ah_incoming_scid := incoming_scid;
        ah_htlc_id := htlc_id;
        ah_shared_secret := shared_secret;
        ah_incoming_cltv_expiry := incoming_cltv_expiry |}.

(** One look at the resolutions: the body of the waiting loop. *)
Definition poll_htlc (result_key : string) : H HookAnswer := λ p,
  let '(o, n) := pn_take_resolution result_key (w_node (pl_world p)) in
  (Ok match o with
      | Some resolution => Answered (resolution_to_json resolution)
      | None => Waiting result_key
      end, with_world (set_node n [] (pl_world p)) p).

Definition add_accepted (C : Controller) (peer_id : PublicKey) (a : AcceptedHtlc) : M ChannelError unit :=
  channel_handle_htlc_add_with_upstream_expiry C peer_id (ah_htlc a) (ah_result_key a)
    (ah_incoming_scid a) (ah_htlc_id a) (ah_shared_secret a) (Some (ah_incoming_cltv_expiry a)).

Definition hosted_peer (C : Controller) (scid : Z) (channels : list PublicKey) : option PublicKey :=
  List.find (λ peer, hosted_short_channel_id (ctl_node_public C) peer =? scid) channels.

Definition handle_htlc_accepted (request : Value) : H HookAnswer :=
  locked ← is_locked;
  if (locked : bool) then mret (Answered hook_continue) else
  C ← controller;
  htlc ← pure_result (msg_or (v_get "htlc" request) "htlc_accepted missing htlc");
  onion ← pure_result (msg_or (v_get "onion" request) "htlc_accepted missing onion");
  match get_str "short_channel_id" onion ≫= parse_short_channel_id with
  | None => mret (Answered hook_continue)
  | Some target_scid =>
      channels ← caught (channel list_channels);
      match channels with
      | Err _ => mret (Answered hook_continue)
      | Ok channels =>
          match hosted_peer C target_scid channels with
          | None => mret (Answered hook_continue)
          | Some peer_id =>
              r ← caught (a ← pure_result (accepted_htlc htlc onion target_scid);
                          _ ← channel (add_accepted C peer_id a);
                          poll_htlc (ah_result_key a));
              mret match r with
                   | Ok answer => answer
                   | Err _ => Answered htlc_fail_temp_channel_failure
                   end
          end
      end
  end.

(** ** The [rpc_command] hook: paying an invoice of a hosted client *)

Fixpoint hinted_target (C : Controller) (hints : list (list (list byte * Z))) : H (option PublicKey) :=
  match hints with
  | [] => mret None
  | [(src, scid)] :: hints =>
      match pk_from_slice src with
      | None => hinted_target C hints
      | Some src =>
          if negb (bool_decide (src = ctl_node_public C)) then hinted_target C hints
          else
            channels ← channel list_channels;
            match hosted_peer C scid channels with
            | Some peer => mret (Some peer)
            | None => hinted_target C hints
            end
      end
  | _ :: hints => hinted_target C hints
  end.

(** Time passes. *)
Definition meanwhile (f : P → P) : H unit := λ p, (Ok tt, f p).

(** At most [n] looks for the preimage; [env] is what happens to the plugin
    between two of them. *)
Fixpoint await_preimage (n : nat) (env : nat → P → P) (payment_hash : list byte)
    : H (option (list byte)) :=
  match n with
  | O => mret None
  | Datatypes.S n' =>
      r ← caught (in_world PNode (lookup_preimage payment_hash));
      match r with
      | Ok (Some preimage) => mret (Some preimage)
      | _ => _ ← meanwhile (env n); await_preimage n' env payment_hash
      end
  end.

Definition pay_hosted (env : nat → P → P) (C : Controller) (peer_id : PublicKey) (invoice : Bolt11)
    (amount_msat : Z) : H Value :=
  payment_hash ← pure_result (parse_32_hex hex_error (hex_encode (inv_payment_hash invoice)));
  known ← caught (in_world PNode (lookup_preimage payment_hash));
  match known with
  | Ok (Some preimage) => mret (hosted_pay_success peer_id payment_hash amount_msat preimage)
  | _ =>
      height ← caught (in_world PNode get_block_height);
      policy ← channel (effective_policy C);
      let current_height := match height with Ok h => h | Err _ => 0 end in
      let final_cltv :=
        saturating_add_u32
          (saturating_add_u32 current_height (wrap32 (min_final_cltv_expiry_delta invoice)))
          (cp_cltv_expiry_delta policy) in
      _ ← channel (send_direct_payment C peer_id amount_msat payment_hash final_cltv
                     (Some (inv_payment_secret invoice)));
      preimage ← await_preimage 600 env payment_hash;
      mret match preimage with
           | Some preimage => hosted_pay_success peer_id payment_hash amount_msat preimage
           | None => rpc_hook_error (-32603) "direct hosted payment timed out"
           end
  end.

Definition rpc_method (request : Value) : option string :=
  or_else (v_get "rpc_command" request ≫= v_get "method") (v_get "method" request) ≫= as_str.

Definition handle_rpc_command (env : nat → P → P) (request : Value) : H Value :=
  locked ← is_locked;
  if (locked : bool) then mret hook_continue else
  C ← controller;
  if negb (bool_decide (rpc_method request = Some "pay")) then mret hook_continue else
  match (rpc_param request "bolt11" 0 ≫= as_str) ≫= parse_bolt11 with
  | None => mret hook_continue
  | Some invoice =>
      match or_else (or_else (rpc_param request "amount_msat" 1) (rpc_param request "msatoshi" 1) ≫= parse_msat)
              (amount_milli_satoshis invoice) with
      | None => mret hook_continue
      | Some amount_msat =>
          target ← caught (hinted_target C (route_hints invoice));
          match target with
          | Ok (Some peer_id) =>
              r ← caught (pay_hosted env C peer_id invoice amount_msat);
              mret match r with
                   | Ok response => response
                   | Err err => rpc_hook_error (-32603) (env_display err)
                   end
          | _ => mret hook_continue
          end
      end
  end.

End Plugin.
