(* ===== verification/PluginCommands.v ===== *)
(** * The operator's commands ([src/main.rs])

    One definition per [canopus-*] command. *)
From S2P Require Import Prelude Text Bytes Codecs Crypto ChannelId Config Lcss Wire Sphinx State Store Node World Ledger Keys Json Persist ClnStore ClnNode ChannelBase ChannelForward ChannelUpdate ChannelOpen ChannelAdmin PluginRequest Plugin.
From stdpp Require Import options.
#[local] Open Scope Z_scope.

Section Commands.
Context {HC : Crypto} {HO : OnionCrypto} {HK : KeyDerivation} {HP : PublicKeyText} {HJ : JsonValue}
  {HI : Invoices} {HE : Environment}.
Context {S V N : Type} {HS : Store S V} {HN : NodeActions N} {HPN : PluginNode N} {JA : AppJson V}.
Local Notation P := (Plugin S V N).
Local Notation H := (H (S := S) (V := V) (N := N)).

(** [json!] of a record is its serialization. *)
Definition policy_value : ChannelPolicy → Value := c_enc c_policy.
Definition data_value : ChannelData → Value := c_enc c_channel.
Definition lcss_value : LastCrossSignedState → Value := c_enc c_lcss.
Definition event_value : LedgerEvent → Value := c_enc c_event.
Definition lcss_from_value : Value → result string LastCrossSignedState := c_dec c_lcss.

Definition parameters_value (p : ChannelParameters) : Value := v_object
  [("channel_capacity_msat", v_u64 (chp_channel_capacity_msat p));
   ("initial_client_balance_msat", v_u64 (chp_initial_client_balance_msat p));
   ("local_balance_msat", v_u64 (chp_local_balance_msat p));
   ("remote_balance_msat", v_u64 (chp_remote_balance_msat p));
   ("max_htlc_value_in_flight_msat", v_u64 (chp_max_htlc_value_in_flight_msat p));
   ("htlc_minimum_msat", v_u64 (chp_htlc_minimum_msat p));
   ("htlc_maximum_msat", v_u64 (chp_htlc_maximum_msat p));
   ("maxhtlcs", v_u64 (chp_maxhtlcs p));
   ("feebase_msat", v_u64 (chp_feebase_msat p));
   ("feeppm", v_u64 (chp_feeppm p));
   ("cltv_expiry_delta", v_u64 (chp_cltv_expiry_delta p));
   ("channel_update_pending", v_bool (chp_channel_update_pending p));
   ("override_pending", v_bool (chp_override_pending p))].

(** The peer a command names. *)
Definition peer_argument (request : Value) (index : nat) : result PluginError PublicKey :=
  peer ← required (arg_str request index "peer_id") "peer_id";
  parse_peer peer.

Definition ok_answer : Value := v_object [("ok", v_bool true)].

Fixpoint list_statuses (peers : list PublicKey) : M (S := S) (V := V) (N := N) ChannelError (list Value) :=
  match peers with
  | [] => mret []
  | peer :: peers =>
      status ← get_status peer;
      rest ← list_statuses peers;
      mret (v_object [("peer_id", v_string (pk_to_string peer));
                      ("status", v_string (Status_to_string status))] :: rest)
  end.

Definition handle_list (_ : Value) : H Value :=
  _ ← controller;
  peers ← channel list_channels;
  channels ← channel (list_statuses peers);
  mret (v_object [("channels", v_array channels)]).

(** [fuel] bounds the iterations of [delete_subtree]. *)
Definition uninstall_store (fuel : nat) : H Z :=
  channels ← in_world PStore (m_list ["canopus"; "channels"]);
  if negb (is_empty channels) then bail (Msg "cannot uninstall while hosted channels exist") else
  λ p, match delete_subtree fuel ["canopus"] (w_store (pl_world p)) with
       | None => (Err (Msg "out of fuel"), p)
       | Some (r, s) => (map_err PStore r, with_world (set_store s [] (pl_world p)) p)
       end.

Definition handle_uninstall (fuel : nat) (_ : Value) : H Value :=
  _ ← controller;
  deleted ← uninstall_store fuel;
  mret (v_object [("ok", v_bool true); ("deleted", v_u64 deleted)]).

Definition handle_channel (request : Value) : H Value :=
  peer ← pure_result (peer_argument request 0);
  C ← controller;
  data ← channel (load_channel peer);
  match data with
  | None => mret (v_object [("channel", v_null)])
  | Some data =>
      status ← channel (get_status peer);
      mret (v_object
        [("peer_id", v_string (pk_to_string peer));
         ("status", v_string (Status_to_string status));
         ("short_channel_id",
            v_string (format_short_channel_id (hosted_short_channel_id (ctl_node_public C) peer)));
         ("data", data_value data)])
  end.

Definition handle_show_lcss (request : Value) : H Value :=
  peer ← pure_result (peer_argument request 0);
  _ ← controller;
  data ← channel (load_channel peer);
  mret match data with
       | None => v_object [("lcss", v_null)]
       | Some data => v_object [("peer_id", v_string (pk_to_string peer)); ("lcss", lcss_value (cd_lcss data))]
       end.

Definition verify_lcss_export (lcss_file : string) (remote_peer local_node : PublicKey)
    : result PluginError (bool * bool) :=
  contents ← map_err (λ e, Msg ("cannot read lcss_file " +:+ lcss_file +:+ ": " +:+ e))
               (env_read_to_string lcss_file);
  export ← map_err (λ e, Msg ("cannot parse lcss_file " +:+ lcss_file +:+ ": " +:+ e))
             (value_from_str contents);
  export_peer ← msg_or (get_str "peer_id" export) "lcss_file is missing peer_id";
  export_peer ← parse_peer export_peer;
  if negb (bool_decide (export_peer = remote_peer)) then
    Err (Msg "lcss_file peer_id does not match peer_id") else
  v ← msg_or (v_get "lcss" export) "lcss_file is missing lcss";
  lcss ← map_err (λ e, Msg ("cannot parse lcss in lcss_file: " +:+ e)) (lcss_from_value v);
  Ok (verify_remote_sig lcss remote_peer, verify_remote_sig (lcss_reverse lcss) local_node).

Definition handle_verify (request : Value) : H Value :=
  lcss_file ← pure_result (required (arg_str request 0 "lcss_file") "lcss_file");
  peer ← pure_result (peer_argument request 1);
  C ← controller;
  '(remote_valid, local_valid) ← pure_result (verify_lcss_export lcss_file peer (ctl_node_public C));
  mret (v_object
    [("peer_id", v_string (pk_to_string peer));
     ("remote_signature_valid", v_bool remote_valid);
     ("local_signature_valid", v_bool local_valid);
     ("valid", v_bool (remote_valid && local_valid))]).

Definition force_argument (request : Value) : bool :=
  parse_force (or_else (param request "force") (arg request 1 "force")).

Definition handle_remove_hc (request : Value) : H Value :=
  peer ← pure_result (peer_argument request 0);
  let force := force_argument request in
  C ← controller;
  _ ← channel (remove_channel C peer force);
  mret (v_object [("ok", v_bool true); ("removed", v_bool true);
                  ("peer_id", v_string (pk_to_string peer)); ("forced", v_bool force)]).

Definition handle_add_secret (request : Value) : H Value :=
  secret ← pure_result (required (arg_str request 0 "secret") "secret");
  capacity ← pure_result (required (arg_u64 request 1 "capacity_msat") "capacity_msat");
  initial ← pure_result (required (arg_u64 request 2 "initial_balance_msat") "initial_balance_msat");
  _ ← controller;
  _ ← channel (add_secret secret capacity initial);
  mret ok_answer.

Definition handle_remove_secret (request : Value) : H Value :=
  secret ← pure_result (required (arg_str request 0 "secret") "secret");
  _ ← controller;
  _ ← channel (remove_secret secret);
  mret ok_answer.

Definition handle_list_secrets (_ : Value) : H Value :=
  _ ← controller;
  secrets ← channel list_secrets;
  mret (v_object [("secrets", v_array (v_string <$> secrets))]).

Definition handle_reset (request : Value) : H Value :=
  peer ← pure_result (peer_argument request 0);
  let balance := arg_u64 request 1 "new_local_balance_msat" in
  C ← controller;
  _ ← channel (propose_override C peer balance);
  mret ok_answer.

Definition handle_events (request : Value) : H Value :=
  let peer := arg_str request 0 "peer_id" in
  _ ← controller;
  events ← in_world PStore (list_events peer);
  mret (v_object [("events", v_array (event_value <$> events))]).

(** [o.map(|v| v.try_into()).transpose().map_err(..)?]. *)
Definition narrow (o : option Z) (to : Z → option Z) (too_wide : string) : result PluginError (option Z) :=
  match o with
  | None => Ok None
  | Some v => n ← msg_or (to v) too_wide; Ok (Some n)
  end.

(** The policy with the fields the request gives, and whether it gives any. *)
Definition requested_policy (request : Value) (policy : ChannelPolicy)
    : result PluginError (ChannelPolicy * bool) :=
  let capacity := param_u64 request "channel_capacity_msat" in
  let initial := param_u64 request "initial_client_balance_msat" in
  let inflight := param_u64 request "max_htlc_value_in_flight_msat" in
  let minimum := param_u64 request "htlc_minimum_msat" in
  max_htlcs ← narrow (param_u64 request "max_accepted_htlcs") u16_of "max_accepted_htlcs exceeds u16";
  fee_base ← narrow (param_u64 request "fee_base_msat") u32_of "fee_base_msat exceeds u32";
  fee_ppm ← narrow (param_u64 request "fee_proportional_millionths") u32_of
              "fee_proportional_millionths exceeds u32";
  cltv ← narrow (param_u64 request "cltv_expiry_delta") u16_of "cltv_expiry_delta exceeds u16";
  Ok ({| cp_channel_capacity_msat := default (cp_channel_capacity_msat policy) capacity;
         cp_initial_client_balance_msat := default (cp_initial_client_balance_msat policy) initial;
         cp_max_htlc_value_in_flight_msat := default (cp_max_htlc_value_in_flight_msat policy) inflight;
         cp_htlc_minimum_msat := default (cp_htlc_minimum_msat policy) minimum;
         cp_max_accepted_htlcs := default (cp_max_accepted_htlcs policy) max_htlcs;
         cp_fee_base_msat := default (cp_fee_base_msat policy) fee_base;
         cp_fee_proportional_millionths := default (cp_fee_proportional_millionths policy) fee_ppm;
         cp_cltv_expiry_delta := default (cp_cltv_expiry_delta policy) cltv |},
      is_some capacity || is_some initial || is_some inflight || is_some minimum ||
      is_some max_htlcs || is_some fee_base || is_some fee_ppm || is_some cltv).

Definition handle_policy (request : Value) : H Value :=
  C ← controller;
  policy ← channel (effective_policy C);
  '(policy, changed) ← pure_result (requested_policy request policy);
  if cp_channel_capacity_msat policy <? cp_initial_client_balance_msat policy then
    bail (Msg "initial_client_balance_msat exceeds channel_capacity_msat") else
  _ ← (if (changed : bool) then channel (set_policy policy) else mret tt);
  mret (v_object [("policy", policy_value policy); ("updated", v_bool changed)]).

Definition requested_params (request : Value) : result PluginError SetChannelParams :=
  let either a b := or_else (param request a) (param request b) ≫= as_u64 in
  fee_base ← narrow (either "feebase_msat" "fee_base_msat") u32_of "feebase_msat exceeds u32";
  fee_ppm ← narrow (either "feeppm" "fee_proportional_millionths") u32_of "feeppm exceeds u32";
  cltv ← narrow (param_u64 request "cltv_expiry_delta") u16_of "cltv_expiry_delta exceeds u16";
  max_htlcs ← narrow (either "maxhtlcs" "max_accepted_htlcs") u16_of "maxhtlcs exceeds u16";
  Ok {| scp_channel_capacity_msat := param_u64 request "channel_capacity_msat";
        scp_initial_client_balance_msat := param_u64 request "initial_client_balance_msat";
        scp_fee_base_msat := fee_base;
        scp_fee_proportional_millionths := fee_ppm;
        scp_cltv_expiry_delta := cltv;
        scp_htlc_minimum_msat := param_u64 request "htlc_minimum_msat";
        scp_htlc_maximum_msat := param_u64 request "htlc_maximum_msat";
        scp_max_accepted_htlcs := max_htlcs |}.

Definition handle_set_channel (request : Value) : H Value :=
  peer ← pure_result (peer_argument request 0);
  params ← pure_result (requested_params request);
  C ← controller;
  '(parameters, updated) ← channel (set_channel C peer params (force_argument request));
  mret (v_object
    [("peer_id", v_string (pk_to_string peer));
     ("short_channel_id",
        v_string (format_short_channel_id (hosted_short_channel_id (ctl_node_public C) peer)));
     ("channel", parameters_value parameters);
     ("updated", v_bool updated)]).

End Commands.
