(* ===== verification/PluginToy.v ===== *)
(** * A plugin over the example channel

    The plugin of [Scenario]'s host: the example keys, JSON and node identities,
    one invoice that hints at the channel with the peer, and a file system with a
    mnemonic secret.  The concrete inputs of the plugin's theorems run on it. *)
From S2P Require Import Prelude Text Bytes Codecs Crypto ChannelId Config Lcss Wire Sphinx State Store Node World Ledger Keys Json ClnStore ClnNode ChannelBase ChannelForward ChannelUpdate ChannelOpen ChannelAdmin ChannelSound ChannelInv Scenario PluginRequest Plugin PluginCommands.
From stdpp Require Import options.
#[local] Open Scope Z_scope.

Module PluginToy.
Export Scenario ToyJson ToyClnNode KeysExamples.

(** An invoice of the peer for 2,000,000 msat. *)
#[export] Instance invoices : Invoices := {|
  Bolt11 := list byte;
  parse_bolt11 s := if String.eqb s "lnpeer" then Some preimage else None;
  amount_milli_satoshis _ := Some 2000000;
  inv_payment_hash l := Toy.digest l;
  inv_payment_secret _ := be_bytes 32 3;
  min_final_cltv_expiry_delta _ := 18;
  route_hints _ := [[(pk_serialize (Crypto := Toy.crypto) host_sk,
                      hosted_short_channel_id (H := Toy.crypto) host_sk peer)]] |}.

#[export] Instance invoices_laws : InvoicesLaws.
Proof. split. intros i n [= <-]. by split. Qed.

(** The secret file is a mnemonic under the passphrase "horse". *)
#[export] Instance environment : Environment := {|
  env_read_to_string path := if String.eqb path "pass" then Ok "horse"
                             else if String.eqb path "lcss.json" then Ok "exported" else Err "no such file";
  env_read path := if String.eqb path "hsm_secret" then Ok locked_file
                   else if String.eqb path "encrypted" then Ok (be_bytes 73 1) else Err "no such file";
  env_file _ := None;
  env_utf8_error _ := "invalid utf-8";
  env_connect _ := Ok tt;
  env_display _ := "error" |}.

Fixpoint take_first (k : string) (l : list (string * HtlcResolution))
    : option HtlcResolution * list (string * HtlcResolution) :=
  match l with
  | [] => (None, [])
  | (k', r) :: l =>
      if String.eqb k' k then (Some r, l) else let '(o, l) := take_first k l in (o, (k', r) :: l)
  end.

#[export] Instance plugin_node : PluginNode MockNode := {|
  pn_take_resolution k n :=
    let '(o, l) := take_first k (mn_htlc_resolutions n) in (o, mock_with_resolutions l n);
  pn_peer_states n := (Ok ∅, n);
  pn_reconnect _ n := n |}.

Abbreviation P := (Plugin (MemoryStore Doc) Doc MockNode).

(** The host's plugin in a world, and one that has not been unlocked. *)
Definition running (w : W) : P := mkPlugin config "rpc" "hsm_secret" (Unlocked host) w.
Definition waiting (path : string) : P := mkPlugin config "rpc" path (Locked "passphrase required") start.

End PluginToy.
