(* ===== verification/PluginSound.v ===== *)
(** * The plugin keeps channels sound

    [holds h Q]: run from a plugin whose stored channels are all sound, the
    handler [h] leaves such a plugin, whatever it answers, and an answer satisfies
    [Q].  The rules lift [keeps] to the plugin's state; with them every entry
    point is shown to keep channels sound for every JSON request. *)
From S2P Require Import Prelude Text Bytes Codecs Crypto ChannelId Config Lcss Wire Sphinx State Store Node Gossip World Ledger Keys Json ClnStore ClnNode ChannelBase ChannelForward ChannelUpdate ChannelOpen ChannelAdmin ChannelSound ChannelInv Scenario PluginRequest Plugin PluginCommands PluginToy.
From stdpp Require Import options.
#[local] Open Scope Z_scope.

Section PluginSound.
#[local] Set Default Proof Using "Type*".
Context {HC : Crypto} {HCL : CryptoLaws} {HO : OnionCrypto} {HK : KeyDerivation} {HP : PublicKeyText}.
Context {HJ : JsonValue} {LJ : JsonValueLaws} {HI : Invoices} {LI : InvoicesLaws} {HE : Environment}.
Context {S V N : Type} {JA : AppJson V} {LA : AppJsonLaws V} {HN : NodeActions N} {HPN : PluginNode N}.
Context {HS : Store S V} {HV : StoreView S V} {HL : SharedStore S V} {HSO : SoundOthers S V}.
Variable hex_error : string → string.
Local Notation P := (Plugin S V N).
Local Notation H := (H (S := S) (V := V) (N := N)).
Implicit Types (p : P).

(** ** The judgement *)

Definition sound p : Prop := channels_sound (pl_world p).

Definition holds {A} (h : H A) (Q : A → Prop) : Prop :=
  ∀ p, sound p → sound (h p).2 ∧ ∀ a, (h p).1 = Ok a → Q a.

Lemma holds_ret {A} (a : A) (Q : A → Prop) : Q a → holds (mret a) Q.
Proof. intros HQ p Hp. split; [done|]. by intros ? [= <-]. Qed.

Lemma holds_bail {A} e (Q : A → Prop) : holds (bail e) Q.
Proof. intros p Hp. by split. Qed.

Lemma holds_result {A} (r : result PluginError A) : holds (pure_result r) (λ a, r = Ok a).
Proof. intros p Hp. by split. Qed.

Lemma holds_bind {A B} (m : H A) (f : A → H B) Q R :
  holds m Q → (∀ a, Q a → holds (f a) R) → holds (m ≫= f) R.
Proof.
  intros Hm Hf p Hp. destruct (Hm p Hp) as [Hp' Ha]. unfold mbind, H_bind.
  destruct (m p) as [[a|e] p']; cbn in *; [|by split]. by apply (Hf a (Ha a eq_refl)).
Qed.

Lemma holds_true {A} (m : H A) Q : holds m Q → holds m (λ _, True).
Proof. intros Hm p Hp. by destruct (Hm p Hp). Qed.

Lemma holds_caught {A} (m : H A) Q : holds m Q → holds (caught m) (λ _, True).
Proof.
  intros Hm p Hp. destruct (Hm p Hp) as [Hp' _]. unfold caught.
  destruct (m p) as [[a|[| [] | | | |]] p']; by split.
Qed.

Lemma holds_in_world {E A} (f : E → PluginError) (m : M (S := S) (V := V) (N := N) E A) Q :
  keeps m Q → holds (in_world f m) Q.
Proof.
  intros Hm p Hp. destruct (Hm (pl_world p) Hp) as [[Hw _] Ha]. unfold in_world, sound.
  destruct (m (pl_world p)) as [[a|e] w]; cbn in *; split; try done. intros ? [= <-]. auto.
Qed.

Lemma holds_channel {A} (m : M (S := S) (V := V) (N := N) ChannelError A) Q : keeps m Q → holds (channel m) Q.
Proof. apply holds_in_world. Qed.

Lemma holds_read {A} (h : H A) : (∀ p, (h p).2 = p) → holds h (λ _, True).
Proof. intros Hh p Hp. by rewrite Hh. Qed.

Lemma holds_controller : holds controller (λ _, True).
Proof. apply holds_read. intros p. unfold controller. by destruct (pl_runtime p). Qed.

Lemma holds_locked : holds is_locked (λ _, True).
Proof. by apply holds_read. Qed.

Lemma holds_locked_reason : holds locked_reason (λ _, True).
Proof. by apply holds_read. Qed.

(** A change of the plugin that leaves the store alone. *)
Lemma holds_same_store {A} (h : H A) :
  (∀ p, w_store (pl_world (h p).2) = w_store (pl_world p)) → holds h (λ _, True).
Proof. intros Hh p Hp. split; [|done]. eapply same_store_sound; [apply Hh|exact Hp]. Qed.

Lemma holds_build passphrase : holds (build_runtime passphrase) (λ _, True).
Proof.
  apply holds_same_store. intros p. unfold build_runtime.
  destruct (from_file_with_passphrase _ _ _ _) as [[keys|e]|]; [|done..]. by destruct (env_connect _).
Qed.

Lemma holds_set_runtime r : holds (set_runtime r) (λ _, True).
Proof. by apply holds_same_store. Qed.

Lemma holds_poll k : holds (poll_htlc k) (λ _, True).
Proof.
  apply holds_same_store. intros p. unfold poll_htlc. by destruct (pn_take_resolution _ _).
Qed.

Create HintDb holds.
Hint Resolve holds_result holds_controller holds_locked holds_locked_reason holds_build
  holds_set_runtime holds_poll : holds.
Hint Resolve keeps_list_channels keeps_load keeps_list keeps_node_call keeps_recover_all keeps_payment_result
  keeps_connect keeps_note_connection keeps_disconnect keeps_remove_channel keeps_add_secret
  keeps_remove_secret keeps_set_policy keeps_effective : holds.
Hint Extern 1 (holds (channel _) _) => apply holds_channel : holds.
Hint Extern 1 (holds (in_world _ _) _) => apply holds_in_world : holds.
Hint Extern 2 (holds (caught _) _) => eapply holds_caught : holds.

Ltac holds_step :=
  match goal with
  | |- holds (mret _) _ => by apply holds_ret
  | |- holds (bail _) _ => apply holds_bail
  | |- holds (if ?b then _ else _) _ => destruct b eqn:?
  | |- holds (match ?x with _ => _ end) _ => destruct x eqn:?
  | |- holds (let _ := _ in _) _ => cbv zeta
  | |- holds (mbind _ _) _ => eapply holds_bind; [solve [eauto 4 with holds]|intros ? ?]
  | |- holds (mbind _ _) _ => apply (holds_bind _ _ (λ _, True)); [|intros ? _]
  | |- holds _ _ => solve [eauto 4 with holds]
  | |- holds _ (λ _, True) => eapply holds_true; solve [eauto 4 with holds]
  end.
Ltac holds_auto := repeat holds_step; try done.

(** ** Reads of the controller that [ChannelInv] does not name *)

Lemma keeps_hydrate connections : keeps (note_initial_peer_connections (S := S) (V := V) (N := N) connections) (λ _, True).
Proof. apply keeps_same. intros w. split; [done|]. exists []. by rewrite app_nil_r. Qed.

Lemma keeps_get_status peer : keeps (get_status (S := S) (V := V) (N := N) peer) (λ _, True).
Proof. eapply keeps_bind; [apply keeps_load|]. intros r _. by apply keeps_ret. Qed.

Lemma keeps_statuses peers : keeps (list_statuses (S := S) (V := V) (N := N) peers) (λ _, True).
Proof.
  induction peers as [|peer peers IH]; cbn [list_statuses]; [by apply keeps_ret|].
  eapply keeps_bind; [apply keeps_get_status|]. intros status _.
  eapply keeps_bind; [apply IH|]. intros rest _. by apply keeps_ret.
Qed.

Lemma keeps_deadlines C : keeps (enforce_forward_deadlines (S := S) (V := V) (N := N) C) (λ _, True).
Proof.
  unfold enforce_forward_deadlines. eapply keeps_bind; [apply keeps_now|]. intros t _.
  eapply keeps_bind; [apply keeps_require|]. intros secs _. apply keeps_enforce.
Qed.

Lemma keeps_secrets : keeps (list_secrets (S := S) (V := V) (N := N)) (λ _, True).
Proof.
  unfold list_secrets. eapply keeps_bind; [apply keeps_lift, keeps_list|]. intros cs _. by apply keeps_ret.
Qed.

Lemma keeps_collect_events peer children events :
  keeps (collect_events (S := S) (V := V) (N := N) peer children events) (λ _, True).
Proof.
  revert events. induction children as [|c cs IH]; intros events; cbn [collect_events]; [by apply keeps_ret|].
  eapply keeps_bind; [|intros ? _; apply IH].
  apply keeps_read. intros w. unfold collect_event, mbind, M_bind, attempt, m_get_json.
  destruct (get_json c (w_store w)) as [[e g]|e]; [|done]. by destruct (negb _).
Qed.

Lemma keeps_events peer : keeps (list_events (S := S) (V := V) (N := N) peer) (λ _, True).
Proof.
  unfold list_events. eapply keeps_bind; [apply keeps_list|]. intros cs _.
  eapply keeps_bind; [apply keeps_collect_events|]. intros events _. by apply keeps_ret.
Qed.

Hint Resolve keeps_hydrate keeps_get_status keeps_statuses keeps_deadlines keeps_secrets keeps_events : holds.

(** ** Entry points *)

(** The controller's input that a peer's message is. *)
Definition message_input (peer : PublicKey) (msg : HostedMessage) : option Input :=
  match msg with
  | MInvokeHostedChannel m => Some (InInvoke peer m)
  | MLastCrossSignedState m => Some (InLcss peer m)
  | MStateUpdate m => Some (InStateUpdate peer m)
  | MUpdateAddHtlc m => Some (InUpdateAdd peer m)
  | MUpdateFulfillHtlc m => Some (InUpdateFulfill peer m)
  | MUpdateFailHtlc m => Some (InUpdateFail peer m)
  | MUpdateFailMalformedHtlc m => Some (InUpdateFailMalformed peer m)
  | MResizeChannel m => Some (InResize peer m)
  | MQueryPreimages m => Some (InQueryPreimages peer m)
  | MReplyPreimages m => Some (InReplyPreimages peer m)
  | MError m => Some (InError peer m)
  | MAskBrandingInfo m => Some (InAskBranding env_file peer m)
  | _ => None
  end.

Lemma dispatch_is_input C peer msg :
  dispatch_message (S := S) (V := V) (N := N) C peer msg =
  match message_input peer msg with Some i => run_input C i | None => mret tt end.
Proof using Type. by destruct msg. Qed.

(** Everything that reaches the plugin. *)
Inductive PluginInput : Type :=
| PiConnect (request : Value)
| PiDisconnect (request : Value)
| PiSendpaySuccess (request : Value)
| PiSendpayFailure (request : Value)
| PiCustommsg (request : Value)
| PiHtlcAccepted (request : Value)
| PiPollHtlc (result_key : string)
| PiRpcCommand (request : Value)
| PiRecovery
| PiHydration
| PiDeadlines
| PiUnlock (request : Value)
| PiStatus (request : Value)
| PiList (request : Value)
| PiChannel (request : Value)
| PiLcss (request : Value)
| PiVerify (request : Value)
| PiRemoveHc (request : Value)
| PiAddSecret (request : Value)
| PiRemoveSecret (request : Value)
| PiListSecrets (request : Value)
| PiReset (request : Value)
| PiEvents (request : Value)
| PiPolicy (request : Value)
| PiSetChannel (request : Value)
| PiUninstall (fuel : nat) (request : Value).

Definition answered {A} (h : H A) : H unit := _ ← h; mret tt.

(** A payment that waits for its preimage is run with nothing in between; what
    happens in between are further inputs. *)
Definition run_plugin (i : PluginInput) : H unit :=
  match i with
  | PiConnect r => plugin_connect r
  | PiDisconnect r => plugin_disconnect r
  | PiSendpaySuccess r => handle_sendpay_success hex_error r
  | PiSendpayFailure r => handle_sendpay_failure r
  | PiCustommsg r => answered (handle_custommsg r)
  | PiHtlcAccepted r => answered (handle_htlc_accepted hex_error r)
  | PiPollHtlc k => answered (poll_htlc k)
  | PiRpcCommand r => answered (handle_rpc_command hex_error (λ _ p, p) r)
  | PiRecovery => spawned_recovery
  | PiHydration => spawned_hydration
  | PiDeadlines => spawned_deadlines
  | PiUnlock r => answered (handle_unlock r)
  | PiStatus r => answered (handle_status r)
  | PiList r => answered (handle_list r)
  | PiChannel r => answered (handle_channel r)
  | PiLcss r => answered (handle_show_lcss r)
  | PiVerify r => answered (handle_verify r)
  | PiRemoveHc r => answered (handle_remove_hc r)
  | PiAddSecret r => answered (handle_add_secret r)
  | PiRemoveSecret r => answered (handle_remove_secret r)
  | PiListSecrets r => answered (handle_list_secrets r)
  | PiReset r => answered (handle_reset r)
  | PiEvents r => answered (handle_events r)
  | PiPolicy r => answered (handle_policy r)
  | PiSetChannel r => answered (handle_set_channel r)
  | PiUninstall fuel r => answered (handle_uninstall fuel r)
  end.

(** The conditions of [admissible], which only a peer's message can break; its
    wire encoding is noted before it is handled. *)
Definition plugin_admissible p (i : PluginInput) : Prop :=
  match i, pl_runtime p with
  | PiCustommsg r, Unlocked C =>
      ∀ peer decoded j, custommsg_of r = Some (peer, decoded) →
        message_input peer (dhm_message decoded) = Some j →
        admissible C (note_peer_wire_encoding (S := S) (V := V) (N := N) peer (dhm_encoding decoded) (pl_world p)).2 j
  | _, _ => True
  end.

Definition plugin_step p p' : Prop := ∃ i, plugin_admissible p i ∧ p' = (run_plugin i p).2.

(** ** Amounts of a request are unsigned *)

Lemma decimal_value_u64 s n : string_forall is_ascii_digit s = true → parse_digits_u64 s = Some n → u64 n.
Proof.
  intros Hs. pose proof (decimal_value_nonneg 0 s Hs ltac:(lia)) as Hpos. unfold parse_digits_u64.
  destruct s as [|a s]; [done|]. revert Hpos. generalize (decimal_value 0 (String a s)). intros v Hpos.
  cbv zeta. destruct (Z.ltb_spec v (2 ^ 64)); [|done]. intros Heq. injection Heq as <-. by split.
Qed.

Lemma parse_u64_range s n : parse_u64 s = Some n → u64 n.
Proof.
  unfold parse_u64. cbv zeta. destruct (string_forall _ _) eqn:Hs; [|done]. by apply decimal_value_u64.
Qed.

Lemma parse_msat_range v n : parse_msat v = Some n → u64 n.
Proof.
  unfold parse_msat. destruct (as_u64 v) eqn:Hv; [intros [= <-]; by eapply as_u64_range|].
  destruct (as_str v) as [s|]; [|done]. apply parse_u64_range.
Qed.

Lemma bind_as_u64_range (o : option Value) n : o ≫= as_u64 = Some n → u64 n.
Proof. destruct o as [v|]; [|done]. apply as_u64_range. Qed.

Lemma accepted_htlc_amount htlc onion scid a :
  accepted_htlc hex_error htlc onion scid = Ok a → amount_ok (ah_htlc a).
Proof.
  unfold accepted_htlc, msg_or. intros Ha.
  apply result_bind_ok in Ha as (amount & Hamount%ok_or_ok & Ha).
  repeat apply result_bind_ok in Ha as (? & _ & Ha). injection Ha as <-. unfold amount_ok. cbn.
  assert (u64 amount) as Hu. { destruct (v_get "amount_msat" htlc); [|done]. by eapply parse_msat_range. }
  destruct (or_else _ _ ≫= parse_msat) as [n|] eqn:Hn; cbn; [|apply Hu].
  destruct (or_else _ _); [|done]. cbn in Hn. apply parse_msat_range in Hn. apply Hn.
Qed.

(** ** Every handler *)

Lemma holds_answered {A} (h : H A) Q : holds h Q → holds (answered h) (λ _, True).
Proof. intros Hh. eapply holds_bind; [exact Hh|]. intros a _. by apply holds_ret. Qed.

Lemma holds_notification topic b f r : (∀ C peer, keeps (f C peer) (λ _, True)) →
  holds (connection_notification (S := S) (V := V) (N := N) topic b f r) (λ _, True).
Proof.
  intros Hf. unfold connection_notification. destruct (notification_peer r topic); [|by apply holds_ret].
  holds_auto.
Qed.

Lemma holds_success r : holds (handle_sendpay_success (S := S) (V := V) (N := N) hex_error r) (λ _, True).
Proof. unfold handle_sendpay_success. holds_auto. Qed.

Lemma holds_failure r : holds (handle_sendpay_failure (S := S) (V := V) (N := N) r) (λ _, True).
Proof. unfold handle_sendpay_failure. holds_auto. Qed.

Lemma holds_htlc_accepted r : holds (handle_htlc_accepted (S := S) (V := V) (N := N) hex_error r) (λ _, True).
Proof.
  assert (∀ C peer htlc onion scid, holds (a ← pure_result (accepted_htlc hex_error htlc onion scid);
            _ ← channel (add_accepted C peer a); poll_htlc (ah_result_key a)) (λ _, True)) as Hadd.
  { intros C peer htlc onion scid. eapply holds_bind; [apply holds_result|]. intros a Ha. apply accepted_htlc_amount in Ha.
  eapply holds_bind; [apply holds_channel, keeps_htlc_add; exact Ha|]. intros _ _. apply holds_poll. }
  unfold handle_htlc_accepted. holds_auto.
Qed.

Lemma holds_hinted C hints : holds (hinted_target (S := S) (V := V) (N := N) C hints) (λ _, True).
Proof. induction hints as [|[|[src scid] [|? ?]] hints IH]; cbn [hinted_target]; holds_auto. Qed.

Lemma holds_await n payment_hash :
  holds (await_preimage (S := S) (V := V) (N := N) n (λ _ p, p) payment_hash) (λ _, True).
Proof.
  induction n as [|n IH]; cbn [await_preimage]; [by apply holds_ret|]. holds_step.
  repeat case_match; try by apply holds_ret.
  all: eapply holds_bind; [by apply holds_same_store|]; intros _ _; apply IH.
Qed.
Hint Resolve holds_hinted holds_await : holds.

Lemma holds_pay C peer invoice amount : 0 ≤ amount →
  holds (pay_hosted (S := S) (V := V) (N := N) hex_error (λ _ p, p) C peer invoice amount) (λ _, True).
Proof.
  intros Ha. pose proof (λ h c s, keeps_send_direct_payment C peer amount h c s Ha) as Hpay.
  unfold pay_hosted. holds_auto.
Qed.

Lemma paid_amount_range r invoice n :
  or_else (or_else (rpc_param r "amount_msat" 1) (rpc_param r "msatoshi" 1) ≫= parse_msat)
    (amount_milli_satoshis invoice) = Some n → 0 ≤ n.
Proof.
  destruct (or_else _ _ ≫= parse_msat) as [m|] eqn:Hm; cbn.
  - intros [= <-]. destruct (or_else _ _); [|done]. apply parse_msat_range in Hm. apply Hm.
  - intros Hn. apply amount_range in Hn. apply Hn.
Qed.

Lemma holds_rpc_command r :
  holds (handle_rpc_command (S := S) (V := V) (N := N) hex_error (λ _ p, p) r) (λ _, True).
Proof.
  unfold handle_rpc_command. holds_step. holds_step; [holds_auto|]. holds_step. holds_step; [holds_auto|].
  holds_step; [|holds_auto]. holds_step; [|holds_auto]. holds_step. holds_step; [|holds_auto].
  holds_step; [|holds_auto]. eapply holds_bind; [|intros ? _; holds_auto].
  eapply holds_caught, holds_pay, paid_amount_range. eassumption.
Qed.

Lemma holds_unlock r : holds (handle_unlock (S := S) (V := V) (N := N) r) (λ _, True).
Proof. unfold handle_unlock. holds_auto. Qed.

Lemma holds_recovery : holds (spawned_recovery (S := S) (V := V) (N := N)) (λ _, True).
Proof. unfold spawned_recovery. holds_auto. Qed.

Lemma holds_hydration : holds (spawned_hydration (S := S) (V := V) (N := N)) (λ _, True).
Proof. unfold spawned_hydration. holds_auto. Qed.

Lemma holds_deadlines : holds (spawned_deadlines (S := S) (V := V) (N := N)) (λ _, True).
Proof. unfold spawned_deadlines. holds_auto. Qed.

(** ** Every command *)

Lemma holds_list r : holds (handle_list (S := S) (V := V) (N := N) r) (λ _, True).
Proof. unfold handle_list. holds_auto. Qed.
Lemma holds_show_channel r : holds (handle_channel (S := S) (V := V) (N := N) r) (λ _, True).
Proof. unfold handle_channel. holds_auto. Qed.
Lemma holds_show_lcss r : holds (handle_show_lcss (S := S) (V := V) (N := N) r) (λ _, True).
Proof. unfold handle_show_lcss. holds_auto. Qed.
Lemma holds_verify r : holds (handle_verify (S := S) (V := V) (N := N) r) (λ _, True).
Proof. unfold handle_verify. holds_auto. Qed.
Lemma holds_remove_hc r : holds (handle_remove_hc (S := S) (V := V) (N := N) r) (λ _, True).
Proof. unfold handle_remove_hc. holds_auto. Qed.
Lemma holds_add_secret r : holds (handle_add_secret (S := S) (V := V) (N := N) r) (λ _, True).
Proof. unfold handle_add_secret. holds_auto. Qed.
Lemma holds_remove_secret r : holds (handle_remove_secret (S := S) (V := V) (N := N) r) (λ _, True).
Proof. unfold handle_remove_secret. holds_auto. Qed.
Lemma holds_list_secrets r : holds (handle_list_secrets (S := S) (V := V) (N := N) r) (λ _, True).
Proof. unfold handle_list_secrets. holds_auto. Qed.
Lemma holds_events r : holds (handle_events (S := S) (V := V) (N := N) r) (λ _, True).
Proof. unfold handle_events. holds_auto. Qed.
Lemma holds_policy r : holds (handle_policy (S := S) (V := V) (N := N) r) (λ _, True).
Proof. unfold handle_policy. holds_auto. Qed.

Lemma holds_reset r : holds (handle_reset (S := S) (V := V) (N := N) r) (λ _, True).
Proof.
  unfold handle_reset. do 2 holds_step.
  eapply holds_bind; [|intros ? _; holds_auto]. apply holds_channel, propose_override_sound.
  destruct (arg_u64 _ _ _) as [b|] eqn:Hb; [|done]. apply bind_as_u64_range in Hb. apply Hb.
Qed.

Lemma requested_params_typed r params : requested_params r = Ok params → params_typed params.
Proof.
  unfold requested_params. intros Hp. repeat apply result_bind_ok in Hp as (? & _ & Hp).
  injection Hp as <-. split; cbn.
  - destruct (param_u64 r "channel_capacity_msat") eqn:Hc; [|done]. apply bind_as_u64_range in Hc.
    unfold u64, U64_MAX in *. lia.
  - destruct (param_u64 r "initial_client_balance_msat") eqn:Hc; [|done]. apply bind_as_u64_range in Hc. apply Hc.
Qed.

Lemma holds_set_channel r : holds (handle_set_channel (S := S) (V := V) (N := N) r) (λ _, True).
Proof.
  unfold handle_set_channel. holds_step. eapply holds_bind; [apply holds_result|].
  intros params Hparams%requested_params_typed. holds_step.
  eapply holds_bind; [by apply holds_channel, set_channel_sound|]. intros [parameters updated] _. by apply holds_ret.
Qed.

(** Deleting a subtree leaves what is left sound. *)
Lemma delete_loop_sound fuel (pending : list (key * bool)) n (s : S) r s' :
  Forall (λ kb, key_ok kb.1) pending → delete_loop fuel pending n s = Some (r, s') →
  store_sound s → store_sound s'.
Proof using HCL HSO.
  revert pending n s. induction fuel as [|fuel IH]; intros pending n s Hok Hloop Hs; [done|]. cbn [delete_loop] in Hloop.
  destruct pending as [|[k visited] pending]; [by injection Hloop as _ <-|].
  apply Forall_cons in Hok as [Hk Hok]. cbn in Hk. destruct visited.
  - destruct (st_exists k s) as [[]|e]; [|by eapply IH|by injection Hloop as _ <-].
    assert (store_sound (st_delete k s).2) as Hd by by eapply store_write_sound; [by apply shared_delete|..].
    destruct (st_delete k s) as [[u|[]] s1]; (by eapply IH) || (by injection Hloop as _ <-).
  - destruct (shared_list k s Hk) as (cs & Hl & Hcs). rewrite Hl in Hloop. eapply IH; [|exact Hloop|done].
    apply Forall_app. split; [|by constructor]. apply Forall_reverse, Forall_fmap, Forall_forall.
    intros c Hc. apply Hcs in Hc as (seg & rest & -> & Hkey). cbn. by eapply key_ok_child.
Qed.

Lemma holds_uninstall fuel r : holds (handle_uninstall (S := S) (V := V) (N := N) fuel r) (λ _, True).
Proof.
  unfold handle_uninstall. holds_step. apply (holds_bind _ _ (λ _, True)); [|intros ? _; by apply holds_ret].
  unfold uninstall_store. holds_step. holds_step; [holds_auto|]. intros p Hp. split; [|done].
  destruct (delete_subtree _ _ _) as [[res s]|] eqn:Hdel; [|done].
  apply channels_sound_store in Hp. apply channels_sound_store. eapply delete_loop_sound; [|exact Hdel|exact Hp].
  apply Forall_singleton. by apply (bool_decide_unpack _).
Qed.

(** ** The whole plugin *)

Lemma custommsg_sound r p : sound p → plugin_admissible p (PiCustommsg r) →
  sound (run_plugin (PiCustommsg r) p).2.
Proof.
  intros Hp Hadm. cbn in Hadm |- *. unfold answered, handle_custommsg, mbind, H_bind, is_locked, controller.
  destruct (pl_runtime p) as [reason|C] eqn:Hr; [done|].
  destruct (custommsg_of r) as [[peer decoded]|] eqn:Hmsg; [|done]. rewrite Hr.
  unfold channel, in_world, caught. cbn [fst snd note_peer_wire_encoding map_err with_world pl_world].
  set (w := set_encodings _ _). rewrite dispatch_is_input.
  assert (channels_sound w) as Hw by (eapply same_store_sound; [|exact Hp]; done).
  destruct (message_input peer (dhm_message decoded)) as [j|] eqn:Hj; [|exact Hw].
  specialize (Hadm peer decoded j eq_refl Hj).
  pose proof (step_sound C w _ (ex_intro _ j (conj Hadm eq_refl)) Hw) as Hstep.
  destruct (run_input C j w) as [[u|[]] w']; exact Hstep.
Qed.

Lemma plugin_step_sound p p' : plugin_step p p' → sound p → sound p'.
Proof.
  intros (i & Hi & ->) Hp.
  assert (∀ h : H unit, holds h (λ _, True) → sound (h p).2) as Hk by (intros h Hh; by destruct (Hh p Hp)).
  destruct i; cbn [run_plugin]; try by (apply Hk; eapply holds_answered; eauto using holds_poll, holds_unlock,
    holds_list, holds_show_channel, holds_show_lcss, holds_verify, holds_remove_hc, holds_add_secret,
    holds_remove_secret, holds_list_secrets, holds_events, holds_policy, holds_reset, holds_set_channel,
    holds_uninstall, holds_rpc_command, holds_htlc_accepted).
  - apply Hk, holds_notification. intros. apply keeps_connect.
  - apply Hk, holds_notification. intros. apply keeps_disconnect.
  - apply Hk, holds_success.
  - apply Hk, holds_failure.
  - by apply custommsg_sound.
  - apply Hk, holds_recovery.
  - apply Hk, holds_hydration.
  - apply Hk, holds_deadlines.
  - done.
Qed.

(** C2. As long as the messages that peers send keep to conditions the code does not
    check, no request wedges a channel: whatever JSON any other hook, notification,
    command or background task is given, in whatever order, locked or not, and
    whatever the node answers, every stored channel can still be committed, with its
    balances and HTLCs adding up to its capacity, if the stored channels were sound to
    begin with (an empty store is).  The conditions
    ([plugin_admissible], which are those of [admissible] for the message a custommsg
    carries): the amounts are in range, an HTLC's id is new on its channel, a resize
    finds nothing pending, an adopted state is one the host could have signed, and the
    policy a channel is opened with offers no more than its capacity.  They are needed:
    a message that breaks them can wedge the channel ([resize_wedges]) or leave an HTLC
    that cannot be claimed ([duplicate_id_unclaimable]). *)
Theorem plugin_never_wedges p p' peer d :
  sound p → rtc plugin_step p p' → channel_at (pl_world p') peer d →
  funds_ok (cd_lcss d) ∧ total_funds (cd_lcss d) = capacity (cd_lcss d) ∧
  ∃ n, lcss_next (with_uncommitted d) = Ok n ∧ funds_ok n ∧ total_funds n = capacity (cd_lcss d).
Proof.
  intros Hp Hsteps Hat. assert (sound p') as Hp' by (clear Hat; induction Hsteps; eauto using plugin_step_sound).
  by apply chan_commits, (Hp' peer).
Qed.

End PluginSound.

Module PluginSoundExamples.
Import PluginToy.

Definition fee_request (fee : Z) : PluginInput :=
  PiSetChannel (v_object [("peer_id", v_string (pk_to_string (peer : @PublicKey Toy.crypto)));
                          ("fee_base_msat", v_u64 fee)]).

(** The plugin of the opened channel, after the operator has changed its fee. *)
Lemma plugin_never_wedges_witness :
  let p' := (run_plugin (λ _, "") (fee_request 5) (running opened)).2 in
  (crp_fee_base_msat <$> cd_routing_policy (data (pl_world p'))) = Some 5 ∧
  ∃ n, lcss_next (with_uncommitted (data (pl_world p'))) = Ok n ∧ total_funds n = 100000000.
Proof.
  intros p'. split; [unfold p'; vm_compute; reflexivity|].
  destruct (plugin_never_wedges (λ _, "") (running opened) p' peer (data (pl_world p')))
    as (_ & _ & n & Hn & _ & Ht).
  - exact opened_sound.
  - apply rtc_once. exists (fee_request 5). split; [exact I|reflexivity].
  - apply data_at. unfold p'. vm_compute. reflexivity.
  - exists n. split; [exact Hn|]. rewrite Ht. unfold p'. vm_compute. reflexivity.
Defined.

End PluginSoundExamples.
