(* ===== verification/PluginRacy.v ===== *)
(** * Requests among other requests

    Every hook, notification and command of the plugin is served in a task of its
    own, and so is every background task of [src/main.rs].  Here they are threads of
    one process ([Contended]): [PluginSound]'s guarantee survives every
    interleaving of them and every crash. *)
From S2P Require Import Prelude Text Bytes Codecs Crypto ChannelId Config Lcss Wire Sphinx State Store Node Gossip World Ledger Keys Json ClnStore ClnNode ChannelBase ChannelForward ChannelUpdate ChannelOpen ChannelAdmin ChannelSound ChannelInv Contended Scenario PluginRequest Plugin PluginCommands PluginToy PluginSound.
From stdpp Require Import options.
#[local] Open Scope Z_scope.

Section PluginRacy.
Context {HC : Crypto} {HCL : CryptoLaws} {HO : OnionCrypto} {HK : KeyDerivation} {HP : PublicKeyText}.
Context {HJ : JsonValue} {LJ : JsonValueLaws} {HI : Invoices} {LI : InvoicesLaws} {HE : Environment}.
Context {S V N : Type} {HS : Store S V} {HL : StoreLaws S V} {HN : NodeActions N} {HPN : PluginNode N}.
Context {JA : AppJson V} {LA : AppJsonLaws V}.
Variable hex_error : string → string.
Local Notation CW := (World (Contended (S := S) keeping) V N).

(** A request, and the plugin's state but for the world when it comes in. *)
Record Request : Type := mkRequest {
  rq_input : PluginInput;
  rq_config : Config;
  rq_rpc_path : string;
  rq_hsm_secret_path : string;
  rq_runtime : RuntimeState;
}.

Definition rq_plugin (r : Request) (w : CW) : Plugin (Contended keeping) V N :=
  mkPlugin (rq_config r) (rq_rpc_path r) (rq_hsm_secret_path r) (rq_runtime r) w.

Definition serves (r : Request) (w : CW) : CW :=
  pl_world (run_plugin hex_error (rq_input r) (rq_plugin r w)).2.
Definition servable (r : Request) (w : CW) : Prop := plugin_admissible (rq_plugin r w) (rq_input r).

Lemma serves_sound r w : servable r w → channels_sound w → channels_sound (serves r w).
Proof using HCL LA LI LJ.
  intros Ha Hw. apply (plugin_step_sound hex_error (rq_plugin r w)); [|exact Hw]. by exists (rq_input r).
Qed.

End PluginRacy.

(** C3. Requests that keep to the conditions of [plugin_never_wedges] wedge no channel,
    whatever they run among.  Any number of hooks, notifications, commands and
    background tasks run at once over one sound store, each stopped before and after each of
    its writes while the others go on, locked or not, and the plugin may die between
    any two writes.  Every message a peer sends meets those conditions when it is
    handled ([servable]: no amount out of range, no HTLC id used twice, no resize of a
    channel with updates pending, no adopted state the host could not have signed, no
    policy offering more than its capacity).  Then every channel stored at any moment
    can still be committed, with its balances and HTLCs adding up to its capacity.  (An
    update may be lost, see [concurrent_update_lost]; the account stays right.) *)
Theorem interleaved_requests_never_wedge {HC : Crypto} {HCL : CryptoLaws} {HO : OnionCrypto}
    {HK : KeyDerivation} {HP : PublicKeyText} {HJ : JsonValue} {LJ : JsonValueLaws} {HI : Invoices}
    {LI : InvoicesLaws} {HE : Environment} {S V N : Type} {HS : Store S V} {HL : StoreLaws S V}
    {HN : NodeActions N} {HPN : PluginNode N} {JA : AppJson V} {LA : AppJsonLaws V} hex_error
    s (ts : list (Thread (S := S) (V := V) (N := N))) s' peer d g v :
  store_sound s → rtc (conc (serves hex_error) servable) ([], s) (ts, s') →
  view s' (channel_key peer) = Some (g, v) → from_slice v = Ok d →
  funds_ok (cd_lcss d) ∧ total_funds (cd_lcss d) = capacity (cd_lcss d) ∧
  ∃ n, lcss_next (with_uncommitted d) = Ok n ∧ funds_ok n ∧ total_funds n = capacity (cd_lcss d).
Proof. apply conc_never_wedge, serves_sound. Qed.

Module PluginRacyExamples.
Import PluginToy PluginSoundExamples.

Abbreviation T := (Thread (S := MemoryStore Doc) (V := Doc) (N := MockNode) (Act := Request)).
Local Notation serve := (serves (S := MemoryStore Doc) (V := Doc) (N := MockNode) (λ _, "")).
Local Notation can_serve := (servable (S := MemoryStore Doc) (V := Doc) (N := MockNode)).

(** The operator changes the fee of the channel twice at once; the plugin dies when
    one of the changes is stored. *)
Definition asked (i : PluginInput) : T :=
  mkThread (mkRequest i config "rpc" "hsm_secret" (Unlocked host)) opened [].
Definition five0 : T := asked (fee_request 5).
Definition seven0 : T := asked (fee_request 7).

Lemma opened_store_is_sound : store_sound (w_store opened).
Proof. apply channels_sound_store. exact opened_sound. Qed.

Lemma always_servable i w : match i with PiCustommsg _ => False | _ => True end →
  can_serve (mkRequest i config "rpc" "hsm_secret" (Unlocked host)) w.
Proof. by destruct i. Qed.

Definition five1 : T := th_find (found _ opened_store_is_sound) five0.
Definition after_five1 : MemoryStore Doc := co_now (w_store (th_run serve 1 five1)).
Lemma after_five1_sound : store_sound after_five1.
Proof.
  apply (th_run_sound serve can_serve (serves_sound (λ _, ""))); [exact opened_store_is_sound|].
  by apply always_servable.
Qed.

Definition seven1 : T := th_find (found _ after_five1_sound) seven0.
Definition after_seven1 : MemoryStore Doc := co_now (w_store (th_run serve 1 seven1)).
Lemma after_seven1_sound : store_sound after_seven1.
Proof.
  apply (th_run_sound serve can_serve (serves_sound (λ _, ""))); [exact opened_store_is_sound|].
  by apply always_servable.
Qed.

Definition five_looks : T := th_find (found _ after_seven1_sound) five1.
Definition five2 : T := th_find (found _ after_seven1_sound) five_looks.
Definition after_five2 : MemoryStore Doc := co_now (w_store (th_run serve 2 five2)).

Lemma requests_write :
  co_left (w_store (th_run serve 1 five1)) = Some O ∧ co_left (w_store (th_run serve 1 seven1)) = Some O ∧
  co_left (w_store (th_run serve 2 five2)) = Some O.
Proof. split_and!; vm_compute; reflexivity. Qed.

Lemma request_writes (ts ts' : list T) (s s' : MemoryStore Doc) (k : nat) i moves (Hs : store_sound s) n :
  let t := mkThread (mkRequest i config "rpc" "hsm_secret" (Unlocked host)) opened moves in
  let t' := th_find (found s Hs) t in
  match i with PiCustommsg _ => False | _ => True end →
  ts !! k = Some t → length moves = (2 * n)%nat → co_left (w_store (th_run serve (Datatypes.S n) t')) = Some O →
  s' = co_now (w_store (th_run serve (Datatypes.S n) t')) → ts' = <[k := t']> ts →
  conc serve can_serve (ts, s) (ts', s').
Proof. intros t t' Hi Hk Hl Hw -> ->. by apply conc_write; [..|apply always_servable|]. Qed.

Lemma crash_run : rtc (conc serve can_serve) ([], w_store opened) ([] : list T, after_five2).
Proof.
  destruct requests_write as (H1 & H2 & H3).
  eapply rtc_l; [exact (conc_start serve can_serve [] opened (th_act five0))|]. cbn [app].
  eapply rtc_l; [exact (conc_start serve can_serve [five0] opened (th_act seven0))|]. cbn [app].
  apply (rtc_l _ _ ([five1; seven0], after_five1)).
  { exact (request_writes [five0; seven0] [five1; seven0] (w_store opened) after_five1 0 (fee_request 5) []
             opened_store_is_sound 0 I eq_refl eq_refl H1 eq_refl eq_refl). }
  apply (rtc_l _ _ ([five1; seven1], after_seven1)).
  { exact (request_writes [five1; seven0] [five1; seven1] after_five1 after_seven1 1 (fee_request 7) []
             after_five1_sound 0 I eq_refl eq_refl H2 eq_refl eq_refl). }
  apply (rtc_l _ _ ([five_looks; seven1], after_seven1)).
  { exact (conc_look serve can_serve [five1; seven1] after_seven1 0 five1 (found _ after_seven1_sound) 0
             eq_refl eq_refl (λ _, eq_refl)). }
  apply (rtc_l _ _ ([five2; seven1], after_five2)).
  { exact (request_writes [five_looks; seven1] [five2; seven1] after_seven1 after_five2 0 (fee_request 5)
             (th_moves five_looks) after_seven1_sound 1 I eq_refl eq_refl H3 eq_refl eq_refl). }
  apply rtc_once, conc_crash.
Qed.

Definition left_at (s : MemoryStore Doc) : option (Z * Doc) := view s (channel_key peer).
Definition left_in (s : MemoryStore Doc) : ChannelData :=
  match left_at s with Some (_, DChannel d) => d | _ => new_channel_data policy [] end.

Lemma record_left : match left_at after_five2 with Some (_, DChannel _) => true | _ => false end = true.
Proof. vm_compute. reflexivity. Qed.

Lemma interleaved_requests_never_wedge_witness :
  (crp_fee_base_msat <$> cd_routing_policy (left_in after_five2)) = Some 5 ∧
  ∃ n, lcss_next (with_uncommitted (left_in after_five2)) = Ok n ∧ total_funds n = 100000000.
Proof.
  split; [vm_compute; reflexivity|]. pose proof record_left as Hr.
  destruct (left_at after_five2) as [[g [d| | | | | |]]|] eqn:Hv; try discriminate Hr.
  destruct (interleaved_requests_never_wedge (HC := Toy.crypto) (λ _, "") (w_store opened) [] after_five2 peer (left_in after_five2)
              g (DChannel d)) as (_ & _ & n & Hn & _ & Ht).
  - exact opened_store_is_sound.
  - exact crash_run.
  - exact Hv.
  - unfold left_in. rewrite Hv. reflexivity.
  - exists n. split; [exact Hn|]. rewrite Ht. vm_compute. reflexivity.
Defined.

End PluginRacyExamples.
