(* ===== verification/PluginLocked.v ===== *)
(** * The locked plugin ([src/main.rs])

    Until the secret file is unlocked the plugin only passes: [passes h] says that
    a handler run while locked changes nothing.  With it, what an unlocking
    attempt can do, and what a secret file that can never be unlocked means for
    every later request. *)
From S2P Require Import Prelude Text Bytes Codecs Crypto ChannelId Config Lcss Wire Sphinx State Store Node World Ledger Keys Json ClnStore ClnNode ChannelBase ChannelForward ChannelUpdate ChannelOpen ChannelAdmin ChannelInv PluginRequest Plugin PluginCommands Scenario PluginToy PluginSound.
From stdpp Require Import options.
#[local] Open Scope Z_scope.

Section Locked.
#[local] Set Default Proof Using "Type*".
Context {HC : Crypto} {HO : OnionCrypto} {HK : KeyDerivation} {HP : PublicKeyText}.
Context {HJ : JsonValue} {HI : Invoices} {HE : Environment}.
Context {S V N : Type} {HS : Store S V} {HN : NodeActions N} {HPN : PluginNode N} {JA : AppJson V}.
Variable hex_error : string → string.
Local Notation P := (Plugin S V N).
Local Notation H := (H (S := S) (V := V) (N := N)).
Implicit Types (p : P).

Definition locked p : Prop := ∃ reason, pl_runtime p = Locked reason.

(** ** The judgement *)

Definition passes {A} (h : H A) : Prop := ∀ p, locked p → (h p).2 = p.

(** Run while locked, [h] changes nothing and fails. *)
Definition refuses {A} (h : H A) : Prop := ∀ p, locked p → ∃ e, h p = (Err e, p).

Lemma refuses_passes {A} (h : H A) : refuses h → passes h.
Proof. intros Hh p Hp. by destruct (Hh p Hp) as [e ->]. Qed.

Lemma passes_ret {A} (a : A) : passes (mret a).
Proof. by intros p _. Qed.

Lemma passes_result {A} (r : result PluginError A) : passes (pure_result r).
Proof. by intros p _. Qed.

Lemma refuses_controller : refuses controller.
Proof. intros p [reason Hp]. unfold controller. rewrite Hp. eauto. Qed.

Lemma passes_bind {A B} (m : H A) (f : A → H B) : passes m → (∀ a, passes (f a)) → passes (m ≫= f).
Proof.
  intros Hm Hf p Hp. unfold mbind, H_bind. pose proof (Hm p Hp) as E.
  destruct (m p) as [[a|e] p']; cbn in E; subst p'; [by apply Hf|done].
Qed.

Lemma refuses_bind {A B} (m : H A) (f : A → H B) : refuses m → refuses (m ≫= f).
Proof. intros Hm p Hp. unfold mbind, H_bind. destruct (Hm p Hp) as [e ->]. eauto. Qed.

Lemma refuses_later {A B} (m : H A) (f : A → H B) : passes m → (∀ a, refuses (f a)) → refuses (m ≫= f).
Proof.
  intros Hm Hf p Hp. unfold mbind, H_bind. pose proof (Hm p Hp) as E.
  destruct (m p) as [[a|e] p']; cbn in E; subst p'; [by apply Hf|eauto].
Qed.

(** A hook, a notification or a task looks at the lock first. *)
Lemma locked_first {A} (a : A) (f : H A) p : locked p →
  (locked ← is_locked; if (locked : bool) then mret a else f) p = (Ok a, p).
Proof. intros [reason Hp]. unfold mbind, H_bind, is_locked. by rewrite Hp. Qed.

Lemma passes_locked_first {A} (a : A) (f : H A) :
  passes (locked ← is_locked; if (locked : bool) then mret a else f).
Proof. intros p Hp. by rewrite locked_first. Qed.

Lemma passes_answered {A} (h : H A) : passes h → passes (answered h).
Proof. intros Hh. apply passes_bind; [done|]. intros a. apply passes_ret. Qed.

Lemma refuses_answered {A} (h : H A) : refuses h → refuses (answered h).
Proof. apply refuses_bind. Qed.

Ltac passes_auto :=
  repeat match goal with
    | |- passes (match ?x with _ => _ end) => destruct x
    | |- passes (answered _) => apply passes_answered
    | |- _ => first [apply passes_ret | apply passes_locked_first]
    end.
Ltac refuses_auto :=
  repeat match goal with
    | |- refuses (answered _) => apply refuses_answered
    | |- refuses (controller ≫= _) => apply refuses_bind, refuses_controller
    | |- refuses (let _ := _ in _) => cbv zeta
    | |- refuses (pure_result _ ≫= _) => apply refuses_later; [apply passes_result|intros ?]
    end.

(** ** Requests of a locked plugin *)

(** The commands that need the controller. *)
Definition needs_controller (i : PluginInput) : bool :=
  match i with
  | PiList _ | PiChannel _ | PiLcss _ | PiVerify _ | PiRemoveHc _ | PiAddSecret _ | PiRemoveSecret _
  | PiListSecrets _ | PiReset _ | PiEvents _ | PiPolicy _ | PiSetChannel _ | PiUninstall _ _ => true
  | _ => false
  end.

(** Neither an attempt to unlock nor a hook call that already waits. *)
Definition leaves_lock (i : PluginInput) : bool :=
  match i with PiUnlock _ | PiPollHtlc _ => false | _ => true end.

Lemma commands_refused i : needs_controller i = true → refuses (run_plugin hex_error i).
Proof.
  destruct i; try done; intros _; cbn [run_plugin];
    unfold handle_list, handle_channel, handle_show_lcss, handle_verify, handle_remove_hc, handle_add_secret,
      handle_remove_secret, handle_list_secrets, handle_reset, handle_events, handle_policy,
      handle_set_channel, handle_uninstall; refuses_auto.
Qed.

Lemma requests_pass i : leaves_lock i = true → passes (run_plugin hex_error i).
Proof.
  destruct (needs_controller i) eqn:Hi; [intros _; by apply refuses_passes, commands_refused|].
  destruct i; try done; intros _; cbn [run_plugin];
    unfold plugin_connect, plugin_disconnect, connection_notification, handle_sendpay_success,
      handle_sendpay_failure, handle_custommsg, handle_htlc_accepted, handle_rpc_command,
      spawned_recovery, spawned_hydration, spawned_deadlines; passes_auto.
Qed.

(** C19. A locked plugin is inert: no peer message, HTLC, payment, notification,
    timer or command but [canopus-unlock] changes anything or reaches the node,
    the three hooks tell lightningd to carry on without it, and every command
    that needs a channel fails. *)
Theorem locked_inert p i :
  locked p → leaves_lock i = true →
  (run_plugin hex_error i p).2 = p ∧
  (needs_controller i = true → ∃ e, (run_plugin hex_error i p).1 = Err e) ∧
  (∀ r, handle_custommsg r p = (Ok hook_continue, p)) ∧
  (∀ r, handle_htlc_accepted hex_error r p = (Ok (Answered hook_continue), p)) ∧
  (∀ env r, handle_rpc_command hex_error env r p = (Ok hook_continue, p)).
Proof.
  intros Hp Hi. split; [by apply requests_pass|]. split.
  - intros Hc. destruct (commands_refused i Hc p Hp) as [e ->]. eauto.
  - split_and!; intros; by apply locked_first.
Qed.

(** ** Unlocking *)

(** The plugin runs with these keys, over the store it had. *)
Definition runs_with (keys : NodeKeys) p p' : Prop :=
  pl_runtime p' = Unlocked (mkController HC (pl_config p) (nk_secret keys) (nk_public keys)) ∧
  w_store (pl_world p') = w_store (pl_world p) ∧
  w_connections (pl_world p') = ∅ ∧ w_encodings (pl_world p') = ∅.

Definition secret_keys p (passphrase : option string) : option (result KeyError NodeKeys) :=
  from_file_with_passphrase env_utf8_error env_read (pl_hsm_secret_path p) passphrase.

Lemma unlock_cases p r : locked p →
  (∃ e, handle_unlock r p = (Err e, p)) ∨
  ∃ passphrase keys v p', unlock_passphrase r = Ok passphrase ∧
    secret_keys p (Some passphrase) = Some (Ok keys) ∧
    handle_unlock r p = (Ok v, p') ∧ runs_with keys p p' ∧ pl_hsm_secret_path p' = pl_hsm_secret_path p.
Proof.
  intros [reason Hp]. unfold handle_unlock, locked_reason, mbind, H_bind, pure_result. cbn beta. rewrite Hp.
  destruct (unlock_passphrase r) as [passphrase|e]; [|by left; eexists].
  unfold build_runtime. fold (secret_keys p (Some passphrase)).
  destruct (secret_keys p (Some passphrase)) as [[keys|e]|] eqn:Hkeys; [|by left; eexists..].
  destruct (env_connect _) as [u|e]; [|by left; eexists].
  right. exists passphrase, keys. cbn. do 2 eexists. by split_and!.
Qed.

(** C20. Unlocking is all or nothing: an attempt either fails and leaves the plugin
    exactly as it was, to be tried again, or exactly one of a passphrase and a
    passphrase file was given, it opens the secret file, and the plugin runs with
    the keys of that file over the same store; then every further attempt fails. *)
Theorem unlock_all_or_nothing p r :
  locked p →
  (∃ e, handle_unlock r p = (Err e, p)) ∨
  ∃ passphrase keys v p', 
    unlock_passphrase r = Ok passphrase ∧
    xorb (is_some (arg_str r 0 "passphrase")) (is_some (arg_str r 1 "passphrase_file")) = true ∧
    secret_keys p (Some passphrase) = Some (Ok keys) ∧
    handle_unlock r p = (Ok v, p') ∧ runs_with keys p p' ∧
    ∀ r', handle_unlock r' p' = (Err (Msg "canopus is already unlocked"), p').
Proof.
  intros Hp. destruct (unlock_cases p r Hp) as [H|(passphrase & keys & v & p' & Hpass & Hkeys & Hun & Hrun & _)];
    [by left|right].
  exists passphrase, keys, v, p'. split_and!; try done.
  - unfold unlock_passphrase in Hpass. by destruct (arg_str r 0 _), (arg_str r 1 _).
  - intros r'. destruct Hrun as (Hrun & _). unfold handle_unlock, locked_reason, mbind, H_bind. cbn beta. by rewrite Hrun.
Qed.

(** ** Starting *)

(** The plugin starts in one of two states, and without writing anything: it
    runs with the keys of the secret file if that file needs no passphrase, and
    is locked exactly when one is missing; any other failure stops it. *)
Theorem startup_outcome options url_parses file_length pc w p :
  start_plugin hex_error options url_parses file_length pc w = Ok p →
  w_store (pl_world p) = w_store w ∧ w_log (pl_world p) = w_log w ∧
  pl_hsm_secret_path p = path_join (lightning_dir pc) "hsm_secret" ∧
  startup_config hex_error options url_parses file_length pc = Ok (pl_config p) ∧
  match pl_runtime p with
  | Unlocked C => ∃ keys, secret_keys p None = Some (Ok keys) ∧
      C = mkController HC (pl_config p) (nk_secret keys) (nk_public keys)
  | Locked _ => ∃ path, secret_keys p None = Some (Err (PassphraseRequired path))
  end.
Proof.
  unfold start_plugin. intros (config & Hc & Hp)%result_bind_ok. cbv zeta in Hp.
  unfold start_runtime, caught, mbind, H_bind, build_runtime in Hp. cbn [pl_hsm_secret_path pl_rpc_path pl_config pl_world] in Hp.
  destruct (from_file_with_passphrase _ _ _ _) as [[keys|e]|] eqn:Hkeys.
  - destruct (env_connect _) as [u|e]; [|done]. cbn in Hp. injection Hp as <-.
    cbn. split_and!; try done. exists keys. by split.
  - destruct e; cbn in Hp; try done. injection Hp as <-. cbn. split_and!; try done. by eexists.
  - done.
Qed.

(** ** A secret file that no passphrase opens *)

Lemma poll_outcome k p : ∃ n, (poll_htlc k p).2 = with_world (set_node n [] (pl_world p)) p.
Proof. unfold poll_htlc. destruct (pn_take_resolution _ _) as [o n]. by exists n. Qed.

Context {HL : StoreLaws S V}.

(** Nothing but its node differs. *)
Definition still_locked p p' : Prop :=
  locked p' ∧ pl_hsm_secret_path p' = pl_hsm_secret_path p ∧ w_store (pl_world p') = w_store (pl_world p).

Lemma step_still_locked `{!KeyDerivationLaws} p p' data :
  locked p → env_read (pl_hsm_secret_path p) = Ok data → detect_hsm_secret_kind data = LegacyEncrypted →
  plugin_step hex_error p p' → still_locked p p'.
Proof.
  intros Hp Hread Hkind (i & _ & ->). destruct (leaves_lock i) eqn:Hi.
  - rewrite requests_pass by done. by split_and!.
  - destruct i as [| | | | | |k| | | | |r| | | | | | | | | | | | | |]; try done; cbn [run_plugin].
    + unfold answered, mbind, H_bind. destruct (poll_outcome k p) as [n Hn].
      destruct (poll_htlc k p) as [[a|e] p']; cbn in Hn |- *; subst p'; by split_and!.
    + unfold answered, mbind, H_bind. destruct (unlock_cases p r Hp) as [[e He]|(pw & keys & v & p' & _ & Hkeys & _)].
      * rewrite He. by split_and!.
      * exfalso. unfold secret_keys, from_file_with_passphrase in Hkeys. rewrite Hread in Hkeys.
        destruct (from_hsm_secret_bytes _ data _) as [[keys'|e]|] eqn:Hb; try done.
        by eapply encrypted_form_never_unlocks in Hb.
Qed.

(** A plugin whose secret file has the 73-octet encrypted form stays locked
    for ever, whatever passphrase it is given and whatever else it receives; its
    store is never written. *)
Theorem encrypted_secret_locks_for_ever `{!KeyDerivationLaws} p p' data :
  locked p → env_read (pl_hsm_secret_path p) = Ok data → detect_hsm_secret_kind data = LegacyEncrypted →
  rtc (plugin_step hex_error) p p' →
  locked p' ∧ w_store (pl_world p') = w_store (pl_world p).
Proof.
  intros Hp Hread Hkind Hsteps. revert Hp Hread. induction Hsteps as [|p p1 p' Hstep _ IH]; [done|].
  intros Hp Hread. destruct (step_still_locked p p1 data Hp Hread Hkind Hstep) as (Hp1 & Hpath & <-).
  apply IH; [done|]. by rewrite Hpath.
Qed.

End Locked.

Module LockedExamples.
Import PluginToy.

Lemma stays_locked path : locked (waiting path).
Proof. by exists "passphrase required". Qed.

Definition listing : PluginInput := PiList v_null.

Lemma locked_inert_witness :
  (run_plugin (λ _, "") listing (waiting "hsm_secret")).2 = waiting "hsm_secret" ∧
  ∃ e, (run_plugin (λ _, "") listing (waiting "hsm_secret")).1 = Err e.
Proof.
  destruct (locked_inert (λ _, "") (waiting "hsm_secret") listing (stays_locked _) eq_refl) as (H1 & H2 & _).
  split; [exact H1|exact (H2 eq_refl)].
Defined.

Definition open_it : Value := v_object [("passphrase_file", v_string "pass")].

Lemma unlock_all_or_nothing_witness :
  ∃ keys v p', handle_unlock open_it (waiting "hsm_secret") = (Ok v, p') ∧ runs_with keys (waiting "hsm_secret") p'.
Proof.
  destruct (unlock_all_or_nothing (waiting "hsm_secret") open_it (stays_locked _))
    as [[e He]|(pw & keys & v & p' & _ & _ & _ & Hun & Hrun & _)].
  - exfalso. apply (f_equal (λ x, match x.1 with Ok _ => true | Err _ => false end)) in He.
    vm_compute in He. discriminate.
  - exists keys, v, p'. split; [exact Hun|exact Hrun].
Defined.

Definition lightningd : PluginConfiguration := mkPluginConfiguration "" "rpc" "regtest".

Lemma startup_outcome_witness :
  ∃ p reason path, start_plugin (λ _, "") (λ _, Ok None) (λ _, true) (λ _, Ok 0) lightningd start = Ok p ∧
    pl_runtime p = Locked reason ∧ secret_keys p None = Some (Err (PassphraseRequired path)).
Proof.
  destruct (start_plugin (λ _, "") (λ _, Ok None) (λ _, true) (λ _, Ok 0) lightningd start) as [p|e] eqn:Hs.
  2: { exfalso. apply (f_equal is_ok) in Hs. vm_compute in Hs. discriminate. }
  pose proof (f_equal (λ r, match r with Ok p => match pl_runtime p with Locked _ => true | _ => false end | _ => false end) Hs) as Hl.
  destruct (startup_outcome (λ _, "") _ _ _ _ _ _ Hs) as (_ & _ & _ & _ & Hr).
  assert (match pl_runtime p with Locked _ => true | Unlocked _ => false end = true) as Ht
    by (rewrite <-Hl; vm_compute; reflexivity).
  destruct (pl_runtime p) as [reason|C] eqn:Hrun; [|discriminate]. destruct Hr as [path Hpath].
  exists p, reason, path. split_and!; [reflexivity|exact Hrun|exact Hpath].
Defined.

Definition attempt : PluginInput := PiUnlock (v_object [("passphrase", v_string "horse")]).

Lemma encrypted_secret_locks_for_ever_witness :
  locked (run_plugin (λ _, "") attempt (waiting "encrypted")).2.
Proof.
  refine (proj1 (encrypted_secret_locks_for_ever (λ _, "") (waiting "encrypted") _ (be_bytes 73 1)
            (stays_locked _) eq_refl _ _)).
  - vm_compute. reflexivity.
  - apply rtc_once. exists attempt. split; [exact I|reflexivity].
Defined.

End LockedExamples.
