(* ===== verification/PluginDispatch.v ===== *)
(** * From JSON to the controller ([src/main.rs])

    What a well-formed hook or notification does: the message of a [custommsg]
    payload reaches its handler unchanged, and the label a forward was sent under
    brings the payment's result back to that forward. *)
From S2P Require Import Prelude Text Bytes Codecs Crypto ChannelId Config Lcss Wire Sphinx State Store Node World Ledger Keys Json ClnStore ClnNode ChannelBase ChannelForward ChannelUpdate ChannelOpen ChannelAdmin ChannelSound ChannelInv Scenario PluginRequest Plugin PluginCommands PluginToy PluginSound.
From stdpp Require Import options.
From Stdlib Require Import Ascii.
#[local] Open Scope Z_scope.

Section Dispatch.
#[local] Set Default Proof Using "Type*".
Context {HC : Crypto} {HCL : CryptoLaws} {HO : OnionCrypto} {HK : KeyDerivation} {HP : PublicKeyText} {LP : PublicKeyTextLaws}.
Context {HJ : JsonValue} {LJ : JsonValueLaws} {HI : Invoices} {HE : Environment}.
Context {S V N : Type} {HS : Store S V} {HN : NodeActions N} {HPN : PluginNode N} {JA : AppJson V}.
Variable hex_error : string → string.
Local Notation P := (Plugin S V N).
Implicit Types (p : P).

(** ** Peer messages *)

(** Every message this code can send or receive is registered with lightningd,
    and a registered type is accepted. *)
Lemma tag_registered m : HostedMessage_wire_ok m →
  HostedMessage_tag m ∈ custommessages ∧ is_canopus_custom_tag (HostedMessage_tag m) = true.
Proof.
  intros Hm. assert (is_canopus_custom_tag (HostedMessage_tag m) = true) as H.
  { destruct m; try reflexivity. destruct Hm as [Hm _]. cbn in *. by destruct Hm as [-> | ->]. }
  split; [|done]. by apply bool_decide_eq_true in H.
Qed.

(** lightningd's payload for a peer's message. *)
Definition custommsg_payload (pk : PublicKey) (bytes : list byte) : Value :=
  v_object [("peer_id", v_string (pk_to_string pk)); ("payload", v_string (hex_encode bytes))].

Lemma custommsg_of_payload pk m bytes :
  HostedMessage_typed m → HostedMessage_wire_ok m → HostedMessage_encode m = Ok bytes →
  custommsg_of (custommsg_payload pk bytes) = Some (pk, mkDecodedHostedMessage m Strict).
Proof.
  intros Ht Hw He. unfold custommsg_of, custommsg_payload, parse_peer. json_get. cbn [or_else].
  json_get. rewrite pk_from_to_string, hex_decode_encode. cbn [map_err mbind option_bind].
  pose proof (decode_strict_encode _ _ Ht Hw He) as Hd. unfold decode_legacy_aware. rewrite Hd.
  apply encode_strict_ok in He as (b & _ & ->).
  rewrite ltb_false by (rewrite len_app, be_bytes_len; pose proof (len_nonneg b); lia).
  rewrite take_app_length' by (by rewrite be_bytes_length).
  rewrite be_Z_be_bytes_id by exact (HostedMessage_tag_u16 m Ht).
  destruct (tag_registered m Hw) as [_ ->]. done.
Qed.

(** C16. A message that a peer encodes reaches exactly its handler: for the hook
    payload of an encoded message the plugin notes the peer's encoding, hands the
    original message to the controller — to nobody if it is one that only clients
    handle — and tells lightningd to go on, unless the handler panicked. *)
Theorem custommsg_dispatch p C pk m bytes :
  pl_runtime p = Unlocked C →
  HostedMessage_typed m → HostedMessage_wire_ok m → HostedMessage_encode m = Ok bytes →
  let w := set_encodings (<[pk := Strict]> (w_encodings (pl_world p))) (pl_world p) in
  let out := match message_input pk m with
             | Some i => run_input C i w
             | None => (Ok tt, w)
             end in
  handle_custommsg (custommsg_payload pk bytes) p =
    (match out.1 with Err ErrPanic => Err (PChannel ErrPanic) | _ => Ok hook_continue end,
     with_world out.2 p).
Proof.
  intros Hr Ht Hw He w. unfold handle_custommsg, mbind, H_bind, is_locked, controller. rewrite Hr.
  rewrite (custommsg_of_payload pk m bytes Ht Hw He). rewrite Hr.
  unfold channel, in_world, caught. cbn [fst snd note_peer_wire_encoding map_err with_world pl_world dhm_message dhm_encoding].
  fold w. rewrite dispatch_is_input. destruct (message_input pk m) as [i|]; [|done].
  by destruct (run_input C i w) as [[[]|[]] w'].
Qed.

(** ** Payment labels *)

Lemma parse_label scid id : u64 scid → u64 id → parse_forward_label (slash scid id) = Some (scid, id).
Proof.
  intros Hs Hi. unfold parse_forward_label, split_once, slash.
  assert (lacks "/"%char (pretty scid) = true) as Hl1 by (apply pretty_Z_lacks; [apply Hs|done]).
  assert (lacks "/"%char (pretty id) = true) as Hl2 by (apply pretty_Z_lacks; [apply Hi|done]).
  change ("/" +:+ pretty id) with (String "/"%char (pretty id)).
  rewrite split_on_app, split_on_lacks by done. cbn [join_with].
  rewrite !parse_u64_pretty by done. done.
Qed.

Lemma parse_32_encode b : len b = 32 → parse_32_hex hex_error (hex_encode b) = Ok b.
Proof. intros Hb. unfold parse_32_hex, decode_hex. rewrite hex_decode_encode. cbn. by rewrite Hb. Qed.

(** lightningd's notification of a payment that went through. *)
Definition success_notification (label : string) (preimage : list byte) : Value :=
  v_object [("sendpay_success", v_object [("label", v_string label); ("status", v_string "complete");
                                          ("payment_preimage", v_string (hex_encode preimage))])].

(** lightningd's notification of a failed one, with the onion it got back. *)
Definition failure_notification (label : string) (onion : list byte) : Value :=
  v_object [("sendpay_failure", v_object
    [("code", v_u64 204); ("data", v_object [("label", v_string label); ("onionreply", v_string (hex_encode onion))])])].

(** C17. The label under which a forward is sent out brings its result back: the
    success and failure notifications for the label of a forward settle exactly
    that forward, with the preimage or the failure that lightningd reported. *)
Theorem payment_label_roundtrip p C scid id preimage onion :
  pl_runtime p = Unlocked C → u64 scid → u64 id → len preimage = 32 → onion ≠ [] →
  handle_sendpay_success hex_error (success_notification (slash scid id) preimage) p =
    channel (handle_outgoing_payment_result C scid id (Succeeded preimage)) p ∧
  handle_sendpay_failure (failure_notification (slash scid id) onion) p =
    channel (handle_outgoing_payment_result C scid id (PaymentFailed onion)) p.
Proof.
  intros Hr Hs Hi Hp Ho. split.
  - unfold handle_sendpay_success, nested, success_notification, get_str. json_get. cbn [from_option Datatypes.id]. json_get.
    rewrite parse_label by done. unfold mbind, H_bind, is_locked, controller, pure_result. rewrite Hr. cbn beta iota.
    cbn [ok_or result_bind]. rewrite parse_32_encode by done. by rewrite Hr.
  - unfold handle_sendpay_failure, nested, failure_notification, get_str. json_get. cbn [from_option Datatypes.id]. json_get. cbn [from_option Datatypes.id]. json_get.
    rewrite parse_label by done. unfold mbind, H_bind, is_locked, controller, pure_result. rewrite Hr. cbn beta iota.
    rewrite Hr. unfold sendpay_failure_payload. json_get. cbn [or_else]. json_get.
    rewrite hex_decode_encode. destruct onion as [|b onion]; [done|reflexivity].
Qed.

End Dispatch.

Module DispatchExamples.
Import PluginToy.

Definition claim_bytes : list byte :=
  match HostedMessage_encode (MUpdateFulfillHtlc fulfill_msg) with Ok l => l | Err _ => [] end.

Lemma claim_typed :
  HostedMessage_typed (MUpdateFulfillHtlc fulfill_msg) ∧ HostedMessage_wire_ok (MUpdateFulfillHtlc fulfill_msg) ∧
  HostedMessage_encode (MUpdateFulfillHtlc fulfill_msg) = Ok claim_bytes.
Proof. split; [by vm_compute|split; vm_compute; reflexivity]. Qed.

(** The peer's fulfilment arrives as JSON and settles the HTLC of the scenario. *)
Lemma custommsg_dispatch_witness :
  let p' := (handle_custommsg (custommsg_payload peer claim_bytes) (running carried)).2 in
  cd_uncommitted (data (pl_world p')) = cd_uncommitted (data fulfilled) ∧
  mn_htlc_resolutions (w_node (pl_world p')) = [("77/7", Resolve preimage)].
Proof.
  intros p'. destruct claim_typed as (Ht & Hw & He).
  pose proof (custommsg_dispatch (running carried) host peer _ claim_bytes eq_refl Ht Hw He) as Hd.
  unfold p'. rewrite Hd. cbn [snd with_world pl_world message_input]. split; vm_compute; reflexivity.
Defined.

(** The label of a forward, and its result. *)
Lemma payment_label_roundtrip_witness :
  handle_sendpay_success (λ _, "") (success_notification (slash 77 7) preimage) (running opened) =
    channel (handle_outgoing_payment_result host 77 7 (Succeeded preimage)) (running opened).
Proof.
  exact (proj1 (payment_label_roundtrip (λ _, "") (running opened) host 77 7 preimage [Byte.x01]
    eq_refl ltac:(by split) ltac:(by split) eq_refl ltac:(done))).
Defined.

End DispatchExamples.
