(* ===== verification/PluginSettings.v ===== *)
(** * Options, feature bits and the policy command ([src/main.rs])

    What the operator's settings can become: the values of the options and of
    [canopus-policy] stay inside the machine integers of a policy, and the bits
    announced are exactly the bits asked for. *)
From S2P Require Import Prelude Text Bytes Codecs Crypto ChannelId Config Lcss Wire Sphinx State Store Node World Ledger Keys Json ClnStore ClnNode ChannelBase ChannelForward ChannelUpdate ChannelOpen ChannelAdmin ChannelSound ChannelInv Scenario ChannelCommit PluginRequest Plugin PluginCommands PluginToy PluginSound.
From stdpp Require Import options.
#[local] Open Scope Z_scope.

(** ** The options *)

(** The options that set a field of the policy, and the field's width. *)
Definition integer_options : list (string * (ChannelPolicy → Z) * Z) :=
  [("canopus-capacity-msat", cp_channel_capacity_msat, 64);
   ("canopus-initial-balance-msat", cp_initial_client_balance_msat, 64);
   ("canopus-fee-base-msat", cp_fee_base_msat, 32);
   ("canopus-fee-ppm", cp_fee_proportional_millionths, 32);
   ("canopus-cltv-delta", cp_cltv_expiry_delta, 16);
   ("canopus-htlc-min-msat", cp_htlc_minimum_msat, 64);
   ("canopus-max-htlcs", cp_max_accepted_htlcs, 16);
   ("canopus-max-inflight-msat", cp_max_htlc_value_in_flight_msat, 64)].

Definition policy_typed (policy : ChannelPolicy) : Prop :=
  Forall (λ '(_, field, width), 0 ≤ field policy < 2 ^ width) integer_options.

(** What the field is set to: the option's integer modulo the field's width. *)
Definition option_field (o : result string (option OptionValue)) (width default_value : Z) : Z :=
  match o with Ok (Some (OInteger v)) => v mod 2 ^ width | _ => default_value end.

Section Options.
Variable option_str : string → result string (option OptionValue).
Variable url_parses : string → bool.
Variable file_length : string → result string Z.

Lemma option_value_ok name o : option_value option_str name = Ok o → option_str name = Ok o.
Proof. unfold option_value. by destruct (option_str name); intros [= ->]. Qed.

Lemma cast_field wrap width d name o : (∀ v, wrap v = v mod 2 ^ width) →
  option_str name = Ok o → or_default_cast wrap d o = option_field (option_str name) width d.
Proof. intros Hw ->. unfold or_default_cast. destruct o as [[]|]; try done. apply Hw. Qed.

Lemma option_field_range o width d : 0 ≤ width → 0 ≤ d < 2 ^ width → 0 ≤ option_field o width d < 2 ^ width.
Proof.
  intros Hw Hd. unfold option_field. destruct o as [[[]|]|]; try done.
  apply Z.mod_pos_bound. by apply Z.pow_pos_nonneg.
Qed.

Lemma policy_in_range policy :
  Forall (λ '(name, field, width),
    field policy = option_field (option_str name) width (field ChannelPolicy_default)) integer_options →
  policy_typed policy.
Proof.
  intros Hf. assert (Forall (λ '(_, field, width),
    0 ≤ width ∧ 0 ≤ field ChannelPolicy_default < 2 ^ width) integer_options) as Hd.
  { unfold integer_options. repeat constructor; cbn; lia. }
  eapply Forall_impl; [apply Forall_and; split; [exact Hf|exact Hd]|].
  intros [[name field] width] [Hx [Hw Hr]]. rewrite Hx. by apply option_field_range.
Qed.

Lemma validated c : Config_validate url_parses file_length c = Ok tt →
  cp_initial_client_balance_msat (cfg_policy c) ≤ cp_channel_capacity_msat (cfg_policy c) ∧
  (∀ color, br_color (cfg_branding c) = Some color →
     ∃ r g b, rgb_color c = Some (Some (r, g, b)) ∧ u8 r ∧ u8 g ∧ u8 b).
Proof.
  intros Hval. unfold Config_validate in Hval. cbv zeta in Hval.
  destruct (Z.ltb_spec (cp_channel_capacity_msat (cfg_policy c)) (cp_initial_client_balance_msat (cfg_policy c)));
    [done|]. split; [done|].
  intros color Hcolor. rewrite Hcolor in Hval. apply result_bind_ok in Hval as ([] & Hre & _).
  destruct (hex_color_re color) eqn:Hhex; [|done]. by apply (rgb_color_accepted _ color).
Qed.

(** C22. A configuration that the plugin starts with is in bounds: each option is
    taken modulo the width of its field — as given exactly when it fits, and
    wrapped without notice otherwise — the initial balance is within the
    capacity, and the color that clients are sent can be read from it. *)
Theorem options_bounds c :
  config_from_options option_str url_parses file_length = Ok c →
  policy_typed (cfg_policy c) ∧
  Forall (λ '(name, field, width),
    field (cfg_policy c) = option_field (option_str name) width (field ChannelPolicy_default)) integer_options ∧
  cp_initial_client_balance_msat (cfg_policy c) ≤ cp_channel_capacity_msat (cfg_policy c) ∧
  (∀ color, br_color (cfg_branding c) = Some color →
     ∃ r g b, rgb_color c = Some (Some (r, g, b)) ∧ u8 r ∧ u8 g ∧ u8 b).
Proof.
  intros Hc. unfold config_from_options in Hc. cbv zeta in Hc.
  do 13 (apply result_bind_ok in Hc as (? & ?%option_value_ok & Hc)).
  apply result_bind_ok in Hc as ([] & Hval & Hc). injection Hc as Hc.
  assert (Forall (λ '(name, field, width),
    field (cfg_policy c) = option_field (option_str name) width (field ChannelPolicy_default)) integer_options) as Hf.
  { subst c. unfold integer_options. repeat constructor; cbn [cfg_policy]; by apply cast_field. }
  split; [by apply policy_in_range|]. split; [exact Hf|]. subst c. by apply map_err_ok, validated in Hval.
Qed.

End Options.

(** ** Feature bits *)

Lemma be_Z_lor b l : be_Z (b :: l) = Z.lor (Z.shiftl (Z_of_byte b) (8 * len l)) (be_Z l).
Proof.
  pose proof (len_nonneg l). rewrite be_Z_cons, lor_disjoint_add; [|lia|].
  - rewrite Z.pow_mul_r by lia. done.
  - rewrite Z.pow_mul_r by lia. apply be_Z_bound.
Qed.

Lemma byte_lor (b : byte) bit : 0 ≤ bit < 8 →
  Z_of_byte (byte_of_Z (Z.lor (Z_of_byte b) (Z.shiftl 1 bit))) = Z.lor (Z_of_byte b) (Z.shiftl 1 bit).
Proof.
  intros Hbit. rewrite Z_of_byte_of_Z. apply Z.mod_small. pose proof (Z_of_byte_bound b) as Hb.
  rewrite Z.shiftl_1_l. pose proof (Z.pow_pos_nonneg 2 bit). split; [apply Z.lor_nonneg; lia|].
  destruct (decide (Z.lor (Z_of_byte b) (2 ^ bit) = 0)) as [->|Hne]; [lia|].
  apply (Z.log2_lt_pow2 _ 8); [pose proof (Z.lor_nonneg (Z_of_byte b) (2 ^ bit)); lia|].
  rewrite Z.log2_lor, Z.log2_pow2 by lia. apply Z.max_lub_lt; [|lia].
  destruct (decide (Z_of_byte b = 0)) as [->|]; [done|]. apply Z.log2_lt_pow2; lia.
Qed.

(** Setting a bit in the big-endian bytes sets that bit of their number. *)
Lemma set_feature_bit_spec l bit : 0 ≤ bit → bit / 8 < len l →
  len (set_feature_bit l bit) = len l ∧ be_Z (set_feature_bit l bit) = Z.lor (be_Z l) (Z.shiftl 1 bit).
Proof.
  intros H0 Hlt. split; [unfold len, set_feature_bit; by rewrite length_alter|].
  assert (0 ≤ bit / 8) as Hd by (apply Z.div_pos; lia). pose proof (Z.div_mod bit 8) as Hdm.
  pose proof (Z.mod_pos_bound bit 8) as Hm. induction l as [|b l IH]; [by unfold len in *; cbn in *; lia|].
  unfold set_feature_bit in *. rewrite len_cons in *. pose proof (len_nonneg l).
  destruct (decide (bit / 8 = len l)) as [Heq|Hne].
  - replace (Z.to_nat (len l + 1 - 1 - bit / 8)) with 0%nat by lia. cbn [alter list_alter].
    rewrite !be_Z_lor, byte_lor, Z.shiftl_lor, Z.shiftl_shiftl by lia.
    replace (bit mod 8 + 8 * len l) with bit by lia.
    by rewrite <-!Z.lor_assoc, (Z.lor_comm (Z.shiftl 1 bit)).
  - replace (Z.to_nat (len l + 1 - 1 - bit / 8)) with (Datatypes.S (Z.to_nat (len l - 1 - bit / 8))) by lia.
    cbn [alter list_alter]. rewrite !be_Z_lor. rewrite IH by lia. unfold len. rewrite length_alter.
    by rewrite Z.lor_assoc.
Qed.

Lemma set_bits bits l : Forall (λ bit, 0 ≤ bit ∧ bit / 8 < len l) bits →
  len (foldl set_feature_bit l bits) = len l ∧
  ∀ b, 0 ≤ b → Z.testbit (be_Z (foldl set_feature_bit l bits)) b =
               Z.testbit (be_Z l) b || bool_decide (b ∈ bits).
Proof.
  revert l. induction bits as [|bit bits IH]; intros l Hb; cbn [foldl].
  { split; [done|]. intros b _. by rewrite orb_false_r. }
  apply Forall_cons in Hb as [[H0 H1] Hb]. destruct (set_feature_bit_spec l bit H0 H1) as [Hlen Hval].
  destruct (IH (set_feature_bit l bit)) as [Hl Hbits]; [by rewrite Hlen|]. rewrite Hlen in Hl. split; [done|].
  intros b Hge. rewrite Hbits, Hval, Z.lor_spec, <-orb_assoc by done. f_equal.
  rewrite Z.shiftl_1_l. destruct (decide (b = bit)) as [->|Hne].
  - rewrite Z.pow2_bits_true by done. symmetry. apply bool_decide_eq_true. by left.
  - rewrite Z.pow2_bits_false by congruence. cbn. apply bool_decide_ext. set_solver.
Qed.

Lemma max_bit_bound bits : Forall (λ bit, 0 ≤ bit) bits → Forall (λ bit, 0 ≤ bit ≤ foldr Z.max 0 bits) bits.
Proof.
  induction 1 as [|bit bits H0 Hb IH]; constructor; cbn; [lia|].
  eapply Forall_impl; [exact IH|]. cbn. lia.
Qed.

(** The feature bits that are announced are exactly the ones asked for: bit [b]
    of the big-endian number is set when and only when [b] was asked for, the
    string is as short as the largest bit allows, and it decodes to these bytes. *)
Theorem feature_bits_exact `{CryptoLaws} bits :
  bits ≠ [] → Forall (λ bit, 0 ≤ bit) bits →
  hex_decode (compute_feature_bits_hex bits) = Some (feature_bits bits) ∧
  len (feature_bits bits) = foldr Z.max 0 bits / 8 + 1 ∧
  ∀ b, 0 ≤ b → Z.testbit (be_Z (feature_bits bits)) b = bool_decide (b ∈ bits).
Proof.
  intros Hne Hb. pose proof (max_bit_bound bits Hb) as Hmax. set (m := foldr Z.max 0 bits) in *.
  assert (0 ≤ m) as Hm by (destruct bits; [done|]; apply Forall_cons in Hmax; lia).
  set (zeros := be_bytes (Z.to_nat (m / 8 + 1)) 0).
  assert (0 ≤ m / 8) as Hq by (apply Z.div_pos; lia).
  assert (len zeros = m / 8 + 1) as Hz by (unfold zeros; rewrite be_bytes_len; lia).
  destruct (set_bits bits zeros) as [Hlen Hbits].
  { eapply Forall_impl; [exact Hmax|]. cbn. intros bit [Hlo Hhi]. split; [done|]. rewrite Hz.
    pose proof (Z.div_le_mono bit m 8). lia. }
  split; [|split].
  - unfold compute_feature_bits_hex. destruct bits; [done|]. apply hex_decode_encode.
  - unfold feature_bits. fold m zeros. by rewrite Hlen.
  - intros b Hge. unfold feature_bits. fold m zeros. rewrite Hbits by done.
    unfold zeros. rewrite be_Z_be_bytes, Z.mod_0_l, Z.bits_0; [done|]. apply Z.pow_nonzero; lia.
Qed.

(** ** The policy command *)

Section Policy.
#[local] Set Default Proof Using "Type*".
Context {HC : Crypto} {HO : OnionCrypto} {HK : KeyDerivation} {HP : PublicKeyText}.
Context {HJ : JsonValue} {LJ : JsonValueLaws} {HI : Invoices} {HE : Environment}.
Context {S V N : Type} {HS : Store S V} {HL : StoreLaws S V} {HN : NodeActions N} {HPN : PluginNode N}.
Context {JA : AppJson V} {LA : AppJsonLaws V}.
Local Notation P := (Plugin S V N).
Implicit Types (p : P).

Lemma narrow_range o to width msg r : (∀ v n, to v = Some n → v = n ∧ v < 2 ^ width) →
  (∀ v, o = Some v → u64 v) → narrow o to msg = Ok r →
  ∀ n, r = Some n → 0 ≤ n < 2 ^ width.
Proof.
  intros Hto Ho Hr n ->. unfold narrow, msg_or in Hr. destruct o as [v|]; [|done].
  apply result_bind_ok in Hr as (m & Hm%ok_or_ok & [= <-]). apply Hto in Hm as [<- Hlt].
  destruct (Ho v eq_refl). lia.
Qed.

Lemma default_range (o : option Z) d w :
  0 ≤ d < w → (∀ n, o = Some n → 0 ≤ n < w) → 0 ≤ default d o < w.
Proof. intros Hd Ho. destruct o; cbn; eauto. Qed.

Lemma u16_of_some v n : u16_of v = Some n → v = n ∧ v < 2 ^ 16.
Proof. unfold u16_of. destruct (Z.ltb_spec v (2 ^ 16)); naive_solver. Qed.
Lemma u32_of_some v n : u32_of v = Some n → v = n ∧ v < 2 ^ 32.
Proof. unfold u32_of. destruct (Z.ltb_spec v (2 ^ 32)); naive_solver. Qed.

Lemma param_u64_range r k v : param_u64 r k = Some v → u64 v.
Proof. apply bind_as_u64_range. Qed.

(** A request changes a field only to a number of the field's width. *)
Lemma requested_policy_typed r policy policy' changed :
  policy_typed policy → requested_policy r policy = Ok (policy', changed) →
  policy_typed policy' ∧ (changed = false → policy' = policy).
Proof.
  intros Hp Hr. unfold requested_policy in Hr. cbv zeta in Hr.
  apply result_bind_ok in Hr as (max_htlcs & H1 & Hr). apply result_bind_ok in Hr as (fee_base & H2 & Hr).
  apply result_bind_ok in Hr as (fee_ppm & H3 & Hr). apply result_bind_ok in Hr as (cltv & H4 & Hr).
  pose proof (param_u64_range r) as Hu.
  pose proof (narrow_range _ _ 16 _ _ u16_of_some (Hu _) H1) as R1.
  pose proof (narrow_range _ _ 32 _ _ u32_of_some (Hu _) H2) as R2.
  pose proof (narrow_range _ _ 32 _ _ u32_of_some (Hu _) H3) as R3.
  pose proof (narrow_range _ _ 16 _ _ u16_of_some (Hu _) H4) as R4.
  injection Hr as <- Hc. split.
  - unfold policy_typed, integer_options in *. rewrite !Forall_cons in Hp |- *. destruct_and! Hp.
    repeat first [apply default_range; [by split|intros n Hn; by (apply Hu in Hn || auto)] | apply conj | by constructor].
  - intros ->. unfold is_some in Hc. repeat (apply orb_false_iff in Hc as [Hc ?Hnone]).
    repeat match goal with H : match ?o with _ => _ end = false |- _ => destruct o; [done|clear H] end.
    by destruct policy.
Qed.

Lemma with_world_same p : with_world (pl_world p) p = p.
Proof. by destruct p. Qed.

(** Reading the policy only reads; what it reads is the record or the default. *)
Lemma effective_policy_cases C (w : World S V N) policy w' :
  effective_policy C w = (Ok policy, w') →
  w' = w ∧ ∀ g v, wview w policy_key = Some (g, v) → ∃ stored : ChannelPolicy, from_slice v = Ok stored.
Proof.
  unfold effective_policy, load_optional, attempt, mbind, M_bind.
  destruct (m_get_json policy_key w) as [r w1] eqn:Hg. apply m_get_json_inv in Hg as [-> Hr]; [|apply policy_key_ok].
  destruct (wview w policy_key) as [[g v]|].
  - destruct (from_slice v) as [stored|e] eqn:Hf.
    + rewrite Hr. cbn. intros [= _ <-]. split; [done|]. intros ? ? [= <- <-]. eauto.
    + destruct Hr as [e' ->]. by destruct e'.
  - rewrite Hr. cbn. by intros [= _ <-].
Qed.

(** A policy that was set is the one in effect. *)
Lemma set_policy_effective C (w : World S V N) policy :
  (∀ g v, wview w policy_key = Some (g, v) → ∃ stored : ChannelPolicy, from_slice v = Ok stored) →
  ∃ w', set_policy policy w = (Ok tt, w') ∧ effective_policy C w' = (Ok policy, w').
Proof.
  intros Hread. destruct (overwrite_wrote policy_key policy w policy_key_ok Hread) as (g & v & w' & Hs & Hf & Hw).
  exists w'. split; [done|]. pose proof (wrote_view _ _ _ _ _ _ Hw policy_key_ok) as Hv.
  rewrite decide_True in Hv by done. unfold effective_policy, load_optional, attempt, mbind, M_bind.
  by rewrite (m_get_json_present _ _ _ _ _ policy_key_ok Hv Hf).
Qed.

(** C23. [canopus-policy] sets a policy that is in bounds or nothing: a number too
    wide for its field, or an initial balance beyond the capacity, is refused and
    changes nothing; otherwise the policy that the request asks for, every field
    within its width, is the one in effect from then on, and a request without
    fields changes nothing. *)
Theorem policy_command_exact p C r policy :
  pl_runtime p = Unlocked C → (effective_policy C (pl_world p)).1 = Ok policy → policy_typed policy →
  match requested_policy r policy with
  | Err e => handle_policy r p = (Err e, p)
  | Ok (policy', changed) =>
      policy_typed policy' ∧
      if cp_channel_capacity_msat policy' <? cp_initial_client_balance_msat policy' then
        ∃ e, handle_policy r p = (Err e, p)
      else ∃ w', handle_policy r p =
                   (Ok (v_object [("policy", policy_value policy'); ("updated", v_bool changed)]), with_world w' p) ∧
             effective_policy C w' = (Ok policy', w') ∧ (changed = false → w' = pl_world p)
  end.
Proof.
  intros Hr He Hp. destruct (effective_policy C (pl_world p)) as [res w] eqn:Heff. cbn in He. subst res.
  pose proof (effective_policy_cases C _ _ _ Heff) as [-> Hread].
  assert (∀ k : ChannelPolicy → H (S := S) (V := V) (N := N) Value,
            (C ← controller; policy ← channel (effective_policy C); k policy) p = k policy p) as Hstart.
  { intros k. unfold mbind, H_bind, controller. rewrite Hr. unfold channel, in_world. rewrite Heff. cbn. by rewrite with_world_same. }
  unfold handle_policy. rewrite Hstart. unfold mbind, H_bind, pure_result.
  destruct (requested_policy r policy) as [[policy' changed]|e] eqn:Hreq; [|done].
  destruct (requested_policy_typed _ _ _ _ Hp Hreq) as [Ht Hsame]. split; [done|].
  destruct (_ <? _); [by eexists|]. destruct changed.
  - destruct (set_policy_effective C (pl_world p) policy' Hread) as (w' & Hs & He').
    exists w'. unfold channel, in_world. rewrite Hs. by split_and!.
  - exists (pl_world p). rewrite with_world_same, Hsame by done. by split_and!.
Qed.

End Policy.

Module SettingsExamples.
Import PluginToy.

(** 2^16 + 3 HTLCs is three. *)
Definition options_of (name : string) : result string (option OptionValue) :=
  if String.eqb name "canopus-max-htlcs" then Ok (Some (OInteger 65539))
  else if String.eqb name "canopus-color" then Ok (Some (OString "#a0b1c2")) else Ok None.

Lemma options_bounds_witness :
  ∃ c, config_from_options options_of (λ _, true) (λ _, Ok 0) = Ok c ∧
    cp_max_accepted_htlcs (cfg_policy c) = 3 ∧
    ∃ r g b, rgb_color c = Some (Some (r, g, b)) ∧ u8 r ∧ u8 g ∧ u8 b.
Proof.
  eexists. split; [reflexivity|].
  destruct (options_bounds options_of (λ _, true) (λ _, Ok 0) _ eq_refl) as (_ & _ & _ & Hcolor).
  split; [reflexivity|]. apply (Hcolor "#a0b1c2"). reflexivity.
Defined.

Lemma feature_bits_exact_witness :
  Z.testbit (be_Z (feature_bits [32973; 0; 9])) 9 = true ∧ Z.testbit (be_Z (feature_bits [32973; 0; 9])) 10 = false.
Proof.
  destruct (feature_bits_exact [32973; 0; 9]) as (_ & _ & Hb);
    [discriminate|by repeat constructor|].
  split; by rewrite Hb by lia.
Defined.

Definition lower_fee : Value := v_object [("fee_base_msat", v_u64 17)].

Lemma policy_command_exact_witness :
  ∃ w', handle_policy lower_fee (running opened) =
          (Ok (v_object [("policy", policy_value (mkChannelPolicy 100000000 40000000 100000000 1000 12 17 1000 6));
                         ("updated", v_bool true)]), with_world w' (running opened)) ∧
    effective_policy host w' = (Ok (mkChannelPolicy 100000000 40000000 100000000 1000 12 17 1000 6), w').
Proof.
  assert ((effective_policy host (pl_world (running opened))).1 = Ok policy) as He by (vm_compute; reflexivity).
  destruct (policy_command_exact (running opened) host lower_fee policy eq_refl He) as (_ & w' & H1 & H2 & _).
  { by repeat constructor. }
  exists w'. split; [exact H1|exact H2].
Defined.

End SettingsExamples.
