(* ===== verification/PluginVerify.v ===== *)
(** * Exporting and verifying a signed state ([src/main.rs])

    [canopus-lcss] and [canopus-verify] together: what one answers, saved as a
    file, is what the other checks. *)
From S2P Require Import Prelude Text Bytes Codecs Crypto ChannelId Config Lcss Wire Sphinx State Store Node World Ledger Keys Json Persist ClnStore ClnNode ChannelBase ChannelForward ChannelUpdate ChannelOpen ChannelAdmin ChannelSound ChannelInv Scenario PluginRequest Plugin PluginCommands PluginToy PluginSound.
From stdpp Require Import options.
#[local] Open Scope Z_scope.

Section Verify.
#[local] Set Default Proof Using "Type*".
Context {HC : Crypto} {HCL : CryptoLaws} {HO : OnionCrypto} {HK : KeyDerivation} {HP : PublicKeyText} {LP : PublicKeyTextLaws}.
Context {HJ : JsonValue} {LJ : JsonValueLaws} {HI : Invoices} {HE : Environment}.
(** What [canopus-lcss] answers for a channel. *)
Definition exported (peer : PublicKey) (d : ChannelData) : Value :=
  v_object [("peer_id", v_string (pk_to_string peer)); ("lcss", lcss_value (cd_lcss d))].

Lemma verify_exported path contents peer other d local_node :
  env_read_to_string path = Ok contents → value_from_str contents = Ok (exported peer d) → Lcss_typed (cd_lcss d) →
  verify_lcss_export path other local_node =
    if decide (other = peer) then
      Ok (verify_remote_sig (cd_lcss d) peer, verify_remote_sig (lcss_reverse (cd_lcss d)) local_node)
    else Err (Msg "lcss_file peer_id does not match peer_id").
Proof.
  intros Hfile Htext Ht. unfold verify_lcss_export, msg_or, get_str, parse_peer. rewrite Hfile. cbn [map_err mbind result_bind].
  rewrite Htext. cbn [map_err mbind result_bind]. unfold exported. json_get. cbn [ok_or mbind result_bind].
  rewrite pk_from_to_string. cbn [map_err mbind result_bind]. case_decide as Heq.
  - subst other. rewrite bool_decide_eq_true_2 by done. cbn [negb ok_or mbind result_bind].
    unfold lcss_from_value, lcss_value. by rewrite (lawful (c := c_lcss)).
  - by rewrite bool_decide_eq_false_2 by congruence.
Qed.

Context {S V N : Type} {HS : Store S V} {HL : StoreLaws S V} {HN : NodeActions N} {HPN : PluginNode N}.
Context {JA : AppJson V} {LA : AppJsonLaws V}.
Local Notation P := (Plugin S V N).
Implicit Types (p : P).

Lemma load_channel_at (w : World S V N) peer d : channel_at w peer d → load_channel peer w = (Ok (Some d), w).
Proof.
  intros (g & v & Hv & Hf). pose proof (load_channel_cases w peer) as Hl. rewrite Hv in Hl.
  unfold load_channel, load_optional, mbind, M_bind, attempt.
  by rewrite (m_get_json_present _ _ _ _ _ (channel_key_ok peer) Hv Hf).
Qed.

Lemma show_exports p C r peer d :
  pl_runtime p = Unlocked C → channel_at (pl_world p) peer d → peer_argument r 0 = Ok peer →
  handle_show_lcss r p = (Ok (exported peer d), p).
Proof.
  intros Hr Hat Hp. unfold handle_show_lcss, mbind, H_bind, pure_result, controller. rewrite Hp, Hr.
  unfold channel, in_world. rewrite (load_channel_at _ _ _ Hat). cbn. by destruct p.
Qed.

(** C18. An exported state verifies: when the answer of [canopus-lcss] for a channel
    is saved, [canopus-verify] on that file says of each side whether its
    signature of the stored state is valid — both, for a state that was
    cross-signed — and refuses the file for any other peer; neither command
    changes anything. *)
Theorem export_verifies p C r peer d :
  pl_runtime p = Unlocked C → channel_at (pl_world p) peer d → Lcss_typed (cd_lcss d) →
  peer_argument r 0 = Ok peer →
  handle_show_lcss r p = (Ok (exported peer d), p) ∧
    ∀ path contents r' other,
      env_read_to_string path = Ok contents → value_from_str contents = Ok (exported peer d) →
      arg_str r' 0 "lcss_file" = Some path → peer_argument r' 1 = Ok other →
      if decide (other = peer) then
        let remote_valid := verify_remote_sig (cd_lcss d) peer in
        let local_valid := verify_remote_sig (lcss_reverse (cd_lcss d)) (ctl_node_public C) in
        handle_verify r' p = (Ok (v_object
          [("peer_id", v_string (pk_to_string peer));
           ("remote_signature_valid", v_bool remote_valid);
           ("local_signature_valid", v_bool local_valid);
           ("valid", v_bool (remote_valid && local_valid))]), p)
      else handle_verify r' p = (Err (Msg "lcss_file peer_id does not match peer_id"), p).
Proof.
  intros Hr Hat Ht Hp. split; [by eapply show_exports|].
  intros path contents r' other Hfile Htext Hpath Hother.
  pose proof (verify_exported path contents peer other d (ctl_node_public C) Hfile Htext Ht) as Hv.
  unfold handle_verify, required, mbind, H_bind, pure_result, controller. rewrite Hpath. cbn [ok_or].
  rewrite Hother, Hr, Hv. case_decide as Heq; [by subst other|done].
Qed.

End Verify.

Module VerifyExamples.
Import PluginToy.

Definition peer_text : string := pk_to_string (peer : @PublicKey Toy.crypto).
Definition show_request : Value := v_object [("peer_id", v_string peer_text)].
Definition verify_request : Value :=
  v_object [("lcss_file", v_string "lcss.json"); ("peer_id", v_string peer_text)].

(** JSON in which the saved file is the export of the settled channel. *)
Definition file_json : JsonValue :=
  json_with (λ _, Ok (exported (HJ := json) (peer : @PublicKey Toy.crypto) (data settled))).

#[local] Instance file_json_laws : @JsonValueLaws file_json := laws_with _.

Lemma settled_typed : Lcss_typed (cd_lcss (data settled)).
Proof. apply (bool_decide_unpack _). vm_compute. exact I. Qed.

Lemma settled_at : channel_at settled peer (data settled).
Proof. apply data_at. vm_compute. reflexivity. Qed.

Lemma export_verifies_witness :
  (handle_verify (HJ := file_json) verify_request (running settled)).1 =
    Ok (v_object [("peer_id", v_string peer_text); ("remote_signature_valid", v_bool true);
                  ("local_signature_valid", v_bool true); ("valid", v_bool true)]).
Proof.
  destruct (export_verifies (HJ := file_json) (running settled) host show_request peer (data settled) eq_refl settled_at settled_typed)
    as [_ Hverify]; [reflexivity|].
  specialize (Hverify "lcss.json" "exported" verify_request peer eq_refl eq_refl eq_refl eq_refl).
  rewrite decide_True in Hverify by done. cbn zeta in Hverify. rewrite Hverify. vm_compute. reflexivity.
Defined.

End VerifyExamples.
