(* ===== verification/PluginFindings.v ===== *)
(** * Requests that show the plugin's limits ([src/main.rs])

    The incoming amount that the hook does not look at, in every state of the plugin;
    and evaluations of the plugin of [PluginToy]: an HTLC that lightningd offers again,
    an HTLC whose forward is worth more than it, and the listing of secrets. *)
From S2P Require Import Prelude Text Bytes Codecs Crypto ChannelId Config Lcss Wire Sphinx State Store Node World Ledger Keys Json ClnStore ClnNode ChannelBase ChannelForward ChannelUpdate ChannelOpen ChannelAdmin ChannelSound ChannelInv Scenario PluginRequest Plugin PluginCommands PluginToy PluginSound.
From stdpp Require Import options.
#[local] Open Scope Z_scope.

Section Ignored.
Context {HC : Crypto} {HO : OnionCrypto} {S V N : Type} {HS : Store S V} {HN : NodeActions N}
  {HPN : PluginNode N} {JA : AppJson V} {HJ : JsonValue} (hex_error : string → string).

(** Two HTLCs of lightningd that differ in nothing but the amount that comes in. *)
Record differ_in_amount (htlc1 htlc2 : Value) : Prop := {
  dia_same k : k ≠ "amount_msat" → v_get k htlc1 = v_get k htlc2;
  dia_amount1 : is_Some (v_get "amount_msat" htlc1 ≫= parse_msat);
  dia_amount2 : is_Some (v_get "amount_msat" htlc2 ≫= parse_msat);
}.

(** What the onion asks to forward. *)
Definition forward_amount (onion : Value) : option Z :=
  or_else (v_get "forward_amount" onion) (v_get "forward_msat" onion) ≫= parse_msat.

Lemma accepted_htlc_same htlc1 htlc2 onion amount target :
  differ_in_amount htlc1 htlc2 → forward_amount onion = Some amount →
  accepted_htlc hex_error htlc1 onion target = accepted_htlc hex_error htlc2 onion target.
Proof.
  intros [Hsame [a1 H1] [a2 H2]] Hf. unfold accepted_htlc, msg_or, get_str, get_u64.
  unfold forward_amount in Hf. rewrite H1, H2, Hf, !Hsame by done. done.
Qed.

Lemma accepted_htlc_offers htlc onion amount target a :
  forward_amount onion = Some amount → accepted_htlc hex_error htlc onion target = Ok a →
  uah_amount_msat (ah_htlc a) = amount.
Proof.
  intros Hf. unfold forward_amount in Hf. unfold accepted_htlc. rewrite Hf.
  unfold mbind, result_bind.
  repeat case_match; intros; by simplify_eq/=.
Qed.

(** C40. The hook does not compare what comes in with what goes out.  For any two
    calls whose HTLCs differ in nothing but the amount that comes in, with an onion that
    asks to forward an amount, the hook does exactly the same, in every state of the
    plugin; and the HTLC it puts on the hosted channel is of the amount the onion asks
    for.  Nothing else stands between an HTLC of one satoshi and a forward of two
    thousand: the host would pay the difference. *)
Theorem incoming_amount_ignored htlc1 htlc2 onion amount request1 request2 (p : Plugin S V N) :
  v_get "htlc" request1 = Some htlc1 → v_get "htlc" request2 = Some htlc2 →
  v_get "onion" request1 = Some onion → v_get "onion" request2 = Some onion →
  differ_in_amount htlc1 htlc2 → forward_amount onion = Some amount →
  handle_htlc_accepted hex_error request1 p = handle_htlc_accepted hex_error request2 p ∧
  ∀ target a, accepted_htlc hex_error htlc1 onion target = Ok a → uah_amount_msat (ah_htlc a) = amount.
Proof.
  intros H1 H2 Ho1 Ho2 Hd Hf. split; [|intros; by eapply accepted_htlc_offers].
  unfold handle_htlc_accepted, pure_result, mbind, H_bind. rewrite H1, H2, Ho1, Ho2. cbn [msg_or ok_or].
  destruct (is_locked p) as [[[]|?] p0]; [done| |done]. destruct (controller p0) as [[C|?] p1]; [|done].
  destruct (option_bind _ _ _ (get_str "short_channel_id" onion)) as [target|]; [|done].
  by rewrite (accepted_htlc_same htlc1 htlc2 onion amount target).
Qed.

End Ignored.

Module PluginFindings.
Import PluginToy.

(** lightningd's hook call for an incoming HTLC (channel 77x0x0, id 7) to the peer's channel. *)
Definition hooked_htlc (amount_msat : Z) : Value := v_object
  [("short_channel_id", v_string "77x0x0"); ("id", v_u64 7);
   ("amount_msat", v_u64 amount_msat); ("cltv_expiry", v_u64 1700);
   ("payment_hash", v_string (hex_encode (Toy.digest preimage)))].
Definition hooked_onion (forward_msat : Z) : Value := v_object
  [("short_channel_id", v_string (format_short_channel_id (hosted_short_channel_id host_sk peer)));
   ("forward_msat", v_u64 forward_msat); ("outgoing_cltv_value", v_u64 1600);
   ("next_onion", v_string (hex_encode (be_bytes 1366 0)))].
Definition hook_call (amount_msat forward_msat : Z) : Value :=
  v_object [("htlc", hooked_htlc amount_msat); ("onion", hooked_onion forward_msat)].

Definition hooked (r : Value) (p : P) : P := (handle_htlc_accepted (λ _, "") r p).2.

(** The amounts and links of the HTLCs a plugin has pending towards the peer. *)
Definition pending_adds (p : P) : list (Z * Z) :=
  omap (λ u, match u with ULocal (PAdd h) => Some (uah_id h, uah_amount_msat h) | _ => None end)
    (cd_uncommitted (data (pl_world p))).
Definition link_of (p : P) (id : Z) : option (Z * Z) :=
  match load_optional (A := ForwardLink) (forward_key (hosted_short_channel_id host_sk peer) id) (pl_world p) with
  | (Ok (Some (l, _)), _) => Some (fl_incoming_scid l, fl_incoming_htlc_id l)
  | _ => None
  end.

Definition scid_77 : Z := 77 * 2 ^ 40.

(** An HTLC that lightningd offers twice is forwarded twice, here on an open channel: the hook does not
    look for a forward of the same incoming HTLC, so when the call is replayed
    after a restart a second HTLC goes to the peer, and both answer for the one
    that came in. *)
Theorem replayed_htlc_forwards_twice :
  let p1 := hooked (hook_call 2010000 2000000) (running opened) in
  let p2 := hooked (hook_call 2010000 2000000) p1 in
  pending_adds p1 = [(1, 2000000)] ∧ pending_adds p2 = [(1, 2000000); (2, 2000000)] ∧
  link_of p2 1 = Some (scid_77, 7) ∧ link_of p2 2 = Some (scid_77, 7).
Proof. split_and!; vm_compute; reflexivity. Qed.

(** An HTLC of one satoshi whose onion asks to forward two thousand is forwarded in
    full. *)
Theorem underpaid_forward_accepted :
  pending_adds (hooked (hook_call 1000 2000000) (running opened)) = [(1, 2000000)].
Proof. vm_compute. reflexivity. Qed.

Definition secret_hex : string := hex_encode (Crypto := Toy.crypto) (be_bytes 32 1234567).
Definition adding : Value :=
  v_object [("secret", v_string secret_hex); ("capacity_msat", v_u64 1000000); ("initial_balance_msat", v_u64 0)].

(** The secrets are listed in clear: what [canopus-addsecret] was given is what
    [canopus-listsecrets] answers, although it is described as redacted. *)
Theorem secrets_listed_in_clear :
  (handle_list_secrets v_null (handle_add_secret adding (running opened)).2).1 =
    Ok (v_object [("secrets", v_array [v_string secret_hex])]).
Proof. vm_compute. reflexivity. Qed.

(** The same hook call with one satoshi and with enough. *)
Lemma incoming_amount_ignored_witness :
  handle_htlc_accepted (λ _, "") (hook_call 1000 2000000) (running opened) =
    handle_htlc_accepted (λ _, "") (hook_call 2010000 2000000) (running opened) ∧
  pending_adds (hooked (hook_call 1000 2000000) (running opened)) = [(1, 2000000)].
Proof.
  split; [|vm_compute; reflexivity].
  refine (proj1 (incoming_amount_ignored (λ _, "") (hooked_htlc 1000) (hooked_htlc 2010000) (hooked_onion 2000000) 2000000
    (hook_call 1000 2000000) (hook_call 2010000 2000000) (running opened) eq_refl eq_refl eq_refl eq_refl _ _)).
  - split; [|vm_compute; eauto..]. intros k Hk. cbn -[String.eqb]. rewrite !(proj2 (String.eqb_neq "amount_msat" k)) by done. done.
  - vm_compute. reflexivity.
Defined.

End PluginFindings.
